(* ===== verification/_CoqProject ===== *)
-Q . S2P
Prelude.v
CrushHash.v
CrushTypes.v
CrushLn.v
CrushBucket.v
CrushPerm.v
CrushChoose.v
CrushStraw2.v
CrushMapper.v
CrushWf.v
CrushFirstn.v
CrushIndep.v
CrushRule.v
CrushPlace.v
CrushBuilder.v
CrushBuilt.v
CrushTreeMake.v
CrushItems.v
CrushSample.v
CrushTheorems.v
Bits.v
Encoding.v
BufferList.v
Hobject.v
HobjectOrder.v
HobjectCodec.v
IntervalSet.v
IntervalSpec.v
IntervalSets.v
IntervalQueries.v
IntervalTheorems.v
PgTypes.v
PgMap.v
OsdMap.v
OsdMapSpec.v
OsdMapCrush.v
PgTheorems.v
StoreTheorems.v
OsdMapActing.v
OsdTheorems.v
StrHash.v
Striper.v
StriperSpec.v
StriperMap.v
StriperRead.v
StriperTheorems.v
Frag.v
FragSpec.v
FragTree.v
FragOps.v
FragForce.v
FragSet.v
FragTheorems.v
PgLog.v
PgHist.v
PgDivergent.v
PgRewind.v
PgMergeLog.v
PgReplica.v
PgRecover.v
PgLogTheorems.v
Paxos.v
PaxosVote.v
PaxosNet.v
PaxosInv.v
PaxosFrame.v
PaxosStore.v
PaxosSteps.v
PaxosPropose.v
PaxosLeader.v
PaxosPeon.v
PaxosEpoch.v
PaxosSafety.v
Elector.v
Monitors.v
MonitorsSafety.v
Elections.v
PaxosLive.v
PaxosLog.v
MonTheorems.v
