(* ===== verification/Prelude.v ===== *)
(** * A verification library for Ceph

    Ceph stores objects on OSDs.  A file is striped over objects; the name of
    an object is hashed to a placement group of its pool; the group is mapped
    to OSDs by CRUSH, a pseudo-random function of a map of the cluster, and by
    the corrections the OSD map holds; the OSDs of a group keep a log of its
    writes, from which they find what they miss after a failure; the maps
    themselves are agreed on by monitors that run Paxos.  This library models that path and the data
    structures on it, as executable functions translated from the C and C++
    sources under src/src/, and proves what each part promises to the next.

    ** Conventions

    An integer of [w] bits is a [Z]; each operation that can leave its range
    is followed by the conversion of its type ([uw], [sw] and the notations
    [u32], [u64], [s32], [s64], [+u], [<<u] and so on, below).  A function that
    can fail returns in the monad [res]: [Ret] is a result, [Fault] is
    undefined behaviour, a failed assertion or an exception that nothing
    catches, [NoFuel] a loop that was cut off.  Arrays are lists, with accesses
    that are checked ([aget], [aset]); so a theorem that a function returns says that it stays
    in bounds, that its assertions hold and that its loops end.  Error codes
    are values.  Constants have the names of the macros and enumerators they
    stand for.  Output arguments and changed objects are results.  Log
    messages, counters for statistics and locks are left out.

    ** CRUSH (src/src/crush/)

    - CrushHash.v: hash.c.  The Jenkins mix is a bijection on states.
    - CrushTypes.v: crush.h and crush.c, the map, buckets, rules, workspace.
    - CrushLn.v: [crush_ln] and its tables (crush_ln_table.h).
    - CrushBucket.v, CrushMapper.v: mapper.c, the choice in a bucket of each of
      the five algorithms, [crush_choose_firstn], [crush_choose_indep],
      [crush_init_workspace], [crush_do_rule].
    - CrushBuilder.v: builder.c, all functions; floating point is the class
      [DoubleOps], the success of allocations and the content of
      uninitialised memory are parameters.
    - CrushPerm.v, CrushChoose.v, CrushStraw2.v: what a choice in a bucket
      guarantees; CrushWf.v, CrushFirstn.v, CrushIndep.v, CrushRule.v,
      CrushPlace.v: the mapper on well-formed maps; CrushBuilt.v,
      CrushTreeMake.v, CrushItems.v: the builder makes well-formed buckets.
    - CrushSample.v: a cluster of four devices on which theorems are applied.
    - CrushTheorems.v: rules run to their end and stay in bounds; replicated
      and erasure-coded rules return distinct devices that are not out, in
      distinct failure domains; the choice in a bucket does not depend on
      earlier choices; changes of weights and items of straw2 buckets move inputs
      only to or from the item; the logarithm has 48 bits and is monotone.

    Fuel of the mapper: the search of [crush_choose_firstn] for one replica
    makes at most [tries] descents with their local retries, [budget] of
    CrushFirstn.v; that the fuel exceeds it is a hypothesis of the theorems,
    which any large number meets and the sample cluster shows.  The map must have
    no cycles, which a rank on its buckets states.

    ** Object names, encodings, sets of intervals

    - Bits.v: the bit reversals of intarith.h and common/reverse.c.
    - Encoding.v: include/encoding.h, base types, strings, vectors and the
      versioned structures of [ENCODE_START] and [DECODE_START].  [RoundTrip]
      is the interface between a codec and the codecs built from it.
    - BufferList.v: the iterator of a buffer list (common/buffer.cc), which
      refines the flat buffer that decoders are written on.
    - Hobject.v, HobjectOrder.v, HobjectCodec.v: common/hobject.h and
      hobject.cc, [hobject_t] and [ghobject_t].
    - StoreTheorems.v: the orders are total and agree with equality; encodings
      are read back, also by older code from newer structures.
    - IntervalSet.v: include/interval_set.h, all operations over 64-bit
      numbers.  IntervalSpec.v, IntervalSets.v, IntervalQueries.v and
      IntervalTheorems.v show that they compute on sets
      of numbers; the two algorithms for intersection and for inclusion agree.
      Loops over one or two maps have the sum of their lengths as fuel.

    ** Placement groups and the OSD map

    - PgTypes.v, PgMap.v, PgTheorems.v: [pg_t] and the mapping part of
      [pg_pool_t] (osd/osd_types.h, osd_types.cc), [ceph_stable_mod]
      (include/rados.h).  When the number of groups changes, objects move only
      between a group and its ancestor; [is_split] and [is_merge_source] find
      exactly these groups; a group is a contiguous range of the store.  The
      loops of [is_split] and [is_merge_source] have a fuel derived from the
      numbers of groups, and the theorems show that it is enough.
    - OsdMap.v: the mapping functions of osd/OSDMap.cc, from a group to its up
      and acting OSDs.  The class [Placement] is what they ask of CRUSH; the
      instance is [CrushWrapper] (crush/CrushWrapper.h).
    - OsdMapSpec.v, OsdMapCrush.v, OsdMapActing.v, OsdTheorems.v: the up set
      holds OSDs that are up, none twice, with the primary among them, where no
      explicit mapping repeats an OSD; the acting set is what is up of the
      temporary mapping, or the up set; for groups without explicit mapping the
      placement of CRUSH survives in the up set; explicit mappings are the
      substitutions that are documented, where they name OSDs.

    ** Files

    - StrHash.v: common/ceph_hash.cc, [pg_pool_t::hash_key],
      [OSDMap::object_locator_to_pg].
    - Striper.v: osdc/Striper.cc and Striper.h, with the layouts of
      include/fs_types.h.  StriperSpec.v has the two maps between positions of
      a file and of its objects; with StriperMap.v and StriperRead.v it relates
      the code to them.  A range of [len] bytes has at
      most [len / su + 2] blocks, the fuel of the two loops.
    - StriperTheorems.v: extents cover a range exactly; objects read in any
      order are put together to the bytes of the file; truncated sizes are
      exact; and the whole path from a byte of a file to OSDs in distinct
      failure domains ([file_to_osds]).

    ** Fragments of directories

    - Frag.v: include/ceph_frag.h, common/ceph_frag.cc and include/frag.h:
      fragments of the 24-bit space of hashes, trees of splits and sets of
      fragments.
    - FragSpec.v, FragTree.v, FragOps.v, FragForce.v, FragSet.v: fragments as
      sets of hashes, well-formed trees, and what each operation does to them.
    - FragTheorems.v: the leaves of a tree partition the hashes; splitting,
      merging and [force_to_leaf] move exactly the hashes they should, with no
      failed assertion; a set contains a fragment when its hashes are covered.

    A walk over a tree has the number of its nodes as fuel, a path of fragments
    26 steps, as a fragment has at most 24 bits, and the simplification of a
    set its length; the theorems show that this is enough.

    ** The log of a placement group

    - PgLog.v: osd/PGLog.h and PGLog.cc with the log and the missing set of
      osd_types.h: the log and its index by object, merging a log into another,
      rewinding, replica logs, appending, recovery and trimming.  The class
      [LogEntryHandler] is the object store as the log sees it, [ObjOrder] the
      order of objects.
    - PgHist.v: the history of a group, its writes from the first one on, and
      [osd_ok], when an OSD is at the end of one; [StoreLaws], what the log
      relies on of the store: it removes what it is told to, and can take back
      a write while it keeps what it needs for that.
    - PgDivergent.v, PgRewind.v, PgMergeLog.v, PgReplica.v, PgRecover.v: each
      operation on histories.  An OSD at the end of [p ++ d] that merges the log
      of one at the end of [p ++ n] is then at the end of [p ++ n]
      ([merge_log_ok]); the primary finds the missing set of a replica
      ([proc_replica_log_ok]); recovery in any order completes
      ([recovery_ok]); trimming keeps the rest of the log and the tracked
      requests ([pg_trim_ok]).
    - PgLogTheorems.v: a store that keeps the laws and the objects of Hobject.v
      as instances of the interfaces, the runs the theorems are applied to, and
      a run in which [rmissing] loses an object ([merge_loses_order]).

    All loops are structural.

    ** Monitors (src/src/mon/)

    - Paxos.v: Paxos.cc, every handler of one monitor, with its store.
    - Elector.v: Elector.cc, every handler, and what Monitor.cc does when an
      election is won or lost; a monitor that probes drops election messages.
    - PaxosNet.v, Monitors.v: a cluster of [N] monitors as steps; messages may
      be lost, monitors restart with what their store holds.
    - PaxosVote.v: agreement without messages; PaxosInv.v, PaxosFrame.v,
      PaxosStore.v, PaxosSteps.v, PaxosPropose.v, PaxosLeader.v, PaxosPeon.v,
      PaxosEpoch.v, PaxosSafety.v, MonitorsSafety.v: the invariant that ties
      the monitors to it.  Elections.v: the invariant of elections.
      PaxosLive.v: requests are committed.  PaxosLog.v: refinement of a log.
    - MonTheorems.v: agreement and refinement of one append-only log in every
      run whose restarts keep the promise; a run without this condition in
      which two monitors commit different values; elections have majorities;
      a connected quorum commits what its leader is given, in every order of
      requests, deliveries and writes.  It has the schedules that are computed.

    Runs are lists of events of any length.  Handlers of the monitors are
    structural; the flush of the store takes an answer of the services for each
    write from the event, any list of them, so that no run is cut off.

    ** Not modelled

    - The monitors' services, probes, synchronisation of stores and sessions:
      Paxos takes the operations of the services as a parameter, and a probing
      monitor may start an election at any time.  Monmaps that change are left
      out, so that ranks are fixed, and so are those of one monitor, whose
      bootstrap wins without an election.
    - CrushWrapper beyond what OSDMap calls, the compiler and the tester of
      maps: names, device classes and text.
    - Incremental OSD maps, balancing and health checks; the parts of
      osd_types.h that are neither placement groups nor their log.
    - The indexes of the log by request, the splitting and merging of logs with
      their group, and the log on disk, which is pairs of keys and encodings in
      an object store.  Parsing, printing and the encoding of fragments.
    - The OSD daemon, object stores, the messenger, clients, the metadata
      server, librbd, the gateway and the manager: they are threads,
      callbacks, sockets and devices, whose correctness depends on what runs
      at the same time; a sequential function would not be faithful to them.
    - Erasure codes, compression, cryptography, RocksDB: libraries outside the
      tree. *)

From stdpp Require Export base list numbers option.
From Stdlib Require Export ZArith Lia.

(** ** Scope of the machine-integer notations *)

Declare Scope mach_scope.
Delimit Scope mach_scope with mach.

Open Scope Z_scope.

(** ** Machine integers

    A [w]-bit C integer is a [Z]; every operation that can leave the range is
    followed by the conversion of its type.  [uw w] is the conversion to an
    unsigned type and [sw w] the (two's complement) conversion to a signed
    type of [w] bits. *)

Definition uw (w z : Z) : Z := z mod 2 ^ w.

Definition sw (w z : Z) : Z := (z + 2 ^ (w - 1)) mod 2 ^ w - 2 ^ (w - 1).

Notation u8 := (uw 8).
Notation u16 := (uw 16).
Notation u32 := (uw 32).
Notation u64 := (uw 64).
Notation s32 := (sw 32).
Notation s64 := (sw 64).

Notation "a +u b" := (u32 (a + b)) (at level 50, left associativity) : mach_scope.
Notation "a -u b" := (u32 (a - b)) (at level 50, left associativity) : mach_scope.
Notation "a *u b" := (u32 (a * b)) (at level 40, left associativity) : mach_scope.
Notation "a <<u k" := (u32 (Z.shiftl a k)) (at level 35, no associativity) : mach_scope.
Notation "a >>u k" := (Z.shiftr a k) (at level 35, no associativity) : mach_scope.
Notation "a ^u b" := (Z.lxor a b) (at level 52, left associativity) : mach_scope.

Definition is_u (w z : Z) : Prop := 0 <= z < 2 ^ w.

Definition is_s (w z : Z) : Prop := - 2 ^ (w - 1) <= z < 2 ^ (w - 1).

(** ** Results of C code

    [Ret] is a value, [Fault] a run the language gives no meaning to (an
    access outside an array, the dereference of a null pointer, a division by
    zero, a failed [assert] or [BUG_ON]), and [NoFuel] a loop that used up the
    iterations the model was given. *)

Inductive res (A : Type) : Type :=
  | Ret (a : A)
  | Fault
  | NoFuel.
Arguments Ret {A} a.
Arguments Fault {A}.
Arguments NoFuel {A}.

Definition rbind {A B} (m : res A) (k : A -> res B) : res B :=
  match m with
  | Ret a => k a
  | Fault => Fault
  | NoFuel => NoFuel
  end.

Declare Scope res_scope.
Delimit Scope res_scope with res.
Notation "x '<~' m ;; k" := (rbind m (fun x => k))
  (at level 20, m at level 99, k at level 200, right associativity) : res_scope.
Notation "' p '<~' m ;; k" := (rbind m (fun x => match x with p => k end))
  (at level 20, p pattern, m at level 99, k at level 200, right associativity) : res_scope.
Open Scope res_scope.

(** An [assert]. *)
Definition rassert (b : bool) : res unit := if b then Ret tt else Fault.

(** Arrays: bounds-checked reads and writes of C arrays, indexed by [Z]. *)

Definition aget {A} (l : list A) (i : Z) : res A :=
  if i <? 0 then Fault else
  match l !! Z.to_nat i with
  | Some a => Ret a
  | None => Fault
  end.

Definition aset {A} (l : list A) (i : Z) (a : A) : res (list A) :=
  if (0 <=? i) && (i <? Z.of_nat (length l)) then Ret (<[Z.to_nat i := a]> l)
  else Fault.

(** The dereference of a pointer that may be null. *)
Definition deref {A} (o : option A) : res A :=
  match o with Some a => Ret a | None => Fault end.

Notation zlen l := (Z.of_nat (length l)).

(** A [std::map] that is iterated is the list of its entries in the order of
    keys; [mput] is [m[k] = a]. *)
Fixpoint mput {A} (k : Z) (a : A) (l : list (Z * A)) : list (Z * A) :=
  match l with
  | [] => [(k, a)]
  | (k', a') :: l =>
      if k <? k' then (k, a) :: (k', a') :: l
      else if k =? k' then (k, a) :: l else (k', a') :: mput k a l
  end.

Fixpoint mget {A} (k : Z) (l : list (Z * A)) : option A :=
  match l with
  | [] => None
  | (k', a) :: l => if k =? k' then Some a else mget k l
  end.

(** ** Automation *)

Create HintDb ceph discriminated.
Create Rewrite HintDb ceph_rw.

(** Case analysis on the boolean test or the option the goal is stuck on. *)
Ltac case_bool :=
  match goal with
  | |- context [if ?b then _ else _] =>
      lazymatch type of b with bool => destruct b eqn:? end
  | H : context [if ?b then _ else _] |- _ =>
      lazymatch type of b with bool => destruct b eqn:? end
  end.

(** Boolean comparisons on [Z] in the context, turned into propositions. *)
Ltac zbool :=
  repeat match goal with
  | H : (_ && _) = true |- _ => apply andb_prop in H; destruct H
  | H : (_ || _) = false |- _ => apply orb_false_elim in H; destruct H
  | H : negb _ = true |- _ => apply negb_true_iff in H
  | H : negb _ = false |- _ => apply negb_false_iff in H
  | H : (_ <? _) = true |- _ => apply Z.ltb_lt in H
  | H : (_ <? _) = false |- _ => apply Z.ltb_ge in H
  | H : (_ <=? _) = true |- _ => apply Z.leb_le in H
  | H : (_ <=? _) = false |- _ => apply Z.leb_gt in H
  | H : (_ =? _) = true |- _ => apply Z.eqb_eq in H
  | H : (_ =? _) = false |- _ => apply Z.eqb_neq in H
  end.

(** A run that returned: split the binds of the equation [H : m = Ret _]. *)
Ltac rinv H :=
  lazymatch type of H with
  | rbind ?m _ = Ret _ =>
      let E := fresh "E" in
      destruct m eqn:E; cbn [rbind] in H; [ | discriminate H | discriminate H ]
  end.

(** ** Lemmas on machine integers *)

Lemma uw_range w z : 0 <= w -> is_u w (uw w z).
Proof. intros. apply Z.mod_pos_bound. lia. Qed.

Lemma uw_small w z : is_u w z -> uw w z = z.
Proof. apply Z.mod_small. Qed.

Lemma sw_range w z : 0 < w -> is_s w (sw w z).
Proof.
  intros Hw. unfold is_s, sw.
  assert (2 ^ w = 2 * 2 ^ (w - 1)) as E.
  { rewrite <- Z.pow_succ_r by lia. f_equal. lia. }
  assert (0 < 2 ^ (w - 1)) by lia.
  pose proof (Z.mod_pos_bound (z + 2 ^ (w - 1)) (2 ^ w)). lia.
Qed.

Lemma sw_small w z : 0 < w -> is_s w z -> sw w z = z.
Proof.
  intros Hw [H1 H2]. unfold sw.
  assert (2 ^ w = 2 * 2 ^ (w - 1)) as E.
  { rewrite <- Z.pow_succ_r by lia. f_equal. lia. }
  rewrite Z.mod_small by lia. lia.
Qed.

Lemma sw_add_l w a b : sw w (sw w a + b) = sw w (a + b).
Proof.
  unfold sw. f_equal. replace ((a + 2 ^ (w - 1)) mod 2 ^ w - 2 ^ (w - 1) + b + 2 ^ (w - 1)) with ((a + 2 ^ (w - 1)) mod 2 ^ w + b) by lia.
  rewrite Zplus_mod_idemp_l. f_equal. lia.
Qed.

Lemma uw_lxor w a b : 0 <= w -> is_u w a -> is_u w b -> is_u w (Z.lxor a b).
Proof.
  unfold is_u. intros Hw [Ha1 Ha2] [Hb1 Hb2]. split.
  { apply Z.lxor_nonneg. lia. }
  destruct (Z.eq_dec (Z.lxor a b) 0) as [->|Hne]; [lia|].
  apply Z.log2_lt_pow2; [pose proof (proj2 (Z.lxor_nonneg a b)); lia|].
  pose proof (Z.log2_lxor a b Ha1 Hb1).
  destruct (Z.eq_dec w 0) as [->|]. { assert (a = 0) by lia. assert (b = 0) by lia. now subst. }
  assert (forall c, 0 <= c < 2 ^ w -> Z.log2 c < w) as L.
  { intros c Hc. destruct (Z.eq_dec c 0) as [->|]; [cbn; lia|]. apply Z.log2_lt_pow2; lia. }
  pose proof (L a). pose proof (L b). lia.
Qed.

Lemma uw_shiftr w a k : 0 <= k -> is_u w a -> is_u w (Z.shiftr a k).
Proof.
  unfold is_u. intros Hk [H1 H2]. rewrite Z.shiftr_div_pow2 by lia.
  split; [apply Z.div_pos; lia|].
  apply Z.div_lt_upper_bound; nia.
Qed.

(** ** Lemmas on results and arrays *)

Lemma rbind_Ret {A B} (m : res A) (k : A -> res B) (b : B) :
  rbind m k = Ret b <-> exists a, m = Ret a /\ k a = Ret b.
Proof. destruct m; cbn; naive_solver. Qed.

Lemma aget_Ret {A} (l : list A) i a :
  aget l i = Ret a <-> 0 <= i /\ l !! Z.to_nat i = Some a.
Proof.
  unfold aget. destruct (Z.ltb_spec i 0).
  - split; [discriminate|lia].
  - destruct (l !! Z.to_nat i) eqn:E; naive_solver.
Qed.

Lemma aget_in {A} (l : list A) i :
  0 <= i < zlen l -> exists a, aget l i = Ret a /\ l !! Z.to_nat i = Some a.
Proof.
  intros Hi. destruct (lookup_lt_is_Some_2 l (Z.to_nat i)) as [a Ha]; [lia|].
  exists a. split; [|done]. apply aget_Ret. split; [lia|done].
Qed.

Lemma aget_Ret_range {A} (l : list A) i a : aget l i = Ret a -> 0 <= i < zlen l.
Proof. intros [H1 H2]%aget_Ret. apply lookup_lt_Some in H2. lia. Qed.

Lemma aset_Ret {A} (l l' : list A) i a :
  aset l i a = Ret l' <-> 0 <= i < zlen l /\ l' = <[Z.to_nat i := a]> l.
Proof.
  unfold aset. destruct (Z.leb_spec 0 i), (Z.ltb_spec i (zlen l)); cbn.
  all: split; intros H'; try (injection H' as <-); try discriminate; try lia; auto.
  destruct H' as [_ ->]. done.
Qed.

Lemma aset_in {A} (l : list A) i a :
  0 <= i < zlen l -> aset l i a = Ret (<[Z.to_nat i := a]> l).
Proof. intros. by apply aset_Ret. Qed.

Lemma aset_length {A} (l l' : list A) i a : aset l i a = Ret l' -> length l' = length l.
Proof. intros [_ ->]%aset_Ret. apply length_insert. Qed.

#[export] Hint Resolve uw_range uw_lxor uw_shiftr : ceph.
#[export] Hint Extern 3 (_ <= _) => lia : ceph.
#[export] Hint Extern 3 (_ < _) => lia : ceph.
#[export] Hint Rewrite @length_insert @length_app @length_take @length_drop @length_replicate : ceph_rw.

(** ** Prefixes of lists *)

Lemma take_le_eq {A} (lo n : nat) (l l' : list A) :
  (lo <= n)%nat -> take n l' = take n l -> take lo l' = take lo l.
Proof.
  intros Hle E. pose proof (f_equal (take lo) E) as E'. rewrite !take_take, Nat.min_l in E' by lia. done.
Qed.

Lemma take_S_eq {A} (lo : nat) (l l' : list A) v :
  take (S lo) l' = take (S lo) l -> l !! lo = Some v -> l' !! lo = Some v /\ take lo l' = take lo l.
Proof.
  intros E Ev. split; [|by apply take_le_eq with (S lo); [lia|]].
  rewrite <- (lookup_take_lt l' (S lo)), E, lookup_take_lt by lia. done.
Qed.
