(* ===== verification/CrushHash.v ===== *)
(** * CRUSH's hash functions (src/src/crush/hash.c)

    Robert Jenkins' 32-bit mix and the five hash functions built on it.  Every
    word is a 32-bit unsigned integer; additions, subtractions and left shifts
    wrap.  The theorems: every function returns a 32-bit word, and the mix is
    reversible, so no two states collide in it. *)

From S2P Require Import Prelude.
Open Scope mach_scope.

Definition CRUSH_HASH_RJENKINS1 : Z := 0.

Definition crush_hash_seed : Z := 1315423911.

(** The macro [crush_hashmix(a, b, c)]: the three updated words. *)
Definition crush_hashmix (a b c : Z) : Z * Z * Z :=
  let a := a -u b in let a := a -u c in let a := a ^u (c >>u 13) in
  let b := b -u c in let b := b -u a in let b := b ^u (a <<u 8) in
  let c := c -u a in let c := c -u b in let c := c ^u (b >>u 13) in
  let a := a -u b in let a := a -u c in let a := a ^u (c >>u 12) in
  let b := b -u c in let b := b -u a in let b := b ^u (a <<u 16) in
  let c := c -u a in let c := c -u b in let c := c ^u (b >>u 5) in
  let a := a -u b in let a := a -u c in let a := a ^u (c >>u 3) in
  let b := b -u c in let b := b -u a in let b := b ^u (a <<u 10) in
  let c := c -u a in let c := c -u b in let c := c ^u (b >>u 15) in
  (a, b, c).

Definition crush_hash32_rjenkins1 (a : Z) : Z :=
  let hash := crush_hash_seed ^u a in
  let b := a in
  let x := 231232 in
  let y := 1232 in
  let '(b, x, hash) := crush_hashmix b x hash in
  let '(y, a, hash) := crush_hashmix y a hash in
  hash.

Definition crush_hash32_rjenkins1_2 (a b : Z) : Z :=
  let hash := crush_hash_seed ^u a ^u b in
  let x := 231232 in
  let y := 1232 in
  let '(a, b, hash) := crush_hashmix a b hash in
  let '(x, a, hash) := crush_hashmix x a hash in
  let '(b, y, hash) := crush_hashmix b y hash in
  hash.

Definition crush_hash32_rjenkins1_3 (a b c : Z) : Z :=
  let hash := crush_hash_seed ^u a ^u b ^u c in
  let x := 231232 in
  let y := 1232 in
  let '(a, b, hash) := crush_hashmix a b hash in
  let '(c, x, hash) := crush_hashmix c x hash in
  let '(y, a, hash) := crush_hashmix y a hash in
  let '(b, x, hash) := crush_hashmix b x hash in
  let '(y, c, hash) := crush_hashmix y c hash in
  hash.

Definition crush_hash32_rjenkins1_4 (a b c d : Z) : Z :=
  let hash := crush_hash_seed ^u a ^u b ^u c ^u d in
  let x := 231232 in
  let y := 1232 in
  let '(a, b, hash) := crush_hashmix a b hash in
  let '(c, d, hash) := crush_hashmix c d hash in
  let '(a, x, hash) := crush_hashmix a x hash in
  let '(y, b, hash) := crush_hashmix y b hash in
  let '(c, x, hash) := crush_hashmix c x hash in
  let '(y, d, hash) := crush_hashmix y d hash in
  hash.

Definition crush_hash32_rjenkins1_5 (a b c d e : Z) : Z :=
  let hash := crush_hash_seed ^u a ^u b ^u c ^u d ^u e in
  let x := 231232 in
  let y := 1232 in
  let '(a, b, hash) := crush_hashmix a b hash in
  let '(c, d, hash) := crush_hashmix c d hash in
  let '(e, x, hash) := crush_hashmix e x hash in
  let '(y, a, hash) := crush_hashmix y a hash in
  let '(b, x, hash) := crush_hashmix b x hash in
  let '(y, c, hash) := crush_hashmix y c hash in
  let '(d, x, hash) := crush_hashmix d x hash in
  let '(y, e, hash) := crush_hashmix y e hash in
  hash.

(** The entry points take [__u32] arguments: the caller's integers are
    converted first. *)

Definition crush_hash32 (type a : Z) : Z :=
  if type =? CRUSH_HASH_RJENKINS1 then crush_hash32_rjenkins1 (u32 a) else 0.

Definition crush_hash32_2 (type a b : Z) : Z :=
  if type =? CRUSH_HASH_RJENKINS1
  then crush_hash32_rjenkins1_2 (u32 a) (u32 b) else 0.

Definition crush_hash32_3 (type a b c : Z) : Z :=
  if type =? CRUSH_HASH_RJENKINS1
  then crush_hash32_rjenkins1_3 (u32 a) (u32 b) (u32 c) else 0.

Definition crush_hash32_4 (type a b c d : Z) : Z :=
  if type =? CRUSH_HASH_RJENKINS1
  then crush_hash32_rjenkins1_4 (u32 a) (u32 b) (u32 c) (u32 d) else 0.

Definition crush_hash32_5 (type a b c d e : Z) : Z :=
  if type =? CRUSH_HASH_RJENKINS1
  then crush_hash32_rjenkins1_5 (u32 a) (u32 b) (u32 c) (u32 d) (u32 e) else 0.

(** The mix as nine steps on the state, and the inverse of each step. *)

Definition step_a (k : Z) (s : Z * Z * Z) : Z * Z * Z :=
  let '(a, b, c) := s in ((a -u b -u c) ^u (c >>u k), b, c).

Definition step_b (k : Z) (s : Z * Z * Z) : Z * Z * Z :=
  let '(a, b, c) := s in (a, (b -u c -u a) ^u (a <<u k), c).

Definition step_c (k : Z) (s : Z * Z * Z) : Z * Z * Z :=
  let '(a, b, c) := s in (a, b, (c -u a -u b) ^u (b >>u k)).

Definition unstep_a (k : Z) (s : Z * Z * Z) : Z * Z * Z :=
  let '(a, b, c) := s in ((a ^u (c >>u k)) +u (b + c), b, c).

Definition unstep_b (k : Z) (s : Z * Z * Z) : Z * Z * Z :=
  let '(a, b, c) := s in (a, (b ^u (a <<u k)) +u (c + a), c).

Definition unstep_c (k : Z) (s : Z * Z * Z) : Z * Z * Z :=
  let '(a, b, c) := s in (a, b, (c ^u (b >>u k)) +u (a + b)).

Definition crush_hashunmix (s : Z * Z * Z) : Z * Z * Z :=
  let s := unstep_a 3 (unstep_b 10 (unstep_c 15 s)) in
  let s := unstep_a 12 (unstep_b 16 (unstep_c 5 s)) in
  unstep_a 13 (unstep_b 8 (unstep_c 13 s)).

Definition words (s : Z * Z * Z) : Prop :=
  let '(a, b, c) := s in is_u 32 a /\ is_u 32 b /\ is_u 32 c.

(** ** Proofs *)

Lemma crush_hashmix_steps a b c :
  crush_hashmix a b c =
    step_c 15 (step_b 10 (step_a 3 (step_c 5 (step_b 16 (step_a 12
      (step_c 13 (step_b 8 (step_a 13 (a, b, c))))))))).
Proof. reflexivity. Qed.

Lemma mix_line a b c d :
  is_u 32 a -> ((a -u b -u c) ^u d ^u d) +u (b + c) = a.
Proof.
  intros Ha.
  rewrite Z.lxor_assoc, Z.lxor_nilpotent, Z.lxor_0_r.
  unfold uw. rewrite Zminus_mod_idemp_l, Zplus_mod_idemp_l.
  replace (a - b - c + (b + c)) with a by ring. by apply Z.mod_small.
Qed.

Lemma line_range a b d : is_u 32 d -> is_u 32 ((a -u b) ^u d).
Proof. intros. apply uw_lxor; auto with ceph. Qed.

Lemma step_a_ok k s : 0 <= k -> words s -> words (step_a k s) /\ unstep_a k (step_a k s) = s.
Proof.
  destruct s as [[a b] c]. cbn. intros Hk (Ha & Hb & Hc). split.
  - split; [|done]. apply line_range. by apply uw_shiftr.
  - by rewrite mix_line.
Qed.

Lemma step_b_ok k s : 0 <= k -> words s -> words (step_b k s) /\ unstep_b k (step_b k s) = s.
Proof.
  destruct s as [[a b] c]. cbn. intros Hk (Ha & Hb & Hc). split.
  - split; [done|]. split; [|done]. apply line_range. auto with ceph.
  - by rewrite mix_line.
Qed.

Lemma step_c_ok k s : 0 <= k -> words s -> words (step_c k s) /\ unstep_c k (step_c k s) = s.
Proof.
  destruct s as [[a b] c]. cbn. intros Hk (Ha & Hb & Hc). split.
  - split; [done|]. split; [done|]. apply line_range. by apply uw_shiftr.
  - by rewrite mix_line.
Qed.

Lemma mix_ok s :
  words s -> let '(a, b, c) := s in
  words (crush_hashmix a b c) /\ crush_hashunmix (crush_hashmix a b c) = (a, b, c).
Proof.
  destruct s as [[a b] c]. intros W0. rewrite crush_hashmix_steps.
  destruct (step_a_ok 13 _ ltac:(lia) W0) as [W1 E1].
  destruct (step_b_ok 8 _ ltac:(lia) W1) as [W2 E2].
  destruct (step_c_ok 13 _ ltac:(lia) W2) as [W3 E3].
  destruct (step_a_ok 12 _ ltac:(lia) W3) as [W4 E4].
  destruct (step_b_ok 16 _ ltac:(lia) W4) as [W5 E5].
  destruct (step_c_ok 5 _ ltac:(lia) W5) as [W6 E6].
  destruct (step_a_ok 3 _ ltac:(lia) W6) as [W7 E7].
  destruct (step_b_ok 10 _ ltac:(lia) W7) as [W8 E8].
  destruct (step_c_ok 15 _ ltac:(lia) W8) as [W9 E9].
  split; [done|]. unfold crush_hashunmix.
  by rewrite E9, E8, E7, E6, E5, E4, E3, E2, E1.
Qed.

(** The words of a mix are 32-bit. *)
Lemma crush_hashmix_range a b c :
  is_u 32 a -> is_u 32 b -> is_u 32 c ->
  exists a' b' c', crush_hashmix a b c = (a', b', c') /\
    is_u 32 a' /\ is_u 32 b' /\ is_u 32 c'.
Proof.
  intros Ha Hb Hc. destruct (mix_ok (a, b, c)) as [W _]; [done|].
  destruct (crush_hashmix a b c) as [[a' b'] c']. by exists a', b', c'.
Qed.

Ltac mix_step :=
  match goal with
  | |- context [crush_hashmix ?a ?b ?c] =>
      let E := fresh "E" in
      destruct (crush_hashmix_range a b c) as (?&?&?&E&?&?&?);
      [first [assumption | by vm_compute] .. | rewrite E; clear E]
  end.

Ltac hash_range :=
  repeat match goal with |- context [u32 ?a] =>
    let R := fresh "R" in pose proof (uw_range 32 a ltac:(lia)) as R;
    generalize dependent (u32 a); intros end;
  repeat match goal with |- context [crush_hash_seed ^u ?a] =>
    let R := fresh "R" in let h := fresh "h" in
    assert (is_u 32 (crush_hash_seed ^u a)) as R
      by (apply uw_lxor; [lia | by vm_compute | assumption]);
    set (crush_hash_seed ^u a) as h in *; clearbody h end;
  repeat match goal with |- context [?g ^u ?a] =>
    is_var g; is_var a;
    let R := fresh "R" in let h := fresh "h" in
    assert (is_u 32 (g ^u a)) as R by (apply uw_lxor; [lia|assumption|assumption]);
    set (g ^u a) as h in *; clearbody h end.

Lemma crush_hash32_range t a : is_u 32 (crush_hash32 t a).
Proof.
  unfold crush_hash32. case_bool; [|by vm_compute].
  unfold crush_hash32_rjenkins1. hash_range. repeat mix_step. assumption.
Qed.

Lemma crush_hash32_2_range t a b : is_u 32 (crush_hash32_2 t a b).
Proof.
  unfold crush_hash32_2. case_bool; [|by vm_compute].
  unfold crush_hash32_rjenkins1_2. hash_range. repeat mix_step. assumption.
Qed.

Lemma crush_hash32_3_range t a b c : is_u 32 (crush_hash32_3 t a b c).
Proof.
  unfold crush_hash32_3. case_bool; [|by vm_compute].
  unfold crush_hash32_rjenkins1_3. hash_range. repeat mix_step. assumption.
Qed.

Lemma crush_hash32_4_range t a b c d : is_u 32 (crush_hash32_4 t a b c d).
Proof.
  unfold crush_hash32_4. case_bool; [|by vm_compute].
  unfold crush_hash32_rjenkins1_4. hash_range. repeat mix_step. assumption.
Qed.

Lemma crush_hash32_5_range t a b c d e : is_u 32 (crush_hash32_5 t a b c d e).
Proof.
  unfold crush_hash32_5. case_bool; [|by vm_compute].
  unfold crush_hash32_rjenkins1_5. hash_range. repeat mix_step. assumption.
Qed.
