(* ===== verification/CrushTypes.v ===== *)
(** * CRUSH's data (src/src/crush/crush.h, crush.c)

    Rules, buckets, the map, the per-bucket workspace and the [choose_args],
    as records with the fields of the C structures.  The five bucket layouts
    that share the header [struct crush_bucket] are the constructors of
    [bucket_body]: the C code selects the layout with the field [alg], which
    is here [alg_of] of the body. *)

From S2P Require Import Prelude CrushHash.

(** ** Constants *)

Definition CRUSH_MAX_RULESET : Z := Z.shiftl 1 8.
Definition CRUSH_MAX_RULES : Z := CRUSH_MAX_RULESET.
Definition CRUSH_MAX_DEVICE_WEIGHT : Z := 100 * 65536.
Definition CRUSH_MAX_BUCKET_WEIGHT : Z := 65535 * 65536.
Definition CRUSH_ITEM_UNDEF : Z := 0x7ffffffe.
Definition CRUSH_ITEM_NONE : Z := 0x7fffffff.

(** ** Rules *)

Record crush_rule_step := CrushStep {
  op : Z;
  arg1 : Z;
  arg2 : Z;
}.

Definition CRUSH_RULE_NOOP : Z := 0.
Definition CRUSH_RULE_TAKE : Z := 1.
Definition CRUSH_RULE_CHOOSE_FIRSTN : Z := 2.
Definition CRUSH_RULE_CHOOSE_INDEP : Z := 3.
Definition CRUSH_RULE_EMIT : Z := 4.
Definition CRUSH_RULE_CHOOSELEAF_FIRSTN : Z := 6.
Definition CRUSH_RULE_CHOOSELEAF_INDEP : Z := 7.
Definition CRUSH_RULE_SET_CHOOSE_TRIES : Z := 8.
Definition CRUSH_RULE_SET_CHOOSELEAF_TRIES : Z := 9.
Definition CRUSH_RULE_SET_CHOOSE_LOCAL_TRIES : Z := 10.
Definition CRUSH_RULE_SET_CHOOSE_LOCAL_FALLBACK_TRIES : Z := 11.
Definition CRUSH_RULE_SET_CHOOSELEAF_VARY_R : Z := 12.
Definition CRUSH_RULE_SET_CHOOSELEAF_STABLE : Z := 13.

(** The opcodes as the [switch] of [crush_do_rule] tells them apart. *)
Inductive crush_opcode : Type :=
  | OpTake
  | OpSetChooseTries
  | OpSetChooseleafTries
  | OpSetChooseLocalTries
  | OpSetChooseLocalFallbackTries
  | OpSetChooseleafVaryR
  | OpSetChooseleafStable
  | OpChoose (firstn leaf : bool)
  | OpEmit
  | OpUnknown.

Definition decode_op (z : Z) : crush_opcode :=
  if z =? CRUSH_RULE_TAKE then OpTake
  else if z =? CRUSH_RULE_SET_CHOOSE_TRIES then OpSetChooseTries
  else if z =? CRUSH_RULE_SET_CHOOSELEAF_TRIES then OpSetChooseleafTries
  else if z =? CRUSH_RULE_SET_CHOOSE_LOCAL_TRIES then OpSetChooseLocalTries
  else if z =? CRUSH_RULE_SET_CHOOSE_LOCAL_FALLBACK_TRIES then OpSetChooseLocalFallbackTries
  else if z =? CRUSH_RULE_SET_CHOOSELEAF_VARY_R then OpSetChooseleafVaryR
  else if z =? CRUSH_RULE_SET_CHOOSELEAF_STABLE then OpSetChooseleafStable
  else if z =? CRUSH_RULE_CHOOSELEAF_FIRSTN then OpChoose true true
  else if z =? CRUSH_RULE_CHOOSE_FIRSTN then OpChoose true false
  else if z =? CRUSH_RULE_CHOOSELEAF_INDEP then OpChoose false true
  else if z =? CRUSH_RULE_CHOOSE_INDEP then OpChoose false false
  else if z =? CRUSH_RULE_EMIT then OpEmit
  else OpUnknown.

Record crush_rule_mask := CrushMask {
  ruleset : Z;
  mtype : Z;
  min_size : Z;
  max_size : Z;
}.

Record crush_rule := CrushRule {
  len : Z;
  mask : crush_rule_mask;
  steps : list crush_rule_step;
}.

(** ** Buckets *)

Inductive bucket_body : Type :=
  | BUniform (item_weight : Z)
  | BList (item_weights sum_weights : list Z)
  | BTree (num_nodes : Z) (node_weights : list Z)
  | BStraw (item_weights straws : list Z)
  | BStraw2 (item_weights : list Z)
  | BUnknown (alg : Z).

Definition CRUSH_BUCKET_UNIFORM : Z := 1.
Definition CRUSH_BUCKET_LIST : Z := 2.
Definition CRUSH_BUCKET_TREE : Z := 3.
Definition CRUSH_BUCKET_STRAW : Z := 4.
Definition CRUSH_BUCKET_STRAW2 : Z := 5.

Definition alg_of (b : bucket_body) : Z :=
  match b with
  | BUniform _ => CRUSH_BUCKET_UNIFORM
  | BList _ _ => CRUSH_BUCKET_LIST
  | BTree _ _ => CRUSH_BUCKET_TREE
  | BStraw _ _ => CRUSH_BUCKET_STRAW
  | BStraw2 _ => CRUSH_BUCKET_STRAW2
  | BUnknown a => a
  end.

Record crush_bucket := CrushBucket {
  id : Z;
  type : Z;
  hash : Z;
  weight : Z;
  size : Z;
  items : list Z;
  body : bucket_body;
}.

(** ** Alternative weights and ids *)

Record crush_weight_set := CrushWeightSet {
  weights : list Z;
  wsize : Z;
}.

Record crush_choose_arg := CrushChooseArg {
  ids : option (list Z);
  ids_size : Z;
  weight_set : option (list crush_weight_set);
  weight_set_positions : Z;
}.

(** ** The map *)

Record crush_map := CrushMap {
  buckets : list (option crush_bucket);
  rules : list (option crush_rule);
  max_buckets : Z;
  max_rules : Z;
  max_devices : Z;
  choose_local_tries : Z;
  choose_local_fallback_tries : Z;
  choose_total_tries : Z;
  chooseleaf_descend_once : Z;
  chooseleaf_vary_r : Z;
  chooseleaf_stable : Z;
  working_size : Z;
  straw_calc_version : Z;
  allowed_bucket_algs : Z;
}.

(** The counters [map->choose_tries] are the only part of the map the mapper
    writes; they are part of its state. *)

Record crush_work_bucket := CrushWorkBucket {
  perm_x : Z;
  perm_n : Z;
  perm : list Z;
}.

Notation crush_work := (list (option crush_work_bucket)).

(** [crush_calc_tree_node] *)
Definition crush_calc_tree_node (i : Z) : Z := s32 (Z.shiftl (i + 1) 1 - 1).

(** [crush_get_bucket_item_weight]: the weight of the item at position [p]. *)
Definition crush_get_bucket_item_weight (b : crush_bucket) (p : Z) : res Z :=
  if size b <=? u32 p then Ret 0 else
  match body b with
  | BUniform item_weight => Ret (s32 item_weight)
  | BList item_weights _ => w <~ aget item_weights p;; Ret (s32 w)
  | BTree _ node_weights => w <~ aget node_weights (crush_calc_tree_node p);; Ret (s32 w)
  | BStraw item_weights _ => w <~ aget item_weights p;; Ret (s32 w)
  | BStraw2 item_weights => w <~ aget item_weights p;; Ret (s32 w)
  | BUnknown _ => Ret 0
  end.

(** [crush_find_rule] of mapper.c: the first rule with the wanted mask. *)
Definition rule_matches (ruleset' type' size' : Z) (r : option crush_rule) : bool :=
  match r with
  | None => false
  | Some r =>
      (ruleset (mask r) =? ruleset') && (mtype (mask r) =? type')
      && (min_size (mask r) <=? size') && (size' <=? max_size (mask r))
  end.

Fixpoint crush_find_rule_from (rs : list (option crush_rule)) (i : Z)
    (ruleset' type' size' : Z) : Z :=
  match rs with
  | [] => -1
  | r :: rs =>
      if rule_matches ruleset' type' size' r then i
      else crush_find_rule_from rs (i + 1) ruleset' type' size'
  end.

Definition crush_find_rule (m : crush_map) (ruleset' type' size' : Z) : Z :=
  crush_find_rule_from (take (Z.to_nat (max_rules m)) (rules m)) 0 ruleset' type' size'.
