(* ===== verification/CrushBucket.v ===== *)
(** * The bucket choose methods (src/src/crush/mapper.c, first half)

    For each bucket algorithm the function that, given an input [x] and a
    replica position [r], produces an item of the bucket.  Array accesses are
    bounds-checked and loops that are not counted carry fuel.  The uniform
    bucket keeps a permutation in its [crush_work_bucket]; the others are
    functions of the bucket alone. *)

From S2P Require Import Prelude CrushHash CrushTypes CrushLn.

(** ** Uniform buckets: a random permutation, computed lazily *)

(** [for (; i < size; i++) perm[i] = i;] *)
Fixpoint perm_fill (n : nat) (i : Z) (p : list Z) : res (list Z) :=
  match n with
  | O => Ret p
  | S n => p <~ aset p i i;; perm_fill n (i + 1) p
  end.

(** One turn of the loop that extends the permutation to position [p]. *)
Definition perm_step (b : crush_bucket) (x p : Z) (a : list Z) : res (list Z) :=
  if p <? size b - 1 then
    let i := crush_hash32_3 (hash b) x (id b) p mod (size b - p) in
    if i =? 0 then Ret a else
    t <~ aget a (p + i);;
    ap <~ aget a p;;
    a <~ aset a (p + i) ap;;
    aset a p t
  else Ret a.

(** [while (work->perm_n <= pr) ...] *)
Fixpoint perm_extend (fuel : nat) (b : crush_bucket) (x pr n : Z) (a : list Z)
    : res (Z * list Z) :=
  if n <=? pr then
    match fuel with
    | O => NoFuel
    | S fuel => a <~ perm_step b x n a;; perm_extend fuel b x pr (n + 1) a
    end
  else Ret (n, a).

Definition perm_finish (b : crush_bucket) (x pr px n : Z) (a : list Z)
    : res (Z * crush_work_bucket) :=
  '(n, a) <~ perm_extend (Z.to_nat (pr + 1)) b x pr n a;;
  s <~ aget a pr;;
  it <~ aget (items b) s;;
  Ret (it, CrushWorkBucket px n a).

Definition bucket_perm_choose (b : crush_bucket) (w : crush_work_bucket) (x r : Z)
    : res (Z * crush_work_bucket) :=
  if size b =? 0 then Fault else
  let pr := u32 r mod size b in
  if negb (perm_x w =? u32 x) || (perm_n w =? 0) then
    if pr =? 0 then
      let s := crush_hash32_3 (hash b) x (id b) 0 mod size b in
      a <~ aset (perm w) 0 s;;
      it <~ aget (items b) s;;
      Ret (it, CrushWorkBucket (u32 x) 0xffff a)
    else
      a <~ perm_fill (Z.to_nat (size b)) 0 (perm w);;
      perm_finish b x pr (u32 x) 0 a
  else if perm_n w =? 0xffff then
    a <~ perm_fill (Z.to_nat (size b - 1)) 1 (perm w);;
    a0 <~ aget a 0;;
    a <~ aset a a0 0;;
    perm_finish b x pr (perm_x w) 1 a
  else perm_finish b x pr (perm_x w) (perm_n w) (perm w).

Definition bucket_uniform_choose := bucket_perm_choose.

(** ** List buckets *)

(** The loop from [i] down to 0; at the end, "bad list sums", item 0. *)
Fixpoint list_loop (n : nat) (b : crush_bucket) (item_weights sum_weights : list Z)
    (x r : Z) : res Z :=
  match n with
  | O => aget (items b) 0
  | S i' =>
      let i := Z.of_nat i' in
      it <~ aget (items b) i;;
      let w := crush_hash32_4 (hash b) x it r (id b) in
      let w := Z.land w 0xffff in
      sw' <~ aget sum_weights i;;
      let w := u64 (w * sw') in
      let w := Z.shiftr w 16 in
      iw <~ aget item_weights i;;
      if w <? iw then Ret it else list_loop i' b item_weights sum_weights x r
  end.

Definition bucket_list_choose (b : crush_bucket) (item_weights sum_weights : list Z)
    (x r : Z) : res Z :=
  list_loop (Z.to_nat (s32 (size b - 1) + 1)) b item_weights sum_weights x r.

(** ** Tree buckets *)

Fixpoint height_loop (fuel : nat) (n h : Z) : res Z :=
  if Z.land n 1 =? 0 then
    match fuel with
    | O => NoFuel
    | S fuel => height_loop fuel (Z.shiftr n 1) (h + 1)
    end
  else Ret h.

(** A non-zero 32-bit [n] has a bit set: 32 turns are enough. *)
Definition height (n : Z) : res Z := height_loop 32 n 0.

Definition left (x : Z) : res Z := h <~ height x;; Ret (x - Z.shiftl 1 (h - 1)).

Definition right (x : Z) : res Z := h <~ height x;; Ret (x + Z.shiftl 1 (h - 1)).

Definition terminal (x : Z) : bool := negb (Z.land x 1 =? 0).

Fixpoint tree_loop (fuel : nat) (b : crush_bucket) (node_weights : list Z)
    (x r n : Z) : res Z :=
  if terminal n then aget (items b) (Z.shiftr n 1) else
  match fuel with
  | O => NoFuel
  | S fuel =>
      w <~ aget node_weights n;;
      let t := u64 (crush_hash32_4 (hash b) x n r (id b) * w) in
      let t := Z.shiftr t 32 in
      l <~ left n;;
      wl <~ aget node_weights l;;
      if t <? wl then tree_loop fuel b node_weights x r l
      else rt <~ right n;; tree_loop fuel b node_weights x r rt
  end.

(** The height of a node falls at every turn, so 32 turns are enough. *)
Definition bucket_tree_choose (b : crush_bucket) (num_nodes : Z) (node_weights : list Z)
    (x r : Z) : res Z :=
  tree_loop 32 b node_weights x r (Z.shiftr num_nodes 1).

(** ** Straw buckets *)

Fixpoint straw_loop (n : nat) (b : crush_bucket) (straws : list Z) (x r : Z)
    (i high high_draw : Z) : res Z :=
  match n with
  | O => Ret high
  | S n =>
      it <~ aget (items b) i;;
      let draw := crush_hash32_3 (hash b) x it r in
      let draw := Z.land draw 0xffff in
      s <~ aget straws i;;
      let draw := u64 (draw * s) in
      if (i =? 0) || (high_draw <? draw)
      then straw_loop n b straws x r (i + 1) i draw
      else straw_loop n b straws x r (i + 1) high high_draw
  end.

Definition bucket_straw_choose (b : crush_bucket) (straws : list Z) (x r : Z) : res Z :=
  high <~ straw_loop (Z.to_nat (size b)) b straws x r 0 0 0;;
  aget (items b) high.

(** ** Straw2 buckets *)

Definition S64_MIN : Z := - 2 ^ 63.

Definition get_choose_arg_weights (item_weights : list Z) (arg : option crush_choose_arg)
    (position : Z) : res (list Z) :=
  match arg with
  | None => Ret item_weights
  | Some arg =>
      match weight_set arg with
      | None => Ret item_weights
      | Some ws =>
          let position :=
            if weight_set_positions arg <=? u32 position
            then s32 (weight_set_positions arg - 1) else position in
          w <~ aget ws position;; Ret (weights w)
      end
  end.

Definition get_choose_arg_ids (b : crush_bucket) (arg : option crush_choose_arg) : list Z :=
  match arg with
  | None => items b
  | Some arg => match ids arg with None => items b | Some l => l end
  end.

(** [div64_s64(ln, weight)] is C's division, which truncates. *)
Definition generate_exponential_distribution (type x y z weight : Z) : res Z :=
  let u := crush_hash32_3 type x y z in
  let u := Z.land u 0xffff in
  l <~ crush_ln u;;
  let ln := s64 (l - 0x1000000000000) in
  if weight =? 0 then Fault else Ret (Z.quot ln weight).

(** The draw of the item with id [idv] and weight [w]; the weight is passed as
    an [int]. *)
Definition straw2_draw (h x r idv w : Z) : res Z :=
  if w =? 0 then Ret S64_MIN
  else generate_exponential_distribution h x idv r (s32 w).

Fixpoint straw2_loop (n : nat) (h : Z) (ws idl : list Z) (x r : Z)
    (i high high_draw : Z) : res Z :=
  match n with
  | O => Ret high
  | S n =>
      w <~ aget ws i;;
      idv <~ aget idl i;;
      draw <~ straw2_draw h x r idv w;;
      if (i =? 0) || (high_draw <? draw)
      then straw2_loop n h ws idl x r (i + 1) i draw
      else straw2_loop n h ws idl x r (i + 1) high high_draw
  end.

Definition bucket_straw2_choose (b : crush_bucket) (item_weights : list Z) (x r : Z)
    (arg : option crush_choose_arg) (position : Z) : res Z :=
  ws <~ get_choose_arg_weights item_weights arg position;;
  let idl := get_choose_arg_ids b arg in
  high <~ straw2_loop (Z.to_nat (size b)) (hash b) ws idl x r 0 0 0;;
  aget (items b) high.

(** ** Dispatch *)

(** [work] is the slot of the bucket in the workspace; only the uniform
    algorithm follows the pointer. *)
Definition crush_bucket_choose (b : crush_bucket) (work : option crush_work_bucket)
    (x r : Z) (arg : option crush_choose_arg) (position : Z)
    : res (Z * option crush_work_bucket) :=
  _ <~ rassert (negb (size b =? 0));;
  match body b with
  | BUniform _ =>
      w <~ deref work;;
      '(it, w) <~ bucket_uniform_choose b w x r;;
      Ret (it, Some w)
  | BList iw sws => it <~ bucket_list_choose b iw sws x r;; Ret (it, work)
  | BTree nn nw => it <~ bucket_tree_choose b nn nw x r;; Ret (it, work)
  | BStraw _ straws => it <~ bucket_straw_choose b straws x r;; Ret (it, work)
  | BStraw2 iw => it <~ bucket_straw2_choose b iw x r arg position;; Ret (it, work)
  | BUnknown _ => it <~ aget (items b) 0;; Ret (it, work)
  end.

(** [is_out]: is the device marked out of the cluster, fully or, by its
    16.16 weight, for this input? *)
Definition is_out (weight : list Z) (weight_max item x : Z) : res bool :=
  if weight_max <=? item then Ret true else
  w <~ aget weight item;;
  if 0x10000 <=? w then Ret false
  else if w =? 0 then Ret true
  else if Z.land (crush_hash32_2 CRUSH_HASH_RJENKINS1 x item) 0xffff <? w then Ret false
  else Ret true.
