(* ===== verification/CrushPerm.v ===== *)
(** * Uniform buckets choose by a permutation

    The permutation a uniform bucket computes lazily, with a shortcut for
    position 0 and the marker [0xffff], is compared with a reference: the
    Fisher-Yates shuffle [perm_ref] of the positions.  From any coherent
    workspace [bucket_perm_choose] returns the item the full shuffle puts at
    [r mod size], and leaves a coherent workspace. *)

From S2P Require Import Prelude CrushHash CrushTypes CrushBucket.

(** The positions [0 .. size - 1]. *)
Definition positions (n : Z) : list Z := Z.of_nat <$> seq 0 (Z.to_nat n).

(** Exchange of two cells. *)
Definition swap (i j : nat) (a : list Z) : list Z :=
  match a !! i, a !! j with
  | Some ai, Some aj => <[i := aj]> (<[j := ai]> a)
  | _, _ => a
  end.

Definition shuffle_step (b : crush_bucket) (x p : Z) (a : list Z) : list Z :=
  if p <? size b - 1
  then swap (Z.to_nat p)
            (Z.to_nat (p + crush_hash32_3 (hash b) x (id b) p mod (size b - p))) a
  else a.

Fixpoint perm_ref (b : crush_bucket) (x : Z) (n : nat) : list Z :=
  match n with
  | O => positions (size b)
  | S n => shuffle_step b x (Z.of_nat n) (perm_ref b x n)
  end.

Definition perm_full (b : crush_bucket) (x : Z) : list Z := perm_ref b x (Z.to_nat (size b)).

(** What the mapper relies on in the workspace of a bucket. *)
Definition coherent (b : crush_bucket) (w : crush_work_bucket) : Prop :=
  zlen (perm w) = size b /\
  (perm_n w = 0 \/
   (perm_n w = 0xffff /\
    perm w !! 0%nat = Some (crush_hash32_3 (hash b) (perm_x w) (id b) 0 mod size b)) \/
   (1 <= perm_n w <= size b /\ perm w = perm_ref b (perm_x w) (Z.to_nat (perm_n w)))).

(** The bounds of a bucket that can be permuted. *)
Definition permutable (b : crush_bucket) : Prop :=
  0 < size b < 0xffff /\ zlen (items b) = size b.

(** ** The reference *)

Lemma positions_length n : 0 <= n -> zlen (positions n) = n.
Proof. intros. unfold positions. rewrite length_fmap, length_seq. lia. Qed.

Lemma lookup_positions n i : (i < Z.to_nat n)%nat -> positions n !! i = Some (Z.of_nat i).
Proof. intros. unfold positions. rewrite list_lookup_fmap, lookup_seq_lt by done. done. Qed.

Lemma positions_range n s : s ∈ positions n -> 0 <= s < n.
Proof. unfold positions. intros (i & -> & Hi%elem_of_seq)%list_elem_of_fmap. lia. Qed.

Lemma swap_length i j a : length (swap i j a) = length a.
Proof.
  unfold swap. destruct (a !! i), (a !! j); [|done|done|done]. by rewrite !length_insert.
Qed.

Lemma swap_same i a : swap i i a = a.
Proof.
  unfold swap. destruct (a !! i) eqn:E; [|done].
  rewrite list_insert_insert_eq. by apply list_insert_id.
Qed.

Lemma swap_lookup_other i j k a : k <> i -> k <> j -> swap i j a !! k = a !! k.
Proof.
  intros. unfold swap. destruct (a !! i), (a !! j); [|done|done|done].
  by rewrite !list_lookup_insert_ne by done.
Qed.

Lemma swap_perm i j a : swap i j a ≡ₚ a.
Proof.
  unfold swap. destruct (a !! i) as [ai|] eqn:Ei; [|done].
  destruct (a !! j) as [aj|] eqn:Ej; [|done].
  pose proof (lookup_lt_Some _ _ _ Ei). pose proof (lookup_lt_Some _ _ _ Ej).
  destruct (decide (i = j)) as [->|Hij].
  { rewrite list_insert_insert_eq. replace aj with ai by congruence. by rewrite list_insert_id. }
  apply Permutation_inj. split; [by rewrite !length_insert|].
  exists (fun k => if decide (k = i) then j else if decide (k = j) then i else k).
  split.
  - intros k1 k2 H1. repeat case_decide; congruence.
  - intros k. case_decide as Hk; [subst k|case_decide as Hk'; [subst k|]].
    + rewrite list_lookup_insert_eq by (by rewrite length_insert). done.
    + rewrite list_lookup_insert_ne, list_lookup_insert_eq by done. done.
    + by rewrite !list_lookup_insert_ne by done.
Qed.

Lemma shuffle_step_length b x p a : length (shuffle_step b x p a) = length a.
Proof. unfold shuffle_step. case_bool; [apply swap_length|done]. Qed.

Lemma perm_ref_length b x n : 0 <= size b -> zlen (perm_ref b x n) = size b.
Proof.
  intros. induction n as [|n IH]; cbn [perm_ref]; [by apply positions_length|].
  by rewrite shuffle_step_length.
Qed.

Lemma perm_ref_perm b x n : perm_ref b x n ≡ₚ positions (size b).
Proof.
  induction n as [|n IH]; cbn [perm_ref]; [done|]. rewrite <- IH.
  unfold shuffle_step. case_bool; [apply swap_perm|done].
Qed.

(** Later steps do not touch the positions already settled. *)
Lemma perm_ref_stable b x n m p :
  (p < n <= m)%nat -> perm_ref b x m !! p = perm_ref b x n !! p.
Proof.
  intros [Hp Hm]. induction Hm as [|m Hm IH]; [done|].
  cbn [perm_ref]. rewrite <- IH. unfold shuffle_step. case_bool; [|done]. zbool.
  pose proof (Z.mod_pos_bound (crush_hash32_3 (hash b) x (id b) (Z.of_nat m)) (size b - Z.of_nat m)).
  apply swap_lookup_other; lia.
Qed.

Lemma hash3_u32 t x y z : crush_hash32_3 t (u32 x) y z = crush_hash32_3 t x y z.
Proof.
  unfold crush_hash32_3. case_bool; [|done]. unfold uw.
  by rewrite Zmod_mod.
Qed.

Lemma perm_ref_u32 b x n : perm_ref b (u32 x) n = perm_ref b x n.
Proof.
  induction n as [|n IH]; cbn [perm_ref]; [done|]. rewrite IH.
  unfold shuffle_step. by rewrite hash3_u32.
Qed.

(** ** The code against the reference *)

Lemma perm_fill_spec n i p :
  0 <= i -> i + Z.of_nat n = zlen p ->
  perm_fill n i p = Ret (take (Z.to_nat i) p ++ drop (Z.to_nat i) (positions (zlen p))).
Proof.
  revert i p. induction n as [|n IH]; intros i p Hi Hn; cbn [perm_fill].
  - f_equal. rewrite take_ge, drop_ge, app_nil_r; [done| |lia].
    unfold positions. rewrite length_fmap, length_seq. lia.
  - rewrite aset_in by lia. cbn [rbind]. rewrite IH by (rewrite ?length_insert; lia).
    rewrite length_insert. f_equal. set (k := Z.to_nat i).
    replace (Z.to_nat (i + 1)) with (S k) by lia.
    rewrite (take_S_r _ _ i) by (apply list_lookup_insert_eq; lia).
    rewrite take_insert_ge by lia. rewrite <- app_assoc. f_equal.
    cbn. symmetry. rewrite (drop_S _ i); [done|].
    replace i with (Z.of_nat k) by lia. apply lookup_positions. lia.
Qed.

Lemma perm_step_spec b x p a :
  0 <= p < size b -> zlen a = size b -> perm_step b x p a = Ret (shuffle_step b x p a).
Proof.
  intros Hp Hl. unfold perm_step, shuffle_step. case_bool; [|done]. zbool.
  set (i := crush_hash32_3 (hash b) x (id b) p mod (size b - p)).
  assert (0 <= i < size b - p) by (apply Z.mod_pos_bound; lia).
  destruct (Z.eqb_spec i 0) as [->|Hi].
  { replace (p + 0) with p by lia. by rewrite swap_same. }
  destruct (aget_in a (p + i)) as (t & -> & Et); [lia|]. cbn [rbind].
  destruct (aget_in a p) as (ap & -> & Ep); [lia|]. cbn [rbind].
  rewrite aset_in by lia. cbn [rbind]. rewrite aset_in by (rewrite length_insert; lia).
  unfold swap. by rewrite Ep, Et.
Qed.

Lemma perm_extend_spec fuel b x pr n a :
  0 <= n -> pr < size b -> zlen a = size b -> pr + 1 - n <= Z.of_nat fuel ->
  a = perm_ref b x (Z.to_nat n) ->
  exists m, perm_extend fuel b x pr n a = Ret (m, perm_ref b x (Z.to_nat m)) /\
    m = Z.max n (pr + 1).
Proof.
  revert n a. induction fuel as [|fuel IH]; intros n a Hn Hpr Hl Hf Ha; cbn [perm_extend].
  - destruct (Z.leb_spec n pr); [lia|]. subst a. exists n. split; [done|lia].
  - destruct (Z.leb_spec n pr); [|subst a; exists n; split; [done|lia]].
    rewrite perm_step_spec by lia. cbn [rbind].
    destruct (IH (n + 1) (shuffle_step b x n a)) as (m & E & Hm); try lia.
    { by rewrite shuffle_step_length. }
    { subst a. replace (Z.to_nat (n + 1)) with (S (Z.to_nat n)) by lia.
      cbn [perm_ref]. by rewrite Z2Nat.id by lia. }
    exists m. rewrite E. split; [done|lia].
Qed.

(** The position the full shuffle gives to [r]. *)
Definition perm_pick (b : crush_bucket) (x r : Z) : Z :=
  default 0 (perm_full b x !! Z.to_nat (u32 r mod size b)).

Lemma perm_pick_lookup b x r :
  0 < size b ->
  perm_full b x !! Z.to_nat (u32 r mod size b) = Some (perm_pick b x r) /\
  0 <= perm_pick b x r < size b.
Proof.
  intros Hs. pose proof (Z.mod_pos_bound (u32 r) (size b) Hs) as B.
  pose proof (perm_ref_length b x (Z.to_nat (size b)) ltac:(lia)) as L.
  destruct (lookup_lt_is_Some_2 (perm_full b x) (Z.to_nat (u32 r mod size b))) as [s E].
  { unfold perm_full. lia. }
  unfold perm_pick. rewrite E. split; [done|]. cbn.
  apply positions_range. rewrite <- (perm_ref_perm b x (Z.to_nat (size b))).
  by eapply list_elem_of_lookup_2.
Qed.

Lemma perm_finish_spec b x pr n px :
  permutable b -> 0 <= pr < size b -> 0 <= n <= size b -> px = u32 x ->
  exists s it w',
    perm_finish b x pr px n (perm_ref b x (Z.to_nat n)) = Ret (it, w') /\
    coherent b w' /\ perm_full b x !! Z.to_nat pr = Some s /\
    items b !! Z.to_nat s = Some it.
Proof.
  intros [Hs Hi] Hpr Hn ->. unfold perm_finish.
  destruct (perm_extend_spec (Z.to_nat (pr + 1)) b x pr n (perm_ref b x (Z.to_nat n)))
    as (m & -> & Hm); try lia; [apply perm_ref_length; lia|done|]. cbn [rbind].
  pose proof (perm_ref_length b x (Z.to_nat m) ltac:(lia)) as L.
  destruct (aget_in (perm_ref b x (Z.to_nat m)) pr) as (s & -> & Es); [lia|]. cbn [rbind].
  assert (0 <= s < size b) as Hsr.
  { apply positions_range. rewrite <- (perm_ref_perm b x (Z.to_nat m)).
    by eapply list_elem_of_lookup_2. }
  destruct (aget_in (items b) s) as (it & -> & Eit); [lia|]. cbn [rbind].
  exists s, it, (CrushWorkBucket (u32 x) m (perm_ref b x (Z.to_nat m))).
  split; [done|]. split; [|split; [|done]].
  - split; cbn; [done|]. right; right. split; [lia|]. by rewrite perm_ref_u32.
  - unfold perm_full. rewrite <- Es. apply perm_ref_stable. lia.
Qed.

(** The array after the shortcut for position 0 has been cleaned up is the
    array after one step of the shuffle. *)
Lemma perm_magic b x a s :
  0 < size b -> zlen a = size b -> a !! 0%nat = Some s ->
  s = crush_hash32_3 (hash b) x (id b) 0 mod size b ->
  (a <~ perm_fill (Z.to_nat (size b - 1)) 1 a;; a0 <~ aget a 0;; aset a a0 0)
    = Ret (perm_ref b x 1).
Proof.
  intros Hs Hl H0 Es.
  assert (0 <= s < size b) by (subst s; apply Z.mod_pos_bound; lia).
  rewrite perm_fill_spec by lia. cbn [rbind]. rewrite Hl.
  set (c := take (Z.to_nat 1) a ++ drop (Z.to_nat 1) (positions (size b))).
  assert (c !! 0%nat = Some s) as E0.
  { subst c. rewrite lookup_app_l; [by rewrite lookup_take_lt by lia|]. rewrite length_take. lia. }
  assert (zlen c = size b) as Lc.
  { subst c. rewrite length_app, length_take, length_drop.
    pose proof (positions_length (size b)). lia. }
  assert (aget c 0 = Ret s) as -> by (by apply aget_Ret). cbn [rbind].
  rewrite aset_in by lia. f_equal. cbn [perm_ref]. unfold shuffle_step.
  change (Z.of_nat 0) with 0. rewrite Z.sub_0_r, Z.add_0_l, <- Es. change (Z.to_nat 0) with 0%nat.
  assert (c = <[0%nat := s]> (positions (size b))) as Ec.
  { subst c. apply list_eq. intros k. pose proof (positions_length (size b) ltac:(lia)) as Lp.
    destruct k as [|k]; [rewrite E0; by rewrite list_lookup_insert_eq by lia|].
    rewrite list_lookup_insert_ne by lia.
    rewrite lookup_app_r by (rewrite length_take; lia). rewrite length_take, lookup_drop. f_equal. lia. }
  assert (positions (size b) !! 0%nat = Some 0) as P0 by (rewrite lookup_positions by lia; done).
  assert (positions (size b) !! Z.to_nat s = Some s) as Ps.
  { rewrite lookup_positions by lia. f_equal. lia. }
  destruct (Z.ltb_spec 0 (size b - 1)).
  - unfold swap. rewrite P0, Ps, Ec.
    destruct (Z.eq_dec s 0) as [->|]; [done|]. apply list_insert_insert_ne. lia.
  - assert (s = 0) as -> by lia. rewrite Ec, list_insert_insert_eq. by apply list_insert_id.
Qed.

(** The position the shuffle gives to replica 0. *)
Lemma perm_ref_first b x :
  0 < size b ->
  perm_ref b x 1 !! 0%nat = Some (crush_hash32_3 (hash b) x (id b) 0 mod size b).
Proof.
  intros Hs. cbn [perm_ref]. unfold shuffle_step. change (Z.of_nat 0) with 0.
  rewrite Z.sub_0_r, Z.add_0_l. set (s := _ mod size b).
  assert (0 <= s < size b) by (apply Z.mod_pos_bound; lia).
  pose proof (positions_length (size b) ltac:(lia)).
  destruct (Z.ltb_spec 0 (size b - 1)).
  - unfold swap. rewrite !lookup_positions by lia.
    rewrite list_lookup_insert_eq by (rewrite length_insert; lia). f_equal. lia.
  - rewrite lookup_positions by lia. f_equal. lia.
Qed.

(** The functional behaviour of [bucket_perm_choose] on every branch. *)
Lemma perm_choose_spec b w x r :
  permutable b -> coherent b w ->
  exists it w', bucket_perm_choose b w x r = Ret (it, w') /\ coherent b w' /\
    items b !! Z.to_nat (perm_pick b x r) = Some it.
Proof.
  intros Hp [Hl Hc]. pose proof Hp as [Hs Hi].
  destruct (perm_pick_lookup b x r ltac:(lia)) as [EP RP].
  pose proof (Z.mod_pos_bound (u32 r) (size b) ltac:(lia)) as Hpr.
  unfold bucket_perm_choose. destruct (Z.eqb_spec (size b) 0) as [|_]; [lia|].
  cbv zeta. set (pr := u32 r mod size b) in *.
  assert (forall n px, 0 <= n <= size b -> px = u32 x ->
    exists it w', perm_finish b x pr px n (perm_ref b x (Z.to_nat n)) = Ret (it, w') /\
      coherent b w' /\ items b !! Z.to_nat (perm_pick b x r) = Some it) as Fin.
  { intros n px Hn ->. destruct (perm_finish_spec b x pr n (u32 x)) as (s&it&w'&?&?&E&?); try done.
    rewrite EP in E. injection E as <-. eauto. }
  destruct (negb (perm_x w =? u32 x) || (perm_n w =? 0)) eqn:Enew.
  - destruct (Z.eqb_spec pr 0) as [E0|].
    + set (s := crush_hash32_3 (hash b) x (id b) 0 mod size b).
      assert (0 <= s < size b) by (apply Z.mod_pos_bound; lia).
      rewrite aset_in by lia. cbn [rbind].
      destruct (aget_in (items b) s) as (it & -> & Eit); [lia|]. cbn [rbind].
      exists it, (CrushWorkBucket (u32 x) 0xffff (<[0%nat:=s]> (perm w))). split; [done|].
      split; [split; cbn|].
      * by rewrite length_insert.
      * right; left. split; [done|]. rewrite hash3_u32. apply list_lookup_insert_eq. lia.
      * rewrite E0 in EP. change (Z.to_nat 0) with 0%nat in EP.
        unfold perm_full in EP. rewrite (perm_ref_stable b x 1) in EP by lia.
        rewrite perm_ref_first in EP by lia. injection EP as <-. done.
    + rewrite perm_fill_spec by lia. rewrite take_0, drop_0, Hl. cbn [app rbind].
      apply (Fin 0); [lia|done].
  - apply orb_false_elim in Enew as [Ex En]. zbool.
    destruct (Z.eqb_spec (perm_n w) 0xffff) as [Em|Em].
    + destruct Hc as [|[[_ Ep]|[? _]]]; [lia| |lia].
      pose proof (perm_magic b (perm_x w) (perm w) _ ltac:(lia) Hl Ep eq_refl) as M.
      rewrite Ex, perm_ref_u32 in M.
      destruct (perm_fill _ _ _) as [a| |]; cbn [rbind] in *; [|done|done].
      destruct (aget a 0) as [a0| |]; cbn [rbind] in *; [|done|done].
      rewrite M. cbn [rbind]. apply (Fin 1); [lia|done].
    + destruct Hc as [|[[? _]|[? Ep]]]; [lia|lia|]. rewrite Ep, Ex, perm_ref_u32.
      apply Fin; [lia|done].
Qed.
