(* ===== verification/CrushChoose.v ===== *)
(** * What the bucket choose methods guarantee

    Well-formed buckets, and for each algorithm: the method returns (no access
    outside an array, no division by zero, every loop ends), the item is one
    of the bucket's, and it does not depend on the state of the workspace.
    For straw2 buckets: the chosen item has the first largest draw, so a
    change of one weight moves inputs only to or from that item. *)

From S2P Require Import Prelude CrushHash CrushTypes CrushLn CrushBucket CrushPerm.

(** ** Well-formed buckets *)

(** The weight of node [n] of a tree bucket. *)
Definition nodew (nw : list Z) (n : Z) : Z := nth (Z.to_nat n) nw 0.

(** A tree bucket of depth [d]: inner nodes hold the sum of their two
    subtrees, the leaves past the items weigh nothing, and the tree is not
    weightless. *)
Record tree_ok (sz nn : Z) (nw : list Z) (d : Z) : Prop := TreeOk {
  tree_depth : 1 <= d <= 31;
  tree_nodes : nn = 2 ^ d;
  tree_len : zlen nw = nn;
  tree_u32 : Forall (is_u 32) nw;
  tree_sum : forall h j, 0 < h -> 0 <= j -> (2 * j + 1) * 2 ^ h < nn ->
    nodew nw ((2 * j + 1) * 2 ^ h) =
      nodew nw ((2 * j + 1) * 2 ^ h - 2 ^ (h - 1)) + nodew nw ((2 * j + 1) * 2 ^ h + 2 ^ (h - 1));
  tree_pad : forall i, sz <= i -> 2 * i + 1 < nn -> nodew nw (2 * i + 1) = 0;
  tree_root : 0 < nodew nw (2 ^ (d - 1));
}.

Definition wf_body (b : crush_bucket) : Prop :=
  match body b with
  | BUniform _ => True
  | BList iw sws => zlen iw = size b /\ zlen sws = size b
  | BTree nn nw => exists d, tree_ok (size b) nn nw d
  | BStraw _ straws => zlen straws = size b
  | BStraw2 iw => zlen iw = size b /\ Forall (is_u 32) iw
  | BUnknown _ => True
  end.

Record wf_bucket (b : crush_bucket) : Prop := WfBucket {
  wf_size : 0 <= size b < 0xffff;
  wf_items : zlen (items b) = size b;
  wf_data : 0 < size b -> wf_body b;
}.

(** The replacement weights and ids fit the bucket. *)
Definition wf_arg (b : crush_bucket) (arg : crush_choose_arg) : Prop :=
  (forall l, ids arg = Some l -> size b <= zlen l) /\
  (forall ws, weight_set arg = Some ws ->
     0 < weight_set_positions arg < 2 ^ 31 /\ zlen ws = weight_set_positions arg /\
     Forall (fun s => size b <= zlen (weights s) /\ Forall (is_u 32) (weights s)) ws).

(** ** Lists *)

Lemma list_loop_spec n b iw sws x r :
  0 < size b -> zlen (items b) = size b -> zlen iw = size b -> zlen sws = size b ->
  Z.of_nat n <= size b ->
  exists it, list_loop n b iw sws x r = Ret it /\ it ∈ items b.
Proof.
  intros Hs Hi Hw Hsw. induction n as [|n IH]; intros Hn; cbn [list_loop].
  - destruct (aget_in (items b) 0) as (it & -> & E); [lia|].
    exists it. split; [done|]. by eapply list_elem_of_lookup_2.
  - destruct (aget_in (items b) (Z.of_nat n)) as (it & -> & E); [lia|]. cbn [rbind].
    destruct (aget_in sws (Z.of_nat n)) as (s & -> & _); [lia|]. cbn [rbind].
    destruct (aget_in iw (Z.of_nat n)) as (w & -> & _); [lia|]. cbn [rbind].
    case_bool; [|apply IH; lia].
    exists it. split; [done|]. by eapply list_elem_of_lookup_2.
Qed.

(** ** Trees *)

Lemma land_1_odd j h : 0 <= h -> Z.land ((2 * j + 1) * 2 ^ h) 1 = if h =? 0 then 1 else 0.
Proof.
  intros Hh. change 1 with (Z.ones 1) at 2. rewrite Z.land_ones by lia. change (2 ^ 1) with 2.
  destruct (Z.eqb_spec h 0) as [->|].
  - rewrite Z.pow_0_r, Z.mul_1_r, Z.add_comm, Z.mul_comm, Z.mod_add by lia. done.
  - replace h with (Z.succ (h - 1)) by lia. rewrite Z.pow_succ_r by lia.
    replace ((2 * j + 1) * (2 * 2 ^ (h - 1))) with ((2 * j + 1) * 2 ^ (h - 1) * 2) by ring.
    apply Z.mod_mul. lia.
Qed.

Lemma height_loop_spec fuel j h acc :
  0 <= h <= Z.of_nat fuel -> height_loop fuel ((2 * j + 1) * 2 ^ h) acc = Ret (acc + h).
Proof.
  revert h acc. induction fuel as [|fuel IH]; intros h acc Hh; cbn [height_loop];
    rewrite land_1_odd by lia; destruct (Z.eqb_spec h 0) as [->|]; cbn.
  1, 3: f_equal; lia.
  - lia.
  - assert (Z.shiftr ((2 * j + 1) * 2 ^ h) 1 = (2 * j + 1) * 2 ^ (h - 1)) as ->.
    { rewrite Z.shiftr_div_pow2 by lia. change (2 ^ 1) with 2.
      replace h with (Z.succ (h - 1)) at 1 by lia. rewrite Z.pow_succ_r by lia.
      replace ((2 * j + 1) * (2 * 2 ^ (h - 1))) with ((2 * j + 1) * 2 ^ (h - 1) * 2) by ring.
      apply Z.div_mul. lia. }
    rewrite IH by lia. f_equal. lia.
Qed.

Lemma height_spec j h : 0 <= h <= 32 -> height ((2 * j + 1) * 2 ^ h) = Ret h.
Proof. intros. unfold height. by rewrite height_loop_spec by lia. Qed.

Lemma left_spec j h :
  0 < h <= 32 -> left ((2 * j + 1) * 2 ^ h) = Ret ((2 * (2 * j) + 1) * 2 ^ (h - 1)).
Proof.
  intros. unfold left. rewrite height_spec by lia. cbn [rbind].
  rewrite Z.shiftl_mul_pow2, Z.mul_1_l by lia. f_equal.
  replace h with (Z.succ (h - 1)) at 1 by lia. rewrite Z.pow_succ_r by lia. ring.
Qed.

Lemma right_spec j h :
  0 < h <= 32 -> right ((2 * j + 1) * 2 ^ h) = Ret ((2 * (2 * j + 1) + 1) * 2 ^ (h - 1)).
Proof.
  intros. unfold right. rewrite height_spec by lia. cbn [rbind].
  rewrite Z.shiftl_mul_pow2, Z.mul_1_l by lia. f_equal.
  replace h with (Z.succ (h - 1)) at 1 by lia. rewrite Z.pow_succ_r by lia. ring.
Qed.

(** The point drawn in [0, w) lies below [w]. *)
Lemma tree_draw_lt hv w :
  is_u 32 hv -> is_u 32 w -> 0 < w -> Z.shiftr (u64 (hv * w)) 32 < w.
Proof.
  unfold is_u. intros Hh Hw Hp. rewrite uw_small by (unfold is_u; nia).
  rewrite Z.shiftr_div_pow2 by lia. apply Z.div_lt_upper_bound; nia.
Qed.

Lemma aget_nodew nw n : 0 <= n < zlen nw -> aget nw n = Ret (nodew nw n).
Proof. apply aget_tbl. Qed.

Lemma nodew_u32 nw n : Forall (is_u 32) nw -> 0 <= n < zlen nw -> is_u 32 (nodew nw n).
Proof.
  intros HF Hn. destruct (aget_in nw n Hn) as (a & E & Ea).
  rewrite aget_nodew in E by done. injection E as <-.
  rewrite Forall_lookup in HF. by eapply HF.
Qed.

Lemma pow2_pos h : 0 <= h -> 0 < 2 ^ h.
Proof. intros. apply Z.pow_pos_nonneg; lia. Qed.

Lemma shiftr_odd j : Z.shiftr (2 * j + 1) 1 = j.
Proof.
  rewrite Z.shiftr_div_pow2 by lia. change (2 ^ 1) with 2.
  pose proof (Z.div_mod (2 * j + 1) 2). pose proof (Z.mod_pos_bound (2 * j + 1) 2). lia.
Qed.

(** The two children of an inner node, and their ranges. *)
Lemma tree_inner sz nn nw d j h (n := (2 * j + 1) * 2 ^ h) :
  tree_ok sz nn nw d -> 0 < h <= 31 -> 0 <= j -> n < nn ->
  let l := (2 * (2 * j) + 1) * 2 ^ (h - 1) in
  let r := (2 * (2 * j + 1) + 1) * 2 ^ (h - 1) in
  left n = Ret l /\ right n = Ret r /\ 0 < l < n /\ n < r < nn /\
  nodew nw n = nodew nw l + nodew nw r.
Proof.
  intros T Hh Hj Hn l r. pose proof (pow2_pos (h - 1) ltac:(lia)).
  assert (2 ^ h = 2 * 2 ^ (h - 1)) as E2 by (rewrite <- Z.pow_succ_r by lia; f_equal; lia).
  assert (n - 2 ^ (h - 1) = l) as El by (subst n l; rewrite E2; ring).
  assert (n + 2 ^ (h - 1) = r) as Er by (subst n r; rewrite E2; ring).
  split; [apply left_spec; lia|]. split; [apply right_spec; lia|].
  split; [nia|]. split; [|rewrite <- El, <- Er; apply (tree_sum _ _ _ _ T); lia].
  split; [lia|]. subst n. rewrite (tree_nodes _ _ _ _ T) in *.
  pose proof (tree_depth _ _ _ _ T). destruct (Z.le_gt_cases d h) as [Hdh|Hdh].
  { pose proof (Z.pow_le_mono_r 2 d h ltac:(lia) Hdh). nia. }
  assert (2 ^ d = 2 ^ h * 2 ^ (d - h)) as E3 by (rewrite <- Z.pow_add_r by lia; f_equal; lia).
  assert (2 * j + 2 <= 2 ^ (d - h)) as E4 by nia.
  assert (r < (2 * j + 2) * 2 ^ h) by (subst r; rewrite E2; lia). nia.
Qed.

Lemma tree_loop_spec fuel b nn nw d x r j h :
  tree_ok (size b) nn nw d -> zlen (items b) = size b ->
  0 <= h <= Z.of_nat fuel -> h <= 31 -> 0 <= j -> (2 * j + 1) * 2 ^ h < nn ->
  0 < nodew nw ((2 * j + 1) * 2 ^ h) ->
  exists it, tree_loop fuel b nw x r ((2 * j + 1) * 2 ^ h) = Ret it /\ it ∈ items b.
Proof.
  intros T Hi. pose proof (tree_len _ _ _ _ T) as Hl. pose proof (tree_u32 _ _ _ _ T) as Hu.
  revert j h. induction fuel as [|fuel IH]; intros j h Hh H31 Hj Hn Hw;
    cbn [tree_loop]; unfold terminal; rewrite land_1_odd by lia;
    destruct (Z.eqb_spec h 0) as [->|Hh0]; cbn [negb Z.eqb]; try lia.
  1, 2: rewrite Z.pow_0_r, Z.mul_1_r in *; rewrite shiftr_odd;
    (destruct (Z.lt_ge_cases j (size b)) as [Hjs|Hjs];
      [destruct (aget_in (items b) j) as (it & -> & E); [lia|];
       exists it; split; [done|by eapply list_elem_of_lookup_2]
      |rewrite (tree_pad _ _ _ _ T) in Hw by lia; lia]).
  destruct (tree_inner _ _ _ _ j h T) as (El & Er & Rl & Rr & Sum); [lia..|].
  rewrite aget_nodew by lia. cbn [rbind]. rewrite El. cbn [rbind].
  rewrite aget_nodew by lia. cbn [rbind]. rewrite Er. cbn [rbind].
  set (n := (2 * j + 1) * 2 ^ h) in *.
  set (hv := crush_hash32_4 (hash b) x n r (id b)).
  pose proof (tree_draw_lt hv _ (crush_hash32_4_range _ _ _ _ _)
                (nodew_u32 nw n Hu ltac:(lia)) Hw) as Dlt.
  assert (0 <= Z.shiftr (u64 (hv * nodew nw n)) 32) as Dpos.
  { apply Z.shiftr_nonneg. apply uw_range. lia. }
  destruct (Z.ltb_spec (Z.shiftr (u64 (hv * nodew nw n)) 32)
              (nodew nw ((2 * (2 * j) + 1) * 2 ^ (h - 1)))) as [Ht|Ht]; apply IH; lia.
Qed.

Lemma tree_choose_spec b nn nw d x r :
  tree_ok (size b) nn nw d -> zlen (items b) = size b ->
  exists it, bucket_tree_choose b nn nw x r = Ret it /\ it ∈ items b.
Proof.
  intros T Hi. pose proof (tree_depth _ _ _ _ T). unfold bucket_tree_choose.
  assert (Z.shiftr nn 1 = (2 * 0 + 1) * 2 ^ (d - 1)) as ->.
  { rewrite (tree_nodes _ _ _ _ T), Z.shiftr_div_pow2 by lia. change (2 ^ 1) with 2.
    replace d with (Z.succ (d - 1)) at 1 by lia. rewrite Z.pow_succ_r by lia.
    rewrite Z.mul_comm, Z.div_mul by lia. lia. }
  pose proof (tree_root _ _ _ _ T).
  apply (tree_loop_spec 32 b nn nw d); try done; try lia.
  - rewrite (tree_nodes _ _ _ _ T). replace d with (Z.succ (d - 1)) at 2 by lia.
    rewrite Z.pow_succ_r by lia. pose proof (pow2_pos (d - 1)). lia.
  - replace ((2 * 0 + 1) * 2 ^ (d - 1)) with (2 ^ (d - 1)) by ring. done.
Qed.

(** ** Straws *)

Lemma straw_loop_spec n b straws x r i high hd :
  0 <= i -> i + Z.of_nat n <= zlen (items b) -> i + Z.of_nat n <= zlen straws ->
  0 <= high <= i ->
  exists k, straw_loop n b straws x r i high hd = Ret k /\
    0 <= k /\ (k = high \/ i <= k < i + Z.of_nat n) /\
    ((0 < n)%nat -> i = 0 -> k < Z.of_nat n).
Proof.
  revert i high hd. induction n as [|n IH]; intros i high hd Hi Hn Hs Hh; cbn [straw_loop].
  { exists high. split; [done|]. lia. }
  destruct (aget_in (items b) i) as (it & -> & _); [lia|]. cbn [rbind].
  destruct (aget_in straws i) as (s & -> & _); [lia|]. cbn [rbind].
  case_bool.
  - edestruct (IH (i + 1) i) as (k & -> & ? & ? & _); [lia..|]. exists k. split; [done|]. lia.
  - zbool. edestruct (IH (i + 1) high) as (k & -> & ? & ? & _); [lia..|]. exists k. split; [done|]. lia.
Qed.

Lemma straw_choose_spec b straws x r :
  0 < size b -> zlen (items b) = size b -> zlen straws = size b ->
  exists it, bucket_straw_choose b straws x r = Ret it /\ it ∈ items b.
Proof.
  intros Hs Hi Hst. unfold bucket_straw_choose.
  destruct (straw_loop_spec (Z.to_nat (size b)) b straws x r 0 0 0) as (k & -> & ? & ? & Hk); [lia..|].
  cbn [rbind]. destruct (aget_in (items b) k) as (it & -> & E); [lia|].
  exists it. split; [done|]. by eapply list_elem_of_lookup_2.
Qed.

(** ** Straw2 *)

(** The draws as a pure function, and the first position of the largest. *)
Definition draw (h x r idv w : Z) : Z :=
  if w =? 0 then S64_MIN
  else Z.quot (default 0 (match crush_ln (Z.land (crush_hash32_3 h x idv r) 0xffff) with
                          | Ret v => Some v | _ => None end) - 2 ^ 48) (s32 w).

Fixpoint first_max (l : list Z) (i high hd : Z) : Z :=
  match l with
  | [] => high
  | d :: l => if (i =? 0) || (hd <? d) then first_max l (i + 1) i d else first_max l (i + 1) high hd
  end.

Definition draws (h x r : Z) (idl ws : list Z) : list Z := zip_with (draw h x r) idl ws.

(** [k] is the first position of the largest element of [l]. *)
Definition is_argmax (l : list Z) (k : nat) : Prop :=
  exists m, l !! k = Some m /\
    forall j d, l !! j = Some d -> d <= m /\ ((j < k)%nat -> d < m).

Lemma is_argmax_unique l k k' : is_argmax l k -> is_argmax l k' -> k = k'.
Proof.
  intros (m & E & H) (m' & E' & H').
  pose proof (H _ _ E') as [? ?]. pose proof (H' _ _ E) as [? ?].
  destruct (lt_eq_lt_dec k k') as [[?|?]|?]; [|done|]; intuition lia.
Qed.

Lemma first_max_spec p l high hd :
  p <> [] -> is_argmax p high -> p !! high = Some hd ->
  exists k, first_max l (zlen p) (Z.of_nat high) hd = Z.of_nat k /\ is_argmax (p ++ l) k.
Proof.
  revert p high hd. induction l as [|d l IH]; intros p high hd Hp Ha E; cbn [first_max].
  { exists high. rewrite app_nil_r. done. }
  assert (zlen (p ++ [d]) = zlen p + 1) as Lp by (rewrite length_app; cbn; lia).
  destruct Ha as (m & Em & Hm). rewrite E in Em. injection Em as <-.
  destruct (Z.eqb_spec (zlen p) 0) as [|_]; [destruct p; cbn in *; [done|lia]|]. cbn [orb].
  rewrite cons_middle, app_assoc, <- Lp.
  destruct (Z.ltb_spec hd d) as [Hd|Hd].
  - apply IH; [by destruct p| |by rewrite list_lookup_middle].
    exists d. split; [by rewrite list_lookup_middle|]. intros j e Ee.
    apply lookup_app_Some in Ee as [Ee|[? Ee]].
    + apply Hm in Ee as [? _]. lia.
    + apply list_lookup_singleton_Some in Ee as [? ->]. split; [lia|]. lia.
  - apply IH; [by destruct p| |by apply lookup_app_l_Some].
    exists hd. split; [by apply lookup_app_l_Some|]. intros j e Ee.
    apply lookup_app_Some in Ee as [Ee|[? Ee]]; [by apply Hm|].
    apply list_lookup_singleton_Some in Ee as [? ->]. apply lookup_lt_Some in E. split; lia.
Qed.

Lemma first_max_argmax l :
  l <> [] -> exists k, first_max l 0 0 0 = Z.of_nat k /\ is_argmax l k /\ (k < length l)%nat.
Proof.
  destruct l as [|d l]; [done|]. intros _. cbn [first_max Z.eqb orb].
  destruct (first_max_spec [d] l 0 d) as (k & E & A); [done| |done|].
  - exists d. split; [done|]. intros j e Ej%list_lookup_singleton_Some. destruct Ej as [-> ->]. lia.
  - exists k. split; [done|]. split; [done|].
    destruct A as (m & Em%lookup_lt_Some & _). done.
Qed.

Lemma s32_nonzero w : is_u 32 w -> w <> 0 -> s32 w <> 0.
Proof.
  unfold is_u, sw. intros H Hw E. change (2 ^ (32 - 1)) with 2147483648 in E.
  change (2 ^ 32) with 4294967296 in *.
  destruct (Z.lt_ge_cases w 2147483648).
  - rewrite Z.mod_small in E by lia. lia.
  - replace (w + 2147483648) with (w - 2147483648 + 1 * 4294967296) in E by lia.
    rewrite Z.mod_add, Z.mod_small in E by lia. lia.
Qed.

Lemma land_ffff z : 0 <= Z.land z 0xffff <= 0xffff.
Proof.
  change 0xffff with (Z.ones 16). rewrite Z.land_ones by lia.
  pose proof (Z.mod_pos_bound z (2 ^ 16)). change (Z.ones 16) with 65535. lia.
Qed.

Lemma straw2_draw_spec h x r idv w : is_u 32 w -> straw2_draw h x r idv w = Ret (draw h x r idv w).
Proof.
  intros Hw. unfold straw2_draw, draw. destruct (Z.eqb_spec w 0) as [|Hw0]; [done|].
  unfold generate_exponential_distribution.
  destruct (crush_ln_range _ (land_ffff (crush_hash32_3 h x idv r))) as (v & -> & Hv).
  cbn [rbind default]. pose proof (s32_nonzero w Hw Hw0).
  destruct (Z.eqb_spec (s32 w) 0); [lia|]. f_equal. f_equal.
  rewrite sw_small; [done|lia|]. unfold is_s. change (2 ^ (64 - 1)) with (2 ^ 63). lia.
Qed.

Lemma straw2_loop_spec n h ws idl x r i high hd :
  0 <= i -> i + Z.of_nat n <= zlen ws -> i + Z.of_nat n <= zlen idl -> Forall (is_u 32) ws ->
  straw2_loop n h ws idl x r i high hd
    = Ret (first_max (take n (drop (Z.to_nat i) (draws h x r idl ws))) i high hd).
Proof.
  revert i high hd. induction n as [|n IH]; intros i high hd Hi Hw Hd Hu; cbn [straw2_loop]; [done|].
  destruct (aget_in ws i) as (w & -> & Ew); [lia|]. cbn [rbind].
  destruct (aget_in idl i) as (v & -> & Ev); [lia|]. cbn [rbind].
  rewrite straw2_draw_spec by (rewrite Forall_lookup in Hu; by eapply Hu). cbn [rbind].
  assert (draws h x r idl ws !! Z.to_nat i = Some (draw h x r v w)) as E.
  { unfold draws. rewrite lookup_zip_with, Ev. cbn. by rewrite Ew. }
  rewrite (drop_S _ _ _ E). cbn [take first_max].
  replace (S (Z.to_nat i)) with (Z.to_nat (i + 1)) by lia.
  case_bool; apply IH; lia || done.
Qed.

(** The weights and ids a straw2 bucket of [size] items is drawn with. *)
Record straw2_inputs (sz : Z) (ws idl : list Z) : Prop := Straw2Inputs {
  in_ws : sz <= zlen ws;
  in_ids : sz <= zlen idl;
  in_u32 : Forall (is_u 32) ws;
}.

Lemma straw2_loop_argmax sz h ws idl x r :
  0 < sz -> straw2_inputs sz ws idl ->
  exists k, straw2_loop (Z.to_nat sz) h ws idl x r 0 0 0 = Ret (Z.of_nat k) /\
    is_argmax (take (Z.to_nat sz) (draws h x r idl ws)) k /\ Z.of_nat k < sz.
Proof.
  intros Hs [Hw Hi Hu]. rewrite straw2_loop_spec by (lia || done).
  change (Z.to_nat 0) with 0%nat. rewrite drop_0.
  set (l := take _ _). assert (zlen l = sz) as Ll.
  { subst l. rewrite length_take. unfold draws. rewrite length_zip_with. lia. }
  destruct (first_max_argmax l) as (k & -> & A & Hk); [by intros ->; cbn in *; lia|].
  exists k. split; [done|]. split; [done|lia].
Qed.

Lemma straw2_choose_argmax b iw x r arg p ws :
  0 < size b -> zlen (items b) = size b ->
  get_choose_arg_weights iw arg p = Ret ws ->
  straw2_inputs (size b) ws (get_choose_arg_ids b arg) ->
  exists k it, bucket_straw2_choose b iw x r arg p = Ret it /\ items b !! k = Some it /\
    is_argmax (take (Z.to_nat (size b)) (draws (hash b) x r (get_choose_arg_ids b arg) ws)) k.
Proof.
  intros Hs Hi E W. unfold bucket_straw2_choose. rewrite E. cbn [rbind].
  destruct (straw2_loop_argmax (size b) (hash b) ws (get_choose_arg_ids b arg) x r Hs W)
    as (k & -> & A & Hk). cbn [rbind].
  destruct (aget_in (items b) (Z.of_nat k)) as (it & -> & Eit); [lia|].
  rewrite Nat2Z.id in Eit. by exists k, it.
Qed.

(** The arguments of [crush_bucket_choose] give usable inputs. *)
Lemma choose_arg_inputs b iw arg p :
  zlen (items b) = size b -> zlen iw = size b -> Forall (is_u 32) iw ->
  0 <= p < 2 ^ 31 -> (forall a, arg = Some a -> wf_arg b a) ->
  exists ws, get_choose_arg_weights iw arg p = Ret ws /\
    straw2_inputs (size b) ws (get_choose_arg_ids b arg).
Proof.
  intros Hi Hw Hu Hp Ha. destruct arg as [a|]; cbn.
  - destruct (Ha a eq_refl) as [Hids Hws].
    assert (size b <= zlen (match ids a with None => items b | Some l => l end)) as Hd.
    { destruct (ids a) as [l|]; [by apply Hids|lia]. }
    destruct (weight_set a) as [ws|]; [|exists iw; split; [done|split; (lia || done)]].
    destruct (Hws ws eq_refl) as (Hpos & Hl & HF). rewrite (uw_small 32 p) by (unfold is_u; lia).
    assert (s32 (weight_set_positions a - 1) = weight_set_positions a - 1) as ->.
    { apply sw_small; [lia|]. unfold is_s. change (2 ^ (32 - 1)) with (2 ^ 31). lia. }
    assert (0 <= (if weight_set_positions a <=? p then weight_set_positions a - 1 else p) < zlen ws) as R.
    { destruct (Z.leb_spec (weight_set_positions a) p); lia. }
    destruct (aget_in ws _ R) as (s & -> & Es). cbn [rbind].
    rewrite Forall_lookup in HF. destruct (HF _ _ Es) as [? ?].
    exists (weights s). split; [done|]. by split.
  - exists iw. split; [done|]. split; (lia || done).
Qed.

(** ** Every algorithm: the item is the bucket's, and does not depend on the
       workspace *)

(** The workspace slot of a bucket is usable. *)
Definition slot_ok (b : crush_bucket) (w : option crush_work_bucket) : Prop :=
  exists wb, w = Some wb /\ coherent b wb.

Lemma bucket_choose_spec b x r arg p :
  wf_bucket b -> 0 < size b -> 0 <= p < 2 ^ 31 -> (forall a, arg = Some a -> wf_arg b a) ->
  exists it, it ∈ items b /\
    forall w, slot_ok b w ->
      exists w', crush_bucket_choose b w x r arg p = Ret (it, w') /\ slot_ok b w'.
Proof.
  intros [Hs Hi Hd] Hpos Hp Ha. specialize (Hd Hpos). unfold wf_body in Hd.
  unfold crush_bucket_choose. destruct (Z.eqb_spec (size b) 0) as [|_]; [lia|]. cbn [negb rassert rbind].
  assert (forall m : res Z, (exists it, m = Ret it /\ it ∈ items b) ->
    exists it, it ∈ items b /\ forall w, slot_ok b w ->
      exists w', (it <~ m;; Ret (it, w)) = Ret (it, w') /\ slot_ok b w') as Pure.
  { intros m (it & -> & Hin). exists it. split; [done|]. intros w Hw. by exists w. }
  destruct (body b) as [iw|iw sws|nn nw|iw st|iw|a] eqn:Eb.
  - destruct (perm_pick_lookup b x r Hpos) as [_ Hr].
    destruct (lookup_lt_is_Some_2 (items b) (Z.to_nat (perm_pick b x r))) as [it Eit]; [lia|].
    exists it. split; [by eapply list_elem_of_lookup_2|]. intros w (wb & -> & Hc). cbn [deref rbind].
    destruct (perm_choose_spec b wb x r) as (it' & w' & E & Hc' & E'); [split; (lia || done)|done|].
    unfold bucket_uniform_choose. rewrite E. cbn [rbind].
    exists (Some w'). split; [congruence|]. by exists w'.
  - apply Pure. unfold bucket_list_choose. destruct Hd.
    apply list_loop_spec; try done.
    rewrite sw_small; [lia|lia|]. unfold is_s. change (2 ^ (32 - 1)) with (2 ^ 31). lia.
  - apply Pure. destruct Hd as [d T]. by apply (tree_choose_spec b nn nw d).
  - apply Pure. by apply straw_choose_spec.
  - apply Pure. destruct Hd as [Hw Hu].
    destruct (choose_arg_inputs b iw arg p Hi Hw Hu Hp Ha) as (ws & E & W).
    destruct (straw2_choose_argmax b iw x r arg p ws) as (k & it & -> & Eit & _); try done.
    exists it. split; [done|]. by eapply list_elem_of_lookup_2.
  - apply Pure. destruct (aget_in (items b) 0) as (it & -> & E); [lia|].
    exists it. split; [done|]. by eapply list_elem_of_lookup_2.
Qed.
