(* ===== verification/CrushStraw2.v ===== *)
(** * Straw2: weights and data movement

    Consequences of the "first largest draw" characterisation: raising one
    weight can only move inputs to that item (read backwards: lowering it can
    only move inputs away from it), an item of weight zero is not chosen while
    another one has weight, and where the conversion of the weight to [int]
    breaks the proportions. *)

From S2P Require Import Prelude CrushHash CrushTypes CrushLn CrushBucket CrushPerm CrushChoose.

(** The logarithm of the code, shifted below zero. *)
Definition ln_of (h x r idv : Z) : Z :=
  default 0 (match crush_ln (Z.land (crush_hash32_3 h x idv r) 0xffff) with
             | Ret v => Some v | _ => None end) - 2 ^ 48.

Lemma ln_of_range h x r idv : - 2 ^ 48 <= ln_of h x r idv < 0.
Proof.
  unfold ln_of. destruct (crush_ln_range _ (land_ffff (crush_hash32_3 h x idv r))) as (v & -> & Hv).
  cbn. lia.
Qed.

#[local] Strategy 1000 [draw ln_of crush_ln].
Lemma draw_eq h x r idv w : draw h x r idv w = if w =? 0 then S64_MIN else Z.quot (ln_of h x r idv) (s32 w).
Proof. done. Qed.

Lemma s32_pos w : 0 <= w < 2 ^ 31 -> s32 w = w.
Proof. intros. apply sw_small; [lia|]. unfold is_s. change (2 ^ (32 - 1)) with (2 ^ 31). lia. Qed.

Lemma quot_neg a w : a < 0 -> 0 < w -> a <= Z.quot a w <= 0.
Proof.
  intros Ha Hw. replace a with (- - a) by lia. rewrite Z.quot_opp_l, Z.quot_div_nonneg by lia.
  pose proof (Z.div_pos (- a) w). pose proof (Z.div_le_upper_bound (- a) w (- a)). nia.
Qed.

Lemma quot_neg_mono a w w' : a < 0 -> 0 < w <= w' -> Z.quot a w <= Z.quot a w'.
Proof.
  intros Ha Hw. assert (exists c, a = - c /\ 0 < c) as (c & -> & Hc) by (exists (- a); lia).
  rewrite !Z.quot_opp_l, !Z.quot_div_nonneg by lia.
  pose proof (Z.div_le_compat_l c w w'). lia.
Qed.

Lemma draw_pos_range h x r idv w :
  0 < w < 2 ^ 31 -> - 2 ^ 48 <= draw h x r idv w <= 0.
Proof.
  intros Hw. rewrite draw_eq. destruct (Z.eqb_spec w 0); [lia|]. rewrite s32_pos by lia.
  pose proof (ln_of_range h x r idv). pose proof (quot_neg (ln_of h x r idv) w). lia.
Qed.

(** A larger weight gives a draw at least as large. *)
Lemma draw_mono h x r idv w w' :
  0 <= w <= w' -> w' < 2 ^ 31 -> draw h x r idv w <= draw h x r idv w'.
Proof.
  intros Hw Hw'. destruct (Z.eq_dec w w') as [->|]; [lia|].
  destruct (Z.eq_dec w 0) as [->|].
  { pose proof (draw_pos_range h x r idv w'). rewrite draw_eq. cbn [Z.eqb]. unfold S64_MIN. lia. }
  rewrite !draw_eq. destruct (Z.eqb_spec w 0), (Z.eqb_spec w' 0); try lia.
  rewrite !s32_pos by lia. pose proof (ln_of_range h x r idv) as L.
  apply quot_neg_mono; lia.
Qed.

(** Raising one draw moves the maximum there or nowhere. *)
Lemma argmax_raise (l : list Z) i d d' k k' :
  l !! i = Some d -> d <= d' -> is_argmax l k -> is_argmax (<[i := d']> l) k' -> k' = k \/ k' = i.
Proof.
  intros Ei Hd A (m & Em & H). destruct (decide (k' = i)) as [|Hne]; [by right|]. left.
  pose proof (lookup_lt_Some _ _ _ Ei).
  rewrite list_lookup_insert_ne in Em by done.
  apply (is_argmax_unique l); [|done]. exists m. split; [done|]. intros j e Ej.
  destruct (decide (j = i)) as [->|Hji].
  - rewrite Ei in Ej. injection Ej as <-.
    destruct (H i d') as [? ?]; [by rewrite list_lookup_insert_eq|]. split; [lia|]. intros. lia.
  - apply H. by rewrite list_lookup_insert_ne.
Qed.

Lemma draws_insert h x r idl ws i w v :
  idl !! i = Some v -> (i < length ws)%nat ->
  draws h x r idl (<[i := w]> ws) = <[i := draw h x r v w]> (draws h x r idl ws).
Proof.
  intros Ev Hi. unfold draws. apply list_eq. intros j.
  rewrite lookup_zip_with. destruct (decide (i = j)) as [<-|Hne].
  - rewrite Ev. cbn. rewrite list_lookup_insert_eq by done. cbn.
    rewrite list_lookup_insert_eq; [done|]. rewrite length_zip_with. apply lookup_lt_Some in Ev. lia.
  - rewrite !list_lookup_insert_ne by done. by rewrite lookup_zip_with.
Qed.

(** ** The choices of a straw2 bucket without [choose_args] *)

Definition straw2_ok (b : crush_bucket) (iw : list Z) : Prop :=
  0 < size b /\ zlen (items b) = size b /\ zlen iw = size b /\
  Forall (fun w => 0 <= w < 2 ^ 31) iw.

Lemma straw2_ok_u32 b iw : straw2_ok b iw -> Forall (is_u 32) iw.
Proof.
  intros (_ & _ & _ & H). eapply Forall_impl; [|exact H]. unfold is_u. intros w Hw. cbn in Hw. lia.
Qed.

Lemma straw2_plain b iw x r p :
  straw2_ok b iw ->
  exists k it, bucket_straw2_choose b iw x r None p = Ret it /\ items b !! k = Some it /\
    is_argmax (draws (hash b) x r (items b) iw) k.
Proof.
  intros Ok. pose proof (straw2_ok_u32 _ _ Ok). destruct Ok as (Hs & Hi & Hw & _).
  destruct (straw2_choose_argmax b iw x r None p iw) as (k & it & E & Ek & A); try done.
  { split; cbn; (lia || done). }
  cbn in A. rewrite take_ge in A by (unfold draws; rewrite length_zip_with; lia).
  by exists k, it.
Qed.

Lemma straw2_raise b iw i w w' x r p :
  straw2_ok b iw -> iw !! i = Some w -> w <= w' < 2 ^ 31 ->
  exists it it', bucket_straw2_choose b iw x r None p = Ret it /\
    bucket_straw2_choose b (<[i := w']> iw) x r None p = Ret it' /\
    (it' = it \/ items b !! i = Some it').
Proof.
  intros Ok Ei Hw. pose proof Ok as (Hs & Hi & Hl & HF).
  pose proof (lookup_lt_Some _ _ _ Ei) as Hlt.
  assert (0 <= w) as Hw0 by (rewrite Forall_lookup in HF; apply HF in Ei; lia).
  assert (straw2_ok b (<[i := w']> iw)) as Ok'.
  { split; [done|]. split; [done|]. split; [by rewrite length_insert|].
    apply Forall_insert; [done|lia]. }
  destruct (straw2_plain b iw x r p Ok) as (k & it & -> & Ek & A).
  destruct (straw2_plain b _ x r p Ok') as (k' & it' & -> & Ek' & A').
  exists it, it'. split; [done|]. split; [done|].
  destruct (lookup_lt_is_Some_2 (items b) i) as [v Ev]; [lia|].
  rewrite (draws_insert _ _ _ _ _ _ _ v) in A' by done.
  assert (draws (hash b) x r (items b) iw !! i = Some (draw (hash b) x r v w)) as Ed.
  { unfold draws. rewrite lookup_zip_with, Ev. cbn. by rewrite Ei. }
  destruct (argmax_raise _ _ _ _ _ _ Ed (draw_mono (hash b) x r v w w' ltac:(lia) ltac:(lia)) A A') as [-> | ->].
  - left. congruence.
  - by right.
Qed.

Lemma straw2_weighted b iw x r p j wj :
  straw2_ok b iw -> iw !! j = Some wj -> 0 < wj ->
  exists k it w, bucket_straw2_choose b iw x r None p = Ret it /\
    items b !! k = Some it /\ iw !! k = Some w /\ 0 < w.
Proof.
  intros Ok Ej Hj. pose proof Ok as (Hs & Hi & Hl & HF). rewrite Forall_lookup in HF.
  destruct (straw2_plain b iw x r p Ok) as (k & it & E & Ek & (m & Em & M)).
  pose proof Em as Em'. unfold draws in Em'. rewrite lookup_zip_with, Ek in Em'. cbn in Em'.
  destruct (iw !! k) as [w|] eqn:Ew; [|done]. cbn in Em'. injection Em' as Em'.
  exists k, it, w. split; [done|]. split; [done|]. split; [done|].
  pose proof (HF _ _ Ew) as Hw. cbn in Hw. destruct (Z.eq_dec w 0) as [->|]; [|lia].
  destruct (lookup_lt_is_Some_2 (items b) j) as [v Ev]; [apply lookup_lt_Some in Ej; lia|].
  assert (draws (hash b) x r (items b) iw !! j = Some (draw (hash b) x r v wj)) as Ed.
  { unfold draws. rewrite lookup_zip_with, Ev. cbn. by rewrite Ej. }
  apply M in Ed as [Hle _]. pose proof (HF _ _ Ej) as Hwj. cbn in Hwj.
  pose proof (draw_pos_range (hash b) x r v wj). subst m.
  rewrite (draw_eq _ _ _ it 0) in Hle. cbn [Z.eqb] in Hle. unfold S64_MIN in Hle. lia.
Qed.

(** ** Weights of 2^31 and more

    [generate_exponential_distribution] takes the 32-bit unsigned weight as an
    [int]: from [2^31] on, the draw is not negative and beats every draw of a
    smaller weight. *)

Definition two_item_bucket : crush_bucket :=
  CrushBucket (-1) 1 0 0 2 [0; 1] (BStraw2 [0x7fff0000; 0xfe000000]).

Lemma ln_of_gap h x r idv : ln_of h x r idv <= -43930352.
Proof.
  unfold ln_of. pose proof (land_ffff (crush_hash32_3 h x idv r)) as R.
  set (u := Z.land _ _) in *. destruct (crush_ln_range u R) as (v & E & Hv). rewrite E. cbn.
  assert (v <= 0xfffffd61ad10); [|lia].
  destruct (Z.eq_dec u 65535) as [Eu|].
  - rewrite Eu, crush_ln_last in E. injection E as <-. lia.
  - apply (crush_ln_mono u 65534 v); try lia; [done|]. vm_compute. reflexivity.
Qed.

Lemma straw2_int_weight x r p :
  bucket_straw2_choose two_item_bucket [0x7fff0000; 0xfe000000] x r None p = Ret 1.
Proof.
  destruct (straw2_choose_argmax two_item_bucket [0x7fff0000; 0xfe000000] x r None p
              [0x7fff0000; 0xfe000000]) as (k & it & E & Ek & (m & Em & M));
    [reflexivity|reflexivity|reflexivity| |].
  { split; cbn; [lia|lia|]. repeat constructor; unfold is_u; lia. }
  change (take _ _) with [draw 0 x r 0 0x7fff0000; draw 0 x r 1 0xfe000000] in Em, M.
  rewrite E. f_equal. destruct k as [|[|k]]; [|cbn in Ek; congruence|discriminate].
  exfalso. apply (inj Some) in Em. rewrite <- Em in M.
  destruct (M 1%nat (draw 0 x r 1 0xfe000000) eq_refl) as [Hle _].
  pose proof (draw_pos_range 0 x r 0 0x7fff0000 ltac:(lia)) as H0.
  rewrite (draw_eq 0 x r 1) in Hle. change (0xfe000000 =? 0) with false in Hle.
  change (s32 0xfe000000) with (-33554432) in Hle. cbv iota in Hle.
  pose proof (ln_of_gap 0 x r 1) as G.
  assert (1 <= Z.quot (ln_of 0 x r 1) (-33554432)); [|lia].
  assert (exists c, ln_of 0 x r 1 = - c /\ 43930352 <= c) as (c & -> & Hc)
    by (exists (- ln_of 0 x r 1); lia).
  change (-33554432) with (Z.opp 33554432).
  rewrite Z.quot_opp_opp, Z.quot_div_nonneg by lia. apply Z.div_le_lower_bound; lia.
Qed.
