(* ===== verification/CrushMapper.v ===== *)
(** * The CRUSH mapper (src/src/crush/mapper.c, second half)

    [crush_choose_firstn], [crush_choose_indep], [crush_init_workspace] and
    [crush_do_rule].  Output vectors are lists; a pointer into the middle of a
    vector ([o + osize]) is the suffix from there on.  The state threaded
    through the calls is the workspace and the optional counters
    [map->choose_tries].

    The two nested [do ... while] loops of [crush_choose_firstn] are one loop
    over [firstn_turn], the body of the inner one, which says how to go on.
    That loop and the descent of [crush_choose_indep] carry fuel; so does the
    recursion, whose depth is 2 because the recursive calls pass
    [recurse_to_leaf = 0]. *)

From S2P Require Import Prelude CrushHash CrushTypes CrushLn CrushBucket.

Record mstate := MState {
  mwork : crush_work;
  mtries : option (list Z);
}.

Section mapper.
Context (m : crush_map) (weight : list Z) (weight_max x : Z)
        (choose_args : option (list crush_choose_arg)).

(** [&choose_args[-1-in->id]], or a null pointer. *)
Definition choose_arg_of (b : crush_bucket) : res (option crush_choose_arg) :=
  match choose_args with
  | None => Ret None
  | Some l => a <~ aget l (-1 - id b);; Ret (Some a)
  end.

(** [crush_bucket_choose(in, work->work[-1-in->id], ...)] with its effect on
    the workspace. *)
Definition do_bucket_choose (b : crush_bucket) (r position : Z) (s : mstate)
    : res (Z * mstate) :=
  wb <~ aget (mwork s) (-1 - id b);;
  arg <~ choose_arg_of b;;
  '(item, wb) <~ crush_bucket_choose b wb x r arg position;;
  wk <~ aset (mwork s) (-1 - id b) wb;;
  Ret (item, MState wk (mtries s)).

(** [bucket_perm_choose(in, work->work[-1-in->id], ...)] *)
Definition do_perm_choose (b : crush_bucket) (r : Z) (s : mstate) : res (Z * mstate) :=
  wb <~ aget (mwork s) (-1 - id b);;
  w <~ deref wb;;
  '(item, w) <~ bucket_perm_choose b w x r;;
  wk <~ aset (mwork s) (-1 - id b) (Some w);;
  Ret (item, MState wk (mtries s)).

(** [map->buckets[i]], dereferenced. *)
Definition bucket_at (i : Z) : res crush_bucket := ob <~ aget (buckets m) i;; deref ob.

(** The type of an item: a bucket's own, 0 for a device. *)
Definition item_type (item : Z) : res Z :=
  if item <? 0 then b <~ bucket_at (-1 - item);; Ret (type b) else Ret 0.

(** [for (i = lo; i < lo + n; i++) if (out[i] == item)] *)
Fixpoint collides (n : nat) (lo : Z) (out : list Z) (item : Z) : res bool :=
  match n with
  | O => Ret false
  | S n =>
      v <~ aget out lo;;
      if v =? item then Ret true else collides n (lo + 1) out item
  end.

(** [if (map->choose_tries && ftotal <= map->choose_total_tries) ...++] *)
Definition count_try (ftotal : Z) (s : mstate) : res mstate :=
  match mtries s with
  | None => Ret s
  | Some t =>
      if ftotal <=? choose_total_tries m then
        v <~ aget t ftotal;;
        t <~ aset t ftotal (u32 (v + 1));;
        Ret (MState (mwork s) (Some t))
      else Ret s
  end.

(** ** firstn *)

(** The arguments of one call that do not change in it. *)
Record firstn_args := FirstnArgs {
  f_bucket : crush_bucket;
  f_numrep : Z;
  f_type : Z;
  f_tries : Z;
  f_recurse_tries : Z;
  f_local_retries : Z;
  f_local_fallback_retries : Z;
  f_recurse_to_leaf : bool;
  f_vary_r : Z;
  f_stable : Z;
  f_parent_r : Z;
}.

(** How a turn of the inner loop ends. *)
Inductive turn : Type :=
  | RetryBucket (b : crush_bucket) (ftotal flocal : Z)
  | RetryDescent (ftotal : Z)
  | SkipRep
  | Chosen (item ftotal : Z).

(** The output vectors, and the mapper's state. *)
Record fstate := FState {
  f_out : list Z;
  f_out2 : option (list Z);
  f_state : mstate;
}.

(** The label [reject:] and what follows it in the turn. *)
Definition firstn_decide (a : firstn_args) (b : crush_bucket) (item ftotal flocal : Z)
    (reject collide : bool) : turn :=
  if reject || collide then
    let ftotal := u32 (ftotal + 1) in
    let flocal := u32 (flocal + 1) in
    if collide && (flocal <=? f_local_retries a) then RetryBucket b ftotal flocal
    else if (0 <? f_local_fallback_retries a)
            && (flocal <=? u32 (size b + f_local_fallback_retries a))
    then RetryBucket b ftotal flocal
    else if ftotal <? f_tries a then RetryDescent ftotal
    else SkipRep
  else Chosen item ftotal.

(** [r >> (vary_r-1)]; a shift by 32 or more is undefined. *)
Definition sub_r_of (a : firstn_args) (r : Z) : res Z :=
  if f_vary_r a =? 0 then Ret 0
  else if 32 <? f_vary_r a then Fault
  else Ret (Z.shiftr r (f_vary_r a - 1)).

Section firstn.
(** The recursive call: arguments, output, [outpos], [out_size], state. *)
Context (rec : firstn_args -> list Z -> Z -> Z -> mstate -> res (Z * list Z * mstate)).

(** The leaf under a chosen item: [reject], and the state after it. *)
Definition firstn_leaf (a : firstn_args) (outpos count item r : Z) (collide : bool)
    (s : fstate) : res (bool * fstate) :=
  if negb collide && f_recurse_to_leaf a then
    if item <? 0 then
      sub_r <~ sub_r_of a r;;
      b <~ bucket_at (-1 - item);;
      out2 <~ deref (f_out2 s);;
      '(n, out2, ms) <~
        rec (FirstnArgs b (if f_stable a =? 0 then outpos + 1 else 1) 0
               (f_recurse_tries a) 0 (f_local_retries a)
               (f_local_fallback_retries a) false (f_vary_r a) (f_stable a) sub_r)
            out2 outpos count (f_state s);;
      Ret (n <=? outpos, FState (f_out s) (Some out2) ms)
    else
      out2 <~ deref (f_out2 s);;
      out2 <~ aset out2 outpos item;;
      Ret (false, FState (f_out s) (Some out2) (f_state s))
  else Ret (false, s).

(** The bucket choose of a turn. *)
Definition firstn_pick (a : firstn_args) (outpos : Z) (b : crush_bucket) (r flocal : Z)
    (ms : mstate) : res (Z * mstate) :=
  if (0 <? f_local_fallback_retries a) && (Z.shiftr (size b) 1 <=? flocal)
     && (f_local_fallback_retries a <? flocal)
  then do_perm_choose b r ms
  else do_bucket_choose b r outpos ms.

(** An item of the wanted type: collision, leaf, out. *)
Definition firstn_place (a : firstn_args) (outpos count : Z) (b : crush_bucket)
    (item itemtype r ftotal flocal : Z) (s : fstate) : res (turn * fstate) :=
  collide <~ collides (Z.to_nat outpos) 0 (f_out s) item;;
  '(reject, s) <~ firstn_leaf a outpos count item r collide s;;
  reject <~ (if negb reject && negb collide && (itemtype =? 0)
             then is_out weight weight_max item x else Ret reject);;
  Ret (firstn_decide a b item ftotal flocal reject collide, s).

(** The rest of a turn, once an item is picked. *)
Definition firstn_item (a : firstn_args) (outpos count : Z) (b : crush_bucket)
    (item r ftotal flocal : Z) (s : fstate) : res (turn * fstate) :=
  if max_devices m <=? item then Ret (SkipRep, s) else
  itemtype <~ item_type item;;
  if negb (itemtype =? f_type a) then
    if (0 <=? item) || (max_buckets m <=? -1 - item) then Ret (SkipRep, s) else
    b' <~ bucket_at (-1 - item);;
    Ret (RetryBucket b' ftotal flocal, s)
  else firstn_place a outpos count b item itemtype r ftotal flocal s.

(** One turn of [do { ... } while (retry_bucket)]. *)
Definition firstn_turn (a : firstn_args) (outpos count rep : Z) (b : crush_bucket)
    (ftotal flocal : Z) (s : fstate) : res (turn * fstate) :=
  let r := s32 (rep + f_parent_r a + ftotal) in
  if size b =? 0 then Ret (firstn_decide a b 0 ftotal flocal true false, s) else
  '(item, ms) <~ firstn_pick a outpos b r flocal (f_state s);;
  firstn_item a outpos count b item r ftotal flocal (FState (f_out s) (f_out2 s) ms).

(** Both [do] loops: from a bucket to a chosen item or to giving up. *)
Fixpoint firstn_search (fuel : nat) (a : firstn_args) (outpos count rep : Z)
    (b : crush_bucket) (ftotal flocal : Z) (s : fstate)
    : res (option (Z * Z) * fstate) :=
  match fuel with
  | O => NoFuel
  | S fuel =>
      '(t, s) <~ firstn_turn a outpos count rep b ftotal flocal s;;
      match t with
      | RetryBucket b ftotal flocal => firstn_search fuel a outpos count rep b ftotal flocal s
      | RetryDescent ftotal => firstn_search fuel a outpos count rep (f_bucket a) ftotal 0 s
      | SkipRep => Ret (None, s)
      | Chosen item ftotal => Ret (Some (item, ftotal), s)
      end
  end.

(** [for (; rep < numrep && count > 0; rep++)]; [n] is [numrep - rep]. *)
Fixpoint firstn_reps (n : nat) (fuel : nat) (a : firstn_args) (rep outpos count : Z)
    (s : fstate) : res (Z * fstate) :=
  match n with
  | O => Ret (outpos, s)
  | S n =>
      if 0 <? count then
        '(o, s) <~ firstn_search fuel a outpos count rep (f_bucket a) 0 0 s;;
        match o with
        | None => firstn_reps n fuel a (rep + 1) outpos count s
        | Some (item, ftotal) =>
            out <~ aset (f_out s) outpos item;;
            ms <~ count_try ftotal (f_state s);;
            firstn_reps n fuel a (rep + 1) (outpos + 1) (count - 1)
              (FState out (f_out2 s) ms)
        end
      else Ret (outpos, s)
  end.

Definition firstn_body (fuel : nat) (a : firstn_args) (outpos out_size : Z) (s : fstate)
    : res (Z * fstate) :=
  let rep := if f_stable a =? 0 then outpos else 0 in
  firstn_reps (Z.to_nat (f_numrep a - rep)) fuel a rep outpos out_size s.
End firstn.

Fixpoint crush_choose_firstn (depth fuel : nat) (a : firstn_args) (outpos out_size : Z)
    (s : fstate) : res (Z * fstate) :=
  match depth with
  | O => NoFuel
  | S depth =>
      firstn_body
        (fun a' out outpos out_size ms =>
           '(n, s') <~ crush_choose_firstn depth fuel a' outpos out_size (FState out None ms);;
           Ret (n, f_out s', f_state s'))
        fuel a outpos out_size s
  end.

(** ** indep *)

Record indep_args := IndepArgs {
  i_bucket : crush_bucket;
  i_numrep : Z;
  i_type : Z;
  i_tries : Z;
  i_recurse_tries : Z;
  i_recurse_to_leaf : bool;
  i_parent_r : Z;
}.

(** How a turn of the descent [for (;;)] ends. *)
Inductive descent : Type :=
  | Descend (b : crush_bucket)
  | Break (left : Z).

(** [if (out2) out2[rep] = v;] *)
Definition set_out2 (out2 : option (list Z)) (rep v : Z) : res (option (list Z)) :=
  match out2 with
  | None => Ret None
  | Some l => l <~ aset l rep v;; Ret (Some l)
  end.

(** [out[rep] = CRUSH_ITEM_NONE; if (out2) ...; left--; break;] *)
Definition place_none (rep left : Z) (s : fstate) : res (descent * fstate) :=
  out <~ aset (f_out s) rep CRUSH_ITEM_NONE;;
  out2 <~ set_out2 (f_out2 s) rep CRUSH_ITEM_NONE;;
  Ret (Break (left - 1), FState out out2 (f_state s)).

Section indep.
(** The recursive call: arguments, [left], output, [outpos], state. *)
Context (rec : indep_args -> Z -> list Z -> Z -> mstate -> res (list Z * mstate)).

(** The leaf under a chosen item; [true] if there is none. *)
Definition indep_leaf (a : indep_args) (rep item r : Z) (s : fstate) : res (bool * fstate) :=
  if i_recurse_to_leaf a then
    if item <? 0 then
      b <~ bucket_at (-1 - item);;
      out2 <~ deref (f_out2 s);;
      '(out2, ms) <~ rec (IndepArgs b (i_numrep a) 0 (i_recurse_tries a) 0 false r)
                         1 out2 rep (f_state s);;
      v <~ aget out2 rep;;
      Ret (v =? CRUSH_ITEM_NONE, FState (f_out s) (Some out2) ms)
    else
      out2 <~ deref (f_out2 s);;
      out2 <~ aset out2 rep item;;
      Ret (false, FState (f_out s) (Some out2) (f_state s))
  else Ret (false, s).

(** An item of the wanted type: collision, leaf, out, yay. *)
Definition indep_place (a : indep_args) (outpos endpos rep left item itemtype r : Z)
    (s : fstate) : res (descent * fstate) :=
  collide <~ collides (Z.to_nat (endpos - outpos)) outpos (f_out s) item;;
  if collide then Ret (Break left, s) else
  '(noleaf, s) <~ indep_leaf a rep item r s;;
  if (noleaf : bool) then Ret (Break left, s) else
  isout <~ (if itemtype =? 0 then is_out weight weight_max item x else Ret false);;
  if (isout : bool) then Ret (Break left, s) else
  out <~ aset (f_out s) rep item;;
  Ret (Break (left - 1), FState out (f_out2 s) (f_state s)).

(** The rest of a turn, once an item is picked. *)
Definition indep_item (a : indep_args) (outpos endpos rep left item r : Z) (s : fstate)
    : res (descent * fstate) :=
  if max_devices m <=? item then place_none rep left s else
  itemtype <~ item_type item;;
  if negb (itemtype =? i_type a) then
    if (0 <=? item) || (max_buckets m <=? -1 - item) then place_none rep left s else
    b' <~ bucket_at (-1 - item);;
    Ret (Descend b', s)
  else indep_place a outpos endpos rep left item itemtype r s.

(** [r], with the correction for uniform buckets. *)
Definition indep_r (a : indep_args) (b : crush_bucket) (rep ftotal : Z) : res Z :=
  careful <~
    (match body b with
     | BUniform _ =>
         if u32 (i_numrep a) =? 0 then Fault else Ret (size b mod u32 (i_numrep a) =? 0)
     | _ => Ret false
     end);;
  Ret (if (careful : bool)
       then s32 (rep + i_parent_r a + (i_numrep a + 1) * ftotal)
       else s32 (rep + i_parent_r a + i_numrep a * ftotal)).

(** One turn of the descent for position [rep]. *)
Definition indep_turn (a : indep_args) (outpos endpos rep ftotal left : Z)
    (b : crush_bucket) (s : fstate) : res (descent * fstate) :=
  r <~ indep_r a b rep ftotal;;
  if size b =? 0 then Ret (Break left, s) else
  '(item, ms) <~ do_bucket_choose b r outpos (f_state s);;
  indep_item a outpos endpos rep left item r (FState (f_out s) (f_out2 s) ms).

Fixpoint indep_descend (fuel : nat) (a : indep_args) (outpos endpos rep ftotal left : Z)
    (b : crush_bucket) (s : fstate) : res (Z * fstate) :=
  match fuel with
  | O => NoFuel
  | S fuel =>
      '(d, s) <~ indep_turn a outpos endpos rep ftotal left b s;;
      match d with
      | Descend b => indep_descend fuel a outpos endpos rep ftotal left b s
      | Break left => Ret (left, s)
      end
  end.

(** [for (rep = outpos; rep < endpos; rep++)]; [n] is [endpos - rep]. *)
Fixpoint indep_reps (n : nat) (fuel : nat) (a : indep_args) (outpos endpos rep ftotal left : Z)
    (s : fstate) : res (Z * fstate) :=
  match n with
  | O => Ret (left, s)
  | S n =>
      v <~ aget (f_out s) rep;;
      if negb (v =? CRUSH_ITEM_UNDEF)
      then indep_reps n fuel a outpos endpos (rep + 1) ftotal left s
      else
        '(left, s) <~ indep_descend fuel a outpos endpos rep ftotal left (i_bucket a) s;;
        indep_reps n fuel a outpos endpos (rep + 1) ftotal left s
  end.

(** [for (ftotal = 0; left > 0 && ftotal < tries; ftotal++)]; [n] is
    [tries - ftotal]. *)
Fixpoint indep_tries (n : nat) (fuel : nat) (a : indep_args) (outpos endpos ftotal left : Z)
    (s : fstate) : res (Z * fstate) :=
  match n with
  | O => Ret (ftotal, s)
  | S n =>
      if 0 <? left then
        '(left, s) <~ indep_reps (Z.to_nat (endpos - outpos)) fuel a outpos endpos outpos ftotal left s;;
        indep_tries n fuel a outpos endpos (ftotal + 1) left s
      else Ret (ftotal, s)
  end.

(** The first loop: [out[rep] = CRUSH_ITEM_UNDEF], and [out2] with it. *)
Fixpoint indep_init (n : nat) (rep : Z) (s : fstate) : res fstate :=
  match n with
  | O => Ret s
  | S n =>
      out <~ aset (f_out s) rep CRUSH_ITEM_UNDEF;;
      out2 <~ set_out2 (f_out2 s) rep CRUSH_ITEM_UNDEF;;
      indep_init n (rep + 1) (FState out out2 (f_state s))
  end.

(** [if (v[rep] == CRUSH_ITEM_UNDEF) v[rep] = CRUSH_ITEM_NONE;] *)
Definition undef_to_none (l : list Z) (rep : Z) : res (list Z) :=
  v <~ aget l rep;;
  if v =? CRUSH_ITEM_UNDEF then aset l rep CRUSH_ITEM_NONE else Ret l.

(** The last loop. *)
Fixpoint indep_final (n : nat) (rep : Z) (s : fstate) : res fstate :=
  match n with
  | O => Ret s
  | S n =>
      out <~ undef_to_none (f_out s) rep;;
      out2 <~ (match f_out2 s with
               | None => Ret None
               | Some l => l <~ undef_to_none l rep;; Ret (Some l)
               end);;
      indep_final n (rep + 1) (FState out out2 (f_state s))
  end.

Definition indep_body (fuel : nat) (a : indep_args) (left outpos : Z) (s : fstate)
    : res fstate :=
  let endpos := outpos + left in
  s <~ indep_init (Z.to_nat (endpos - outpos)) outpos s;;
  '(ftotal, s) <~ indep_tries (Z.to_nat (i_tries a)) fuel a outpos endpos 0 left s;;
  s <~ indep_final (Z.to_nat (endpos - outpos)) outpos s;;
  ms <~ count_try ftotal (f_state s);;
  Ret (FState (f_out s) (f_out2 s) ms).
End indep.

Fixpoint crush_choose_indep (depth fuel : nat) (a : indep_args) (left outpos : Z)
    (s : fstate) : res fstate :=
  match depth with
  | O => NoFuel
  | S depth =>
      indep_body
        (fun a' left out outpos ms =>
           s' <~ crush_choose_indep depth fuel a' left outpos (FState out None ms);;
           Ret (f_out s', f_state s'))
        fuel a left outpos s
  end.

(** ** Rules *)

(** The local variables of [crush_do_rule]. *)
Record rstate := RState {
  r_w : list Z;
  r_wsize : Z;
  r_o : list Z;
  r_c : list Z;
  r_result : list Z;
  r_result_len : Z;
  r_choose_tries : Z;
  r_choose_leaf_tries : Z;
  r_choose_local_retries : Z;
  r_choose_local_fallback_retries : Z;
  r_vary_r : Z;
  r_stable : Z;
  r_mstate : mstate;
}.

(** The call of [crush_choose_firstn] or [crush_choose_indep] for one bucket
    of the working vector, on the suffixes [o+osize] and [c+osize]. *)
Definition rule_choose_bucket (fuel : nat) (firstn leaf : bool) (numrep type' result_max : Z)
    (b : crush_bucket) (osize : Z) (o c : list Z) (rs : rstate) (ms : mstate)
    : res (Z * list Z * list Z * mstate) :=
  let k := Z.to_nat osize in
  let s := FState (drop k o) (Some (drop k c)) ms in
  let back (s : fstate) :=
    (take k o ++ f_out s, take k c ++ default [] (f_out2 s), f_state s) in
  if firstn then
    let recurse_tries :=
      if negb (r_choose_leaf_tries rs =? 0) then r_choose_leaf_tries rs
      else if negb (chooseleaf_descend_once m =? 0) then 1
      else r_choose_tries rs in
    let a := FirstnArgs b numrep type' (u32 (r_choose_tries rs)) (u32 recurse_tries)
               (u32 (r_choose_local_retries rs)) (u32 (r_choose_local_fallback_retries rs))
               leaf (u32 (r_vary_r rs)) (u32 (r_stable rs)) 0 in
    '(n, s) <~ crush_choose_firstn 2 fuel a 0 (result_max - osize) s;;
    let '(o, c, ms) := back s in
    Ret (osize + n, o, c, ms)
  else
    let out_size := if numrep <? result_max - osize then numrep else result_max - osize in
    let recurse_tries :=
      if negb (r_choose_leaf_tries rs =? 0) then r_choose_leaf_tries rs else 1 in
    let a := IndepArgs b numrep type' (u32 (r_choose_tries rs)) (u32 recurse_tries) leaf 0 in
    s <~ crush_choose_indep 2 fuel a out_size 0 s;;
    let '(o, c, ms) := back s in
    Ret (osize + out_size, o, c, ms).

(** [for (i = 0; i < wsize; i++)] of a choose step; [n] is [wsize - i]. *)
Fixpoint rule_choose_loop (n : nat) (fuel : nat) (firstn leaf : bool) (a1 type' result_max : Z)
    (i osize : Z) (o c : list Z) (rs : rstate) (ms : mstate)
    : res (Z * list Z * list Z * mstate) :=
  match n with
  | O => Ret (osize, o, c, ms)
  | S n =>
      let numrep := if a1 <=? 0 then a1 + result_max else a1 in
      if (a1 <=? 0) && (numrep <=? 0)
      then rule_choose_loop n fuel firstn leaf a1 type' result_max (i + 1) osize o c rs ms
      else
        wi <~ aget (r_w rs) i;;
        let bno := -1 - wi in
        if (bno <? 0) || (max_buckets m <=? bno)
        then rule_choose_loop n fuel firstn leaf a1 type' result_max (i + 1) osize o c rs ms
        else
          b <~ bucket_at bno;;
          '(osize, o, c, ms) <~
            rule_choose_bucket fuel firstn leaf numrep type' result_max b osize o c rs ms;;
          rule_choose_loop n fuel firstn leaf a1 type' result_max (i + 1) osize o c rs ms
  end.

(** The choose steps: reset the output, fill it, copy the leaves, swap. *)
Definition rule_choose (fuel : nat) (firstn leaf : bool) (a1 type' result_max : Z)
    (rs : rstate) : res rstate :=
  if r_wsize rs =? 0 then Ret rs else
  '(osize, o, c, ms) <~
    rule_choose_loop (Z.to_nat (r_wsize rs)) fuel firstn leaf a1 type' result_max
      0 0 (r_o rs) (r_c rs) rs (r_mstate rs);;
  let o := if leaf then take (Z.to_nat osize) c ++ drop (Z.to_nat osize) o else o in
  Ret (RState o osize (r_w rs) c (r_result rs) (r_result_len rs)
         (r_choose_tries rs) (r_choose_leaf_tries rs) (r_choose_local_retries rs)
         (r_choose_local_fallback_retries rs) (r_vary_r rs) (r_stable rs) ms).

(** [for (i = 0; i < wsize && result_len < result_max; i++)] *)
Fixpoint rule_emit (n : nat) (i result_max : Z) (w result : list Z) (result_len : Z)
    : res (list Z * Z) :=
  match n with
  | O => Ret (result, result_len)
  | S n =>
      if result_len <? result_max then
        v <~ aget w i;;
        result <~ aset result result_len v;;
        rule_emit n (i + 1) result_max w result (result_len + 1)
      else Ret (result, result_len)
  end.

(** Updates of the local variables. *)
Definition set_w (rs : rstate) (w : list Z) (wsize : Z) : rstate :=
  RState w wsize (r_o rs) (r_c rs) (r_result rs) (r_result_len rs)
    (r_choose_tries rs) (r_choose_leaf_tries rs) (r_choose_local_retries rs)
    (r_choose_local_fallback_retries rs) (r_vary_r rs) (r_stable rs) (r_mstate rs).

Definition set_result (rs : rstate) (result : list Z) (result_len : Z) : rstate :=
  RState (r_w rs) 0 (r_o rs) (r_c rs) result result_len
    (r_choose_tries rs) (r_choose_leaf_tries rs) (r_choose_local_retries rs)
    (r_choose_local_fallback_retries rs) (r_vary_r rs) (r_stable rs) (r_mstate rs).

Definition set_tunables (rs : rstate) (ct clt clr clfr vr st : Z) : rstate :=
  RState (r_w rs) (r_wsize rs) (r_o rs) (r_c rs) (r_result rs) (r_result_len rs)
    ct clt clr clfr vr st (r_mstate rs).

Definition rule_step (fuel : nat) (result_max : Z) (st : crush_rule_step) (rs : rstate)
    : res rstate :=
  let a1 := arg1 st in
  let ct := r_choose_tries rs in
  let clt := r_choose_leaf_tries rs in
  let clr := r_choose_local_retries rs in
  let clfr := r_choose_local_fallback_retries rs in
  let vr := r_vary_r rs in
  let sb := r_stable rs in
  match decode_op (op st) with
  | OpTake =>
      ok <~ (if (0 <=? a1) && (a1 <? max_devices m) then Ret true
             else if (0 <=? -1 - a1) && (-1 - a1 <? max_buckets m) then
               ob <~ aget (buckets m) (-1 - a1);;
               Ret (match ob with Some _ => true | None => false end)
             else Ret false);;
      if (ok : bool) then
        w <~ aset (r_w rs) 0 a1;;
        Ret (set_w rs w 1)
      else Ret rs
  | OpSetChooseTries =>
      Ret (if 0 <? a1 then set_tunables rs a1 clt clr clfr vr sb else rs)
  | OpSetChooseleafTries =>
      Ret (if 0 <? a1 then set_tunables rs ct a1 clr clfr vr sb else rs)
  | OpSetChooseLocalTries =>
      Ret (if 0 <=? a1 then set_tunables rs ct clt a1 clfr vr sb else rs)
  | OpSetChooseLocalFallbackTries =>
      Ret (if 0 <=? a1 then set_tunables rs ct clt clr a1 vr sb else rs)
  | OpSetChooseleafVaryR =>
      Ret (if 0 <=? a1 then set_tunables rs ct clt clr clfr a1 sb else rs)
  | OpSetChooseleafStable =>
      Ret (if 0 <=? a1 then set_tunables rs ct clt clr clfr vr a1 else rs)
  | OpChoose firstn leaf => rule_choose fuel firstn leaf a1 (arg2 st) result_max rs
  | OpEmit =>
      '(result, n) <~ rule_emit (Z.to_nat (r_wsize rs)) 0 result_max (r_w rs)
                        (r_result rs) (r_result_len rs);;
      Ret (set_result rs result n)
  | OpUnknown => Ret rs
  end.

(** [for (step = 0; step < rule->len; step++)] *)
Fixpoint rule_steps (n : nat) (fuel : nat) (result_max : Z) (i : Z)
    (sts : list crush_rule_step) (rs : rstate) : res rstate :=
  match n with
  | O => Ret rs
  | S n =>
      st <~ aget sts i;;
      rs <~ rule_step fuel result_max st rs;;
      rule_steps n fuel result_max (i + 1) sts rs
  end.

(** The local variables at the start: the three scratch vectors [a], [b], [c]
    of [result_max] cells hold whatever the workspace holds. *)
Definition rule_start (a b c result : list Z) (ms : mstate) : rstate :=
  RState a 0 b c result 0
    (s32 (choose_total_tries m + 1)) 0 (s32 (choose_local_tries m))
    (s32 (choose_local_fallback_tries m)) (chooseleaf_vary_r m) (chooseleaf_stable m) ms.

(** [crush_do_rule]: the number of results, the result vector, the state. *)
Definition crush_do_rule (fuel : nat) (ruleno : Z) (result : list Z) (result_max : Z)
    (a b c : list Z) (ms : mstate) : res (Z * list Z * mstate) :=
  if max_rules m <=? u32 ruleno then Ret (0, result, ms) else
  orule <~ aget (rules m) ruleno;;
  rule <~ deref orule;;
  rs <~ rule_steps (Z.to_nat (len rule)) fuel result_max 0 (steps rule)
          (rule_start a b c result ms);;
  Ret (r_result_len rs, r_result rs, r_mstate rs).
End mapper.

(** ** The workspace *)

(** Sizes on a 64-bit machine. *)
Definition sizeof_crush_work : Z := 8.
Definition sizeof_pointer : Z := 8.
Definition sizeof_crush_work_bucket : Z := 16.
Definition sizeof_u32 : Z := 4.

(** [for (b = 0; b < m->max_buckets; ++b)]: a fresh permutation for every
    bucket, laid out from offset [point] on; the cells of [perm] are not
    initialised, [junk] stands for what they hold.  [n] is
    [m->max_buckets - b]. *)
Fixpoint init_loop (n : nat) (m : crush_map) (junk b point : Z) (w : crush_work)
    : res (crush_work * Z) :=
  match n with
  | O => Ret (w, point)
  | S n =>
      ob <~ aget (buckets m) b;;
      match ob with
      | None => init_loop n m junk (b + 1) point w
      | Some bk =>
          w <~ aset w b (Some (CrushWorkBucket 0 0 (replicate (Z.to_nat (size bk)) junk)));;
          init_loop n m junk (b + 1)
            (point + sizeof_crush_work_bucket + size bk * sizeof_u32) w
      end
  end.

(** The slot of a missing bucket stays unset; [BUG_ON] is the last step. *)
Definition crush_init_workspace (m : crush_map) (junk : Z) : res crush_work :=
  '(w, point) <~ init_loop (Z.to_nat (max_buckets m)) m junk 0
                   (sizeof_crush_work + max_buckets m * sizeof_pointer)
                   (replicate (Z.to_nat (max_buckets m)) None);;
  _ <~ rassert (point =? working_size m);;
  Ret w.
