(* ===== verification/CrushWf.v ===== *)
(** * Well-formed maps and runs of the mapper

    What [crush_do_rule] relies on in a map: the buckets are well-formed, sit
    at the index their id says, have a type above 0, and refer only to
    buckets of the map, without cycles.  [steady] is the form of the
    specifications of the mapper's loops: from every coherent workspace the
    run returns, with the same result and a coherent workspace. *)

From stdpp Require Import relations.
From S2P Require Import Prelude CrushHash CrushTypes CrushLn CrushBucket CrushPerm CrushChoose CrushMapper.
Open Scope Z_scope.

(** ** Maps *)

(** Bucket [b] is in the map. *)
Definition in_map (m : crush_map) (b : crush_bucket) : Prop :=
  exists i, buckets m !! i = Some (Some b).

(** [rk] ranks the buckets by id; every child bucket has a smaller rank. *)
Record wf_map (m : crush_map) (rk : Z -> nat) (D : nat) : Prop := WfMap {
  wfm_len : zlen (buckets m) = max_buckets m;
  wfm_bucket : forall i b, buckets m !! i = Some (Some b) ->
    wf_bucket b /\ id b = -1 - Z.of_nat i /\ 0 < type b;
  wfm_child : forall b it, in_map m b -> it ∈ items b -> it < 0 ->
    (exists b', buckets m !! Z.to_nat (-1 - it) = Some (Some b')) /\ (rk it < rk (id b))%nat;
  wfm_rank : forall b, in_map m b -> (rk (id b) < D)%nat;
}.

(** The bucket that lists an item. *)
Definition child (m : crush_map) (i j : Z) : Prop :=
  exists b, in_map m b /\ id b = i /\ j ∈ items b.

(** [it] lies below the bucket [root], has the type [ty] and, for a device, is
    not out. *)
Definition item_ok (m : crush_map) (weight : list Z) (weight_max x root ty it : Z) : Prop :=
  tc (child m) root it /\ it < max_devices m /\ item_type m it = Ret ty /\
  (ty = 0 -> 0 <= it /\ is_out weight weight_max it x = Ret false).

Lemma below_child m (b0 b : crush_bucket) it :
  in_map m b -> it ∈ items b -> (b = b0 \/ tc (child m) (id b0) (id b)) -> tc (child m) (id b0) it.
Proof.
  intros Hb Hin Hbl. assert (child m (id b) it) as Hch by (by exists b).
  destruct Hbl as [-> | Hbl]; [by apply tc_once|by eapply tc_r].
Qed.

Definition wf_args (m : crush_map) (choose_args : option (list crush_choose_arg)) : Prop :=
  forall l, choose_args = Some l ->
    zlen l = max_buckets m /\
    forall i b a, buckets m !! i = Some (Some b) -> l !! i = Some a -> wf_arg b a.

(** ** Workspaces *)

Definition work_ok (m : crush_map) (wk : crush_work) : Prop :=
  zlen wk = max_buckets m /\
  forall i b, buckets m !! i = Some (Some b) -> exists w, wk !! i = Some w /\ slot_ok b w.

(** The counters have a cell for each number of tries. *)
Definition tries_ok (m : crush_map) (t : option (list Z)) : Prop :=
  forall l, t = Some l -> choose_total_tries m < zlen l.

(** From every coherent workspace, [run] returns the result [mk] with a
    coherent workspace. *)
Definition steady {B} (m : crush_map) (run : crush_work -> res B) (mk : crush_work -> B) : Prop :=
  forall wk, work_ok m wk -> exists wk', run wk = Ret (mk wk') /\ work_ok m wk'.

Lemma steady_ret {B} m (mk : crush_work -> B) : steady m (fun wk => Ret (mk wk)) mk.
Proof. intros wk H. by exists wk. Qed.

Lemma steady_bind {A B} m (run : crush_work -> res A) mk (k : A -> res B) mk' :
  steady m run mk -> steady m (fun wk => k (mk wk)) mk' ->
  steady m (fun wk => rbind (run wk) k) mk'.
Proof.
  intros H H' wk Hwk. destruct (H wk Hwk) as (wk1 & -> & Hwk1). cbn [rbind].
  destruct (H' wk1 Hwk1) as (wk2 & E & Hwk2). by exists wk2.
Qed.

(** A bind whose first part does not touch the workspace. *)
Lemma steady_pure {A B} m (r : res A) a (k : A -> crush_work -> res B) mk :
  r = Ret a -> steady m (k a) mk -> steady m (fun wk => rbind r (fun a => k a wk)) mk.
Proof. intros -> H wk Hwk. cbn [rbind]. by apply H. Qed.

(** ** Facts on maps *)

Section facts.
Context {m : crush_map} {rk : Z -> nat} {D : nat} (Hm : wf_map m rk D).

Lemma in_map_wf b : in_map m b -> wf_bucket b.
Proof. intros [i Hi]. by apply (wfm_bucket _ _ _ Hm) in Hi as (? & _ & _). Qed.

Lemma in_map_type b : in_map m b -> 0 < type b.
Proof. intros [i Hi]. by apply (wfm_bucket _ _ _ Hm) in Hi as (_ & _ & ?). Qed.

Lemma in_map_index b :
  in_map m b -> buckets m !! Z.to_nat (-1 - id b) = Some (Some b) /\ 0 <= -1 - id b < max_buckets m.
Proof.
  intros [i Hi]. pose proof Hi as Hi'. apply (wfm_bucket _ _ _ Hm) in Hi' as (_ & E & _).
  rewrite E. pose proof (lookup_lt_Some _ _ _ Hi). pose proof (wfm_len _ _ _ Hm).
  replace (Z.to_nat (-1 - (-1 - Z.of_nat i))) with i by lia. split; [done|lia].
Qed.

Lemma child_bucket b it :
  in_map m b -> it ∈ items b -> it < 0 ->
  exists b', bucket_at m (-1 - it) = Ret b' /\ in_map m b' /\ id b' = it /\
    (rk (id b') < rk (id b))%nat /\ -1 - it < max_buckets m.
Proof.
  intros Hb Hin Hneg. destruct (wfm_child _ _ _ Hm b it Hb Hin Hneg) as [[b' E] R].
  pose proof (wfm_bucket _ _ _ Hm _ _ E) as (_ & Eid & _).
  pose proof (lookup_lt_Some _ _ _ E). pose proof (wfm_len _ _ _ Hm).
  exists b'. assert (id b' = it) as Ei by (rewrite Eid; lia). split.
  - unfold bucket_at. assert (aget (buckets m) (-1 - it) = Ret (Some b')) as -> by (apply aget_Ret; split; [lia|done]). done.
  - split; [by eexists|]. split; [done|]. rewrite Ei. split; [done|lia].
Qed.

Lemma item_type_child b it :
  in_map m b -> it ∈ items b -> exists ty, item_type m it = Ret ty /\ (ty = 0 <-> 0 <= it).
Proof.
  intros Hb Hin. unfold item_type. destruct (Z.ltb_spec it 0) as [Hn|Hn].
  - destruct (child_bucket b it Hb Hin Hn) as (b' & -> & Hb' & _). cbn [rbind].
    exists (type b'). split; [done|]. pose proof (in_map_type b' Hb'). lia.
  - exists 0. split; [done|]. lia.
Qed.

(** ** The two choices of the mapper *)

Context (x : Z) {choose_args : option (list crush_choose_arg)} (Hargs : wf_args m choose_args).

Lemma work_slot wk b :
  work_ok m wk -> in_map m b ->
  exists w, aget wk (-1 - id b) = Ret w /\ slot_ok b w.
Proof.
  intros [Hl Hs] Hb. destruct (in_map_index b Hb) as [E R].
  destruct (Hs _ _ E) as (w & Ew & Hok). exists w. split; [|done].
  apply aget_Ret. split; [lia|done].
Qed.

Lemma work_update wk b w :
  work_ok m wk -> in_map m b -> slot_ok b w ->
  exists wk', aset wk (-1 - id b) w = Ret wk' /\ work_ok m wk'.
Proof.
  intros [Hl Hs] Hb Hw. destruct (in_map_index b Hb) as [E R].
  rewrite aset_in by lia. eexists. split; [done|]. split; [by rewrite length_insert|].
  intros i b' Eb'. destruct (decide (i = Z.to_nat (-1 - id b))) as [->|Hne].
  - rewrite E in Eb'. injection Eb' as <-. exists w.
    rewrite list_lookup_insert_eq by lia. done.
  - rewrite list_lookup_insert_ne by done. by apply Hs.
Qed.

Lemma choose_arg_wf b :
  in_map m b -> exists a, choose_arg_of choose_args b = Ret a /\ forall c, a = Some c -> wf_arg b c.
Proof.
  intros Hb. unfold choose_arg_of. destruct choose_args as [l|]; [|by exists None].
  destruct (Hargs l eq_refl) as [Hl Hwf]. destruct (in_map_index b Hb) as [E R].
  destruct (aget_in l (-1 - id b)) as (a & -> & Ea); [lia|]. cbn [rbind].
  exists (Some a). split; [done|]. intros c [= <-]. by eapply Hwf.
Qed.

Lemma do_bucket_choose_steady b r p t :
  in_map m b -> 0 < size b -> 0 <= p < 2 ^ 31 ->
  exists it, it ∈ items b /\
    steady m (fun wk => do_bucket_choose x choose_args b r p (MState wk t))
             (fun wk => (it, MState wk t)).
Proof.
  intros Hb Hs Hp. destruct (choose_arg_wf b Hb) as (a & Ea & Ha).
  destruct (bucket_choose_spec b x r a p (in_map_wf b Hb) Hs Hp Ha) as (it & Hin & H).
  exists it. split; [done|]. intros wk Hwk. unfold do_bucket_choose. cbn [mwork mtries].
  destruct (work_slot wk b Hwk Hb) as (w & -> & Hw). cbn [rbind]. rewrite Ea. cbn [rbind].
  destruct (H w Hw) as (w' & -> & Hw'). cbn [rbind].
  destruct (work_update wk b w' Hwk Hb Hw') as (wk' & -> & Hwk'). cbn [rbind]. by exists wk'.
Qed.

Lemma do_perm_choose_steady b r t :
  in_map m b -> 0 < size b ->
  exists it, it ∈ items b /\
    steady m (fun wk => do_perm_choose x b r (MState wk t)) (fun wk => (it, MState wk t)).
Proof.
  intros Hb Hs. destruct (in_map_wf b Hb) as [Hsz Hi _].
  destruct (perm_pick_lookup b x r Hs) as [_ Hr].
  destruct (lookup_lt_is_Some_2 (items b) (Z.to_nat (perm_pick b x r))) as [it Eit]; [lia|].
  exists it. split; [by eapply list_elem_of_lookup_2|].
  intros wk Hwk. unfold do_perm_choose. cbn [mwork mtries].
  destruct (work_slot wk b Hwk Hb) as (w & -> & wb & -> & Hc). cbn [rbind deref].
  destruct (perm_choose_spec b wb x r) as (it' & w' & -> & Hc' & Eit'); [split; (lia || done)|done|].
  cbn [rbind]. assert (it' = it) as -> by congruence.
  destruct (work_update wk b (Some w') Hwk Hb) as (wk' & -> & Hwk'); [by exists w'|].
  cbn [rbind]. by exists wk'.
Qed.
End facts.

(** ** The workspace [crush_init_workspace] sets up *)

(** The bytes a bucket takes. *)
Definition bucket_bytes (ob : option crush_bucket) : Z :=
  match ob with
  | None => 0
  | Some b => sizeof_crush_work_bucket + size b * sizeof_u32
  end.

Definition work_bytes (m : crush_map) : Z :=
  sizeof_crush_work + max_buckets m * sizeof_pointer + foldr Z.add 0 (bucket_bytes <$> buckets m).

Lemma init_loop_spec m rk D junk n b point w :
  wf_map m rk D -> zlen w = max_buckets m -> 0 <= b -> b + Z.of_nat n = max_buckets m ->
  (forall i bk, Z.of_nat i < b -> buckets m !! i = Some (Some bk) ->
     exists s, w !! i = Some s /\ slot_ok bk s) ->
  exists w', init_loop n m junk b point w =
      Ret (w', point + foldr Z.add 0 (bucket_bytes <$> drop (Z.to_nat b) (buckets m))) /\ work_ok m w'.
Proof.
  intros Hm. pose proof (wfm_len _ _ _ Hm) as Hl. revert b point w.
  induction n as [|n IH]; intros b point w Hw Hb Hn Hs; cbn [init_loop].
  { exists w. rewrite drop_ge by lia. cbn. rewrite Z.add_0_r. split; [done|]. split; [done|].
    intros i bk E. apply Hs; [|done]. apply lookup_lt_Some in E. lia. }
  destruct (aget_in (buckets m) b) as (ob & -> & Eb); [lia|]. cbn [rbind].
  rewrite (drop_S _ _ _ Eb). replace (S (Z.to_nat b)) with (Z.to_nat (b + 1)) by lia.
  destruct ob as [bk|]; cbn [fmap list_fmap foldr bucket_bytes].
  - rewrite aset_in by lia. cbn [rbind].
    edestruct (IH (b + 1)) as (w' & -> & Hok); [by rewrite length_insert|lia..| |].
    { intros i bk' Hi E. destruct (decide (i = Z.to_nat b)) as [->|Hne].
      - rewrite E in Eb. injection Eb as ->. eexists. rewrite list_lookup_insert_eq by lia.
        split; [done|]. eexists. split; [done|]. split; cbn; [|by left].
        rewrite length_replicate. destruct (wfm_bucket _ _ _ Hm _ _ E) as ([? _ _] & _). lia.
      - rewrite list_lookup_insert_ne by done. apply Hs; [lia|done]. }
    exists w'. split; [|done]. do 2 f_equal. lia.
  - edestruct (IH (b + 1) point w) as (w' & -> & Hok); [done|lia..| |].
    { intros i bk' Hi E. destruct (decide (i = Z.to_nat b)) as [->|Hne]; [congruence|].
      apply Hs; [lia|done]. }
    exists w'. split; [|done]. do 2 f_equal.
Qed.

(** With the size [crush_finalize] computes, [BUG_ON] does not fire and the
    workspace is coherent. *)
Lemma init_workspace_ok m rk D junk :
  wf_map m rk D -> working_size m = work_bytes m ->
  exists wk, crush_init_workspace m junk = Ret wk /\ work_ok m wk.
Proof.
  intros Hm Hws. pose proof (wfm_len _ _ _ Hm) as Hl. unfold crush_init_workspace.
  destruct (init_loop_spec m rk D junk (Z.to_nat (max_buckets m)) 0
              (sizeof_crush_work + max_buckets m * sizeof_pointer)
              (replicate (Z.to_nat (max_buckets m)) None)) as (w & -> & Hw); try done; try lia.
  { rewrite length_replicate. lia. }
  cbn [rbind]. rewrite drop_0, Hws. unfold work_bytes. rewrite Z.eqb_refl. by exists w.
Qed.

(** ** Small loops *)

Lemma collides_spec n lo out item :
  0 <= lo -> lo + Z.of_nat n <= zlen out ->
  exists c, collides n lo out item = Ret c /\
    (c = true <-> item ∈ take n (drop (Z.to_nat lo) out)).
Proof.
  revert lo. induction n as [|n IH]; intros lo Hlo Hn; cbn [collides].
  - exists false. split; [done|]. cbn [take]. split; [done|]. intros H. by apply not_elem_of_nil in H.
  - destruct (aget_in out lo) as (v & -> & Ev); [lia|]. cbn [rbind].
    rewrite (drop_S _ _ _ Ev). cbn [take]. destruct (Z.eqb_spec v item) as [->|Hne].
    + exists true. split; [done|]. split; [|done]. intros _. apply list_elem_of_here.
    + destruct (IH (lo + 1)) as (c & -> & Hc); [lia..|]. exists c. split; [done|].
      rewrite Hc, elem_of_cons. replace (Z.to_nat (lo + 1)) with (S (Z.to_nat lo)) by lia.
      naive_solver.
Qed.

Lemma is_out_spec weight weight_max item x :
  0 <= weight_max <= zlen weight -> 0 <= item -> exists b, is_out weight weight_max item x = Ret b.
Proof.
  intros Hw Hi. unfold is_out. destruct (Z.leb_spec weight_max item); [by eexists|].
  destruct (aget_in weight item) as (w & -> & _); [lia|]. cbn [rbind].
  repeat case_bool; by eexists.
Qed.

Lemma count_try_spec m ft t :
  0 <= ft -> tries_ok m t ->
  exists t', tries_ok m t' /\ forall wk, count_try m ft (MState wk t) = Ret (MState wk t').
Proof.
  intros Hft Ht. unfold count_try. cbn. destruct t as [l|]; [|by exists None].
  destruct (Z.leb_spec ft (choose_total_tries m)) as [Hle|]; [|by exists (Some l)].
  specialize (Ht l eq_refl).
  destruct (aget_in l ft) as (v & -> & Ev); [lia|]. cbn [rbind].
  rewrite aset_in by lia. cbn [rbind]. eexists. split; [|done].
  intros l' [= <-]. by rewrite length_insert.
Qed.
