(* ===== verification/CrushFirstn.v ===== *)
(** * [crush_choose_firstn]

    For a well-formed map and tunables within bounds: the call returns (no
    fault, and an explicit amount of fuel is enough), it appends pairwise
    distinct items of the wanted type that lie below the bucket and are not
    marked out, and in leaf mode it gives one device per item, the devices
    being distinct and not out too.  The result does not depend on the
    workspace. *)

From stdpp Require Import relations.
From S2P Require Import Prelude CrushHash CrushTypes CrushLn CrushBucket CrushPerm CrushChoose CrushMapper CrushWf.
Open Scope Z_scope.

Section firstn_spec.
Context {m : crush_map} {rk : Z -> nat} {D : nat} (Hm : wf_map m rk D).
Context {choose_args : option (list crush_choose_arg)} (Hargs : wf_args m choose_args).
Context {weight : list Z} {weight_max : Z} (Hw : 0 <= weight_max <= zlen weight).
Context (x : Z).

Implicit Types (a : firstn_args) (t : option (list Z)).

(** ** What is chosen *)

#[local] Notation item_ok := (item_ok m weight weight_max x).

(** Cells [lo .. hi - 1] hold values with [P], none of which occurs earlier. *)
Definition seg_ok (P : Z -> Prop) (lo hi : nat) (l : list Z) : Prop :=
  forall k v, (lo <= k < hi)%nat -> l !! k = Some v -> P v /\ v ∉ take k l.

(** ** Bounds *)

Definition span a : Z := f_local_retries a + 0xffff + f_local_fallback_retries a.

(** Turns of the search for one replica, at most, for a number of tries. *)
Definition budget_of (T : Z) a : Z :=
  T * (Z.of_nat D + span a + 2) + span a + 1 + Z.of_nat D.

Definition budget a : Z := budget_of (f_tries a) a.

Record args_ok (a : firstn_args) : Prop := ArgsOk {
  ao_bucket : in_map m (f_bucket a);
  ao_tries : 0 <= f_tries a;
  ao_local : 0 <= f_local_retries a;
  ao_fallback : 0 <= f_local_fallback_retries a;
  ao_vary : 0 <= f_vary_r a <= 32;
  ao_budget : budget a < 2 ^ 32 - 1;
}.

(** What is left of the budget. *)
Definition left_over a (b : crush_bucket) (ft fl : Z) : Z :=
  Z.max 0 (f_tries a - ft) * (Z.of_nat D + span a + 2)
  + Z.max 0 (span a + 1 - fl) + Z.of_nat (rk (id b)).

(** Where the search stands: at a bucket at or below the start, with budget. *)
Record search_at a (b : crush_bucket) (ft fl : Z) : Prop := SearchAt {
  sa_in : in_map m b;
  sa_below : b = f_bucket a \/ tc (child m) (id (f_bucket a)) (id b);
  sa_local : 0 <= fl <= ft;
  sa_left : ft + left_over a b ft fl <= budget a;
}.

(** ** One turn *)

Definition turn_ok a (outpos : nat) (out : list Z) (b : crush_bucket) (ft fl : Z) (tn : turn) : Prop :=
  match tn with
  | RetryBucket b' ft' fl' => search_at a b' ft' fl' /\ left_over a b' ft' fl' < left_over a b ft fl
  | RetryDescent ft' =>
      search_at a (f_bucket a) ft' 0 /\ left_over a (f_bucket a) ft' 0 < left_over a b ft fl
  | SkipRep => True
  | Chosen item ft' =>
      ft' = ft /\ item_ok (id (f_bucket a)) (f_type a) item /\ item ∉ take outpos out
  end.

(** The leaf vector after a turn: the settled part is kept, and a chosen item
    has its leaf at [outpos]. *)
Definition leaf_kept a (outpos : nat) (out2 out2' : option (list Z)) (tn : turn) : Prop :=
  match out2, out2' with
  | None, None => f_recurse_to_leaf a = false
  | Some l, Some l' =>
      length l' = length l /\ take outpos l' = take outpos l /\
      (f_recurse_to_leaf a = true -> forall item ft, tn = Chosen item ft ->
        exists v, l' !! outpos = Some v /\ item_ok (id (f_bucket a)) 0 v /\
          v ∉ take outpos l /\ (v = item \/ tc (child m) item v))
  | _, _ => False
  end.

Lemma span_nonneg a : args_ok a -> 0xffff <= span a.
Proof. intros [? ? ? ? ? ?]. unfold span. lia. Qed.

Lemma left_over_root a b ft fl :
  args_ok a -> in_map m b -> 0 <= ft -> 0 <= fl -> ft + 1 < f_tries a ->
  left_over a (f_bucket a) (ft + 1) 0 < left_over a b ft fl.
Proof.
  intros Ha Hb Hft Hfl Hlt. pose proof (span_nonneg a Ha).
  pose proof (wfm_rank _ _ _ Hm _ (ao_bucket _ Ha)). unfold left_over.
  rewrite (Z.max_r 0 (f_tries a - (ft + 1))), (Z.max_r 0 (f_tries a - ft)) by lia.
  rewrite (Z.max_r 0 (span a + 1 - 0)) by lia. nia.
Qed.

Lemma search_flocal a b ft fl : args_ok a -> search_at a b ft fl -> ft + 1 < 2 ^ 32.
Proof.
  intros Ha [_ _ ? Hl]. pose proof (ao_budget _ Ha). pose proof (span_nonneg a Ha).
  assert (0 <= left_over a b ft fl) by (unfold left_over; nia). lia.
Qed.

Lemma in_map_size b : in_map m b -> 0 <= size b < 0xffff.
Proof. intros Hb. by destruct (in_map_wf Hm b Hb). Qed.

(** The code after the label [reject:]. *)
Lemma firstn_decide_ok a outpos out b item ft fl reject collide :
  args_ok a -> search_at a b ft fl ->
  (reject || collide = false -> item_ok (id (f_bucket a)) (f_type a) item /\ item ∉ take outpos out) ->
  turn_ok a outpos out b ft fl (firstn_decide a b item ft fl reject collide).
Proof.
  intros Ha Hs Hc. unfold firstn_decide. destruct (reject || collide); [|by split; [|apply Hc]].
  pose proof (search_flocal a b ft fl Ha Hs) as Hft. pose proof (span_nonneg a Ha) as Hsp.
  destruct Hs as [Hin Hbl Hl Hlo]. pose proof (in_map_size b Hin) as Hsz. pose proof Ha as [Hab ? ? ? ? Hbud].
  rewrite (uw_small 32 (ft + 1)), (uw_small 32 (fl + 1)) by (unfold is_u; lia).
  assert (fl + 1 <= span a -> left_over a b (ft + 1) (fl + 1) < left_over a b ft fl) as Hloc.
  { intros. unfold left_over. nia. }
  assert (fl + 1 <= span a -> turn_ok a outpos out b ft fl (RetryBucket b (ft + 1) (fl + 1))) as Hretry.
  { intros Hle. specialize (Hloc Hle). split; [|done]. split; [done|done|lia|lia]. }
  assert (u32 (size b + f_local_fallback_retries a) = size b + f_local_fallback_retries a) as Hu.
  { apply uw_small. unfold is_u, budget, budget_of, span in *. nia. }
  rewrite Hu. destruct (collide && (fl + 1 <=? f_local_retries a)) eqn:E1.
  { zbool. apply Hretry. unfold span. lia. }
  destruct ((0 <? f_local_fallback_retries a) && _) eqn:E2.
  { zbool. apply Hretry. unfold span. lia. }
  destruct (Z.ltb_spec (ft + 1) (f_tries a)) as [Hlt|]; [|done].
  pose proof (left_over_root a b ft fl Ha Hin ltac:(lia) ltac:(lia) Hlt).
  split; [|done]. split; [done|by left|lia|lia].
Qed.

Section with_rec.
Context (rec : firstn_args -> list Z -> Z -> Z -> mstate -> res (Z * list Z * mstate)) (lim : Z).

(** What the recursive call of leaf mode does. *)
Definition rec_ok : Prop :=
  forall a' out outpos count t,
    args_ok a' -> budget a' < lim -> f_recurse_to_leaf a' = false -> f_type a' = 0 ->
    f_numrep a' - (if f_stable a' =? 0 then outpos else 0) = 1 ->
    0 <= outpos /\ outpos + count < 2 ^ 31 -> 0 < count -> outpos + count <= zlen out -> tries_ok m t ->
    exists n out' t', tries_ok m t' /\ length out' = length out /\
      take (Z.to_nat outpos) out' = take (Z.to_nat outpos) out /\
      (n = outpos \/ (n = outpos + 1 /\ exists v, out' !! Z.to_nat outpos = Some v /\
         item_ok (id (f_bucket a')) 0 v /\ v ∉ take (Z.to_nat outpos) out)) /\
      steady m (fun wk => rec a' out outpos count (MState wk t)) (fun wk => (n, out', MState wk t')).

(** The vectors at the start of a turn. *)
Record vectors_ok a (outpos count : Z) (out : list Z) (out2 : option (list Z)) : Prop := VectorsOk {
  vo_pos : 0 <= outpos /\ outpos + count < 2 ^ 31;
  vo_count : 0 < count;
  vo_out : outpos + count <= zlen out;
  vo_none : out2 = None -> f_recurse_to_leaf a = false;
  vo_out2 : forall l, out2 = Some l -> f_recurse_to_leaf a = true ->
    outpos + count <= zlen l /\
    (f_type a = 0 -> take (Z.to_nat outpos) l = take (Z.to_nat outpos) out);
}.

(** Leaf mode's inner call has bounds of its own. *)
Definition leaf_bounds a : Prop :=
  f_recurse_to_leaf a = true ->
  rec_ok /\ 0 <= f_recurse_tries a /\ budget_of (f_recurse_tries a) a < Z.min lim (2 ^ 32 - 1).

Lemma leaf_args_ok a b' numrep sub_r :
  args_ok a -> 0 <= f_recurse_tries a -> budget_of (f_recurse_tries a) a < Z.min lim (2 ^ 32 - 1) -> in_map m b' ->
  args_ok (FirstnArgs b' numrep 0 (f_recurse_tries a) 0 (f_local_retries a)
             (f_local_fallback_retries a) false (f_vary_r a) (f_stable a) sub_r).
Proof. intros [? ? ? ? ? ?] ? ? ?. split; try done. unfold budget; cbn. unfold budget_of, span in *; cbn. lia. Qed.

Lemma leaf_kept_refl a outpos out2 tn :
  (out2 = None -> f_recurse_to_leaf a = false) ->
  (f_recurse_to_leaf a = true -> forall item ft, tn <> Chosen item ft) ->
  leaf_kept a outpos out2 out2 tn.
Proof. intros H1 H2. destruct out2 as [l|]; cbn; [|auto]. naive_solver. Qed.

(** The leaf of a chosen item: what [firstn_leaf] returns. *)
Lemma firstn_leaf_steady a outpos count item r collide out out2 t b :
  args_ok a -> leaf_bounds a -> vectors_ok a outpos count out out2 -> tries_ok m t ->
  in_map m b -> item ∈ items b -> (b = f_bucket a \/ tc (child m) (id (f_bucket a)) (id b)) ->
  item_type m item = Ret (f_type a) -> (collide = false -> item ∉ take (Z.to_nat outpos) out) ->
  item < max_devices m ->
  exists reject out2' t', tries_ok m t' /\
    (collide = false -> reject = false -> (0 <= item -> is_out weight weight_max item x = Ret false) ->
      forall ft, leaf_kept a (Z.to_nat outpos) out2 out2' (Chosen item ft)) /\
    (forall tn, (forall item ft, tn <> Chosen item ft) -> leaf_kept a (Z.to_nat outpos) out2 out2' tn) /\
    steady m (fun wk => firstn_leaf m rec a outpos count item r collide (FState out out2 (MState wk t)))
             (fun wk => (reject, FState out out2' (MState wk t'))).
Proof.
  intros Ha Hlb [Hp Hc Ho Hn2 Ho2] Ht Hb Hin Hbl Hty Hcol Hmd.
  assert (tc (child m) (id (f_bucket a)) item) as Hroot.
  { assert (child m (id b) item) as Hch by (by exists b). destruct Hbl as [->|Hbl].
    - by apply tc_once.
    - eapply tc_r; [exact Hbl|exact Hch]. }
  unfold firstn_leaf. destruct (negb collide && f_recurse_to_leaf a) eqn:El; cycle 1.
  { exists false, out2, t. split; [done|]. split; [|split; [|apply steady_ret]].
    - intros -> _ _ ft. cbn in El. apply leaf_kept_refl; [done|]. congruence.
    - intros tn Htn. by apply leaf_kept_refl. }
  apply andb_prop in El as [Ec El]. apply negb_true_iff in Ec. specialize (Hcol Ec).
  destruct (Hlb El) as (Hrec & Hrt & Hbud).
  destruct out2 as [l|]; [|rewrite Hn2 in El; done]. destruct (Ho2 l eq_refl El) as [Hl Hsame].
  destruct (Z.ltb_spec item 0) as [Hneg|Hpos].
  - destruct (child_bucket Hm b item Hb Hin Hneg) as (b' & Eb' & Hb' & Eid & _ & _).
    assert (exists q, sub_r_of a r = Ret q) as [q Eq].
    { unfold sub_r_of. pose proof (ao_vary _ Ha). repeat case_bool; zbool; try lia; by eexists. }
    set (a' := FirstnArgs b' (if f_stable a =? 0 then outpos + 1 else 1) 0 (f_recurse_tries a) 0
                 (f_local_retries a) (f_local_fallback_retries a) false (f_vary_r a) (f_stable a) q).
    destruct (Hrec a' l outpos count t) as (n & l' & t' & Ht' & Hlen & Htake & Hn & Hst); try done.
    { by apply leaf_args_ok. }
    { unfold budget, a'; cbn. unfold budget_of, span in *; cbn. lia. }
    { cbn. destruct (f_stable a =? 0); lia. }
    exists (n <=? outpos), (Some l'), t'. split; [done|]. split; [|split].
    + intros _ Hrej _ ft. cbn. split; [done|]. split; [done|]. intros _ item' ft' [= <- <-].
      destruct Hn as [->|(-> & v & Ev & (Hv1 & Hv2 & Hv3 & Hv4) & Hnin)].
      { apply Z.leb_gt in Hrej. lia. }
      exists v. split; [done|]. cbn in Hv1. rewrite Eid in Hv1. split; [|split; [done|by right]].
      split; [|done]. etrans; [exact Hroot|exact Hv1].
    + intros tn Htn. cbn. split; [done|]. split; [done|]. intros _ item' ft' ->. by destruct (Htn item' ft').
    + rewrite Eq, Eb'. cbn [rbind f_out2 deref f_state f_out]. eapply steady_bind; [exact Hst|]. apply steady_ret.
  - exists false, (Some (<[Z.to_nat outpos := item]> l)), t. split; [done|].
    assert (f_type a = 0) as Hty0.
    { unfold item_type in Hty. destruct (Z.ltb_spec item 0); [lia|]. by injection Hty as <-. }
    split; [|split].
    + intros _ _ Hout ft. cbn. split; [apply length_insert|]. split; [by apply take_insert_ge|].
      intros _ item' ft' [= <- <-]. exists item. split; [apply list_lookup_insert_eq; lia|].
      split; [|split; [by rewrite Hsame|by left]].
      split; [done|]. split; [done|]. split; [congruence|]. intros _. split; [lia|by apply Hout].
    + intros tn Htn. cbn. split; [apply length_insert|]. split; [by apply take_insert_ge|].
      intros _ item' ft' ->. by destruct (Htn item' ft').
    + cbn [f_out2 deref rbind]. rewrite aset_in by lia. cbn [rbind f_out f_state]. apply steady_ret.
Qed.

(** The bucket's choice in a turn, by either method. *)
Lemma firstn_pick_steady a b outpos fl r t :
  in_map m b -> 0 < size b -> 0 <= outpos < 2 ^ 31 ->
  exists it, it ∈ items b /\
    steady m (fun wk => firstn_pick x choose_args a outpos b r fl (MState wk t))
             (fun wk => (it, MState wk t)).
Proof.
  intros Hb Hs Hp. unfold firstn_pick. case_bool.
  - by apply (do_perm_choose_steady Hm).
  - by apply (do_bucket_choose_steady Hm _ Hargs).
Qed.

(** The specification shared by the parts of a turn. *)
Definition turn_spec a outpos out out2 b ft fl t (run : crush_work -> res (turn * fstate)) : Prop :=
  exists tn out2' t', tries_ok m t' /\ turn_ok a (Z.to_nat outpos) out b ft fl tn /\
    leaf_kept a (Z.to_nat outpos) out2 out2' tn /\
    steady m run (fun wk => (tn, FState out out2' (MState wk t'))).

(** A turn that ends without placing anything. *)
Lemma turn_spec_early a outpos count out out2 b ft fl t tn run :
  vectors_ok a outpos count out out2 -> tries_ok m t ->
  turn_ok a (Z.to_nat outpos) out b ft fl tn -> (forall item ft, tn <> Chosen item ft) ->
  steady m run (fun wk => (tn, FState out out2 (MState wk t))) ->
  turn_spec a outpos out out2 b ft fl t run.
Proof.
  intros [_ _ _ Hn2 _] Ht Htn Hnc Hst. exists tn, out2, t.
  split; [done|]. split; [done|]. split; [by apply leaf_kept_refl|done].
Qed.

Lemma decide_not_chosen a b it ft fl rj c :
  rj || c = true -> forall item ft', firstn_decide a b it ft fl rj c <> Chosen item ft'.
Proof. intros E item ft'. unfold firstn_decide. rewrite E. cbv zeta. repeat case_bool; done. Qed.

Lemma firstn_place_spec a outpos count b it r ft fl out out2 t :
  args_ok a -> leaf_bounds a -> vectors_ok a outpos count out out2 -> tries_ok m t ->
  search_at a b ft fl -> it ∈ items b -> it < max_devices m -> item_type m it = Ret (f_type a) ->
  turn_spec a outpos out out2 b ft fl t (fun wk =>
    firstn_place m weight weight_max x rec a outpos count b it (f_type a) r ft fl
      (FState out out2 (MState wk t))).
Proof.
  intros Ha Hlb Hv Ht Hs Hit Hmd Ety. pose proof Hv as [Hp Hc Ho _ _]. pose proof Hs as [Hin Hbl _ _].
  destruct (item_type_child Hm b it Hin Hit) as (ty & Ety' & Hty0). assert (ty = f_type a) as -> by congruence.
  unfold firstn_place. cbn [f_out].
  destruct (collides_spec (Z.to_nat outpos) 0 out it) as (c & -> & Hcol); [lia..|].
  rewrite drop_0 in Hcol. cbn [rbind].
  destruct (firstn_leaf_steady a outpos count it r c out out2 t b)
    as (rj & out2' & t' & Ht' & Hk1 & Hk2 & Hst2); try done.
  { intros ->. intros Hc'. by apply Hcol in Hc'. }
  assert (exists rj', (if negb rj && negb c && (f_type a =? 0) then is_out weight weight_max it x else Ret rj) = Ret rj'
    /\ (rj' = false -> rj = false) /\ (rj' || c = false -> 0 <= it -> is_out weight weight_max it x = Ret false))
    as (rj' & Erj & Hrj & Hrj').
  { destruct (negb rj && negb c && (f_type a =? 0)) eqn:Eif.
    - zbool. destruct (is_out_spec weight weight_max it x Hw) as (o & Eo); [lia|].
      exists o. rewrite Eo. split; [done|]. split; [done|]. by intros [-> _]%orb_false_elim.
    - exists rj. split; [done|]. split; [done|]. intros [-> ->]%orb_false_elim Hge.
      cbn in Eif. apply Z.eqb_neq in Eif. lia. }
  exists (firstn_decide a b it ft fl rj' c), out2', t'. split; [done|]. split; [|split].
  - apply firstn_decide_ok; [done|done|]. intros Hno. split.
    + split; [by apply (below_child m (f_bucket a) b)|]. split; [done|]. split; [done|].
      intros H0. split; [lia|]. apply Hrj'; [done|lia].
    + apply orb_false_elim in Hno as [_ ->]. intros Hc'. by apply Hcol in Hc'.
  - destruct (rj' || c) eqn:Eno; [apply Hk2; by apply decide_not_chosen|].
    unfold firstn_decide. rewrite Eno. apply orb_false_elim in Eno as Eno'. destruct Eno' as [-> ->].
    apply Hk1; [done|by apply Hrj|]. by apply Hrj'.
  - eapply steady_bind; [exact Hst2|]. cbn beta iota. rewrite Erj. cbn [rbind]. apply steady_ret.
Qed.

Lemma firstn_item_spec a outpos count b it r ft fl out out2 t :
  args_ok a -> leaf_bounds a -> vectors_ok a outpos count out out2 -> tries_ok m t ->
  search_at a b ft fl -> it ∈ items b ->
  turn_spec a outpos out out2 b ft fl t (fun wk =>
    firstn_item m weight weight_max x rec a outpos count b it r ft fl (FState out out2 (MState wk t))).
Proof.
  intros Ha Hlb Hv Ht Hs Hit. pose proof Hs as [Hin Hbl Hl Hlo]. unfold firstn_item.
  destruct (Z.leb_spec (max_devices m) it) as [Hmd|Hmd].
  { eapply (turn_spec_early _ _ _ _ _ _ _ _ _ SkipRep); try done. apply steady_ret. }
  destruct (item_type_child Hm b it Hin Hit) as (ty & Ety & Hty0). rewrite Ety. cbn [rbind].
  destruct (Z.eqb_spec ty (f_type a)) as [->|Hty]; cbn [negb]; [by apply firstn_place_spec|].
  destruct ((0 <=? it) || (max_buckets m <=? -1 - it)) eqn:Ebad.
  { eapply (turn_spec_early _ _ _ _ _ _ _ _ _ SkipRep); try done. apply steady_ret. }
  assert (it < 0) as Hneg by (zbool; lia).
  destruct (child_bucket Hm b it Hin Hit Hneg) as (b' & -> & Hb' & Eid & Hrk & _). cbn [rbind].
  eapply (turn_spec_early _ _ _ _ _ _ _ _ _ (RetryBucket b' ft fl)); try done; [|apply steady_ret].
  assert (left_over a b' ft fl < left_over a b ft fl) by (unfold left_over; lia).
  split; [|done]. split; [done| |done|lia]. right. rewrite Eid. by apply (below_child m (f_bucket a) b).
Qed.

Lemma firstn_turn_spec a outpos count rep b ft fl out out2 t :
  args_ok a -> leaf_bounds a -> vectors_ok a outpos count out out2 -> tries_ok m t ->
  search_at a b ft fl ->
  turn_spec a outpos out out2 b ft fl t (fun wk =>
    firstn_turn m weight weight_max x choose_args rec a outpos count rep b ft fl
      (FState out out2 (MState wk t))).
Proof.
  intros Ha Hlb Hv Ht Hs. pose proof (in_map_size b (sa_in _ _ _ _ Hs)) as Hsz. unfold firstn_turn.
  destruct (Z.eqb_spec (size b) 0) as [|Hnz].
  { eapply (turn_spec_early _ _ _ _ _ _ _ _ _ (firstn_decide a b 0 ft fl true false));
      [done|done| |by apply decide_not_chosen|apply steady_ret].
    apply firstn_decide_ok; done. }
  cbv zeta. cbn [f_state f_out f_out2].
  assert (0 <= outpos < 2 ^ 31) as Hpos by (destruct Hv as [[? ?] ? ? _ _]; lia).
  destruct (firstn_pick_steady a b outpos fl (s32 (rep + f_parent_r a + ft)) t (sa_in _ _ _ _ Hs) ltac:(lia) Hpos)
    as (it & Hit & Hst).
  destruct (firstn_item_spec a outpos count b it (s32 (rep + f_parent_r a + ft)) ft fl out out2 t)
    as (tn & out2' & t' & ? & ? & ? & Hst'); try done.
  exists tn, out2', t'. split; [done|]. split; [done|]. split; [done|]. by eapply steady_bind.
Qed.

(** ** The search for one replica *)

Lemma leaf_kept_trans a outpos out2 out2' out2'' tn tn' :
  leaf_kept a outpos out2 out2' tn -> leaf_kept a outpos out2' out2'' tn' ->
  leaf_kept a outpos out2 out2'' tn'.
Proof.
  unfold leaf_kept. destruct out2 as [l|], out2' as [l'|], out2'' as [l''|]; try done.
  intros (L1 & T1 & _) (L2 & T2 & H). split; [congruence|]. split; [congruence|].
  intros El item ft E. destruct (H El item ft E) as (v & ? & ? & ? & ?). exists v. rewrite <- T1. done.
Qed.

Lemma leaf_kept_vectors a outpos count out out2 out2' tn :
  vectors_ok a outpos count out out2 -> leaf_kept a (Z.to_nat outpos) out2 out2' tn ->
  vectors_ok a outpos count out out2'.
Proof.
  intros [? ? ? Hn Hl] Hk. unfold leaf_kept in Hk.
  destruct out2 as [l|], out2' as [l'|]; try done; split; try done.
  destruct Hk as (L & T & _). intros l0 [= <-] El. destruct (Hl l eq_refl El) as [? ?].
  rewrite L, T. done.
Qed.

(** What the search leaves behind. *)
Definition found_ok a (outpos : nat) (out : list Z) (out2 out2' : option (list Z))
    (o : option (Z * Z)) : Prop :=
  match o with
  | None => leaf_kept a outpos out2 out2' SkipRep
  | Some (item, ft) =>
      0 <= ft /\ item_ok (id (f_bucket a)) (f_type a) item /\ item ∉ take outpos out /\
      leaf_kept a outpos out2 out2' (Chosen item ft)
  end.

Lemma firstn_search_spec fuel a outpos count rep b ft fl out out2 t :
  args_ok a -> leaf_bounds a -> vectors_ok a outpos count out out2 -> tries_ok m t ->
  search_at a b ft fl -> left_over a b ft fl < Z.of_nat fuel ->
  exists o out2' t', tries_ok m t' /\ found_ok a (Z.to_nat outpos) out out2 out2' o /\
    steady m (fun wk => firstn_search m weight weight_max x choose_args rec fuel a outpos count rep b ft fl
                          (FState out out2 (MState wk t)))
             (fun wk => (o, FState out out2' (MState wk t'))).
Proof.
  revert b ft fl out2 t. induction fuel as [|fuel IH]; intros b ft fl out2 t Ha Hlb Hv Ht Hs Hf.
  { exfalso. assert (0 <= left_over a b ft fl); [|lia]. pose proof (span_nonneg a Ha). unfold left_over. nia. }
  destruct (firstn_turn_spec a outpos count rep b ft fl out out2 t Ha Hlb Hv Ht Hs)
    as (tn & out2' & t' & Ht' & Htn & Hk & Hst).
  pose proof (leaf_kept_vectors _ _ _ _ _ _ _ Hv Hk) as Hv'.
  assert (forall b' ft' fl', search_at a b' ft' fl' -> left_over a b' ft' fl' < left_over a b ft fl ->
    exists o out2'' t'', tries_ok m t'' /\ found_ok a (Z.to_nat outpos) out out2 out2'' o /\
      steady m (fun wk => firstn_search m weight weight_max x choose_args rec fuel a outpos count rep b' ft' fl'
                            (FState out out2' (MState wk t')))
               (fun wk => (o, FState out out2'' (MState wk t'')))) as Hgo.
  { intros b' ft' fl' Hs' Hlt. destruct (IH b' ft' fl' out2' t') as (o & out2'' & t'' & ? & Hfo & ?); try done; [lia|].
    exists o, out2'', t''. split; [done|]. split; [|done].
    unfold found_ok in *. destruct o as [[item ft'']|]; [|by eapply leaf_kept_trans].
    destruct Hfo as (? & ? & ? & ?). do 3 (split; [done|]). by eapply leaf_kept_trans. }
  cbn [firstn_search]. destruct tn as [b' ft' fl'|ft'| |item ft']; cbn in Htn.
  - destruct Htn as [Hs' Hlt]. destruct (Hgo b' ft' fl' Hs' Hlt) as (o & out2'' & t'' & ? & ? & ?).
    exists o, out2'', t''. split; [done|]. split; [done|]. by eapply steady_bind.
  - destruct Htn as [Hs' Hlt]. destruct (Hgo (f_bucket a) ft' 0 Hs' Hlt) as (o & out2'' & t'' & ? & ? & ?).
    exists o, out2'', t''. split; [done|]. split; [done|]. by eapply steady_bind.
  - exists None, out2', t'. split; [done|]. split; [done|]. eapply steady_bind; [done|]. apply steady_ret.
  - destruct Htn as (-> & ? & ?). pose proof (sa_local _ _ _ _ Hs).
    exists (Some (item, ft)), out2', t'. split; [done|]. split; [split; [lia|done]|].
    eapply steady_bind; [done|]. apply steady_ret.
Qed.

(** ** All replicas *)

(** The vectors between two replicas. *)
Record reps_ok a (outpos count : Z) (out : list Z) (out2 : option (list Z)) : Prop := RepsOk {
  ro_pos : 0 <= outpos;
  ro_count : 0 <= count;
  ro_bound : outpos + count < 2 ^ 31;
  ro_out : outpos + count <= zlen out;
  ro_none : out2 = None -> f_recurse_to_leaf a = false;
  ro_out2 : forall l, out2 = Some l -> f_recurse_to_leaf a = true ->
    outpos + count <= zlen l /\
    (f_type a = 0 -> take (Z.to_nat outpos) l = take (Z.to_nat outpos) out);
}.

(** What was appended to the leaf vector. *)
Definition leaves_ok a (lo hi : nat) (out' : list Z) (out2 out2' : option (list Z)) : Prop :=
  match out2, out2' with
  | None, None => True
  | Some l, Some l' =>
      length l' = length l /\ take lo l' = take lo l /\
      (f_recurse_to_leaf a = true ->
        seg_ok (item_ok (id (f_bucket a)) 0) lo hi l' /\
        forall j it v, (lo <= j < hi)%nat -> out' !! j = Some it -> l' !! j = Some v ->
          v = it \/ tc (child m) it v)
  | _, _ => False
  end.

(** The result of a call: cells [outpos .. k - 1] are the appended items. *)
Definition firstn_post a (outpos count n : Z) (out : list Z) (out2 : option (list Z))
    (k : Z) (out' : list Z) (out2' : option (list Z)) : Prop :=
  outpos <= k <= outpos + Z.min count (Z.max 0 n) /\ length out' = length out /\
  take (Z.to_nat outpos) out' = take (Z.to_nat outpos) out /\
  seg_ok (item_ok (id (f_bucket a)) (f_type a)) (Z.to_nat outpos) (Z.to_nat k) out' /\
  leaves_ok a (Z.to_nat outpos) (Z.to_nat k) out' out2 out2'.

Lemma seg_ok_empty P lo l : seg_ok P lo lo l.
Proof. intros k v Hk. lia. Qed.

Lemma seg_ok_cons P lo hi l v :
  l !! lo = Some v -> P v -> v ∉ take lo l -> seg_ok P (S lo) hi l -> seg_ok P lo hi l.
Proof.
  intros Ev HP Hn Hs k w Hk Ew. destruct (decide (k = lo)) as [->|]; [|apply Hs; [lia|done]].
  rewrite Ev in Ew. injection Ew as <-. done.
Qed.

Lemma reps_vectors a outpos count out out2 :
  reps_ok a outpos count out out2 -> 0 < count -> vectors_ok a outpos count out out2.
Proof. intros [? ? ? ? ? ?] ?. split; (lia || done). Qed.

Lemma leaf_kept_reps a outpos count out out2 out2' tn :
  reps_ok a outpos count out out2 -> leaf_kept a (Z.to_nat outpos) out2 out2' tn ->
  reps_ok a outpos count out out2'.
Proof.
  intros [? ? ? ? Hn Hl] Hk. unfold leaf_kept in Hk.
  destruct out2 as [l|], out2' as [l'|]; try done; split; try done.
  destruct Hk as (L & T & _). intros l0 [= <-] El. destruct (Hl l eq_refl El) as [? ?].
  rewrite L, T. done.
Qed.

(** The vectors after a chosen item has been written. *)
Lemma chosen_reps a outpos count out out2 out2' item ft :
  reps_ok a outpos count out out2 -> 0 < count ->
  item_ok (id (f_bucket a)) (f_type a) item ->
  leaf_kept a (Z.to_nat outpos) out2 out2' (Chosen item ft) ->
  reps_ok a (outpos + 1) (count - 1) (<[Z.to_nat outpos := item]> out) out2'.
Proof.
  intros [? ? ? ? Hn Hl] Hc Hit Hk. unfold leaf_kept in Hk.
  split; try lia; [by rewrite length_insert; lia| |].
  - intros ->. destruct out2; done.
  - intros l' -> El. destruct out2 as [l|]; [|done]. destruct Hk as (L & T & Hv).
    destruct (Hl l eq_refl El) as [Hlen Hsame]. split; [lia|]. intros Hty.
    destruct (Hv El item ft eq_refl) as (v & Ev & _ & _ & Hrel).
    replace (Z.to_nat (outpos + 1)) with (S (Z.to_nat outpos)) by lia.
    rewrite (take_S_r _ _ v) by done.
    rewrite (take_S_r _ _ item) by (apply list_lookup_insert_eq; lia).
    rewrite take_insert_ge by lia. rewrite T, Hsame by done. f_equal. f_equal.
    destruct Hrel as [->|Hrel]; [done|]. exfalso.
    destruct Hit as (_ & _ & _ & H0). destruct (H0 Hty) as [Hge _].
    assert (exists j, child m item j) as [j (b & Hb & Hid & _)].
    { destruct Hrel as [? ? Hc1|? ? ? Hc1 _]; eauto. }
    destruct (in_map_index Hm b Hb) as [_ ?]. lia.
Qed.

Lemma firstn_reps_spec n fuel a rep outpos count out out2 t :
  args_ok a -> leaf_bounds a -> reps_ok a outpos count out out2 -> tries_ok m t ->
  budget a < Z.of_nat fuel ->
  exists k out' out2' t', tries_ok m t' /\
    firstn_post a outpos count (Z.of_nat n) out out2 k out' out2' /\
    steady m (fun wk => firstn_reps m weight weight_max x choose_args rec n fuel a rep outpos count
                          (FState out out2 (MState wk t)))
             (fun wk => (k, FState out' out2' (MState wk t'))).
Proof.
  revert rep outpos count out out2 t.
  induction n as [|n IH]; intros rep outpos count out out2 t Ha Hlb Hr Ht Hf; cbn [firstn_reps].
  all: assert (leaves_ok a (Z.to_nat outpos) (Z.to_nat outpos) out out2 out2) as Hrefl
    by (destruct out2; [split; [done|]; split; [done|]; intros _; split; [apply seg_ok_empty|lia]|done]).
  all: pose proof Hr as [Hp Hc Hb Ho _ _].
  { exists outpos, out, out2, t. split; [done|]. split; [|apply steady_ret].
    split; [lia|]. split; [done|]. split; [done|]. split; [apply seg_ok_empty|done]. }
  destruct (Z.ltb_spec 0 count) as [Hc0|Hc0]; cycle 1.
  { exists outpos, out, out2, t. split; [done|]. split; [|apply steady_ret].
    split; [lia|]. split; [done|]. split; [done|]. split; [apply seg_ok_empty|done]. }
  assert (search_at a (f_bucket a) 0 0) as Hs0.
  { pose proof (ao_bucket _ Ha) as Hin. pose proof (wfm_rank _ _ _ Hm _ Hin).
    pose proof (span_nonneg a Ha). pose proof (ao_tries _ Ha).
    split; [done|by left|lia|]. unfold left_over, budget, budget_of. nia. }
  destruct (firstn_search_spec fuel a outpos count rep (f_bucket a) 0 0 out out2 t)
    as (o & out2' & t' & Ht' & Hfo & Hst); try done.
  { by apply reps_vectors. }
  { pose proof (sa_left _ _ _ _ Hs0). lia. }
  destruct o as [[item ft]|]; cbn in Hfo.
  - destruct Hfo as (Hft & Hit & Hnin & Hk).
    destruct (count_try_spec m ft t' Hft Ht') as (t1 & Ht1 & Ect).
    destruct (IH (rep + 1) (outpos + 1) (count - 1) (<[Z.to_nat outpos := item]> out) out2' t1)
      as (k & out1 & out2'' & t'' & Ht'' & (Hk1 & Hlen & Htake & Hseg & Hlv) & Hst'); try done.
    { by eapply chosen_reps. }
    rewrite length_insert in Hlen. replace (Z.to_nat (outpos + 1)) with (S (Z.to_nat outpos)) in * by lia.
    destruct (take_S_eq _ _ _ item Htake) as [Eit Htk]; [apply list_lookup_insert_eq; lia|].
    rewrite take_insert_ge in Htk by lia.
    exists k, out1, out2'', t''. split; [done|]. split; [split; [lia|]|].
    + split; [done|]. split; [done|]. split; [eapply seg_ok_cons; try done; by rewrite Htk|].
      unfold leaf_kept, leaves_ok in *.
      destruct out2 as [l|], out2' as [l'|], out2'' as [l''|]; try done.
      destruct Hk as (L1 & T1 & Hv), Hlv as (L2 & T2 & Hsl). split; [congruence|].
      assert (take (Z.to_nat outpos) l'' = take (Z.to_nat outpos) l') as T2'.
      { apply take_le_eq with (S (Z.to_nat outpos)); [lia|done]. }
      split; [congruence|]. intros El. destruct (Hsl El) as [Hs1 Hs2].
      destruct (Hv El item ft eq_refl) as (v & Ev & Hvok & Hvn & Hrel).
      destruct (take_S_eq _ _ _ v T2 Ev) as [Ev'' _]. split.
      * eapply seg_ok_cons; try done. rewrite T2', T1. done.
      * intros j it w Hj Ej Ew. destruct (decide (j = Z.to_nat outpos)) as [->|].
        -- rewrite Eit in Ej. rewrite Ev'' in Ew. by injection Ej as <-; injection Ew as <-.
        -- eapply Hs2; try done. lia.
    + eapply steady_bind; [exact Hst|]. cbn beta iota. cbn [f_out f_state f_out2].
      rewrite aset_in by lia. cbn [rbind]. intros wk Hwk. rewrite Ect. cbn [rbind]. by apply Hst'.
  - destruct (IH (rep + 1) outpos count out out2' t')
      as (k & out1 & out2'' & t'' & Ht'' & (Hk1 & Hlen & Htake & Hseg & Hlv) & Hst'); try done.
    { by eapply leaf_kept_reps. }
    exists k, out1, out2'', t''. split; [done|]. split; [split; [lia|]|].
    + split; [done|]. split; [done|]. split; [done|].
      unfold leaf_kept, leaves_ok in *. destruct out2 as [l|], out2' as [l'|], out2'' as [l''|]; try done.
      destruct Hfo as (L1 & T1 & _), Hlv as (L2 & T2 & ?). split; [congruence|]. split; [congruence|done].
    + by eapply steady_bind.
Qed.

Lemma firstn_body_spec fuel a outpos out_size out out2 t
    (n := f_numrep a - (if f_stable a =? 0 then outpos else 0)) :
  args_ok a -> leaf_bounds a -> reps_ok a outpos out_size out out2 -> tries_ok m t ->
  budget a < Z.of_nat fuel ->
  exists k out' out2' t', tries_ok m t' /\
    firstn_post a outpos out_size n out out2 k out' out2' /\
    steady m (fun wk => firstn_body m weight weight_max x choose_args rec fuel a outpos out_size
                          (FState out out2 (MState wk t)))
             (fun wk => (k, FState out' out2' (MState wk t'))).
Proof.
  intros Ha Hlb Hr Ht Hf. unfold firstn_body. cbv zeta. fold n.
  destruct (firstn_reps_spec (Z.to_nat n) fuel a (if f_stable a =? 0 then outpos else 0)
              outpos out_size out out2 t Ha Hlb Hr Ht Hf) as (k & out' & out2' & t' & ? & (? & ?) & ?).
  exists k, out', out2', t'. split; [done|]. split; [|done]. split; [lia|done].
Qed.
End with_rec.

(** ** The call, at both depths *)

Definition leaf_call (fuel : nat) (a' : firstn_args) (out : list Z) (outpos out_size : Z) (ms : mstate)
    : res (Z * list Z * mstate) :=
  '(n, s') <~ crush_choose_firstn m weight weight_max x choose_args 1 fuel a' outpos out_size (FState out None ms);;
  Ret (n, f_out s', f_state s').

Lemma leaf_call_ok fuel : rec_ok (leaf_call fuel) (Z.of_nat fuel).
Proof.
  intros a' out outpos count t Ha Hbud El Hty Hn Hp Hc Ho Ht. unfold leaf_call. cbn [crush_choose_firstn].
  destruct (firstn_body_spec
    (fun a' out outpos out_size ms =>
       '(n, s') <~ crush_choose_firstn m weight weight_max x choose_args 0 fuel a' outpos out_size (FState out None ms);;
       Ret (n, f_out s', f_state s')) 0 fuel a' outpos count out None t)
    as (k & out' & out2' & t' & Ht' & (Hk & Hlen & Htake & Hseg & Hlv) & Hst); try done.
  { intros E. congruence. }
  { split; try done; lia. }
  rewrite Hn in Hk. exists k, out', t'. split; [done|]. split; [done|]. split; [done|]. split.
  - destruct (Z.eq_dec k outpos) as [|Hne]; [by left|]. right. assert (k = outpos + 1) as -> by lia.
    split; [done|]. destruct (lookup_lt_is_Some_2 out' (Z.to_nat outpos)) as [v Ev]; [lia|].
    exists v. split; [done|]. destruct (Hseg (Z.to_nat outpos) v) as [? ?]; [lia|done|].
    rewrite Hty in *. rewrite <- Htake. done.
  - eapply steady_bind; [exact Hst|]. cbn beta iota. cbn [f_out f_state]. apply steady_ret.
Qed.

(** Bounds on the arguments of a call, for an amount of fuel. *)
Record call_ok (fuel : nat) a : Prop := CallOk {
  co_args : args_ok a;
  co_fuel : budget a < Z.of_nat fuel;
  co_leaf : f_recurse_to_leaf a = true ->
    0 <= f_recurse_tries a /\ budget_of (f_recurse_tries a) a < Z.min (Z.of_nat fuel) (2 ^ 32 - 1);
}.

Lemma choose_firstn_spec fuel a outpos out_size out out2 t :
  call_ok fuel a -> reps_ok a outpos out_size out out2 -> tries_ok m t ->
  exists k out' out2' t', tries_ok m t' /\
    firstn_post a outpos out_size (f_numrep a - (if f_stable a =? 0 then outpos else 0))
      out out2 k out' out2' /\
    steady m (fun wk => crush_choose_firstn m weight weight_max x choose_args 2 fuel a outpos out_size
                          (FState out out2 (MState wk t)))
             (fun wk => (k, FState out' out2' (MState wk t'))).
Proof.
  intros [Ha Hf Hl] Hr Ht. eapply (firstn_body_spec (leaf_call fuel) (Z.of_nat fuel)); try done.
  intros E. destruct (Hl E). split; [apply leaf_call_ok|done].
Qed.
End firstn_spec.
