(* ===== verification/CrushIndep.v ===== *)
(** * [crush_choose_indep]

    For a well-formed map: the call returns, it touches only its own positions
    of the output vectors, every position ends with [CRUSH_ITEM_NONE] or with
    an item of the wanted type that lies below the bucket and is not out, no
    item occupies two positions, and in leaf mode an item has a device below
    it.  The result does not depend on the workspace. *)

From stdpp Require Import relations.
From S2P Require Import Prelude CrushHash CrushTypes CrushLn CrushBucket CrushPerm CrushChoose CrushMapper CrushWf.
Open Scope Z_scope.

Section indep_spec.
Context {m : crush_map} {rk : Z -> nat} {D : nat} (Hm : wf_map m rk D).
Context (Hdev : max_devices m <= CRUSH_ITEM_UNDEF).
Context {choose_args : option (list crush_choose_arg)} (Hargs : wf_args m choose_args).
Context {weight : list Z} {weight_max : Z} (Hw : 0 <= weight_max <= zlen weight).
Context (x : Z).

Implicit Types (a : indep_args) (t : option (list Z)).

#[local] Notation item_ok := (item_ok m weight weight_max x).

Record iargs_ok a : Prop := IargsOk {
  io_bucket : in_map m (i_bucket a);
  io_numrep : 0 < i_numrep a < 2 ^ 31;
}.

(** ** Cells *)

(** A cell with no bucket in it. *)
Definition no_bucket (w : Z) : Prop :=
  w = CRUSH_ITEM_UNDEF \/ w = CRUSH_ITEM_NONE \/ 0 <= w < max_devices m.

(** A cell of [out] and the cell of [out2] beside it. *)
Definition pair_ok a (v w : Z) : Prop :=
  (v = CRUSH_ITEM_UNDEF /\ (i_recurse_to_leaf a = true -> no_bucket w /\
     (i_type a <> 0 -> w = CRUSH_ITEM_UNDEF \/ w = CRUSH_ITEM_NONE))) \/
  (v = CRUSH_ITEM_NONE /\ (i_recurse_to_leaf a = true -> no_bucket w /\
     (i_type a <> 0 -> w = CRUSH_ITEM_NONE))) \/
  (item_ok (id (i_bucket a)) (i_type a) v /\
     (i_recurse_to_leaf a = true ->
        item_ok (id (i_bucket a)) 0 w /\ (w = v \/ tc (child m) v w))).

(** [w] is the cell of [out2] at [k], if there is an [out2]. *)
Definition cell2 (out2 : option (list Z)) (k : nat) (w : Z) : Prop :=
  forall l, out2 = Some l -> l !! k = Some w.

Definition len2 (out2 : option (list Z)) (n : Z) : Prop := forall l, out2 = Some l -> n <= zlen l.

Record cells_ok a (lo hi : nat) (out : list Z) (out2 : option (list Z)) : Prop := CellsOk {
  cl_len : Z.of_nat hi <= zlen out;
  cl_len2 : len2 out2 (Z.of_nat hi);
  cl_leaf : out2 = None -> i_recurse_to_leaf a = false;
  cl_pair : forall k v, (lo <= k < hi)%nat -> out !! k = Some v ->
    exists w, cell2 out2 k w /\ pair_ok a v w;
  cl_dist : forall j k v, (lo <= j < hi)%nat -> (lo <= k < hi)%nat ->
    out !! j = Some v -> out !! k = Some v ->
    v = CRUSH_ITEM_UNDEF \/ v = CRUSH_ITEM_NONE \/ j = k;
}.

(** Both vectors with the cell [k] overwritten. *)
Definition put2 (k : nat) (w : Z) (out2 : option (list Z)) : option (list Z) :=
  (fun l => <[k := w]> l) <$> out2.

(** The value written at [rep] is not among the items of the range. *)
Definition fresh (lo hi : nat) (v : Z) (out : list Z) : Prop :=
  v = CRUSH_ITEM_UNDEF \/ v = CRUSH_ITEM_NONE \/ v ∉ take (hi - lo) (drop lo out).

Lemma item_small root ty v :
  item_ok root ty v -> v <> CRUSH_ITEM_UNDEF /\ v <> CRUSH_ITEM_NONE.
Proof. intros (_ & H & _). unfold CRUSH_ITEM_UNDEF, CRUSH_ITEM_NONE in *. lia. Qed.

Lemma cell2_ex out2 k n : len2 out2 n -> Z.of_nat k < n -> exists w, cell2 out2 k w.
Proof.
  intros Hl Hk. destruct out2 as [l|]; [|by exists 0].
  destruct (lookup_lt_is_Some_2 l k) as [w Ew]; [specialize (Hl l eq_refl); lia|].
  exists w. by intros ? [= <-].
Qed.

Lemma put2_same out2 k w : cell2 out2 k w -> put2 k w out2 = out2.
Proof. intros H. destruct out2 as [l|]; [|done]. cbn. by rewrite list_insert_id by (by apply H). Qed.

Lemma put2_len out2 k w n : len2 out2 n -> len2 (put2 k w out2) n.
Proof.
  intros H l E. destruct out2 as [l0|]; [|done]. injection E as <-.
  rewrite length_insert. by apply H.
Qed.

Lemma put2_cell out2 k w n : len2 out2 n -> Z.of_nat k < n -> cell2 (put2 k w out2) k w.
Proof.
  intros H Hk l E. destruct out2 as [l0|]; [|done]. injection E as <-.
  apply list_lookup_insert_eq. specialize (H l0 eq_refl). lia.
Qed.

Lemma put2_other out2 k j w w' : j <> k -> cell2 out2 j w' -> cell2 (put2 k w out2) j w'.
Proof.
  intros Hne H l E. destruct out2 as [l0|]; [|done]. injection E as <-.
  rewrite list_lookup_insert_ne by done. by apply H.
Qed.

Lemma put2_put2 out2 k w w' : put2 k w (put2 k w' out2) = put2 k w out2.
Proof. destruct out2; [|done]. cbn. by rewrite list_insert_insert_eq. Qed.

Lemma not_fresh lo hi (v : Z) (out : list Z) j :
  (lo <= j < hi)%nat -> out !! j = Some v -> v ∈ take (hi - lo) (drop lo out).
Proof.
  intros Hj Ej. apply list_elem_of_lookup_2 with (j - lo)%nat.
  rewrite lookup_take_lt, lookup_drop by lia. by replace (lo + (j - lo))%nat with j by lia.
Qed.

(** Writing a fresh value keeps the cells well-formed. *)
Lemma cells_put a lo hi out out2 rep v w :
  cells_ok a lo hi out out2 -> (lo <= rep < hi)%nat -> pair_ok a v w -> fresh lo hi v out ->
  cells_ok a lo hi (<[rep := v]> out) (put2 rep w out2).
Proof.
  intros [Hl Hl2 Hn Hp Hd] Hrep Hvw Hf. split.
  - by rewrite length_insert.
  - by apply put2_len.
  - intros E. apply Hn. by destruct out2.
  - intros k u Hk Ek. destruct (decide (k = rep)) as [->|Hne].
    + rewrite list_lookup_insert_eq in Ek by lia. injection Ek as <-.
      exists w. split; [|done]. eapply put2_cell; [done|lia].
    + rewrite list_lookup_insert_ne in Ek by done. destruct (Hp k u Hk Ek) as (w' & Hc & Hok).
      exists w'. split; [by apply put2_other|done].
  - intros j k u Hj Hk Ej Ek.
    destruct (decide (j = rep)) as [->|Hjn], (decide (k = rep)) as [->|Hkn]; [tauto|..].
    all: rewrite ?list_lookup_insert_eq in Ej by lia; rewrite ?list_lookup_insert_eq in Ek by lia.
    all: rewrite ?list_lookup_insert_ne in Ej by done; rewrite ?list_lookup_insert_ne in Ek by done.
    + injection Ej as <-. destruct Hf as [?|[?|Hf]]; [tauto..|]. destruct Hf. by eapply not_fresh.
    + injection Ek as <-. destruct Hf as [?|[?|Hf]]; [tauto..|]. destruct Hf. by eapply (not_fresh _ _ _ _ j).
    + by eapply Hd.
Qed.

(** Cells outside the range are kept. *)
Definition frame (lo hi : nat) (l l' : list Z) : Prop :=
  length l' = length l /\ forall k, ~ (lo <= k < hi)%nat -> l' !! k = l !! k.

Definition frame2 (lo hi : nat) (o o' : option (list Z)) : Prop := option_relation (frame lo hi) (fun _ => False) (fun _ => False) o o'.

#[global] Instance frame_preorder lo hi : PreOrder (frame lo hi).
Proof.
  split; [by intros l|]. intros l1 l2 l3 [L1 F1] [L2 F2]. split; [congruence|].
  intros k Hk. by rewrite F2, F1.
Qed.

#[global] Instance frame2_preorder lo hi : PreOrder (frame2 lo hi).
Proof.
  split; [by intros [l|]; cbn|]. intros [l1|] [l2|] [l3|] H1 H2; try done. cbn in *. by etrans.
Qed.

Lemma frame_put lo hi k v (l : list Z) : (lo <= k < hi)%nat -> frame lo hi l (<[k := v]> l).
Proof.
  intros Hk. split; [apply length_insert|]. intros j Hj. apply list_lookup_insert_ne. lia.
Qed.

Lemma frame2_put2 lo hi k v o : (lo <= k < hi)%nat -> frame2 lo hi o (put2 k v o).
Proof. intros Hk. destruct o; [|done]. by apply frame_put. Qed.

(** ** The first and the last loop *)

(** [l'] is [l] with [f] applied to the cells of the range. *)
Definition pointwise (f : Z -> Z) (lo hi : nat) (l l' : list Z) : Prop :=
  frame lo hi l l' /\ forall k v, (lo <= k < hi)%nat -> l !! k = Some v -> l' !! k = Some (f v).

Definition pointwise2 (f : Z -> Z) (lo hi : nat) (o o' : option (list Z)) : Prop :=
  option_relation (pointwise f lo hi) (fun _ => False) (fun _ => False) o o'.

Lemma pointwise_nil f lo l : pointwise f lo lo l l.
Proof. split; [done|]. intros. lia. Qed.

Lemma pointwise_step f lo hi l l' v :
  (lo < hi)%nat -> l !! lo = Some v -> pointwise f (S lo) hi (<[lo := f v]> l) l' -> pointwise f lo hi l l'.
Proof.
  intros Hlt Ev [[L F] P]. rewrite length_insert in L. pose proof (lookup_lt_Some _ _ _ Ev). split.
  - split; [done|]. intros k Hk. rewrite F by lia. apply list_lookup_insert_ne. lia.
  - intros k u Hk Ek. destruct (decide (k = lo)) as [->|].
    + rewrite Ev in Ek. injection Ek as <-. rewrite F by lia. apply list_lookup_insert_eq. lia.
    + apply P; [lia|]. by rewrite list_lookup_insert_ne.
Qed.

Definition fin (v : Z) : Z := if v =? CRUSH_ITEM_UNDEF then CRUSH_ITEM_NONE else v.

Lemma undef_to_none_spec l rep :
  0 <= rep < zlen l -> exists v, l !! Z.to_nat rep = Some v /\ undef_to_none l rep = Ret (<[Z.to_nat rep := fin v]> l).
Proof.
  intros Hr. unfold undef_to_none, fin. destruct (aget_in l rep Hr) as (v & -> & Ev). exists v. split; [done|].
  cbn [rbind]. destruct (v =? CRUSH_ITEM_UNDEF); [by rewrite aset_in by lia|]. by rewrite list_insert_id.
Qed.

Lemma indep_init_spec n rep out out2 :
  0 <= rep -> rep + Z.of_nat n <= zlen out -> len2 out2 (rep + Z.of_nat n) ->
  exists out' out2', (forall ms, indep_init n rep (FState out out2 ms) = Ret (FState out' out2' ms)) /\
    pointwise (fun _ => CRUSH_ITEM_UNDEF) (Z.to_nat rep) (Z.to_nat rep + n) out out' /\
    pointwise2 (fun _ => CRUSH_ITEM_UNDEF) (Z.to_nat rep) (Z.to_nat rep + n) out2 out2'.
Proof.
  revert rep out out2. induction n as [|n IH]; intros rep out out2 Hr Hl Hl2; cbn [indep_init].
  { exists out, out2. rewrite Nat.add_0_r. split; [done|]. split; [apply pointwise_nil|].
    destruct out2; [apply pointwise_nil|done]. }
  cbn [f_out f_out2 f_state]. rewrite aset_in by lia. cbn [rbind].
  destruct (lookup_lt_is_Some_2 out (Z.to_nat rep)) as [v Ev]; [lia|].
  destruct out2 as [l|]; cbn [set_out2].
  - specialize (Hl2 l eq_refl). rewrite aset_in by lia. cbn [rbind].
    destruct (lookup_lt_is_Some_2 l (Z.to_nat rep)) as [w Ew]; [lia|].
    destruct (IH (rep + 1) (<[Z.to_nat rep := CRUSH_ITEM_UNDEF]> out) (Some (<[Z.to_nat rep := CRUSH_ITEM_UNDEF]> l)))
      as (out' & [l'|] & E & P1 & P2); [lia|rewrite length_insert; lia|intros ? [= <-]; rewrite length_insert; lia| |done].
    exists out', (Some l'). split; [exact E|].
    replace (Z.to_nat (rep + 1)) with (S (Z.to_nat rep)) in * by lia. rewrite Nat.add_succ_r.
    split; [|cbn in *]; by eapply pointwise_step; [lia|..].
  - cbn [rbind].
    destruct (IH (rep + 1) (<[Z.to_nat rep := CRUSH_ITEM_UNDEF]> out) None)
      as (out' & [l'|] & E & P1 & P2); [lia|rewrite length_insert; lia|done|done|].
    exists out', None. split; [exact E|]. split; [|done].
    replace (Z.to_nat (rep + 1)) with (S (Z.to_nat rep)) in * by lia. rewrite Nat.add_succ_r.
    by eapply pointwise_step; [lia|..].
Qed.

Lemma indep_final_spec n rep out out2 :
  0 <= rep -> rep + Z.of_nat n <= zlen out -> len2 out2 (rep + Z.of_nat n) ->
  exists out' out2', (forall ms, indep_final n rep (FState out out2 ms) = Ret (FState out' out2' ms)) /\
    pointwise fin (Z.to_nat rep) (Z.to_nat rep + n) out out' /\
    pointwise2 fin (Z.to_nat rep) (Z.to_nat rep + n) out2 out2'.
Proof.
  revert rep out out2. induction n as [|n IH]; intros rep out out2 Hr Hl Hl2; cbn [indep_final].
  { exists out, out2. rewrite Nat.add_0_r. split; [done|]. split; [apply pointwise_nil|].
    destruct out2; [apply pointwise_nil|done]. }
  cbn [f_out f_out2 f_state]. destruct (undef_to_none_spec out rep) as (v & Ev & ->); [lia|]. cbn [rbind].
  destruct out2 as [l|].
  - specialize (Hl2 l eq_refl). destruct (undef_to_none_spec l rep) as (w & Ew & ->); [lia|]. cbn [rbind].
    destruct (IH (rep + 1) (<[Z.to_nat rep := fin v]> out) (Some (<[Z.to_nat rep := fin w]> l)))
      as (out' & [l'|] & E & P1 & P2); [lia|rewrite length_insert; lia|intros ? [= <-]; rewrite length_insert; lia| |done].
    exists out', (Some l'). split; [exact E|].
    replace (Z.to_nat (rep + 1)) with (S (Z.to_nat rep)) in * by lia. rewrite Nat.add_succ_r.
    split; [|cbn in *]; by eapply pointwise_step; [lia|..].
  - cbn [rbind].
    destruct (IH (rep + 1) (<[Z.to_nat rep := fin v]> out) None)
      as (out' & [l'|] & E & P1 & P2); [lia|rewrite length_insert; lia|done|done|].
    exists out', None. split; [exact E|]. split; [|done].
    replace (Z.to_nat (rep + 1)) with (S (Z.to_nat rep)) in * by lia. rewrite Nat.add_succ_r.
    by eapply pointwise_step; [lia|..].
Qed.

Lemma pointwise_inv f lo hi l l' k u :
  pointwise f lo hi l l' -> (lo <= k < hi)%nat -> l' !! k = Some u -> exists v, l !! k = Some v /\ u = f v.
Proof.
  intros [[L _] P] Hk Eu. destruct (lookup_lt_is_Some_2 l k) as [v Ev].
  { rewrite <- L. by eapply lookup_lt_Some. }
  exists v. split; [done|]. rewrite (P _ _ Hk Ev) in Eu. congruence.
Qed.

Lemma pointwise2_cell f lo hi o o' k w :
  pointwise2 f lo hi o o' -> (lo <= k < hi)%nat -> cell2 o k w -> cell2 o' k (f w).
Proof.
  intros H Hk Hc l' ->. destruct o as [l|]; [|done]. destruct H as [_ P]. apply P; [done|]. by apply Hc.
Qed.

Lemma pointwise2_len f lo hi o o' n : pointwise2 f lo hi o o' -> len2 o n -> len2 o' n.
Proof. intros H Hl l' ->. destruct o as [l|]; [|done]. destruct H as [[L _] _]. rewrite L. by apply Hl. Qed.

Lemma pointwise2_frame f lo hi o o' : pointwise2 f lo hi o o' -> frame2 lo hi o o'.
Proof. intros H. destruct o, o'; try done. apply H. Qed.

Lemma pointwise2_none f lo hi o o' : pointwise2 f lo hi o o' -> o' = None -> o = None.
Proof. intros H ->. by destruct o. Qed.

Lemma fin_no_bucket w : no_bucket w -> no_bucket (fin w).
Proof. intros H. unfold fin. case_bool; [by right; left|done]. Qed.

Lemma fin_defined v : fin v <> CRUSH_ITEM_UNDEF.
Proof. unfold fin. by destruct (Z.eqb_spec v CRUSH_ITEM_UNDEF). Qed.

Lemma fin_pair a v w : pair_ok a v w -> pair_ok a (fin v) (fin w).
Proof.
  intros [[-> Hw0]|[[-> Hw0]|[Hi Hl]]].
  1, 2: right; left; split; [done|]; intros E1; destruct (Hw0 E1) as [Hnb Hl].
  1, 2: split; [by apply fin_no_bucket|]; intros E2.
  - by destruct (Hl E2) as [-> | ->].
  - by rewrite (Hl E2).
  - destruct (item_small _ _ _ Hi) as [Hu _]. unfold fin. rewrite (proj2 (Z.eqb_neq _ _) Hu).
    right. right. split; [done|]. intros El. destruct (Hl El) as [Hiw Hrel].
    destruct (item_small _ _ _ Hiw) as [Hwu _]. by rewrite (proj2 (Z.eqb_neq _ _) Hwu).
Qed.

Lemma init_cells a lo hi out out2 out' out2' :
  (out2 = None -> i_recurse_to_leaf a = false) -> Z.of_nat hi <= zlen out -> len2 out2 (Z.of_nat hi) ->
  pointwise (fun _ => CRUSH_ITEM_UNDEF) lo hi out out' ->
  pointwise2 (fun _ => CRUSH_ITEM_UNDEF) lo hi out2 out2' -> cells_ok a lo hi out' out2'.
Proof.
  intros Hn Hl Hl2 P P2. split.
  - destruct P as [[-> _] _]. done.
  - by eapply pointwise2_len.
  - intros E. apply Hn. by eapply pointwise2_none.
  - intros k v Hk Ek. destruct (pointwise_inv _ _ _ _ _ _ _ P Hk Ek) as (v0 & E0 & ->).
    exists CRUSH_ITEM_UNDEF. split; [|left; split; [done|]; intros _; split; by left].
    destruct (cell2_ex out2 k (Z.of_nat hi)) as [w Hw0]; [done|lia|].
    by apply (pointwise2_cell _ _ _ _ _ _ _ P2 Hk Hw0).
  - intros j k v Hj _ Ej _. destruct (pointwise_inv _ _ _ _ _ _ _ P Hj Ej) as (v0 & _ & ->). by left.
Qed.

Lemma fin_cells a lo hi out out2 out' out2' :
  cells_ok a lo hi out out2 -> pointwise fin lo hi out out' -> pointwise2 fin lo hi out2 out2' ->
  cells_ok a lo hi out' out2' /\ forall k, (lo <= k < hi)%nat ->
    out' !! k <> Some CRUSH_ITEM_UNDEF /\ forall l, out2' = Some l -> l !! k <> Some CRUSH_ITEM_UNDEF.
Proof.
  intros [Hl Hl2 Hn Hp Hd] P P2. split; [split|].
  - destruct P as [[-> _] _]. done.
  - by eapply pointwise2_len.
  - intros E. apply Hn. by eapply pointwise2_none.
  - intros k u Hk Ek. destruct (pointwise_inv _ _ _ _ _ _ _ P Hk Ek) as (v & Ev & ->).
    destruct (Hp k v Hk Ev) as (w & Hc & Hvw). exists (fin w). split; [|by apply fin_pair].
    by eapply pointwise2_cell.
  - intros j k u Hj Hk Ej Ek.
    destruct (pointwise_inv _ _ _ _ _ _ _ P Hj Ej) as (v & Ev & ->).
    destruct (pointwise_inv _ _ _ _ _ _ _ P Hk Ek) as (v' & Ev' & E).
    unfold fin in E |- *. destruct (Z.eqb_spec v CRUSH_ITEM_UNDEF); [tauto|].
    destruct (Z.eqb_spec v' CRUSH_ITEM_UNDEF); [tauto|]. subst v'. by eapply Hd.
  - intros k Hk. split.
    + intros Ek. destruct (pointwise_inv _ _ _ _ _ _ _ P Hk Ek) as (v & _ & E). by destruct (fin_defined v).
    + intros l -> El. destruct out2 as [l0|]; [|done].
      destruct (pointwise_inv _ _ _ _ _ _ _ P2 Hk El) as (v & _ & E). by destruct (fin_defined v).
Qed.

(** ** One turn *)

Section with_rec.
Context (rec : indep_args -> Z -> list Z -> Z -> mstate -> res (list Z * mstate)).

(** What the recursive call of leaf mode does: it fills one cell. *)
Definition irec_ok : Prop :=
  forall a' l rep t,
    iargs_ok a' -> i_recurse_to_leaf a' = false -> i_type a' = 0 ->
    0 <= rep < zlen l -> rep + 1 < 2 ^ 31 -> tries_ok m t ->
    exists w t', tries_ok m t' /\ (w = CRUSH_ITEM_NONE \/ item_ok (id (i_bucket a')) 0 w) /\
      steady m (fun wk => rec a' 1 l rep (MState wk t))
               (fun wk => (<[Z.to_nat rep := w]> l, MState wk t')).

Definition ileaf_ok a : Prop := i_recurse_to_leaf a = true -> irec_ok.

(** Where the descent stands. *)
Definition at_or_below a (b : crush_bucket) : Prop :=
  in_map m b /\ (b = i_bucket a \/ tc (child m) (id (i_bucket a)) (id b)).

(** The outcome of a turn: what it leaves at [rep], and where it goes on. *)
Definition iturn_spec a (lo hi rep : nat) (out : list Z) (out2 : option (list Z))
    (b : crush_bucket) (run : crush_work -> res (descent * fstate)) : Prop :=
  exists d v w t', tries_ok m t' /\ pair_ok a v w /\ fresh lo hi v out /\
    match d with
    | Descend b' => v = CRUSH_ITEM_UNDEF /\ at_or_below a b' /\ (rk (id b') < rk (id b))%nat
    | Break _ => True
    end /\
    steady m run (fun wk => (d, FState (<[rep := v]> out) (put2 rep w out2) (MState wk t'))).

Lemma indep_leaf_steady a rep item r out out2 t b :
  iargs_ok a -> ileaf_ok a -> tries_ok m t -> 0 <= rep -> rep + 1 < 2 ^ 31 -> len2 out2 (rep + 1) ->
  (out2 = None -> i_recurse_to_leaf a = false) ->
  at_or_below a b -> item ∈ items b -> item_type m item = Ret (i_type a) ->
  exists noleaf w t', tries_ok m t' /\
    (noleaf = true -> pair_ok a CRUSH_ITEM_UNDEF w) /\
    (noleaf = false -> item_ok (id (i_bucket a)) (i_type a) item -> pair_ok a item w) /\
    (i_recurse_to_leaf a = true -> 0 <= item -> w = item) /\
    steady m (fun wk => indep_leaf m rec a rep item r (FState out out2 (MState wk t)))
             (fun wk => (noleaf, FState out (put2 (Z.to_nat rep) w out2) (MState wk t'))).
Proof.
  intros Ha Hlf Ht Hrep Hrep' Hl2 Hn [Hb Hbl] Hin Hty. unfold indep_leaf.
  destruct (i_recurse_to_leaf a) eqn:El; cycle 1.
  { destruct (cell2_ex out2 (Z.to_nat rep) (rep + 1) Hl2) as [w Hc]; [lia|].
    exists false, w, t. split; [done|]. split; [done|]. split; [|split; [congruence|]].
    - intros _ Hi. right. right. rewrite El. done.
    - rewrite (put2_same _ _ _ Hc). apply steady_ret. }
  destruct out2 as [l|]; [|discriminate (Hn eq_refl)]. specialize (Hl2 l eq_refl).
  destruct (Z.ltb_spec item 0) as [Hneg|Hpos].
  - destruct (child_bucket Hm b item Hb Hin Hneg) as (b' & -> & Hb' & Eid & _). cbn [rbind f_out2 deref f_state f_out].
    destruct (Hlf El (IndepArgs b' (i_numrep a) 0 (i_recurse_tries a) 0 false r) l rep t)
      as (w & t' & Ht' & Hw0 & Hst); try done; [by destruct Ha; split|lia|].
    exists (w =? CRUSH_ITEM_NONE), w, t'. split; [done|]. split; [|split; [|split; [lia|]]].
    + intros ->%Z.eqb_eq. left. split; [done|]. intros _. split; [by right; left|by right].
    + intros Hnn%Z.eqb_neq Hi. right. right. split; [done|]. intros _.
      destruct Hw0 as [?|(Hw1 & Hw2)]; [done|]. cbn in Hw1. rewrite Eid in Hw1.
      split; [|by right]. split; [|done]. etrans; [by apply (below_child m (i_bucket a) b)|done].
    + eapply steady_bind; [exact Hst|]. cbn beta iota.
      assert (aget (<[Z.to_nat rep:=w]> l) rep = Ret w) as ->
        by (apply aget_Ret; rewrite list_lookup_insert_eq by lia; split; [lia|done]).
      cbn [rbind]. apply steady_ret.
  - exists false, item, t. split; [done|]. split; [done|]. split; [|split; [done|]].
    + intros _ Hi. right. right. split; [done|]. intros _. split; [|by left].
      assert (i_type a = 0) as Hty0; [|by rewrite Hty0 in Hi].
      unfold item_type in Hty. destruct (Z.ltb_spec item 0); [lia|]. by injection Hty as <-.
    + cbn [f_out2 deref rbind]. rewrite aset_in by lia. cbn [rbind f_out f_state]. apply steady_ret.
Qed.

Lemma undef_fresh lo hi out : fresh lo hi CRUSH_ITEM_UNDEF out.
Proof. by left. Qed.

Lemma none_pair a : pair_ok a CRUSH_ITEM_NONE CRUSH_ITEM_NONE.
Proof. right. left. split; [done|]. intros _. split; [by right; left|done]. Qed.

(** A turn that leaves both vectors alone. *)
Lemma iturn_keep a lo hi rep out out2 b d t run w :
  tries_ok m t -> out !! rep = Some CRUSH_ITEM_UNDEF -> cell2 out2 rep w -> pair_ok a CRUSH_ITEM_UNDEF w ->
  match d with
  | Descend b' => at_or_below a b' /\ (rk (id b') < rk (id b))%nat
  | Break _ => True
  end ->
  steady m run (fun wk => (d, FState out out2 (MState wk t))) ->
  iturn_spec a lo hi rep out out2 b run.
Proof.
  intros Ht Eo Hc Hp Hd Hst. exists d, CRUSH_ITEM_UNDEF, w, t.
  rewrite (list_insert_id out) by done. rewrite (put2_same _ _ _ Hc).
  split; [done|]. split; [done|]. split; [apply undef_fresh|]. split; [by destruct d|done].
Qed.

Lemma place_none_spec a lo hi rep left out out2 t b :
  0 <= rep < zlen out -> len2 out2 (rep + 1) -> tries_ok m t ->
  iturn_spec a lo hi (Z.to_nat rep) out out2 b
    (fun wk => place_none rep left (FState out out2 (MState wk t))).
Proof.
  intros Hrep Hl2 Ht. exists (Break (left - 1)), CRUSH_ITEM_NONE, CRUSH_ITEM_NONE, t.
  split; [done|]. split; [apply none_pair|]. split; [by right; left|]. split; [done|].
  intros wk Hwk. exists wk. split; [|done]. unfold place_none. cbn [f_out f_out2 f_state].
  rewrite aset_in by lia. cbn [rbind]. destruct out2 as [l|]; [|done]. cbn [set_out2].
  specialize (Hl2 l eq_refl). rewrite aset_in by lia. done.
Qed.

(** The cells at the start of a turn for [rep]. *)
Record turn_at a (outpos endpos rep : Z) (out : list Z) (out2 : option (list Z)) : Prop := TurnAt {
  ta_pos : 0 <= outpos;
  ta_rep : outpos <= rep < endpos;
  ta_end : endpos < 2 ^ 31;
  ta_cells : cells_ok a (Z.to_nat outpos) (Z.to_nat endpos) out out2;
  ta_undef : out !! Z.to_nat rep = Some CRUSH_ITEM_UNDEF;
}.

Lemma turn_at_facts a outpos endpos rep out out2 :
  turn_at a outpos endpos rep out out2 ->
  (exists w, cell2 out2 (Z.to_nat rep) w /\ pair_ok a CRUSH_ITEM_UNDEF w) /\
  rep < zlen out /\ len2 out2 (rep + 1) /\ (out2 = None -> i_recurse_to_leaf a = false).
Proof.
  intros [? ? ? [Hl Hl2 Hn Hp _] Hu]. split; [apply Hp; [lia|done]|]. split; [lia|]. split; [|done].
  intros l E. specialize (Hl2 l E). lia.
Qed.

Lemma indep_place_spec a outpos endpos rep left item r out out2 t b :
  iargs_ok a -> ileaf_ok a -> turn_at a outpos endpos rep out out2 -> tries_ok m t ->
  at_or_below a b -> item ∈ items b -> item < max_devices m -> item_type m item = Ret (i_type a) ->
  iturn_spec a (Z.to_nat outpos) (Z.to_nat endpos) (Z.to_nat rep) out out2 b (fun wk =>
    indep_place m weight weight_max x rec a outpos endpos rep left item (i_type a) r
      (FState out out2 (MState wk t))).
Proof.
  intros Ha Hlf Hta Ht Hbl Hin Hmd Hty.
  destruct (turn_at_facts _ _ _ _ _ _ Hta) as ((w0 & Hc0 & Hp0) & Hlo & Hl2 & Hn).
  destruct Hta as [Hpos Hrep Hend Hcells Hu]. pose proof (cl_len _ _ _ _ _ Hcells).
  destruct (item_type_child Hm b item (proj1 Hbl) Hin) as (ty & Ety & Hty0).
  assert (ty = i_type a) as -> by congruence. unfold indep_place. cbn [f_out].
  destruct (collides_spec (Z.to_nat (endpos - outpos)) outpos out item) as (c & -> & Hcol); [lia..|].
  cbn [rbind]. destruct c; [by eapply (iturn_keep _ _ _ _ _ _ _ (Break left)); try done; apply steady_ret|].
  destruct (indep_leaf_steady a rep item r out out2 t b) as (nl & w & t' & Ht' & Hnl & Hl & Hdv & Hst); try done; [lia..|].
  destruct nl.
  { exists (Break left), CRUSH_ITEM_UNDEF, w, t'. split; [done|]. split; [by apply Hnl|].
    split; [apply undef_fresh|]. split; [done|]. rewrite (list_insert_id out) by done.
    eapply steady_bind; [exact Hst|apply steady_ret]. }
  assert (exists o, (if i_type a =? 0 then is_out weight weight_max item x else Ret false) = Ret o /\
    (o = true -> i_type a = 0) /\ (o = false -> item_ok (id (i_bucket a)) (i_type a) item)) as (o & Eo & Ho1 & Ho2).
  { assert (tc (child m) (id (i_bucket a)) item) by (by destruct Hbl; apply (below_child m (i_bucket a) b)).
    destruct (Z.eqb_spec (i_type a) 0) as [E0|E0]; [|by exists false].
    destruct (is_out_spec weight weight_max item x Hw) as (o & Eo); [lia|]. exists o. split; [done|]. split; [done|].
    intros ->. split; [done|]. split; [done|]. split; [done|]. intros _. split; [lia|done]. }
  destruct o.
  - exists (Break left), CRUSH_ITEM_UNDEF, w, t'. split; [done|].
    split.
    { left. split; [done|]. intros El. rewrite (Hdv El) by (apply Hty0; by apply Ho1).
      split; [right; right; split; [apply Hty0; by apply Ho1|done]|]. intros H0. by destruct (H0 (Ho1 eq_refl)). }
    split; [apply undef_fresh|]. split; [done|]. rewrite (list_insert_id out) by done.
    eapply steady_bind; [exact Hst|]. cbn beta iota. rewrite Eo. apply steady_ret.
  - exists (Break (left - 1)), item, w, t'. split; [done|]. split; [by apply Hl, Ho2|].
    split; [|split; [done|]].
    + right. right. replace (Z.to_nat endpos - Z.to_nat outpos)%nat with (Z.to_nat (endpos - outpos)) by lia.
      intros Hi. by apply Hcol in Hi.
    + eapply steady_bind; [exact Hst|]. cbn beta iota. rewrite Eo. cbn [rbind f_out f_out2 f_state].
      rewrite aset_in by lia. apply steady_ret.
Qed.

Lemma indep_item_spec a outpos endpos rep left item r out out2 t b :
  iargs_ok a -> ileaf_ok a -> turn_at a outpos endpos rep out out2 -> tries_ok m t ->
  at_or_below a b -> item ∈ items b ->
  iturn_spec a (Z.to_nat outpos) (Z.to_nat endpos) (Z.to_nat rep) out out2 b (fun wk =>
    indep_item m weight weight_max x rec a outpos endpos rep left item r
      (FState out out2 (MState wk t))).
Proof.
  intros Ha Hlf Hta Ht Hbl Hin.
  destruct (turn_at_facts _ _ _ _ _ _ Hta) as ((w0 & Hc0 & Hp0) & Hlo & Hl2 & Hn).
  pose proof Hta as [Hpos Hrep Hend Hcells Hu]. pose proof (proj1 Hbl) as Hb. unfold indep_item.
  destruct (Z.leb_spec (max_devices m) item) as [Hmd|Hmd]; [apply place_none_spec; (done || lia)|].
  destruct (item_type_child Hm b item Hb Hin) as (ty & Ety & Hty0). rewrite Ety. cbn [rbind].
  destruct (Z.eqb_spec ty (i_type a)) as [->|Hty]; cbn [negb]; [by apply indep_place_spec|].
  destruct ((0 <=? item) || (max_buckets m <=? -1 - item)) eqn:Ebad; [apply place_none_spec; (done || lia)|].
  assert (item < 0) as Hneg by (zbool; lia).
  destruct (child_bucket Hm b item Hb Hin Hneg) as (b' & -> & Hb' & Eid & Hrk & _). cbn [rbind].
  eapply (iturn_keep _ _ _ _ _ _ _ (Descend b')); try done; [|apply steady_ret].
  split; [|done]. split; [done|]. right. rewrite Eid. by destruct Hbl; apply (below_child m (i_bucket a) b).
Qed.

Lemma indep_r_spec a b rep ft : iargs_ok a -> exists r, indep_r a b rep ft = Ret r.
Proof.
  intros [_ Hn]. unfold indep_r. destruct (body b); try by eexists.
  rewrite (uw_small 32) by (split; lia). destruct (Z.eqb_spec (i_numrep a) 0); [lia|]. by eexists.
Qed.

Lemma indep_turn_spec a outpos endpos rep ft left out out2 t b :
  iargs_ok a -> ileaf_ok a -> turn_at a outpos endpos rep out out2 -> tries_ok m t ->
  at_or_below a b ->
  iturn_spec a (Z.to_nat outpos) (Z.to_nat endpos) (Z.to_nat rep) out out2 b (fun wk =>
    indep_turn m weight weight_max x choose_args rec a outpos endpos rep ft left b
      (FState out out2 (MState wk t))).
Proof.
  intros Ha Hlf Hta Ht Hbl. pose proof (in_map_wf Hm b (proj1 Hbl)) as [Hsz _ _].
  destruct (turn_at_facts _ _ _ _ _ _ Hta) as ((w0 & Hc0 & Hp0) & _).
  pose proof Hta as [Hpos Hrep Hend Hcells Hu]. unfold indep_turn.
  destruct (indep_r_spec a b rep ft Ha) as (r & ->). cbn [rbind].
  destruct (Z.eqb_spec (size b) 0) as [|Hnz].
  { eapply (iturn_keep _ _ _ _ _ _ _ (Break left)); try done. apply steady_ret. }
  cbn [f_state f_out f_out2].
  destruct (do_bucket_choose_steady Hm x Hargs b r outpos t (proj1 Hbl)) as (it & Hit & Hst); [lia..|].
  destruct (indep_item_spec a outpos endpos rep left it r out out2 t b)
    as (d & v & w & t' & ? & ? & ? & ? & Hst'); try done.
  exists d, v, w, t'. split; [done|]. split; [done|]. split; [done|]. split; [done|]. by eapply steady_bind.
Qed.

(** ** The loops *)

Lemma indep_descend_spec fuel a outpos endpos rep ft left out out2 t b :
  iargs_ok a -> ileaf_ok a -> turn_at a outpos endpos rep out out2 -> tries_ok m t ->
  at_or_below a b -> (rk (id b) < fuel)%nat ->
  exists left' v w t', tries_ok m t' /\ pair_ok a v w /\ fresh (Z.to_nat outpos) (Z.to_nat endpos) v out /\
    steady m (fun wk => indep_descend m weight weight_max x choose_args rec fuel a outpos endpos rep ft left b
                          (FState out out2 (MState wk t)))
             (fun wk => (left', FState (<[Z.to_nat rep := v]> out) (put2 (Z.to_nat rep) w out2) (MState wk t'))).
Proof.
  intros Ha Hlf. revert b out2 t. induction fuel as [|fuel IH]; intros b out2 t Hta Ht Hbl Hf; [lia|].
  cbn [indep_descend].
  destruct (indep_turn_spec a outpos endpos rep ft left out out2 t b Ha Hlf Hta Ht Hbl)
    as (d & v & w & t' & Ht' & Hp & Hfr & Hd & Hst).
  destruct d as [b'|left']; [|exists left', v, w, t'; split; [done|]; split; [done|]; split; [done|];
    by eapply steady_bind; [exact Hst|apply steady_ret]].
  destruct Hd as (-> & Hbl' & Hrk). pose proof Hta as [Hpos Hrep Hend Hcells Hu].
  destruct (IH b' (put2 (Z.to_nat rep) w out2) t') as (left' & v' & w' & t'' & ? & ? & ? & Hst'); try done; [|lia|].
  { split; try done. rewrite <- (list_insert_id out (Z.to_nat rep) CRUSH_ITEM_UNDEF) by done.
    apply cells_put; (done || lia). }
  exists left', v', w', t''. split; [done|]. split; [done|]. split; [done|].
  rewrite put2_put2 in Hst'. rewrite (list_insert_id out (Z.to_nat rep) CRUSH_ITEM_UNDEF) in Hst by done.
  by eapply steady_bind.
Qed.

(** What a pass over the positions keeps. *)
Definition pass_ok a (outpos endpos : Z) (out : list Z) (out2 : option (list Z))
    (out' : list Z) (out2' : option (list Z)) : Prop :=
  cells_ok a (Z.to_nat outpos) (Z.to_nat endpos) out' out2' /\
  frame (Z.to_nat outpos) (Z.to_nat endpos) out out' /\ frame2 (Z.to_nat outpos) (Z.to_nat endpos) out2 out2'.

Lemma indep_reps_spec n fuel a outpos endpos rep ft left out out2 t :
  iargs_ok a -> ileaf_ok a -> 0 <= outpos <= rep -> rep + Z.of_nat n = endpos -> endpos < 2 ^ 31 ->
  cells_ok a (Z.to_nat outpos) (Z.to_nat endpos) out out2 -> tries_ok m t -> (D <= fuel)%nat ->
  exists left' out' out2' t', tries_ok m t' /\ pass_ok a outpos endpos out out2 out' out2' /\
    steady m (fun wk => indep_reps m weight weight_max x choose_args rec n fuel a outpos endpos rep ft left
                          (FState out out2 (MState wk t)))
             (fun wk => (left', FState out' out2' (MState wk t'))).
Proof.
  intros Ha Hlf. revert rep left out out2 t.
  induction n as [|n IH]; intros rep left out out2 t Hpos Hn Hend Hc Ht Hf; cbn [indep_reps].
  { exists left, out, out2, t. split; [done|]. split; [|apply steady_ret]. split; [done|]. split; done. }
  cbn [f_out]. pose proof (cl_len _ _ _ _ _ Hc).
  destruct (aget_in out rep) as (v & -> & Ev); [lia|]. cbn [rbind].
  destruct (Z.eqb_spec v CRUSH_ITEM_UNDEF) as [->|Hv]; cbn [negb].
  - destruct (indep_descend_spec fuel a outpos endpos rep ft left out out2 t (i_bucket a))
      as (left1 & v & w & t1 & Ht1 & Hp & Hfr & Hst); try done.
    { split; (done || lia). }
    { split; [apply Ha|by left]. }
    { pose proof (wfm_rank _ _ _ Hm _ (io_bucket _ Ha)). lia. }
    destruct (IH (rep + 1) left1 (<[Z.to_nat rep := v]> out) (put2 (Z.to_nat rep) w out2) t1)
      as (left' & out' & out2' & t' & Ht' & (Hc' & F & F2) & Hst'); try done; [lia..| |].
    { apply cells_put; (done || lia). }
    exists left', out', out2', t'. split; [done|]. split; [|by eapply steady_bind].
    split; [done|]. split; (etrans; [|done]); [apply frame_put|apply frame2_put2]; lia.
  - apply IH; (done || lia).
Qed.

Lemma indep_tries_spec n fuel a outpos endpos ft left out out2 t :
  iargs_ok a -> ileaf_ok a -> 0 <= outpos <= endpos -> endpos < 2 ^ 31 -> 0 <= ft ->
  cells_ok a (Z.to_nat outpos) (Z.to_nat endpos) out out2 -> tries_ok m t -> (D <= fuel)%nat ->
  exists ft' out' out2' t', 0 <= ft' /\ tries_ok m t' /\ pass_ok a outpos endpos out out2 out' out2' /\
    steady m (fun wk => indep_tries m weight weight_max x choose_args rec n fuel a outpos endpos ft left
                          (FState out out2 (MState wk t)))
             (fun wk => (ft', FState out' out2' (MState wk t'))).
Proof.
  intros Ha Hlf. revert ft left out out2 t.
  induction n as [|n IH]; intros ft left out out2 t Hpos Hend Hft Hc Ht Hf; cbn [indep_tries].
  2: destruct (Z.ltb_spec 0 left) as [Hl|_].
  1, 3: exists ft, out, out2, t; split; [done|]; split; [done|]; split; [|apply steady_ret]; split; [done|]; by split.
  destruct (indep_reps_spec (Z.to_nat (endpos - outpos)) fuel a outpos endpos outpos ft left out out2 t)
    as (left1 & out1 & out21 & t1 & Ht1 & (Hc1 & F1 & F21) & Hst); try done; [lia..|].
  destruct (IH (ft + 1) left1 out1 out21 t1) as (ft' & out' & out2' & t' & Hft' & Ht' & (Hc' & F & F2) & Hst'); try done; [lia|].
  exists ft', out', out2', t'. split; [done|]. split; [done|]. split; [|by eapply steady_bind].
  split; [done|]. split; by etrans.
Qed.

Definition indep_post a (outpos left : Z) (out : list Z) (out2 : option (list Z))
    (out' : list Z) (out2' : option (list Z)) : Prop :=
  pass_ok a outpos (outpos + left) out out2 out' out2' /\
  forall k, (Z.to_nat outpos <= k < Z.to_nat (outpos + left))%nat ->
    out' !! k <> Some CRUSH_ITEM_UNDEF /\ forall l, out2' = Some l -> l !! k <> Some CRUSH_ITEM_UNDEF.

Lemma indep_body_spec fuel a left outpos out out2 t :
  iargs_ok a -> ileaf_ok a -> 0 <= outpos -> 0 <= left -> outpos + left < 2 ^ 31 ->
  outpos + left <= zlen out -> len2 out2 (outpos + left) -> (out2 = None -> i_recurse_to_leaf a = false) ->
  tries_ok m t -> (D <= fuel)%nat ->
  exists out' out2' t', tries_ok m t' /\ indep_post a outpos left out out2 out' out2' /\
    steady m (fun wk => indep_body m weight weight_max x choose_args rec fuel a left outpos
                          (FState out out2 (MState wk t)))
             (fun wk => FState out' out2' (MState wk t')).
Proof.
  intros Ha Hlf Hpos Hleft Hend Hl Hl2 Hn Ht Hf. unfold indep_body. cbv zeta.
  set (n := Z.to_nat (outpos + left - outpos)).
  assert (Z.to_nat outpos + n = Z.to_nat (outpos + left))%nat as Ehi by lia.
  destruct (indep_init_spec n outpos out out2) as (out1 & out21 & E1 & P1 & P21); [lia..| |].
  { intros l E. specialize (Hl2 l E). lia. }
  rewrite Ehi in P1, P21. set (endpos := outpos + left) in *.
  assert (cells_ok a (Z.to_nat outpos) (Z.to_nat endpos) out1 out21) as Hc1.
  { eapply init_cells; try done; [lia|]. intros l E. specialize (Hl2 l E). lia. }
  destruct (indep_tries_spec (Z.to_nat (i_tries a)) fuel a outpos endpos 0 left out1 out21 t)
    as (ft & out3 & out23 & t3 & Hft & Ht3 & (Hc3 & F3 & F23) & Hst); try done; [lia..|].
  destruct (indep_final_spec n outpos out3 out23) as (out4 & out24 & E4 & P4 & P24); [lia|..].
  { pose proof (cl_len _ _ _ _ _ Hc3). lia. }
  { intros l E. pose proof (cl_len2 _ _ _ _ _ Hc3 l E). lia. }
  rewrite Ehi in P4, P24. destruct (fin_cells _ _ _ _ _ _ _ Hc3 P4 P24) as [Hc4 Hnu].
  destruct (count_try_spec m ft t3 Hft Ht3) as (t4 & Ht4 & E5).
  exists out4, out24, t4. split; [done|]. split; [split; [|done]; split; [done|]; split|].
  - etrans; [apply P1|]. etrans; [done|]. apply P4.
  - etrans; [by eapply pointwise2_frame|]. etrans; [done|]. by eapply pointwise2_frame.
  - intros wk Hwk. rewrite E1. cbn [rbind]. destruct (Hst wk Hwk) as (wk' & -> & Hwk'). cbn [rbind].
    rewrite E4. cbn [rbind f_state f_out f_out2]. rewrite E5. by exists wk'.
Qed.
End with_rec.

(** ** The call, at both depths *)

Definition ileaf_call (fuel : nat) (a' : indep_args) (left : Z) (out : list Z) (outpos : Z) (ms : mstate)
    : res (list Z * mstate) :=
  s' <~ crush_choose_indep m weight weight_max x choose_args 1 fuel a' left outpos (FState out None ms);;
  Ret (f_out s', f_state s').

Lemma ileaf_call_ok fuel : (D <= fuel)%nat -> irec_ok (ileaf_call fuel).
Proof.
  intros Hf a' l rep t Ha El Hty Hrep Hrep' Ht. unfold ileaf_call. cbn [crush_choose_indep].
  destruct (indep_body_spec
    (fun a' left out outpos ms =>
       s' <~ crush_choose_indep m weight weight_max x choose_args 0 fuel a' left outpos (FState out None ms);;
       Ret (f_out s', f_state s')) fuel a' 1 rep l None t)
    as (out' & out2' & t' & Ht' & ((Hc & F & _) & Hnu) & Hst); try done; [by intros E; congruence|lia..|].
  destruct (lookup_lt_is_Some_2 out' (Z.to_nat rep)) as [w Ew]; [destruct F as [-> _]; lia|].
  exists w, t'. split; [done|]. split.
  - destruct (cl_pair _ _ _ _ _ Hc (Z.to_nat rep) w) as (w' & _ & Hp); [lia|done|].
    destruct Hp as [[-> _]|[[-> _]|[Hi _]]]; [|by left|right; by rewrite Hty in Hi].
    by destruct (Hnu (Z.to_nat rep)) as [[] _]; [lia|].
  - assert (out' = <[Z.to_nat rep := w]> l) as <-.
    { destruct F as [L F]. apply list_eq. intros k. destruct (decide (k = Z.to_nat rep)) as [->|].
      - rewrite Ew, list_lookup_insert_eq by lia. done.
      - rewrite F, list_lookup_insert_ne by lia. done. }
    eapply steady_bind; [exact Hst|]. cbn beta iota. cbn [f_out f_state]. apply steady_ret.
Qed.

Lemma choose_indep_spec fuel a left outpos out out2 t :
  iargs_ok a -> 0 <= outpos -> 0 <= left -> outpos + left < 2 ^ 31 ->
  outpos + left <= zlen out -> len2 out2 (outpos + left) -> (out2 = None -> i_recurse_to_leaf a = false) ->
  tries_ok m t -> (D <= fuel)%nat ->
  exists out' out2' t', tries_ok m t' /\ indep_post a outpos left out out2 out' out2' /\
    steady m (fun wk => crush_choose_indep m weight weight_max x choose_args 2 fuel a left outpos
                          (FState out out2 (MState wk t)))
             (fun wk => FState out' out2' (MState wk t')).
Proof.
  intros. apply (indep_body_spec (ileaf_call fuel)); try done. intros _. by apply ileaf_call_ok.
Qed.
End indep_spec.
