(* ===== verification/CrushRule.v ===== *)
(** * [crush_do_rule]

    For a well-formed map and a rule whose arguments are within bounds: the
    rule runs to its end without a fault, it returns at most [result_max]
    results, each a device, a bucket of the map or [CRUSH_ITEM_NONE], from
    every coherent workspace with the same results.  The rules of replicated
    and of erasure-coded pools place each copy on a device of its own failure
    domain. *)

From stdpp Require Import relations.
From S2P Require Import Prelude CrushHash CrushTypes CrushLn CrushBucket CrushPerm CrushChoose CrushMapper CrushWf CrushFirstn CrushIndep.
Open Scope Z_scope.

Section rule_spec.
Context {m : crush_map} {rk : Z -> nat} {D : nat} (Hm : wf_map m rk D).
Context (Hdev : max_devices m <= CRUSH_ITEM_UNDEF).
Context {choose_args : option (list crush_choose_arg)} (Hargs : wf_args m choose_args).
Context {weight : list Z} {weight_max : Z} (Hw : 0 <= weight_max <= zlen weight).
Context (x : Z).
Context (result_max : Z) (Hmax : 0 < result_max < 2 ^ 31).

(** Bounds on the tries and on the local retries, and fuel for them. *)
Context (T L : Z) (fuel : nat) (HT : 1 <= T) (HL : 0 <= L).
Definition turns : Z := T * (Z.of_nat D + (2 * L + 0xffff) + 2) + (2 * L + 0xffff) + 1 + Z.of_nat D.
Context (Hfuel : turns < Z.min (Z.of_nat fuel) (2 ^ 31)).

(** ** Items in the working vectors *)

Definition node_ok (v : Z) : Prop :=
  v = CRUSH_ITEM_NONE \/ 0 <= v < max_devices m \/ exists b, in_map m b /\ id b = v.

(** The first [n] cells are nodes. *)
Definition nodes (n : Z) (l : list Z) : Prop :=
  forall k v, (k < Z.to_nat n)%nat -> l !! k = Some v -> node_ok v.

Lemma item_node root ty v : item_ok m weight weight_max x root ty v -> node_ok v.
Proof.
  intros (Htc & Hlt & _). destruct (Z_lt_le_dec v 0) as [Hneg|]; [|right; left; lia].
  right. right. assert (exists i, child m i v) as (i & b & Hb & _ & Hin).
  { clear -Htc. induction Htc as [? ? H|? ? ? _ _ IH]; eauto. }
  destruct (child_bucket Hm b v Hb Hin Hneg) as (b' & _ & ? & ? & _). eauto.
Qed.

Lemma nodes_le n n' l : n <= n' -> nodes n' l -> nodes n l.
Proof. intros Hle H k v Hk. apply H. lia. Qed.

(** Appending nodes from [n] on. *)
Lemma nodes_app n k l l' :
  0 <= n <= zlen l -> 0 <= k -> nodes n l -> nodes k l' -> nodes (n + k) (take (Z.to_nat n) l ++ l').
Proof.
  intros Hn Hk Hl Hl' i v Hi Ei. destruct (decide (i < Z.to_nat n)%nat) as [Hlt|Hge].
  - rewrite lookup_app_l in Ei by (rewrite length_take; lia). rewrite lookup_take_lt in Ei by done. by eapply Hl.
  - rewrite lookup_app_r in Ei by (rewrite length_take; lia).
    eapply Hl'; [|exact Ei]. rewrite length_take. lia.
Qed.

(** ** The tunables *)

Record tun_ok (rs : rstate) : Prop := TunOk {
  to_tries : 0 <= r_choose_tries rs <= T;
  to_leaf_tries : 0 <= r_choose_leaf_tries rs <= T;
  to_local : 0 <= r_choose_local_retries rs <= L;
  to_fallback : 0 <= r_choose_local_fallback_retries rs <= L;
  to_vary : 0 <= r_vary_r rs <= 32;
  to_stable : 0 <= r_stable rs < 2 ^ 31;
}.

(** The arguments of the call for bucket [b]. *)
Definition firstn_call (rs : rstate) (b : crush_bucket) (leaf : bool) (numrep type' : Z) : firstn_args :=
  let recurse_tries :=
    if negb (r_choose_leaf_tries rs =? 0) then r_choose_leaf_tries rs
    else if negb (chooseleaf_descend_once m =? 0) then 1 else r_choose_tries rs in
  FirstnArgs b numrep type' (u32 (r_choose_tries rs)) (u32 recurse_tries)
    (u32 (r_choose_local_retries rs)) (u32 (r_choose_local_fallback_retries rs))
    leaf (u32 (r_vary_r rs)) (u32 (r_stable rs)) 0.

Definition indep_call (rs : rstate) (b : crush_bucket) (leaf : bool) (numrep type' : Z) : indep_args :=
  let recurse_tries := if negb (r_choose_leaf_tries rs =? 0) then r_choose_leaf_tries rs else 1 in
  IndepArgs b numrep type' (u32 (r_choose_tries rs)) (u32 recurse_tries) leaf 0.

Lemma budget_turns t clr clf a :
  0 <= t <= T -> 0 <= clr <= L -> 0 <= clf <= L ->
  f_local_retries a = clr -> f_local_fallback_retries a = clf ->
  budget_of (D := D) t a <= turns.
Proof. intros ? ? ? E1 E2. unfold budget_of, turns, span. rewrite E1, E2. nia. Qed.

Lemma firstn_call_ok rs b leaf numrep type' :
  tun_ok rs -> in_map m b -> call_ok (m := m) (D := D) fuel (firstn_call rs b leaf numrep type').
Proof.
  intros [? ? ? ? ? ?] Hb. assert (T < 2 ^ 31 /\ L < 2 ^ 31) as [? ?] by (unfold turns in Hfuel; nia).
  unfold firstn_call. set (rt := if negb (r_choose_leaf_tries rs =? 0) then _ else _).
  assert (0 <= rt <= T) by (subst rt; repeat case_bool; lia).
  rewrite !(uw_small 32) by (split; lia). set (a := FirstnArgs _ _ _ _ _ _ _ _ _ _ _).
  assert (forall t, 0 <= t <= T -> budget_of (D := D) t a <= turns) as Hb' 
    by (intros; by apply (budget_turns _ (r_choose_local_retries rs) (r_choose_local_fallback_retries rs))).
  split.
  - split; cbn; try done; try lia. unfold budget. cbn. specialize (Hb' (r_choose_tries rs)). lia.
  - unfold budget. cbn. specialize (Hb' (r_choose_tries rs)). lia.
  - intros _. cbn. specialize (Hb' rt). lia.
Qed.

(** ** One bucket of the working vector *)

(** What the call for [b] leaves in the first [n] cells of the suffixes. *)
Definition firstn_cells (b : crush_bucket) (leaf : bool) (type' n : Z) (o c : list Z) : Prop :=
  seg_ok (item_ok m weight weight_max x (id b) type') 0 (Z.to_nat n) o /\
  (leaf = true ->
     seg_ok (item_ok m weight weight_max x (id b) 0) 0 (Z.to_nat n) c /\
     forall j it v, (j < Z.to_nat n)%nat -> o !! j = Some it -> c !! j = Some v ->
       v = it \/ tc (child m) it v).

Definition indep_cells (a : indep_args) (n : Z) (o c : list Z) : Prop :=
  cells_ok (m := m) (weight := weight) (weight_max := weight_max) x a 0 (Z.to_nat n) o (Some c) /\
  forall k, (k < Z.to_nat n)%nat -> o !! k <> Some CRUSH_ITEM_UNDEF /\ c !! k <> Some CRUSH_ITEM_UNDEF.

Definition call_post (firstn leaf : bool) (numrep type' : Z) (b : crush_bucket) (rs : rstate)
    (room n : Z) (o c : list Z) : Prop :=
  if firstn then n <= Z.min numrep room /\ firstn_cells b leaf type' n o c
  else n = Z.min numrep room /\ indep_cells (indep_call rs b leaf numrep type') n o c.

Lemma firstn_bucket_spec leaf numrep type' b osize o c rs t :
  tun_ok rs -> in_map m b -> 0 < numrep < 2 ^ 31 -> 0 <= osize <= result_max ->
  zlen o = result_max -> zlen c = result_max -> tries_ok m t ->
  exists n o' c' t', tries_ok m t' /\ 0 <= n /\ n <= result_max - osize /\
    zlen o' = result_max - osize /\ zlen c' = result_max - osize /\
    call_post true leaf numrep type' b rs (result_max - osize) n o' c' /\
    steady m (fun wk => rule_choose_bucket m weight weight_max x choose_args fuel true leaf numrep type'
                          result_max b osize o c rs (MState wk t))
             (fun wk => (osize + n, take (Z.to_nat osize) o ++ o', take (Z.to_nat osize) c ++ c', MState wk t')).
Proof.
  intros Htun Hb Hn Hos Ho Hc Ht.
  destruct (choose_firstn_spec Hm Hargs Hw x fuel (firstn_call rs b leaf numrep type') 0 (result_max - osize)
              (drop (Z.to_nat osize) o) (Some (drop (Z.to_nat osize) c)) t)
    as (n & o' & c' & t' & Ht' & (Hk & Hlen & _ & Hseg & Hlv) & Hst); [by apply firstn_call_ok| |done|].
  { split; try done; try lia; [rewrite length_drop; lia|]. intros l [= <-] _. rewrite length_drop.
    split; [lia|]. by rewrite !take_0. }
  destruct c' as [c'|]; [|done]. destruct Hlv as (Hlc & _ & Hlf). rewrite length_drop in Hlen, Hlc.
  exists n, o', c', t'. split; [done|]. split; [lia|]. split; [lia|]. split; [lia|]. split; [lia|]. split.
  - split; [cbn in Hk; destruct (_ =? 0) in Hk; lia|]. split; [done|]. intros El. destruct (Hlf El) as [? Hrel].
    split; [done|]. intros j it v Hj. apply Hrel. lia.
  - unfold rule_choose_bucket. cbv zeta. eapply steady_bind; [exact Hst|]. apply steady_ret.
Qed.

Lemma indep_bucket_spec leaf numrep type' b osize o c rs t :
  tun_ok rs -> in_map m b -> 0 < numrep < 2 ^ 31 -> 0 <= osize <= result_max ->
  zlen o = result_max -> zlen c = result_max -> tries_ok m t ->
  exists n o' c' t', tries_ok m t' /\ 0 <= n /\ n <= result_max - osize /\
    zlen o' = result_max - osize /\ zlen c' = result_max - osize /\
    call_post false leaf numrep type' b rs (result_max - osize) n o' c' /\
    steady m (fun wk => rule_choose_bucket m weight weight_max x choose_args fuel false leaf numrep type'
                          result_max b osize o c rs (MState wk t))
             (fun wk => (osize + n, take (Z.to_nat osize) o ++ o', take (Z.to_nat osize) c ++ c', MState wk t')).
Proof.
  intros Htun Hb Hn Hos Ho Hc Ht. set (n := Z.min numrep (result_max - osize)).
  assert ((if numrep <? result_max - osize then numrep else result_max - osize) = n) as En
    by (unfold n; case_bool; zbool; lia).
  destruct (choose_indep_spec Hm Hdev Hargs Hw x fuel (indep_call rs b leaf numrep type') n 0
              (drop (Z.to_nat osize) o) (Some (drop (Z.to_nat osize) c)) t)
    as (o' & c' & t' & Ht' & ((Hcells & F & F2) & Hnu) & Hst); try done; try lia.
  { rewrite length_drop. lia. }
  { intros l [= <-]. rewrite length_drop. lia. }
  { unfold turns in Hfuel. nia. }
  destruct c' as [c'|]; [|done]. destruct F as [Lo _], F2 as [Lc _]. rewrite length_drop in Lo, Lc.
  exists n, o', c', t'. split; [done|]. split; [lia|]. split; [lia|]. split; [lia|]. split; [lia|]. split.
  - split; [done|]. split; [done|]. intros k Hk. destruct (Hnu k) as [? Hnu2]; [lia|]. split; [done|by apply Hnu2].
  - unfold rule_choose_bucket. cbv zeta. rewrite En. eapply steady_bind; [exact Hst|]. apply steady_ret.
Qed.

Lemma call_post_nodes firstn leaf numrep type' b rs room n o c :
  call_post firstn leaf numrep type' b rs room n o c -> nodes n o /\ (leaf = true -> nodes n c).
Proof.
  destruct firstn.
  - intros (_ & Ho & Hc). split.
    + intros k v Hk Ek. eapply item_node, Ho; [|exact Ek]. lia.
    + intros El k v Hk Ek. eapply item_node, (Hc El); [|exact Ek]. lia.
  - intros (_ & Hcells & Hnu). assert (forall k v, (k < Z.to_nat n)%nat -> o !! k = Some v ->
      exists w, c !! k = Some w /\ pair_ok (m := m) (weight := weight) (weight_max := weight_max) x
        (indep_call rs b leaf numrep type') v w) as Hp.
    { intros k v Hk Ek. destruct (cl_pair _ _ _ _ _ _ Hcells k v) as (w & Hcw & Hp); [lia|done|].
      exists w. split; [by apply Hcw|done]. }
    split.
    + intros k v Hk Ek. destruct (Hp k v Hk Ek) as (w & _ & [[-> _]|[[-> _]|[Hi _]]]); [|by left|by eapply item_node].
      by destruct (Hnu k Hk) as [[] _].
    + intros El k w Hk Ek. destruct (lookup_lt_is_Some_2 o k) as [v Ev].
      { pose proof (cl_len _ _ _ _ _ _ Hcells). lia. }
      destruct (Hp k v Hk Ev) as (w' & Ew & Hpw). assert (w' = w) as -> by congruence.
      destruct Hpw as [[-> _]|[[-> Hnb]|[_ Hi]]]; [by destruct (Hnu k Hk) as [[] _]| |by eapply item_node, Hi].
      destruct (Hnb El) as [[-> |[-> |?]] _]; [|by left|by right; left].
      by destruct (Hnu k Hk) as [_ []].
Qed.

(** ** A choose step *)

Lemma bucket_spec firstn leaf numrep type' b osize o c rs t :
  tun_ok rs -> in_map m b -> 0 < numrep < 2 ^ 31 -> 0 <= osize <= result_max ->
  zlen o = result_max -> zlen c = result_max -> tries_ok m t ->
  exists n o' c' t', tries_ok m t' /\ 0 <= n /\ n <= result_max - osize /\
    zlen o' = result_max - osize /\ zlen c' = result_max - osize /\
    call_post firstn leaf numrep type' b rs (result_max - osize) n o' c' /\
    steady m (fun wk => rule_choose_bucket m weight weight_max x choose_args fuel firstn leaf numrep type'
                          result_max b osize o c rs (MState wk t))
             (fun wk => (osize + n, take (Z.to_nat osize) o ++ o', take (Z.to_nat osize) c ++ c', MState wk t')).
Proof. destruct firstn; [apply firstn_bucket_spec|apply indep_bucket_spec]. Qed.

(** The output vectors of the step, [osize] cells of which are filled. *)
Record outs_ok (leaf : bool) (osize : Z) (o c : list Z) : Prop := OutsOk {
  oo_size : 0 <= osize <= result_max;
  oo_o : zlen o = result_max;
  oo_c : zlen c = result_max;
  oo_nodes : nodes osize o;
  oo_leaves : leaf = true -> nodes osize c;
}.

Lemma outs_app leaf osize n o c o' c' :
  outs_ok leaf osize o c -> 0 <= n <= result_max - osize ->
  zlen o' = result_max - osize -> zlen c' = result_max - osize ->
  nodes n o' -> (leaf = true -> nodes n c') ->
  outs_ok leaf (osize + n) (take (Z.to_nat osize) o ++ o') (take (Z.to_nat osize) c ++ c').
Proof.
  intros [Hs Ho Hc Hno Hnc] Hn Ho' Hc' Hn1 Hn2.
  split; [lia|rewrite length_app, length_take; lia..| |].
  - apply nodes_app; (done || lia).
  - intros El. apply nodes_app; (lia || auto).
Qed.

Lemma choose_loop_spec n firstn leaf a1 type' i osize o c rs t :
  tun_ok rs -> a1 < 2 ^ 31 -> 0 <= i -> i + Z.of_nat n <= zlen (r_w rs) -> nodes (i + Z.of_nat n) (r_w rs) ->
  outs_ok leaf osize o c -> tries_ok m t ->
  exists osize' o' c' t', tries_ok m t' /\ outs_ok leaf osize' o' c' /\
    steady m (fun wk => rule_choose_loop m weight weight_max x choose_args n fuel firstn leaf a1 type'
                          result_max i osize o c rs (MState wk t))
             (fun wk => (osize', o', c', MState wk t')).
Proof.
  intros Htun Ha1. revert i osize o c t.
  induction n as [|n IH]; intros i osize o c t Hi Hlen Hnodes Hout Ht; cbn [rule_choose_loop]; cbv zeta.
  { exists osize, o, c, t. split; [done|]. split; [done|apply steady_ret]. }
  assert (exists osize' o' c' t', tries_ok m t' /\ outs_ok leaf osize' o' c' /\
    steady m (fun wk => rule_choose_loop m weight weight_max x choose_args n fuel firstn leaf a1 type'
                          result_max (i + 1) osize o c rs (MState wk t))
             (fun wk => (osize', o', c', MState wk t'))) as Hskip.
  { apply IH; try done; try lia. by replace (i + 1 + Z.of_nat n) with (i + Z.of_nat (S n)) by lia. }
  set (numrep := if a1 <=? 0 then a1 + result_max else a1).
  destruct ((a1 <=? 0) && (numrep <=? 0)) eqn:Enr; [done|].
  assert (0 < numrep < 2 ^ 31) as Hnr by (subst numrep; zbool; destruct (Z.leb_spec a1 0); lia).
  destruct (aget_in (r_w rs) i) as (v & -> & Ev); [lia|]. cbn [rbind].
  destruct ((-1 - v <? 0) || (max_buckets m <=? -1 - v)) eqn:Ebno; [done|].
  assert (v < 0) as Hneg by (zbool; lia).
  destruct (Hnodes (Z.to_nat i) v) as [->|[?|(b & Hb & Eb)]]; [lia|done|done|lia|].
  destruct (in_map_index Hm b Hb) as [Ebk Hr]. rewrite Eb in Ebk, Hr.
  assert (bucket_at m (-1 - v) = Ret b) as ->
    by (unfold bucket_at; rewrite (proj2 (aget_Ret _ _ _) (conj (proj1 Hr) Ebk)); done).
  cbn [rbind]. pose proof Hout as [Hos Ho Hc _ _].
  destruct (bucket_spec firstn leaf numrep type' b osize o c rs t)
    as (k & o1 & c1 & t1 & Ht1 & Hk & Hk' & Ho1 & Hc1 & Hpost & Hst); try done.
  destruct (call_post_nodes _ _ _ _ _ _ _ _ _ _ Hpost) as [Hn1 Hn2].
  destruct (IH (i + 1) (osize + k) (take (Z.to_nat osize) o ++ o1) (take (Z.to_nat osize) c ++ c1) t1)
    as (osize' & o' & c' & t' & ? & ? & Hst'); try done; try lia.
  { by replace (i + 1 + Z.of_nat n) with (i + Z.of_nat (S n)) by lia. }
  { by apply outs_app. }
  exists osize', o', c', t'. split; [done|]. split; [done|]. by eapply steady_bind.
Qed.

(** ** The steps *)

(** The local variables, with the workspace left open. *)
Definition at_work (rs : rstate) (wk : crush_work) : rstate :=
  RState (r_w rs) (r_wsize rs) (r_o rs) (r_c rs) (r_result rs) (r_result_len rs)
    (r_choose_tries rs) (r_choose_leaf_tries rs) (r_choose_local_retries rs)
    (r_choose_local_fallback_retries rs) (r_vary_r rs) (r_stable rs)
    (MState wk (mtries (r_mstate rs))).

Record rule_inv (rs : rstate) : Prop := RuleInv {
  ri_w : zlen (r_w rs) = result_max;
  ri_o : zlen (r_o rs) = result_max;
  ri_c : zlen (r_c rs) = result_max;
  ri_wsize : 0 <= r_wsize rs <= result_max;
  ri_nodes : nodes (r_wsize rs) (r_w rs);
  ri_result : result_max <= zlen (r_result rs);
  ri_len : 0 <= r_result_len rs <= result_max;
  ri_results : nodes (r_result_len rs) (r_result rs);
  ri_tun : tun_ok rs;
  ri_tries : tries_ok m (mtries (r_mstate rs));
}.

(** Arguments within bounds. *)
Definition step_ok (st : crush_rule_step) : Prop :=
  match decode_op (op st) with
  | OpSetChooseTries | OpSetChooseleafTries => arg1 st <= T
  | OpSetChooseLocalTries | OpSetChooseLocalFallbackTries => arg1 st <= L
  | OpSetChooseleafVaryR => arg1 st <= 32
  | OpSetChooseleafStable | OpChoose _ _ => arg1 st < 2 ^ 31
  | _ => True
  end.

Lemma emit_spec n i w result rl :
  0 <= i -> i + Z.of_nat n <= zlen w -> nodes (i + Z.of_nat n) w ->
  0 <= rl <= result_max -> result_max <= zlen result -> nodes rl result ->
  exists result' rl', rule_emit n i result_max w result rl = Ret (result', rl') /\
    rl' = Z.min (rl + Z.of_nat n) result_max /\ length result' = length result /\ nodes rl' result' /\
    take (Z.to_nat rl) result' = take (Z.to_nat rl) result /\
    forall k, (Z.to_nat rl <= k < Z.to_nat rl')%nat ->
      result' !! k = w !! (Z.to_nat i + (k - Z.to_nat rl))%nat.
Proof.
  revert i result rl. induction n as [|n IH]; intros i result rl Hi Hn Hw0 Hrl Hres Hnr; cbn [rule_emit].
  { exists result, rl. split; [done|]. split; [lia|]. split; [done|]. split; [done|]. split; [done|]. lia. }
  destruct (Z.ltb_spec rl result_max) as [Hlt|Hge]; cycle 1.
  { exists result, rl. split; [done|]. split; [lia|]. split; [done|]. split; [done|]. split; [done|]. lia. }
  destruct (aget_in w i) as (v & -> & Ev); [lia|]. cbn [rbind]. rewrite aset_in by lia. cbn [rbind].
  destruct (IH (i + 1) (<[Z.to_nat rl := v]> result) (rl + 1))
    as (r' & rl' & -> & -> & Hlen & Hnr' & Htk & Hcp); try lia.
  { by replace (i + 1 + Z.of_nat n) with (i + Z.of_nat (S n)) by lia. }
  { rewrite length_insert. lia. }
  { intros k u Hk Ek. destruct (decide (k = Z.to_nat rl)) as [->|].
    - rewrite list_lookup_insert_eq in Ek by lia. injection Ek as <-. apply (Hw0 (Z.to_nat i)); [lia|done].
    - rewrite list_lookup_insert_ne in Ek by done. eapply Hnr; [|exact Ek]. lia. }
  rewrite length_insert in Hlen. replace (Z.to_nat (rl + 1)) with (S (Z.to_nat rl)) in * by lia.
  destruct (take_S_eq _ _ _ v Htk) as [Ek Htk']; [apply list_lookup_insert_eq; lia|].
  rewrite take_insert_ge in Htk' by lia.
  eexists _, _. split; [done|]. split; [lia|]. split; [done|].
  split; [done|]. split; [done|]. intros k Hk. destruct (decide (k = Z.to_nat rl)) as [->|].
  - rewrite Ek, Nat.sub_diag, Nat.add_0_r. done.
  - rewrite Hcp by lia. f_equal. lia.
Qed.

Lemma loop_at_work n firstn leaf a1 type' i osize o c rs wk ms :
  rule_choose_loop m weight weight_max x choose_args n fuel firstn leaf a1 type'
    result_max i osize o c (at_work rs wk) ms =
  rule_choose_loop m weight weight_max x choose_args n fuel firstn leaf a1 type'
    result_max i osize o c rs ms.
Proof.
  revert i osize o c ms. induction n as [|n IH]; intros; cbn [rule_choose_loop]; [done|]. cbv zeta.
  rewrite IH. destruct (_ && _); [done|]. change (r_w (at_work rs wk)) with (r_w rs).
  destruct (aget (r_w rs) i) as [v| |]; cbn [rbind]; [|done..]. destruct (_ || _); [done|].
  destruct (bucket_at m (-1 - v)) as [b| |]; cbn [rbind]; [|done..].
  change (rule_choose_bucket m weight weight_max x choose_args fuel firstn leaf (if a1 <=? 0 then a1 + result_max else a1) type'
            result_max b osize o c (at_work rs wk) ms) with
    (rule_choose_bucket m weight weight_max x choose_args fuel firstn leaf (if a1 <=? 0 then a1 + result_max else a1) type'
            result_max b osize o c rs ms).
  destruct (rule_choose_bucket _ _ _ _ _ _ _ _ _ _ _ _ _ _ _ _ _) as [[[[? ?] ?] ?]| |]; cbn [rbind]; [apply IH|done..].
Qed.

Lemma choose_step_spec firstn leaf a1 type' rs :
  rule_inv rs -> a1 < 2 ^ 31 ->
  exists rs', rule_inv rs' /\
    steady m (fun wk => rule_choose m weight weight_max x choose_args fuel firstn leaf a1 type'
                          result_max (at_work rs wk)) (at_work rs').
Proof.
  intros Hinv Ha1. pose proof Hinv as [Hlw Hlo Hlc Hws Hnd Hres Hrl Hrn Htun Ht]. unfold rule_choose.
  change (r_wsize (at_work rs _)) with (r_wsize rs).
  destruct (Z.eqb_spec (r_wsize rs) 0) as [|Hnz]; [exists rs; split; [done|apply steady_ret]|].
  destruct (choose_loop_spec (Z.to_nat (r_wsize rs)) firstn leaf a1 type' 0 0 (r_o rs) (r_c rs) rs
              (mtries (r_mstate rs))) as (os & o & c & t & Ht' & Hout & Hst); try done; try lia.
  { by replace (0 + Z.of_nat (Z.to_nat (r_wsize rs))) with (r_wsize rs) by lia. }
  { split; try done; try lia; intros; intros k v Hk; lia. }
  destruct Hout as [Hos Ho Hc Hno Hnc].
  set (o' := if leaf then take (Z.to_nat os) c ++ drop (Z.to_nat os) o else o).
  exists (RState o' os (r_w rs) c (r_result rs) (r_result_len rs) (r_choose_tries rs) (r_choose_leaf_tries rs)
            (r_choose_local_retries rs) (r_choose_local_fallback_retries rs) (r_vary_r rs) (r_stable rs)
            (MState [] t)). split.
  - split; cbn; try done.
    + subst o'. destruct leaf; [|done]. rewrite length_app, length_take, length_drop. lia.
    + subst o'. destruct leaf; [|done]. intros k v Hk Ek.
      rewrite lookup_app_l, lookup_take_lt in Ek by (rewrite ?length_take; lia). by eapply Hnc.
    + by destruct Htun; split.
  - intros wk Hwk. rewrite loop_at_work. cbn [r_o r_c r_mstate at_work].
    destruct (Hst wk Hwk) as (wk' & -> & Hwk'). cbn [rbind]. by exists wk'.
Qed.

Lemma take_ok a1 :
  exists ok, (if (0 <=? a1) && (a1 <? max_devices m) then Ret true
     else if (0 <=? -1 - a1) && (-1 - a1 <? max_buckets m) then
       ob <~ aget (buckets m) (-1 - a1);;
       Ret (match ob with Some _ => true | None => false end)
     else Ret false) = Ret ok /\ (ok = true -> node_ok a1).
Proof.
  destruct ((0 <=? a1) && (a1 <? max_devices m)) eqn:E1.
  { exists true. split; [done|]. intros _. right. left. zbool. lia. }
  destruct ((0 <=? -1 - a1) && (-1 - a1 <? max_buckets m)) eqn:E2; [|by exists false].
  pose proof (wfm_len _ _ _ Hm). destruct (aget_in (buckets m) (-1 - a1)) as (ob & -> & Eb); [zbool; lia|].
  cbn [rbind]. destruct ob as [b|]; [|by exists false]. exists true. split; [done|]. intros _. right. right.
  exists b. split; [by eexists|]. destruct (wfm_bucket _ _ _ Hm _ _ Eb) as (_ & -> & _). zbool. lia.
Qed.

Lemma set_step_spec (cond : bool) rs ct clt clr clfr vr sb :
  rule_inv rs ->
  (cond = true -> 0 <= ct <= T /\ 0 <= clt <= T /\ 0 <= clr <= L /\ 0 <= clfr <= L /\ 0 <= vr <= 32 /\
     0 <= sb < 2 ^ 31) ->
  exists rs', rule_inv rs' /\ r_result_len rs' = r_result_len rs /\
    steady m (fun wk => Ret (if cond then set_tunables (at_work rs wk) ct clt clr clfr vr sb else at_work rs wk))
             (at_work rs').
Proof.
  intros [? ? ? ? ? ? ? ? ? ?] Hc. exists (if cond then set_tunables rs ct clt clr clfr vr sb else rs).
  destruct cond; [|split; [by split|]; split; [done|apply steady_ret]].
  split; [|split; [done|apply steady_ret]]. split; cbn; try done. destruct (Hc eq_refl) as (? & ? & ? & ? & ? & ?). by split.
Qed.

(** Steps that set a tunable, and steps that are ignored. *)
Definition is_set (st : crush_rule_step) : Prop :=
  match decode_op (op st) with OpTake | OpChoose _ _ | OpEmit => False | _ => True end.

Lemma set_rule_step_spec st rs :
  rule_inv rs -> step_ok st -> is_set st ->
  exists rs', rule_inv rs' /\ r_result_len rs' = r_result_len rs /\
    steady m (fun wk => rule_step m weight weight_max x choose_args fuel result_max st (at_work rs wk)) (at_work rs').
Proof.
  intros Hinv Hst Hset. pose proof (ri_tun _ Hinv) as Htun. unfold rule_step, step_ok, is_set in *. cbv zeta.
  destruct (decode_op (op st)) as [ | | | | | | |firstn leaf| | ]; try done.
  1: apply (set_step_spec (0 <? arg1 st) rs (arg1 st) (r_choose_leaf_tries rs) (r_choose_local_retries rs) (r_choose_local_fallback_retries rs) (r_vary_r rs) (r_stable rs)); [done|].
  2: apply (set_step_spec (0 <? arg1 st) rs (r_choose_tries rs) (arg1 st) (r_choose_local_retries rs) (r_choose_local_fallback_retries rs) (r_vary_r rs) (r_stable rs)); [done|].
  3: apply (set_step_spec (0 <=? arg1 st) rs (r_choose_tries rs) (r_choose_leaf_tries rs) (arg1 st) (r_choose_local_fallback_retries rs) (r_vary_r rs) (r_stable rs)); [done|].
  4: apply (set_step_spec (0 <=? arg1 st) rs (r_choose_tries rs) (r_choose_leaf_tries rs) (r_choose_local_retries rs) (arg1 st) (r_vary_r rs) (r_stable rs)); [done|].
  5: apply (set_step_spec (0 <=? arg1 st) rs (r_choose_tries rs) (r_choose_leaf_tries rs) (r_choose_local_retries rs) (r_choose_local_fallback_retries rs) (arg1 st) (r_stable rs)); [done|].
  6: apply (set_step_spec (0 <=? arg1 st) rs (r_choose_tries rs) (r_choose_leaf_tries rs) (r_choose_local_retries rs) (r_choose_local_fallback_retries rs) (r_vary_r rs) (arg1 st)); [done|].
  1-6: intros Hc; destruct Htun; zbool; lia.
  exists rs. split; [done|]. split; [done|]. apply steady_ret.
Qed.

Lemma emit_step_spec rs :
  rule_inv rs ->
  exists rs', rule_inv rs' /\
    steady m (fun wk =>
      '(result, n) <~ rule_emit (Z.to_nat (r_wsize rs)) 0 result_max (r_w rs) (r_result rs) (r_result_len rs);;
      Ret (set_result (at_work rs wk) result n)) (at_work rs').
Proof.
  intros [Hlw Hlo Hlc Hws Hnd Hres Hrl Hrn Htun Ht].
  destruct (emit_spec (Z.to_nat (r_wsize rs)) 0 (r_w rs) (r_result rs) (r_result_len rs))
    as (res & n & -> & Hn & Hlen & Hnd' & _); try done; try lia.
  { by replace (0 + Z.of_nat (Z.to_nat (r_wsize rs))) with (r_wsize rs) by lia. }
  exists (set_result rs res n). split; [|cbn [rbind]; apply steady_ret].
  split; cbn; try done; try lia; [intros k v Hk; lia|by destruct Htun; split].
Qed.

Lemma rule_step_spec st rs :
  rule_inv rs -> step_ok st ->
  exists rs', rule_inv rs' /\
    steady m (fun wk => rule_step m weight weight_max x choose_args fuel result_max st (at_work rs wk)) (at_work rs').
Proof.
  intros Hinv Hst. pose proof Hinv as [Hlw Hlo Hlc Hws Hnd Hres Hrl Hrn Htun Ht].
  unfold rule_step, step_ok in *. cbv zeta.
  destruct (decode_op (op st)) as [ | | | | | | |firstn leaf| | ] eqn:Eop.
  2-7: destruct (set_rule_step_spec st rs Hinv) as (rs' & ? & _ & Hs); [by unfold step_ok; rewrite Eop|by unfold is_set; rewrite Eop|];
    unfold rule_step in Hs; rewrite Eop in Hs; by exists rs'.
  - destruct (take_ok (arg1 st)) as (ok & -> & Hok). cbn [rbind].
    destruct ok; [|by exists rs; split; [done|apply steady_ret]].
    exists (set_w rs (<[0%nat := arg1 st]> (r_w rs)) 1). split.
    + split; cbn; try done; try lia; [by rewrite length_insert| |by destruct Htun; split].
      intros k v Hk Ek. assert (k = 0%nat) as -> by lia.
      rewrite list_lookup_insert_eq in Ek by lia. injection Ek as <-. by apply Hok.
    + change (r_w (at_work rs _)) with (r_w rs). intros wk Hwk. rewrite aset_in by lia. by exists wk.
  - by apply choose_step_spec.
  - by apply emit_step_spec.
  - exists rs. split; [done|apply steady_ret].
Qed.

Lemma rule_steps_spec n i sts rs :
  0 <= i -> i + Z.of_nat n <= zlen sts -> Forall step_ok sts -> rule_inv rs ->
  exists rs', rule_inv rs' /\
    steady m (fun wk => rule_steps m weight weight_max x choose_args n fuel result_max i sts (at_work rs wk))
             (at_work rs').
Proof.
  revert i rs. induction n as [|n IH]; intros i rs Hi Hn Hall Hinv; cbn [rule_steps].
  { exists rs. split; [done|apply steady_ret]. }
  destruct (aget_in sts i) as (st & -> & Est); [lia|]. cbn [rbind].
  destruct (rule_step_spec st rs Hinv) as (rs1 & Hinv1 & Hst1).
  { eapply Forall_lookup_1; done. }
  destruct (IH (i + 1) rs1) as (rs2 & Hinv2 & Hst2); try done; try lia.
  exists rs2. split; [done|]. by eapply steady_bind.
Qed.

(** ** The rule *)

(** The map's own tunables are within bounds. *)
Record tunables_ok : Prop := TunablesOk {
  tk_total : 0 <= choose_total_tries m < T;
  tk_local : 0 <= choose_local_tries m <= L;
  tk_fallback : 0 <= choose_local_fallback_tries m <= L;
  tk_vary : 0 <= chooseleaf_vary_r m <= 32;
  tk_stable : 0 <= chooseleaf_stable m < 2 ^ 31;
}.

Lemma rule_start_inv a b c result ms :
  tunables_ok -> zlen a = result_max -> zlen b = result_max -> zlen c = result_max ->
  result_max <= zlen result -> tries_ok m (mtries ms) ->
  rule_inv (rule_start m a b c result ms).
Proof.
  intros [? ? ? ? ?] Ha Hb Hc Hr Ht.
  assert (T < 2 ^ 31 /\ L < 2 ^ 31) as [? ?] by (unfold turns in Hfuel; nia).
  split; cbn; try done; try lia; [intros k v Hk; lia..|].
  split; cbn; rewrite ?(sw_small 32) by (split; lia); lia.
Qed.

Lemma do_rule_spec ruleno rule a b c result t :
  tunables_ok -> is_s 32 ruleno -> 0 <= ruleno < max_rules m -> rules m !! Z.to_nat ruleno = Some (Some rule) ->
  len rule = zlen (steps rule) -> Forall step_ok (steps rule) ->
  zlen a = result_max -> zlen b = result_max -> zlen c = result_max -> result_max <= zlen result ->
  tries_ok m t ->
  exists n result' t', 0 <= n <= result_max /\ nodes n result' /\ result_max <= zlen result' /\ tries_ok m t' /\
    steady m (fun wk => crush_do_rule m weight weight_max x choose_args fuel ruleno result result_max a b c (MState wk t))
             (fun wk => (n, result', MState wk t')).
Proof.
  intros Htun Hs Hrn Hrule Hlen Hsteps Ha Hb Hc Hr Ht. unfold crush_do_rule.
  rewrite (uw_small 32) by (destruct Hs; split; lia). destruct (Z.leb_spec (max_rules m) ruleno); [lia|].
  rewrite (proj2 (aget_Ret _ _ _) (conj (proj1 Hrn) Hrule)). cbn [rbind deref].
  destruct (rule_steps_spec (Z.to_nat (len rule)) 0 (steps rule) (rule_start m a b c result (MState [] t)))
    as (rs & Hinv & Hst); try done; try lia; [by apply rule_start_inv|].
  exists (r_result_len rs), (r_result rs), (mtries (r_mstate rs)).
  destruct Hinv. split; [done|]. split; [done|]. split; [done|]. split; [done|].
  eapply steady_bind; [exact Hst|]. apply steady_ret.
Qed.

(** ** Rules that take, choose and emit once *)

Lemma lookup_prefix (n : nat) (l l' : list Z) k : (k < n <= length l)%nat -> (take n l ++ l') !! k = l !! k.
Proof. intros Hk. rewrite lookup_app_l by (rewrite length_take; lia). apply lookup_take_lt. lia. Qed.

Lemma take_step_spec b a2 rs :
  rule_inv rs -> in_map m b ->
  exists rs', rule_inv rs' /\ r_result_len rs' = r_result_len rs /\ r_w rs' !! 0%nat = Some (id b) /\ r_wsize rs' = 1 /\
    steady m (fun wk => rule_step m weight weight_max x choose_args fuel result_max
                          (CrushStep CRUSH_RULE_TAKE (id b) a2) (at_work rs wk)) (at_work rs').
Proof.
  intros Hinv Hb. destruct Hinv as [Hlw Hlo Hlc Hws Hnd Hres Hrl Hrn Htun Ht].
  destruct (in_map_index Hm b Hb) as [Eb Hr].
  exists (set_w rs (<[0%nat := id b]> (r_w rs)) 1). split; [|split; [done|split; [|split; [done|]]]].
  - split; cbn; try done; try lia; [by rewrite length_insert| |by destruct Htun; split].
    intros k v Hk Ek. assert (k = 0%nat) as -> by lia.
    rewrite list_lookup_insert_eq in Ek by lia. injection Ek as <-. right. right. by exists b.
  - apply list_lookup_insert_eq. lia.
  - intros wk Hwk. exists wk. split; [|done]. unfold rule_step. cbn [decode_op op arg1 Z.eqb]. cbv zeta.
    change (decode_op CRUSH_RULE_TAKE) with OpTake. cbn iota.
    rewrite (proj2 (andb_false_iff _ _)) by (left; apply Z.leb_gt; lia).
    rewrite (proj2 (andb_true_iff _ _)) by (split; [apply Z.leb_le|apply Z.ltb_lt]; lia).
    rewrite (proj2 (aget_Ret _ _ _) (conj (proj1 Hr) Eb)). cbn [rbind].
    change (r_w (at_work rs wk)) with (r_w rs). rewrite aset_in by lia. done.
Qed.

(** A choose step on a single bucket. *)
Lemma choose_one_spec firstn leaf a1 type' b rs (numrep := if a1 <=? 0 then a1 + result_max else a1) :
  rule_inv rs -> r_w rs !! 0%nat = Some (id b) -> r_wsize rs = 1 -> in_map m b -> a1 < 2 ^ 31 -> 0 < numrep ->
  exists rs' n o c, rule_inv rs' /\ r_result_len rs' = r_result_len rs /\ r_wsize rs' = n /\ 0 <= n <= result_max /\
    call_post firstn leaf numrep type' b rs result_max n o c /\
    (forall k, (k < Z.to_nat n)%nat -> r_w rs' !! k = (if leaf then c else o) !! k) /\
    zlen o = result_max /\ zlen c = result_max /\
    steady m (fun wk => rule_choose m weight weight_max x choose_args fuel firstn leaf a1 type'
                          result_max (at_work rs wk)) (at_work rs').
Proof.
  intros Hinv Ew Hws Hb Ha1 Hnr. destruct Hinv as [Hlw Hlo Hlc _ Hnd Hres Hrl Hrn Htun Ht].
  destruct (in_map_index Hm b Hb) as [Eb Hr].
  destruct (bucket_spec firstn leaf numrep type' b 0 (r_o rs) (r_c rs) rs (mtries (r_mstate rs)))
    as (n & o & c & t & Ht' & Hn & Hn' & Ho & Hc & Hpost & Hst); try done; try lia.
  { subst numrep. split; [done|]. destruct (Z.leb_spec a1 0); lia. }
  rewrite Z.sub_0_r in Hpost, Hn', Ho, Hc. destruct (call_post_nodes _ _ _ _ _ _ _ _ _ _ Hpost) as [Hno Hnc].
  set (o' := if leaf then take (Z.to_nat n) c ++ drop (Z.to_nat n) o else o).
  exists (RState o' n (r_w rs) c (r_result rs) (r_result_len rs) (r_choose_tries rs) (r_choose_leaf_tries rs)
            (r_choose_local_retries rs) (r_choose_local_fallback_retries rs) (r_vary_r rs) (r_stable rs)
            (MState [] t)), n, o, c.
  assert (forall k, (k < Z.to_nat n)%nat -> o' !! k = (if leaf then c else o) !! k) as Ho'
    by (intros k Hk; subst o'; destruct leaf; [apply lookup_prefix; lia|done]).
  split; [|do 6 (split; [done|])].
  - split; cbn; try done.
    + subst o'. destruct leaf; [|done]. rewrite length_app, length_take, length_drop. lia.
    + intros k v Hk. rewrite Ho' by done. destruct leaf; [by apply Hnc|by apply Hno].
    + by destruct Htun; split.
  - split; [done|]. intros wk Hwk. unfold rule_choose. change (r_wsize (at_work rs wk)) with (r_wsize rs). rewrite Hws.
    change (1 =? 0) with false. cbn iota. change (Z.to_nat 1) with 1%nat. rewrite loop_at_work.
    cbn [rule_choose_loop]. cbv zeta. fold numrep.
    rewrite (proj2 (andb_false_iff _ _)) by (right; apply Z.leb_gt; lia).
    rewrite (proj2 (aget_Ret (r_w rs) 0 (id b)) (conj (Z.le_refl 0) Ew)). cbn [rbind].
    rewrite (proj2 (orb_false_iff _ _)) by (split; [apply Z.ltb_ge|apply Z.leb_gt]; lia).
    unfold bucket_at. rewrite (proj2 (aget_Ret _ _ _) (conj (proj1 Hr) Eb)). cbn [rbind deref r_o r_c r_mstate at_work].
    destruct (Hst wk Hwk) as (wk' & -> & Hwk'). cbn [rbind]. by exists wk'.
Qed.

Lemma rule_steps_add n k i sts rs :
  rule_steps m weight weight_max x choose_args (n + k) fuel result_max i sts rs =
  rbind (rule_steps m weight weight_max x choose_args n fuel result_max i sts rs)
    (rule_steps m weight weight_max x choose_args k fuel result_max (i + Z.of_nat n) sts).
Proof.
  revert i rs. induction n as [|n IH]; intros i rs; cbn [rule_steps Nat.add rbind].
  { by rewrite Z.add_0_r. }
  destruct (aget sts i) as [st| |]; cbn [rbind]; [|done..].
  destruct (rule_step _ _ _ _ _ _ _ _ _) as [rs'| |]; cbn [rbind]; [|done..].
  rewrite IH. by replace (i + 1 + Z.of_nat n) with (i + Z.of_nat (S n)) by lia.
Qed.

Lemma set_steps_spec n i sts rs :
  0 <= i -> i + Z.of_nat n <= zlen sts ->
  (forall j st, (Z.to_nat i <= j < Z.to_nat i + n)%nat -> sts !! j = Some st -> step_ok st /\ is_set st) -> rule_inv rs ->
  exists rs', rule_inv rs' /\ r_result_len rs' = r_result_len rs /\
    steady m (fun wk => rule_steps m weight weight_max x choose_args n fuel result_max i sts (at_work rs wk))
             (at_work rs').
Proof.
  revert i rs. induction n as [|n IH]; intros i rs Hi Hn Hall Hinv; cbn [rule_steps].
  { exists rs. split; [done|]. split; [done|apply steady_ret]. }
  destruct (aget_in sts i) as (st & -> & Est); [lia|]. cbn [rbind].
  destruct (Hall (Z.to_nat i) st) as [Hok Hset]; [lia|done|].
  destruct (set_rule_step_spec st rs Hinv Hok Hset) as (rs1 & Hinv1 & E1 & Hst1).
  destruct (IH (i + 1) rs1) as (rs2 & Hinv2 & E2 & Hst2); try done; try lia.
  { intros j st' Hj. apply Hall. lia. }
  exists rs2. split; [done|]. split; [congruence|]. by eapply steady_bind.
Qed.

Lemma three_steps (sets : list crush_rule_step) s1 s2 s3 rs :
  rule_steps m weight weight_max x choose_args 3 fuel result_max (Z.of_nat (length sets)) (sets ++ [s1; s2; s3]) rs =
  rbind (rule_step m weight weight_max x choose_args fuel result_max s1 rs) (fun rs =>
  rbind (rule_step m weight weight_max x choose_args fuel result_max s2 rs) (fun rs =>
  rule_step m weight weight_max x choose_args fuel result_max s3 rs)).
Proof.
  assert (forall j st, [s1; s2; s3] !! j = Some st ->
    aget (sets ++ [s1; s2; s3]) (Z.of_nat (length sets) + Z.of_nat j) = Ret st) as Hget.
  { intros j st Ej. apply aget_Ret. split; [lia|]. rewrite lookup_app_r by lia. rewrite <- Ej. f_equal. lia. }
  pose proof (Hget 0%nat s1 eq_refl) as G0. pose proof (Hget 1%nat s2 eq_refl) as G1. pose proof (Hget 2%nat s3 eq_refl) as G2.
  rewrite Z.add_0_r in G0. change (Z.of_nat 1) with 1 in G1.
  replace (Z.of_nat (length sets) + Z.of_nat 2) with (Z.of_nat (length sets) + 1 + 1) in G2 by lia.
  cbn [rule_steps]. rewrite G0, G1, G2. cbn [rbind].
  destruct (rule_step _ _ _ _ _ _ _ s1 rs) as [rs1| |]; cbn [rbind]; [|done..].
  destruct (rule_step _ _ _ _ _ _ _ s2 rs1) as [rs2| |]; cbn [rbind]; [|done..].
  by destruct (rule_step _ _ _ _ _ _ _ s3 rs2).
Qed.

(** A rule that sets tunables, takes a bucket, chooses once and emits. *)
Record one_choose_rule (rule : crush_rule) (firstn leaf : bool) (b : crush_bucket) (a1 type' : Z) : Prop := OneChoose {
  oc_len : len rule = zlen (steps rule);
  oc_steps : exists sets a2 cop e1 e2,
    steps rule = sets ++ [CrushStep CRUSH_RULE_TAKE (id b) a2; CrushStep cop a1 type'; CrushStep CRUSH_RULE_EMIT e1 e2] /\
    decode_op cop = OpChoose firstn leaf /\ Forall (fun st => step_ok st /\ is_set st) sets;
}.

Lemma one_choose_spec rule firstn leaf root a1 type' ruleno a b c result t
    (numrep := if a1 <=? 0 then a1 + result_max else a1) :
  one_choose_rule rule firstn leaf root a1 type' ->
  tunables_ok -> is_s 32 ruleno -> 0 <= ruleno < max_rules m -> rules m !! Z.to_nat ruleno = Some (Some rule) ->
  in_map m root -> a1 < 2 ^ 31 -> 0 < numrep ->
  zlen a = result_max -> zlen b = result_max -> zlen c = result_max -> result_max <= zlen result -> tries_ok m t ->
  exists rs n o c' result' t', 0 <= n <= result_max /\ tries_ok m t' /\
    call_post firstn leaf numrep type' root rs result_max n o c' /\ zlen o = result_max /\ zlen c' = result_max /\
    (forall k, (k < Z.to_nat n)%nat -> result' !! k = (if leaf then c' else o) !! k) /\
    steady m (fun wk => crush_do_rule m weight weight_max x choose_args fuel ruleno result result_max a b c (MState wk t))
             (fun wk => (n, result', MState wk t')).
Proof.
  intros [Hlen (sets & a2 & cop & e1 & e2 & Est & Ecop & Hsets)] Htun Hs Hrn Hrule Hroot Ha1 Hnr Ha Hb Hc Hr Ht.
  unfold crush_do_rule. rewrite (uw_small 32) by (destruct Hs; split; lia).
  destruct (Z.leb_spec (max_rules m) ruleno); [lia|].
  rewrite (proj2 (aget_Ret _ _ _) (conj (proj1 Hrn) Hrule)). cbn [rbind deref].
  replace (Z.to_nat (len rule)) with (length sets + 3)%nat by (rewrite Hlen, Est, length_app; cbn; lia).
  set (rs0 := rule_start m a b c result (MState [] t)).
  destruct (set_steps_spec (length sets) 0 (steps rule) rs0) as (rs1 & Hinv1 & E1 & Hst1); try lia.
  { rewrite Est, length_app. cbn. lia. }
  { intros j st Hj Ej. rewrite Est, lookup_app_l in Ej by lia. by eapply (Forall_lookup_1 _ _ _ _ Hsets). }
  { by apply rule_start_inv. }
  destruct (take_step_spec root a2 rs1 Hinv1 Hroot) as (rs2 & Hinv2 & E2 & Ew & Ews & Hst2).
  destruct (choose_one_spec firstn leaf a1 type' root rs2)
    as (rs3 & n & o & c' & Hinv3 & E3 & Ews3 & Hn & Hpost & Hw3 & Ho & Hc' & Hst3); try done.
  pose proof Hinv3 as [Hlw3 _ _ _ Hnd3 Hres3 _ _ _ Ht3]. rewrite E2, E1 in E3. change (r_result_len rs0) with 0 in E3.
  destruct (emit_spec (Z.to_nat (r_wsize rs3)) 0 (r_w rs3) (r_result rs3) 0)
    as (res & n' & Eemit & En' & _ & _ & _ & Hcp); try done; try lia.
  { by replace (0 + Z.of_nat (Z.to_nat (r_wsize rs3))) with (r_wsize rs3) by lia. }
  { intros k v Hk. lia. }
  assert (n' = n) as -> by lia.
  exists rs2, n, o, c', res, (mtries (r_mstate rs3)). do 5 (split; [done|]). split.
  - intros k Hk. rewrite Hcp by lia. rewrite <- Hw3 by done. f_equal. lia.
  - apply (steady_bind m _ (at_work (set_result rs3 res n))); [|apply steady_ret].
    change (steady m (fun wk => rule_steps m weight weight_max x choose_args (length sets + 3) fuel result_max 0
      (steps rule) (at_work rs0 wk)) (at_work (set_result rs3 res n))).
    intros wk Hwk. rewrite rule_steps_add. revert wk Hwk. apply (steady_bind m _ _ _ _ Hst1).
    intros wk Hwk. rewrite Z.add_0_l, Est, three_steps. revert wk Hwk.
    apply (steady_bind m _ _ _ _ Hst2). apply (steady_bind m _ (at_work rs3)).
    + intros wk Hwk. unfold rule_step. cbn [op arg1 arg2]. rewrite Ecop. by apply Hst3.
    + intros wk Hwk. unfold rule_step. change (decode_op (op (CrushStep CRUSH_RULE_EMIT e1 e2))) with OpEmit. cbn iota.
      cbn [r_wsize r_w r_result r_result_len at_work]. rewrite E3, Eemit. by exists wk.
Qed.
End rule_spec.
