(* ===== verification/CrushPlace.v ===== *)
(** * Placement by rules

    The results of the two usual rules, for every coherent workspace: what a
    caller of [crush_do_rule] relies on. *)

From stdpp Require Import relations.
From S2P Require Import Prelude CrushHash CrushTypes CrushLn CrushBucket CrushPerm CrushChoose CrushStraw2 CrushMapper CrushWf CrushFirstn CrushIndep CrushRule.
Open Scope Z_scope.

(** ** The conditions of a placement computation *)

(** A well-formed map of rank below [D], weights for [weight_max] devices,
    tunables of at most [T] tries and [L] local retries, and fuel for them. *)
Record placement_env (m : crush_map) (rk : Z -> nat) (D : nat) (choose_args : option (list crush_choose_arg))
    (weight : list Z) (weight_max result_max T L : Z) (fuel : nat) : Prop := PlacementEnv {
  pe_map : wf_map m rk D;
  pe_devices : max_devices m <= CRUSH_ITEM_UNDEF;
  pe_args : wf_args m choose_args;
  pe_weight : 0 <= weight_max <= zlen weight;
  pe_max : 0 < result_max < 2 ^ 31;
  pe_tries : 1 <= T;
  pe_local : 0 <= L;
  pe_fuel : turns (D := D) T L < Z.min (Z.of_nat fuel) (2 ^ 31);
  pe_tunables : tunables_ok (m := m) T L;
}.

(** The rule [ruleno] of the map. *)
Definition rule_at (m : crush_map) (ruleno : Z) (rule : crush_rule) : Prop :=
  is_s 32 ruleno /\ 0 <= ruleno < max_rules m /\ rules m !! Z.to_nat ruleno = Some (Some rule).

(** The scratch vectors and the result have room for [result_max]. *)
Definition room (result_max : Z) (a b c result : list Z) : Prop :=
  zlen a = result_max /\ zlen b = result_max /\ zlen c = result_max /\ result_max <= zlen result.

(** The devices [devs] and, position by position, the failure domains they
    lie in: distinct buckets of type [ty] below [root]; a device is its own
    domain when [ty] is 0. *)
Definition spread (m : crush_map) (weight : list Z) (weight_max x : Z) (root : crush_bucket) (ty : Z)
    (devs domains : list Z) : Prop :=
  NoDup devs /\ NoDup domains /\
  Forall2 (fun d dom =>
    item_ok m weight weight_max x (id root) 0 d /\ item_ok m weight weight_max x (id root) ty dom /\
    (d = dom \/ tc (child m) dom d)) devs domains.

Lemma seg_ok_NoDup P n (l : list Z) : (n <= length l)%nat -> seg_ok P 0 n l -> NoDup (take n l).
Proof.
  intros Hn Hs. apply NoDup_alt. intros i j v Ei Ej.
  apply lookup_take_Some in Ei as [Ei Hi]. apply lookup_take_Some in Ej as [Ej Hj].
  destruct (lt_eq_lt_dec i j) as [[Hlt|]|Hlt]; [|done|]; exfalso.
  - destruct (Hs j v ltac:(lia) Ej) as [_ Hno]. apply Hno.
    apply list_elem_of_lookup_2 with i. by rewrite lookup_take_lt.
  - destruct (Hs i v ltac:(lia) Ei) as [_ Hno]. apply Hno.
    apply list_elem_of_lookup_2 with j. by rewrite lookup_take_lt.
Qed.

Lemma firstn_spread m weight weight_max x b ty n o c :
  firstn_cells (m := m) (weight := weight) (weight_max := weight_max) x b true ty n o c ->
  n <= zlen o -> n <= zlen c ->
  spread m weight weight_max x b ty (take (Z.to_nat n) c) (take (Z.to_nat n) o).
Proof.
  intros [Ho Hc] Hlo Hlc. destruct (Hc eq_refl) as [Hcs Hrel].
  split; [by eapply seg_ok_NoDup; [lia|]|]. split; [by eapply seg_ok_NoDup; [lia|]|].
  apply Forall2_same_length_lookup. split; [rewrite !length_take; lia|].
  intros k d dom Ed Edom. apply lookup_take_Some in Ed as [Ed Hk]. apply lookup_take_Some in Edom as [Edom _].
  split; [by apply (Hcs k); [lia|]|]. split; [by apply (Ho k); [lia|]|]. by apply (Hrel k).
Qed.

(** A rule runs to its end, whatever coherent workspace it is given. *)
Lemma do_rule_result m rk D choose_args weight weight_max result_max T L fuel x ruleno rule a b c result t :
  placement_env m rk D choose_args weight weight_max result_max T L fuel ->
  rule_at m ruleno rule -> len rule = zlen (steps rule) -> Forall (step_ok T L) (steps rule) ->
  room result_max a b c result -> tries_ok m t ->
  exists n result' t', 0 <= n <= result_max /\ nodes (m := m) n result' /\
    forall wk, work_ok m wk -> exists wk', work_ok m wk' /\
      crush_do_rule m weight weight_max x choose_args fuel ruleno result result_max a b c (MState wk t)
        = Ret (n, result', MState wk' t').
Proof.
  intros [Hm Hdev Hargs Hw Hmax HT HL Hf Htun] (? & ? & ?) ? ? (? & ? & ? & ?) ?.
  destruct (do_rule_spec Hm Hdev Hargs Hw x result_max Hmax T L fuel HT HL Hf ruleno rule a b c result t)
    as (n & res & t' & Hn & Hnd & _ & _ & Hst); try done.
  exists n, res, t'. split; [done|]. split; [done|]. intros wk Hwk.
  destruct (Hst wk Hwk) as (wk' & E & Hwk'). eauto.
Qed.

(** The rule of a replicated pool. *)
Lemma replicated_result m rk D choose_args weight weight_max result_max T L fuel x ruleno rule root a1 ty
    a b c result t (numrep := if a1 <=? 0 then a1 + result_max else a1) :
  placement_env m rk D choose_args weight weight_max result_max T L fuel ->
  rule_at m ruleno rule -> one_choose_rule T L rule true true root a1 ty -> in_map m root ->
  a1 < 2 ^ 31 -> 0 < numrep -> room result_max a b c result -> tries_ok m t ->
  exists n result' t' domains, 0 <= n <= Z.min numrep result_max /\
    spread m weight weight_max x root ty (take (Z.to_nat n) result') domains /\
    zlen domains = n /\
    forall wk, work_ok m wk -> exists wk', work_ok m wk' /\
      crush_do_rule m weight weight_max x choose_args fuel ruleno result result_max a b c (MState wk t)
        = Ret (n, result', MState wk' t').
Proof.
  intros [Hm Hdev Hargs Hw Hmax HT HL Hf Htun] (? & ? & ?) Hrule Hroot Ha1 Hnr (? & ? & ? & ?) Ht.
  destruct (one_choose_spec Hm Hdev Hargs Hw x result_max Hmax T L fuel HT HL Hf rule true true root a1 ty
              ruleno a b c result t) as (rs & n & o & c' & res & t' & Hn & _ & [Hle Hcells] & Ho & Hc & Hres & Hst);
    try done.
  exists n, res, t', (take (Z.to_nat n) o). fold numrep in Hle. split; [lia|].
  assert (take (Z.to_nat n) res = take (Z.to_nat n) c') as ->.
  { apply list_eq. intros k. destruct (decide (k < Z.to_nat n)%nat) as [Hk|Hk].
    - rewrite !lookup_take_lt by done. by apply Hres.
    - by rewrite !lookup_take_ge by lia. }
  split; [by apply firstn_spread; [|lia..]|]. split; [rewrite length_take; lia|].
  intros wk Hwk. destruct (Hst wk Hwk) as (wk' & E & Hwk'). eauto.
Qed.

(** The rule of an erasure-coded pool. *)
Lemma erasure_result m rk D choose_args weight weight_max result_max T L fuel x ruleno rule root a1 ty
    a b c result t (numrep := if a1 <=? 0 then a1 + result_max else a1) :
  placement_env m rk D choose_args weight weight_max result_max T L fuel ->
  rule_at m ruleno rule -> one_choose_rule T L rule false true root a1 ty -> in_map m root -> ty <> 0 ->
  a1 < 2 ^ 31 -> 0 < numrep -> room result_max a b c result -> tries_ok m t ->
  exists (result' : list Z) t' (domains : list Z),
    (forall k, (k < Z.to_nat (Z.min numrep result_max))%nat -> exists d dom,
       result' !! k = Some d /\ domains !! k = Some dom /\
       ((d = CRUSH_ITEM_NONE /\ dom = CRUSH_ITEM_NONE) \/
        (item_ok m weight weight_max x (id root) 0 d /\ item_ok m weight weight_max x (id root) ty dom /\
         tc (child m) dom d /\
         forall j, (j < Z.to_nat (Z.min numrep result_max))%nat -> domains !! j = Some dom -> j = k))) /\
    forall wk, work_ok m wk -> exists wk', work_ok m wk' /\
      crush_do_rule m weight weight_max x choose_args fuel ruleno result result_max a b c (MState wk t)
        = Ret (Z.min numrep result_max, result', MState wk' t').
Proof.
  intros [Hm Hdev Hargs Hw Hmax HT HL Hf Htun] (? & ? & ?) Hrule Hroot Hty Ha1 Hnr (? & ? & ? & ?) Ht.
  destruct (one_choose_spec Hm Hdev Hargs Hw x result_max Hmax T L fuel HT HL Hf rule false true root a1 ty
              ruleno a b c result t) as (rs & n & o & c' & res & t' & Hn & _ & [Hle [Hcells Hnu]] & Ho & Hc & Hres & Hst);
    try done.
  fold numrep in Hle. rewrite <- Hle. exists res, t', o. split; [|intros wk Hwk; destruct (Hst wk Hwk) as (wk' & E & Hwk'); eauto].
  intros k Hk. destruct (lookup_lt_is_Some_2 o k) as [v Ev]; [lia|].
  destruct (cl_pair _ _ _ _ _ _ Hcells k v ltac:(lia) Ev) as (w & Hw0 & Hp). specialize (Hw0 c' eq_refl).
  exists w, v. split; [by rewrite Hres|]. split; [done|]. destruct Hp as [[-> _]|[[-> Hl]|[Hi Hl]]].
  - by destruct (Hnu k Hk) as [[] _].
  - left. by destruct (Hl eq_refl) as [_ ->].
  - right. destruct (Hl eq_refl) as [Hiw Hrel]. split; [done|]. split; [done|]. split.
    + destruct Hrel as [->|]; [|done]. destruct Hi as (_ & _ & Et & _), Hiw as (_ & _ & Et' & _). cbn in Et.
      rewrite Et in Et'. injection Et' as Et'. done.
    + intros j Hj Ej. destruct (cl_dist _ _ _ _ _ _ Hcells j k v ltac:(lia) ltac:(lia) Ej Ev) as [E|[E|E]]; [..|done].
      all: destruct Hi as (_ & Hlt & _); unfold CRUSH_ITEM_UNDEF, CRUSH_ITEM_NONE in *; lia.
Qed.

