(* ===== verification/CrushBuilder.v ===== *)
(** * Building CRUSH maps (src/src/crush/builder.c)

    One definition per function: maps, rules, the makers of the five bucket
    layouts, and the operations that add, remove, adjust and reweight items.
    A function that writes through a pointer returns the new value with its
    return code.  The parameters stand for what C leaves open: [alloc k n]
    says whether the [k]-th allocation of a call, of [n] bytes, succeeds;
    [junk] is the content of uninitialised memory; [oob] is what a read one
    past the end of an array gives ([Fault] in the strict reading).  Double
    precision arithmetic is an interface, [DoubleOps]. *)

From S2P Require Import Prelude CrushHash CrushTypes CrushBucket CrushMapper.

(** ** Error codes *)

Definition ENOENT : Z := 2.
Definition ENOMEM : Z := 12.
Definition EEXIST : Z := 17.
Definition EINVAL : Z := 22.
Definition ENOSPC : Z := 28.
Definition ERANGE : Z := 34.

(** ** Double precision *)

(** The operations on [double] that [crush_calc_straw] uses; [d_to_u32] is the
    conversion of the assignment to a [__u32]. *)
Class DoubleOps := {
  double : Type;
  d_of_Z : Z -> double;
  d_add : double -> double -> double;
  d_sub : double -> double -> double;
  d_mul : double -> double -> double;
  d_div : double -> double -> double;
  d_pow : double -> double -> double;
  d_to_u32 : double -> Z;
}.

(** ** Checks for safe arithmetic *)

Definition crush_addition_is_unsafe (a b : Z) : bool := u32 (-1) - u32 b <? u32 a.

Definition crush_multiplication_is_unsafe (a b : Z) : bool :=
  if u32 a =? 0 then false
  else if u32 b =? 0 then true
  else u32 (-1) / u32 b <? u32 a.

(** ** Tunables *)

Definition set_buckets (m : crush_map) (bs : list (option crush_bucket)) (mb : Z) : crush_map :=
  CrushMap bs (rules m) mb (max_rules m) (max_devices m) (choose_local_tries m)
    (choose_local_fallback_tries m) (choose_total_tries m) (chooseleaf_descend_once m)
    (chooseleaf_vary_r m) (chooseleaf_stable m) (working_size m) (straw_calc_version m)
    (allowed_bucket_algs m).

Definition set_rules (m : crush_map) (rs : list (option crush_rule)) (mr : Z) : crush_map :=
  CrushMap (buckets m) rs (max_buckets m) mr (max_devices m) (choose_local_tries m)
    (choose_local_fallback_tries m) (choose_total_tries m) (chooseleaf_descend_once m)
    (chooseleaf_vary_r m) (chooseleaf_stable m) (working_size m) (straw_calc_version m)
    (allowed_bucket_algs m).

Definition set_sizes (m : crush_map) (md ws : Z) : crush_map :=
  CrushMap (buckets m) (rules m) (max_buckets m) (max_rules m) md (choose_local_tries m)
    (choose_local_fallback_tries m) (choose_total_tries m) (chooseleaf_descend_once m)
    (chooseleaf_vary_r m) (chooseleaf_stable m) ws (straw_calc_version m)
    (allowed_bucket_algs m).

Definition CRUSH_LEGACY_ALLOWED_BUCKET_ALGS : Z :=
  Z.lor (Z.lor (Z.shiftl 1 CRUSH_BUCKET_UNIFORM) (Z.shiftl 1 CRUSH_BUCKET_LIST))
        (Z.shiftl 1 CRUSH_BUCKET_STRAW).

Definition set_legacy_crush_map (m : crush_map) : crush_map :=
  CrushMap (buckets m) (rules m) (max_buckets m) (max_rules m) (max_devices m)
    2 5 19 0 0 0 (working_size m) 0 CRUSH_LEGACY_ALLOWED_BUCKET_ALGS.

Definition set_optimal_crush_map (m : crush_map) : crush_map :=
  CrushMap (buckets m) (rules m) (max_buckets m) (max_rules m) (max_devices m)
    0 0 50 1 1 1 (working_size m) (straw_calc_version m)
    (Z.lor (Z.lor (Z.lor (Z.shiftl 1 CRUSH_BUCKET_UNIFORM) (Z.shiftl 1 CRUSH_BUCKET_LIST))
                  (Z.shiftl 1 CRUSH_BUCKET_STRAW)) (Z.shiftl 1 CRUSH_BUCKET_STRAW2)).

(** A map after [memset(m, 0, sizeof( *m))]. *)
Definition zero_map : crush_map := CrushMap [] [] 0 0 0 0 0 0 0 0 0 0 0 0.

(** ** Finalize *)

(** [for (i=0; i<size; i++) if (items[i] >= max_devices) max_devices = items[i]+1] *)
Fixpoint max_item (n : nat) (i : Z) (its : list Z) (md : Z) : res Z :=
  match n with
  | O => Ret md
  | S n =>
      it <~ aget its i;;
      max_item n (i + 1) its (if md <=? it then s32 (it + 1) else md)
  end.

Fixpoint finalize_loop (n : nat) (b : Z) (m : crush_map) (md ws : Z) : res (Z * Z) :=
  match n with
  | O => Ret (md, ws)
  | S n =>
      ob <~ aget (buckets m) b;;
      match ob with
      | None => finalize_loop n (b + 1) m md ws
      | Some bk =>
          md <~ max_item (Z.to_nat (size bk)) 0 (items bk) md;;
          finalize_loop n (b + 1) m md
            (u64 (u64 (ws + sizeof_crush_work_bucket) + size bk * sizeof_u32))
      end
  end.

Definition crush_finalize (m : crush_map) : res crush_map :=
  '(md, ws) <~ finalize_loop (Z.to_nat (max_buckets m)) 0 m 0
                 (u64 (sizeof_crush_work + max_buckets m * sizeof_pointer));;
  Ret (set_sizes m md ws).

Section builder.
Context `{DoubleOps} (alloc : Z -> Z -> bool) (junk : Z) (oob : res Z).

Definition crush_create : option crush_map :=
  if alloc 0 72 then Some (set_optimal_crush_map zero_map) else None.

(** ** Rules *)

(** [for (r=0; r < max_rules; r++) if (rules[r] == 0) break;] *)
Fixpoint first_free {A} (n : nat) (r : Z) (l : list (option A)) : res Z :=
  match n with
  | O => Ret r
  | S n =>
      o <~ aget l r;;
      match o with None => Ret r | Some _ => first_free n (r + 1) l end
  end.

(** [realloc] of an array of [oldsize] pointers and [memset] of its new part. *)
Definition grow {A} (oldsize n : Z) (l : list (option A)) : res (list (option A)) :=
  _ <~ rassert (zlen l =? oldsize);;
  Ret (l ++ replicate (Z.to_nat (n - oldsize)) None).

Definition crush_add_rule (m : crush_map) (rule : crush_rule) (ruleno : Z)
    : res (Z * crush_map) :=
  r <~ (if ruleno <? 0 then
          r <~ first_free (Z.to_nat (max_rules m)) 0 (rules m);;
          _ <~ rassert (r <? CRUSH_MAX_RULES);;
          Ret r
        else Ret ruleno);;
  if max_rules m <=? r then
    if CRUSH_MAX_RULES <? max_rules m + 1 then Ret (- ENOSPC, m) else
    let m1 := set_rules m (rules m) (r + 1) in
    if alloc 0 (u64 ((r + 1) * sizeof_pointer)) then
      rs <~ grow (max_rules m) (r + 1) (rules m);;
      rs <~ aset rs r (Some rule);;
      Ret (r, set_rules m rs (r + 1))
    else Ret (- ENOMEM, m1)
  else
    rs <~ aset (rules m) r (Some rule);;
    Ret (r, set_rules m rs (max_rules m)).

(** The steps of a new rule are not initialised. *)
Definition crush_make_rule (len' ruleset' type' minsize maxsize : Z) : option crush_rule :=
  if alloc 0 (8 + len' * 12) then
    Some (CrushRule (u32 len') (CrushMask (u8 ruleset') (u8 type') (u8 minsize) (u8 maxsize))
            (replicate (Z.to_nat len') (CrushStep junk junk junk)))
  else None.

Definition crush_rule_set_step (rule : crush_rule) (n op' arg1' arg2' : Z) : res crush_rule :=
  _ <~ rassert (u32 n <? len rule);;
  sts <~ aset (steps rule) n (CrushStep (u32 op') arg1' arg2');;
  Ret (CrushRule (len rule) (mask rule) sts).

(** ** Buckets in the map *)

Definition crush_get_next_bucket_id (m : crush_map) : res Z :=
  pos <~ first_free (Z.to_nat (max_buckets m)) 0 (buckets m);;
  Ret (-1 - pos).

Definition set_id (b : crush_bucket) (i : Z) : crush_bucket :=
  CrushBucket i (type b) (hash b) (weight b) (size b) (items b) (body b).

(** [while (pos >= map->max_buckets)]: the map, and whether memory ran out. *)
Fixpoint expand_buckets (fuel : nat) (k pos : Z) (m : crush_map) : res (crush_map * bool) :=
  if max_buckets m <=? pos then
    match fuel with
    | O => NoFuel
    | S fuel =>
        let mb := if max_buckets m =? 0 then 8 else s32 (max_buckets m * 2) in
        if alloc k (u64 (mb * sizeof_pointer))
        then
          bs <~ grow (max_buckets m) mb (buckets m);;
          expand_buckets fuel (k + 1) pos (set_buckets m bs mb)
        else Ret (set_buckets m (buckets m) mb, true)
    end
  else Ret (m, false).

(** The return code, the id stored through [idout], and the map. *)
Definition crush_add_bucket (m : crush_map) (id' : Z) (b : crush_bucket)
    : res (Z * Z * crush_map) :=
  id' <~ (if id' =? 0 then crush_get_next_bucket_id m else Ret id');;
  let pos := -1 - id' in
  '(m, nomem) <~ expand_buckets 32 0 pos m;;
  if (nomem : bool) then Ret (- ENOMEM, 0, m) else
  ob <~ aget (buckets m) pos;;
  match ob with
  | Some _ => Ret (- EEXIST, 0, m)
  | None =>
      bs <~ aset (buckets m) pos (Some (set_id b id'));;
      Ret (0, id', set_buckets m bs (max_buckets m))
  end.

Definition crush_remove_bucket (m : crush_map) (b : crush_bucket) : res (Z * crush_map) :=
  let pos := -1 - id b in
  _ <~ rassert (pos <? max_buckets m);;
  bs <~ aset (buckets m) pos None;;
  Ret (0, set_buckets m bs (max_buckets m)).

(** ** Making buckets *)

(** [for (i=0; i<size; i++) items'[i] = items[i];] *)
Fixpoint copy (n : nat) (i : Z) (l : list Z) : res (list Z) :=
  match n with
  | O => Ret []
  | S n =>
      v <~ aget l i;;
      vs <~ copy n (i + 1) l;;
      Ret (v :: vs)
  end.

Definition sizeof_uniform : Z := 32.
Definition sizeof_list : Z := 40.
Definition sizeof_tree : Z := 40.
Definition sizeof_straw : Z := 40.
Definition sizeof_straw2 : Z := 32.

(** A bucket as the makers return it: no id yet. *)
Definition new_bucket (hash' type' weight' size' : Z) (its : list Z) (bd : bucket_body) : crush_bucket :=
  CrushBucket 0 (u16 type') (u8 hash') weight' (u32 size') its bd.

Definition crush_make_uniform_bucket (hash' type' size' : Z) (its : list Z) (item_weight : Z)
    : res (option crush_bucket) :=
  if negb (alloc 0 sizeof_uniform) then Ret None else
  if crush_multiplication_is_unsafe size' item_weight then Ret None else
  if negb (alloc 1 (sizeof_u32 * size')) then Ret None else
  its <~ copy (Z.to_nat size') 0 its;;
  Ret (Some (new_bucket hash' type' (u32 (size' * item_weight)) size' its (BUniform (u32 item_weight)))).

(** The loop of [crush_make_list_bucket]: the stored items, weights and sums,
    and the total; [None] on an unsafe addition. *)
Fixpoint list_fill (n : nat) (i w : Z) (its ws : list Z) : res (option (list Z * list Z * list Z * Z)) :=
  match n with
  | O => Ret (Some ([], [], [], w))
  | S n =>
      it <~ aget its i;;
      wi <~ aget ws i;;
      if crush_addition_is_unsafe w wi then Ret None else
      let w := s32 (w + wi) in
      rest <~ list_fill n (i + 1) w its ws;;
      Ret (match rest with
           | None => None
           | Some (l1, l2, l3, w') => Some (it :: l1, u32 wi :: l2, u32 w :: l3, w')
           end)
  end.

Definition crush_make_list_bucket (hash' type' size' : Z) (its ws : list Z) : res (option crush_bucket) :=
  if negb (alloc 0 sizeof_list) then Ret None else
  if negb (alloc 1 (sizeof_u32 * size')) then Ret None else
  if negb (alloc 2 (sizeof_u32 * size')) then Ret None else
  if negb (alloc 3 (sizeof_u32 * size')) then Ret None else
  o <~ list_fill (Z.to_nat size') 0 0 its ws;;
  Ret (match o with
       | None => None
       | Some (l1, l2, l3, w) => Some (new_bucket hash' type' (u32 w) size' l1 (BList l2 l3))
       end).

(** Tree arithmetic; [height] is the function of mapper.c, which builder.c
    repeats. *)
Definition on_right (n h : Z) : bool := negb (Z.land n (Z.shiftl 1 (h + 1)) =? 0).

Definition parent (n : Z) : res Z :=
  h <~ height n;;
  Ret (if on_right n h then n - Z.shiftl 1 h else n + Z.shiftl 1 h).

Fixpoint depth_loop (fuel : nat) (t depth : Z) : Z :=
  match fuel with
  | O => depth
  | S fuel => if t =? 0 then depth else depth_loop fuel (Z.shiftr t 1) (depth + 1)
  end.

(** [calc_depth]; 31 halvings empty a non-negative [int]. *)
Definition calc_depth (size' : Z) : Z := if size' =? 0 then 0 else depth_loop 31 (size' - 1) 1.

(** [for (j=1; j<depth; j++)]: add [w] to the ancestors of [node]; [None] on
    an unsafe addition, with the weights so far.  [n] is [depth - j]. *)
Fixpoint add_up (n : nat) (node w : Z) (nw : list Z) : res (list Z * bool) :=
  match n with
  | O => Ret (nw, true)
  | S n =>
      node <~ parent node;;
      v <~ aget nw node;;
      if crush_addition_is_unsafe v w then Ret (nw, false) else
      nw <~ aset nw node (u32 (v + w));;
      add_up n node w nw
  end.

(** The loop of [crush_make_tree_bucket]. *)
Fixpoint tree_fill (n : nat) (i depth : Z) (ws nw : list Z) (total : Z) : res (option (list Z * Z)) :=
  match n with
  | O => Ret (Some (nw, total))
  | S n =>
      wi <~ aget ws i;;
      nw <~ aset nw (crush_calc_tree_node i) (u32 wi);;
      if crush_addition_is_unsafe total wi then Ret None else
      '(nw, ok) <~ add_up (Z.to_nat (depth - 1)) (crush_calc_tree_node i) wi nw;;
      if (ok : bool) then tree_fill n (i + 1) depth ws nw (u32 (total + wi)) else Ret None
  end.

Definition crush_make_tree_bucket (hash' type' size' : Z) (its ws : list Z) : res (option crush_bucket) :=
  if negb (alloc 0 sizeof_tree) then Ret None else
  if size' =? 0 then Ret (Some (new_bucket hash' type' 0 0 [] (BTree 0 []))) else
  if negb (alloc 1 (sizeof_u32 * size')) then Ret None else
  let depth := calc_depth size' in
  let num_nodes := u8 (Z.shiftl 1 depth) in
  if negb (alloc 2 (sizeof_u32 * num_nodes)) then Ret None else
  its <~ copy (Z.to_nat size') 0 its;;
  o <~ tree_fill (Z.to_nat size') 0 depth ws (replicate (Z.to_nat num_nodes) 0) 0;;
  match o with
  | None => Ret None
  | Some (nw, total) =>
      root <~ aget nw (num_nodes / 2);;
      _ <~ rassert (root =? total);;
      Ret (Some (new_bucket hash' type' total size' its (BTree num_nodes nw)))
  end.

(** ** Straw lengths *)

(** [for (k=i; k>j; k--) reverse[k] = reverse[k-1];]; [n] is [k - j]. *)
Fixpoint shift_up (n : nat) (k : Z) (rev : list Z) : res (list Z) :=
  match n with
  | O => Ret rev
  | S n =>
      v <~ aget rev (k - 1);;
      rev <~ aset rev k v;;
      shift_up n (k - 1) rev
  end.

(** [for (j=0; j<i; j++)]: insert [i] before the first heavier item, or at the
    end.  [n] is [i - j]. *)
Fixpoint insert_sorted (n : nat) (j i : Z) (ws rev : list Z) : res (list Z) :=
  match n with
  | O => aset rev i i
  | S n =>
      rj <~ aget rev j;;
      wi <~ aget ws i;;
      wj <~ aget ws rj;;
      if wi <? wj then
        rev <~ shift_up (Z.to_nat (i - j)) i rev;;
        aset rev j i
      else insert_sorted n (j + 1) i ws rev
  end.

(** [for (i=1; i<size; i++)]; [n] is [size - i]. *)
Fixpoint sort_loop (n : nat) (i : Z) (ws rev : list Z) : res (list Z) :=
  match n with
  | O => Ret rev
  | S n =>
      rev <~ insert_sorted (Z.to_nat i) 0 i ws rev;;
      sort_loop n (i + 1) ws rev
  end.

Definition sort_weights (size' : Z) (ws : list Z) : res (list Z) :=
  let rev := replicate (Z.to_nat size') junk in
  rev <~ (if size' =? 0 then Ret rev else aset rev 0 0);;
  sort_loop (Z.to_nat (size' - 1)) 1 ws rev.

(** The weight of the item at rank [i]. *)
Definition ranked (ws rev : list Z) (i : Z) : res Z := ri <~ aget rev i;; aget ws ri.

(** [for (j=i; j<size; j++) if (same weight) numleft--; else break;] *)
Fixpoint count_same (n : nat) (j w : Z) (ws rev : list Z) (numleft : Z) : res Z :=
  match n with
  | O => Ret numleft
  | S n =>
      wj <~ ranked ws rev j;;
      if wj =? w then count_same n (j + 1) w ws rev (numleft - 1) else Ret numleft
  end.

(** The local variables of the loop. *)
Record straw_state := StrawState {
  st_straw : double;
  st_wbelow : double;
  st_lastw : double;
  st_numleft : Z;
}.

(** "adjust straw for next guy": [w0] and [w1] are the weights at ranks
    [i - 1] and [i]; [numleft'] is the new count. *)
Definition adjust_straw (s : straw_state) (w0 w1 numleft' : Z) : straw_state :=
  let wbelow := d_add (st_wbelow s)
                  (d_mul (d_sub (d_of_Z w0) (st_lastw s)) (d_of_Z (st_numleft s))) in
  let wnext := d_of_Z (u32 (numleft' * (w1 - w0))) in
  let pbelow := d_div wbelow (d_add wbelow wnext) in
  StrawState
    (d_mul (st_straw s) (d_pow (d_div (d_of_Z 1) pbelow) (d_div (d_of_Z 1) (d_of_Z numleft'))))
    wbelow (d_of_Z w0) numleft'.

(** [while (i < size)]; every turn passes [i] on by one, [n] is [size - i]. *)
Fixpoint straw_lengths (n : nat) (version size' i : Z) (ws rev straws : list Z) (s : straw_state)
    : res (list Z) :=
  match n with
  | O => Ret straws
  | S n =>
      ri <~ aget rev i;;
      w0 <~ aget ws ri;;
      if w0 =? 0 then
        straws <~ aset straws ri 0;;
        let numleft := if version =? 0 then st_numleft s else st_numleft s - 1 in
        straw_lengths n version size' (i + 1) ws rev straws
          (StrawState (st_straw s) (st_wbelow s) (st_lastw s) numleft)
      else
        straws <~ aset straws ri (d_to_u32 (d_mul (st_straw s) (d_of_Z 0x10000)));;
        if i + 1 =? size' then Ret straws else
        w1 <~ ranked ws rev (i + 1);;
        if version =? 0 then
          if w1 =? w0 then straw_lengths n version size' (i + 1) ws rev straws s else
          numleft <~ count_same (Z.to_nat (size' - (i + 1))) (i + 1) w1 ws rev (st_numleft s);;
          straw_lengths n version size' (i + 1) ws rev straws (adjust_straw s w0 w1 numleft)
        else
          straw_lengths n version size' (i + 1) ws rev straws
            (adjust_straw s w0 w1 (st_numleft s - 1))
  end.

(** [crush_calc_straw] on a bucket of [size'] items: the return code and the
    new lengths; [k] numbers its allocation. *)
Definition crush_calc_straw (k version size' : Z) (ws straws : list Z) : res (Z * list Z) :=
  if negb (alloc k (sizeof_u32 * size')) then Ret (- ENOMEM, straws) else
  rev <~ sort_weights size' ws;;
  straws <~ straw_lengths (Z.to_nat size') version size' 0 ws rev straws
              (StrawState (d_of_Z 1) (d_of_Z 0) (d_of_Z 0) size');;
  Ret (0, straws).

(** The loop of the straw makers: weights and their sum, which may wrap. *)
Fixpoint weight_fill (n : nat) (i w : Z) (ws : list Z) : res (list Z * Z) :=
  match n with
  | O => Ret ([], w)
  | S n =>
      wi <~ aget ws i;;
      '(l, w) <~ weight_fill n (i + 1) (u32 (w + wi)) ws;;
      Ret (u32 wi :: l, w)
  end.

Definition crush_make_straw_bucket (m : crush_map) (hash' type' size' : Z) (its ws : list Z)
    : res (option crush_bucket) :=
  if negb (alloc 0 sizeof_straw) then Ret None else
  if negb (alloc 1 (sizeof_u32 * size')) then Ret None else
  if negb (alloc 2 (sizeof_u32 * size')) then Ret None else
  if negb (alloc 3 (sizeof_u32 * size')) then Ret None else
  its <~ copy (Z.to_nat size') 0 its;;
  '(iw, w) <~ weight_fill (Z.to_nat size') 0 0 ws;;
  '(r, straws) <~ crush_calc_straw 4 (straw_calc_version m) size' iw
                    (replicate (Z.to_nat size') junk);;
  Ret (if r <? 0 then None else Some (new_bucket hash' type' w size' its (BStraw iw straws))).

Definition crush_make_straw2_bucket (hash' type' size' : Z) (its ws : list Z)
    : res (option crush_bucket) :=
  if negb (alloc 0 sizeof_straw2) then Ret None else
  if negb (alloc 1 (sizeof_u32 * size')) then Ret None else
  if negb (alloc 2 (sizeof_u32 * size')) then Ret None else
  its <~ copy (Z.to_nat size') 0 its;;
  '(iw, w) <~ weight_fill (Z.to_nat size') 0 0 ws;;
  Ret (Some (new_bucket hash' type' w size' its (BStraw2 iw))).

(** [weights] may be a null pointer for a uniform bucket. *)
Definition crush_make_bucket (m : crush_map) (alg hash' type' size' : Z) (its : list Z)
    (ws : option (list Z)) : res (option crush_bucket) :=
  if alg =? CRUSH_BUCKET_UNIFORM then
    item_weight <~ (match ws with
                    | Some ws => if size' =? 0 then Ret 0 else aget ws 0
                    | None => Ret 0
                    end);;
    crush_make_uniform_bucket hash' type' size' its item_weight
  else if alg =? CRUSH_BUCKET_LIST then
    crush_make_list_bucket hash' type' size' its (default [] ws)
  else if alg =? CRUSH_BUCKET_TREE then
    crush_make_tree_bucket hash' type' size' its (default [] ws)
  else if alg =? CRUSH_BUCKET_STRAW then
    crush_make_straw_bucket m hash' type' size' its (default [] ws)
  else if alg =? CRUSH_BUCKET_STRAW2 then
    crush_make_straw2_bucket hash' type' size' its (default [] ws)
  else Ret None.

(** ** Adding an item *)

(** [realloc(l, sizeof(__u32)*n)]: whether it returned memory, and the array.
    A size of 0 frees the array and returns no memory. *)
Definition realloc (k n : Z) (l : list Z) : bool * list Z :=
  if n =? 0 then (false, [])
  else if alloc k (sizeof_u32 * n)
  then (true, take (Z.to_nat n) l ++ replicate (Z.to_nat n - length l) junk)
  else (false, l).

(** The bucket with new weight, size, items and body. *)
Definition upd (b : crush_bucket) (weight' size' : Z) (its : list Z) (bd : bucket_body) : crush_bucket :=
  CrushBucket (id b) (type b) (hash b) weight' size' its bd.

Definition crush_add_uniform_bucket_item (b : crush_bucket) (item_weight item weight' : Z)
    : res (Z * crush_bucket) :=
  let newsize := s32 (size b + 1) in
  if negb (item_weight =? u32 weight') then Ret (- EINVAL, b) else
  let '(ok, its) := realloc 0 newsize (items b) in
  if negb ok then Ret (- ENOMEM, upd b (weight b) (size b) its (body b)) else
  its <~ aset its (newsize - 1) item;;
  if crush_addition_is_unsafe (weight b) weight'
  then Ret (- ERANGE, upd b (weight b) (size b) its (body b)) else
  Ret (0, upd b (u32 (weight b + weight')) (u32 (size b + 1)) its (body b)).

Definition crush_add_list_bucket_item (b : crush_bucket) (iw sw : list Z) (item weight' : Z)
    : res (Z * crush_bucket) :=
  let newsize := s32 (size b + 1) in
  let keep its iw sw := upd b (weight b) (size b) its (BList iw sw) in
  let '(ok, its) := realloc 0 newsize (items b) in
  if negb ok then Ret (- ENOMEM, keep its iw sw) else
  let '(ok, iw) := realloc 1 newsize iw in
  if negb ok then Ret (- ENOMEM, keep its iw sw) else
  let '(ok, sw) := realloc 2 newsize sw in
  if negb ok then Ret (- ENOMEM, keep its iw sw) else
  its <~ aset its (newsize - 1) item;;
  iw <~ aset iw (newsize - 1) (u32 weight');;
  if 1 <? newsize then
    last <~ aget sw (newsize - 2);;
    if crush_addition_is_unsafe last weight' then Ret (- ERANGE, keep its iw sw) else
    sw <~ aset sw (newsize - 1) (u32 (last + weight'));;
    Ret (0, upd b (u32 (weight b + weight')) (u32 (size b + 1)) its (BList iw sw))
  else
    sw <~ aset sw (newsize - 1) (u32 weight');;
    Ret (0, upd b (u32 (weight b + weight')) (u32 (size b + 1)) its (BList iw sw)).

Definition crush_add_tree_bucket_item (b : crush_bucket) (nn : Z) (nw : list Z) (item weight' : Z)
    : res (Z * crush_bucket) :=
  let newsize := s32 (size b + 1) in
  let depth := calc_depth newsize in
  let nn := u8 (Z.shiftl 1 depth) in
  let keep its nw := upd b (weight b) (size b) its (BTree nn nw) in
  let '(ok, its) := realloc 0 newsize (items b) in
  if negb ok then Ret (- ENOMEM, keep its nw) else
  let '(ok, nw) := realloc 1 nn nw in
  if negb ok then Ret (- ENOMEM, keep its nw) else
  let node := crush_calc_tree_node (newsize - 1) in
  nw <~ aset nw node (u32 weight');;
  let root := nn / 2 in
  nw <~ (if (2 <=? depth) && (node - 1 =? root) then
           v <~ aget nw (root / 2);;
           aset nw root v
         else Ret nw);;
  '(nw, ok) <~ add_up (Z.to_nat (depth - 1)) node weight' nw;;
  if negb ok then Ret (- ERANGE, keep its nw) else
  if crush_addition_is_unsafe (weight b) weight' then Ret (- ERANGE, keep its nw) else
  its <~ aset its (newsize - 1) item;;
  Ret (0, upd b (u32 (weight b + weight')) (u32 (size b + 1)) its (BTree nn nw)).

Definition crush_add_straw_bucket_item (m : crush_map) (b : crush_bucket) (iw straws : list Z)
    (item weight' : Z) : res (Z * crush_bucket) :=
  let newsize := s32 (size b + 1) in
  let keep its iw straws := upd b (weight b) (size b) its (BStraw iw straws) in
  let '(ok, its) := realloc 0 newsize (items b) in
  if negb ok then Ret (- ENOMEM, keep its iw straws) else
  let '(ok, iw) := realloc 1 newsize iw in
  if negb ok then Ret (- ENOMEM, keep its iw straws) else
  let '(ok, straws) := realloc 2 newsize straws in
  if negb ok then Ret (- ENOMEM, keep its iw straws) else
  its <~ aset its (newsize - 1) item;;
  iw <~ aset iw (newsize - 1) (u32 weight');;
  if crush_addition_is_unsafe (weight b) weight' then Ret (- ERANGE, keep its iw straws) else
  '(r, straws) <~ crush_calc_straw 3 (straw_calc_version m) (u32 (size b + 1)) iw straws;;
  Ret (r, upd b (u32 (weight b + weight')) (u32 (size b + 1)) its (BStraw iw straws)).

Definition crush_add_straw2_bucket_item (b : crush_bucket) (iw : list Z) (item weight' : Z)
    : res (Z * crush_bucket) :=
  let newsize := s32 (size b + 1) in
  let keep its iw := upd b (weight b) (size b) its (BStraw2 iw) in
  let '(ok, its) := realloc 0 newsize (items b) in
  if negb ok then Ret (- ENOMEM, keep its iw) else
  let '(ok, iw) := realloc 1 newsize iw in
  if negb ok then Ret (- ENOMEM, keep its iw) else
  its <~ aset its (newsize - 1) item;;
  iw <~ aset iw (newsize - 1) (u32 weight');;
  if crush_addition_is_unsafe (weight b) weight' then Ret (- ERANGE, keep its iw) else
  Ret (0, upd b (u32 (weight b + weight')) (u32 (size b + 1)) its (BStraw2 iw)).

Definition crush_bucket_add_item (m : crush_map) (b : crush_bucket) (item weight' : Z)
    : res (Z * crush_bucket) :=
  match body b with
  | BUniform item_weight => crush_add_uniform_bucket_item b item_weight item weight'
  | BList iw sw => crush_add_list_bucket_item b iw sw item weight'
  | BTree nn nw => crush_add_tree_bucket_item b nn nw item weight'
  | BStraw iw straws => crush_add_straw_bucket_item m b iw straws item weight'
  | BStraw2 iw => crush_add_straw2_bucket_item b iw item weight'
  | BUnknown _ => Ret (-1, b)
  end.

(** ** Removing an item *)

(** [for (i = 0; i < size; i++) if (items[i] == item) break;]; [n] is
    [size - i]. *)
Fixpoint find_item (n : nat) (i : Z) (its : list Z) (item : Z) : res Z :=
  match n with
  | O => Ret i
  | S n =>
      v <~ aget its i;;
      if v =? item then Ret i else find_item n (i + 1) its item
  end.

(** A read that may be one past the end. *)
Definition aget_over (l : list Z) (i : Z) : res Z := if i =? zlen l then oob else aget l i.

(** [for (j = i; ...; j++) l[j] = l[j+1] - w;]; [n] is the number of turns. *)
Fixpoint shift_down (n : nat) (j w : Z) (l : list Z) : res (list Z) :=
  match n with
  | O => Ret l
  | S n =>
      v <~ aget_over l (j + 1);;
      l <~ aset l j (u32 (v - w));;
      shift_down n (j + 1) w l
  end.

(** The same for items, which are signed. *)
Fixpoint shift_items (n : nat) (j : Z) (l : list Z) : res (list Z) :=
  match n with
  | O => Ret l
  | S n =>
      v <~ aget_over l (j + 1);;
      l <~ aset l j v;;
      shift_items n (j + 1) l
  end.

(** [if (w < weight) weight -= w; else weight = 0;] *)
Definition drop_weight (weight' w : Z) : Z := if w <? weight' then u32 (weight' - w) else 0.

Definition crush_remove_uniform_bucket_item (b : crush_bucket) (item_weight item : Z)
    : res (Z * crush_bucket) :=
  i <~ find_item (Z.to_nat (size b)) 0 (items b) item;;
  if i =? size b then Ret (- ENOENT, b) else
  its <~ shift_items (Z.to_nat (size b - i)) i (items b);;
  let newsize := size b - 1 in
  let '(ok, its) := realloc 0 newsize its in
  Ret (if ok then 0 else - ENOMEM, upd b (drop_weight (weight b) item_weight) newsize its (body b)).

Definition crush_remove_list_bucket_item (b : crush_bucket) (iw sw : list Z) (item : Z)
    : res (Z * crush_bucket) :=
  i <~ find_item (Z.to_nat (size b)) 0 (items b) item;;
  if i =? size b then Ret (- ENOENT, b) else
  w <~ aget iw i;;
  its <~ shift_items (Z.to_nat (size b - i)) i (items b);;
  iw <~ shift_down (Z.to_nat (size b - i)) i 0 iw;;
  sw <~ shift_down (Z.to_nat (size b - i)) i w sw;;
  let newsize := size b - 1 in
  let keep its iw sw := upd b (drop_weight (weight b) w) newsize its (BList iw sw) in
  let '(ok, its) := realloc 0 newsize its in
  if negb ok then Ret (- ENOMEM, keep its iw sw) else
  let '(ok, iw) := realloc 1 newsize iw in
  if negb ok then Ret (- ENOMEM, keep its iw sw) else
  let '(ok, sw) := realloc 2 newsize sw in
  Ret (if ok then 0 else - ENOMEM, keep its iw sw).

(** [for (j = 1; j < depth; j++)]: take [w] from the ancestors of [node]. *)
Fixpoint sub_up (n : nat) (node w : Z) (nw : list Z) : res (list Z) :=
  match n with
  | O => Ret nw
  | S n =>
      node <~ parent node;;
      v <~ aget nw node;;
      nw <~ aset nw node (u32 (v - w));;
      sub_up n node w nw
  end.

(** [while (newsize > 0)]: drop trailing items of weight 0. *)
Fixpoint trim_size (n : nat) (nw : list Z) : res Z :=
  match n with
  | O => Ret 0
  | S n' =>
      v <~ aget nw (crush_calc_tree_node (Z.of_nat n - 1));;
      if v =? 0 then trim_size n' nw else Ret (Z.of_nat n)
  end.

Definition crush_remove_tree_bucket_item (b : crush_bucket) (nn : Z) (nw : list Z) (item : Z)
    : res (Z * crush_bucket) :=
  i <~ find_item (Z.to_nat (size b)) 0 (items b) item;;
  if i =? size b then Ret (- ENOENT, b) else
  its <~ aset (items b) i 0;;
  let node := crush_calc_tree_node i in
  w <~ aget nw node;;
  nw <~ aset nw node 0;;
  nw <~ sub_up (Z.to_nat (calc_depth (size b) - 1)) node w nw;;
  let weight' := drop_weight (weight b) w in
  newsize <~ trim_size (Z.to_nat (size b)) nw;;
  if newsize =? size b then Ret (0, upd b weight' (size b) its (BTree nn nw)) else
  let '(ok, its) := realloc 0 newsize its in
  if negb ok then Ret (- ENOMEM, upd b weight' (size b) its (BTree nn nw)) else
  if calc_depth (size b) =? calc_depth newsize
  then Ret (0, upd b weight' newsize its (BTree nn nw)) else
  let nn := u8 (Z.shiftl 1 (calc_depth newsize)) in
  let '(ok, nw) := realloc 1 nn nw in
  if negb ok then Ret (- ENOMEM, upd b weight' (size b) its (BTree nn nw)) else
  Ret (0, upd b weight' newsize its (BTree nn nw)).

Definition crush_remove_straw_bucket_item (m : crush_map) (b : crush_bucket) (iw straws : list Z)
    (item : Z) : res (Z * crush_bucket) :=
  i <~ find_item (Z.to_nat (size b)) 0 (items b) item;;
  if i =? size b then Ret (- ENOENT, b) else
  w <~ aget iw i;;
  its <~ shift_items (Z.to_nat (size b - 1 - i)) i (items b);;
  iw <~ shift_down (Z.to_nat (size b - 1 - i)) i 0 iw;;
  let newsize := size b - 1 in
  let keep its iw straws := upd b (drop_weight (weight b) w) newsize its (BStraw iw straws) in
  if newsize =? 0 then Ret (0, keep its iw straws) else
  let '(ok, its) := realloc 0 newsize its in
  if negb ok then Ret (- ENOMEM, keep its iw straws) else
  let '(ok, iw) := realloc 1 newsize iw in
  if negb ok then Ret (- ENOMEM, keep its iw straws) else
  let '(ok, straws) := realloc 2 newsize straws in
  if negb ok then Ret (- ENOMEM, keep its iw straws) else
  '(r, straws) <~ crush_calc_straw 3 (straw_calc_version m) newsize iw straws;;
  Ret (r, keep its iw straws).

Definition crush_remove_straw2_bucket_item (b : crush_bucket) (iw : list Z) (item : Z)
    : res (Z * crush_bucket) :=
  i <~ find_item (Z.to_nat (size b)) 0 (items b) item;;
  if i =? size b then Ret (- ENOENT, b) else
  w <~ aget iw i;;
  its <~ shift_items (Z.to_nat (size b - 1 - i)) i (items b);;
  iw <~ shift_down (Z.to_nat (size b - 1 - i)) i 0 iw;;
  let newsize := size b - 1 in
  let keep its iw := upd b (drop_weight (weight b) w) newsize its (BStraw2 iw) in
  if newsize =? 0 then Ret (0, keep its iw) else
  let '(ok, its) := realloc 0 newsize its in
  if negb ok then Ret (- ENOMEM, keep its iw) else
  let '(ok, iw) := realloc 1 newsize iw in
  Ret (if ok then 0 else - ENOMEM, keep its iw).

Definition crush_bucket_remove_item (m : crush_map) (b : crush_bucket) (item : Z)
    : res (Z * crush_bucket) :=
  match body b with
  | BUniform item_weight => crush_remove_uniform_bucket_item b item_weight item
  | BList iw sw => crush_remove_list_bucket_item b iw sw item
  | BTree nn nw => crush_remove_tree_bucket_item b nn nw item
  | BStraw iw straws => crush_remove_straw_bucket_item m b iw straws item
  | BStraw2 iw => crush_remove_straw2_bucket_item b iw item
  | BUnknown _ => Ret (-1, b)
  end.

(** ** Adjusting a weight: the difference, and the bucket *)

Definition crush_adjust_uniform_bucket_item_weight (b : crush_bucket) (item_weight item weight' : Z)
    : res (Z * crush_bucket) :=
  Ret (s32 ((weight' - item_weight) * size b),
       upd b (u32 (u32 weight' * size b)) (size b) (items b) (BUniform (u32 weight'))).

(** [for (j = i; j < size; j++) sum_weights[j] += diff;] *)
Fixpoint add_from (n : nat) (j diff : Z) (l : list Z) : res (list Z) :=
  match n with
  | O => Ret l
  | S n =>
      v <~ aget l j;;
      l <~ aset l j (u32 (v + diff));;
      add_from n (j + 1) diff l
  end.

Definition crush_adjust_list_bucket_item_weight (b : crush_bucket) (iw sw : list Z) (item weight' : Z)
    : res (Z * crush_bucket) :=
  i <~ find_item (Z.to_nat (size b)) 0 (items b) item;;
  if i =? size b then Ret (0, b) else
  w <~ aget iw i;;
  let diff := s32 (weight' - w) in
  iw <~ aset iw i (u32 weight');;
  sw <~ add_from (Z.to_nat (size b - i)) i diff sw;;
  Ret (diff, upd b (u32 (weight b + diff)) (size b) (items b) (BList iw sw)).

(** [for (j=1; j<depth; j++)]: add [diff] to the ancestors, unchecked. *)
Fixpoint diff_up (n : nat) (node diff : Z) (nw : list Z) : res (list Z) :=
  match n with
  | O => Ret nw
  | S n =>
      node <~ parent node;;
      v <~ aget nw node;;
      nw <~ aset nw node (u32 (v + diff));;
      diff_up n node diff nw
  end.

Definition crush_adjust_tree_bucket_item_weight (b : crush_bucket) (nn : Z) (nw : list Z)
    (item weight' : Z) : res (Z * crush_bucket) :=
  i <~ find_item (Z.to_nat (size b)) 0 (items b) item;;
  if i =? size b then Ret (0, b) else
  let node := crush_calc_tree_node i in
  w <~ aget nw node;;
  let diff := s32 (weight' - w) in
  nw <~ aset nw node (u32 weight');;
  nw <~ diff_up (Z.to_nat (calc_depth (size b) - 1)) node diff nw;;
  Ret (diff, upd b (u32 (weight b + diff)) (size b) (items b) (BTree nn nw)).

Definition crush_adjust_straw_bucket_item_weight (m : crush_map) (b : crush_bucket) (iw straws : list Z)
    (item weight' : Z) : res (Z * crush_bucket) :=
  i <~ find_item (Z.to_nat (size b)) 0 (items b) item;;
  if i =? size b then Ret (0, b) else
  w <~ aget iw i;;
  let diff := s32 (weight' - w) in
  iw <~ aset iw i (u32 weight');;
  '(r, straws) <~ crush_calc_straw 0 (straw_calc_version m) (size b) iw straws;;
  Ret (if r <? 0 then r else diff,
       upd b (u32 (weight b + diff)) (size b) (items b) (BStraw iw straws)).

Definition crush_adjust_straw2_bucket_item_weight (b : crush_bucket) (iw : list Z) (item weight' : Z)
    : res (Z * crush_bucket) :=
  i <~ find_item (Z.to_nat (size b)) 0 (items b) item;;
  if i =? size b then Ret (0, b) else
  w <~ aget iw i;;
  let diff := s32 (weight' - w) in
  iw <~ aset iw i (u32 weight');;
  Ret (diff, upd b (u32 (weight b + diff)) (size b) (items b) (BStraw2 iw)).

Definition crush_bucket_adjust_item_weight (m : crush_map) (b : crush_bucket) (item weight' : Z)
    : res (Z * crush_bucket) :=
  match body b with
  | BUniform item_weight => crush_adjust_uniform_bucket_item_weight b item_weight item weight'
  | BList iw sw => crush_adjust_list_bucket_item_weight b iw sw item weight'
  | BTree nn nw => crush_adjust_tree_bucket_item_weight b nn nw item weight'
  | BStraw iw straws => crush_adjust_straw_bucket_item_weight m b iw straws item weight'
  | BStraw2 iw => crush_adjust_straw2_bucket_item_weight b iw item weight'
  | BUnknown _ => Ret (-1, b)
  end.

(** ** Reweighting a hierarchy *)

(** The bucket at index [bi], and the map with it replaced. *)
Definition get_bucket (m : crush_map) (bi : Z) : res crush_bucket :=
  ob <~ aget (buckets m) bi;; deref ob.

Definition put_bucket (m : crush_map) (bi : Z) (b : crush_bucket) : res crush_map :=
  bs <~ aset (buckets m) bi (Some b);;
  Ret (set_buckets m bs (max_buckets m)).

(** Where a layout keeps the weight of the item at position [i]. *)
Definition item_weight_get (bd : bucket_body) (i : Z) : res Z :=
  match bd with
  | BList iw _ | BStraw iw _ | BStraw2 iw => aget iw i
  | BTree _ nw => aget nw (crush_calc_tree_node i)
  | _ => Fault
  end.

Definition item_weight_set (bd : bucket_body) (i w : Z) : res bucket_body :=
  match bd with
  | BList iw sw => iw <~ aset iw i w;; Ret (BList iw sw)
  | BStraw iw st => iw <~ aset iw i w;; Ret (BStraw iw st)
  | BStraw2 iw => iw <~ aset iw i w;; Ret (BStraw2 iw)
  | BTree nn nw => nw <~ aset nw (crush_calc_tree_node i) w;; Ret (BTree nn nw)
  | _ => Fault
  end.

Section reweight.
(** The recursive call, on the bucket at an index. *)
Context (rec : crush_map -> Z -> res (Z * crush_map)).

(** The loop of [crush_reweight_uniform_bucket]; [None] for [-ERANGE]. *)
Fixpoint reweight_uniform_loop (n : nat) (i bi sum cnt leaves : Z) (m : crush_map)
    : res (option (Z * Z * Z) * crush_map) :=
  match n with
  | O => Ret (Some (sum, cnt, leaves), m)
  | S n =>
      b <~ get_bucket m bi;;
      id' <~ aget (items b) i;;
      if id' <? 0 then
        '(_, m) <~ rec m (-1 - id');;
        c <~ get_bucket m (-1 - id');;
        if crush_addition_is_unsafe sum (weight c) then Ret (None, m) else
        reweight_uniform_loop n (i + 1) bi (u32 (sum + weight c)) (cnt + 1) leaves m
      else reweight_uniform_loop n (i + 1) bi sum cnt (leaves + 1) m
  end.

Definition crush_reweight_uniform_bucket (m : crush_map) (bi : Z) : res (Z * crush_map) :=
  b <~ get_bucket m bi;;
  '(o, m) <~ reweight_uniform_loop (Z.to_nat (size b)) 0 bi 0 0 0 m;;
  match o with
  | None => Ret (- ERANGE, m)
  | Some (sum, cnt, leaves) =>
      b <~ get_bucket m bi;;
      match body b with
      | BUniform item_weight =>
          let item_weight := if leaves <? cnt then sum / cnt else item_weight in
          m <~ put_bucket m bi (upd b (u32 (item_weight * size b)) (size b) (items b)
                                  (BUniform item_weight));;
          Ret (0, m)
      | _ => Fault
      end
  end.

(** The loop the other four layouts share: [false] for [-ERANGE]. *)
Fixpoint reweight_loop (n : nat) (i bi : Z) (m : crush_map) : res (bool * crush_map) :=
  match n with
  | O => Ret (true, m)
  | S n =>
      b <~ get_bucket m bi;;
      id' <~ aget (items b) i;;
      m <~ (if id' <? 0 then
              '(_, m) <~ rec m (-1 - id');;
              c <~ get_bucket m (-1 - id');;
              b <~ get_bucket m bi;;
              bd <~ item_weight_set (body b) i (weight c);;
              put_bucket m bi (upd b (weight b) (size b) (items b) bd)
            else Ret m);;
      b <~ get_bucket m bi;;
      w <~ item_weight_get (body b) i;;
      if crush_addition_is_unsafe (weight b) w then Ret (false, m) else
      m <~ put_bucket m bi (upd b (u32 (weight b + w)) (size b) (items b) (body b));;
      reweight_loop n (i + 1) bi m
  end.

(** Reset the weight, and run the loop. *)
Definition reweight_sum (m : crush_map) (bi : Z) : res (bool * crush_map) :=
  b <~ get_bucket m bi;;
  m <~ put_bucket m bi (upd b 0 (size b) (items b) (body b));;
  reweight_loop (Z.to_nat (size b)) 0 bi m.

Definition crush_reweight_list_bucket (m : crush_map) (bi : Z) : res (Z * crush_map) :=
  '(ok, m) <~ reweight_sum m bi;;
  Ret (if ok then 0 else - ERANGE, m).

Definition crush_reweight_tree_bucket (m : crush_map) (bi : Z) : res (Z * crush_map) :=
  '(ok, m) <~ reweight_sum m bi;;
  Ret (if ok then 0 else - ERANGE, m).

Definition crush_reweight_straw_bucket (m : crush_map) (bi : Z) : res (Z * crush_map) :=
  '(ok, m) <~ reweight_sum m bi;;
  if negb ok then Ret (- ERANGE, m) else
  b <~ get_bucket m bi;;
  match body b with
  | BStraw iw straws =>
      '(_, straws) <~ crush_calc_straw 0 (straw_calc_version m) (size b) iw straws;;
      m <~ put_bucket m bi (upd b (weight b) (size b) (items b) (BStraw iw straws));;
      Ret (0, m)
  | _ => Fault
  end.

Definition crush_reweight_straw2_bucket (m : crush_map) (bi : Z) : res (Z * crush_map) :=
  '(ok, m) <~ reweight_sum m bi;;
  Ret (if ok then 0 else - ERANGE, m).
End reweight.

(** [crush_reweight_bucket] on the bucket at index [bi]; the fuel bounds the
    depth of the hierarchy. *)
Fixpoint crush_reweight_bucket (fuel : nat) (m : crush_map) (bi : Z) : res (Z * crush_map) :=
  match fuel with
  | O => NoFuel
  | S fuel =>
      b <~ get_bucket m bi;;
      match body b with
      | BUniform _ => crush_reweight_uniform_bucket (crush_reweight_bucket fuel) m bi
      | BList _ _ => crush_reweight_list_bucket (crush_reweight_bucket fuel) m bi
      | BTree _ _ => crush_reweight_tree_bucket (crush_reweight_bucket fuel) m bi
      | BStraw _ _ => crush_reweight_straw_bucket (crush_reweight_bucket fuel) m bi
      | BStraw2 _ => crush_reweight_straw2_bucket (crush_reweight_bucket fuel) m bi
      | BUnknown _ => Ret (-1, m)
      end
  end.

(** ** Alternative weights *)

(** The field [item_weights] of a bucket read as a [struct
    crush_bucket_straw2]; the other layouts have something else there. *)
Definition straw2_weights (bd : bucket_body) : res (list Z) :=
  match bd with
  | BStraw2 iw | BStraw iw _ | BList iw _ => Ret iw
  | _ => Fault
  end.

Fixpoint args_count (n : nat) (b : Z) (m : crush_map) (sum cnt : Z) : res (Z * Z) :=
  match n with
  | O => Ret (sum, cnt)
  | S n =>
      ob <~ aget (buckets m) b;;
      match ob with
      | None => args_count n (b + 1) m sum cnt
      | Some bk => args_count n (b + 1) m (s32 (sum + size bk)) (cnt + 1)
      end
  end.

Fixpoint args_fill (n : nat) (b : Z) (m : crush_map) (num_positions : Z) : res (list crush_choose_arg) :=
  match n with
  | O => Ret []
  | S n =>
      ob <~ aget (buckets m) b;;
      a <~ (match ob with
            | None => Ret (CrushChooseArg None 0 None 0)
            | Some bk =>
                iw <~ straw2_weights (body bk);;
                ws <~ copy (Z.to_nat (size bk)) 0 iw;;
                its <~ copy (Z.to_nat (size bk)) 0 (items bk);;
                Ret (CrushChooseArg (Some its) (size bk)
                       (Some (replicate (Z.to_nat num_positions) (CrushWeightSet ws (size bk))))
                       (u32 num_positions))
            end);;
      rest <~ args_fill n (b + 1) m num_positions;;
      Ret (a :: rest)
  end.

Definition sizeof_choose_arg : Z := 32.
Definition sizeof_weight_set : Z := 16.

(** The block holds the args, the weight sets, the weights and the ids; the
    first [BUG_ON] compares its size, an [int], with their sum. *)
Definition crush_make_choose_args (m : crush_map) (num_positions : Z) : res (list crush_choose_arg) :=
  '(sum, cnt) <~ args_count (Z.to_nat (max_buckets m)) 0 m 0 0;;
  let bytes := sizeof_choose_arg * max_buckets m + sizeof_weight_set * cnt * num_positions
               + sizeof_u32 * sum * num_positions + sizeof_u32 * sum in
  _ <~ rassert (s32 bytes =? bytes);;
  if alloc 0 bytes then args_fill (Z.to_nat (max_buckets m)) 0 m num_positions else Fault.
End builder.
