(* ===== verification/CrushBuilt.v ===== *)
(** * What the builder guarantees

    [crush_finalize] computes the size [crush_init_workspace] checks and a
    bound on the devices; [crush_add_bucket] and [crush_add_rule] put their
    argument where they say and keep the rest; the makers give well-formed
    buckets, the tree maker with every inner weight the sum of its leaves. *)

From stdpp Require Import relations.
From S2P Require Import Prelude CrushHash CrushTypes CrushLn CrushBucket CrushPerm CrushChoose CrushMapper CrushWf CrushBuilder.
Open Scope Z_scope.

(** ** Safe arithmetic *)

Lemma addition_unsafe_spec a b : is_u 32 a -> is_u 32 b ->
  crush_addition_is_unsafe a b = negb (a + b <? 2 ^ 32).
Proof.
  intros Ha Hb. unfold crush_addition_is_unsafe. rewrite (uw_small 32 a), (uw_small 32 b) by done.
  change (u32 (-1)) with (2 ^ 32 - 1). destruct (Z.ltb_spec (2 ^ 32 - 1 - b) a), (Z.ltb_spec (a + b) (2 ^ 32)); cbn; lia.
Qed.

Lemma multiplication_unsafe_spec a b : is_u 32 a -> is_u 32 b ->
  crush_multiplication_is_unsafe a b =
    if (b =? 0) && negb (a =? 0) then true else negb (a * b <? 2 ^ 32).
Proof.
  intros Ha Hb. unfold crush_multiplication_is_unsafe. rewrite (uw_small 32 a), (uw_small 32 b) by done.
  change (u32 (-1)) with (2 ^ 32 - 1). unfold is_u in *.
  destruct (Z.eqb_spec a 0) as [->|Ha0]; [by destruct (b =? 0)|].
  destruct (Z.eqb_spec b 0) as [->|Hb0]; [done|]. cbn [andb negb].
  destruct (Z.ltb_spec (a * b) (2 ^ 32)) as [Hlt|Hge]; cbn [negb].
  - apply Z.ltb_ge. apply Z.div_le_lower_bound; lia.
  - apply Z.ltb_lt. apply Z.div_lt_upper_bound; lia.
Qed.

(** ** Finalize *)

Lemma max_item_spec n i its md :
  0 <= i -> i + Z.of_nat n <= zlen its -> Forall (fun it => - 2 ^ 31 <= it < 2 ^ 31 - 1) its -> 0 <= md < 2 ^ 31 ->
  exists md', max_item n i its md = Ret md' /\ md <= md' < 2 ^ 31 /\
    forall k it, (Z.to_nat i <= k < Z.to_nat i + n)%nat -> its !! k = Some it -> it < md'.
Proof.
  intros Hi Hn Hall. revert i md Hi Hn. induction n as [|n IH]; intros i md Hi Hn Hmd; cbn [max_item].
  { exists md. split; [done|]. split; [lia|]. lia. }
  destruct (aget_in its i) as (it & -> & Eit); [lia|]. cbn [rbind].
  pose proof (Forall_lookup_1 _ _ _ _ Hall Eit) as Hit. cbn in Hit.
  set (md1 := if md <=? it then s32 (it + 1) else md).
  assert (md <= md1 < 2 ^ 31 /\ it < md1) as [? ?].
  { subst md1. destruct (Z.leb_spec md it); [rewrite (sw_small 32) by (split; lia)|]; lia. }
  destruct (IH (i + 1) md1) as (md' & -> & Hmd' & Hk); [lia..|].
  exists md'. split; [done|]. split; [lia|]. intros k it' Hk' E.
  destruct (decide (k = Z.to_nat i)) as [->|]; [assert (it' = it) as -> by congruence; lia|].
  apply (Hk k); [lia|done].
Qed.

(** The items of every bucket are [int]s below [INT_MAX]. *)
Definition items_ok (m : crush_map) : Prop :=
  forall b, in_map m b -> zlen (items b) = size b /\ 0 <= size b < 2 ^ 32 /\
    Forall (fun it => - 2 ^ 31 <= it < 2 ^ 31 - 1) (items b).

Lemma bytes_nonneg m k : items_ok m -> 0 <= foldr Z.add 0 (bucket_bytes <$> drop k (buckets m)).
Proof.
  intros Hit. assert (Forall (fun ob => 0 <= bucket_bytes ob) (drop k (buckets m))) as HF.
  { apply Forall_lookup. intros i ob E. rewrite lookup_drop in E. destruct ob as [bk|]; [|done].
    destruct (Hit bk) as (_ & ? & _); [by eexists|]. cbn. unfold sizeof_crush_work_bucket, sizeof_u32. lia. }
  induction HF; cbn; lia.
Qed.

Lemma finalize_loop_spec n b m md ws :
  items_ok m -> zlen (buckets m) = max_buckets m -> 0 <= b -> b + Z.of_nat n = max_buckets m -> 0 <= md < 2 ^ 31 ->
  0 <= ws -> ws + foldr Z.add 0 (bucket_bytes <$> drop (Z.to_nat b) (buckets m)) < 2 ^ 64 ->
  exists md', finalize_loop n b m md ws =
      Ret (md', ws + foldr Z.add 0 (bucket_bytes <$> drop (Z.to_nat b) (buckets m))) /\ md <= md' < 2 ^ 31 /\
    forall i bk it, (Z.to_nat b <= i)%nat -> buckets m !! i = Some (Some bk) -> it ∈ items bk -> it < md'.
Proof.
  intros Hit Hl. revert b md ws. induction n as [|n IH]; intros b md ws Hb Hn Hmd Hws Hbound; cbn [finalize_loop].
  { exists md. rewrite drop_ge by lia. cbn. rewrite Z.add_0_r. split; [done|]. split; [lia|].
    intros i bk it Hi E. apply lookup_lt_Some in E. lia. }
  destruct (aget_in (buckets m) b) as (ob & -> & Eb); [lia|]. cbn [rbind].
  rewrite (drop_S _ _ _ Eb) in *. replace (S (Z.to_nat b)) with (Z.to_nat (b + 1)) in * by lia.
  cbn [fmap list_fmap foldr] in *. pose proof (bytes_nonneg m (Z.to_nat (b + 1)) Hit) as Hnn.
  destruct ob as [bk|]; cbn [bucket_bytes] in *.
  - destruct (Hit bk) as (Hlen & Hsz & Hall); [by eexists|].
    destruct (max_item_spec (Z.to_nat (size bk)) 0 (items bk) md) as (md1 & -> & Hmd1 & Hk1); try done; [lia|]. cbn [rbind].
    unfold sizeof_crush_work_bucket, sizeof_u32 in *.
    rewrite (uw_small 64 (ws + 16)), (uw_small 64) by (split; lia).
    destruct (IH (b + 1) md1 (ws + 16 + size bk * 4)) as (md' & -> & Hmd' & Hk); try lia.
    exists md'. split; [do 2 f_equal; lia|]. split; [lia|]. intros i bk' it Hi E Hin.
    destruct (decide (i = Z.to_nat b)) as [->|]; [|apply (Hk i bk'); [lia|done..]].
    assert (bk' = bk) as -> by congruence. apply list_elem_of_lookup_1 in Hin as [j Ej].
    pose proof (lookup_lt_Some _ _ _ Ej). enough (it < md1) by lia. apply (Hk1 j); [lia|done].
  - destruct (IH (b + 1) md ws) as (md' & -> & Hmd' & Hk); try lia.
    exists md'. split; [do 2 f_equal; lia|]. split; [lia|]. intros i bk it Hi E Hin.
    destruct (decide (i = Z.to_nat b)) as [->|]; [congruence|]. apply (Hk i bk); [lia|done..].
Qed.

(** [crush_finalize] sets the two sizes and nothing else. *)
Lemma finalize_spec m :
  items_ok m -> zlen (buckets m) = max_buckets m -> max_buckets m < 2 ^ 31 -> work_bytes m < 2 ^ 64 ->
  exists md, crush_finalize m = Ret (set_sizes m md (work_bytes m)) /\ 0 <= md < 2 ^ 31 /\
    forall b it, in_map m b -> it ∈ items b -> it < md.
Proof.
  intros Hit Hl Hmb Hw. unfold crush_finalize, work_bytes in *. pose proof (bytes_nonneg m 0 Hit) as Hnn.
  rewrite drop_0 in Hnn. unfold sizeof_crush_work, sizeof_pointer in *. rewrite (uw_small 64) by (split; lia).
  destruct (finalize_loop_spec (Z.to_nat (max_buckets m)) 0 m 0 (8 + max_buckets m * 8)) as (md & E & Hmd & Hk);
    try done; try lia.
  rewrite drop_0 in E. rewrite E. cbn [rbind].
  exists md. split; [done|]. split; [lia|]. intros b it [i Ei] Hin. apply (Hk i b); [lia|done..].
Qed.

(** ** Buckets and rules in the map *)

Lemma first_free_spec {A} n r (l : list (option A)) :
  0 <= r -> r + Z.of_nat n = zlen l ->
  exists p, first_free n r l = Ret p /\ r <= p <= zlen l /\
    (p < zlen l -> l !! Z.to_nat p = Some None) /\
    forall k, (Z.to_nat r <= k < Z.to_nat p)%nat -> exists a, l !! k = Some (Some a).
Proof.
  revert r. induction n as [|n IH]; intros r Hr Hn; cbn [first_free].
  { exists r. split; [done|]. split; [lia|]. split; [lia|]. intros k Hk. lia. }
  destruct (aget_in l r) as (o & -> & Eo); [lia|]. cbn [rbind]. destruct o as [a|]; cycle 1.
  { exists r. split; [done|]. split; [lia|]. split; [done|]. intros k Hk. lia. }
  destruct (IH (r + 1)) as (p & -> & Hp & Hfree & Hused); [lia..|].
  exists p. split; [done|]. split; [lia|]. split; [done|]. intros k Hk.
  destruct (decide (k = Z.to_nat r)) as [->|]; [by exists a|]. apply Hused. lia.
Qed.

Section with_alloc.
Context (alloc : Z -> Z -> bool) (Halloc : forall k n, alloc k n = true).

(** The array of buckets has the size the map says. *)
Definition sized (m : crush_map) : Prop := zlen (buckets m) = max_buckets m.

Lemma expand_stop fuel k pos m : pos < max_buckets m -> expand_buckets alloc fuel k pos m = Ret (m, false).
Proof. intros H. destruct fuel; cbn [expand_buckets]; by rewrite (proj2 (Z.leb_gt _ _)) by lia. Qed.

Lemma expand_step fuel k pos m (mb := if max_buckets m =? 0 then 8 else max_buckets m * 2) :
  sized m -> max_buckets m <= pos < 2 ^ 30 ->
  expand_buckets alloc (S fuel) k pos m =
  expand_buckets alloc fuel (k + 1) pos
    (set_buckets m (buckets m ++ replicate (Z.to_nat (mb - max_buckets m)) None) mb).
Proof.
  intros Hs Hp. cbn [expand_buckets]. rewrite (proj2 (Z.leb_le _ _)) by lia. cbv zeta. rewrite Halloc.
  assert ((if max_buckets m =? 0 then 8 else s32 (max_buckets m * 2)) = mb) as ->.
  { subst mb. destruct (max_buckets m =? 0); [done|]. rewrite (sw_small 32) by (unfold sized in Hs; split; lia). done. }
  unfold grow. rewrite (proj2 (Z.eqb_eq _ _) Hs). done.
Qed.

(** The map with [e] more slots. *)
Definition widened (m : crush_map) (e : nat) : crush_map :=
  set_buckets m (buckets m ++ replicate e None) (max_buckets m + Z.of_nat e).

Lemma widened_0 m : widened m 0 = m.
Proof. unfold widened. cbn. rewrite app_nil_r, Z.add_0_r. by destruct m. Qed.

Lemma widened_add m e e' : widened (widened m e) e' = widened m (e + e').
Proof.
  unfold widened, set_buckets. cbn. rewrite <- app_assoc, <- replicate_add. f_equal. lia.
Qed.

Lemma widened_lookup m e i bk :
  buckets (widened m e) !! i = Some (Some bk) <-> buckets m !! i = Some (Some bk).
Proof.
  cbn. rewrite lookup_app. destruct (buckets m !! i); [done|]. rewrite lookup_replicate. naive_solver.
Qed.

Lemma widened_sized m e : sized m -> sized (widened m e).
Proof. unfold sized. cbn. rewrite length_app, length_replicate. lia. Qed.

Lemma expand_pos fuel k pos m :
  sized m -> 1 <= max_buckets m -> pos < 2 ^ 30 -> pos < max_buckets m * 2 ^ Z.of_nat fuel ->
  exists e, expand_buckets alloc fuel k pos m = Ret (widened m e, false) /\ pos < max_buckets (widened m e).
Proof.
  revert k m. induction fuel as [|fuel IH]; intros k m Hs Hm Hp Hf.
  all: destruct (Z_lt_le_dec pos (max_buckets m)) as [Hlt|Hge];
    [exists 0%nat; rewrite widened_0; split; [by apply expand_stop|done]|].
  { rewrite Z.pow_0_r in Hf. lia. }
  rewrite expand_step by done. rewrite (proj2 (Z.eqb_neq (max_buckets m) 0)) by lia.
  replace (set_buckets m _ _) with (widened m (Z.to_nat (max_buckets m)))
    by (unfold widened; f_equal; [do 2 f_equal|]; lia).
  destruct (IH (k + 1) (widened m (Z.to_nat (max_buckets m)))) as (e & E & Hlt).
  - by apply widened_sized.
  - unfold widened, set_buckets, max_buckets. fold (max_buckets m). lia.
  - done.
  - rewrite Nat2Z.inj_succ, Z.pow_succ_r in Hf by lia.
    change (max_buckets (widened m _)) with (max_buckets m + Z.of_nat (Z.to_nat (max_buckets m))). lia.
  - eexists. rewrite widened_add in E, Hlt. done.
Qed.

Lemma expand_spec k pos m :
  sized m -> pos < 2 ^ 30 ->
  exists e, expand_buckets alloc 32 k pos m = Ret (widened m e, false) /\
    pos < max_buckets (widened m e) /\ (pos < max_buckets m -> e = 0%nat).
Proof.
  intros Hs Hp. destruct (Z_lt_le_dec pos (max_buckets m)) as [Hlt|Hge].
  { exists 0%nat. rewrite expand_stop by done. by rewrite widened_0. }
  assert (0 <= max_buckets m) by (unfold sized in Hs; lia).
  destruct (Z.eq_dec (max_buckets m) 0) as [E0|Hne]; cycle 1.
  { destruct (expand_pos 32 k pos m) as (e & E & Hlt); try done; try lia.
    exists e. split; [done|]. split; [done|lia]. }
  rewrite expand_step by done. rewrite E0. change (0 =? 0) with true. cbn iota.
  replace (set_buckets m _ 8) with (widened m 8) by (unfold widened; rewrite E0; done).
  assert (max_buckets (widened m 8) = 8) as E8
    by (change (max_buckets (widened m 8)) with (max_buckets m + 8); lia).
  destruct (expand_pos 31 (k + 1) pos (widened m 8)) as (e & E & Hlt); [by apply widened_sized|lia..|].
  rewrite widened_add in E, Hlt. exists (8 + e)%nat. split; [done|]. split; [done|lia].
Qed.

(** A bucket is added under its id: at a free slot it is stored, the others
    keep their place; a taken id is refused and the map is as before. *)
Lemma add_bucket_spec m id' b :
  sized m -> - 2 ^ 30 < id' < 0 ->
  (match buckets m !! Z.to_nat (-1 - id') with
   | Some (Some _) => crush_add_bucket alloc m id' b = Ret (- EEXIST, 0, m)
   | _ => exists m', crush_add_bucket alloc m id' b = Ret (0, id', m') /\ sized m' /\
       buckets m' !! Z.to_nat (-1 - id') = Some (Some (set_id b id')) /\
       forall i bk, i <> Z.to_nat (-1 - id') ->
         (buckets m' !! i = Some (Some bk) <-> buckets m !! i = Some (Some bk))
   end).
Proof.
  intros Hs Hid. unfold crush_add_bucket. rewrite (proj2 (Z.eqb_neq id' 0)) by lia. cbn [rbind].
  destruct (expand_spec 0 (-1 - id') m) as (e & -> & Hlt & He); try done; [lia|]. cbn [rbind].
  destruct (buckets m !! Z.to_nat (-1 - id')) as [[b0|]|] eqn:E.
  { apply lookup_lt_Some in E as Hl. rewrite He, widened_0 by (unfold sized in Hs; lia).
    assert (0 <= -1 - id') as H0 by lia. by rewrite (proj2 (aget_Ret _ _ _) (conj H0 E)). }
  all: pose proof (widened_sized m e Hs) as Hs'.
  all: assert (buckets (widened m e) !! Z.to_nat (-1 - id') = Some None) as Enone.
  { cbn. by rewrite lookup_app, E. }
  2: { cbn. rewrite lookup_app, E. apply lookup_ge_None in E. apply lookup_replicate_2.
       unfold sized in Hs'. cbn in Hs', Hlt. rewrite length_app, length_replicate in Hs'. lia. }
  all: assert (0 <= -1 - id') as H0 by lia; rewrite (proj2 (aget_Ret _ _ _) (conj H0 Enone)); cbn [rbind].
  all: rewrite aset_in by (unfold sized in Hs'; lia); cbn [rbind]; eexists; split; [done|].
  all: split; [unfold sized in *; cbn [buckets max_buckets set_buckets]; rewrite length_insert; done|].
  all: cbn [buckets set_buckets]; split; [apply list_lookup_insert_eq; unfold sized in Hs'; lia|].
  all: intros i bk Hi; rewrite list_lookup_insert_ne by done; apply widened_lookup.
Qed.
End with_alloc.
