(* ===== verification/CrushTreeMake.v ===== *)
(** * Tree buckets as the builder makes them

    The node of height [h] and rank [j] stands over the leaves
    [j * 2 ^ h .. (j + 1) * 2 ^ h - 1]; [crush_make_tree_bucket] leaves in it
    the sum of their weights, so the bucket is well-formed and the [BUG_ON] at
    its end does not fire.  [num_nodes] is a [__u8]: with more than 64 items
    it wraps to 0 and the first store is out of bounds. *)

From S2P Require Import Prelude CrushHash CrushTypes CrushLn CrushBucket CrushPerm CrushChoose CrushBuilder CrushBuilt.
Open Scope Z_scope.

(** ** Nodes *)

Definition node (h j : Z) : Z := (2 * j + 1) * 2 ^ h.

Lemma node_inj h j h' j' : 0 <= h -> 0 <= h' -> node h j = node h' j' -> h = h' /\ j = j'.
Proof.
  assert (forall h j k j', 0 <= h -> 0 < k -> node h j <> node (h + k) j') as Hlt.
  { intros h1 j1 k j2 Hh Hk E. unfold node in E. rewrite Z.pow_add_r in E by lia.
    assert (2 * j1 + 1 = (2 * j2 + 1) * 2 ^ k) as E1.
    { apply (Z.mul_reg_r _ _ (2 ^ h1)); [pose proof (pow2_pos h1 Hh); lia|]. rewrite E. ring. }
    replace k with (Z.succ (k - 1)) in E1 by lia. rewrite Z.pow_succ_r in E1 by lia.
    assert (Z.odd (2 * j1 + 1) = true) as O1 by (rewrite Z.add_comm; apply Z.odd_add_mul_2).
    rewrite E1 in O1. replace ((2 * j2 + 1) * (2 * 2 ^ (k - 1))) with (0 + 2 * ((2 * j2 + 1) * 2 ^ (k - 1))) in O1 by ring.
    rewrite Z.odd_add_mul_2 in O1. done. }
  intros Hh Hh' E. destruct (Z.lt_trichotomy h h') as [Hlt1|[->|Hlt1]].
  - exfalso. apply (Hlt h j (h' - h) j'); [lia..|]. by replace (h + (h' - h)) with h' by lia.
  - split; [done|]. unfold node in E. apply Z.mul_reg_r in E; [lia|]. pose proof (pow2_pos h' Hh). lia.
  - exfalso. apply (Hlt h' j' (h - h') j); [lia..|]. by replace (h' + (h - h')) with h by lia.
Qed.

Lemma land_pow2 n k : 0 <= k -> (Z.land n (2 ^ k) =? 0) = negb (Z.testbit n k).
Proof.
  intros Hk. destruct (Z.testbit n k) eqn:E; cbn.
  - apply Z.eqb_neq. intros E0. assert (Z.testbit (Z.land n (2 ^ k)) k = true) as E1.
    { rewrite Z.land_spec, E, Z.pow2_bits_true by lia. done. }
    rewrite E0, Z.bits_0 in E1. done.
  - apply Z.eqb_eq. apply Z.bits_inj'. intros i Hi. rewrite Z.land_spec, Z.bits_0, Z.pow2_bits_eqb by lia.
    destruct (Z.eqb_spec k i) as [->|]; [by rewrite E|apply andb_false_r].
Qed.

Lemma parent_spec h j : 0 <= h <= 31 -> 0 <= j -> parent (node h j) = Ret (node (h + 1) (j / 2)).
Proof.
  intros Hh Hj. unfold parent. unfold node at 1. rewrite height_spec by lia. cbn [rbind].
  unfold on_right. rewrite !Z.shiftl_mul_pow2, !Z.mul_1_l, land_pow2, negb_involutive by lia.
  unfold node. rewrite Z.mul_pow2_bits by lia. replace (h + 1 - h) with (Z.succ 0) by lia.
  rewrite Z.testbit_odd_succ, Z.bit0_odd by lia. rewrite Z.pow_add_r by lia. change (2 ^ 1) with 2. f_equal.
  pose proof (Z.div_mod j 2 ltac:(lia)) as E. rewrite (Zmod_odd j) in E. destruct (Z.odd j); nia.
Qed.

(** ** Sums over the leaves of a node *)

Definition leafw (ws : list Z) (k : nat) : Z := u32 (nth k ws 0).

(** The weight of the first [n] leaves that lie under node [(h, j)]. *)
Fixpoint cov (ws : list Z) (h j : Z) (n : nat) : Z :=
  match n with
  | O => 0
  | S n => cov ws h j n + (if Z.of_nat n / 2 ^ h =? j then leafw ws n else 0)
  end.

Fixpoint total (ws : list Z) (n : nat) : Z :=
  match n with O => 0 | S n => total ws n + leafw ws n end.

Lemma leafw_u32 ws k : is_u 32 (leafw ws k).
Proof. apply uw_range. lia. Qed.

Lemma cov_range ws h j n : 0 <= cov ws h j n <= total ws n.
Proof.
  induction n as [|n IH]; cbn [cov total]; [lia|]. destruct (leafw_u32 ws n). case_bool; lia.
Qed.

Lemma total_mono ws n n' : (n <= n')%nat -> total ws n <= total ws n'.
Proof. induction 1; [lia|]. cbn. destruct (leafw_u32 ws m). lia. Qed.

Lemma cov_split ws h j n :
  0 < h -> cov ws h j n = cov ws (h - 1) (2 * j) n + cov ws (h - 1) (2 * j + 1) n.
Proof.
  intros Hh. induction n as [|n IH]; cbn [cov]; [done|]. rewrite IH.
  assert (Z.of_nat n / 2 ^ h = Z.of_nat n / 2 ^ (h - 1) / 2) as ->.
  { rewrite Z.div_div by (pose proof (pow2_pos (h - 1)); lia). f_equal.
    replace h with (Z.succ (h - 1)) at 1 by lia. rewrite Z.pow_succ_r by lia. ring. }
  set (q := Z.of_nat n / 2 ^ (h - 1)). pose proof (Z.div_mod q 2 ltac:(lia)). pose proof (Z.mod_pos_bound q 2 ltac:(lia)).
  destruct (Z.eqb_spec (q / 2) j), (Z.eqb_spec q (2 * j)), (Z.eqb_spec q (2 * j + 1)); lia.
Qed.

Lemma cov_beyond ws j n : Z.of_nat n <= j -> cov ws 0 j n = 0.
Proof.
  induction n as [|n IH]; cbn [cov]; [done|]. intros Hj. rewrite Z.pow_0_r, Z.div_1_r, IH by lia.
  rewrite (proj2 (Z.eqb_neq _ _)) by lia. done.
Qed.

Lemma cov_root ws h n : 0 <= h -> Z.of_nat n <= 2 ^ h -> cov ws h 0 n = total ws n.
Proof.
  intros Hh. induction n as [|n IH]; cbn [cov total]; [done|]. intros Hn. rewrite IH by lia.
  rewrite Z.div_small by lia. done.
Qed.

(** ** The loops *)

Lemma nodew_insert nw n k v :
  0 <= n < zlen nw -> 0 <= k -> nodew (<[Z.to_nat n := v]> nw) k = if k =? n then v else nodew nw k.
Proof.
  intros Hn Hk. unfold nodew.
  destruct (Z.eqb_spec k n) as [->|Hne]; rewrite !nth_lookup.
  - by rewrite list_lookup_insert_eq by lia.
  - by rewrite list_lookup_insert_ne by lia.
Qed.

(** The nodes of height [h] count the first [f h] leaves. *)
Record tree_inv (d : Z) (ws nw : list Z) (f : Z -> nat) : Prop := TreeInv {
  tv_len : zlen nw = 2 ^ d;
  tv_u32 : Forall (is_u 32) nw;
  tv_node : forall h j, 0 <= h -> 0 <= j -> node h j < 2 ^ d -> nodew nw (node h j) = cov ws h j (f h);
}.

Lemma cov_S_other ws h j n : Z.of_nat n / 2 ^ h <> j -> cov ws h j (S n) = cov ws h j n.
Proof. intros Hne. cbn [cov]. rewrite (proj2 (Z.eqb_neq _ _)) by done. lia. Qed.

Lemma cov_S_own ws h n : cov ws h (Z.of_nat n / 2 ^ h) (S n) = cov ws h (Z.of_nat n / 2 ^ h) n + leafw ws n.
Proof. cbn [cov]. by rewrite Z.eqb_refl. Qed.

(** Counting leaf [i] at height [h]. *)
Lemma tree_inv_step d ws nw f h i :
  tree_inv d ws nw f -> 0 <= h -> f h = i -> node h (Z.of_nat i / 2 ^ h) < 2 ^ d -> total ws (S i) < 2 ^ 32 ->
  tree_inv d ws (<[Z.to_nat (node h (Z.of_nat i / 2 ^ h)) := cov ws h (Z.of_nat i / 2 ^ h) (S i)]> nw)
    (fun h' => if h' =? h then S i else f h').
Proof.
  intros [Hl Hu Hn] Hh Hf Hd Ht. set (j0 := Z.of_nat i / 2 ^ h) in *.
  assert (0 <= j0) by (apply Z.div_pos; [lia|by apply pow2_pos]).
  assert (0 <= node h j0) by (unfold node; pose proof (pow2_pos h Hh); nia). split.
  - by rewrite length_insert.
  - apply Forall_insert; [done|]. destruct (cov_range ws h j0 (S i)). split; lia.
  - intros h' j Hh' Hj Hlt. rewrite nodew_insert; [|lia|unfold node; pose proof (pow2_pos h' Hh'); nia].
    destruct (Z.eqb_spec (node h' j) (node h j0)) as [E|Hne].
    + apply node_inj in E as [-> ->]; [|done..]. by rewrite Z.eqb_refl.
    + rewrite Hn by done. destruct (Z.eqb_spec h' h) as [->|]; [|done]. rewrite Hf, cov_S_other; [done|].
      intros E. apply Hne. by rewrite <- E.
Qed.

Lemma tree_inv_ext d ws nw f g : (forall h, 0 <= h -> f h = g h) -> tree_inv d ws nw f -> tree_inv d ws nw g.
Proof. intros E [? ? Hn]. split; [done..|]. intros h j Hh Hj Hlt. rewrite Hn, E by done. done. Qed.

Lemma div_pow2_succ i h : 0 <= h -> i / 2 ^ h / 2 = i / 2 ^ (h + 1).
Proof. intros Hh. pose proof (pow2_pos h Hh). rewrite Z.div_div by lia. rewrite Z.pow_add_r by lia. done. Qed.

(** The ancestors of leaf [i] lie inside the tree. *)
Lemma node_bound d h i : 0 <= h < d -> 0 <= i < 2 ^ (d - 1) -> 0 <= node h (i / 2 ^ h) < 2 ^ d.
Proof.
  intros Hh Hi. pose proof (pow2_pos h (proj1 Hh)).
  assert (0 <= i / 2 ^ h) by (apply Z.div_pos; lia).
  assert (i / 2 ^ h < 2 ^ (d - 1 - h)).
  { apply Z.div_lt_upper_bound; [done|]. rewrite <- Z.pow_add_r by lia. replace (h + (d - 1 - h)) with (d - 1) by lia. lia. }
  assert (2 ^ d = 2 * (2 ^ h * 2 ^ (d - 1 - h))) as ->.
  { rewrite <- Z.pow_add_r, <- Z.pow_succ_r by lia. f_equal. lia. }
  unfold node. nia.
Qed.

Lemma add_up_spec n d ws nw i h wi :
  1 <= d <= 31 -> 0 <= h -> h + Z.of_nat n = d - 1 -> Z.of_nat i < 2 ^ (d - 1) -> total ws (S i) < 2 ^ 32 ->
  u32 wi = leafw ws i ->
  tree_inv d ws nw (fun h' => if h' <=? h then S i else i) ->
  exists nw', add_up n (node h (Z.of_nat i / 2 ^ h)) wi nw = Ret (nw', true) /\
    tree_inv d ws nw' (fun h' => if h' <=? d - 1 then S i else i).
Proof.
  intros Hd. revert h nw. induction n as [|n IH]; intros h nw Hh Hn Hi Ht Ew Hinv; cbn [add_up].
  { exists nw. split; [done|]. by replace (d - 1) with h by lia. }
  rewrite parent_spec by (try apply Z.div_pos; try apply pow2_pos; lia). cbn [rbind].
  rewrite div_pow2_succ by lia. set (p := node (h + 1) (Z.of_nat i / 2 ^ (h + 1))).
  assert (0 <= p < 2 ^ d) as Hp by (apply node_bound; lia).
  pose proof Hinv as [Hl Hu Hnd].
  set (v := cov ws (h + 1) (Z.of_nat i / 2 ^ (h + 1)) i).
  assert (nodew nw p = v) as Ev.
  { unfold p. rewrite Hnd by (try apply Z.div_pos; try apply pow2_pos; lia).
    by rewrite (proj2 (Z.leb_gt (h + 1) h)) by lia. }
  rewrite aget_nodew by lia. cbn [rbind]. rewrite Ev.
  pose proof (cov_range ws (h + 1) (Z.of_nat i / 2 ^ (h + 1)) (S i)) as Hr. rewrite cov_S_own in Hr. fold v in Hr.
  pose proof (cov_range ws (h + 1) (Z.of_nat i / 2 ^ (h + 1)) i) as Hr0. fold v in Hr0. pose proof (leafw_u32 ws i) as [Hw0 _].
  assert (crush_addition_is_unsafe v wi = false) as ->.
  { unfold crush_addition_is_unsafe. rewrite Ew, (uw_small 32 v) by (split; lia).
    apply Z.ltb_ge. change (u32 (-1)) with (2 ^ 32 - 1). lia. }
  rewrite aset_in by lia. cbn [rbind].
  assert (u32 (v + wi) = v + leafw ws i) as ->.
  { rewrite <- Ew. unfold uw. rewrite <- Z.add_mod_idemp_r by lia. apply Z.mod_small. unfold uw in Ew. rewrite Ew. lia. }
  unfold v. rewrite <- cov_S_own. apply IH; try done; try lia.
  eapply tree_inv_ext; [|apply (tree_inv_step d ws nw (fun h' => if h' <=? h then S i else i) (h + 1) i); try done].
  - cbn beta. intros h' Hh'. destruct (Z.eqb_spec h' (h + 1)), (Z.leb_spec h' h), (Z.leb_spec h' (h + 1)); (done || lia).
  - lia.
  - rewrite (proj2 (Z.leb_gt (h + 1) h)) by lia. done.
  - by apply Hp.
Qed.

Lemma tree_fill_spec n d ws nw i :
  1 <= d <= 31 -> (i + n <= length ws)%nat -> Z.of_nat (i + n) <= 2 ^ (d - 1) -> total ws i < 2 ^ 32 ->
  tree_inv d ws nw (fun _ => i) ->
  exists o, tree_fill n (Z.of_nat i) d ws nw (total ws i) = Ret o /\
    if total ws (i + n) <? 2 ^ 32
    then exists nw', o = Some (nw', total ws (i + n)) /\ tree_inv d ws nw' (fun _ => (i + n)%nat)
    else o = None.
Proof.
  intros Hd. revert i nw. induction n as [|n IH]; intros i nw Hl Hi Ht Hinv; cbn [tree_fill].
  { exists (Some (nw, total ws i)). split; [done|]. rewrite Nat.add_0_r, (proj2 (Z.ltb_lt _ _)) by done. by exists nw. }
  pose proof (aget_nodew ws (Z.of_nat i) ltac:(lia)) as Ei. unfold nodew in Ei. rewrite Nat2Z.id in Ei.
  rewrite Ei. cbn [rbind]. set (wi := nth i ws 0). assert (u32 wi = leafw ws i) as Ew by done.
  assert (2 ^ (d - 1) <= 2 ^ 30) by (apply Z.pow_le_mono_r; lia).
  assert (crush_calc_tree_node (Z.of_nat i) = node 0 (Z.of_nat i / 2 ^ 0)) as En.
  { unfold crush_calc_tree_node, node. rewrite Z.shiftl_mul_pow2 by lia. rewrite (sw_small 32) by (split; lia).
    rewrite Z.pow_0_r, Z.div_1_r. lia. }
  pose proof (node_bound d 0 (Z.of_nat i) ltac:(lia) ltac:(lia)) as Hb. pose proof (tv_len _ _ _ _ Hinv) as Hlen.
  rewrite En. rewrite aset_in by lia. cbn [rbind].
  destruct (cov_range ws 0 0 i) as [Ht0 _]. pose proof (cov_range ws 0 0 i).
  pose proof (leafw_u32 ws i) as Hlw. assert (0 <= total ws i) by lia.
  assert (crush_addition_is_unsafe (total ws i) wi = negb (total ws (S i) <? 2 ^ 32)) as ->.
  { change (total ws (S i)) with (total ws i + leafw ws i).
    rewrite <- (addition_unsafe_spec (total ws i) (leafw ws i)) by (done || (split; lia)).
    unfold crush_addition_is_unsafe. rewrite Ew. by rewrite (uw_small 32 (leafw ws i)). }
  destruct (Z.ltb_spec (total ws (S i)) (2 ^ 32)) as [Hlt|Hge]; cbn [negb]; cycle 1.
  { exists None. split; [done|]. pose proof (total_mono ws (S i) (i + S n) ltac:(lia)).
    by rewrite (proj2 (Z.ltb_ge _ _)) by lia. }
  assert (u32 wi = cov ws 0 (Z.of_nat i / 2 ^ 0) (S i)) as ->.
  { rewrite Ew, cov_S_own, Z.pow_0_r, Z.div_1_r, cov_beyond by lia. lia. }
  destruct (add_up_spec (Z.to_nat (d - 1)) d ws
    (<[Z.to_nat (node 0 (Z.of_nat i / 2 ^ 0)) := cov ws 0 (Z.of_nat i / 2 ^ 0) (S i)]> nw) i 0 wi)
    as (nw' & -> & Hinv'); try done; try lia.
  { eapply tree_inv_ext; [|apply (tree_inv_step d ws nw (fun _ => i) 0 i); (done || lia)].
    cbn beta. intros h Hh. destruct (Z.eqb_spec h 0), (Z.leb_spec h 0); (done || lia). }
  cbn [rbind]. assert (u32 (total ws i + wi) = total ws (S i)) as ->.
  { change (total ws (S i)) with (total ws i + u32 wi) in *. unfold uw in *.
    rewrite <- Z.add_mod_idemp_r by lia. apply Z.mod_small. destruct Hlw. fold wi in Ew. lia. }
  replace (Z.of_nat i + 1) with (Z.of_nat (S i)) by lia. rewrite <- Nat.add_succ_comm. apply IH; try done; try lia.
  (* heights above the root have no node in the tree *)
  destruct Hinv' as [? ? Hn]. split; [done..|]. intros h j Hh Hj Hnb. rewrite Hn by done.
  destruct (Z.leb_spec h (d - 1)); [done|]. exfalso. unfold node in Hnb.
  assert (2 ^ d <= 2 ^ h) by (apply Z.pow_le_mono_r; lia). nia.
Qed.

Lemma depth_loop_spec fuel t k :
  0 <= t < 2 ^ Z.of_nat fuel -> depth_loop fuel t k = k + (if t =? 0 then 0 else Z.log2 t + 1).
Proof.
  revert t k. induction fuel as [|fuel IH]; intros t k Ht; cbn [depth_loop].
  { cbn in Ht. assert (t = 0) as -> by lia. cbn. lia. }
  destruct (Z.eqb_spec t 0) as [->|Hne]; [lia|].
  rewrite Nat2Z.inj_succ, Z.pow_succ_r in Ht by lia.
  rewrite IH by (rewrite Z.shiftr_div_pow2 by lia; split; [apply Z.div_pos|apply Z.div_lt_upper_bound]; lia).
  destruct (Z.eqb_spec (Z.shiftr t 1) 0) as [E|Hn1].
  - rewrite Z.shiftr_div_pow2 in E by lia. assert (t < 2) by (change (2 ^ 1) with 2 in E; apply Z.div_small_iff in E; lia).
    assert (t = 1) as -> by lia. cbn. lia.
  - rewrite Z.log2_shiftr by lia. rewrite Z.shiftr_div_pow2 in Hn1 by lia. change (2 ^ 1) with 2 in Hn1.
    assert (2 <= t). { destruct (Z_lt_le_dec t 2); [|done]. rewrite Z.div_small in Hn1 by lia. lia. }
    pose proof (Z.log2_le_mono 2 t ltac:(lia)). change (Z.log2 2) with 1 in *. lia.
Qed.

Lemma calc_depth_spec sz :
  0 < sz <= 2 ^ 30 -> let d := calc_depth sz in 1 <= d <= 31 /\ sz <= 2 ^ (d - 1) /\ (1 < sz -> 2 ^ (d - 2) < sz).
Proof.
  intros Hs. unfold calc_depth. rewrite (proj2 (Z.eqb_neq sz 0)) by lia.
  rewrite depth_loop_spec by (change (2 ^ Z.of_nat 31) with (2 ^ 31); lia). cbn zeta.
  destruct (Z.eqb_spec (sz - 1) 0) as [E|Hne].
  - assert (sz = 1) as -> by lia. cbn. lia.
  - pose proof (Z.log2_spec (sz - 1) ltac:(lia)) as [Hlo Hhi]. pose proof (Z.log2_nonneg (sz - 1)).
    assert (Z.log2 (sz - 1) < 30) by (apply Z.log2_lt_pow2; lia).
    replace (1 + (Z.log2 (sz - 1) + 1) - 1) with (Z.succ (Z.log2 (sz - 1))) by lia.
    replace (1 + (Z.log2 (sz - 1) + 1) - 2) with (Z.log2 (sz - 1)) by lia. lia.
Qed.

(** ** The maker *)

Lemma copy_spec n i l :
  0 <= i -> i + Z.of_nat n <= zlen l -> copy n i l = Ret (take n (drop (Z.to_nat i) l)).
Proof.
  revert i. induction n as [|n IH]; intros i Hi Hn; cbn [copy]; [done|].
  destruct (aget_in l i) as (v & -> & Ev); [lia|]. cbn [rbind]. rewrite IH by lia. cbn [rbind].
  rewrite (drop_S _ _ _ Ev). replace (Z.to_nat (i + 1)) with (S (Z.to_nat i)) by lia. done.
Qed.

Lemma tree_inv_start d ws : 0 <= d -> tree_inv d ws (replicate (Z.to_nat (2 ^ d)) 0) (fun _ => 0%nat).
Proof.
  intros Hd. pose proof (pow2_pos d Hd). split.
  - rewrite length_replicate. lia.
  - apply Forall_replicate. by split.
  - intros h j Hh Hj Hlt. unfold nodew. rewrite nth_lookup. cbn [cov].
    destruct (replicate _ 0 !! _) as [v|] eqn:E; [|done]. by apply lookup_replicate in E as [-> _].
Qed.

Lemma tree_inv_ok d ws nw n :
  1 <= d <= 31 -> Z.of_nat n <= 2 ^ (d - 1) -> 0 < total ws n -> tree_inv d ws nw (fun _ => n) ->
  tree_ok (Z.of_nat n) (2 ^ d) nw d.
Proof.
  intros Hd Hn Ht [Hl Hu Hnd]. split; try done.
  - intros h j Hh Hj Hlt. pose proof (pow2_pos (h - 1) ltac:(lia)).
    assert (2 ^ h = 2 * 2 ^ (h - 1)) as E2 by (rewrite <- Z.pow_succ_r by lia; f_equal; lia).
    replace ((2 * j + 1) * 2 ^ h - 2 ^ (h - 1)) with (node (h - 1) (2 * j)) by (unfold node; rewrite E2; ring).
    replace ((2 * j + 1) * 2 ^ h + 2 ^ (h - 1)) with (node (h - 1) (2 * j + 1)) by (unfold node; rewrite E2; ring).
    change ((2 * j + 1) * 2 ^ h) with (node h j) in *.
    rewrite Hnd by (done || lia). rewrite !Hnd; try lia; [by apply cov_split| |].
    + (* the right child lies inside the tree: both bounds are multiples of [2 ^ h] *)
      assert (2 ^ d = 2 ^ h * 2 ^ (d - h)) as Ed.
      { destruct (Z_le_gt_dec h d); [rewrite <- Z.pow_add_r by lia; f_equal; lia|].
        exfalso. assert (2 ^ d <= 2 ^ h) by (apply Z.pow_le_mono_r; lia). unfold node in Hlt. nia. }
      unfold node in *. rewrite Ed in Hlt |- *. assert (2 * j + 1 < 2 ^ (d - h)) by nia.
      rewrite E2. nia.
    + unfold node in *. nia.
  - intros i Hi Hlt. pose proof (Hnd 0 i ltac:(lia) ltac:(lia)) as E. unfold node in E.
    rewrite Z.pow_0_r, Z.mul_1_r in E. rewrite E by lia. apply cov_beyond. lia.
  - pose proof (Hnd (d - 1) 0 ltac:(lia) ltac:(lia)) as E. unfold node in E. rewrite Z.mul_0_r, Z.add_0_l, Z.mul_1_l in E.
    rewrite E, cov_root by (try lia; apply Z.pow_lt_mono_r; lia). done.
Qed.

Section make.
Context (alloc : Z -> Z -> bool) (Halloc : forall k n, alloc k n = true).

Lemma make_tree_spec hash' type' sz its ws (n := Z.to_nat sz) :
  0 < sz <= 64 -> sz <= zlen its -> sz <= zlen ws ->
  if total ws n <? 2 ^ 32 then
    exists d nw, crush_make_tree_bucket alloc hash' type' sz its ws =
      Ret (Some (new_bucket hash' type' (total ws n) sz (take n its) (BTree (2 ^ d) nw))) /\
      (0 < total ws n -> tree_ok sz (2 ^ d) nw d)
  else crush_make_tree_bucket alloc hash' type' sz its ws = Ret None.
Proof.
  intros Hsz Hi Hw. unfold crush_make_tree_bucket. rewrite !Halloc. cbn [negb].
  rewrite (proj2 (Z.eqb_neq sz 0)) by lia. destruct (calc_depth_spec sz) as (Hd & Hle & Hlow); [lia|].
  cbv zeta. set (d := calc_depth sz) in *.
  assert (d <= 7).
  { destruct (Z_le_gt_dec d 7); [done|]. destruct (Z.eq_dec sz 1) as [E|]; [subst d; rewrite E in *; vm_compute in g; done|].
    assert (2 ^ 6 <= 2 ^ (d - 2)) by (apply Z.pow_le_mono_r; lia). lia. }
  assert (u8 (Z.shiftl 1 d) = 2 ^ d) as ->.
  { rewrite Z.shiftl_mul_pow2, Z.mul_1_l by lia. apply uw_small. split; [apply Z.lt_le_incl, pow2_pos; lia|].
    apply Z.le_lt_trans with (2 ^ 7); [apply Z.pow_le_mono_r|]; lia. }
  rewrite copy_spec, drop_0 by lia. cbn [rbind].
  destruct (tree_fill_spec n d ws (replicate (Z.to_nat (2 ^ d)) 0) 0) as (o & Eo & Ho); try done; try lia.
  { apply tree_inv_start. lia. }
  change (Z.of_nat 0) with 0 in Eo. change (total ws 0) with 0 in Eo. fold n. rewrite Eo.
  cbn [rbind Nat.add] in *. destruct (total ws n <? 2 ^ 32); [|by rewrite Ho].
  destruct Ho as (nw & -> & Hinv). exists d, nw. cbn [total].
  assert (2 ^ d / 2 = node (d - 1) 0) as Er.
  { unfold node. rewrite Z.mul_0_r, Z.add_0_l, Z.mul_1_l. replace d with (Z.succ (d - 1)) at 1 by lia.
    rewrite Z.pow_succ_r, Z.mul_comm, Z.div_mul by lia. done. }
  pose proof (tv_len _ _ _ _ Hinv) as Hlen. pose proof (pow2_pos (d - 1) ltac:(lia)).
  assert (2 ^ d = 2 * 2 ^ (d - 1)) as E2 by (rewrite <- Z.pow_succ_r by lia; f_equal; lia).
  rewrite aget_nodew by (rewrite Hlen; split; [apply Z.div_pos|apply Z.div_lt_upper_bound]; lia). cbn [rbind].
  rewrite Er, (tv_node _ _ _ _ Hinv) by (try lia; unfold node; lia). rewrite cov_root, Z.eqb_refl by lia.
  split; [done|]. intros Ht. rewrite <- (Z2Nat.id sz) by lia. apply (tree_inv_ok d ws); (done || lia).
Qed.

(** With more than 64 items the maker writes out of bounds. *)
Lemma make_tree_overflow hash' type' sz its ws :
  64 < sz <= 2 ^ 30 -> sz <= zlen its -> sz <= zlen ws ->
  crush_make_tree_bucket alloc hash' type' sz its ws = Fault.
Proof.
  intros Hsz Hi Hw. unfold crush_make_tree_bucket. rewrite !Halloc. cbn [negb].
  rewrite (proj2 (Z.eqb_neq sz 0)) by lia. destruct (calc_depth_spec sz) as (Hd & Hle & Hlow); [lia|].
  cbv zeta. set (d := calc_depth sz) in *.
  assert (8 <= d).
  { destruct (Z_le_gt_dec 8 d); [done|]. assert (2 ^ (d - 1) <= 2 ^ 6) by (apply Z.pow_le_mono_r; lia). lia. }
  assert (u8 (Z.shiftl 1 d) = 0) as ->.
  { rewrite Z.shiftl_mul_pow2, Z.mul_1_l by lia. unfold uw. replace d with (d - 8 + 8) by lia.
    rewrite Z.pow_add_r by lia. apply Z.mod_mul. lia. }
  rewrite copy_spec by lia. cbn [rbind]. replace (Z.to_nat sz) with (S (Z.to_nat (sz - 1))) by lia. cbn [tree_fill].
  destruct (aget_in ws 0) as (w & -> & _); [lia|]. done.
Qed.
End make.
