(* ===== verification/CrushItems.v ===== *)
(** * Items added to and removed from buckets

    The makers of straw2, list and uniform buckets give well-formed buckets;
    adding an item to a straw2 or a list bucket keeps it well-formed and moves
    inputs only to the new item; removing one from a straw2 bucket moves only
    the inputs that were on it. *)

From S2P Require Import Prelude CrushHash CrushTypes CrushLn CrushBucket CrushPerm CrushChoose CrushStraw2 CrushBuilder CrushBuilt CrushTreeMake.
Open Scope Z_scope.

#[local] Strategy 1000 [draw crush_ln].

(** ** Arrays *)

Section arrays.
Context (alloc : Z -> Z -> bool) (Halloc : forall k n, alloc k n = true) (junk : Z).

Lemma realloc_grow k n (l : list Z) : zlen l = n -> realloc alloc junk k (n + 1) l = (true, l ++ [junk]).
Proof.
  intros E. unfold realloc. rewrite (proj2 (Z.eqb_neq (n + 1) 0)) by lia. rewrite Halloc.
  rewrite take_ge by lia. by replace (Z.to_nat (n + 1) - length l)%nat with 1%nat by lia.
Qed.

Lemma realloc_shrink k n (l : list Z) : 0 < n <= zlen l -> realloc alloc junk k n l = (true, take (Z.to_nat n) l).
Proof.
  intros Hn. unfold realloc. rewrite (proj2 (Z.eqb_neq n 0)) by lia. rewrite Halloc.
  replace (Z.to_nat n - length l)%nat with 0%nat by lia. cbn [replicate]. by rewrite app_nil_r.
Qed.

Lemma aset_snoc (l : list Z) (j v : Z) : aset (l ++ [j]) (zlen l) v = Ret (l ++ [v]).
Proof.
  rewrite aset_in by (rewrite length_app; cbn; lia). f_equal. rewrite Nat2Z.id.
  rewrite insert_app_r_alt by lia. by rewrite Nat.sub_diag.
Qed.

(** ** Makers *)

Lemma weight_fill_spec n i w ws :
  0 <= i -> i + Z.of_nat n <= zlen ws ->
  exists w', weight_fill n i w ws = Ret ((fun v => u32 v) <$> take n (drop (Z.to_nat i) ws), w') /\
    w' mod 2 ^ 32 = (w + foldr Z.add 0 (take n (drop (Z.to_nat i) ws))) mod 2 ^ 32.
Proof.
  revert i w. induction n as [|n IH]; intros i w Hi Hn; cbn [weight_fill].
  { exists w. split; [done|]. cbn [take foldr]. by rewrite Z.add_0_r. }
  destruct (aget_in ws i) as (wi & -> & Ei); [lia|]. cbn [rbind].
  destruct (IH (i + 1) (u32 (w + wi))) as (w' & -> & Ew); [lia..|]. cbn [rbind].
  exists w'. rewrite (drop_S _ _ _ Ei). replace (S (Z.to_nat i)) with (Z.to_nat (i + 1)) by lia.
  split; [done|]. rewrite Ew. cbn [take foldr]. unfold uw. by rewrite Zplus_mod_idemp_l, Z.add_assoc.
Qed.

Lemma u32_forall (l : list Z) : Forall (is_u 32) ((fun v => u32 v) <$> l).
Proof. apply Forall_fmap. apply Forall_true. intros v. cbn. apply uw_range. lia. Qed.

Lemma make_straw2_spec hash' type' sz its ws :
  0 <= sz < 0xffff -> sz <= zlen its -> sz <= zlen ws ->
  exists b, crush_make_straw2_bucket alloc hash' type' sz its ws = Ret (Some b) /\ wf_bucket b /\
    size b = sz /\ items b = take (Z.to_nat sz) its /\
    body b = BStraw2 ((fun v => u32 v) <$> take (Z.to_nat sz) ws) /\
    weight b mod 2 ^ 32 = foldr Z.add 0 (take (Z.to_nat sz) ws) mod 2 ^ 32.
Proof.
  intros Hs Hi Hw. unfold crush_make_straw2_bucket. rewrite !Halloc. cbn [negb].
  rewrite copy_spec, drop_0 by lia. cbn [rbind].
  destruct (weight_fill_spec (Z.to_nat sz) 0 0 ws) as (w & -> & Ew); [lia..|]. cbn [rbind]. rewrite drop_0 in *.
  eexists. split; [done|]. unfold new_bucket. cbn [size items body weight]. rewrite (uw_small 32 sz) by (split; lia).
  split; [|done]. split; cbn [size items]; [done|rewrite length_take; lia|].
  intros _. unfold wf_body. cbn [body size]. rewrite length_fmap, length_take. split; [lia|apply u32_forall].
Qed.

(** ** Adding to a straw2 bucket *)

Lemma add_straw2_spec b iw item w :
  wf_bucket b -> size b + 1 < 0xffff -> zlen iw = size b -> is_u 32 (weight b) -> weight b + u32 w < 2 ^ 32 ->
  crush_add_straw2_bucket_item alloc junk b iw item w =
    Ret (0, upd b (weight b + u32 w) (size b + 1) (items b ++ [item]) (BStraw2 (iw ++ [u32 w]))).
Proof.
  intros [Hs Hi _] Hs' Hl Hwb Hw. unfold crush_add_straw2_bucket_item.
  rewrite (sw_small 32) by (split; lia). cbv zeta.
  rewrite (realloc_grow 0 (size b)), (realloc_grow 1 (size b)) by done. cbn [negb].
  replace (size b + 1 - 1) with (zlen (items b)) at 1 by lia. rewrite aset_snoc. cbn [rbind].
  replace (size b + 1 - 1) with (zlen iw) by lia. rewrite aset_snoc. cbn [rbind].
  assert (crush_addition_is_unsafe (weight b) w = false) as ->.
  { unfold crush_addition_is_unsafe. rewrite (uw_small 32 (weight b)) by done.
    apply Z.ltb_ge. change (u32 (-1)) with (2 ^ 32 - 1). lia. }
  do 2 f_equal. unfold upd. rewrite (uw_small 32 (size b + 1)) by (split; lia).
  assert (u32 (weight b + w) = weight b + u32 w) as ->; [|done].
  unfold uw in *. rewrite <- Z.add_mod_idemp_r by lia. apply Z.mod_small. destruct Hwb.
  pose proof (Z.mod_pos_bound w (2 ^ 32)). lia.
Qed.
End arrays.

Lemma argmax_snoc l d k k' :
  is_argmax l k -> is_argmax (l ++ [d]) k' -> k' = k \/ k' = length l.
Proof.
  intros A (m & Em & H). destruct (decide (k' = length l)) as [|Hne]; [by right|]. left.
  apply (is_argmax_unique l); [|done]. exists m. split.
  - apply lookup_app_Some in Em as [Em|[? Em]]; [done|]. apply list_lookup_singleton_Some in Em. lia.
  - intros j e Ej. apply H. by apply lookup_app_l_Some.
Qed.

Lemma draws_snoc h x r idl ws v w :
  length idl = length ws -> draws h x r (idl ++ [v]) (ws ++ [w]) = draws h x r idl ws ++ [draw h x r v w].
Proof. intros E. unfold draws. by rewrite zip_with_app. Qed.

(** The choice of a straw2 bucket with its own weights and ids. *)
Lemma straw2_own b iw x r p :
  0 < size b -> zlen (items b) = size b -> zlen iw = size b -> Forall (is_u 32) iw ->
  exists k it, bucket_straw2_choose b iw x r None p = Ret it /\ items b !! k = Some it /\
    is_argmax (draws (hash b) x r (items b) iw) k.
Proof.
  intros Hs Hi Hw Hu. destruct (straw2_choose_argmax b iw x r None p iw) as (k & it & E & Ek & A); try done.
  { split; cbn; (lia || done). }
  cbn in A. rewrite take_ge in A by (unfold draws; rewrite length_zip_with; lia). by exists k, it.
Qed.

Lemma straw2_add_moves b iw item w bw x r p
    (b' := upd b bw (size b + 1) (items b ++ [item]) (BStraw2 (iw ++ [w]))) :
  0 < size b -> zlen (items b) = size b -> zlen iw = size b -> Forall (is_u 32) iw -> is_u 32 w ->
  exists it it', bucket_straw2_choose b iw x r None p = Ret it /\
    bucket_straw2_choose b' (iw ++ [w]) x r None p = Ret it' /\ (it' = it \/ it' = item).
Proof.
  intros Hs Hi Hl Hu Hw. destruct (straw2_own b iw x r p Hs Hi Hl Hu) as (k & it & E & Ek & A).
  destruct (straw2_own b' (iw ++ [w]) x r p) as (k' & it' & E' & Ek' & A').
  { cbn. lia. }
  { cbn. rewrite length_app. cbn. lia. }
  { cbn. rewrite length_app. cbn. lia. }
  { apply Forall_app. split; [done|]. by constructor. }
  exists it, it'. split; [done|]. split; [done|]. cbn [hash items b' upd] in A', Ek'.
  rewrite draws_snoc in A' by lia.
  assert (length (draws (hash b) x r (items b) iw) = length (items b)) as Ld
    by (unfold draws; rewrite length_zip_with; lia).
  destruct (argmax_snoc _ _ _ _ A A') as [-> | ->].
  - left. rewrite lookup_app_l in Ek' by (by eapply lookup_lt_Some). congruence.
  - right. rewrite Ld, lookup_app_r, Nat.sub_diag in Ek' by lia. cbn in Ek'. congruence.
Qed.

(** ** List buckets *)

Lemma u32_s32 z : u32 (s32 z) = u32 z.
Proof.
  unfold uw, sw. rewrite Zminus_mod_idemp_l. f_equal. lia.
Qed.

Lemma u32_add a b c : u32 a = c -> u32 (a + b) = u32 (c + u32 b).
Proof. intros <-. unfold uw. by rewrite <- Zplus_mod. Qed.

(** The running sums of [n] weights from position [i] on. *)
Definition sums (ws : list Z) (i n : nat) : list Z := (fun k => total ws (S k)) <$> seq i n.

Lemma list_fill_spec n i w its ws :
  (i + n <= length its)%nat -> (i + n <= length ws)%nat -> u32 w = total ws i ->
  if total ws (i + n) <? 2 ^ 32 then
    exists w', list_fill n (Z.of_nat i) w its ws =
      Ret (Some (take n (drop i its), (fun v => u32 v) <$> take n (drop i ws), sums ws i n, w')) /\
      u32 w' = total ws (i + n)
  else list_fill n (Z.of_nat i) w its ws = Ret None.
Proof.
  revert i w. induction n as [|n IH]; intros i w Hi Hn Hw; cbn [list_fill].
  { rewrite Nat.add_0_r, <- Hw. destruct (uw_range 32 w) as [_ Hr]; [lia|].
    rewrite (proj2 (Z.ltb_lt _ _)) by done. by exists w. }
  destruct (lookup_lt_is_Some_2 its i) as [it Eit]; [lia|]. destruct (lookup_lt_is_Some_2 ws i) as [wi Ewi]; [lia|].
  assert (0 <= Z.of_nat i) as H0 by lia.
  rewrite (proj2 (aget_Ret its (Z.of_nat i) it)), (proj2 (aget_Ret ws (Z.of_nat i) wi)) by (rewrite Nat2Z.id; done).
  cbn [rbind]. assert (leafw ws i = u32 wi) as El by (unfold leafw; by rewrite nth_lookup, Ewi).
  assert (crush_addition_is_unsafe w wi = negb (total ws (S i) <? 2 ^ 32)) as ->.
  { change (total ws (S i)) with (total ws i + leafw ws i). rewrite El, <- Hw.
    rewrite <- (addition_unsafe_spec (u32 w) (u32 wi)) by (apply uw_range; lia).
    unfold crush_addition_is_unsafe. by rewrite !(uw_small 32 (u32 _)) by (apply uw_range; lia). }
  destruct (Z.ltb_spec (total ws (S i)) (2 ^ 32)) as [Hlt|Hge]; cbn [negb]; cycle 1.
  { pose proof (total_mono ws (S i) (i + S n) ltac:(lia)). by rewrite (proj2 (Z.ltb_ge _ _)) by lia. }
  pose proof (cov_range ws 0 0 (S i)).
  assert (u32 (s32 (w + wi)) = total ws (S i)) as Ew.
  { rewrite u32_s32, (u32_add _ _ _ Hw), <- El. apply (uw_small 32 (total ws (S i))). split; lia. }
  specialize (IH (S i) (s32 (w + wi)) ltac:(lia) ltac:(lia) Ew). rewrite Nat.add_succ_comm in IH.
  replace (Z.of_nat i + 1) with (Z.of_nat (S i)) by lia.
  destruct (total ws (i + S n) <? 2 ^ 32); [|by rewrite IH].
  destruct IH as (w' & -> & Ew'). cbn [rbind]. exists w'. split; [|done].
  rewrite (drop_S _ _ _ Eit), (drop_S _ _ _ Ewi), Ew. done.
Qed.

Lemma aget_app_l {A} (l l' : list A) i : 0 <= i < zlen l -> aget (l ++ l') i = aget l i.
Proof.
  intros Hi. destruct (aget_in l i Hi) as (v & -> & E). apply aget_Ret. split; [lia|].
  by apply lookup_app_l_Some.
Qed.

Lemma list_loop_prefix n b iw sw item v s bw sz bd x r :
  0 < size b -> zlen (items b) = size b -> zlen iw = size b -> zlen sw = size b -> Z.of_nat n <= size b ->
  list_loop n (upd b bw sz (items b ++ [item]) bd) (iw ++ [v]) (sw ++ [s]) x r = list_loop n b iw sw x r.
Proof.
  intros Hs Hi Hw Hsw. induction n as [|n IH]; intros Hn; cbn [list_loop items upd hash id].
  { apply aget_app_l. lia. }
  rewrite !aget_app_l by lia. by rewrite IH by lia.
Qed.

Lemma list_add_moves b iw sw item v s bw x r
    (b' := upd b bw (size b + 1) (items b ++ [item]) (BList (iw ++ [v]) (sw ++ [s]))) :
  0 < size b < 0xffff -> zlen (items b) = size b -> zlen iw = size b -> zlen sw = size b ->
  exists it it', bucket_list_choose b iw sw x r = Ret it /\
    bucket_list_choose b' (iw ++ [v]) (sw ++ [s]) x r = Ret it' /\ (it' = it \/ it' = item).
Proof.
  intros Hs Hi Hw Hsw. unfold bucket_list_choose. cbn [size b' upd].
  rewrite !(sw_small 32) by (split; lia).
  destruct (list_loop_spec (Z.to_nat (size b - 1 + 1)) b iw sw x r) as (it & E & _); try lia.
  rewrite E. replace (Z.to_nat (size b + 1 - 1 + 1)) with (S (Z.to_nat (size b - 1 + 1))) by lia.
  cbn [list_loop items upd hash id b']. set (i := Z.of_nat _). assert (i = size b) as Ei by lia.
  assert (forall (l : list Z) u, zlen l = size b -> aget (l ++ [u]) i = Ret u) as Hlast.
  { intros l u Hl. apply aget_Ret. split; [lia|]. rewrite lookup_app_r by lia.
    replace (Z.to_nat i - length l)%nat with 0%nat by lia. done. }
  rewrite !Hlast by done. cbn [rbind]. exists it. destruct (_ <? v); [exists item; auto|].
  exists it. split; [done|]. split; [|auto]. rewrite <- E. apply list_loop_prefix; lia.
Qed.

Section list_ops.
Context (alloc : Z -> Z -> bool) (Halloc : forall k n, alloc k n = true) (junk : Z).

Lemma make_list_spec hash' type' sz its ws (n := Z.to_nat sz) :
  0 <= sz < 0xffff -> sz <= zlen its -> sz <= zlen ws ->
  if total ws n <? 2 ^ 32 then
    exists b, crush_make_list_bucket alloc hash' type' sz its ws = Ret (Some b) /\ wf_bucket b /\
      size b = sz /\ items b = take n its /\ weight b = total ws n /\
      body b = BList ((fun v => u32 v) <$> take n ws) (sums ws 0 n)
  else crush_make_list_bucket alloc hash' type' sz its ws = Ret None.
Proof.
  intros Hs Hi Hw. unfold crush_make_list_bucket. rewrite !Halloc. cbn [negb]. fold n.
  pose proof (list_fill_spec n 0 0 its ws ltac:(lia) ltac:(lia) eq_refl) as Hf.
  rewrite Nat.add_0_l, !drop_0 in Hf. change (Z.of_nat 0) with 0 in Hf.
  destruct (total ws n <? 2 ^ 32); [|by rewrite Hf]. destruct Hf as (w & -> & Ew). cbn [rbind].
  eexists. split; [done|]. unfold new_bucket. cbn [size items body weight]. rewrite (uw_small 32 sz) by (split; lia).
  split; [|done]. split; cbn [size items]; [done|rewrite length_take; lia|].
  intros _. unfold wf_body, sums. cbn [body size]. rewrite !length_fmap, length_take, length_seq. lia.
Qed.

Lemma add_list_spec b iw sw item w last :
  zlen (items b) = size b -> 0 < size b -> size b + 1 < 0xffff -> zlen iw = size b -> zlen sw = size b ->
  sw !! Z.to_nat (size b - 1) = Some last -> is_u 32 last -> last + u32 w < 2 ^ 32 ->
  crush_add_list_bucket_item alloc junk b iw sw item w =
    Ret (0, upd b (u32 (weight b + w)) (size b + 1) (items b ++ [item]) (BList (iw ++ [u32 w]) (sw ++ [last + u32 w]))).
Proof.
  intros Hi Hs Hs' Hiw Hsw El Hlast Hw. unfold crush_add_list_bucket_item.
  rewrite (sw_small 32) by (split; lia). cbv zeta.
  rewrite (realloc_grow alloc Halloc junk 0 (size b)), (realloc_grow alloc Halloc junk 1 (size b)),
    (realloc_grow alloc Halloc junk 2 (size b)) by done. cbn [negb].
  replace (size b + 1 - 1) with (zlen (items b)) at 1 by lia. rewrite aset_snoc. cbn [rbind].
  replace (size b + 1 - 1) with (zlen iw) at 1 by lia. rewrite aset_snoc. cbn [rbind].
  rewrite (proj2 (Z.ltb_lt 1 _)) by lia. replace (size b + 1 - 2) with (size b - 1) by lia.
  rewrite aget_app_l by lia. assert (0 <= size b - 1) as H0 by lia.
  rewrite (proj2 (aget_Ret _ _ _) (conj H0 El)). cbn [rbind].
  assert (crush_addition_is_unsafe last w = false) as ->.
  { unfold crush_addition_is_unsafe. rewrite (uw_small 32 last) by done.
    apply Z.ltb_ge. change (u32 (-1)) with (2 ^ 32 - 1). lia. }
  replace (size b + 1 - 1) with (zlen sw) by lia. rewrite aset_snoc. cbn [rbind].
  rewrite (uw_small 32 (size b + 1)) by (split; lia).
  assert (u32 (last + w) = last + u32 w) as ->; [|done].
  rewrite (u32_add last w last) by (by apply uw_small). apply uw_small. destruct Hlast.
  destruct (uw_range 32 w); [lia|]. split; lia.
Qed.
End list_ops.

(** ** Removing *)

Lemma find_item_spec n i its item :
  0 <= i -> i + Z.of_nat n <= zlen its ->
  exists p, find_item n i its item = Ret p /\ i <= p <= i + Z.of_nat n /\
    (p < i + Z.of_nat n -> its !! Z.to_nat p = Some item) /\
    forall k, (Z.to_nat i <= k < Z.to_nat p)%nat -> its !! k <> Some item.
Proof.
  revert i. induction n as [|n IH]; intros i Hi Hn; cbn [find_item].
  { exists i. split; [done|]. split; [lia|]. split; [lia|]. intros k Hk. lia. }
  destruct (aget_in its i) as (v & -> & Ev); [lia|]. cbn [rbind].
  destruct (Z.eqb_spec v item) as [->|Hne].
  { exists i. split; [done|]. split; [lia|]. split; [done|]. intros k Hk. lia. }
  destruct (IH (i + 1)) as (p & -> & Hp & Hf & Hb); [lia..|].
  exists p. split; [done|]. split; [lia|]. split; [intros; apply Hf; lia|]. intros k Hk.
  destruct (decide (k = Z.to_nat i)) as [->|]; [congruence|]. apply Hb. lia.
Qed.

(** Cells [j + 1 .. j + n] moved down by one. *)
Definition moved_down (j n : nat) (l : list Z) : list Z := take j l ++ take n (drop (S j) l) ++ drop (j + n) l.

Lemma moved_down_0 (j : nat) (l : list Z) : moved_down j 0 l = l.
Proof. unfold moved_down. rewrite take_0, Nat.add_0_r, app_nil_l. apply take_drop. Qed.

Lemma moved_down_S (j n : nat) (l : list Z) v :
  l !! S j = Some v -> moved_down (S j) n (<[j := v]> l) = moved_down j (S n) l.
Proof.
  intros Ev. pose proof (lookup_lt_Some _ _ _ Ev). unfold moved_down.
  rewrite (take_S_r _ j v) by (apply list_lookup_insert_eq; lia).
  rewrite take_insert_ge, !drop_insert_lt by lia. rewrite (drop_S _ _ _ Ev). cbn [take].
  rewrite <- app_assoc. cbn. by rewrite Nat.add_succ_r.
Qed.

Lemma shift_items_spec oob n j l :
  0 <= j -> j + Z.of_nat n < zlen l -> shift_items oob n j l = Ret (moved_down (Z.to_nat j) n l).
Proof.
  revert j l. induction n as [|n IH]; intros j l Hj Hn; cbn [shift_items].
  { by rewrite moved_down_0. }
  unfold aget_over. rewrite (proj2 (Z.eqb_neq (j + 1) (zlen l))) by lia.
  destruct (aget_in l (j + 1)) as (v & -> & Ev); [lia|]. cbn [rbind]. rewrite aset_in by lia. cbn [rbind].
  rewrite IH by (rewrite ?length_insert; lia). replace (Z.to_nat (j + 1)) with (S (Z.to_nat j)) in * by lia.
  by rewrite moved_down_S.
Qed.

Lemma shift_down_spec oob n j l :
  0 <= j -> j + Z.of_nat n < zlen l -> Forall (is_u 32) l ->
  shift_down oob n j 0 l = Ret (moved_down (Z.to_nat j) n l).
Proof.
  revert j l. induction n as [|n IH]; intros j l Hj Hn Hu; cbn [shift_down].
  { by rewrite moved_down_0. }
  unfold aget_over. rewrite (proj2 (Z.eqb_neq (j + 1) (zlen l))) by lia.
  destruct (aget_in l (j + 1)) as (v & -> & Ev); [lia|]. cbn [rbind].
  pose proof (Forall_lookup_1 _ _ _ _ Hu Ev) as Hv. cbn in Hv.
  rewrite Z.sub_0_r, (uw_small 32 v) by done. rewrite aset_in by lia. cbn [rbind].
  rewrite IH by (try (by apply Forall_insert); rewrite ?length_insert; lia).
  replace (Z.to_nat (j + 1)) with (S (Z.to_nat j)) in * by lia. by rewrite moved_down_S.
Qed.

Lemma moved_down_delete (j : nat) (l : list Z) :
  (j < length l)%nat -> take (length l - 1) (moved_down j (length l - 1 - j) l) = delete j l.
Proof.
  intros Hj. unfold moved_down. rewrite delete_take_drop, app_assoc, take_app_le.
  - rewrite take_ge; [|rewrite length_app, !length_take, length_drop; lia]. f_equal. apply take_ge. rewrite length_drop. lia.
  - rewrite length_app, !length_take, length_drop. lia.
Qed.

Section remove_straw2.
Context (alloc : Z -> Z -> bool) (Halloc : forall k n, alloc k n = true) (junk : Z) (oob : res Z).

(** Removing an item: its first occurrence goes, with its weight. *)
Lemma remove_straw2_spec b iw item :
  zlen (items b) = size b -> 1 < size b < 0xffff -> zlen iw = size b -> Forall (is_u 32) iw ->
  (item ∉ items b -> crush_remove_straw2_bucket_item alloc junk oob b iw item = Ret (- ENOENT, b)) /\
  (item ∈ items b -> exists i w, items b !! i = Some item /\ iw !! i = Some w /\
    (forall k, (k < i)%nat -> items b !! k <> Some item) /\
    crush_remove_straw2_bucket_item alloc junk oob b iw item =
      Ret (0, upd b (drop_weight (weight b) w) (size b - 1) (delete i (items b)) (BStraw2 (delete i iw)))).
Proof.
  intros Hi Hs Hw Hu. unfold crush_remove_straw2_bucket_item.
  destruct (find_item_spec (Z.to_nat (size b)) 0 (items b) item) as (p & -> & Hp & Hf & Hb); [lia..|]. cbn [rbind].
  destruct (Z.eqb_spec p (size b)) as [->|Hne].
  { split; [done|]. intros [k Ek]%list_elem_of_lookup_1. exfalso. pose proof (lookup_lt_Some _ _ _ Ek).
    apply (Hb k); [lia|done]. }
  assert (items b !! Z.to_nat p = Some item) as Ep by (apply Hf; lia). split.
  { intros Hn. destruct Hn. by eapply list_elem_of_lookup_2. }
  intros _. destruct (aget_in iw p) as (w & -> & Ew); [lia|]. cbn [rbind]. exists (Z.to_nat p), w.
  split; [done|]. split; [done|]. split; [intros k Hk; apply Hb; lia|].
  rewrite shift_items_spec by lia. cbn [rbind]. rewrite shift_down_spec by (done || lia). cbn [rbind].
  rewrite (proj2 (Z.eqb_neq (size b - 1) 0)) by lia.
  assert (forall l : list Z, zlen l = size b ->
    realloc alloc junk 0 (size b - 1) (moved_down (Z.to_nat p) (Z.to_nat (size b - 1 - p)) l) = (true, delete (Z.to_nat p) l) /\
    realloc alloc junk 1 (size b - 1) (moved_down (Z.to_nat p) (Z.to_nat (size b - 1 - p)) l) = (true, delete (Z.to_nat p) l)) as Hre.
  { intros l Hl. rewrite <- (moved_down_delete (Z.to_nat p) l) by lia.
    replace (Z.to_nat (size b - 1 - p)) with (length l - 1 - Z.to_nat p)%nat by lia.
    rewrite !(realloc_shrink alloc Halloc)
      by (unfold moved_down; rewrite !length_app, !length_take, !length_drop; lia).
    by replace (Z.to_nat (size b - 1)) with (length l - 1)%nat by lia. }
  rewrite (proj1 (Hre _ Hi)). cbn [negb]. rewrite (proj2 (Hre _ Hw)). done.
Qed.
End remove_straw2.

(** The first largest element survives the deletion of another one. *)
Lemma argmax_delete l i k :
  is_argmax l k -> k <> i -> (i < length l)%nat ->
  is_argmax (delete i l) (if decide (k < i)%nat then k else (k - 1)%nat).
Proof.
  intros (m & Em & H) Hne Hi. exists m. split.
  - destruct (decide (k < i)%nat); [by rewrite list_lookup_delete_lt|].
    rewrite list_lookup_delete_ge by lia. by replace (S (k - 1)) with k by lia.
  - intros j d Ej. destruct (decide (j < i)%nat) as [Hji|Hji].
    + rewrite list_lookup_delete_lt in Ej by lia. destruct (H j d Ej) as [? Hlt]. split; [done|].
      intros Hj. apply Hlt. destruct (decide (k < i)%nat); lia.
    + rewrite list_lookup_delete_ge in Ej by lia. destruct (H _ d Ej) as [? Hlt]. split; [done|].
      intros Hj. apply Hlt. destruct (decide (k < i)%nat); lia.
Qed.

Lemma draws_delete h x r idl ws i :
  length idl = length ws -> draws h x r (delete i idl) (delete i ws) = delete i (draws h x r idl ws).
Proof.
  revert ws i. unfold draws. induction idl as [|v idl IH]; intros [|w ws] i E; try done.
  destruct i as [|i]; cbn; [done|]. f_equal. apply IH. by injection E.
Qed.

Lemma straw2_remove_moves b iw i bw x r p
    (b' := upd b bw (size b - 1) (delete i (items b)) (BStraw2 (delete i iw))) :
  1 < size b -> zlen (items b) = size b -> zlen iw = size b -> Forall (is_u 32) iw -> (i < length iw)%nat ->
  exists k it it', bucket_straw2_choose b iw x r None p = Ret it /\ items b !! k = Some it /\
    bucket_straw2_choose b' (delete i iw) x r None p = Ret it' /\ (k = i \/ it' = it).
Proof.
  intros Hs Hi Hl Hu Hlt. destruct (straw2_own b iw x r p) as (k & it & E & Ek & A); [lia|done..|].
  assert (forall l : list Z, zlen l = size b -> zlen (delete i l) = size b - 1) as Hdel.
  { intros l El. rewrite length_delete by (apply lookup_lt_is_Some_2; lia). lia. }
  destruct (straw2_own b' (delete i iw) x r p) as (k' & it' & E' & Ek' & A').
  { cbn. lia. }
  { cbn. by apply Hdel. }
  { cbn. by apply Hdel. }
  { by apply Forall_delete. }
  exists k, it, it'. split; [done|]. split; [done|]. split; [done|].
  destruct (decide (k = i)) as [|Hne]; [by left|]. right. cbn [hash items b' upd] in A', Ek'.
  rewrite draws_delete in A' by lia.
  assert (length (draws (hash b) x r (items b) iw) = length (items b)) as Ld
    by (unfold draws; rewrite length_zip_with; lia).
  pose proof (argmax_delete _ i k A Hne ltac:(lia)) as A2. rewrite (is_argmax_unique _ _ _ A' A2) in Ek'.
  destruct (decide (k < i)%nat); [rewrite list_lookup_delete_lt in Ek' by done; congruence|].
  rewrite list_lookup_delete_ge in Ek' by lia. replace (S (k - 1)) with k in Ek' by lia. congruence.
Qed.
