(* ===== verification/CrushSample.v ===== *)
(** * A small cluster

    Two hosts of two devices each under one root, all straw2, with the default
    replicated rule and a rule for erasure-coded pools.  The theorems on
    [crush_do_rule] are applied to it, and it is evaluated. *)

From stdpp Require Import relations.
From S2P Require Import Prelude CrushHash CrushTypes CrushLn CrushBucket CrushPerm CrushChoose CrushMapper CrushWf CrushFirstn CrushIndep CrushRule CrushPlace.
Open Scope Z_scope.

Definition host (i : Z) (devs : list Z) : crush_bucket :=
  CrushBucket i 1 0 0x20000 2 devs (BStraw2 [0x10000; 0x10000]).

Definition sample_root : crush_bucket :=
  CrushBucket (-1) 10 0 0x40000 2 [-2; -3] (BStraw2 [0x20000; 0x20000]).

Definition replicated_rule : crush_rule :=
  CrushRule 3 (CrushMask 0 1 1 10)
    [CrushStep CRUSH_RULE_TAKE (-1) 0; CrushStep CRUSH_RULE_CHOOSELEAF_FIRSTN 0 1;
     CrushStep CRUSH_RULE_EMIT 0 0].

Definition erasure_rule : crush_rule :=
  CrushRule 5 (CrushMask 1 3 3 20)
    [CrushStep CRUSH_RULE_SET_CHOOSELEAF_TRIES 5 0; CrushStep CRUSH_RULE_SET_CHOOSE_TRIES 100 0;
     CrushStep CRUSH_RULE_TAKE (-1) 0; CrushStep CRUSH_RULE_CHOOSELEAF_INDEP 0 1;
     CrushStep CRUSH_RULE_EMIT 0 0].

Definition sample_map : crush_map :=
  CrushMap [Some sample_root; Some (host (-2) [0; 1]); Some (host (-3) [2; 3])]
    [Some replicated_rule; Some erasure_rule] 3 2 4 0 0 50 1 1 1 (8 + 24 + 3 * 24) 0 54.

Definition sample_rank (i : Z) : nat := if i =? -1 then 1 else 0.

Definition sample_weight : list Z := [0x10000; 0x10000; 0; 0x10000].

Lemma sample_bucket i b :
  buckets sample_map !! i = Some (Some b) ->
  (i = 0%nat /\ b = sample_root) \/ (i = 1%nat /\ b = host (-2) [0; 1]) \/ (i = 2%nat /\ b = host (-3) [2; 3]).
Proof. destruct i as [|[|[|i]]]; cbn; [naive_solver..|discriminate]. Qed.

Lemma straw2_wf b iw :
  0 <= size b < 0xffff -> zlen (items b) = size b -> body b = BStraw2 iw -> zlen iw = size b ->
  Forall (is_u 32) iw -> wf_bucket b.
Proof. intros ? ? E ? ?. split; [done..|]. intros _. unfold wf_body. by rewrite E. Qed.

Lemma sample_wf : wf_map sample_map sample_rank 2.
Proof.
  split; [done| | |].
  - intros i b [[-> ->]|[[-> ->]|[-> ->]]]%sample_bucket; (split; [|done]).
    all: eapply straw2_wf; [cbn; lia|done|done|done|]; repeat constructor; unfold is_u; lia.
  - intros b it [i Hi] Hin Hneg. apply sample_bucket in Hi as [[-> ->]|[[-> ->]|[-> ->]]].
    all: cbn in Hin; repeat (apply elem_of_cons in Hin as [->|Hin]; [|]).
    all: try lia; try (by apply not_elem_of_nil in Hin); (split; [by eexists|cbn; lia]).
  - intros b [i Hi]. apply sample_bucket in Hi as [[-> ->]|[[-> ->]|[-> ->]]]; cbn; lia.
Qed.

Lemma sample_args : wf_args sample_map None.
Proof. by intros l. Qed.

Lemma sample_env : placement_env sample_map sample_rank 2 None sample_weight 4 3 100 0 (Z.to_nat 10000000).
Proof.
  split; [apply sample_wf|done|apply sample_args|cbn; lia|lia|lia|lia| |by split].
  rewrite Z2Nat.id by lia. done.
Qed.
