(* ===== verification/CrushTheorems.v ===== *)
(** * The guarantees of CRUSH

    The theorems of the CRUSH components in the form a user of the library
    needs, each with an instance on the sample cluster. *)

From stdpp Require Import relations.
From S2P Require Import Prelude CrushHash CrushTypes CrushLn CrushBucket CrushPerm CrushChoose CrushStraw2 CrushMapper CrushWf CrushFirstn CrushIndep CrushRule CrushPlace CrushBuilder CrushBuilt CrushTreeMake CrushItems CrushSample.
Open Scope Z_scope.

(** ** Rules *)

(** C2. A rule whose arguments are within bounds runs to its end without
    touching memory it should not, and returns at most [result_max] results,
    each a device of the map, a bucket of the map or [CRUSH_ITEM_NONE]; every
    coherent workspace gives the same results and is left coherent. *)
Theorem do_rule_total m rk D choose_args weight weight_max result_max T L fuel x ruleno rule a b c result t :
  placement_env m rk D choose_args weight weight_max result_max T L fuel ->
  rule_at m ruleno rule -> len rule = zlen (steps rule) -> Forall (step_ok T L) (steps rule) ->
  room result_max a b c result -> tries_ok m t ->
  exists n result' t', 0 <= n <= result_max /\ nodes (m := m) n result' /\
    forall wk, work_ok m wk -> exists wk', work_ok m wk' /\
      crush_do_rule m weight weight_max x choose_args fuel ruleno result result_max a b c (MState wk t)
        = Ret (n, result', MState wk' t').
Proof. apply do_rule_result. Qed.

Lemma do_rule_total_witness :
  exists n result' t', 0 <= n <= 3 /\ nodes (m := sample_map) n result' /\
    forall wk, work_ok sample_map wk -> exists wk', work_ok sample_map wk' /\
      crush_do_rule sample_map sample_weight 4 77 None (Z.to_nat 10000000) 1 [0; 0; 0] 3 [5; 5; 5] [6; 6; 6] [7; 7; 7]
        (MState wk None) = Ret (n, result', MState wk' t').
Proof.
  apply (do_rule_total sample_map sample_rank 2 None sample_weight 4 3 100 0 (Z.to_nat 10000000) 77 1 erasure_rule).
  - apply sample_env.
  - by split.
  - done.
  - repeat constructor; vm_compute; congruence.
  - by split.
  - by intros l.
Defined.

(** C6. The rule of a replicated pool (set tunables, take a root, choose leaves
    firstn, emit) returns at most as many results as asked for; they are
    distinct devices below the root, none of them out, and they lie in
    distinct failure domains of the wanted type. *)
Theorem replicated_placement m rk D choose_args weight weight_max result_max T L fuel x ruleno rule root a1 ty
    a b c result t (numrep := if a1 <=? 0 then a1 + result_max else a1) :
  placement_env m rk D choose_args weight weight_max result_max T L fuel ->
  rule_at m ruleno rule -> one_choose_rule T L rule true true root a1 ty -> in_map m root ->
  a1 < 2 ^ 31 -> 0 < numrep -> room result_max a b c result -> tries_ok m t ->
  exists n result' t' domains, 0 <= n <= Z.min numrep result_max /\
    spread m weight weight_max x root ty (take (Z.to_nat n) result') domains /\
    zlen domains = n /\
    forall wk, work_ok m wk -> exists wk', work_ok m wk' /\
      crush_do_rule m weight weight_max x choose_args fuel ruleno result result_max a b c (MState wk t)
        = Ret (n, result', MState wk' t').
Proof. apply replicated_result. Qed.

Lemma replicated_placement_witness :
  exists n result' t' domains, 0 <= n <= 3 /\
    spread sample_map sample_weight 4 77 sample_root 1 (take (Z.to_nat n) result') domains /\ zlen domains = n /\
    forall wk, work_ok sample_map wk -> exists wk', work_ok sample_map wk' /\
      crush_do_rule sample_map sample_weight 4 77 None (Z.to_nat 10000000) 0 [0; 0; 0] 3 [5; 5; 5] [6; 6; 6] [7; 7; 7]
        (MState wk None) = Ret (n, result', MState wk' t').
Proof.
  apply (replicated_placement sample_map sample_rank 2 None sample_weight 4 3 100 0 (Z.to_nat 10000000) 77 0
           replicated_rule sample_root 0 1).
  - apply sample_env.
  - by split.
  - split; [done|]. by exists [], 0, CRUSH_RULE_CHOOSELEAF_FIRSTN, 0, 0.
  - by exists 0%nat.
  - done.
  - done.
  - by split.
  - by intros l.
Defined.

(** C7. The rule of an erasure-coded pool (choose leaves indep, type above 0)
    fills exactly the positions asked for: each holds [CRUSH_ITEM_NONE] or a
    device below the root that is not out, inside a failure domain of the
    wanted type; no failure domain serves two positions. *)
Theorem erasure_placement m rk D choose_args weight weight_max result_max T L fuel x ruleno rule root a1 ty
    a b c result t (numrep := if a1 <=? 0 then a1 + result_max else a1) :
  placement_env m rk D choose_args weight weight_max result_max T L fuel ->
  rule_at m ruleno rule -> one_choose_rule T L rule false true root a1 ty -> in_map m root -> ty <> 0 ->
  a1 < 2 ^ 31 -> 0 < numrep -> room result_max a b c result -> tries_ok m t ->
  exists (result' : list Z) t' (domains : list Z),
    (forall k, (k < Z.to_nat (Z.min numrep result_max))%nat -> exists d dom,
       result' !! k = Some d /\ domains !! k = Some dom /\
       ((d = CRUSH_ITEM_NONE /\ dom = CRUSH_ITEM_NONE) \/
        (item_ok m weight weight_max x (id root) 0 d /\ item_ok m weight weight_max x (id root) ty dom /\
         tc (child m) dom d /\
         forall j, (j < Z.to_nat (Z.min numrep result_max))%nat -> domains !! j = Some dom -> j = k))) /\
    forall wk, work_ok m wk -> exists wk', work_ok m wk' /\
      crush_do_rule m weight weight_max x choose_args fuel ruleno result result_max a b c (MState wk t)
        = Ret (Z.min numrep result_max, result', MState wk' t').
Proof. apply erasure_result. Qed.

Lemma erasure_placement_witness :
  exists (result' : list Z) t' (domains : list Z),
    (forall k, (k < 3)%nat -> exists d dom,
       result' !! k = Some d /\ domains !! k = Some dom /\
       ((d = CRUSH_ITEM_NONE /\ dom = CRUSH_ITEM_NONE) \/
        (item_ok sample_map sample_weight 4 77 (-1) 0 d /\ item_ok sample_map sample_weight 4 77 (-1) 1 dom /\
         tc (child sample_map) dom d /\ forall j, (j < 3)%nat -> domains !! j = Some dom -> j = k))) /\
    forall wk, work_ok sample_map wk -> exists wk', work_ok sample_map wk' /\
      crush_do_rule sample_map sample_weight 4 77 None (Z.to_nat 10000000) 1 [0; 0; 0] 3 [5; 5; 5] [6; 6; 6] [7; 7; 7]
        (MState wk None) = Ret (3, result', MState wk' t').
Proof.
  apply (erasure_placement sample_map sample_rank 2 None sample_weight 4 3 100 0 (Z.to_nat 10000000) 77 1
           erasure_rule sample_root 0 1).
  - apply sample_env.
  - by split.
  - split; [done|]. exists [CrushStep CRUSH_RULE_SET_CHOOSELEAF_TRIES 5 0; CrushStep CRUSH_RULE_SET_CHOOSE_TRIES 100 0],
      0, CRUSH_RULE_CHOOSELEAF_INDEP, 0, 0. split; [done|]. split; [done|]. by repeat constructor.
  - by exists 0%nat.
  - done.
  - done.
  - done.
  - by split.
  - by intros l.
Defined.

(** ** Buckets *)

(** The slot of a bucket in the workspace that [crush_init_workspace] sets up:
    no permutation, in memory that holds anything. *)
Definition fresh_slot (b : crush_bucket) (w : crush_work_bucket) : Prop := perm_n w = 0 /\ zlen (perm w) = size b.

(** One choice after the other with the same slot. *)
Fixpoint choose_all (b : crush_bucket) (w : option crush_work_bucket) (cs : list (Z * Z * option crush_choose_arg * Z))
    : res (option crush_work_bucket) :=
  match cs with
  | [] => Ret w
  | (x, r, arg, p) :: cs => '(_, w) <~ crush_bucket_choose b w x r arg p;; choose_all b w cs
  end.

Definition choice_ok (b : crush_bucket) (arg : option crush_choose_arg) (p : Z) : Prop :=
  0 <= p < 2 ^ 31 /\ forall a, arg = Some a -> wf_arg b a.

Lemma choose_all_ok b cs : wf_bucket b -> 0 < size b -> Forall (fun c => choice_ok b c.1.2 c.2) cs ->
  forall w, slot_ok b w -> exists w', choose_all b w cs = Ret w' /\ slot_ok b w'.
Proof.
  intros Hb Hs. induction 1 as [|[[[x r] arg] p] cs [Hp Ha] _ IH]; intros w Hw; cbn [choose_all]; [by exists w|].
  destruct (bucket_choose_spec b x r arg p Hb Hs Hp Ha) as (it & _ & H). destruct (H w Hw) as (w1 & -> & Hw1). by apply IH.
Qed.

(** C28. Every choice in a well-formed bucket that has items returns one of them,
    without a fault, and which one does not depend on the choices made in the
    bucket before: on whatever choices, for other inputs or the same, with a
    slot of the workspace that is fresh at first. *)
Theorem bucket_choose_stable b x r arg p :
  wf_bucket b -> 0 < size b -> choice_ok b arg p ->
  exists it, it ∈ items b /\
    forall w cs, fresh_slot b w -> Forall (fun c => choice_ok b c.1.2 c.2) cs ->
      exists w1 w2, choose_all b (Some w) cs = Ret w1 /\ crush_bucket_choose b w1 x r arg p = Ret (it, w2).
Proof.
  intros Hb Hs [Hp Ha]. destruct (bucket_choose_spec b x r arg p Hb Hs Hp Ha) as (it & Hit & H). exists it. split; [done|].
  intros w cs [Hn Hl] Hcs. destruct (choose_all_ok b cs Hb Hs Hcs (Some w)) as (w1 & E1 & Hw1).
  { exists w. split; [done|]. split; [done|by left]. }
  destruct (H w1 Hw1) as (w2 & E2 & _). by exists w1, w2.
Qed.

Definition sample_uniform : crush_bucket := CrushBucket (-4) 1 0 0x30000 3 [4; 5; 6] (BUniform 0x10000).

Lemma bucket_choose_stable_witness :
  exists it, it ∈ items sample_uniform /\ exists w1 w2,
    choose_all sample_uniform (Some (CrushWorkBucket 0 0 [9; 9; 9])) [(11, 0, None, 0); (3, 2, None, 0)] = Ret w1 /\
    crush_bucket_choose sample_uniform w1 11 7 None 0 = Ret (it, w2).
Proof.
  destruct (bucket_choose_stable sample_uniform 11 7 None 0) as (it & Hit & H).
  - split; [cbn; lia|done|done].
  - done.
  - split; [lia|done].
  - exists it. split; [exact Hit|]. apply H; [done|]. repeat constructor; cbn; (lia || done).
Defined.

(** C29. The incremental permutation of a bucket equals the full Fisher-Yates
    shuffle of its positions for the input: whatever was computed before,
    [bucket_perm_choose] returns the item the shuffle puts at [r mod size],
    and the shuffle is a permutation, so [size] consecutive values of [r] give
    every item once. *)
Theorem perm_choose_shuffle b w x r :
  permutable b -> coherent b w ->
  perm_full b x ≡ₚ positions (size b) /\
  exists s it w', perm_full b x !! Z.to_nat (u32 r mod size b) = Some s /\ items b !! Z.to_nat s = Some it /\
    bucket_perm_choose b w x r = Ret (it, w') /\ coherent b w'.
Proof.
  intros Hp Hc. split; [apply perm_ref_perm|].
  destruct (perm_choose_spec b w x r Hp Hc) as (it & w' & E & Hc' & Eit).
  destruct (perm_pick_lookup b x r) as [Es _]; [unfold permutable in Hp; lia|]. by exists (perm_pick b x r), it, w'.
Qed.

Lemma perm_choose_shuffle_witness :
  perm_full sample_uniform 11 ≡ₚ positions 3 /\
  exists s it w', perm_full sample_uniform 11 !! Z.to_nat (u32 7 mod 3) = Some s /\ [4; 5; 6] !! Z.to_nat s = Some it /\
    bucket_perm_choose sample_uniform (CrushWorkBucket 0 0 [9; 9; 9]) 11 7 = Ret (it, w') /\ coherent sample_uniform w'.
Proof.
  apply (perm_choose_shuffle sample_uniform (CrushWorkBucket 0 0 [9; 9; 9]) 11 7).
  - split; cbn; lia.
  - split; [done|by left].
Defined.

(** ** Data movement *)

(** What memory allocation is assumed to do where a theorem is about success. *)
Definition always_alloc (k n : Z) : bool := true.

Section movement.
Context `{DoubleOps} (alloc : Z -> Z -> bool) (Halloc : forall k n, alloc k n = true) (junk : Z) (oob : res Z).

Lemma adjust_straw2_spec b iw item w' :
  zlen (items b) = size b -> 0 < size b < 0xffff -> zlen iw = size b -> item ∈ items b ->
  exists i w, items b !! i = Some item /\ iw !! i = Some w /\
    crush_adjust_straw2_bucket_item_weight b iw item w' =
      Ret (s32 (w' - w), upd b (u32 (weight b + s32 (w' - w))) (size b) (items b) (BStraw2 (<[i := u32 w']> iw))).
Proof.
  intros Hi Hs Hw Hin. unfold crush_adjust_straw2_bucket_item_weight.
  destruct (find_item_spec (Z.to_nat (size b)) 0 (items b) item) as (p & -> & Hp & Hf & Hb); [lia..|]. cbn [rbind].
  apply list_elem_of_lookup_1 in Hin as [k Ek]. pose proof (lookup_lt_Some _ _ _ Ek).
  assert (p < size b) by (destruct (Z_lt_le_dec p (size b)); [done|]; exfalso; apply (Hb k); [lia|done]).
  rewrite (proj2 (Z.eqb_neq p (size b))) by lia. destruct (aget_in iw p) as (w & -> & Ew); [lia|]. cbn [rbind].
  rewrite aset_in by lia. cbn [rbind]. exists (Z.to_nat p), w. split; [apply Hf; lia|done].
Qed.
End movement.

(** The choice of a bucket without [choose_args] and without a workspace. *)
Definition chooses (b : crush_bucket) (x r it : Z) : Prop := forall w p, crush_bucket_choose b w x r None p = Ret (it, w).

Lemma straw2_chooses b iw x r it :
  0 < size b -> body b = BStraw2 iw -> (forall p, bucket_straw2_choose b iw x r None p = Ret it) -> chooses b x r it.
Proof.
  intros Hs Eb E w p. unfold crush_bucket_choose. rewrite (proj2 (Z.eqb_neq (size b) 0)) by lia.
  cbn [negb rassert rbind]. rewrite Eb, E. done.
Qed.

Lemma list_chooses b iw sw x r it :
  0 < size b -> body b = BList iw sw -> bucket_list_choose b iw sw x r = Ret it -> chooses b x r it.
Proof.
  intros Hs Eb E w p. unfold crush_bucket_choose. rewrite (proj2 (Z.eqb_neq (size b) 0)) by lia.
  cbn [negb rassert rbind]. rewrite Eb, E. done.
Qed.

(** C31. Raising the weight of one item of a straw2 bucket moves inputs only to
    that item: for every input the choice after [crush_bucket_adjust_item_weight]
    is the choice before it, or the item whose weight was raised. *)
Theorem straw2_adjust_movement `{DoubleOps} alloc junk m b iw item w' x r :
  wf_bucket b -> 0 < size b -> body b = BStraw2 iw -> Forall (fun w => 0 <= w < 2 ^ 31) iw -> w' < 2 ^ 31 ->
  item ∈ items b -> (forall i w, items b !! i = Some item -> iw !! i = Some w -> w <= w') ->
  exists diff b' it it', crush_bucket_adjust_item_weight alloc junk m b item w' = Ret (diff, b') /\
    chooses b x r it /\ chooses b' x r it' /\ (it' = it \/ it' = item).
Proof.
  intros [Hsz Hi Hd] Hs Eb HF Hw' Hin Hle. specialize (Hd Hs). unfold wf_body in Hd. rewrite Eb in Hd. destruct Hd as [Hl Hu].
  destruct (adjust_straw2_spec b iw item w') as (i & w & Ei & Ew & E); try done; [lia|].
  unfold crush_bucket_adjust_item_weight. rewrite Eb, E.
  pose proof (Forall_lookup_1 _ _ _ _ HF Ew) as Hw. cbn in Hw. specialize (Hle i w Ei Ew). rewrite (uw_small 32 w') by (split; lia).
  assert (straw2_ok b iw) as Hok by done.
  destruct (straw2_raise b iw i w w' x r 0 Hok Ew ltac:(lia)) as (it & it' & E1 & E2 & Hor).
  eexists _, _, it, it'. split; [done|]. split; [by apply (straw2_chooses b iw)|].
  split; [by apply (straw2_chooses _ (<[i := w']> iw))|]. destruct Hor as [->|Hor]; [by left|right; congruence].
Qed.

#[local] Instance unit_double : DoubleOps :=
  {| double := unit; d_of_Z _ := tt; d_add _ _ := tt; d_sub _ _ := tt; d_mul _ _ := tt; d_div _ _ := tt;
     d_pow _ _ := tt; d_to_u32 _ := 0 |}.

Lemma sample_root_wf : wf_bucket sample_root.
Proof. eapply straw2_wf; [cbn; lia|done|done|done|]. repeat constructor; unfold is_u; lia. Qed.

Lemma straw2_adjust_movement_witness :
  exists diff b' it it', crush_bucket_adjust_item_weight always_alloc 0 sample_map sample_root (-3) 0x30000 = Ret (diff, b') /\
    chooses sample_root 5 1 it /\ chooses b' 5 1 it' /\ (it' = it \/ it' = -3).
Proof.
  apply (straw2_adjust_movement always_alloc 0 sample_map sample_root [0x20000; 0x20000] (-3) 0x30000 5 1).
  - apply sample_root_wf.
  - done.
  - done.
  - repeat constructor; lia.
  - lia.
  - apply elem_of_cons. right. apply elem_of_cons. by left.
  - intros [|[|i]] w E Ew; cbn in E, Ew; try done; injection Ew as <-; lia.
Defined.

(** C32. Adding an item to a straw2 or a list bucket succeeds when the weights
    fit, keeps the bucket well-formed, and moves inputs only to the new item. *)
Theorem add_item_movement `{DoubleOps} alloc junk m b item w x r :
  (forall k n, alloc k n = true) -> wf_bucket b -> 0 < size b -> size b + 1 < 0xffff ->
  is_u 32 (weight b) -> weight b + u32 w < 2 ^ 32 ->
  match body b with
  | BStraw2 _ => True
  | BList _ sw => exists last, sw !! Z.to_nat (size b - 1) = Some last /\ is_u 32 last /\ last + u32 w < 2 ^ 32
  | _ => False
  end ->
  exists b' it it', crush_bucket_add_item alloc junk m b item w = Ret (0, b') /\ wf_bucket b' /\
    items b' = items b ++ [item] /\ weight b' = weight b + u32 w /\
    chooses b x r it /\ chooses b' x r it' /\ (it' = it \/ it' = item).
Proof.
  intros Halloc Hwf Hs Hs' Hwb Hw Hbd. pose proof Hwf as [Hsz Hi Hd]. specialize (Hd Hs). unfold wf_body in Hd.
  unfold crush_bucket_add_item.
  assert (zlen (items b ++ [item]) = size b + 1) as Hi' by (rewrite length_app; cbn; lia).
  destruct (body b) as [ |iw sw| | |iw| ] eqn:Eb; try done.
  - destruct Hd as [Hiw Hsw], Hbd as (last & El & Hlast & Hlw). rewrite (add_list_spec alloc Halloc junk b iw sw item w last) by done.
    assert (u32 (weight b + w) = weight b + u32 w) as Ew.
    { rewrite (u32_add _ w (weight b)) by (by apply uw_small). apply uw_small. destruct Hwb, (uw_range 32 w); [lia|]. split; lia. }
    destruct (list_add_moves b iw sw item (u32 w) (last + u32 w) (u32 (weight b + w)) x r) as (it & it' & E1 & E2 & Hor); try done; [lia|].
    eexists _, it, it'. split; [done|]. split; [|split; [done|split; [done|]]].
    + split; cbn; [lia|done|]. intros _. rewrite !length_app. cbn. lia.
    + split; [by eapply (list_chooses b)|]. split; [|done]. eapply list_chooses; [cbn; lia|done|done].
  - destruct Hd as [Hiw Hu]. rewrite (add_straw2_spec alloc Halloc junk b iw item w) by done.
    assert (is_u 32 (u32 w)) as Huw by (apply uw_range; lia).
    destruct (straw2_add_moves b iw item (u32 w) (weight b + u32 w) x r 0) as (it & it' & E1 & E2 & Hor); try done.
    eexists _, it, it'. split; [done|]. split; [|split; [done|split; [done|]]].
    + split; cbn; [lia|done|]. intros _. rewrite length_app. cbn. split; [lia|]. apply Forall_app. split; [done|by constructor].
    + split; [by eapply (straw2_chooses b)|]. split; [|done]. eapply straw2_chooses; [cbn; lia|done|done].
Qed.

Lemma add_item_movement_witness :
  exists b' it it', crush_bucket_add_item always_alloc 0 sample_map sample_root (-5) 0x10000 = Ret (0, b') /\ wf_bucket b' /\
    items b' = [-2; -3; -5] /\ weight b' = 0x50000 /\
    chooses sample_root 5 1 it /\ chooses b' 5 1 it' /\ (it' = it \/ it' = -5).
Proof.
  apply (add_item_movement always_alloc 0 sample_map sample_root (-5) 0x10000 5 1).
  - done.
  - apply sample_root_wf.
  - done.
  - cbn. lia.
  - cbn. unfold is_u. lia.
  - by vm_compute.
  - done.
Defined.

(** C33. Removing an item from a straw2 bucket of two or more takes away its
    first occurrence and its weight, and moves only the inputs that were on
    that occurrence; an item the bucket does not have is refused. *)
Theorem remove_item_movement `{DoubleOps} alloc junk oob m b iw item x r :
  (forall k n, alloc k n = true) -> wf_bucket b -> 1 < size b -> body b = BStraw2 iw ->
  (item ∉ items b -> crush_bucket_remove_item alloc junk oob m b item = Ret (- ENOENT, b)) /\
  (item ∈ items b -> exists i w b' k it it', items b !! i = Some item /\ iw !! i = Some w /\
    crush_bucket_remove_item alloc junk oob m b item = Ret (0, b') /\
    items b' = delete i (items b) /\ weight b' = drop_weight (weight b) w /\ wf_bucket b' /\
    chooses b x r it /\ items b !! k = Some it /\ chooses b' x r it' /\ (k = i \/ it' = it)).
Proof.
  intros Halloc [Hsz Hi Hd] Hs Eb. specialize (Hd ltac:(lia)). unfold wf_body in Hd. rewrite Eb in Hd. destruct Hd as [Hl Hu].
  unfold crush_bucket_remove_item. rewrite Eb.
  destruct (remove_straw2_spec alloc Halloc junk oob b iw item) as [Hno Hyes]; try done; [lia|]. split; [done|].
  intros Hin. destruct (Hyes Hin) as (i & w & Ei & Ew & _ & E). pose proof (lookup_lt_Some _ _ _ Ew) as Hlt.
  destruct (straw2_remove_moves b iw i (drop_weight (weight b) w) x r 0) as (k & it & it' & E1 & Ek & E2 & Hor); try done.
  assert (forall l : list Z, zlen l = size b -> zlen (delete i l) = size b - 1) as Hdel
    by (intros l El; rewrite length_delete by (apply lookup_lt_is_Some_2; lia); lia).
  eexists i, w, _, k, it, it'. split; [done|]. split; [done|]. split; [exact E|]. split; [done|]. split; [done|]. split.
  - split; cbn; [lia|by apply Hdel|]. intros _. split; [by apply Hdel|by apply Forall_delete].
  - split; [apply (straw2_chooses b iw); (lia || done)|]. split; [done|]. split; [|done].
    eapply straw2_chooses; [cbn; lia|done|done].
Qed.

Lemma remove_item_movement_witness :
  (-3 ∉ items sample_root -> crush_bucket_remove_item always_alloc 0 Fault sample_map sample_root (-3) = Ret (- ENOENT, sample_root)) /\
  (-3 ∈ items sample_root -> exists i w b' k it it', items sample_root !! i = Some (-3) /\ [0x20000; 0x20000] !! i = Some w /\
    crush_bucket_remove_item always_alloc 0 Fault sample_map sample_root (-3) = Ret (0, b') /\
    items b' = delete i (items sample_root) /\ weight b' = drop_weight 0x40000 w /\ wf_bucket b' /\
    chooses sample_root 5 1 it /\ items sample_root !! k = Some it /\ chooses b' 5 1 it' /\ (k = i \/ it' = it)).
Proof.
  apply (remove_item_movement always_alloc 0 Fault sample_map sample_root [0x20000; 0x20000] (-3) 5 1).
  - done.
  - apply sample_root_wf.
  - done.
  - done.
Defined.

(** In a straw2 bucket of weights below [2^31] an item of weight zero is
    never chosen while some item has weight. *)
Theorem straw2_zero_weight b iw x r j wj :
  straw2_ok b iw -> body b = BStraw2 iw -> iw !! j = Some wj -> 0 < wj ->
  exists k it w, chooses b x r it /\ items b !! k = Some it /\ iw !! k = Some w /\ 0 < w.
Proof.
  intros Hok Eb Ej Hj. destruct (straw2_weighted b iw x r 0 j wj Hok Ej Hj) as (k & it & w & E & Ek & Ew & Hw).
  exists k, it, w. split; [apply (straw2_chooses b iw); [apply Hok|done|done]|done].
Qed.

Lemma straw2_zero_weight_witness :
  exists k it w, chooses (CrushBucket (-1) 1 0 5 2 [0; 1] (BStraw2 [0; 5])) 3 1 it /\ [0; 1] !! k = Some it /\
    [0; 5] !! k = Some w /\ 0 < w.
Proof.
  apply (straw2_zero_weight (CrushBucket (-1) 1 0 5 2 [0; 1] (BStraw2 [0; 5])) [0; 5] 3 1 1 5).
  - split; [done|]. split; [done|]. split; [done|]. repeat constructor; lia.
  - done.
  - done.
  - done.
Defined.

(** ** Arithmetic *)

(** C34. [crush_ln] is defined on every 16-bit input, with all table accesses
    in range and a result of 48 bits, and it is monotone up to 65534. *)
Theorem crush_ln_log u u' :
  0 <= u <= u' -> u' <= 0xffff ->
  exists v v', crush_ln u = Ret v /\ crush_ln u' = Ret v' /\ 0 <= v < 2 ^ 48 /\ 0 <= v' < 2 ^ 48 /\
    (u' < 0xffff -> v <= v').
Proof.
  intros Hu Hu'. destruct (crush_ln_range u ltac:(lia)) as (v & E & Hv), (crush_ln_range u' ltac:(lia)) as (v' & E' & Hv').
  exists v, v'. split; [done|]. split; [done|]. split; [done|]. split; [done|].
  intros Hlt. by apply (crush_ln_mono u u').
Qed.

Lemma crush_ln_log_witness :
  exists v v', crush_ln 100 = Ret v /\ crush_ln 65000 = Ret v' /\ 0 <= v < 2 ^ 48 /\ 0 <= v' < 2 ^ 48 /\
    (65000 < 0xffff -> v <= v').
Proof. apply (crush_ln_log 100 65000); lia. Defined.

(** The last input breaks the order. *)
Lemma crush_ln_last_drop : crush_ln 65534 = Ret 0xfffffd61ad10 /\ crush_ln 65535 = Ret 0xfffff0000000.
Proof. split; [vm_compute; reflexivity|apply crush_ln_last]. Qed.

(** One round of the hash mix is a bijection on triples of 32-bit words:
    [crush_hashunmix] undoes it and the words stay 32-bit. *)
Theorem hashmix_reversible a b c :
  is_u 32 a -> is_u 32 b -> is_u 32 c ->
  words (crush_hashmix a b c) /\ crush_hashunmix (crush_hashmix a b c) = (a, b, c).
Proof. intros Ha Hb Hc. apply (mix_ok (a, b, c)). by split. Qed.

Lemma hashmix_reversible_witness :
  words (crush_hashmix 1 2 3) /\ crush_hashunmix (crush_hashmix 1 2 3) = (1, 2, 3).
Proof. apply (hashmix_reversible 1 2 3); unfold is_u; lia. Defined.

(** ** Building *)

(** [crush_make_tree_bucket] on 1 to 64 items: when the weights add up
    without overflow it returns a bucket, its [BUG_ON] does not fire, the
    bucket's weight is their sum, and with a positive sum every inner node
    holds the sum of its subtrees, so the bucket is well-formed; otherwise it
    returns a null pointer. *)
Theorem make_tree_well_formed alloc hash' type' sz its ws (n := Z.to_nat sz) :
  (forall k n, alloc k n = true) -> 0 < sz <= 64 -> sz <= zlen its -> sz <= zlen ws ->
  if total ws n <? 2 ^ 32 then
    exists b, crush_make_tree_bucket alloc hash' type' sz its ws = Ret (Some b) /\
      weight b = total ws n /\ items b = take n its /\ (0 < total ws n -> wf_bucket b)
  else crush_make_tree_bucket alloc hash' type' sz its ws = Ret None.
Proof.
  intros Halloc Hsz Hi Hw. pose proof (make_tree_spec alloc Halloc hash' type' sz its ws Hsz Hi Hw) as Hm. fold n in Hm.
  destruct (total ws n <? 2 ^ 32); [|done]. destruct Hm as (d & nw & E & Hok). eexists. split; [exact E|].
  split; [done|]. split; [done|]. intros Ht. unfold new_bucket. rewrite (uw_small 32 sz) by (split; lia).
  split; cbn [size items]; [lia|rewrite length_take; lia|]. intros _. exists d. by apply Hok.
Qed.

Lemma make_tree_well_formed_witness :
  if total [3; 4; 5] 3 <? 2 ^ 32 then
    exists b, crush_make_tree_bucket always_alloc 0 1 3 [7; 8; 9] [3; 4; 5] = Ret (Some b) /\
      weight b = total [3; 4; 5] 3 /\ items b = [7; 8; 9] /\ (0 < total [3; 4; 5] 3 -> wf_bucket b)
  else crush_make_tree_bucket always_alloc 0 1 3 [7; 8; 9] [3; 4; 5] = Ret None.
Proof. apply (make_tree_well_formed always_alloc 0 1 3 [7; 8; 9] [3; 4; 5]); cbn; (done || lia). Defined.

(** [crush_finalize] makes a well-formed map ready for the mapper: every
    item is below [max_devices], and [crush_init_workspace] returns a coherent
    workspace, its [BUG_ON] on the working size not firing. *)
Theorem finalize_ready m rk D junk :
  wf_map m rk D -> items_ok m -> max_buckets m < 2 ^ 31 -> work_bytes m < 2 ^ 64 ->
  exists m' wk, crush_finalize m = Ret m' /\ wf_map m' rk D /\
    (forall b it, in_map m' b -> it ∈ items b -> it < max_devices m') /\
    crush_init_workspace m' junk = Ret wk /\ work_ok m' wk.
Proof.
  intros Hm Hit Hmb Hwb. pose proof (wfm_len _ _ _ Hm) as Hl.
  destruct (finalize_spec m) as (md & E & Hmd & Hlt); try done.
  assert (wf_map (set_sizes m md (work_bytes m)) rk D) as Hm' by (destruct Hm; by split).
  destruct (init_workspace_ok (set_sizes m md (work_bytes m)) rk D junk Hm' eq_refl) as (wk & Ew & Hwk).
  exists (set_sizes m md (work_bytes m)), wk. done.
Qed.

Lemma finalize_ready_witness :
  exists m' wk, crush_finalize sample_map = Ret m' /\ wf_map m' sample_rank 2 /\
    (forall b it, in_map m' b -> it ∈ items b -> it < max_devices m') /\
    crush_init_workspace m' 99 = Ret wk /\ work_ok m' wk.
Proof.
  apply (finalize_ready sample_map sample_rank 2 99).
  - apply sample_wf.
  - intros b [i Hi]. apply sample_bucket in Hi as [[-> ->]|[[-> ->]|[-> ->]]]; cbn.
    all: split; [done|]; split; [lia|]; repeat constructor; lia.
  - cbn. lia.
  - by vm_compute.
Defined.

(** [crush_add_bucket] under an id of its own: if the id is taken the map
    is returned unchanged with [-EEXIST]; otherwise the bucket is stored under
    that id, every other bucket stays where it was, and the array has the size
    the map says. *)
Theorem add_bucket_stores alloc m id' b :
  (forall k n, alloc k n = true) -> sized m -> - 2 ^ 30 < id' < 0 ->
  match buckets m !! Z.to_nat (-1 - id') with
  | Some (Some _) => crush_add_bucket alloc m id' b = Ret (- EEXIST, 0, m)
  | _ => exists m', crush_add_bucket alloc m id' b = Ret (0, id', m') /\ sized m' /\
      buckets m' !! Z.to_nat (-1 - id') = Some (Some (set_id b id')) /\
      forall i bk, i <> Z.to_nat (-1 - id') ->
        (buckets m' !! i = Some (Some bk) <-> buckets m !! i = Some (Some bk))
  end.
Proof. intros Halloc. by apply add_bucket_spec. Qed.

Lemma add_bucket_stores_witness :
  match buckets sample_map !! 19%nat with
  | Some (Some _) => crush_add_bucket always_alloc sample_map (-20) sample_uniform = Ret (- EEXIST, 0, sample_map)
  | _ => exists m', crush_add_bucket always_alloc sample_map (-20) sample_uniform = Ret (0, -20, m') /\ sized m' /\
      buckets m' !! 19%nat = Some (Some (set_id sample_uniform (-20))) /\
      forall i bk, i <> 19%nat -> (buckets m' !! i = Some (Some bk) <-> buckets sample_map !! i = Some (Some bk))
  end.
Proof. apply (add_bucket_stores always_alloc sample_map (-20) sample_uniform); [done|done|lia]. Defined.

(** ** Where the code departs from its intent *)

(** A straw2 weight of [2^31] or more, which [CRUSH_MAX_BUCKET_WEIGHT]
    allows, is read as a negative number: with weights [0x7fff0000] and
    [0xfe000000], which ask for about one third and two thirds of the inputs,
    the second item is chosen for every input. *)
Theorem straw2_weight_sign x r : chooses two_item_bucket x r 1.
Proof. apply (straw2_chooses _ [0x7fff0000; 0xfe000000]); [done|done|]. intros p. apply straw2_int_weight. Qed.

(** A tree bucket of more than 64 items overflows [num_nodes], a [__u8]:
    [crush_make_tree_bucket] allocates no nodes and writes out of bounds. *)
Theorem make_tree_too_large alloc hash' type' sz its ws :
  (forall k n, alloc k n = true) -> 64 < sz <= 2 ^ 30 -> sz <= zlen its -> sz <= zlen ws ->
  crush_make_tree_bucket alloc hash' type' sz its ws = Fault.
Proof. intros Halloc. by apply make_tree_overflow. Qed.

Lemma make_tree_too_large_witness :
  crush_make_tree_bucket always_alloc 0 1 65 (replicate 65 1) (replicate 65 1) = Fault.
Proof. apply (make_tree_too_large always_alloc 0 1 65 (replicate 65 1) (replicate 65 1)); cbn; (done || lia). Defined.

(** A single bucket of two devices, the first of which is out. *)
Definition flat_rule : crush_rule :=
  CrushRule 3 (CrushMask 0 1 1 10)
    [CrushStep CRUSH_RULE_TAKE (-1) 0; CrushStep CRUSH_RULE_CHOOSELEAF_INDEP 1 0; CrushStep CRUSH_RULE_EMIT 0 0].

Definition flat_map : crush_map :=
  CrushMap [Some (host (-1) [0; 1])] [Some flat_rule] 1 1 2 0 0 0 1 1 1 (8 + 8 + 24) 0 54.

(** Choosing leaves of type 0 indep can emit a device that is out: the leaf
    vector gets the device before the device is tested. *)
Lemma indep_leaf_emits_out :
  is_out [0; 0x10000] 2 0 1 = Ret true /\
  exists ms, (wk <~ crush_init_workspace flat_map 0;;
    crush_do_rule flat_map [0; 0x10000] 2 1 None 10 0 [9] 1 [0] [0] [0] (MState wk None)) = Ret (1, [0], ms).
Proof. split; [done|]. eexists. vm_compute. reflexivity. Qed.

(** A tree bucket whose items weigh nothing is walked past its last item. *)
Lemma tree_zero_weights_fault :
  match crush_make_tree_bucket always_alloc 0 1 3 [7; 8; 9] [0; 0; 0] with
  | Ret (Some b) => crush_bucket_choose b None 1 0 None 0 = Fault
  | _ => False
  end.
Proof. vm_compute. reflexivity. Qed.

(** Adding a third item to a tree bucket sums an inner node from memory
    [realloc] left uninitialised: node 6 holds that memory plus the weight. *)
Lemma tree_add_uninitialised :
  match crush_make_tree_bucket always_alloc 0 1 2 [7; 8] [1; 1] with
  | Ret (Some b) =>
      crush_bucket_add_item always_alloc 0 zero_map b 9 1
        = Ret (0, CrushBucket 0 1 0 3 3 [7; 8; 9] (BTree 8 [0; 1; 2; 1; 3; 1; 1; 0])) /\
      crush_bucket_add_item always_alloc 70 zero_map b 9 1
        = Ret (0, CrushBucket 0 1 0 3 3 [7; 8; 9] (BTree 8 [0; 1; 2; 1; 3; 1; 71; 70]))
  | _ => False
  end.
Proof. vm_compute. split; reflexivity. Qed.

(** Removing an item from a tree bucket also drops other items of weight zero
    at its end. *)
Lemma tree_remove_drops_others :
  match crush_make_tree_bucket always_alloc 0 1 3 [7; 8; 9] [1; 1; 0] with
  | Ret (Some b) =>
      exists b', crush_bucket_remove_item always_alloc 0 Fault zero_map b 8 = Ret (0, b') /\ items b' = [7]
  | _ => False
  end.
Proof. vm_compute. eexists. split; reflexivity. Qed.

(** Removing from a uniform or a list bucket reads one item past the end. *)
Lemma uniform_remove_overread :
  crush_bucket_remove_item always_alloc 0 Fault zero_map sample_uniform 5 = Fault /\
  crush_bucket_remove_item always_alloc 0 (Ret 77) zero_map sample_uniform 5
    = Ret (0, CrushBucket (-4) 1 0 0x20000 2 [4; 6] (BUniform 0x10000)).
Proof. vm_compute. split; reflexivity. Qed.

(** Removing the last item of a uniform bucket reports [-ENOMEM]. *)
Lemma uniform_remove_last :
  exists b', crush_bucket_remove_item always_alloc 0 (Ret 77) zero_map
    (CrushBucket (-4) 1 0 0x10000 1 [4] (BUniform 0x10000)) 4 = Ret (- ENOMEM, b').
Proof. vm_compute. eexists. reflexivity. Qed.

(** A failed allocation leaves the map with a size its array does not have. *)
Lemma add_bucket_nomem :
  exists m', crush_add_bucket (fun _ _ => false) zero_map (-1) sample_uniform = Ret (- ENOMEM, 0, m') /\
    max_buckets m' = 8 /\ buckets m' = [] /\ crush_get_next_bucket_id m' = Fault.
Proof. vm_compute. eexists. repeat split. Qed.

(** A uniform bucket of items without weight cannot be made. *)
Lemma uniform_zero_weight : crush_make_uniform_bucket always_alloc 0 1 2 [4; 5] 0 = Ret None.
Proof. reflexivity. Qed.

(** Reweighting a list bucket leaves its running sums as they were. *)
Lemma reweight_list_stale :
  let leaf := CrushBucket (-2) 1 0 0 1 [0] (BStraw2 [8]) in
  let top := CrushBucket (-1) 2 0 4 1 [-2] (BList [4] [4]) in
  exists m', crush_reweight_bucket always_alloc 0 2 (set_buckets zero_map [Some top; Some leaf] 2) 0 = Ret (0, m') /\
    buckets m' !! 0%nat = Some (Some (CrushBucket (-1) 2 0 8 1 [-2] (BList [8] [4]))).
Proof. vm_compute. eexists. split; reflexivity. Qed.
