(* ===== verification/Bits.v ===== *)
(** * Bit tricks shared by the object store (src/src/include/intarith.h,
    src/src/common/reverse.c)

    [cbits], [reverse_bits] and [reverse_nibbles], each with what it does to
    the bits of its argument. *)

From S2P Require Import Prelude.

(** ** intarith.h *)

(** [cbits] at [unsigned]: [(sizeof(v) * 8) - __builtin_clz(v)]. *)
Definition cbits (v : Z) : Z := if v =? 0 then 0 else 32 - (31 - Z.log2 v).

(** ** reverse.c *)

Definition reverse_bits (v : Z) : Z :=
  if v =? 0 then v else
  let v := Z.lor (Z.land (Z.shiftr v 1) 0x55555555) (u32 (Z.shiftl (Z.land v 0x55555555) 1)) in
  let v := Z.lor (Z.land (Z.shiftr v 2) 0x33333333) (u32 (Z.shiftl (Z.land v 0x33333333) 2)) in
  let v := Z.lor (Z.land (Z.shiftr v 4) 0x0F0F0F0F) (u32 (Z.shiftl (Z.land v 0x0F0F0F0F) 4)) in
  let v := Z.lor (Z.land (Z.shiftr v 8) 0x00FF00FF) (u32 (Z.shiftl (Z.land v 0x00FF00FF) 8)) in
  Z.lor (Z.shiftr v 16) (u32 (Z.shiftl v 16)).

Definition reverse_nibbles (retval : Z) : Z :=
  let retval := Z.lor (u32 (Z.shiftl (Z.land retval 0x0f0f0f0f) 4)) (Z.shiftr (Z.land retval 0xf0f0f0f0) 4) in
  let retval := Z.lor (u32 (Z.shiftl (Z.land retval 0x00ff00ff) 8)) (Z.shiftr (Z.land retval 0xff00ff00) 8) in
  Z.lor (u32 (Z.shiftl (Z.land retval 0x0000ffff) 16)) (Z.shiftr (Z.land retval 0xffff0000) 16).

(** ** Masks *)

Lemma ones_mask k : 0 <= k -> 2 ^ k - 1 = Z.ones k.
Proof. intros. rewrite Z.ones_equiv. lia. Qed.

Lemma land_mask x k : 0 <= k -> Z.land x (2 ^ k - 1) = x mod 2 ^ k.
Proof. intros. rewrite ones_mask, Z.land_ones by lia. done. Qed.

Lemma half_mask k : 0 < k -> Z.shiftr (2 ^ k - 1) 1 = 2 ^ (k - 1) - 1.
Proof.
  intros Hk. rewrite Z.shiftr_div_pow2 by lia. replace k with (Z.succ (k - 1)) at 1 by lia.
  rewrite Z.pow_succ_r by lia. change (2 ^ 1) with 2.
  replace (2 * 2 ^ (k - 1) - 1) with (1 + (2 ^ (k - 1) - 1) * 2) by lia. rewrite Z.div_add by lia. change (1 / 2) with 0. lia.
Qed.

(** [~((~0) << k)] *)
Lemma low_mask k : 0 <= k <= 32 -> u32 (Z.lnot (Z.shiftl (-1) k)) = 2 ^ k - 1.
Proof.
  intros Hk. rewrite Z.shiftl_mul_pow2 by lia. unfold Z.lnot.
  replace (Z.pred (- (-1 * 2 ^ k))) with (2 ^ k - 1) by lia. apply uw_small.
  assert (0 < 2 ^ k <= 2 ^ 32) by (split; [lia|apply Z.pow_le_mono_r; lia]). split; lia.
Qed.

Lemma u32_testbit z i : 0 <= i -> Z.testbit (u32 z) i = (i <? 32) && Z.testbit z i.
Proof.
  intros Hi. unfold uw. destruct (Z.ltb_spec i 32); cbn.
  - by apply Z.mod_pow2_bits_low.
  - apply Z.mod_pow2_bits_high. lia.
Qed.

(** Words are equal when their 32 bits are. *)
Lemma word_ext a b : is_u 32 a -> is_u 32 b -> (forall i, 0 <= i < 32 -> Z.testbit a i = Z.testbit b i) -> a = b.
Proof.
  intros Ha Hb H. rewrite <- (uw_small 32 a Ha), <- (uw_small 32 b Hb). apply Z.bits_inj'. intros i Hi.
  rewrite !u32_testbit by done. destruct (Z.ltb_spec i 32); [|done]. cbn. apply H. lia.
Qed.

Lemma is_u_bits a : 0 <= a -> (forall i, 32 <= i -> Z.testbit a i = false) -> is_u 32 a.
Proof.
  intros Ha H. split; [done|]. assert (a = u32 a) as ->; [|apply uw_range; lia].
  apply Z.bits_inj'. intros i Hi. rewrite u32_testbit by done. destruct (Z.ltb_spec i 32); [done|]. cbn. apply H. lia.
Qed.

Lemma is_u_testbit a i : is_u 32 a -> 32 <= i -> Z.testbit a i = false.
Proof.
  intros Ha Hi. rewrite <- (uw_small 32 a Ha), u32_testbit by lia. destruct (Z.ltb_spec i 32); [lia|done].
Qed.

Lemma swap_word a b m : is_u 32 m -> is_u 32 (Z.lor (Z.land a m) (u32 b)).
Proof.
  intros Hm. apply is_u_bits.
  - apply Z.lor_nonneg. split; [apply Z.land_nonneg; right; apply Hm|apply uw_range; lia].
  - intros j Hj. rewrite Z.lor_spec, Z.land_spec, u32_testbit, (is_u_testbit m) by (done || lia).
    destruct (Z.ltb_spec j 32); [lia|]. by rewrite andb_false_r.
Qed.

(** ** cbits *)

Lemma cbits_pos v : 0 < v -> cbits v = Z.log2 v + 1.
Proof. intros. unfold cbits. destruct (Z.eqb_spec v 0); lia. Qed.

Lemma cbits_bounds v : 0 < v -> 0 < cbits v /\ 2 ^ (cbits v - 1) <= v < 2 ^ cbits v.
Proof.
  intros Hv. rewrite cbits_pos by done. pose proof (Z.log2_nonneg v). pose proof (Z.log2_spec v Hv) as Hs.
  rewrite <- Z.add_1_r in Hs. replace (Z.log2 v + 1 - 1) with (Z.log2 v) by lia. lia.
Qed.

Lemma cbits_nonneg v : 0 <= cbits v.
Proof. unfold cbits. pose proof (Z.log2_nonneg v). case_bool; lia. Qed.

Lemma cbits_le v k : 0 <= k -> 0 <= v < 2 ^ k -> cbits v <= k.
Proof.
  intros Hk Hv. destruct (Z.eq_dec v 0) as [->|]; [done|]. rewrite cbits_pos by lia.
  pose proof (proj1 (Z.log2_lt_pow2 v k ltac:(lia))). lia.
Qed.

(** ** Swaps of neighbouring blocks of [k] bits *)

Definition indices : list Z := Z.of_nat <$> seq 0 32.

Lemma index_in i : 0 <= i < 32 -> i ∈ indices.
Proof.
  intros Hi. apply list_elem_of_fmap. exists (Z.to_nat i). split; [lia|]. apply elem_of_seq. lia.
Qed.

(** The mask [m] selects the lower block of each pair of blocks of [k] bits. *)
Definition swap_mask (k m : Z) : bool :=
  forallb (fun i =>
    if Z.testbit m i then (Z.lxor i k =? i + k) && negb (Z.testbit m (i - k))
    else (k <=? i) && Z.testbit m (i - k) && (Z.lxor i k =? i - k)) indices.

Lemma swap_testbit k m v i :
  0 <= k -> swap_mask k m = true -> 0 <= i < 32 ->
  Z.testbit (Z.lor (Z.land (Z.shiftr v k) m) (u32 (Z.shiftl (Z.land v m) k))) i = Z.testbit v (Z.lxor i k).
Proof.
  intros Hk Hm Hi. unfold swap_mask in Hm. rewrite forallb_forall in Hm.
  specialize (Hm i). rewrite <- list_elem_of_In in Hm. specialize (Hm (index_in i Hi)).
  rewrite Z.lor_spec, Z.land_spec, Z.shiftr_spec, u32_testbit, Z.shiftl_spec, Z.land_spec by lia.
  replace (i <? 32) with true by (symmetry; apply Z.ltb_lt; lia). cbn [andb].
  destruct (Z.testbit m i).
  - apply andb_prop in Hm as [E%Z.eqb_eq Hn%negb_true_iff].
    rewrite Hn, E, andb_false_r, orb_false_r, andb_true_r. done.
  - apply andb_prop in Hm as [[Hl Hn]%andb_prop E%Z.eqb_eq].
    rewrite Hn, E, andb_false_r, andb_true_r. done.
Qed.

(** The form of [reverse_nibbles]. *)
Lemma swap_testbit' k m m' v i :
  0 <= k -> swap_mask k m = true -> Z.shiftr m' k = m -> 0 <= i < 32 ->
  Z.testbit (Z.lor (u32 (Z.shiftl (Z.land v m) k)) (Z.shiftr (Z.land v m') k)) i = Z.testbit v (Z.lxor i k).
Proof.
  intros Hk Hm <- Hi. rewrite Z.lor_comm, Z.shiftr_land. by apply swap_testbit.
Qed.

Lemma lxor_index i k : 0 <= i < 32 -> 0 <= k < 32 -> 0 <= Z.lxor i k < 32.
Proof. intros. change 32 with (2 ^ 5). apply (uw_lxor 5); [lia|done..]. Qed.

Lemma check_indices (P : Z -> bool) : forallb P indices = true -> forall i, 0 <= i < 32 -> P i = true.
Proof. intros H i Hi. rewrite forallb_forall in H. apply H. rewrite <- list_elem_of_In. by apply index_in. Qed.

(** [reverse_bits] puts bit [31 - i] at [i]. *)
Lemma reverse_bits_testbit v i : is_u 32 v -> 0 <= i < 32 -> Z.testbit (reverse_bits v) i = Z.testbit v (31 - i).
Proof.
  intros Hv Hi. unfold reverse_bits. destruct (Z.eqb_spec v 0) as [->|_]; [by rewrite !Z.testbit_0_l|].
  set (v4 := Z.lor (Z.land _ 0x00FF00FF) _).
  assert (Z.lor (Z.shiftr v4 16) (u32 (Z.shiftl v4 16)) =
          Z.lor (Z.land (Z.shiftr v4 16) 0xffff) (u32 (Z.shiftl (Z.land v4 0xffff) 16))) as ->.
  { assert (is_u 32 v4) as Hv4 by (apply swap_word; unfold is_u; lia).
    change 0xffff with (2 ^ 16 - 1). rewrite !land_mask by lia. f_equal.
    - symmetry. apply Z.mod_small. destruct Hv4. rewrite Z.shiftr_div_pow2 by lia. split; [apply Z.div_pos; lia|].
      apply Z.div_lt_upper_bound; lia.
    - unfold uw. rewrite !Z.shiftl_mul_pow2 by lia. change (2 ^ 32) with (2 ^ 16 * 2 ^ 16).
      by rewrite !Z.mul_mod_distr_r, Zmod_mod by lia. }
  rewrite swap_testbit by (lia || reflexivity). unfold v4.
  rewrite swap_testbit by (lia || reflexivity || apply lxor_index; lia).
  rewrite swap_testbit by (lia || reflexivity || (repeat apply lxor_index; lia)).
  rewrite swap_testbit by (lia || reflexivity || (repeat apply lxor_index; lia)).
  rewrite swap_testbit by (lia || reflexivity || (repeat apply lxor_index; lia)).
  f_equal. pose proof (check_indices (fun i => Z.lxor (Z.lxor (Z.lxor (Z.lxor (Z.lxor i 16) 8) 4) 2) 1 =? 31 - i) eq_refl i Hi) as E.
  by apply Z.eqb_eq in E.
Qed.

Lemma reverse_bits_word v : is_u 32 v -> is_u 32 (reverse_bits v).
Proof.
  intros Hv. unfold reverse_bits. destruct (v =? 0); [done|].
  set (v4 := Z.lor (Z.land _ 0x00FF00FF) _).
  assert (is_u 32 v4) as Hv4 by (apply swap_word; unfold is_u; lia).
  apply is_u_bits.
  - apply Z.lor_nonneg. split; [apply Z.shiftr_nonneg, Hv4|apply uw_range; lia].
  - intros j Hj. rewrite Z.lor_spec, Z.shiftr_spec, u32_testbit by lia.
    rewrite (is_u_testbit v4) by (done || lia). destruct (Z.ltb_spec j 32); [lia|done].
Qed.

Lemma reverse_bits_involutive v : is_u 32 v -> reverse_bits (reverse_bits v) = v.
Proof.
  intros Hv. apply word_ext; [by do 2 apply reverse_bits_word|done|]. intros i Hi.
  rewrite !reverse_bits_testbit by (lia || done || by apply reverse_bits_word). f_equal. lia.
Qed.

Lemma reverse_bits_inj a b : is_u 32 a -> is_u 32 b -> reverse_bits a = reverse_bits b -> a = b.
Proof. intros Ha Hb E. by rewrite <- (reverse_bits_involutive a), <- (reverse_bits_involutive b), E. Qed.

(** [reverse_nibbles] puts the bits of nibble [7 - n] at nibble [n]. *)
Lemma reverse_nibbles_testbit v i : 0 <= i < 32 -> Z.testbit (reverse_nibbles v) i = Z.testbit v (Z.lxor i 28).
Proof.
  intros Hi. unfold reverse_nibbles.
  rewrite swap_testbit' by (lia || reflexivity).
  rewrite swap_testbit' by (lia || reflexivity || (repeat apply lxor_index; lia)).
  rewrite swap_testbit' by (lia || reflexivity || (repeat apply lxor_index; lia)).
  f_equal. by rewrite !Z.lxor_assoc.
Qed.

Lemma reverse_nibbles_word v : is_u 32 (reverse_nibbles v).
Proof.
  unfold reverse_nibbles. rewrite Z.lor_comm, Z.shiftr_land. apply swap_word. by vm_compute.
Qed.

(** The leading [k] bits of the reversed words agree when the trailing [k]
    bits of the words do. *)
Lemma reverse_prefix a b k :
  is_u 32 a -> is_u 32 b -> 0 <= k <= 32 ->
  Z.shiftr (reverse_bits a) (32 - k) = Z.shiftr (reverse_bits b) (32 - k) <-> a mod 2 ^ k = b mod 2 ^ k.
Proof.
  intros Ha Hb Hk. split; intros E; apply Z.bits_inj'; intros i Hi.
  - destruct (Z_lt_le_dec i k).
    + rewrite !Z.mod_pow2_bits_low by lia. pose proof (f_equal (fun z => Z.testbit z (k - 1 - i)) E) as E'. cbn beta in E'.
      rewrite !Z.shiftr_spec, !reverse_bits_testbit in E' by (done || lia).
      by replace (31 - (k - 1 - i + (32 - k))) with i in E' by lia.
    + by rewrite !Z.mod_pow2_bits_high by lia.
  - rewrite !Z.shiftr_spec by lia. destruct (Z_lt_le_dec i k).
    + rewrite !reverse_bits_testbit by (done || lia). pose proof (f_equal (fun z => Z.testbit z (31 - (i + (32 - k)))) E) as E'.
      cbn beta in E'. by rewrite !Z.mod_pow2_bits_low in E' by lia.
    + by rewrite !is_u_testbit by (lia || by apply reverse_bits_word).
Qed.

#[export] Hint Resolve reverse_bits_word reverse_nibbles_word : ceph.
