(* ===== verification/Encoding.v ===== *)
(** * Encoding (src/src/include/encoding.h)

    Encoders are functions to bytes, decoders run on a buffer at an offset and
    either return a value and the new offset or throw.  [RoundTrip enc dec ok]
    is what an encoder and its decoder promise to the types built from them:
    wherever the bytes of a value stand in a buffer, the decoder reads the
    value back and stops behind it. *)

From S2P Require Import Prelude.

Notation bytes := (list Z).

(** ** Decoders *)

(** The exceptions of namespace [buffer], and a failed assertion. *)
Inductive decode_error : Type :=
  | EndOfBuffer
  | MalformedInput
  | AssertFailed.

Inductive dres (A : Type) : Type :=
  | DOk (a : A) (off : Z)
  | DErr (e : decode_error).
Arguments DOk {A} a off.
Arguments DErr {A} e.

(** The buffer and the offset of the iterator. *)
Definition decoder (A : Type) : Type := bytes -> Z -> dres A.

Definition dret {A} (a : A) : decoder A := fun bl off => DOk a off.

Definition dfail {A} (e : decode_error) : decoder A := fun bl off => DErr e.

Definition dbind {A B} (m : decoder A) (k : A -> decoder B) : decoder B :=
  fun bl off =>
    match m bl off with
    | DOk a off => k a bl off
    | DErr e => DErr e
    end.

Declare Scope dec_scope.
Delimit Scope dec_scope with dec.
Notation "x '<-d' m ;; k" := (dbind m (fun x => k))
  (at level 20, m at level 99, k at level 200, right associativity) : dec_scope.
Open Scope dec_scope.

(** [get_off] and [get_remaining]. *)
Definition get_off : decoder Z := fun bl off => DOk off off.

Definition get_remaining : decoder Z := fun bl off => DOk (zlen bl - off) off.

(** [copy]: the next [len] bytes. *)
Definition copy_bytes (len : Z) : decoder bytes := fun bl off =>
  if zlen bl <? off + len then DErr EndOfBuffer
  else DOk (take (Z.to_nat len) (drop (Z.to_nat off) bl)) (off + len).

Definition advance (len : Z) : decoder unit := fun bl off =>
  if zlen bl <? off + len then DErr EndOfBuffer else DOk tt (off + len).

Definition dassert (b : bool) : decoder unit := if b then dret tt else dfail AssertFailed.

(** ** Base types *)

(** The [n] bytes of an integer, least significant first. *)
Fixpoint le (n : nat) (v : Z) : bytes :=
  match n with
  | O => []
  | S n => v mod 256 :: le n (v / 256)
  end.

Fixpoint unle (l : bytes) : Z :=
  match l with
  | [] => 0
  | b :: l => b + 256 * unle l
  end.

Definition encode_u8 (v : Z) : bytes := le 1 v.
Definition encode_u32 (v : Z) : bytes := le 4 v.
Definition encode_u64 (v : Z) : bytes := le 8 v.
Definition encode_s8 (v : Z) : bytes := le 1 v.
Definition encode_s32 (v : Z) : bytes := le 4 v.
Definition encode_s64 (v : Z) : bytes := le 8 v.

Definition decode_unsigned (n : Z) : decoder Z := l <-d copy_bytes n;; dret (unle l).

Definition decode_u8 : decoder Z := decode_unsigned 1.
Definition decode_u32 : decoder Z := decode_unsigned 4.
Definition decode_u64 : decoder Z := decode_unsigned 8.
Definition decode_s8 : decoder Z := v <-d decode_unsigned 1;; dret (sw 8 v).
Definition decode_s32 : decoder Z := v <-d decode_unsigned 4;; dret (s32 v).
Definition decode_s64 : decoder Z := v <-d decode_unsigned 8;; dret (s64 v).

Definition encode_bool (v : bool) : bytes := encode_u8 (if v then 1 else 0).

Definition decode_bool : decoder bool := vv <-d decode_u8;; dret (negb (vv =? 0)).

(** A [std::string]. *)
Definition encode_string (s : bytes) : bytes :=
  let len := u32 (zlen s) in
  encode_u32 len ++ (if len =? 0 then [] else take (Z.to_nat len) s).

Definition decode_string : decoder bytes := len <-d decode_u32;; copy_bytes len.

(** ** Containers *)

(** [std::vector], and the other containers that are encoded by their
    elements in order. *)
Definition encode_vector {A} (enc : A -> bytes) (v : list A) : bytes :=
  encode_u32 (u32 (zlen v)) ++ mjoin (enc <$> v).

Fixpoint decode_elements {A} (n : nat) (dec : decoder A) : decoder (list A) :=
  match n with
  | O => dret []
  | S n => a <-d dec;; l <-d decode_elements n dec;; dret (a :: l)
  end.

Definition decode_vector {A} (dec : decoder A) : decoder (list A) :=
  n <-d decode_u32;; decode_elements (Z.to_nat n) dec.

(** ** Versioned structures *)

(** [ENCODE_START(v, compat, bl)] ... [ENCODE_FINISH(bl)] around [body]. *)
Definition encode_struct (v compat : Z) (body : bytes) : bytes :=
  encode_u8 v ++ encode_u8 compat ++ encode_u32 (u32 (zlen body)) ++ body.

(** [DECODE_FINISH(bl)] *)
Definition decode_finish (struct_end : Z) : decoder unit :=
  if struct_end =? 0 then dret tt else
  off <-d get_off;;
  if struct_end <? off then dfail MalformedInput
  else if off <? struct_end then advance (struct_end - off) else dret tt.

(** The length field: the end of the structure. *)
Definition decode_length : decoder Z :=
  struct_len <-d decode_u32;;
  remaining <-d get_remaining;;
  if remaining <? struct_len then dfail MalformedInput else
  off <-d get_off;;
  dret (u32 (off + struct_len)).

(** [DECODE_START(v, bl)] ... [DECODE_FINISH(bl)] around [body], which gets
    [struct_v]. *)
Definition decode_struct {A} (v : Z) (body : Z -> decoder A) : decoder A :=
  struct_v <-d decode_u8;;
  struct_compat <-d decode_u8;;
  _ <-d (if v <? struct_compat then dfail MalformedInput else dret tt);;
  struct_end <-d decode_length;;
  a <-d body struct_v;;
  _ <-d decode_finish struct_end;;
  dret a.

(** [DECODE_START_LEGACY_COMPAT_LEN(v, compatv, lenv, bl)] ...
    [DECODE_FINISH(bl)]. *)
Definition decode_struct_legacy {A} (v compatv lenv : Z) (body : Z -> decoder A) : decoder A :=
  struct_v <-d decode_u8;;
  _ <-d (if compatv <=? struct_v then
           struct_compat <-d decode_u8;;
           if v <? struct_compat then dfail MalformedInput else dret tt
         else dret tt);;
  struct_end <-d (if lenv <=? struct_v then decode_length else dret 0);;
  a <-d body struct_v;;
  _ <-d decode_finish struct_end;;
  dret a.

(** ** The promise *)

Class RoundTrip {A} (enc : A -> bytes) (dec : decoder A) (ok : A -> Prop) : Prop :=
  round_trip a pre post :
    ok a -> zlen (pre ++ enc a) < 2 ^ 32 ->
    dec (pre ++ enc a ++ post) (zlen pre) = DOk a (zlen (pre ++ enc a)).

(** One step of a decoder that starts with the value it finds. *)
Lemma dbind_round_trip {A B} enc dec ok `{RoundTrip A enc dec ok} (k : A -> decoder B) a pre post :
  ok a -> zlen (pre ++ enc a) < 2 ^ 32 ->
  dbind dec k (pre ++ enc a ++ post) (zlen pre) = k a ((pre ++ enc a) ++ post) (zlen (pre ++ enc a)).
Proof. intros Hok Hl. unfold dbind. rewrite round_trip by done. by rewrite app_assoc. Qed.

Lemma dbind_ok {A B} (m : decoder A) (k : A -> decoder B) bl off a off' :
  m bl off = DOk a off' -> dbind m k bl off = k a bl off'.
Proof. intros E. unfold dbind. by rewrite E. Qed.

Lemma le_length n v : length (le n v) = n.
Proof. revert v. induction n as [|n IH]; intros v; cbn; [done|by rewrite IH]. Qed.

Lemma unle_le n v : unle (le n v) = v mod 256 ^ Z.of_nat n.
Proof.
  revert v. induction n as [|n IH]; intros v; cbn [le unle]; [cbn; by rewrite Z.mod_1_r|].
  rewrite IH. replace (256 ^ Z.of_nat (S n)) with (256 * 256 ^ Z.of_nat n)
    by (rewrite Nat2Z.inj_succ, Z.pow_succ_r; lia).
  by rewrite Z.rem_mul_r by lia.
Qed.

Lemma copy_bytes_app pre l post :
  copy_bytes (zlen l) (pre ++ l ++ post) (zlen pre) = DOk l (zlen (pre ++ l)).
Proof.
  unfold copy_bytes. rewrite !length_app. destruct (Z.ltb_spec (Z.of_nat (length pre + (length l + length post))) (zlen pre + zlen l)); [lia|].
  rewrite !Nat2Z.id, drop_app_length, take_app_length. f_equal. lia.
Qed.

Lemma decode_unsigned_le n v pre post :
  decode_unsigned (Z.of_nat n) (pre ++ le n v ++ post) (zlen pre)
    = DOk (v mod 256 ^ Z.of_nat n) (zlen (pre ++ le n v)).
Proof.
  unfold decode_unsigned, dbind, dret. pose proof (copy_bytes_app pre (le n v) post) as E.
  rewrite le_length in E. by rewrite E, unle_le.
Qed.

Lemma unsigned_round_trip (n : nat) :
  RoundTrip (le n) (decode_unsigned (Z.of_nat n)) (fun v => 0 <= v < 256 ^ Z.of_nat n).
Proof. intros v pre post Hv Hl. rewrite decode_unsigned_le. by rewrite Z.mod_small by done. Qed.

Lemma signed_round_trip (n : nat) (w : Z) :
  0 < w -> 256 ^ Z.of_nat n = 2 ^ w ->
  RoundTrip (le n) (v <-d decode_unsigned (Z.of_nat n);; dret (sw w v)) (is_s w).
Proof.
  intros Hw E v pre post Hv Hl. unfold dbind, dret. rewrite decode_unsigned_le, E. f_equal.
  unfold sw. rewrite Zplus_mod_idemp_l. by apply sw_small.
Qed.

#[export] Instance u8_round_trip : RoundTrip encode_u8 decode_u8 (is_u 8) := unsigned_round_trip 1.
#[export] Instance u32_round_trip : RoundTrip encode_u32 decode_u32 (is_u 32) := unsigned_round_trip 4.
#[export] Instance u64_round_trip : RoundTrip encode_u64 decode_u64 (is_u 64) := unsigned_round_trip 8.
#[export] Instance s8_round_trip : RoundTrip encode_s8 decode_s8 (is_s 8) := signed_round_trip 1 8 eq_refl eq_refl.
#[export] Instance s32_round_trip : RoundTrip encode_s32 decode_s32 (is_s 32) := signed_round_trip 4 32 eq_refl eq_refl.
#[export] Instance s64_round_trip : RoundTrip encode_s64 decode_s64 (is_s 64) := signed_round_trip 8 64 eq_refl eq_refl.

#[export] Instance bool_round_trip : RoundTrip encode_bool decode_bool (fun _ => True).
Proof.
  intros b pre post _ Hl. unfold decode_bool, encode_bool in *. rewrite (dbind_round_trip encode_u8 decode_u8 (is_u 8)) by (done || by destruct b).
  by destruct b.
Qed.

#[export] Instance string_round_trip : RoundTrip encode_string decode_string (fun s => zlen s < 2 ^ 32).
Proof.
  intros s pre post Hs Hl. cbn in Hs. unfold decode_string.
  assert (encode_string s = encode_u32 (zlen s) ++ s) as E.
  { unfold encode_string. rewrite (uw_small 32 (zlen s)) by (split; lia). f_equal.
    destruct (Z.eqb_spec (zlen s) 0); [by destruct s|]. by rewrite Nat2Z.id, firstn_all. }
  rewrite E in *. rewrite <- app_assoc, (dbind_round_trip encode_u32 decode_u32 (is_u 32)).
  - rewrite copy_bytes_app. by rewrite <- app_assoc.
  - split; lia.
  - rewrite !length_app in *. lia.
Qed.

(** ** Structures *)

(** What a structure's body decoder does, over all contexts. *)
Definition reads {A} (dec : decoder A) (l : bytes) (a : A) : Prop :=
  forall pre post, zlen (pre ++ l) < 2 ^ 32 -> dec (pre ++ l ++ post) (zlen pre) = DOk a (zlen (pre ++ l)).

(** Forward compatibility: a structure written by a later version [v'], which
    still names a compatible version this code knows and only appends fields,
    is read as before, and its trailing fields are skipped. *)
Lemma decode_finish_skip pre l more post :
  zlen (pre ++ l ++ more) < 2 ^ 32 ->
  decode_finish (u32 (zlen (pre ++ l ++ more))) (pre ++ l ++ more ++ post) (zlen (pre ++ l)) = DOk tt (zlen (pre ++ l ++ more)).
Proof.
  intros Hl. rewrite uw_small by (split; lia). unfold decode_finish, dbind, get_off, advance, dret.
  repeat case_bool; zbool; rewrite !length_app in *; try lia; f_equal; lia.
Qed.

Lemma decode_length_spec pre l post :
  zlen (pre ++ encode_u32 (u32 (zlen l)) ++ l) < 2 ^ 32 ->
  decode_length (pre ++ encode_u32 (u32 (zlen l)) ++ l ++ post) (zlen pre)
    = DOk (u32 (zlen ((pre ++ encode_u32 (u32 (zlen l))) ++ l))) (zlen (pre ++ encode_u32 (u32 (zlen l)))).
Proof.
  intros Hl. assert (zlen l < 2 ^ 32) by (rewrite !length_app in Hl; lia). unfold decode_length.
  rewrite (dbind_round_trip encode_u32 decode_u32 (is_u 32)); [|apply uw_range; lia|rewrite !length_app in *; lia].
  set (p := pre ++ _). assert (zlen (p ++ l) < 2 ^ 32) by (unfold p; by rewrite <- app_assoc).
  rewrite uw_small by (split; lia). unfold dbind, get_remaining, get_off, dret.
  rewrite app_assoc, length_app. destruct (Z.ltb_spec (Z.of_nat (length (p ++ l) + length post) - zlen p) (zlen l)) as [Hlt|_].
  { rewrite length_app in Hlt. lia. }
  f_equal. rewrite length_app. f_equal. lia.
Qed.

(** The part of a structure behind its versions. *)
Lemma struct_tail {A} (body : decoder A) l more a pre post (p := pre ++ encode_u32 (u32 (zlen (l ++ more)))) :
  reads body l a -> zlen (p ++ l ++ more) < 2 ^ 32 ->
  (struct_end <-d decode_length;; a <-d body;; _ <-d decode_finish struct_end;; dret a)
    (pre ++ encode_u32 (u32 (zlen (l ++ more))) ++ l ++ more ++ post) (zlen pre) = DOk a (zlen (p ++ l ++ more)).
Proof.
  intros Hb Hl. unfold dbind. rewrite (app_assoc l more post), decode_length_spec by (unfold p in Hl; by rewrite <- app_assoc in Hl).
  fold p. rewrite app_assoc, <- (app_assoc l more post). fold p. rewrite Hb by (rewrite !length_app in *; lia).
  by rewrite decode_finish_skip.
Qed.

Lemma struct_reads {A} v v' compat' (body : Z -> decoder A) l more a :
  reads (body v') l a -> is_u 8 v' -> is_u 8 compat' -> compat' <= v ->
  reads (decode_struct v body) (encode_struct v' compat' (l ++ more)) a.
Proof.
  intros Hb Hv' Hc' Hv pre post Hl. unfold decode_struct, encode_struct in *. rewrite <- !app_assoc.
  rewrite (dbind_round_trip encode_u8 decode_u8 (is_u 8)) by (done || rewrite !length_app in *; lia).
  rewrite (dbind_round_trip encode_u8 decode_u8 (is_u 8)) by (done || rewrite !length_app in *; lia).
  destruct (Z.ltb_spec v compat'); [lia|]. set (p := (pre ++ _) ++ _).
  pose proof (struct_tail (body v') l more a p post Hb) as E.
  unfold dbind at 1, dret at 1. rewrite E; [|unfold p; rewrite !length_app in *; lia].
  f_equal. unfold p. rewrite !length_app. lia.
Qed.

Lemma struct_legacy_reads {A} v compatv lenv v' compat' (body : Z -> decoder A) l more a :
  reads (body v') l a -> is_u 8 v' -> is_u 8 compat' -> compat' <= v -> compatv <= v' -> lenv <= v' ->
  reads (decode_struct_legacy v compatv lenv body) (encode_struct v' compat' (l ++ more)) a.
Proof.
  intros Hb Hv' Hc' Hv Hcv Hlv pre post Hl. unfold decode_struct_legacy, encode_struct in *. rewrite <- !app_assoc.
  rewrite (dbind_round_trip encode_u8 decode_u8 (is_u 8)) by (done || rewrite !length_app in *; lia).
  destruct (Z.leb_spec compatv v'); [|lia]. destruct (Z.leb_spec lenv v'); [|lia].
  set (p := pre ++ _). set (q := p ++ encode_u8 compat').
  erewrite dbind_ok; [|rewrite (dbind_round_trip encode_u8 decode_u8 (is_u 8));
    [destruct (Z.ltb_spec v compat'); [lia|reflexivity]|done|unfold p; rewrite !length_app in *; lia]].
  fold q. rewrite (app_assoc p (encode_u8 compat')). fold q.
  pose proof (struct_tail (body v') l more a q post Hb) as E.
  rewrite E; [|unfold q, p; rewrite !length_app in *; lia].
  f_equal. unfold q, p. rewrite !length_app. lia.
Qed.

(** A reader of a value at the front, then of the rest. *)
Lemma reads_bind {A B} enc dec ok `{RoundTrip A enc dec ok} (k : A -> decoder B) a l b :
  ok a -> reads (k a) l b -> reads (dbind dec k) (enc a ++ l) b.
Proof.
  intros Hok Hk pre post Hl. rewrite <- app_assoc, (dbind_round_trip enc dec ok) by (done || rewrite !length_app in *; lia).
  rewrite Hk by (by rewrite <- app_assoc). by rewrite <- app_assoc.
Qed.

Lemma reads_last {A B} enc dec ok `{RoundTrip A enc dec ok} (k : A -> decoder B) a b :
  ok a -> (forall bl off, k a bl off = DOk b off) -> reads (dbind dec k) (enc a) b.
Proof.
  intros Hok Hk pre post Hl. rewrite (dbind_round_trip enc dec ok) by (done || rewrite !length_app in *; lia). apply Hk.
Qed.

Lemma reads_round_trip {A} enc (dec : decoder A) (ok : A -> Prop) :
  (forall a, ok a -> reads dec (enc a) a) -> RoundTrip enc dec ok.
Proof. intros H a pre post Hok Hl. by apply H. Qed.

Lemma reads_ret {A} (a : A) : reads (dret a) [] a.
Proof. intros pre post _. by rewrite app_nil_r. Qed.

Lemma reads_seq {A B} (d : decoder A) (k : A -> decoder B) l l' a b :
  reads d l a -> reads (k a) l' b -> reads (dbind d k) (l ++ l') b.
Proof.
  intros Hd Hk pre post Hl. unfold dbind. rewrite <- app_assoc, Hd by (rewrite !length_app in *; lia).
  rewrite app_assoc, Hk by (by rewrite <- app_assoc). by rewrite <- app_assoc.
Qed.

Lemma reads_map {A B} (d : decoder A) (f : A -> B) l a : reads d l a -> reads (x <-d d;; dret (f x)) l (f a).
Proof. intros Hd. rewrite <- (app_nil_r l). eapply reads_seq; [done|apply reads_ret]. Qed.

#[export] Instance vector_round_trip {A} enc dec ok `{RoundTrip A enc dec ok} :
  RoundTrip (encode_vector enc) (decode_vector dec) (fun v => zlen v < 2 ^ 32 /\ Forall ok v).
Proof.
  apply reads_round_trip. intros v [Hv HF]. unfold encode_vector, decode_vector.
  rewrite uw_small by (split; lia). apply (reads_bind encode_u32 decode_u32 (is_u 32)); [split; lia|].
  rewrite Nat2Z.id. clear Hv. induction HF as [|a v Ha _ IH]; cbn [length decode_elements fmap list_fmap mjoin list_join].
  - intros pre post _. by rewrite app_nil_r.
  - apply (reads_bind enc dec ok); [done|]. intros pre post Hl. unfold dbind. by rewrite IH.
Qed.
