(* ===== verification/BufferList.v ===== *)
(** * Buffer lists and their iterators (src/src/common/buffer.cc,
    src/src/include/buffer.h)

    A [bufferlist] is a list of chunks; its iterator holds the chunk it is in,
    the offset there and the offset in the whole.  The last section shows that
    [advance], [seek] and [copy] do on the chunks what the flat operations of
    Encoding.v do on the concatenation, so that decoders can be read as
    functions of flat bytes. *)

From S2P Require Import Prelude Encoding.

(** [buffers_t]: the bytes of each [ptr] of the list. *)
Notation buffers := (list bytes).

Record iterator := Iterator {
  it_p : nat;      (** index of [p]; [ls->end()] is the number of chunks *)
  it_p_off : Z;
  it_off : Z;
}.

Definition ires (A : Type) : Type := (A * iterator + decode_error)%type.

Definition it_begin : iterator := Iterator 0 0 0.

Definition at_end (ls : buffers) (it : iterator) : bool := Nat.eqb (it_p it) (length ls).

(** [while (p != ls->end())] of [advance]; [rest] are the chunks from [p] on. *)
Fixpoint advance_loop (rest : buffers) (p : nat) (p_off : Z) : nat * Z :=
  match rest with
  | [] => (p, p_off)
  | c :: rest =>
      if zlen c <=? p_off then advance_loop rest (S p) (p_off - zlen c) else (p, p_off)
  end.

Definition it_advance (ls : buffers) (it : iterator) (o : Z) : ires unit :=
  let '(p, p_off) := advance_loop (drop (it_p it) ls) (it_p it) (u32 (it_p_off it + o)) in
  if Nat.eqb p (length ls) && negb (p_off =? 0) then inr EndOfBuffer
  else inl (tt, Iterator p p_off (u32 (it_off it + o))).

Definition it_seek (ls : buffers) (o : Z) : ires unit := it_advance ls it_begin o.

(** [while (len > 0)] of [copy]; a turn copies what is left of one chunk. *)
Fixpoint copy_loop (fuel : nat) (ls : buffers) (it : iterator) (len : Z) (dest : bytes) : option (ires bytes) :=
  match fuel with
  | O => None
  | S fuel =>
      if len <=? 0 then Some (inl (dest, it)) else
      match ls !! it_p it with
      | None => Some (inr EndOfBuffer)
      | Some c =>
          let howmuch := Z.min len (zlen c - it_p_off it) in
          let dest := dest ++ take (Z.to_nat howmuch) (drop (Z.to_nat (it_p_off it)) c) in
          match it_advance ls it howmuch with
          | inr e => Some (inr e)
          | inl (_, it) => copy_loop fuel ls it (len - howmuch) dest
          end
      end
  end.

(** A turn leaves its chunk or ends the loop. *)
Definition it_copy (ls : buffers) (it : iterator) (len : Z) : option (ires bytes) :=
  match (if at_end ls it then it_seek ls (it_off it) else inl (tt, it)) with
  | inr e => Some (inr e)
  | inl (_, it) => copy_loop (S (S (length ls))) ls it len []
  end.

Definition it_get_off (it : iterator) : Z := it_off it.

Definition it_get_remaining (ls : buffers) (it : iterator) : Z := u32 (zlen (mjoin ls) - it_off it).

(** ** Refinement of the flat operations *)

(** The iterator's two offsets agree, and it rests inside its chunk. *)
Record it_ok (ls : buffers) (it : iterator) : Prop := ItOk {
  ok_p : (it_p it <= length ls)%nat;
  ok_off : it_off it = zlen (mjoin (take (it_p it) ls)) + it_p_off it;
  ok_pos : 0 <= it_p_off it;
  ok_in : match ls !! it_p it with
          | Some c => it_p_off it < zlen c \/ it_p_off it = 0
          | None => it_p_off it = 0
          end;
}.

Lemma mjoin_split (ls : buffers) p : mjoin ls = mjoin (take p ls) ++ mjoin (drop p ls).
Proof. by rewrite <- join_app, take_drop. Qed.

Lemma mjoin_take_S (ls : buffers) p c : ls !! p = Some c -> mjoin (take (S p) ls) = mjoin (take p ls) ++ c.
Proof. intros E. rewrite (take_S_r _ _ _ E), join_app. cbn. by rewrite app_nil_r. Qed.

Lemma advance_loop_spec ls k p p_off (total := zlen (mjoin (take p ls)) + p_off) :
  (k = length ls - p)%nat -> (p <= length ls)%nat -> 0 <= p_off ->
  exists p' po', advance_loop (drop p ls) p p_off = (p', po') /\ (p <= p' <= length ls)%nat /\ 0 <= po' /\
    zlen (mjoin (take p' ls)) + po' = total /\
    (forall c, ls !! p' = Some c -> po' < zlen c) /\
    (total <= zlen (mjoin ls) -> p' = length ls -> po' = 0) /\
    (zlen (mjoin ls) < total -> p' = length ls /\ 0 < po').
Proof.
  subst total. revert p p_off. induction k as [|k IH]; intros p p_off Hk Hp Hpo.
  - assert (p = length ls) as -> by lia. rewrite drop_all. exists (length ls), p_off.
    rewrite firstn_all. split; [done|]. split; [lia|]. split; [done|]. split; [done|].
    split; [|split; [|split]]; try lia. intros c Hc%lookup_lt_Some. lia.
  - destruct (lookup_lt_is_Some_2 ls p) as [c Hc]; [lia|]. rewrite (drop_S _ _ _ Hc). cbn [advance_loop].
    destruct (Z.leb_spec (zlen c) p_off) as [Hle|Hlt].
    + destruct (IH (S p) (p_off - zlen c)) as (p' & po' & E & Hp' & H0 & Hs & Hin & H1 & H2); [lia..|].
      rewrite (mjoin_take_S _ _ _ Hc), length_app in *. exists p', po'. split; [done|]. split; [lia|]. split; [done|].
      split; [lia|]. split; [done|]. split; intros; [apply H1|apply H2]; lia.
    + exists p, p_off. split; [done|]. split; [lia|]. split; [done|]. split; [done|].
      assert (zlen (mjoin (take p ls)) + zlen c <= zlen (mjoin ls)).
      { rewrite (mjoin_split ls (S p)), length_app, (mjoin_take_S _ _ _ Hc), length_app. lia. }
      split; [intros c' Hc'; congruence|]. split; lia.
Qed.

(** [advance] moves the iterator by [o], or throws when that is past the end. *)
Lemma it_advance_spec ls it o :
  it_ok ls it -> 0 <= o -> it_off it + o < 2 ^ 32 ->
  if zlen (mjoin ls) <? it_off it + o then it_advance ls it o = inr EndOfBuffer
  else exists it', it_advance ls it o = inl (tt, it') /\ it_ok ls it' /\ it_off it' = it_off it + o /\
         (it_p it <= it_p it')%nat /\ (forall c, ls !! it_p it' = Some c -> it_p_off it' < zlen c).
Proof.
  intros [Hp Hoff Hpos Hin] Ho Hb. unfold it_advance.
  assert (it_p_off it <= it_off it) by lia. rewrite !uw_small by (split; lia).
  destruct (advance_loop_spec ls (length ls - it_p it) (it_p it) (it_p_off it + o))
    as (p' & po' & -> & Hp' & H0 & Hs & Hc & H1 & H2); [lia..|].
  destruct (Z.ltb_spec (zlen (mjoin ls)) (it_off it + o)) as [Hlt|Hle].
  - destruct H2 as [-> Hpo]; [lia|]. rewrite Nat.eqb_refl. destruct (Z.eqb_spec po' 0); [lia|done].
  - destruct (Nat.eqb_spec p' (length ls)) as [->|Hne]; cbn [andb].
    + rewrite (H1 ltac:(lia) eq_refl) in *. cbn. eexists. split; [done|]. split; [|split; [done|split; [cbn; lia|]]].
      * split; cbn; [lia..|]. by rewrite lookup_ge_None_2.
      * intros c Hc'%lookup_lt_Some. cbn in Hc'. lia.
    + eexists. split; [done|]. split; [|split; [done|split; [cbn; lia|done]]]. split; cbn; [lia..|].
      destruct (lookup_lt_is_Some_2 ls p') as [c Ec]; [lia|]. rewrite Ec. left. by apply Hc.
Qed.

Lemma begin_ok ls : it_ok ls it_begin.
Proof. split; cbn; [lia|done|done|]. destruct (ls !! 0%nat); [by right|done]. Qed.

(** The flat bytes from the iterator on start with the rest of its chunk. *)
Lemma flat_at ls it c :
  it_ok ls it -> ls !! it_p it = Some c ->
  drop (Z.to_nat (it_off it)) (mjoin ls) = drop (Z.to_nat (it_p_off it)) c ++ mjoin (drop (S (it_p it)) ls).
Proof.
  intros [Hp Hoff Hpos Hin] Hc. rewrite Hc in Hin. rewrite (mjoin_split ls (S (it_p it))), (mjoin_take_S _ _ _ Hc), <- app_assoc.
  replace (Z.to_nat (it_off it)) with (length (mjoin (take (it_p it) ls)) + Z.to_nat (it_p_off it))%nat by lia.
  rewrite <- drop_drop, drop_app_length, drop_app_le by lia. done.
Qed.

Lemma copy_loop_spec fuel ls it len dest :
  it_ok ls it -> 0 <= len -> it_off it + len < 2 ^ 32 -> (0 < fuel)%nat ->
  (0 < len -> (length ls - it_p it < fuel)%nat) ->
  if zlen (mjoin ls) <? it_off it + len then 0 < len -> copy_loop fuel ls it len dest = Some (inr EndOfBuffer)
  else exists it', copy_loop fuel ls it len dest
         = Some (inl (dest ++ take (Z.to_nat len) (drop (Z.to_nat (it_off it)) (mjoin ls)), it')) /\
         it_ok ls it' /\ it_off it' = it_off it + len.
Proof.
  revert it len dest. induction fuel as [|fuel IH]; intros it len dest Hok Hlen Hb Hf Hf'; [lia|]. cbn [copy_loop].
  destruct (Z.leb_spec len 0) as [Hz|Hpos].
  { assert (len = 0) as -> by lia. case_bool; [lia|]. exists it. rewrite app_nil_r. split; [done|]. split; [done|lia]. }
  pose proof Hok as [Hp Hoff Hpo Hin]. destruct (ls !! it_p it) as [c|] eqn:Hc.
  2: { case_bool; [done|]. zbool. apply lookup_ge_None in Hc. rewrite take_ge in Hoff by done. lia. }
  set (h := Z.min len (zlen c - it_p_off it)).
  pose proof (lookup_lt_Some _ _ _ Hc) as Hpl. pose proof (flat_at ls it c Hok Hc) as Hflat.
  assert (zlen (mjoin (take (S (it_p it)) ls)) <= zlen (mjoin ls)) as Hle
    by (rewrite (mjoin_split ls (S (it_p it))), (length_app (mjoin (take _ _))); lia).
  rewrite (mjoin_take_S _ _ _ Hc), length_app in Hle.
  pose proof (it_advance_spec ls it h Hok ltac:(lia) ltac:(lia)) as Ha.
  destruct (Z.ltb_spec (zlen (mjoin ls)) (it_off it + h)); [lia|]. destruct Ha as (it1 & -> & Hok1 & Eoff & Hp1 & Hin1).
  assert (h < len -> (it_p it < it_p it1)%nat) as Hstep.
  { intros Hh. assert (it_p it1 <> it_p it); [|lia]. intros E. pose proof (Hin1 c) as Hlt. rewrite E in Hlt. specialize (Hlt Hc).
    pose proof (ok_off _ _ Hok1) as E1. rewrite E in E1. lia. }
  specialize (IH it1 (len - h) (dest ++ take (Z.to_nat h) (drop (Z.to_nat (it_p_off it)) c)) Hok1
    ltac:(lia) ltac:(lia) ltac:(lia) ltac:(lia)).
  replace (it_off it1 + (len - h)) with (it_off it + len) in IH by lia. case_bool; zbool.
  - intros _. apply IH. lia.
  - destruct IH as (it' & -> & Hok' & Eoff'). exists it'. split; [|split; [done|lia]]. do 3 f_equal.
    rewrite <- app_assoc. f_equal. rewrite <- (take_app_le (drop _ c) (mjoin (drop (S (it_p it)) ls))) by (rewrite length_drop; lia).
    rewrite <- Hflat. replace (Z.to_nat (it_off it1)) with (Z.to_nat (it_off it) + Z.to_nat h)%nat by lia.
    rewrite <- drop_drop, take_take_drop. f_equal. lia.
Qed.

Lemma it_ok_le ls it : it_ok ls it -> it_off it <= zlen (mjoin ls).
Proof.
  intros [Hp -> Hpos Hin]. rewrite (mjoin_split ls (it_p it)), length_app.
  destruct (ls !! it_p it) as [c|] eqn:Hc; [|lia]. rewrite (drop_S _ _ _ Hc). cbn. rewrite length_app. lia.
Qed.

(** [copy] on the chunks is [copy_bytes] on the flat bytes. *)
Lemma it_copy_spec ls it len :
  it_ok ls it -> 0 <= len -> it_off it + len < 2 ^ 32 ->
  match copy_bytes len (mjoin ls) (it_off it) with
  | DErr e => it_copy ls it len = Some (inr e)
  | DOk l off' => exists it', it_copy ls it len = Some (inl (l, it')) /\ it_ok ls it' /\ it_off it' = off'
  end.
Proof.
  intros Hok Hlen Hb. pose proof (it_ok_le ls it Hok) as H0. unfold it_copy.
  assert (exists it0, (if at_end ls it then it_seek ls (it_off it) else inl (tt, it)) = inl (tt, it0) /\
    it_ok ls it0 /\ it_off it0 = it_off it) as (it0 & -> & Hok0 & E0).
  { unfold at_end. destruct (Nat.eqb_spec (it_p it) (length ls)) as [E|_]; [|by exists it].
    pose proof Hok as [Hp Hoff Hpos Hin]. rewrite lookup_ge_None_2 in Hin by lia. rewrite take_ge in Hoff by lia.
    pose proof (it_advance_spec ls it_begin (it_off it) (begin_ok ls) ltac:(lia) ltac:(cbn; lia)) as Ha. cbn [it_begin it_off] in Ha.
    destruct (Z.ltb_spec (zlen (mjoin ls)) (0 + it_off it)); [lia|]. destruct Ha as (it0 & ? & ? & ? & _). by exists it0. }
  pose proof (copy_loop_spec (S (S (length ls))) ls it0 len [] Hok0 Hlen ltac:(lia) ltac:(lia) ltac:(lia)) as Hc.
  rewrite E0 in Hc. unfold copy_bytes. case_bool; zbool.
  - apply Hc. lia.
  - destruct Hc as (it' & -> & ? & ?). by exists it'.
Qed.

(** [p_off + o] is computed in 32 bits: an advance past the end by nearly
    [2^32] goes backwards in its chunk instead of throwing. *)
Lemma advance_wraps : it_advance [[1; 2; 3; 4; 5; 6; 7; 8]] (Iterator 0 5 5) (2 ^ 32 - 3) = inl (tt, Iterator 0 2 2).
Proof. reflexivity. Qed.
