(* ===== verification/Hobject.v ===== *)
(** * Object names in the store (src/src/common/hobject.h, hobject.cc)

    [hobject_t] with its cached reversals of the hash, [ghobject_t], their
    order, and their encodings.  A [std::string] is the list of its bytes. *)

From S2P Require Import Prelude Bits Encoding.

Definition CEPH_SNAPDIR : Z := u64 (-1).
Definition CEPH_NOSNAP : Z := u64 (-2).
Definition INT64_MIN : Z := - 2 ^ 63.

(** ** Strings *)

Fixpoint string_eqb (a b : bytes) : bool :=
  match a, b with
  | [], [] => true
  | x :: a, y :: b => (x =? y) && string_eqb a b
  | _, _ => false
  end.

(** [operator<] on [std::string]: lexicographic on unsigned bytes. *)
Fixpoint string_ltb (a b : bytes) : bool :=
  match a, b with
  | _, [] => false
  | [], _ :: _ => true
  | x :: a, y :: b => (x <? y) || ((x =? y) && string_ltb a b)
  end.

Definition string_empty (s : bytes) : bool := match s with [] => true | _ => false end.

(** ** hobject_t *)

Definition POOL_META : Z := -1.
Definition POOL_TEMP_START : Z := -2.

Definition is_temp_pool (pool : Z) : bool := pool <=? POOL_TEMP_START.
Definition get_temp_pool (pool : Z) : Z := POOL_TEMP_START - pool.
Definition is_meta_pool (pool : Z) : bool := pool =? POOL_META.

Record hobject_t := HObject {
  h_oid : bytes;
  h_snap : Z;
  h_hash : Z;
  h_max : bool;
  h_nibblewise_key_cache : Z;
  h_hash_reverse_bits : Z;
  h_pool : Z;
  h_nspace : bytes;
  h_key : bytes;
}.

(** [build_hash_cache] of an object with the other fields given. *)
Definition build_hash_cache (o : hobject_t) : hobject_t :=
  HObject (h_oid o) (h_snap o) (h_hash o) (h_max o) (reverse_nibbles (h_hash o)) (reverse_bits (h_hash o))
    (h_pool o) (h_nspace o) (h_key o).

(** The constructors. *)
Definition hobject_default : hobject_t :=
  build_hash_cache (HObject [] 0 0 false 0 0 INT64_MIN [] []).

Definition hobject_get_max : hobject_t :=
  let o := hobject_default in
  HObject (h_oid o) (h_snap o) (h_hash o) true (h_nibblewise_key_cache o) (h_hash_reverse_bits o)
    (h_pool o) (h_nspace o) (h_key o).

Definition mk_hobject (oid key : bytes) (snap hash pool : Z) (nspace : bytes) : hobject_t :=
  build_hash_cache (HObject oid snap hash false 0 0 pool nspace (if string_eqb oid key then [] else key)).

Definition set_key (o : hobject_t) (key : bytes) : hobject_t :=
  HObject (h_oid o) (h_snap o) (h_hash o) (h_max o) (h_nibblewise_key_cache o) (h_hash_reverse_bits o)
    (h_pool o) (h_nspace o) (if string_eqb key (h_oid o) then [] else key).

Definition set_hash (o : hobject_t) (value : Z) : hobject_t :=
  build_hash_cache (HObject (h_oid o) (h_snap o) value (h_max o) (h_nibblewise_key_cache o) (h_hash_reverse_bits o)
    (h_pool o) (h_nspace o) (h_key o)).

Definition set_bitwise_key_u32 (o : hobject_t) (value : Z) : hobject_t :=
  HObject (h_oid o) (h_snap o) (reverse_bits value) (h_max o) (reverse_nibbles (reverse_bits value)) value
    (h_pool o) (h_nspace o) (h_key o).

Definition set_pool (o : hobject_t) (pool : Z) : hobject_t :=
  HObject (h_oid o) (h_snap o) (h_hash o) (h_max o) (h_nibblewise_key_cache o) (h_hash_reverse_bits o)
    pool (h_nspace o) (h_key o).

Definition set_snap (o : hobject_t) (snap : Z) : hobject_t :=
  HObject (h_oid o) snap (h_hash o) (h_max o) (h_nibblewise_key_cache o) (h_hash_reverse_bits o)
    (h_pool o) (h_nspace o) (h_key o).

(** [~((~0)<<bits)]; a shift by 32 or more is undefined. *)
Definition match_mask (bits : Z) : res Z :=
  if 32 <=? bits then Fault else Ret (u32 (Z.lnot (Z.shiftl (-1) bits))).

Definition match_hash (to_check bits mtch : Z) : res bool :=
  mask <~ match_mask bits;;
  Ret (Z.land mtch mask =? Z.land to_check mask).

Definition hobject_match (o : hobject_t) (bits mtch : Z) : res bool := match_hash (h_hash o) bits mtch.

Definition is_temp (o : hobject_t) : bool := is_temp_pool (h_pool o) && negb (h_pool o =? INT64_MIN).
Definition is_meta (o : hobject_t) : bool := is_meta_pool (h_pool o).

Definition get_logical_pool (o : hobject_t) : Z :=
  if is_temp_pool (h_pool o) then get_temp_pool (h_pool o) else h_pool o.

(** [operator==]: the seven fields of [WRITE_EQ_OPERATORS_7]. *)
Definition hobject_eqb (l r : hobject_t) : bool :=
  (h_hash l =? h_hash r) && string_eqb (h_oid l) (h_oid r) && string_eqb (h_key l) (h_key r)
  && (h_snap l =? h_snap r) && (h_pool l =? h_pool r) && Bool.eqb (h_max l) (h_max r)
  && string_eqb (h_nspace l) (h_nspace r).

Definition is_max (o : hobject_t) : res bool :=
  _ <~ rassert (negb (h_max o) || hobject_eqb o hobject_get_max);;
  Ret (h_max o).

Definition is_min (o : hobject_t) : bool :=
  (h_snap o =? 0) && (h_hash o =? 0) && negb (h_max o) && (h_pool o =? INT64_MIN).

Definition get_boundary (o : hobject_t) : res hobject_t :=
  mx <~ is_max o;;
  Ret (if (mx : bool) then o else set_pool (set_hash hobject_default (h_hash o)) (h_pool o)).

Definition get_object_boundary (o : hobject_t) : res hobject_t :=
  mx <~ is_max o;;
  Ret (if (mx : bool) then o else set_snap o 0).

Definition get_head (o : hobject_t) : hobject_t := set_snap o CEPH_NOSNAP.
Definition get_snapdir (o : hobject_t) : hobject_t := set_snap o CEPH_SNAPDIR.
Definition is_snapdir (o : hobject_t) : bool := h_snap o =? CEPH_SNAPDIR.
Definition is_head (o : hobject_t) : bool := h_snap o =? CEPH_NOSNAP.

Definition is_snap (o : hobject_t) : res bool :=
  mx <~ is_max o;;
  Ret (negb mx && negb (is_head o) && negb (is_snapdir o)).

Definition has_snapset (o : hobject_t) : bool := is_head o || is_snapdir o.

Definition get_nibblewise_key_u32 (o : hobject_t) : res Z :=
  _ <~ rassert (negb (h_max o));; Ret (h_nibblewise_key_cache o).

Definition get_nibblewise_key (o : hobject_t) : Z := if h_max o then 0x100000000 else h_nibblewise_key_cache o.

Definition get_bitwise_key_u32 (o : hobject_t) : res Z :=
  _ <~ rassert (negb (h_max o));; Ret (h_hash_reverse_bits o).

Definition get_bitwise_key (o : hobject_t) : Z := if h_max o then 0x100000000 else h_hash_reverse_bits o.

Definition get_effective_key (o : hobject_t) : bytes := if string_empty (h_key o) then h_oid o else h_key o.

Definition make_temp_hobject (o : hobject_t) (name : bytes) : hobject_t :=
  mk_hobject name [] CEPH_NOSNAP (h_hash o) (get_temp_pool (h_pool o)) [].

(** [if (a < b) return -1; if (a > b) return 1; ...] *)
Definition cmp_step (lt gt : bool) (rest : Z) : Z := if lt then -1 else if gt then 1 else rest.

Definition cmp (l r : hobject_t) : Z :=
  cmp_step (negb (h_max l) && h_max r) (h_max l && negb (h_max r)) (
  cmp_step (h_pool l <? h_pool r) (h_pool r <? h_pool l) (
  cmp_step (get_bitwise_key l <? get_bitwise_key r) (get_bitwise_key r <? get_bitwise_key l) (
  cmp_step (string_ltb (h_nspace l) (h_nspace r)) (string_ltb (h_nspace r) (h_nspace l)) (
  let rest :=
    cmp_step (string_ltb (h_oid l) (h_oid r)) (string_ltb (h_oid r) (h_oid l)) (
    cmp_step (h_snap l <? h_snap r) (h_snap r <? h_snap l) 0) in
  if negb (string_empty (h_key l) && string_empty (h_key r)) then
    cmp_step (string_ltb (get_effective_key l) (get_effective_key r))
             (string_ltb (get_effective_key r) (get_effective_key l)) rest
  else rest)))).

Definition hobject_ltb (l r : hobject_t) : bool := cmp l r <? 0.
Definition hobject_leb (l r : hobject_t) : bool := cmp l r <=? 0.

(** ** ghobject_t *)

Definition NO_GEN : Z := u64 (-1).
Definition NO_SHARD : Z := -1.

Record ghobject_t := GHObject {
  g_hobj : hobject_t;
  g_generation : Z;
  g_shard_id : Z;
  g_max : bool;
}.

Definition ghobject_default : ghobject_t := GHObject hobject_default NO_GEN NO_SHARD false.

Definition mk_ghobject (obj : hobject_t) (gen shard : Z) : ghobject_t := GHObject obj gen shard false.

Definition make_pgmeta (pool hash shard : Z) : ghobject_t :=
  mk_ghobject (mk_hobject [] [] CEPH_NOSNAP hash pool []) NO_GEN shard.

Definition is_pgmeta (g : ghobject_t) : bool := (0 <=? h_pool (g_hobj g)) && string_empty (h_oid (g_hobj g)).

Definition ghobject_get_max : ghobject_t :=
  GHObject hobject_get_max (g_generation ghobject_default) (g_shard_id ghobject_default) true.

Definition g_get_boundary (g : ghobject_t) : res ghobject_t :=
  mx <~ is_max (g_hobj g);;
  Ret (if (mx : bool) then g
       else GHObject (set_pool (set_hash hobject_default (h_hash (g_hobj g))) (h_pool (g_hobj g)))
              NO_GEN (g_shard_id g) false).

Definition is_degenerate (g : ghobject_t) : bool := (g_generation g =? NO_GEN) && (g_shard_id g =? NO_SHARD).

Definition ghobject_eqb (l r : ghobject_t) : bool :=
  Bool.eqb (g_max l) (g_max r) && (g_shard_id l =? g_shard_id r) && hobject_eqb (g_hobj l) (g_hobj r)
  && (g_generation l =? g_generation r).

Definition gcmp (l r : ghobject_t) : Z :=
  cmp_step (negb (g_max l) && g_max r) (g_max l && negb (g_max r)) (
  cmp_step (g_shard_id l <? g_shard_id r) (g_shard_id r <? g_shard_id l) (
  let ret := cmp (g_hobj l) (g_hobj r) in
  if negb (ret =? 0) then ret else
  cmp_step (g_generation l <? g_generation r) (g_generation r <? g_generation l) 0)).

(** ** Encoding *)

(** The fields an encoded [hobject_t] and an encoded [ghobject_t] share. *)
Definition hobject_fields (o : hobject_t) : bytes :=
  encode_string (h_key o) ++ encode_string (h_oid o) ++ encode_u64 (h_snap o) ++ encode_u32 (h_hash o)
  ++ encode_bool (h_max o) ++ encode_string (h_nspace o) ++ encode_s64 (h_pool o).

Definition hobject_bytes (o : hobject_t) : bytes := encode_struct 4 3 (hobject_fields o).

(** [encode], with its assertion. *)
Definition hobject_encode (o : hobject_t) : res bytes :=
  _ <~ rassert (negb (h_max o) || hobject_eqb o hobject_get_max);;
  Ret (hobject_bytes o).

(** The fields, decoded into [o0]: a field an old version does not have keeps
    the value it had. *)
Definition decode_fields (o0 : hobject_t) (struct_v : Z) : decoder hobject_t :=
  key <-d (if 1 <=? struct_v then decode_string else dret (h_key o0));;
  oid <-d decode_string;;
  snap <-d decode_u64;;
  hash <-d decode_u32;;
  mx <-d (if 2 <=? struct_v then decode_bool else dret false);;
  if 4 <=? struct_v then
    nspace <-d decode_string;;
    pool <-d decode_s64;;
    let old_min := (pool =? -1) && (snap =? 0) && (hash =? 0) && negb mx && string_empty oid in
    let o := HObject oid snap hash mx (h_nibblewise_key_cache o0) (h_hash_reverse_bits o0)
               (if old_min then INT64_MIN else pool) nspace key in
    _ <-d dassert (negb old_min || is_min o);;
    dret o
  else dret (HObject oid snap hash mx (h_nibblewise_key_cache o0) (h_hash_reverse_bits o0)
               (h_pool o0) (h_nspace o0) key).

Definition hobject_decode (o0 : hobject_t) : decoder hobject_t :=
  o <-d decode_struct_legacy 4 3 3 (fun struct_v =>
    o <-d decode_fields o0 struct_v;;
    dret (if (4 <=? struct_v) && h_max o then hobject_get_max else o));;
  dret (build_hash_cache o).

Definition ghobject_bytes (g : ghobject_t) : bytes :=
  encode_struct 6 3 (hobject_fields (g_hobj g) ++ encode_u64 (g_generation g) ++ encode_s8 (g_shard_id g)
                     ++ encode_bool (g_max g)).

(** Header and three string lengths, the fixed fields, the strings. *)
Definition encoded_size (g : ghobject_t) : Z :=
  (4 + 2 * 1 + 3 * 4) + 8 + 4 + 1 + 8 + 8 + 1 + 1
  + zlen (h_key (g_hobj g)) + zlen (h_oid (g_hobj g)) + zlen (h_nspace (g_hobj g)).

Definition ghobject_decode (g0 : ghobject_t) : decoder ghobject_t :=
  g <-d decode_struct_legacy 6 3 3 (fun struct_v =>
    o <-d decode_fields (g_hobj g0) struct_v;;
    generation <-d (if 5 <=? struct_v then decode_u64 else dret NO_GEN);;
    shard_id <-d (if 5 <=? struct_v then decode_s8 else dret NO_SHARD);;
    mx <-d (if 6 <=? struct_v then decode_bool else dret false);;
    dret (GHObject o generation shard_id mx));;
  dret (GHObject (build_hash_cache (g_hobj g)) (g_generation g) (g_shard_id g) (g_max g)).
