(* ===== verification/HobjectOrder.v ===== *)
(** * The order of objects

    [cmp] compares, in turn, the maximum flag, the pool, the reversed hash, the
    namespace, the effective key, the name and the snapshot.  A comparison
    that agrees with equality and is antisymmetric and transitive is a
    [TotalCompare]; comparing pairs in turn keeps that, and [cmp] is such a
    comparison of keys. *)

From S2P Require Import Prelude Bits Encoding Hobject.

(** ** Comparisons *)

Class TotalCompare {A} (c : A -> A -> comparison) : Prop := {
  tc_eq a b : c a b = Eq <-> a = b;
  tc_opp a b : c b a = CompOpp (c a b);
  tc_trans a b d : c a b = Lt -> c b d = Lt -> c a d = Lt;
}.

Definition bool_compare (a b : bool) : comparison :=
  match a, b with false, true => Lt | true, false => Gt | _, _ => Eq end.

Fixpoint string_compare (a b : bytes) : comparison :=
  match a, b with
  | [], [] => Eq
  | [], _ :: _ => Lt
  | _ :: _, [] => Gt
  | x :: a, y :: b => match Z.compare x y with Eq => string_compare a b | c => c end
  end.

Definition pair_compare {A B} (c : A -> A -> comparison) (d : B -> B -> comparison) (p q : A * B) : comparison :=
  match c p.1 q.1 with Eq => d p.2 q.2 | r => r end.

#[export] Instance Z_total : TotalCompare Z.compare.
Proof.
  split; intros a b; [apply Z.compare_eq_iff|apply Z.compare_antisym|intros d; apply Z.lt_trans].
Qed.

#[export] Instance bool_total : TotalCompare bool_compare.
Proof. split; intros [] []; try done. all: by intros []. Qed.

Lemma tc_refl {A} (c : A -> A -> comparison) `{TotalCompare A c} a : c a a = Eq.
Proof. by apply tc_eq. Qed.

#[export] Instance string_total : TotalCompare string_compare.
Proof.
  split; intros a; induction a as [|x a IH]; intros [|y b]; cbn; try done.
  - destruct (Z.compare_spec x y) as [->|Hlt|Hlt]; [rewrite IH; naive_solver|split; [done|intros [= -> _]; lia]..].
  - rewrite (Z.compare_antisym x y). destruct (x ?= y); cbn; [apply IH|done..].
  - by intros [|].
  - intros [|z d]; cbn; [done|]. destruct (Z.compare_spec x y) as [->|Hxy|Hxy], (Z.compare_spec y z) as [->|Hyz|Hyz]; try done.
    + apply IH.
    + intros _ _. by rewrite (proj2 (Z.compare_lt_iff _ _) Hxy).
    + intros _ _. by rewrite (proj2 (Z.compare_lt_iff x z) ltac:(lia)).
Qed.

#[export] Instance pair_total {A B} (c : A -> A -> comparison) (d : B -> B -> comparison) :
  TotalCompare c -> TotalCompare d -> TotalCompare (pair_compare c d).
Proof.
  intros Hc Hd. split; intros [a1 a2] [b1 b2]; unfold pair_compare; cbn.
  - destruct (c a1 b1) eqn:E; [apply tc_eq in E as ->; rewrite tc_eq; naive_solver|..];
      (split; [done|intros [= -> ->]; by rewrite tc_refl in E]).
  - rewrite (tc_opp a1 b1). destruct (c a1 b1); cbn; [apply tc_opp|done..].
  - intros [d1 d2]. cbn. destruct (c a1 b1) eqn:E1; [apply tc_eq in E1 as ->|..]; try done.
    + destruct (c b1 d1); [by apply tc_trans|done..].
    + intros _. destruct (c b1 d1) eqn:E2; try done.
      * apply tc_eq in E2 as ->. by rewrite E1.
      * by rewrite (tc_trans (c := c) a1 b1 d1).
Qed.

(** The integer a comparison function returns. *)
Definition sign_of (c : comparison) : Z := match c with Lt => -1 | Eq => 0 | Gt => 1 end.

Lemma cmp_step_sign {A} (c : A -> A -> comparison) `{TotalCompare A c} (lt : A -> A -> bool) a b rest :
  (forall a b, lt a b = true <-> c a b = Lt) ->
  cmp_step (lt a b) (lt b a) rest = match c a b with Lt => -1 | Gt => 1 | Eq => rest end.
Proof.
  intros Hlt. unfold cmp_step. pose proof (Hlt a b) as Hab. pose proof (Hlt b a) as Hba.
  rewrite (tc_opp a b) in Hba. destruct (lt a b), (lt b a), (c a b); cbn in *; naive_solver.
Qed.

Lemma Z_ltb_compare a b : (a <? b) = true <-> (a ?= b) = Lt.
Proof. apply Z.ltb_lt. Qed.

Lemma string_ltb_compare a b : string_ltb a b = true <-> string_compare a b = Lt.
Proof.
  revert b. induction a as [|x a IH]; intros [|y b]; cbn; try done.
  destruct (Z.compare_spec x y) as [->|H|H]; [rewrite Z.ltb_irrefl, Z.eqb_refl; apply IH|..].
  - by rewrite (proj2 (Z.ltb_lt x y) H).
  - rewrite (proj2 (Z.ltb_ge x y)), (proj2 (Z.eqb_neq x y)) by lia. done.
Qed.

Lemma string_eqb_eq a b : string_eqb a b = true <-> a = b.
Proof.
  revert b. induction a as [|x a IH]; intros [|y b]; cbn; try done.
  rewrite andb_true_iff, Z.eqb_eq, IH. naive_solver.
Qed.

(** ** The key of an object *)

Definition hkey (o : hobject_t) : bool * (Z * (Z * (bytes * (bytes * (bytes * Z))))) :=
  (h_max o, (h_pool o, (get_bitwise_key o, (h_nspace o, (get_effective_key o, (h_oid o, h_snap o)))))).

Definition hkey_compare := pair_compare bool_compare (pair_compare Z.compare (pair_compare Z.compare
  (pair_compare string_compare (pair_compare string_compare (pair_compare string_compare Z.compare))))).

#[export] Instance hkey_total : TotalCompare hkey_compare.
Proof. apply _. Qed.

(** [cmp] is the comparison of the keys; without keys of their own, comparing
    effective keys first changes nothing. *)
Lemma cmp_hkey l r : cmp l r = sign_of (hkey_compare (hkey l) (hkey r)).
Proof.
  unfold cmp, hkey_compare, hkey, pair_compare; cbn [fst snd].
  replace (h_max l && negb (h_max r)) with (negb (h_max r) && h_max l) by apply andb_comm.
  rewrite (cmp_step_sign bool_compare (fun a b => negb a && b) _ _) by (by intros [] []).
  destruct (bool_compare (h_max l) (h_max r)); [|done..].
  rewrite (cmp_step_sign Z.compare Z.ltb) by apply Z_ltb_compare. destruct (h_pool l ?= h_pool r); [|done..].
  rewrite (cmp_step_sign Z.compare Z.ltb) by apply Z_ltb_compare. destruct (get_bitwise_key l ?= get_bitwise_key r); [|done..].
  rewrite (cmp_step_sign string_compare string_ltb) by apply string_ltb_compare.
  destruct (string_compare (h_nspace l) (h_nspace r)); [|done..].
  rewrite !(cmp_step_sign string_compare string_ltb) by apply string_ltb_compare.
  rewrite (cmp_step_sign Z.compare Z.ltb) by apply Z_ltb_compare. unfold get_effective_key.
  destruct (string_empty (h_key l)), (string_empty (h_key r)); cbn [andb negb].
  all: try (destruct (string_compare (h_oid l) (h_oid r)); [by destruct (h_snap l ?= h_snap r)|done..]).
  all: destruct (string_compare _ _); [|done..].
  all: destruct (string_compare (h_oid l) (h_oid r)); [by destruct (h_snap l ?= h_snap r)|done..].
Qed.

(** ** Well-formed objects *)

(** The caches hold the reversals of the hash, a key equal to the name is
    stored as the empty key, and there is one maximum. *)
Record wf_hobject (o : hobject_t) : Prop := WfHobject {
  wfh_hash : is_u 32 (h_hash o);
  wfh_nibbles : h_nibblewise_key_cache o = reverse_nibbles (h_hash o);
  wfh_bits : h_hash_reverse_bits o = reverse_bits (h_hash o);
  wfh_key : h_key o = [] \/ h_key o <> h_oid o;
  wfh_max : h_max o = true -> o = hobject_get_max;
}.

Lemma hkey_inj l r : wf_hobject l -> wf_hobject r -> hkey l = hkey r -> l = r.
Proof.
  intros Hl Hr E. destruct (h_max l) eqn:El.
  { rewrite (wfh_max _ Hl El). assert (h_max r = true) as Er by (unfold hkey in E; congruence). by rewrite (wfh_max _ Hr Er). }
  assert (h_max r = false) as Er by (unfold hkey in E; congruence).
  unfold hkey, get_bitwise_key, get_effective_key in E. rewrite El, Er in E. injection E as Ep Eb En Ek Eo Es.
  destruct Hl as [Hh Hn Hb Hk _], Hr as [Hh' Hn' Hb' Hk' _]. rewrite Hb, Hb' in Eb. apply reverse_bits_inj in Eb; [|done..].
  destruct l as [o s h mx nc rb p ns k], r as [o' s' h' mx' nc' rb' p' ns' k']; cbn in *. subst. f_equal.
  destruct k, k'; cbn in *; naive_solver.
Qed.

Lemma hobject_eqb_eq l r : wf_hobject l -> wf_hobject r -> hobject_eqb l r = true <-> l = r.
Proof.
  intros Hl Hr. unfold hobject_eqb. rewrite !andb_true_iff, !string_eqb_eq, !Z.eqb_eq, eqb_true_iff. split; [|by intros ->].
  intros [[[[[[Eh Eo] Ek] Es] Ep] Em] En]. apply hkey_inj; [done..|].
  unfold hkey, get_bitwise_key, get_effective_key. rewrite (wfh_bits _ Hl), (wfh_bits _ Hr). by rewrite Eh, Eo, Ek, Es, Ep, Em, En.
Qed.

(** ** Operations keep objects well-formed *)

Lemma mk_hobject_wf oid key snap hash pool nspace : is_u 32 hash -> wf_hobject (mk_hobject oid key snap hash pool nspace).
Proof.
  intros Hh. split; cbn; try done. destruct (string_eqb oid key) eqn:E; [by left|]. right. intros ->.
  by rewrite (proj2 (string_eqb_eq oid oid)) in E.
Qed.

Lemma default_wf : wf_hobject hobject_default.
Proof. split; try done. by left. Qed.

Lemma max_wf : wf_hobject hobject_get_max.
Proof. split; try done. by left. Qed.

Lemma set_key_wf o key : wf_hobject o -> h_max o = false -> wf_hobject (set_key o key).
Proof.
  intros [] Hm. split; cbn; try done; [|congruence]. destruct (string_eqb key (h_oid o)) eqn:E; [by left|]. right. intros ->.
  by rewrite (proj2 (string_eqb_eq _ _)) in E.
Qed.

Lemma set_hash_wf o v : is_u 32 v -> wf_hobject o -> h_max o = false -> wf_hobject (set_hash o v).
Proof. intros Hv [] Hm. split; cbn; try done. congruence. Qed.

Lemma set_bitwise_key_wf o v : is_u 32 v -> wf_hobject o -> h_max o = false -> wf_hobject (set_bitwise_key_u32 o v).
Proof.
  intros Hv [] Hm. split; cbn; try done; [by apply reverse_bits_word|by rewrite reverse_bits_involutive|congruence].
Qed.

Lemma set_pool_wf o p : wf_hobject o -> h_max o = false -> wf_hobject (set_pool o p).
Proof. intros [] Hm. split; cbn; try done. congruence. Qed.

Lemma set_snap_wf o s : wf_hobject o -> h_max o = false -> wf_hobject (set_snap o s).
Proof. intros [] Hm. split; cbn; try done. congruence. Qed.

#[export] Hint Resolve mk_hobject_wf default_wf max_wf set_key_wf set_hash_wf set_bitwise_key_wf set_pool_wf set_snap_wf : ceph.

(** The smallest object of a hash: no object of the same pool and hash is below. *)
Lemma is_max_wf o : wf_hobject o -> is_max o = Ret (h_max o).
Proof.
  intros Hw. unfold is_max. destruct (h_max o) eqn:E; [|done]. rewrite (wfh_max _ Hw E). done.
Qed.

Lemma get_boundary_least o o' :
  wf_hobject o -> wf_hobject o' -> h_max o = false -> h_max o' = false ->
  h_hash o' = h_hash o -> h_pool o' = h_pool o -> 0 <= h_snap o' ->
  exists b, get_boundary o = Ret b /\ wf_hobject b /\ h_hash b = h_hash o /\ h_pool b = h_pool o /\ hobject_leb b o' = true.
Proof.
  intros Ho Ho' Hm Hm' Hh Hp Hs. unfold get_boundary. rewrite is_max_wf, Hm by done. cbn [rbind]. eexists. split; [done|].
  split; [apply set_pool_wf; [apply set_hash_wf; [apply Ho|apply default_wf|done]|done]|]. split; [done|]. split; [done|].
  unfold hobject_leb. rewrite cmp_hkey. unfold hkey_compare, hkey, pair_compare, get_bitwise_key; cbn [fst snd].
  rewrite (wfh_bits _ Ho'). cbn -[reverse_bits]. rewrite Hm', Hp, Hh, !Z.compare_refl. cbn.
  destruct (h_nspace o'); [|done]. cbn. destruct (get_effective_key o'); [|done]. cbn.
  destruct (h_oid o'); [|done]. cbn. destruct (h_snap o'); [done|done|lia].
Qed.

(** ** ghobject_t *)

Definition gkey (g : ghobject_t) := (g_max g, (g_shard_id g, (hkey (g_hobj g), g_generation g))).

Definition gkey_compare := pair_compare bool_compare (pair_compare Z.compare (pair_compare hkey_compare Z.compare)).

#[export] Instance gkey_total : TotalCompare gkey_compare.
Proof. apply _. Qed.

Lemma gcmp_gkey l r : gcmp l r = sign_of (gkey_compare (gkey l) (gkey r)).
Proof.
  unfold gcmp, gkey_compare, gkey, pair_compare at 1 2 3; cbn [fst snd].
  replace (g_max l && negb (g_max r)) with (negb (g_max r) && g_max l) by apply andb_comm.
  rewrite (cmp_step_sign bool_compare (fun a b => negb a && b) _ _) by (by intros [] []).
  destruct (bool_compare (g_max l) (g_max r)); [|done..].
  rewrite (cmp_step_sign Z.compare Z.ltb) by apply Z_ltb_compare. destruct (g_shard_id l ?= g_shard_id r); [|done..].
  rewrite cmp_hkey. destruct (hkey_compare (hkey (g_hobj l)) (hkey (g_hobj r))); [|done..]. cbn [sign_of Z.eqb negb].
  rewrite (cmp_step_sign Z.compare Z.ltb) by apply Z_ltb_compare. by destruct (g_generation l ?= g_generation r).
Qed.

(** ** What a comparison function promises *)

(** Antisymmetric, transitive, and zero on equal values of [ok] only. *)
Record orders {A} (f : A -> A -> Z) (ok : A -> Prop) : Prop := Orders {
  ord_anti a b : f b a = - f a b;
  ord_trans a b c : f a b <= 0 -> f b c <= 0 -> f a c <= 0;
  ord_eq a b : ok a -> ok b -> f a b = 0 <-> a = b;
}.

Lemma keyed_orders {A K} (f : A -> A -> Z) (ok : A -> Prop) (key : A -> K) (c : K -> K -> comparison) `{TotalCompare K c} :
  (forall a b, f a b = sign_of (c (key a) (key b))) ->
  (forall a b, ok a -> ok b -> key a = key b -> a = b) -> orders f ok.
Proof.
  intros Hf Hinj. split.
  - intros a b. rewrite !Hf, (tc_opp (key a) (key b)). by destruct (c (key a) (key b)).
  - intros a b d. rewrite !Hf. destruct (c (key a) (key b)) eqn:E1; [apply tc_eq in E1 as ->; done| |done].
    destruct (c (key b) (key d)) eqn:E2; [apply tc_eq in E2 as <-; by rewrite E1|by rewrite (tc_trans (key a) (key b))|done].
  - intros a b Ha Hb. rewrite Hf. split; [|intros ->; by rewrite tc_refl].
    destruct (c (key a) (key b)) eqn:E; [|done..]. intros _. apply tc_eq in E. by apply Hinj.
Qed.

Definition wf_ghobject (g : ghobject_t) : Prop := wf_hobject (g_hobj g).

Lemma cmp_orders : orders cmp wf_hobject.
Proof. apply (keyed_orders cmp wf_hobject hkey hkey_compare); [apply cmp_hkey|apply hkey_inj]. Qed.

Lemma gcmp_orders : orders gcmp wf_ghobject.
Proof.
  apply (keyed_orders gcmp wf_ghobject gkey gkey_compare); [apply gcmp_gkey|].
  intros [o g s m] [o' g' s' m'] Hw Hw' E. unfold gkey in E. cbn in E. assert (hkey o = hkey o' /\ m = m' /\ s = s' /\ g = g') as (Ek & -> & -> & ->) by (repeat split; congruence).
  f_equal. by apply hkey_inj.
Qed.
