(* ===== verification/HobjectCodec.v ===== *)
(** * The encoding of objects

    What [hobject_decode] and [ghobject_decode] read back, and the size of an
    encoded [ghobject_t]. *)

From S2P Require Import Prelude Bits Encoding Hobject HobjectOrder.

(** The fields fit their types. *)
Record fields_ok (o : hobject_t) : Prop := FieldsOk {
  fo_key : zlen (h_key o) < 2 ^ 32;
  fo_oid : zlen (h_oid o) < 2 ^ 32;
  fo_snap : is_u 64 (h_snap o);
  fo_hash : is_u 32 (h_hash o);
  fo_nspace : zlen (h_nspace o) < 2 ^ 32;
  fo_pool : is_s 64 (h_pool o);
}.

(** The minimum as an old version wrote it; it is read as the minimum of today. *)
Definition old_min (o : hobject_t) : bool :=
  (h_pool o =? -1) && (h_snap o =? 0) && (h_hash o =? 0) && negb (h_max o) && string_empty (h_oid o).

Definition with_cache (o0 o : hobject_t) : hobject_t :=
  HObject (h_oid o) (h_snap o) (h_hash o) (h_max o) (h_nibblewise_key_cache o0) (h_hash_reverse_bits o0)
    (h_pool o) (h_nspace o) (h_key o).

Lemma decode_fields_reads o0 v o :
  4 <= v -> fields_ok o -> old_min o = false -> reads (decode_fields o0 v) (hobject_fields o) (with_cache o0 o).
Proof.
  intros Hv [] Hm. unfold decode_fields, hobject_fields.
  rewrite (proj2 (Z.leb_le 1 v)), (proj2 (Z.leb_le 2 v)), (proj2 (Z.leb_le 4 v)) by lia.
  apply (reads_bind encode_string decode_string (fun s => zlen s < 2 ^ 32)); [done|].
  apply (reads_bind encode_string decode_string (fun s => zlen s < 2 ^ 32)); [done|].
  apply (reads_bind encode_u64 decode_u64 (is_u 64)); [done|].
  apply (reads_bind encode_u32 decode_u32 (is_u 32)); [done|].
  apply (reads_bind encode_bool decode_bool (fun _ => True)); [done|].
  apply (reads_bind encode_string decode_string (fun s => zlen s < 2 ^ 32)); [done|].
  apply (reads_last encode_s64 decode_s64 (is_s 64)); [done|]. intros bl off.
  unfold old_min in Hm. by rewrite Hm.
Qed.

Lemma build_with_cache o0 o : wf_hobject o -> build_hash_cache (with_cache o0 o) = o.
Proof. intros [_ Hn Hb _ _]. unfold build_hash_cache, with_cache; cbn. rewrite <- Hn, <- Hb. by destruct o. Qed.

(** What [hobject_decode] reads back. *)
Record hobject_codable (o : hobject_t) : Prop := HobjectCodable {
  hc_fields : fields_ok o;
  hc_wf : wf_hobject o;
  hc_min : old_min o = false;
}.

(** Also from a later version, [v'], with fields added behind the known ones. *)
Lemma hobject_reads o0 v' compat' more o :
  hobject_codable o -> 4 <= v' -> is_u 8 v' -> 0 <= compat' <= 4 ->
  reads (hobject_decode o0) (encode_struct v' compat' (hobject_fields o ++ more)) o.
Proof.
  intros [Hf Hw Hm] Hv Hv' Hc. unfold hobject_decode.
  assert (build_hash_cache (if (4 <=? v') && h_max (with_cache o0 o) then hobject_get_max else with_cache o0 o) = o) as E.
  { rewrite (proj2 (Z.leb_le 4 v')) by lia. cbn [andb]. destruct (h_max (with_cache o0 o)) eqn:Emax; [|by apply build_with_cache].
    by rewrite (wfh_max _ Hw Emax). }
  rewrite <- E at 2. apply (reads_map _ build_hash_cache), struct_legacy_reads; [|unfold is_u in *; lia..].
  apply (reads_map _ (fun x => if (4 <=? v') && h_max x then hobject_get_max else x)). by apply decode_fields_reads.
Qed.

#[export] Instance hobject_round_trip o0 : RoundTrip hobject_bytes (hobject_decode o0) hobject_codable.
Proof.
  apply reads_round_trip. intros o Ho. unfold hobject_bytes. rewrite <- (app_nil_r (hobject_fields o)).
  apply hobject_reads; [done|lia|unfold is_u; lia|lia].
Qed.

Record ghobject_codable (g : ghobject_t) : Prop := GhobjectCodable {
  gc_fields : fields_ok (g_hobj g);
  gc_wf : wf_hobject (g_hobj g);
  gc_min : old_min (g_hobj g) = false;
  gc_generation : is_u 64 (g_generation g);
  gc_shard : is_s 8 (g_shard_id g);
}.

#[export] Instance ghobject_round_trip g0 : RoundTrip ghobject_bytes (ghobject_decode g0) ghobject_codable.
Proof.
  apply reads_round_trip. intros [o gen sh mx] [Hf Hw Hm Hg Hs]; cbn [g_hobj g_generation g_shard_id g_max] in *. unfold ghobject_bytes, ghobject_decode; cbn [g_hobj g_generation g_shard_id g_max].
  set (f := fun g => GHObject (build_hash_cache (g_hobj g)) (g_generation g) (g_shard_id g) (g_max g)).
  assert (f (GHObject (with_cache (g_hobj g0) o) gen sh mx) = GHObject o gen sh mx) as Er
    by (unfold f; cbn [g_hobj g_generation g_shard_id g_max]; by rewrite build_with_cache).
  rewrite <- Er. apply (reads_map _ f).
  match goal with |- reads _ (encode_struct _ _ ?b) _ => rewrite <- (app_nil_r b) end.
  apply struct_legacy_reads; [|unfold is_u; lia..].
  eapply reads_seq; [apply decode_fields_reads; (done || lia)|]. cbn [Z.leb Z.compare Pos.compare Pos.compare_cont].
  apply (reads_bind encode_u64 decode_u64 (is_u 64)); [done|]. apply (reads_bind encode_s8 decode_s8 (is_s 8)); [done|].
  by apply (reads_last encode_bool decode_bool (fun _ => True)).
Qed.

Lemma encode_string_length s : zlen s < 2 ^ 32 -> zlen (encode_string s) = 4 + zlen s.
Proof.
  intros Hs. unfold encode_string. rewrite (uw_small 32 (zlen s)), length_app by (split; lia). unfold encode_u32. rewrite le_length.
  destruct (Z.eqb_spec (zlen s) 0) as [E|]; [cbn; lia|]. rewrite Nat2Z.id, firstn_all. lia.
Qed.

(** [encoded_size] is the size of the encoding. *)
Lemma encoded_size_spec g : fields_ok (g_hobj g) -> zlen (ghobject_bytes g) = encoded_size g.
Proof.
  intros []. unfold ghobject_bytes, encode_struct, hobject_fields, encoded_size, encode_u8, encode_u32, encode_u64, encode_s8, encode_s64.
  rewrite !length_app, !le_length. unfold encode_bool, encode_u8. rewrite !le_length.
  pose proof (encode_string_length (h_key (g_hobj g))). pose proof (encode_string_length (h_oid (g_hobj g))).
  pose proof (encode_string_length (h_nspace (g_hobj g))). lia.
Qed.
