(* ===== verification/IntervalSet.v ===== *)
(** * Sets of intervals (src/src/include/interval_set.h)

    A set of numbers as a map from starts to lengths.  [T] is [uint64_t]; the
    map is the list of its entries in the order of keys, an iterator a way to
    split that list in two, the entries before it and those from it on.  An
    operation whose assertion fails is a [Fault].  The encoding, which is that
    of the map, and the iterator classes are left out. *)

From S2P Require Import Prelude.
Open Scope Z_scope.

(** [p->first + p->second], and differences of offsets. *)
Definition tadd (a b : Z) : Z := u64 (a + b).
Definition tsub (a b : Z) : Z := u64 (a - b).

Record interval_set := IntervalSet {
  is_size : Z;
  is_map : list (Z * Z);
}.

Definition clear : interval_set := IntervalSet 0 [].

(** [std::map::insert], which keeps an entry that is there. *)
Definition minsert (k v : Z) (m : list (Z * Z)) : list (Z * Z) :=
  match mget k m with Some _ => m | None => mput k v m end.

Fixpoint lower_bound (start : Z) (m : list (Z * Z)) : list (Z * Z) * list (Z * Z) :=
  match m with
  | [] => ([], [])
  | p :: m' =>
      if p.1 <? start then let '(l1, l2) := lower_bound start m' in (p :: l1, l2)
      else ([], m)
  end.

(** The last entry before an iterator. *)
Fixpoint unsnoc (l : list (Z * Z)) : option (list (Z * Z) * (Z * Z)) :=
  match l with
  | [] => None
  | p :: l' => match unsnoc l' with Some (l'', q) => Some (p :: l'', q) | None => Some ([], p) end
  end.

Definition find_inc (start : Z) (m : list (Z * Z)) : list (Z * Z) * list (Z * Z) :=
  let '(l1, l2) := lower_bound start m in
  match unsnoc l1 with
  | Some (l1', p) =>
      if match l2 with [] => true | q :: _ => start <? q.1 end then
        if tadd p.1 p.2 <=? start then (l1, l2) else (l1', p :: l2)
      else (l1, l2)
  | None => (l1, l2)
  end.

Definition find_adj (start : Z) (m : list (Z * Z)) : list (Z * Z) * list (Z * Z) :=
  let '(l1, l2) := lower_bound start m in
  match unsnoc l1 with
  | Some (l1', p) =>
      if match l2 with [] => true | q :: _ => start <? q.1 end then
        if tadd p.1 p.2 <? start then (l1, l2) else (l1', p :: l2)
      else (l1, l2)
  | None => (l1, l2)
  end.

(** ** Queries *)

(** [contains(i, pstart, plen)]: the interval that contains [i]. *)
Definition is_contains (i : Z) (s : interval_set) : res (option (Z * Z)) :=
  match (find_inc i (is_map s)).2 with
  | [] => Ret None
  | (f, l) :: _ =>
      if i <? f then Ret None
      else if tadd f l <=? i then Ret None
      else
        _ <~ rassert ((f <=? i) && (i <? tadd f l));;
        Ret (Some (f, l))
  end.

(** [contains(start, len)] *)
Definition contains_range (start len : Z) (s : interval_set) : res bool :=
  match (find_inc start (is_map s)).2 with
  | [] => Ret false
  | (f, l) :: _ =>
      if start <? f then Ret false
      else if tadd f l <=? start then Ret false
      else
        _ <~ rassert ((f <=? start) && (start <? tadd f l));;
        Ret (negb (tadd f l <? tadd start len))
  end.

Definition is_empty (s : interval_set) : bool := match is_map s with [] => true | _ => false end.

Definition range_start (s : interval_set) : res Z :=
  match is_map s with [] => Fault | p :: _ => Ret p.1 end.

Definition range_end (s : interval_set) : res Z :=
  match unsnoc (is_map s) with None => Fault | Some (_, p) => Ret (tadd p.1 p.2) end.

(** [!contains(i)] *)
Definition lacks (i : Z) (s : interval_set) : res bool :=
  c <~ is_contains i s;;
  Ret (match c with Some _ => false | None => true end).

Definition starts_after (i : Z) (s : interval_set) : res bool :=
  b <~ lacks i s;;
  _ <~ rassert b;;
  Ret (match (find_inc i (is_map s)).2 with [] => false | _ => true end).

Definition start_after (i : Z) (s : interval_set) : res Z :=
  b <~ lacks i s;;
  _ <~ rassert b;;
  match (find_inc i (is_map s)).2 with [] => Fault | p :: _ => Ret p.1 end.

Definition end_after (start : Z) (s : interval_set) : res Z :=
  b <~ lacks start s;;
  _ <~ rassert (negb b);;
  match (find_inc start (is_map s)).2 with [] => Fault | p :: _ => Ret (tadd p.1 p.2) end.

(** ** Changes *)

(** [insert(start, len, pstart, plen)] *)
Definition is_insert (start len : Z) (s : interval_set) : res (interval_set * (Z * Z)) :=
  _ <~ rassert (0 <? len);;
  let sz := s64 (is_size s + len) in
  let m := is_map s in
  match find_adj start m with
  | (_, []) => Ret (IntervalSet sz (mput start len m), (start, len))
  | (l1, (f, l) :: l2) =>
      if f <? start then
        if negb (tadd f l =? start) then Fault else
        let l := tadd l len in
        match l2 with
        | (nf, nl) :: l3 =>
            if tadd start len =? nf then Ret (IntervalSet sz (l1 ++ (f, tadd l nl) :: l3), (f, tadd l nl))
            else Ret (IntervalSet sz (l1 ++ (f, l) :: l2), (f, l))
        | [] => Ret (IntervalSet sz (l1 ++ [(f, l)]), (f, l))
        end
      else if tadd start len =? f then
        Ret (IntervalSet sz (mput start (tadd len l) (l1 ++ l2)), (start, tadd len l))
      else
        _ <~ rassert (tadd start len <? f);;
        Ret (IntervalSet sz (mput start len m), (start, len))
  end.

(** [erase(iterator)], the iterator as the position of the entry. *)
Definition erase_at (i : nat) (s : interval_set) : res interval_set :=
  p <~ deref (is_map s !! i);;
  let sz := s64 (is_size s - p.2) in
  _ <~ rassert (0 <=? sz);;
  Ret (IntervalSet sz (delete i (is_map s))).

(** [erase(start, len, claim)]; a [claim] that is not given claims nothing. *)
Definition is_erase (start len : Z) (claim : Z -> Z -> bool) (s : interval_set) : res interval_set :=
  let '(l1, l2) := find_inc start (is_map s) in
  let sz := s64 (is_size s - len) in
  _ <~ rassert (0 <=? sz);;
  match l2 with
  | [] => Fault
  | (f, l) :: l2 =>
      _ <~ rassert (f <=? start);;
      let before := tsub start f in
      _ <~ rassert (tadd before len <=? l);;
      let after := tsub (tsub l before) len in
      let '(sz, m) :=
        if negb (before =? 0) then
          if claim f before then (s64 (sz - before), l1 ++ l2) else (sz, l1 ++ (f, before) :: l2)
        else (sz, l1 ++ l2) in
      if negb (after =? 0) then
        if claim (tadd start len) after then Ret (IntervalSet (s64 (sz - after)) m)
        else Ret (IntervalSet sz (mput (tadd start len) after m))
      else Ret (IntervalSet sz m)
  end.

Definition unclaimed (_ _ : Z) : bool := false.

(** [subtract] and [insert] of a whole set: the entries of [l] in turn. *)
Fixpoint subtract_loop (l : list (Z * Z)) (s : interval_set) : res interval_set :=
  match l with
  | [] => Ret s
  | p :: l => s <~ is_erase p.1 p.2 unclaimed s;; subtract_loop l s
  end.

Definition subtract (a s : interval_set) : res interval_set := subtract_loop (is_map a) s.

Fixpoint insert_loop (l : list (Z * Z)) (s : interval_set) : res interval_set :=
  match l with
  | [] => Ret s
  | p :: l => '(s, _) <~ is_insert p.1 p.2 s;; insert_loop l s
  end.

Definition insert_set (a s : interval_set) : res interval_set := insert_loop (is_map a) s.

(** ** Intersection *)

(** [m.insert] of an interval, counted in [_size]. *)
Definition emit (k v : Z) (s : interval_set) : interval_set := IntervalSet (s64 (is_size s + v)) (minsert k v (is_map s)).

(** [do ... while] the entries are equal: both iterators pass them, of which
    there is at least one. *)
Fixpoint same_run (pa pb : list (Z * Z)) (s : interval_set) : list (Z * Z) * list (Z * Z) * interval_set :=
  match pa, pb with
  | p :: pa', q :: pb' => if bool_decide (p = q) then same_run pa' pb' (emit p.1 p.2 s) else (pa, pb, s)
  | _, _ => (pa, pb, s)
  end.

(** [while (ps != s.m.end() && ps->first + ps->second <= x) ++ps] *)
Fixpoint pass (x : Z) (ps : list (Z * Z)) : list (Z * Z) :=
  match ps with
  | p :: ps' => if tadd p.1 p.2 <=? x then pass x ps' else ps
  | [] => []
  end.

(** The loop of [intersection_size_asym]: [ps] and [offset], and what is in
    the set so far. *)
Fixpoint asym_loop (fuel : nat) (l : list (Z * Z)) (ps : list (Z * Z)) (offset : Z) (s : interval_set) : res interval_set :=
  match fuel with
  | O => NoFuel
  | S fuel =>
      match (find_inc offset l).2 with
      | [] => Ret s
      | ((lf, ll) :: _) as pl =>
          match pass lf ps with
          | [] => Ret s
          | ((sf, sl) :: ps') as ps =>
              let offset := tadd lf ll in
              if offset <=? sf then asym_loop fuel l ps sf s
              else if bool_decide ((sf, sl) = (lf, ll)) then
                let '(ps, _, s) := same_run ps pl s in
                match ps with
                | [] => Ret s
                | p :: _ => asym_loop fuel l ps p.1 s
                end
              else
                let start := Z.max sf lf in
                let en := Z.min (tadd sf sl) offset in
                _ <~ rassert (start <? en);;
                let s := emit start (tsub en start) s in
                if tadd sf sl <=? offset then
                  match ps' with
                  | [] => Ret s
                  | p :: _ => asym_loop fuel l ps' p.1 s
                  end
                else asym_loop fuel l ps offset s
          end
      end
  end.

Definition intersection_size_asym (s l this : interval_set) : res interval_set :=
  match is_map s with
  | [] => Fault
  | p :: _ => asym_loop (S (length (is_map s) + length (is_map l))) (is_map l) (is_map s) p.1 this
  end.

(** The loop of [intersection_of]. *)
Fixpoint sym_loop (fuel : nat) (pa pb : list (Z * Z)) (s : interval_set) : res interval_set :=
  match fuel with
  | O => NoFuel
  | S fuel =>
      match pa, pb with
      | (af, al) :: pa', (bf, bl) :: pb' =>
          if tadd af al <=? bf then sym_loop fuel pa' pb s
          else if tadd bf bl <=? af then sym_loop fuel pa pb' s
          else if bool_decide ((af, al) = (bf, bl)) then
            let '(pa, pb, s) := same_run pa pb s in sym_loop fuel pa pb s
          else
            let start := Z.max af bf in
            let en := Z.min (tadd af al) (tadd bf bl) in
            _ <~ rassert (start <? en);;
            let s := emit start (tsub en start) s in
            if tadd bf bl <? tadd af al then sym_loop fuel pa pb' s else sym_loop fuel pa' pb s
      | _, _ => Ret s
      end
  end.

(** [intersection_of(a, b)], which clears the set first. *)
Definition intersection_of (a b : interval_set) : res interval_set :=
  let '(s, l) := if is_size a <? is_size b then (a, b) else (b, a) in
  if is_size s =? 0 then Ret clear
  else if 10 <=? Z.quot (is_size l) (is_size s) then intersection_size_asym s l clear
  else sym_loop (S (length (is_map a) + length (is_map b))) (is_map a) (is_map b) clear.

Definition intersects (start len : Z) (s : interval_set) : res bool :=
  '(a, _) <~ is_insert start len clear;;
  i <~ intersection_of s a;;
  Ret (negb (is_empty i)).

(** ** Union *)

Definition union_of (a b : interval_set) : res interval_set :=
  ab <~ intersection_of a b;;
  s <~ subtract ab a;;
  insert_set b s.

Definition union_insert (off len : Z) (s : interval_set) : res interval_set :=
  '(a, _) <~ is_insert off len clear;;
  union_of s a.

(** ** Inclusion *)

(** [while (pb->first + pb->second <= pa->first)], [None] at the end. *)
Fixpoint catch (x : Z) (pb : list (Z * Z)) : option (list (Z * Z)) :=
  match pb with
  | [] => None
  | q :: pb' =>
      if tadd q.1 q.2 <=? x then match pb' with [] => None | _ => catch x pb' end
      else Some pb
  end.

Fixpoint equal_run (pa pb : list (Z * Z)) : list (Z * Z) * list (Z * Z) :=
  match pa, pb with
  | p :: pa', q :: pb' => if bool_decide (p = q) then equal_run pa' pb' else (pa, pb)
  | _, _ => (pa, pb)
  end.

Fixpoint subset_loop (fuel : nat) (pa pb : list (Z * Z)) : res bool :=
  match fuel with
  | O => NoFuel
  | S fuel =>
      match pa, pb with
      | (af, al) :: pa', _ :: _ =>
          match catch af pb with
          | None => Ret false
          | Some [] => Fault
          | Some (((bf, bl) :: pb') as pb) =>
              if bool_decide ((af, al) = (bf, bl)) then let '(pa, pb) := equal_run pa pb in subset_loop fuel pa pb
              else if af <? bf then Ret false
              else if tadd bf bl <? tadd af al then Ret false
              else subset_loop fuel pa' pb
          end
      | _, _ => Ret (match pa with [] => true | _ => false end)
      end
  end.

Definition subset_size_sym (a b : interval_set) : res bool :=
  subset_loop (S (length (is_map a) + length (is_map b))) (is_map a) (is_map b).

(** [for (i = m.begin(); ...) if (!big.contains(...)) return false] *)
Fixpoint contains_all_loop (l : list (Z * Z)) (big : interval_set) : res bool :=
  match l with
  | [] => Ret true
  | p :: l =>
      b <~ contains_range p.1 p.2 big;;
      if (b : bool) then contains_all_loop l big else Ret false
  end.

Definition subset_of (s big : interval_set) : res bool :=
  if is_size s =? 0 then Ret true
  else if is_size big <? is_size s then Ret false
  else
    e <~ range_end s;;
    e' <~ range_end big;;
    if e' <? e then Ret false
    else if Z.quot (is_size big) (is_size s) <? 10 then subset_size_sym s big
    else contains_all_loop (is_map s) big.

(** ** Spans *)

Fixpoint span_loop (p : list (Z * Z)) (len : Z) (s : interval_set) : res interval_set :=
  match p with
  | [] => Ret s
  | (f, l) :: p =>
      if 0 <? len then
        if l <? len then
          '(s, _) <~ is_insert f l s;;
          span_loop p (tsub len l) s
        else
          '(s, _) <~ is_insert f len s;;
          Ret s
      else Ret s
  end.

Definition span_of (other : interval_set) (start len : Z) : res interval_set :=
  match (find_inc start (is_map other)).2 with
  | [] => Ret clear
  | (f, l) :: p =>
      if f <? start then
        if tadd f l <? start then Ret clear
        else if tadd f l <? tadd start len then
          let howmuch := tsub l (tsub start f) in
          '(s, _) <~ is_insert start howmuch clear;;
          span_loop p (tsub len howmuch) s
        else
          '(s, _) <~ is_insert start len clear;;
          Ret s
      else span_loop ((f, l) :: p) len clear
  end.
