(* ===== verification/IntervalSpec.v ===== *)
(** * What the operations on intervals do

    [inside x m] says that [x] is in one of the intervals; [spaced lo m] that
    they start at [lo] or later, are not empty, do not touch and end below
    [2 ^ 64].  Two such lists with the same elements are equal
    ([spaced_unique]), so that each operation is described by the set it
    computes: the two ways to find an interval, and what [insert], [erase],
    [contains] and the loops over them do to a set. *)

From S2P Require Import Prelude IntervalSet.
Open Scope Z_scope.

Definition inside (x : Z) (m : list (Z * Z)) : Prop := exists f l, (f, l) ∈ m /\ f <= x < f + l.

Fixpoint spaced (lo : Z) (m : list (Z * Z)) : Prop :=
  match m with
  | [] => True
  | (f, l) :: m => lo <= f /\ 0 < l /\ f + l < 2 ^ 64 /\ spaced (f + l + 1) m
  end.

(** The least start of what may follow. *)
Fixpoint next (lo : Z) (m : list (Z * Z)) : Z :=
  match m with
  | [] => lo
  | (f, l) :: m => next (f + l + 1) m
  end.

Fixpoint total (m : list (Z * Z)) : Z :=
  match m with
  | [] => 0
  | (_, l) :: m => l + total m
  end.

Record iset_ok (s : interval_set) : Prop := IsetOk {
  io_map : spaced 0 (is_map s);
  io_size : is_size s = total (is_map s);
  io_total : total (is_map s) < 2 ^ 63;
}.

(** ** Elements *)

Lemma inside_nil x : ~ inside x [].
Proof. by intros (? & ? & []%not_elem_of_nil & _). Qed.

Lemma inside_cons x f l m : inside x ((f, l) :: m) <-> f <= x < f + l \/ inside x m.
Proof.
  split.
  - intros (f' & l' & [[= -> ->]|Hin]%elem_of_cons & Hx); [by left|right; by exists f', l'].
  - intros [Hx|(f' & l' & Hin & Hx)]; [exists f, l|exists f', l']; (split; [|done]); [by left|by right].
Qed.

Lemma inside_app x m m' : inside x (m ++ m') <-> inside x m \/ inside x m'.
Proof.
  unfold inside. split.
  - intros (f & l & [?|?]%elem_of_app & ?); [left|right]; eauto.
  - intros [(f & l & ? & ?)|(f & l & ? & ?)]; exists f, l; (split; [|done]); apply elem_of_app; [by left|by right].
Qed.

(** Membership as a number, so that linear arithmetic can take part in
    reasoning about sets. *)
Fixpoint hits (x : Z) (m : list (Z * Z)) : Z :=
  match m with
  | [] => 0
  | (f, l) :: m => if (f <=? x) && (x <? f + l) then 1 else hits x m
  end.

Lemma inside_hits x m : inside x m <-> 0 < hits x m.
Proof.
  induction m as [|[f l] m IH]; cbn [hits]; [split; [by intros []%inside_nil|lia]|]. rewrite inside_cons, IH.
  destruct (Z.leb_spec f x), (Z.ltb_spec x (f + l)); cbn [andb]; lia.
Qed.

Ltac iset := intros; rewrite ?inside_app, ?inside_cons, ?inside_app, ?inside_cons, ?inside_hits in *; cbn [hits] in *; lia.

Lemma spaced_mono lo lo' m : lo' <= lo -> spaced lo m -> spaced lo' m.
Proof. destruct m as [|[f l] m]; cbn; [done|]. intros ? (? & ? & ? & ?). split_and!; [lia|done..]. Qed.

Lemma next_ge lo m : spaced lo m -> lo <= next lo m.
Proof.
  revert lo. induction m as [|[f l] m IH]; intros lo; cbn; [done|]. intros (? & ? & ? & Hs). apply IH in Hs. lia.
Qed.

Lemma next_mono lo lo' m : lo' <= lo -> next lo' m <= next lo m.
Proof. destruct m as [|[f l] m]; cbn; lia. Qed.

Lemma spaced_app lo m m' : spaced lo (m ++ m') <-> spaced lo m /\ spaced (next lo m) m'.
Proof.
  revert lo. induction m as [|[f l] m IH]; intros lo; cbn; [tauto|]. rewrite IH. tauto.
Qed.

Lemma next_app lo m m' : next lo (m ++ m') = next (next lo m) m'.
Proof. revert lo. induction m as [|[f l] m IH]; intros lo; cbn; [done|]. apply IH. Qed.

Lemma total_app m m' : total (m ++ m') = total m + total m'.
Proof. induction m as [|[f l] m IH]; cbn; [done|]. rewrite IH. lia. Qed.

Lemma total_nonneg lo m : spaced lo m -> 0 <= total m.
Proof. revert lo. induction m as [|[f l] m IH]; intros lo; cbn; [done|]. intros (? & ? & ? & Hs). apply IH in Hs. lia. Qed.

Lemma inside_range lo m x : spaced lo m -> inside x m -> lo <= x < 2 ^ 64 /\ x + 1 < next lo m.
Proof.
  revert lo. induction m as [|[f l] m IH]; intros lo; [by intros _ []%inside_nil|]. cbn. intros (? & ? & ? & Hs) [Hx|Hx]%inside_cons.
  - apply next_ge in Hs. lia.
  - destruct (IH _ Hs Hx). lia.
Qed.

Lemma spaced_in lo m f l : spaced lo m -> (f, l) ∈ m -> lo <= f /\ 0 < l /\ f + l < 2 ^ 64 /\ f + l < next lo m.
Proof.
  revert lo. induction m as [|[f' l'] m IH]; intros lo; [by intros _ []%not_elem_of_nil|]. cbn.
  intros (? & ? & ? & Hs) [[= -> ->]|Hin]%elem_of_cons; [apply next_ge in Hs; lia|]. destruct (IH _ Hs Hin). lia.
Qed.

Lemma tadd_end lo m f l : 0 <= lo -> spaced lo m -> (f, l) ∈ m -> tadd f l = f + l.
Proof. intros ? Hs Hin. destruct (spaced_in _ _ _ _ Hs Hin). unfold tadd. apply uw_small. unfold is_u. lia. Qed.

(** The element before an interval and the one behind it are outside. *)
Lemma not_inside_before lo m x : spaced lo m -> x < lo -> ~ inside x m.
Proof. intros Hs Hx Hin. destruct (inside_range _ _ _ Hs Hin). lia. Qed.

(** Same elements, same intervals. *)
Lemma spaced_unique lo lo' m m' : spaced lo m -> spaced lo' m' -> (forall x, inside x m <-> inside x m') -> m = m'.
Proof.
  revert lo lo' m'. induction m as [|[f l] m IH]; intros lo lo' [|[f' l'] m']; cbn; [done|..].
  - intros _ (? & ? & _) Hx. exfalso. apply (inside_nil f'). apply Hx, inside_cons. left. lia.
  - intros (? & ? & _) _ Hx. exfalso. apply (inside_nil f). apply Hx, inside_cons. left. lia.
  - intros (H1 & H2 & H3 & Hs) (H1' & H2' & H3' & Hs') H.
    assert (forall x, x < f + l + 1 -> ~ inside x m) as Hm by (intros x Hx; by eapply not_inside_before).
    assert (forall x, x < f' + l' + 1 -> ~ inside x m') as Hm' by (intros x Hx; by eapply not_inside_before).
    assert (forall x, f <= x < f + l \/ inside x m <-> f' <= x < f' + l' \/ inside x m') as Hc by (intros x; by rewrite <- !inside_cons).
    assert (f = f') as <-.
    { destruct (Z.lt_trichotomy f f') as [?|[?|?]]; [|done|]; exfalso.
      - destruct (proj1 (Hc f)) as [?|Hi]; [left; lia|lia|]. apply (Hm' f) in Hi; [done|lia].
      - destruct (proj2 (Hc f')) as [?|Hi]; [left; lia|lia|]. apply (Hm f') in Hi; [done|lia]. }
    assert (l = l') as <-.
    { destruct (Z.lt_trichotomy l l') as [?|[?|?]]; [|done|]; exfalso.
      - destruct (proj2 (Hc (f + l))) as [?|Hi]; [left; lia|lia|]. apply (Hm (f + l)) in Hi; [done|lia].
      - destruct (proj1 (Hc (f + l'))) as [?|Hi]; [left; lia|lia|]. apply (Hm' (f + l')) in Hi; [done|lia]. }
    f_equal. eapply IH; [done|done|]. intros x. destruct (decide (x < f + l + 1)) as [Hx|Hx].
    + split; intros Hi; exfalso; [by eapply Hm|by eapply Hm'].
    + specialize (Hc x). split; intros Hi; [destruct (proj1 Hc)|destruct (proj2 Hc)]; try done; try (by right); lia.
Qed.

(** An interval all of whose elements are inside lies in one interval. *)
Lemma inside_one lo m f l : spaced lo m -> 0 < l -> (forall x, f <= x < f + l -> inside x m) -> exists f' l', (f', l') ∈ m /\ f' <= f /\ f + l <= f' + l'.
Proof.
  revert lo. induction m as [|[f' l'] m IH]; intros lo Hs Hl H; [by destruct (inside_nil f); apply H; lia|].
  cbn in Hs. destruct Hs as (H1 & H2 & H3 & Hs). destruct (decide (f < f' + l')) as [Hlt|Hge].
  - exists f', l'. split; [by left|]. pose proof (H f ltac:(lia)) as [?|Hi]%inside_cons.
    + split; [lia|]. destruct (decide (f + l <= f' + l')) as [|Hgt]; [done|]. exfalso.
      pose proof (H (f' + l') ltac:(lia)) as [?|Hi]%inside_cons; [lia|]. destruct (inside_range _ _ _ Hs Hi). lia.
    + destruct (inside_range _ _ _ Hs Hi). lia.
  - destruct (IH _ Hs Hl) as (f2 & l2 & ? & ?); [|exists f2, l2; split; [by right|done]].
    intros x Hx. pose proof (H x ltac:(lia)) as [?|?]%inside_cons; [lia|done].
Qed.

(** ** Sizes *)

Lemma total_bound lo hi m : spaced lo m -> lo <= hi -> (forall x, inside x m -> x < hi) -> total m <= hi - lo.
Proof.
  revert lo. induction m as [|[f l] m IH]; intros lo; cbn; [lia|]. intros (H1 & H2 & H3 & Hs) Hlo Hx.
  assert (f + l <= hi). { specialize (Hx (f + l - 1)). rewrite inside_cons in Hx. lia. }
  destruct (decide (f + l + 1 <= hi)) as [Hle|Hgt].
  - specialize (IH _ Hs Hle). assert (total m <= hi - (f + l + 1)); [|lia].
    apply IH. intros x Hi. apply Hx, inside_cons. by right.
  - destruct m as [|[f' l'] m]; [cbn; lia|]. cbn in Hs. exfalso. specialize (Hx f'). rewrite !inside_cons in Hx. lia.
Qed.

Lemma total_split lo m h : spaced lo m -> (forall f l, (f, l) ∈ m -> f + l <= h \/ h < f) ->
  exists m1 m2, m = m1 ++ m2 /\ (forall x, inside x m1 -> x < h) /\ spaced (h + 1) m2.
Proof.
  revert lo. induction m as [|[f l] m IH]; intros lo; [exists [], []; by split_and!; [|intros x []%inside_nil|]|].
  cbn. intros (H1 & H2 & H3 & Hs) H. destruct (H f l) as [Hle|Hgt]; [by left| |].
  - destruct (IH _ Hs) as (m1 & m2 & -> & Hm1 & Hm2); [intros f' l' Hin; apply H; by right|].
    exists ((f, l) :: m1), m2. split_and!; [done| |done]. intros x [?|?]%inside_cons; [lia|by apply Hm1].
  - exists [], ((f, l) :: m). split_and!; [done|by intros x []%inside_nil|]. cbn. split_and!; [lia|done..].
Qed.

(** A subset is not larger. *)
Lemma total_subset lo lo' m m' : spaced lo m -> spaced lo' m' -> (forall x, inside x m -> inside x m') -> total m <= total m'.
Proof.
  revert lo lo' m. induction m' as [|[f' l'] m' IH]; intros lo lo' m Hs Hs' H.
  - destruct m as [|[f l] m]; [done|]. cbn in Hs. destruct (inside_nil f). apply H, inside_cons. left. lia.
  - pose proof Hs' as (H1 & H2 & H3 & Ht). destruct (total_split lo m (f' + l') Hs) as (m1 & m2 & -> & Hm1 & Hm2).
    { intros f l Hin. destruct (spaced_in _ _ _ _ Hs Hin) as (? & ? & _).
      destruct (inside_one lo' _ f l Hs') as (f2 & l2 & Hin2 & ? & ?); [done| |].
      - intros x Hx. apply H. by exists f, l.
      - apply elem_of_cons in Hin2 as [[= -> ->]|Hin2]; [left; lia|right]. destruct (spaced_in _ _ _ _ Ht Hin2). lia. }
    rewrite total_app. cbn. apply spaced_app in Hs as [Hs1 _].
    assert (total m2 <= total m').
    { eapply IH; [exact Hm2|exact Ht|]. intros x Hx. destruct (inside_range _ _ _ Hm2 Hx) as [? _].
      destruct (H x) as (f & l & [[= -> ->]|Hin]%elem_of_cons & ?); [apply inside_app; by right|lia|by exists f, l]. }
    assert (total m1 <= l'); [|lia]. destruct m1 as [|[f l] m1]; [cbn; lia|]. pose proof Hs1 as (? & ? & ? & ?).
    assert (inside f ((f, l) :: m1)) as Hf by (apply inside_cons; left; lia). assert (f' <= f) as Hff.
    { destruct (H f) as (f2 & l2 & [[= -> ->]|Hin]%elem_of_cons & ?); [apply inside_app; by left|lia|]. destruct (spaced_in _ _ _ _ Ht Hin). lia. }
    assert (spaced f ((f, l) :: m1)) as Hs2 by (cbn; split_and!; [lia|done..]).
    pose proof (total_bound f (f' + l') ((f, l) :: m1) Hs2 ltac:(specialize (Hm1 f Hf); lia) Hm1). lia.
Qed.

(** ** Iterators *)

Lemma unsnoc_spec l : match unsnoc l with None => l = [] | Some (l', p) => l = l' ++ [p] end.
Proof. induction l as [|p l IH]; cbn; [done|]. destruct (unsnoc l) as [[l' q]|]; by subst. Qed.

Lemma lower_bound_spec start m :
  let '(l1, l2) := lower_bound start m in
  m = l1 ++ l2 /\ (forall p, p ∈ l1 -> p.1 < start) /\ match l2 with [] => True | q :: _ => start <= q.1 end.
Proof.
  induction m as [|p m IH]; cbn; [split_and!; [done|by intros ? []%not_elem_of_nil|done]|]. destruct (Z.ltb_spec p.1 start).
  - destruct (lower_bound start m) as [l1 l2]. destruct IH as (-> & H1 & H2). split_and!; [done| |done].
    intros q [->|Hq]%elem_of_cons; [done|by apply H1].
  - split_and!; [done|by intros ? []%not_elem_of_nil|done].
Qed.

(** The entries before the last one end before it. *)
Lemma spaced_before lo l1 f l l2 f' l' : spaced lo (l1 ++ (f, l) :: l2) -> (f', l') ∈ l1 -> f' + l' < f.
Proof. intros [Hs (? & _)]%spaced_app Hin. destruct (spaced_in _ _ _ _ Hs Hin). lia. Qed.

Lemma spaced_after lo l1 f l l2 f' l' : spaced lo (l1 ++ (f, l) :: l2) -> (f', l') ∈ l2 -> f + l < f'.
Proof. intros [_ (_ & _ & _ & Hs)]%spaced_app Hin. destruct (spaced_in _ _ _ _ Hs Hin). lia. Qed.

Lemma next_le lo m x : spaced lo m -> lo <= x -> (forall f l, (f, l) ∈ m -> f + l < x) -> next lo m <= x.
Proof.
  revert lo. induction m as [|[f l] m IH]; intros lo; cbn; [done|]. intros (? & ? & ? & Hs) Hlo Hall. apply IH; [done| |].
  - specialize (Hall f l ltac:(by left)). lia.
  - intros f2 l2 Hin. apply Hall. by right.
Qed.

(** [find_inc] and [find_adj] differ in the ends they pass: both pass those
    before [start] and neither those behind it. *)
Definition find_by (start : Z) (drop : Z -> bool) (m : list (Z * Z)) : list (Z * Z) * list (Z * Z) :=
  let '(l1, l2) := lower_bound start m in
  match unsnoc l1 with
  | Some (l1', p) =>
      if match l2 with [] => true | q :: _ => start <? q.1 end then
        if drop (tadd p.1 p.2) then (l1, l2) else (l1', p :: l2)
      else (l1, l2)
  | None => (l1, l2)
  end.

Lemma find_by_spec lo m start drop : 0 <= lo -> spaced lo m ->
  (forall e, e < start -> drop e = true) -> (forall e, start < e -> drop e = false) ->
  exists l1 l2, find_by start drop m = (l1, l2) /\ m = l1 ++ l2 /\ (forall f l, (f, l) ∈ l1 -> drop (f + l) = true) /\
    match l2 with [] => True | (f, l) :: _ => drop (f + l) = false end.
Proof.
  intros Hlo Hs Hd Hk. unfold find_by. pose proof (lower_bound_spec start m) as Hb. destruct (lower_bound start m) as [l1 l2].
  destruct Hb as (-> & H1 & H2). pose proof (unsnoc_spec l1) as Hu.
  assert (match l2 with [] => True | (f, l) :: _ => drop (f + l) = false end) as H2'.
  { destruct l2 as [|[f l] l2]; [done|]. apply spaced_app in Hs as [_ (_ & ? & _)]. cbn in H2. apply Hk. lia. }
  destruct (unsnoc l1) as [[l1' [f l]]|]; [|subst; exists [], l2; split_and!; [done..|by intros ?? []%not_elem_of_nil|done]]. subst l1.
  assert (f < start) as Hf by (apply (H1 (f, l)), elem_of_app; right; by left). rewrite <- (assoc_L (++)) in *. cbn [app] in *.
  assert (tadd f l = f + l) as Ht by (eapply tadd_end; [exact Hlo|exact Hs|apply elem_of_app; right; by left]).
  assert (forall f' l', (f', l') ∈ l1' -> f' + l' < f) as Hb by (intros; by eapply spaced_before).
  assert (drop (f + l) = true -> forall f' l', (f', l') ∈ l1' ++ [(f, l)] -> drop (f' + l') = true) as Hall.
  { intros ? f' l' [Hin|[= -> ->]%list_elem_of_singleton]%elem_of_app; [apply Hb in Hin; apply Hd; lia|done]. }
  destruct (match l2 with [] => true | q :: _ => start <? q.1 end) eqn:E; cbn [fst snd].
  - rewrite Ht. destruct (drop (f + l)) eqn:Ed.
    + exists (l1' ++ [(f, l)]), l2. rewrite <- (assoc_L (++)). split_and!; [done|done|by apply Hall|done].
    + exists l1', ((f, l) :: l2). split_and!; [done|done| |done]. intros f' l' Hin. apply Hb in Hin. apply Hd. lia.
  - exists (l1' ++ [(f, l)]), l2. rewrite <- (assoc_L (++)). split_and!; [done|done| |done]. destruct l2 as [|[g k] l2]; [done|]. cbn in E, H2.
    apply Z.ltb_ge in E. pose proof (spaced_after _ _ _ _ _ g k Hs ltac:(by left)). apply Hall, Hd. lia.
Qed.

Lemma find_inc_spec lo m start : 0 <= lo -> spaced lo m ->
  exists l1 l2, find_inc start m = (l1, l2) /\ m = l1 ++ l2 /\ (forall f l, (f, l) ∈ l1 -> f + l <= start) /\
    match l2 with [] => True | (f, l) :: _ => start < f + l end.
Proof.
  intros Hlo Hs. destruct (find_by_spec lo m start (fun e => e <=? start) Hlo Hs) as (l1 & l2 & E & Hm & H1 & H2); [intros; lia..|].
  exists l1, l2. split_and!; [exact E|done| |destruct l2 as [|[]]; [done|lia]]. intros f l Hin%H1. lia.
Qed.

Lemma find_adj_spec lo m start : 0 <= lo -> spaced lo m ->
  exists l1 l2, find_adj start m = (l1, l2) /\ m = l1 ++ l2 /\ (forall f l, (f, l) ∈ l1 -> f + l < start) /\
    match l2 with [] => True | (f, l) :: _ => start <= f + l end.
Proof.
  intros Hlo Hs. destruct (find_by_spec lo m start (fun e => e <? start) Hlo Hs) as (l1 & l2 & E & Hm & H1 & H2); [intros; lia..|].
  exists l1, l2. split_and!; [exact E|done| |destruct l2 as [|[]]; [done|lia]]. intros f l Hin%H1. lia.
Qed.

(** [m[k] = v] between smaller and larger keys. *)
Lemma mput_mid k (v : Z) l1 l2 :
  (forall f l, (f, l) ∈ l1 -> f < k) -> (forall f l, (f, l) ∈ l2 -> k < f) -> mput k v (l1 ++ l2) = l1 ++ (k, v) :: l2.
Proof.
  intros H1 H2. induction l1 as [|[f l] l1 IH]; cbn.
  - destruct l2 as [|[f l] l2]; [done|]. cbn. specialize (H2 f l ltac:(by left)). by rewrite (proj2 (Z.ltb_lt k f)).
  - specialize (H1 f l ltac:(by left)) as Hf. rewrite (proj2 (Z.ltb_ge k f)), (proj2 (Z.eqb_neq k f)) by lia. f_equal.
    apply IH. intros. eapply H1. by right.
Qed.

Lemma mget_absent k (m : list (Z * Z)) : (forall f l, (f, l) ∈ m -> f <> k) -> mget k m = None.
Proof.
  induction m as [|[f l] m IH]; intros H; cbn; [done|]. rewrite (proj2 (Z.eqb_neq k f)); [|intros ->; by eapply H; [left|]].
  apply IH. intros. eapply H. by right.
Qed.

(** ** Queries *)

Section queries.
Context (s : interval_set) (Hok : iset_ok s).

Lemma find_inc_ok i :
  exists l1 l2, find_inc i (is_map s) = (l1, l2) /\ is_map s = l1 ++ l2 /\ (forall f l, (f, l) ∈ l1 -> f + l <= i) /\
    (forall f l l2', l2 = (f, l) :: l2' -> i < f + l /\ tadd f l = f + l) /\
    (inside i (is_map s) <-> exists f l l2', l2 = (f, l) :: l2' /\ f <= i).
Proof using Hok.
  destruct Hok as [Hs _ _]. destruct (find_inc_spec 0 (is_map s) i ltac:(lia) Hs) as (l1 & l2 & E & Hm & H1 & H2). exists l1, l2.
  assert (forall f l l2', l2 = (f, l) :: l2' -> i < f + l /\ tadd f l = f + l) as H2'.
  { intros f l l2' ->. split; [done|]. eapply tadd_end; [reflexivity|exact Hs|]. rewrite Hm. apply elem_of_app. right. by left. }
  split_and!; [done..|]. split.
  - intros (f & l & Hin & Hx). rewrite Hm in Hin. apply elem_of_app in Hin as [Hin|Hin]; [apply H1 in Hin; lia|].
    destruct l2 as [|[f2 k2] l2']; [by apply not_elem_of_nil in Hin|]. exists f2, k2, l2'. split; [done|].
    apply elem_of_cons in Hin as [[= -> ->]|Hin]; [lia|]. rewrite Hm in Hs. pose proof (spaced_after _ _ _ _ _ f l Hs Hin). lia.
  - intros (f & l & l2' & -> & Hf). exists f, l. rewrite Hm. split; [apply elem_of_app; right; by left|]. lia.
Qed.

(** [contains(i)] decides membership, and gives the interval. *)
Lemma contains_spec_is i :
  exists o, is_contains i s = Ret o /\
    match o with Some (f, l) => (f, l) ∈ is_map s /\ f <= i < f + l | None => ~ inside i (is_map s) end.
Proof using Hok.
  unfold is_contains. destruct (find_inc_ok i) as (l1 & l2 & -> & Hm & _ & H2 & Hi). cbn [snd]. destruct l2 as [|[f l] l2].
  - exists None. split; [done|]. rewrite Hi. by intros (? & ? & ? & ? & _).
  - destruct (H2 f l l2 eq_refl) as [Hlt ->]. destruct (Z.ltb_spec i f).
    + exists None. split; [done|]. rewrite Hi. intros (? & ? & ? & [= <- <- <-] & ?). lia.
    + rewrite (proj2 (Z.leb_gt (f + l) i)) by lia. rewrite (proj2 (Z.leb_le f i)), (proj2 (Z.ltb_lt i (f + l))) by lia.
      exists (Some (f, l)). split; [done|]. split; [|lia]. rewrite Hm. apply elem_of_app. right. by left.
Qed.

(** [contains(start, len)] decides whether all of a range is inside. *)
Lemma contains_range_spec start len : 0 <= start -> 0 < len -> start + len < 2 ^ 64 ->
  exists b, contains_range start len s = Ret b /\ (b = true <-> forall x, start <= x < start + len -> inside x (is_map s)).
Proof using Hok.
  intros H0 Hl Hw. unfold contains_range. destruct (find_inc_ok start) as (l1 & l2 & -> & Hm & _ & H2 & Hi). cbn [snd].
  assert (tadd start len = start + len) as Ht by (apply uw_small; unfold is_u; lia).
  assert (~ inside start (is_map s) -> exists b, Ret false = Ret b /\ (b = true <-> forall x, start <= x < start + len -> inside x (is_map s))) as Hno.
  { intros Hn. exists false. split; [done|]. split; [done|]. intros Hx. destruct Hn. apply Hx. lia. }
  destruct l2 as [|[f l] l2]; [apply Hno; rewrite Hi; by intros (? & ? & ? & ? & _)|]. destruct (H2 f l l2 eq_refl) as [Hlt ->].
  destruct (Z.ltb_spec start f); [apply Hno; rewrite Hi; intros (? & ? & ? & [= <- <- <-] & ?); lia|].
  rewrite (proj2 (Z.leb_gt (f + l) start)) by lia. rewrite (proj2 (Z.leb_le f start)), (proj2 (Z.ltb_lt start (f + l))) by lia. cbn. rewrite Ht.
  eexists. split; [done|]. rewrite negb_true_iff, Z.ltb_ge. assert ((f, l) ∈ is_map s) as Hin by (rewrite Hm; apply elem_of_app; right; by left). split.
  - intros Hle x Hx. exists f, l. split; [done|lia].
  - intros Hx. destruct Hok as [Hs _ _]. destruct (inside_one _ _ _ _ Hs Hl Hx) as (f' & l' & Hin' & ? & ?).
    destruct (decide ((f', l') = (f, l))) as [[= -> ->]|Hne]; [lia|]. exfalso. rewrite Hm in Hs, Hin'.
    apply elem_of_app in Hin' as [Hin'|[?|Hin']%elem_of_cons]; [|done|].
    + pose proof (spaced_before _ _ _ _ _ f' l' Hs Hin'). lia.
    + pose proof (spaced_after _ _ _ _ _ f' l' Hs Hin'). lia.
Qed.
End queries.

(** ** Insertion *)

(** A set whose entries are known, with their sum as its size. *)
Lemma iset_ok_intro sz m : spaced 0 m -> sz = total m -> total m < 2 ^ 63 -> iset_ok (IntervalSet sz m).
Proof. by constructor. Qed.

(** Put one entry between two parts of a spaced list. *)
Lemma spaced_mid lo l1 f l l2 :
  spaced lo l1 -> next lo l1 <= f -> 0 < l -> f + l < 2 ^ 64 -> spaced (f + l + 1) l2 -> spaced lo (l1 ++ (f, l) :: l2).
Proof. intros. apply spaced_app. cbn. auto. Qed.

Lemma total_mid l1 f l l2 : total (l1 ++ (f, l) :: l2) = total (l1 ++ l2) + l.
Proof. rewrite !total_app. cbn. lia. Qed.

Lemma inside_mid x l1 f l l2 : inside x (l1 ++ (f, l) :: l2) <-> inside x (l1 ++ l2) \/ f <= x < f + l.
Proof. rewrite !inside_app, inside_cons. tauto. Qed.

(** What an insertion promises. *)
Definition inserted (start len : Z) (s s' : interval_set) (r : Z * Z) : Prop :=
  iset_ok s' /\ (forall x, inside x (is_map s') <-> inside x (is_map s) \/ start <= x < start + len) /\
  total (is_map s') = total (is_map s) + len /\ r ∈ is_map s' /\ r.1 <= start /\ start + len <= r.1 + r.2.

Lemma mid_inserted start len s l1 l2 f l r sz :
  iset_ok s -> total (is_map s) + len < 2 ^ 63 -> r = (f, l) ->
  f <= start -> start + len <= f + l -> 0 < len -> f + l < 2 ^ 64 ->
  spaced 0 l1 -> next 0 l1 <= f -> spaced (f + l + 1) l2 ->
  sz = s64 (is_size s + len) ->
  total l1 + l + total l2 = total (is_map s) + len ->
  (forall x, inside x (is_map s) \/ start <= x < start + len <-> inside x (l1 ++ l2) \/ f <= x < f + l) ->
  inserted start len s (IntervalSet sz (l1 ++ (f, l) :: l2)) r.
Proof.
  intros [Hm Hz Ht] ? -> ??????? -> Htot Hx. pose proof (total_nonneg _ _ Hm). split; [apply iset_ok_intro|split_and!; cbn].
  - apply spaced_mid; [done|done|lia|done|done].
  - rewrite total_mid, total_app, Hz. rewrite sw_small by (unfold is_s; lia). lia.
  - rewrite total_mid, total_app. lia.
  - intros x. by rewrite inside_mid, Hx.
  - rewrite total_mid, total_app. lia.
  - apply elem_of_app. right. by left.
  - lia.
  - lia.
Qed.

Lemma is_insert_spec start len s :
  iset_ok s -> 0 <= start -> 0 < len -> start + len < 2 ^ 64 -> total (is_map s) + len < 2 ^ 63 ->
  (forall x, start <= x < start + len -> ~ inside x (is_map s)) ->
  exists s' r, is_insert start len s = Ret (s', r) /\ inserted start len s s' r.
Proof.
  intros Hok H0 Hl Hw Ht Hdis. pose proof Hok as [Hm _ _]. unfold is_insert. rewrite (proj2 (Z.ltb_lt 0 len)) by lia. cbn [rassert rbind].
  destruct (find_adj_spec 0 (is_map s) start ltac:(lia) Hm) as (l1 & l2 & -> & E & H1 & H2). rewrite E in Hm, Hdis |- *.
  assert (tadd start len = start + len) as Hsl by (apply uw_small; unfold is_u; lia).
  pose proof (proj1 (proj1 (spaced_app _ _ _) Hm)) as Hs1. pose proof (proj2 (proj1 (spaced_app _ _ _) Hm)) as Hs2.
  pose proof (next_ge _ _ Hs1). assert (next 0 l1 <= start) as Hn by (apply next_le; [done|lia|done]).
  assert (forall f l, (f, l) ∈ l1 -> f < start) as Hk1 by (intros f l Hin; specialize (H1 _ _ Hin); destruct (spaced_in _ _ _ _ Hs1 Hin); lia).
  destruct l2 as [|[f l] l2].
  { do 2 eexists. split; [done|]. rewrite (mput_mid start len l1 []) by (done || by intros ?? []%not_elem_of_nil).
    eapply mid_inserted; try done; try lia; rewrite E; [rewrite !total_app; cbn; lia|tauto]. }
  cbn in Hs2. destruct Hs2 as (? & ? & ? & Hs2).
  assert (forall x, start <= x < start + len -> ~ (f <= x < f + l)) as Hd by (intros x Hx ?; apply (Hdis x Hx), inside_mid; by right).
  destruct (Z.ltb_spec f start) as [Hf|Hf].
  - specialize (Hd start). assert (f + l = start) as Hfl by lia. assert (tadd f l = start) as -> by (rewrite <- Hfl; apply uw_small; unfold is_u; lia).
    rewrite Z.eqb_refl. cbn [negb]. assert (tadd l len = l + len) as -> by (apply uw_small; unfold is_u; lia).
    destruct l2 as [|[nf nl] l3].
    + do 2 eexists. split; [done|]. eapply mid_inserted; try done; try lia; rewrite E; [rewrite !total_app; cbn; lia|]. iset.
    + cbn in Hs2. destruct Hs2 as (? & ? & ? & Hs3). rewrite Hsl.
      assert (~ (start <= nf < start + len)). { intros Hx. apply (Hdis nf Hx), inside_app. right. apply inside_cons. right. apply inside_cons. lia. }
      destruct (Z.eqb_spec (start + len) nf) as [Hnf|Hnf]; do 2 eexists; (split; [done|]).
      * assert (tadd (l + len) nl = l + len + nl) as -> by (apply uw_small; unfold is_u; lia).
        eapply mid_inserted; try done; try lia; rewrite ?E; [by replace (f + (l + len + nl) + 1) with (nf + nl + 1) by lia|rewrite !total_app; cbn; lia|].
        iset.
      * eapply mid_inserted; try done; try lia; rewrite ?E; [cbn; split_and!; [lia..|done]|rewrite !total_app; cbn; lia|].
        iset.
  - assert (start + len <= f) by (specialize (Hd (Z.max f start)); lia). rewrite Hsl.
    assert (forall f' l', (f', l') ∈ l2 -> start < f') as Hk2 by (intros ?? Hin; destruct (spaced_in _ _ _ _ Hs2 Hin); lia).
    destruct (Z.eqb_spec (start + len) f) as [He|He].
    + assert (tadd len l = len + l) as -> by (apply uw_small; unfold is_u; lia). do 2 eexists. split; [done|]. rewrite mput_mid by done.
      eapply mid_inserted; try done; try lia; rewrite ?E; [by replace (start + (len + l) + 1) with (f + l + 1) by lia|rewrite !total_app; cbn; lia|].
      iset.
    + rewrite (proj2 (Z.ltb_lt _ _)) by lia. do 2 eexists. split; [done|]. rewrite mput_mid; [|done|].
      * eapply mid_inserted; try done; try lia; rewrite ?E; [cbn; split_and!; [lia..|done]|rewrite !total_app; cbn; lia|tauto].
      * intros ?? [[= -> ->]|Hin]%elem_of_cons; [lia|by eapply Hk2].
Qed.

(** The interval a range lies in is the one [find_inc] finds. *)
Lemma find_inc_covers s start len :
  iset_ok s -> 0 < len -> (forall x, start <= x < start + len -> inside x (is_map s)) ->
  exists l1 f l l2, find_inc start (is_map s) = (l1, (f, l) :: l2) /\ is_map s = l1 ++ (f, l) :: l2 /\ f <= start /\ start + len <= f + l.
Proof.
  intros Hok Hl Hx. destruct (find_inc_ok s Hok start) as (l1 & l2 & E & Hm & H1 & H2 & Hi).
  destruct (proj1 Hi) as (f & l & l2' & -> & Hf); [apply Hx; lia|]. exists l1, f, l, l2'. split_and!; [done|done|done|].
  destruct (H2 _ _ _ eq_refl) as [Hlt _]. destruct Hok as [Hs _ _]. destruct (inside_one _ _ _ _ Hs Hl Hx) as (g & k & Hin & ? & ?).
  rewrite Hm in Hs, Hin. apply elem_of_app in Hin as [Hin|[[= -> ->]|Hin]%elem_of_cons]; [|lia|].
  - pose proof (spaced_before _ _ _ _ _ g k Hs Hin). lia.
  - pose proof (spaced_after _ _ _ _ _ g k Hs Hin). lia.
Qed.

(** What an erasure promises, of the interval [(f, l)] the range is in. *)
Definition erased (start len : Z) (claim : Z -> Z -> bool) (f l : Z) (s s' : interval_set) : Prop :=
  iset_ok s' /\ forall x, inside x (is_map s') <->
    inside x (is_map s) /\ ~ (start <= x < start + len) /\
    ~ (claim f (start - f) = true /\ f <= x < start) /\ ~ (claim (start + len) (f + l - (start + len)) = true /\ start + len <= x < f + l).

Lemma true_pos b : b = true <-> 0 < Z.b2z b.
Proof. destruct b; cbn; split; done || lia. Qed.

(** What is left of the interval [(f, l)]: a part [l3] of it, between the
    entries around it. *)
Lemma rest_erased start len claim s l1 f l l2 l3 sz :
  iset_ok s -> 0 < len -> is_map s = l1 ++ (f, l) :: l2 -> f <= start -> start + len <= f + l ->
  spaced f l3 -> next f l3 <= f + l + 1 -> sz = total l1 + total l2 + total l3 -> total l3 <= l ->
  (forall x, inside x l3 <-> f <= x < f + l /\ ~ (start <= x < start + len) /\
    ~ (claim f (start - f) = true /\ f <= x < start) /\ ~ (claim (start + len) (f + l - (start + len)) = true /\ start + len <= x < f + l)) ->
  erased start len claim f l s (IntervalSet sz (l1 ++ l3 ++ l2)).
Proof.
  intros Hok Hl Hm Hf He Hs3 Hn3 -> Ht3 Hx. pose proof Hok as [Hs Hz Ht]. rewrite Hm in Hs, Ht. rewrite total_mid, total_app in Ht.
  pose proof Hs as [Hs1 (Hn & H1 & H2 & Hs2)]%spaced_app. split; [apply iset_ok_intro|]; cbn [is_map is_size].
  - apply spaced_app. split; [done|]. apply spaced_app. split; [by eapply spaced_mono|]. eapply spaced_mono, Hs2. etrans; [by apply next_mono|done].
  - rewrite !total_app. lia.
  - rewrite !total_app. lia.
  - intros x. rewrite Hm, !inside_app, inside_cons, Hx.
    assert (inside x l1 -> x + 1 < f) by (intros Hin; destruct (inside_range _ _ _ Hs1 Hin); lia).
    assert (inside x l2 -> f + l < x) by (intros Hin; destruct (inside_range _ _ _ Hs2 Hin); lia).
    rewrite !inside_hits, !true_pos in *. lia.
Qed.

(** A remainder the caller does not claim is put back. *)
Definition keep (claim : Z -> Z -> bool) (f l : Z) : list (Z * Z) := if (l =? 0) || claim f l then [] else [(f, l)].

Lemma keep_spec claim f l : 0 <= l ->
  (forall x, inside x (keep claim f l) <-> f <= x < f + l /\ claim f l <> true) /\ 0 <= total (keep claim f l) <= l /\
  forall lo, lo <= f -> f + l < 2 ^ 64 -> spaced lo (keep claim f l) /\ next lo (keep claim f l) <= f + l + 1.
Proof.
  intros Hl. unfold keep. destruct (Z.eqb_spec l 0) as [Hz|], (claim f l) eqn:E; cbn [orb]; split_and!; cbn; try lia;
    intros x; rewrite ?inside_cons, ?inside_hits, ?E, ?true_pos; cbn; lia.
Qed.

(** The map and the size [erase] leaves. *)
Lemma is_erase_eq start len claim s l1 f l l2 :
  iset_ok s -> 0 < len -> find_inc start (is_map s) = (l1, (f, l) :: l2) -> is_map s = l1 ++ (f, l) :: l2 -> f <= start -> start + len <= f + l ->
  is_erase start len claim s =
    let l3 := keep claim f (start - f) ++ keep claim (start + len) (f + l - (start + len)) in
    Ret (IntervalSet (total l1 + total l2 + total l3) (l1 ++ l3 ++ l2)).
Proof.
  intros [Hs Hz Ht] Hl E Hm Hf He. unfold is_erase. rewrite E. rewrite Hm in Hs, Hz, Ht. rewrite total_mid, total_app in Hz, Ht.
  pose proof Hs as [Hs1 (Hn & H1 & H2 & Hs2)]%spaced_app.
  pose proof (next_ge _ _ Hs1). pose proof (total_nonneg _ _ Hs1). pose proof (total_nonneg _ _ Hs2).
  assert (forall z, 0 <= z < 2 ^ 63 -> s64 z = z) as Hsw by (intros; apply sw_small; unfold is_s; lia).
  assert (forall z, 0 <= z < 2 ^ 64 -> u64 z = z) as Huw by (intros; by apply uw_small).
  rewrite (Hsw (is_size s - len)) by lia. rewrite (proj2 (Z.leb_le 0 _)), (proj2 (Z.leb_le f start)) by lia. cbn [rassert rbind].
  unfold tadd, tsub. rewrite !(Huw (start - f)) by lia. rewrite !(Huw (start - f + len)), !(Huw (l - (start - f))), !(Huw (l - (start - f) - len)), !(Huw (start + len)) by lia.
  rewrite (proj2 (Z.leb_le _ l)) by lia. replace (l - (start - f) - len) with (f + l - (start + len)) by lia. cbn [rassert rbind].
  assert (forall v m1, (forall g k, (g, k) ∈ m1 -> g < start + len) -> mput (start + len) v (m1 ++ l2) = m1 ++ (start + len, v) :: l2) as Hput.
  { intros v m1 Hm1. apply mput_mid; [done|]. intros g k Hin. destruct (spaced_in _ _ _ _ Hs2 Hin). lia. }
  assert (forall g k, (g, k) ∈ l1 -> g < start + len) as Hk1 by (intros g k Hin; destruct (spaced_in _ _ _ _ Hs1 Hin); lia).
  assert (forall v, mput (start + len) v (l1 ++ (f, start - f) :: l2) = l1 ++ (f, start - f) :: (start + len, v) :: l2) as Hput2.
  { intros v. specialize (Hput v (l1 ++ [(f, start - f)])). rewrite <- !(assoc_L (++)) in Hput. apply Hput.
    intros g k [Hin|[= -> ->]%list_elem_of_singleton]%elem_of_app; [by eapply Hk1|lia]. }
  unfold keep. destruct (Z.eqb_spec (start - f) 0), (Z.eqb_spec (f + l - (start + len)) 0), (claim f (start - f)), (claim (start + len) _);
    cbn [negb orb app total]; rewrite ?Hput2, ?Hput by done; repeat f_equal; repeat rewrite Hsw by (rewrite ?Hsw by lia; lia); lia.
Qed.

Lemma is_erase_spec start len claim s :
  iset_ok s -> 0 < len -> (forall x, start <= x < start + len -> inside x (is_map s)) ->
  exists f l s', (f, l) ∈ is_map s /\ is_erase start len claim s = Ret s' /\ erased start len claim f l s s'.
Proof.
  intros Hok Hl Hx. destruct (find_inc_covers _ _ _ Hok Hl Hx) as (l1 & f & l & l2 & E & Hm & Hf & He).
  exists f, l. rewrite (is_erase_eq _ _ _ _ _ _ _ _ Hok Hl E Hm Hf He). eexists. split; [rewrite Hm; apply elem_of_app; right; by left|]. split; [done|].
  pose proof Hok as [Hs _ _]. rewrite Hm in Hs. apply spaced_app in Hs as [_ (? & ? & ? & _)].
  destruct (keep_spec claim f (start - f) ltac:(lia)) as (Hx1 & ? & Hk1). destruct (Hk1 f ltac:(lia) ltac:(lia)) as [Hs1 Hn1].
  destruct (keep_spec claim (start + len) (f + l - (start + len)) ltac:(lia)) as (Hx2 & ? & Hk2). destruct (Hk2 _ ltac:(etrans; [apply Hn1|lia]) ltac:(lia)) as [Hs2 Hn2].
  eapply rest_erased; try done.
  - by apply spaced_app.
  - rewrite next_app. lia.
  - rewrite total_app. lia.
  - intros x. rewrite inside_app, Hx1, Hx2, !true_pos. lia.
Qed.
