(* ===== verification/IntervalSets.v ===== *)
(** * Whole sets: difference, union, intersection

    The loops over the intervals of one or two sets, each with the set it
    computes. *)

From S2P Require Import Prelude IntervalSet IntervalSpec.
Open Scope Z_scope.

(** ** Difference and disjoint union *)

Lemma subtract_loop_spec l : forall lo s, spaced lo l -> iset_ok s -> (forall x, inside x l -> inside x (is_map s)) ->
  exists s', subtract_loop l s = Ret s' /\ iset_ok s' /\ forall x, inside x (is_map s') <-> inside x (is_map s) /\ ~ inside x l.
Proof.
  induction l as [|[f l] m IH]; intros lo s Hs Hok Hsub; cbn [subtract_loop].
  { exists s. split_and!; [done|done|]. intros x. pose proof (inside_nil x). tauto. }
  cbn in Hs. destruct Hs as (? & ? & ? & Hs).
  destruct (is_erase_spec f l unclaimed s Hok) as (g & k & s1 & _ & E & Hok1 & Hx1); [done|intros x Hx; apply Hsub, inside_cons; by left|].
  cbn [fst snd]. rewrite E. cbn [rbind].
  assert (forall x, inside x m -> f + l < x) as Hm by (intros x Hx; destruct (inside_range _ _ _ Hs Hx); lia).
  destruct (IH (f + l + 1) s1 Hs Hok1) as (s' & E' & Hok' & Hx').
  - intros x Hx. apply Hx1. split_and!; [apply Hsub, inside_cons; by right|specialize (Hm x Hx); lia|by intros []..].
  - exists s'. split_and!; [done..|]. intros x. rewrite Hx', Hx1, inside_cons. unfold unclaimed. naive_solver.
Qed.

Lemma subtract_spec a s : iset_ok a -> iset_ok s -> (forall x, inside x (is_map a) -> inside x (is_map s)) ->
  exists s', subtract a s = Ret s' /\ iset_ok s' /\ forall x, inside x (is_map s') <-> inside x (is_map s) /\ ~ inside x (is_map a).
Proof. intros [Ha _ _]. by eapply subtract_loop_spec. Qed.

Lemma insert_loop_spec l : forall lo s, 0 <= lo -> spaced lo l -> iset_ok s -> total (is_map s) + total l < 2 ^ 63 ->
  (forall x, inside x l -> ~ inside x (is_map s)) ->
  exists s', insert_loop l s = Ret s' /\ iset_ok s' /\ forall x, inside x (is_map s') <-> inside x (is_map s) \/ inside x l.
Proof.
  induction l as [|[f l] m IH]; intros lo s Hlo Hs Hok Ht Hdis; cbn [insert_loop].
  { exists s. split_and!; [done|done|]. intros x. pose proof (inside_nil x). tauto. }
  cbn in Hs, Ht. destruct Hs as (? & ? & ? & Hs). pose proof (total_nonneg _ _ Hs).
  destruct (is_insert_spec f l s Hok) as (s1 & r & E & Hok1 & Hx1 & Ht1 & _); [lia..|intros x Hx; apply Hdis, inside_cons; by left|].
  cbn [fst snd]. rewrite E. cbn [rbind].
  destruct (IH (f + l + 1) s1 ltac:(lia) Hs Hok1) as (s' & E' & Hok' & Hx'); [lia| |].
  - intros x Hx. rewrite Hx1. destruct (inside_range _ _ _ Hs Hx). specialize (Hdis x). rewrite inside_cons in Hdis. intros [Hin|?]; [|lia]. by apply Hdis; [right|].
  - exists s'. split_and!; [done..|]. intros x. rewrite Hx', Hx1, inside_cons. tauto.
Qed.

Lemma insert_set_spec a s : iset_ok a -> iset_ok s -> total (is_map s) + total (is_map a) < 2 ^ 63 ->
  (forall x, inside x (is_map a) -> ~ inside x (is_map s)) ->
  exists s', insert_set a s = Ret s' /\ iset_ok s' /\ forall x, inside x (is_map s') <-> inside x (is_map s) \/ inside x (is_map a).
Proof. intros [Ha _ _]. by apply (insert_loop_spec _ 0). Qed.

(** ** Intersection *)

(** What the loops have put into the set so far; its size wraps as it is
    counted. *)
Record acc_ok (s : interval_set) : Prop := AccOk {
  ac_map : spaced 0 (is_map s);
  ac_size : is_size s = s64 (total (is_map s));
}.

Lemma acc_iset s m lo : acc_ok s -> spaced lo m -> total m < 2 ^ 63 -> (forall x, inside x (is_map s) -> inside x m) -> iset_ok s.
Proof.
  intros [Hs Hz] Hm Ht Hx. pose proof (total_subset _ _ _ _ Hs Hm Hx). pose proof (total_nonneg _ _ Hs). destruct s as [sz ms]. cbn in *.
  apply iset_ok_intro; [done| |lia]. rewrite Hz. apply sw_small; unfold is_s; lia.
Qed.

Lemma emit_append k v s : acc_ok s -> next 0 (is_map s) <= k -> 0 < v -> k + v < 2 ^ 64 ->
  acc_ok (emit k v s) /\ is_map (emit k v s) = is_map s ++ [(k, v)].
Proof.
  intros [Hs Hz] Hk Hv Hw. unfold emit, minsert.
  assert (forall f l, (f, l) ∈ is_map s -> f < k) as Hlt by (intros f l Hin; destruct (spaced_in _ _ _ _ Hs Hin); lia).
  rewrite mget_absent by (intros f l Hin; specialize (Hlt f l Hin); lia).
  assert (mput k v (is_map s) = is_map s ++ [(k, v)]) as ->.
  { rewrite <- (app_nil_r (is_map s)) at 1. apply mput_mid; [done|by intros ?? []%not_elem_of_nil]. }
  split; [|done]. constructor; cbn [is_map is_size].
  - by apply spaced_mid.
  - rewrite total_mid, app_nil_r, Hz. apply sw_add_l.
Qed.

Lemma same_run_spec pa : forall pb la lb s, spaced la pa -> spaced lb pb -> acc_ok s -> next 0 (is_map s) <= la -> 0 <= la ->
  exists r pa' pb' s', same_run pa pb s = (pa', pb', s') /\ pa = r ++ pa' /\ pb = r ++ pb' /\ acc_ok s' /\ is_map s' = is_map s ++ r.
Proof.
  induction pa as [|[f l] pa IH]; intros pb la lb s Ha Hb Hs Hn Hla; cbn [same_run].
  { exists [], [], pb, s. split_and!; [done..|by rewrite app_nil_r]. }
  destruct pb as [|q pb]; [exists [], ((f, l) :: pa), [], s; split_and!; [done..|by rewrite app_nil_r]|].
  case_bool_decide; [subst q|exists [], ((f, l) :: pa), (q :: pb), s; split_and!; [done..|by rewrite app_nil_r]].
  cbn in Ha, Hb. destruct Ha as (? & ? & ? & Ha), Hb as (? & _ & _ & Hb). cbn [fst snd].
  destruct (emit_append f l s Hs) as [Hs1 Em]; [lia..|]. destruct (IH pb (f + l + 1) (f + l + 1) (emit f l s) Ha Hb Hs1) as (r & pa' & pb' & s' & E & -> & -> & Hs' & Em').
  - rewrite Em, next_app. cbn. lia.
  - lia.
  - exists ((f, l) :: r), pa', pb', s'. split_and!; [done..|]. by rewrite Em', Em, <- (assoc_L (++)).
Qed.

(** Equal entries at both iterators: the run of them is passed. *)
Lemma same_run_head f l pa pb la lb s :
  spaced la ((f, l) :: pa) -> spaced lb ((f, l) :: pb) -> acc_ok s -> next 0 (is_map s) <= f -> 0 <= f ->
  exists r pa' pb' s' lo, same_run ((f, l) :: pa) ((f, l) :: pb) s = (pa', pb', s') /\ pa = r ++ pa' /\ pb = r ++ pb' /\
    acc_ok s' /\ is_map s' = is_map s ++ (f, l) :: r /\ f + l + 1 <= lo /\ spaced (f + l + 1) r /\ next (f + l + 1) r = lo /\ spaced lo pa' /\ spaced lo pb'.
Proof.
  intros Ha Hb Hs Hn Hf. cbn in Ha, Hb. destruct Ha as (? & ? & ? & Ha), Hb as (? & _ & _ & Hb). cbn [same_run]. rewrite bool_decide_eq_true_2 by done. cbn [fst snd].
  destruct (emit_append f l s Hs) as [Hs1 Em]; [lia..|].
  destruct (same_run_spec pa pb _ _ (emit f l s) Ha Hb Hs1) as (r & pa' & pb' & s' & E & -> & -> & Hs' & Em'); [rewrite Em, next_app; cbn; lia|lia|].
  apply spaced_app in Ha as [Hr Ha], Hb as [_ Hb]. exists r, pa', pb', s', (next (f + l + 1) r). pose proof (next_ge _ _ Hr).
  split_and!; try done. by rewrite Em', Em, <- (assoc_L (++)).
Qed.

(** What a loop adds to the set: intervals with the elements [P]. *)
Definition produced (P : Z -> Prop) (s s' : interval_set) : Prop :=
  exists r, is_map s' = is_map s ++ r /\ acc_ok s' /\ forall x, inside x r <-> P x.

Lemma produced_nil (P : Z -> Prop) s : acc_ok s -> (forall x, ~ P x) -> produced P s s.
Proof. intros Hs Hx. exists []. split_and!; [by rewrite app_nil_r|done|]. intros x. specialize (Hx x). pose proof (inside_nil x). tauto. Qed.

Lemma produced_iff (P Q : Z -> Prop) s s' : (forall x, Q x <-> P x) -> produced P s s' -> produced Q s s'.
Proof. intros Hx (r & ? & ? & Hr). exists r. split_and!; [done..|]. intros x. by rewrite Hr, Hx. Qed.

Lemma produced_app (P Q : Z -> Prop) r0 s s1 s' :
  is_map s1 = is_map s ++ r0 -> (forall x, Q x <-> inside x r0 \/ P x) -> produced P s1 s' -> produced Q s s'.
Proof. intros E Hx (r & Em & ? & Hr). exists (r0 ++ r). split_and!; [by rewrite Em, E, <- (assoc_L (++))|done|]. intros x. by rewrite inside_app, Hr, Hx. Qed.

Lemma sym_loop_spec fuel : forall pa pb la lb s, (length pa + length pb < fuel)%nat -> 0 <= la -> 0 <= lb ->
  spaced la pa -> spaced lb pb -> acc_ok s -> next 0 (is_map s) <= Z.max la lb ->
  exists s', sym_loop fuel pa pb s = Ret s' /\ produced (fun x => inside x pa /\ inside x pb) s s'.
Proof.
  induction fuel as [|fuel IH]; intros pa pb la lb s Hfuel Hla Hlb Ha Hb Hs Hn; [lia|]. cbn [sym_loop].
  destruct pa as [|[af al] pa]; [exists s; split; [done|]; apply produced_nil; [done|intros x [[]%inside_nil _]]|].
  destruct pb as [|[bf bl] pb]; [exists s; split; [done|]; apply produced_nil; [done|intros x [_ []%inside_nil]]|].
  pose proof Ha as (Ha1 & Ha2 & Ha3 & Ha4). pose proof Hb as (Hb1 & Hb2 & Hb3 & Hb4). cbn [length] in Hfuel.
  assert (tadd af al = af + al) as -> by (apply uw_small; unfold is_u; lia). assert (tadd bf bl = bf + bl) as -> by (apply uw_small; unfold is_u; lia).
  assert (forall x, inside x pa -> af + al < x) as Hpa by (intros x Hx; destruct (inside_range _ _ _ Ha4 Hx); lia).
  assert (forall x, inside x pb -> bf + bl < x) as Hpb by (intros x Hx; destruct (inside_range _ _ _ Hb4 Hx); lia).
  destruct (Z.leb_spec (af + al) bf).
  { destruct (IH pa ((bf, bl) :: pb) (af + al + 1) lb s) as (s' & E & Hi); [cbn; lia|lia..|done|done|done|lia|]. exists s'. split; [done|].
    eapply produced_iff, Hi. intros x. specialize (Hpa x). specialize (Hpb x). iset. }
  destruct (Z.leb_spec (bf + bl) af).
  { destruct (IH ((af, al) :: pa) pb la (bf + bl + 1) s) as (s' & E & Hi); [cbn; lia|lia..|done|done|done|lia|]. exists s'. split; [done|].
    eapply produced_iff, Hi. intros x. specialize (Hpa x). specialize (Hpb x). iset. }
  case_bool_decide as Heq.
  - injection Heq as <- <-. destruct (same_run_head af al pa pb la lb s Ha Hb Hs) as (r & pa' & pb' & s1 & lo & E1 & -> & -> & Hs1 & Em & Hlo & Hr & Hnr & Ha' & Hb'); [lia..|].
    rewrite E1. rewrite !length_app in Hfuel. destruct (IH pa' pb' lo lo s1) as (s' & E & Hi); [lia|lia..|done|done|done| |].
    { rewrite Em, next_app. cbn. lia. }
    exists s'. split; [done|]. eapply produced_app, Hi; [exact Em|].
    intros x. assert (inside x r -> x + 1 < lo) by (intros Hx; destruct (inside_range _ _ _ Hr Hx); lia).
    assert (inside x pa' -> lo <= x) by (intros Hx; destruct (inside_range _ _ _ Ha' Hx); lia).
    assert (inside x pb' -> lo <= x) by (intros Hx; destruct (inside_range _ _ _ Hb' Hx); lia). specialize (Hpa x). specialize (Hpb x). iset.
  - set (start := Z.max af bf). set (en := Z.min (af + al) (bf + bl)). rewrite (proj2 (Z.ltb_lt start en)) by lia. cbn [rassert rbind].
    assert (tsub en start = en - start) as -> by (apply uw_small; unfold is_u; lia).
    destruct (emit_append start (en - start) s Hs) as [Hs1 Em]; [lia..|]. assert (next 0 (is_map (emit start (en - start) s)) = en + 1) as Hn1 by (rewrite Em, next_app; cbn; lia).
    destruct (Z.ltb_spec (bf + bl) (af + al)).
    + destruct (IH ((af, al) :: pa) pb la (bf + bl + 1) (emit start (en - start) s)) as (s' & E & Hi); [cbn; lia|lia..|done|done|done|lia|].
      exists s'. split; [done|]. eapply produced_app, Hi; [exact Em|].
      intros x. specialize (Hpa x). specialize (Hpb x). iset.
    + destruct (IH pa ((bf, bl) :: pb) (af + al + 1) lb (emit start (en - start) s)) as (s' & E & Hi); [cbn; lia|lia..|done|done|done|lia|].
      exists s'. split; [done|]. eapply produced_app, Hi; [exact Em|].
      intros x. specialize (Hpa x). specialize (Hpb x). iset.
Qed.

(** The entries of [l] that end behind [offset]. *)
Fixpoint ahead (offset : Z) (l : list (Z * Z)) : nat :=
  match l with
  | [] => 0
  | (f, k) :: l => ((if Z.ltb offset (f + k) then 1 else 0) + ahead offset l)%nat
  end.

Lemma ahead_le o o' l : o <= o' -> (ahead o' l <= ahead o l)%nat.
Proof. intros Ho. induction l as [|[f k] l IH]; cbn; [done|]. destruct (Z.ltb_spec o (f + k)), (Z.ltb_spec o' (f + k)); lia. Qed.

Lemma ahead_lt o o' l f k : (f, k) ∈ l -> o < f + k <= o' -> (ahead o' l < ahead o l)%nat.
Proof.
  intros Hin Ho. pose proof (ahead_le o o') as Hle. induction l as [|[g j] l IH]; [by apply not_elem_of_nil in Hin|]. cbn. specialize (Hle l ltac:(lia)).
  apply elem_of_cons in Hin as [[= -> ->]|Hin]; [|specialize (IH Hin)]; destruct (Z.ltb_spec o (g + j)), (Z.ltb_spec o' (g + j)); lia.
Qed.

Lemma ahead_len o l : (ahead o l <= length l)%nat.
Proof. induction l as [|[f k] l IH]; cbn; [done|]. destruct (Z.ltb o (f + k)); lia. Qed.

Lemma pass_spec lp ps x : 0 <= lp -> spaced lp ps ->
  exists ps0, ps = ps0 ++ pass x ps /\ (forall y, inside y ps0 -> y < x) /\ match pass x ps with [] => True | (f, k) :: _ => x < f + k end.
Proof.
  revert lp. induction ps as [|[f k] ps IH]; intros lp Hlp Hs; [exists []; split_and!; [done|by intros y []%inside_nil|done]|].
  cbn [pass fst snd]. rewrite (tadd_end lp ((f, k) :: ps)) by (done || by left). cbn in Hs. destruct Hs as (? & ? & ? & Hs). destruct (Z.leb_spec (f + k) x).
  - destruct (IH (f + k + 1) ltac:(lia) Hs) as (ps0 & E & Hy & Hp). exists ((f, k) :: ps0). split_and!; [cbn; congruence| |done].
    intros y [?|?%Hy]%inside_cons; lia.
  - exists []. split_and!; [done|by intros y []%inside_nil|lia].
Qed.

Section asym.
Context (l : list (Z * Z)) (Hl : spaced 0 l).

(** Where the loop stands: at the start of an entry of [ps], or at the end of
    one of [l]; what it has emitted ends before. *)
Definition stands (ps : list (Z * Z)) (offset n : Z) : Prop :=
  match ps with
  | [] => False
  | (sf, _) :: _ => (offset <= sf /\ n <= sf) \/ (~ inside offset l /\ n <= offset + 1)
  end.

Definition common (ps : list (Z * Z)) (offset x : Z) : Prop := inside x ps /\ inside x l /\ offset <= x.

(** The entry [find_inc] gives: the elements of [l] from [offset] on are in
    it or behind it. *)
Lemma find_inc_from offset :
  exists l1 l2, find_inc offset l = (l1, l2) /\ l = l1 ++ l2 /\ (forall x, offset <= x -> inside x l -> inside x l2) /\
    match l2 with [] => True | (f, k) :: _ => offset < f + k end.
Proof using Hl.
  destruct (find_inc_spec 0 l offset ltac:(lia) Hl) as (l1 & l2 & E & Hm & H1 & H2). exists l1, l2. split_and!; [done|done| |done].
  intros x Hx Hin. rewrite Hm in Hin. apply inside_app in Hin as [(f & k & Hin & ?)|]; [|done]. specialize (H1 _ _ Hin). lia.
Qed.

Lemma end_outside l1 f k l2 : l = l1 ++ (f, k) :: l2 -> ~ inside (f + k) l.
Proof using Hl.
  intros E Hin. rewrite E in Hl, Hin. apply spaced_app in Hl as [H1 (? & ? & ? & H2)].
  apply inside_app in Hin as [Hin|[?|Hin]%inside_cons]; [destruct (inside_range _ _ _ H1 Hin)| |destruct (inside_range _ _ _ H2 Hin)]; lia.
Qed.

(** Passing the entries of [ps] that end before the one of [l] found. *)
Lemma pass_stands ps lp offset n l1 lf ll l2 :
  0 <= lp -> spaced lp ps -> stands ps offset n -> l = l1 ++ (lf, ll) :: l2 -> (forall x, offset <= x -> inside x l -> inside x ((lf, ll) :: l2)) ->
  (forall x, common ps offset x <-> common (pass lf ps) offset x) /\ (length (pass lf ps) <= length ps)%nat /\
  match pass lf ps with [] => True | (sf, sl) :: _ => lf < sf + sl /\ stands (pass lf ps) offset n /\ exists lp', 0 <= lp' /\ spaced lp' (pass lf ps) end.
Proof using Hl.
  intros Hlp Hps Hst El Hfrom. destruct (pass_spec lp ps lf Hlp Hps) as (pd & Ep & Hpd & Hpass).
  pose proof Hl as Hl'. rewrite El in Hl'. apply spaced_app in Hl' as [_ (_ & ? & _ & Hl5)]. split_and!.
  - intros x. unfold common. rewrite Ep at 1. specialize (Hpd x). specialize (Hfrom x). rewrite El in Hfrom |- *.
    assert (inside x l2 -> lf + ll < x) by (intros Hx; destruct (inside_range _ _ _ Hl5 Hx); lia). iset.
  - rewrite Ep at 2. rewrite length_app. lia.
  - destruct (pass lf ps) as [|[sf sl] ps']; [done|]. subst ps. split_and!; [done| |].
    + destruct pd as [|[g j] pd]; [done|]. cbn in Hst, Hps |- *. destruct Hps as (? & ? & ? & [Hp1 (? & _)]%spaced_app). pose proof (next_ge _ _ Hp1).
      destruct Hst as [?|?]; [left; lia|by right].
    + apply spaced_app in Hps as [Hp1 Hps]. exists (next lp pd). pose proof (next_ge _ _ Hp1). split; [lia|done].
Qed.

(** The loop is right with so much fuel. *)
Definition asym_ok (fuel : nat) : Prop :=
  forall ps lp offset s, (length ps + ahead offset l < fuel)%nat -> 0 <= lp -> spaced lp ps -> acc_ok s -> stands ps offset (next 0 (is_map s)) ->
  exists s', asym_loop fuel l ps offset s = Ret s' /\ produced (common ps offset) s s'.

(** Going on at the start of the next entry of [ps], if there is one. *)
Lemma asym_resume fuel ps lo offset s s1 r0 (Q : Z -> Prop) :
  asym_ok fuel -> (length ps + ahead offset l < fuel)%nat -> offset <= lo -> 0 <= lo -> spaced lo ps -> acc_ok s1 -> next 0 (is_map s1) <= lo ->
  is_map s1 = is_map s ++ r0 -> (forall x, Q x <-> inside x r0 \/ inside x ps /\ inside x l) ->
  exists s', match ps with [] => Ret s1 | p :: _ => asym_loop fuel l ps p.1 s1 end = Ret s' /\ produced Q s s'.
Proof using.
  intros IH Hfuel Ho Hlo Hps Hs1 Hn Em HQ. destruct ps as [|[pf pl] ps].
  - exists s1. split; [done|]. eapply produced_app; [exact Em|exact HQ|]. apply produced_nil; [done|]. intros x (Hx & _). by eapply inside_nil.
  - pose proof Hps as (? & ? & ? & Hp). pose proof (ahead_le offset pf l ltac:(lia)).
    destruct (IH ((pf, pl) :: ps) lo pf s1) as (s' & E & Hpr); [cbn [length] in *; lia|done|done|done|left; lia|]. exists s'. split; [done|].
    eapply produced_app; [exact Em| |exact Hpr]. intros x. rewrite HQ. unfold common.
    assert (inside x ps -> pf + pl < x) by (intros Hx; destruct (inside_range _ _ _ Hp Hx); lia). iset.
Qed.

Lemma asym_loop_spec fuel : asym_ok fuel.
Proof using Hl.
  induction fuel as [|fuel IH]; intros ps0 lp0 offset s Hfuel Hlp0 Hps0 Hs Hst0; [lia|]. cbn [asym_loop].
  destruct (find_inc_from offset) as (l1 & l2 & -> & El & Hfrom & Hh). cbn [snd].
  destruct l2 as [|[lf ll] l2]; [exists s; split; [done|]; apply produced_nil; [done|]; intros x (_ & Hx & Ho); by eapply inside_nil, Hfrom|].
  destruct (pass_stands _ _ _ _ _ _ _ _ Hlp0 Hps0 Hst0 El Hfrom) as (Hcom & Hlen & Hp). destruct (pass lf ps0) as [|[sf sl] ps].
  { exists s. split; [done|]. apply produced_nil; [done|]. intros x (Hx & _)%Hcom. by eapply inside_nil. }
  destruct Hp as (Hpe & Hst & lp & Hlp & Hps).
  cbn [length] in Hlen. pose proof Hl as Hl'. rewrite El in Hl'. apply spaced_app in Hl' as [Hl1 Hl2]. pose proof (next_ge _ _ Hl1). pose proof Hl2 as (Hl3 & Hl4 & Hl5 & Hl6).
  pose proof Hps as (Hp1 & Hp2 & Hp3 & Hp4). set (n := next 0 (is_map s)) in *.
  assert (n <= Z.max sf lf /\ offset <= Z.max sf lf) as [Hn Ho].
  { destruct Hst as [?|[Hno ?]]; [lia|]. rewrite El in Hno. assert (~ (lf <= offset < lf + ll)) by (intros ?; apply Hno, inside_mid; by right). lia. }
  assert (tadd lf ll = lf + ll) as -> by (apply uw_small; unfold is_u; lia). assert (tadd sf sl = sf + sl) as -> by (apply uw_small; unfold is_u; lia).
  assert ((lf, ll) ∈ l) as Hinl by (rewrite El; apply elem_of_app; right; by left).
  assert (forall x, inside x l2 -> lf + ll < x) as Hx2 by (intros x Hx; destruct (inside_range _ _ _ Hl6 Hx); lia).
  assert (forall x, inside x ps -> sf + sl < x) as Hxp by (intros x Hx; destruct (inside_range _ _ _ Hp4 Hx); lia).
  cbv zeta. destruct (Z.leb_spec (lf + ll) sf).
  { pose proof (ahead_lt offset sf l lf ll Hinl ltac:(lia)). destruct (IH ((sf, sl) :: ps) lp sf s) as (s' & E & Hpr); [cbn [length]; lia|done|done|done|left; lia|].
    exists s'. split; [done|]. eapply produced_iff, Hpr. intros x. rewrite Hcom. specialize (Hxp x). unfold common. iset. }
  case_bool_decide as Heq.
  - injection Heq as -> ->. destruct (same_run_head lf ll ps l2 _ _ s Hps Hl2 Hs) as (r & ps' & pl' & s1 & lo & E1 & -> & -> & Hs1 & Em & Hlo & Hr & Hnr & Ha' & Hb'); [unfold n in *; lia|lia|].
    rewrite E1. rewrite length_app in Hlen. assert (next 0 (is_map s1) = lo) as Hn1 by (rewrite Em, next_app; cbn; lia).
    eapply (asym_resume fuel ps' lo offset s s1); [exact IH|lia|lia|lia|exact Ha'|exact Hs1|lia|exact Em|]. intros x. rewrite Hcom. unfold common.
    assert (inside x r -> x + 1 < lo) by (intros Hx; destruct (inside_range _ _ _ Hr Hx); lia).
    assert (inside x ps' -> lo <= x) by (intros Hx; destruct (inside_range _ _ _ Ha' Hx); lia).
    specialize (Hx2 x). specialize (Hxp x). specialize (Hfrom x). rewrite El in Hfrom |- *. iset.
  - set (start := Z.max sf lf) in *. set (en := Z.min (sf + sl) (lf + ll)). rewrite (proj2 (Z.ltb_lt start en)) by lia. cbn [rassert rbind].
    assert (tsub en start = en - start) as -> by (apply uw_small; unfold is_u; lia). set (s1 := emit start (en - start) s).
    destruct (emit_append start (en - start) s Hs) as [Hs1 Em]; [unfold n in *; lia|lia..|]. fold s1 in Hs1, Em. assert (next 0 (is_map s1) = en + 1) as Hn1 by (rewrite Em, next_app; cbn; lia).
    assert (forall x, inside x l -> offset <= x -> lf <= x) as Hge by (intros x Hx Hox; specialize (Hx2 x); specialize (Hfrom x Hox Hx); iset).
    destruct (Z.leb_spec (sf + sl) (lf + ll)).
    + eapply (asym_resume fuel ps (sf + sl + 1) offset s s1); [exact IH|lia|lia|lia|exact Hp4|exact Hs1|lia|exact Em|].
      intros x. rewrite Hcom. unfold common. specialize (Hxp x). specialize (Hge x). rewrite El in Hge |- *. iset.
    + pose proof (ahead_lt offset (lf + ll) l lf ll Hinl ltac:(lia)). pose proof (end_outside _ _ _ _ El) as Hout.
      destruct (IH ((sf, sl) :: ps) lp (lf + ll) s1) as (s' & E & Hpr); [cbn [length] in *; lia|done|done|done|right; split; [done|lia]|].
      exists s'. split; [done|]. eapply produced_app; [exact Em| |exact Hpr]. intros x. rewrite Hcom. unfold common.
      specialize (Hxp x). specialize (Hge x). specialize (Hfrom x). specialize (Hx2 x). rewrite El in Hge, Hfrom |- *. iset.
Qed.
End asym.

(** ** The operations on two sets *)

Lemma total_zero lo m : spaced lo m -> total m = 0 -> m = [].
Proof. destruct m as [|[f l] m]; [done|]. cbn. intros (? & ? & ? & Hs) ?. pose proof (total_nonneg _ _ Hs). lia. Qed.

Lemma clear_ok : iset_ok clear.
Proof. by apply iset_ok_intro. Qed.

Lemma clear_acc : acc_ok clear.
Proof. by constructor. Qed.

(** A loop from the empty set, what it produces within another set. *)
Lemma produced_set (P : Z -> Prop) s m : iset_ok m -> (forall x, P x -> inside x (is_map m)) -> produced P clear s ->
  iset_ok s /\ forall x, inside x (is_map s) <-> P x.
Proof.
  intros [Hm _ Ht] Hsub (r & Em & Hs & Hr). cbn in Em. rewrite Em. split; [|done]. eapply acc_iset; [done|exact Hm|done|]. intros x. rewrite Em, Hr. apply Hsub.
Qed.

Lemma sym_spec a b : iset_ok a -> iset_ok b ->
  exists s, sym_loop (S (length (is_map a) + length (is_map b))) (is_map a) (is_map b) clear = Ret s /\ iset_ok s /\
    forall x, inside x (is_map s) <-> inside x (is_map a) /\ inside x (is_map b).
Proof.
  intros Ha Hb. destruct (sym_loop_spec (S (length (is_map a) + length (is_map b))) (is_map a) (is_map b) 0 0 clear) as (s & E & Hp); [lia|lia|lia|apply Ha|apply Hb|exact clear_acc|done|].
  exists s. split; [done|]. eapply (produced_set _ _ a); [done|by intros x []|exact Hp].
Qed.

Lemma asym_spec s l : iset_ok s -> iset_ok l -> is_map s <> [] ->
  exists s', intersection_size_asym s l clear = Ret s' /\ iset_ok s' /\ forall x, inside x (is_map s') <-> inside x (is_map s) /\ inside x (is_map l).
Proof.
  intros Hs Hl Hne. unfold intersection_size_asym. destruct (is_map s) as [|[f k] m] eqn:Em; [done|]. pose proof Hs as [Hs' _ _]. rewrite Em in Hs'. cbn [fst].
  pose proof (ahead_len f (is_map l)).
  destruct (asym_loop_spec (is_map l) (io_map _ Hl) (S (length ((f, k) :: m) + length (is_map l))) ((f, k) :: m) 0 f clear) as (s' & E & Hp); [lia|lia|done|exact clear_acc|left; cbn in *; lia|].
  exists s'. split; [done|]. destruct (fun H => produced_set (common (is_map l) ((f, k) :: m) f) s' s Hs H Hp) as [Hok Hx]; [intros x (Hx & _); by rewrite Em|]. split; [done|]. intros x. rewrite Hx. unfold common.
  destruct Hs' as (? & ? & ? & Hs'). assert (inside x m -> f + k < x) by (intros Hin; destruct (inside_range _ _ _ Hs' Hin); lia). iset.
Qed.

Lemma intersection_of_spec a b : iset_ok a -> iset_ok b ->
  exists s, intersection_of a b = Ret s /\ iset_ok s /\ forall x, inside x (is_map s) <-> inside x (is_map a) /\ inside x (is_map b).
Proof.
  intros Ha Hb. unfold intersection_of.
  assert (forall s, iset_ok s -> is_size s = 0 -> is_map s = []) as Hz by (intros s [Hs E _] E0; eapply total_zero; [done|congruence]).
  destruct (is_size a <? is_size b).
  - destruct (Z.eqb_spec (is_size a) 0) as [E|E].
    { exists clear. split_and!; [done|exact clear_ok|]. intros x. rewrite (Hz a Ha E). pose proof (inside_nil x). cbn. tauto. }
    destruct (10 <=? _); [apply asym_spec; [done|done|]|by apply sym_spec]. intros Em. destruct Ha as [_ Es _]. rewrite Em in Es. done.
  - destruct (Z.eqb_spec (is_size b) 0) as [E|E].
    { exists clear. split_and!; [done|exact clear_ok|]. intros x. rewrite (Hz b Hb E). pose proof (inside_nil x). cbn. tauto. }
    destruct (10 <=? _); [|by apply sym_spec]. destruct (asym_spec b a) as (s & ? & ? & Hx); [done|done| |].
    + intros Em. destruct Hb as [_ Es _]. rewrite Em in Es. done.
    + exists s. split_and!; [done..|]. intros x. rewrite Hx. tauto.
Qed.

Lemma union_of_spec a b : iset_ok a -> iset_ok b -> total (is_map a) + total (is_map b) < 2 ^ 63 ->
  exists s, union_of a b = Ret s /\ iset_ok s /\ forall x, inside x (is_map s) <-> inside x (is_map a) \/ inside x (is_map b).
Proof.
  intros Ha Hb Ht. unfold union_of. destruct (intersection_of_spec a b Ha Hb) as (ab & -> & Hab & Hxab). cbn [rbind].
  destruct (subtract_spec ab a Hab Ha) as (s1 & -> & Hs1 & Hx1); [intros x; rewrite Hxab; tauto|]. cbn [rbind].
  assert (total (is_map s1) <= total (is_map a)) by (eapply total_subset; [apply Hs1|apply Ha|intros x; rewrite Hx1; tauto]).
  destruct (insert_set_spec b s1 Hb Hs1) as (s & -> & Hs & Hx); [lia|intros x ?; rewrite Hx1, Hxab; tauto|].
  exists s. split_and!; [done..|]. intros x. rewrite Hx, Hx1, Hxab, !inside_hits. lia.
Qed.

(** A set of one range. *)
Lemma one_spec start len : 0 <= start -> 0 < len < 2 ^ 63 -> start + len < 2 ^ 64 ->
  is_insert start len clear = Ret (IntervalSet len [(start, len)], (start, len)) /\ iset_ok (IntervalSet len [(start, len)]).
Proof.
  intros. unfold is_insert. rewrite (proj2 (Z.ltb_lt 0 len)) by lia. cbn. rewrite sw_small by (unfold is_s; lia).
  split; [done|]. apply iset_ok_intro; cbn; lia.
Qed.

Lemma inside_single x f l : inside x [(f, l)] <-> f <= x < f + l.
Proof. rewrite inside_cons. pose proof (inside_nil x). tauto. Qed.

Lemma intersects_spec start len s : iset_ok s -> 0 <= start -> 0 < len < 2 ^ 63 -> start + len < 2 ^ 64 ->
  exists b, intersects start len s = Ret b /\ (b = true <-> exists x, start <= x < start + len /\ inside x (is_map s)).
Proof.
  intros Hs H0 Hl Hw. unfold intersects. destruct (one_spec start len H0 Hl Hw) as [-> Ho]. cbn [rbind].
  destruct (intersection_of_spec s _ Hs Ho) as (i & -> & Hi & Hx). cbn [rbind]. eexists. split; [done|]. cbn [is_map] in Hx. unfold is_empty.
  destruct (is_map i) as [|[f l] m] eqn:Em; cbn [negb].
  - split; [done|]. intros (x & ? & ?). destruct (inside_nil x). apply Hx. by rewrite inside_single.
  - split; [intros _|done]. destruct Hi as [Hi _ _]. rewrite Em in Hi. cbn in Hi. exists f.
    destruct (proj1 (Hx f)) as [? Hin]; [apply inside_cons; left; lia|]. by apply inside_single in Hin.
Qed.

Lemma union_insert_spec off len s : iset_ok s -> 0 <= off -> 0 < len -> off + len < 2 ^ 64 -> total (is_map s) + len < 2 ^ 63 ->
  exists s', union_insert off len s = Ret s' /\ iset_ok s' /\ forall x, inside x (is_map s') <-> inside x (is_map s) \/ off <= x < off + len.
Proof.
  intros Hs ? ? ? ?. pose proof (total_nonneg _ _ (io_map _ Hs)). unfold union_insert. destruct (one_spec off len) as [-> Ho]; [lia..|]. cbn [rbind].
  destruct (union_of_spec s _ Hs Ho) as (s' & -> & Hs' & Hx); [cbn; lia|]. exists s'. split_and!; [done..|]. intros x. rewrite Hx. cbn [is_map]. by rewrite inside_single.
Qed.
