(* ===== verification/IntervalQueries.v ===== *)
(** * Inclusion and spans of sets of intervals *)

From S2P Require Import Prelude IntervalSet IntervalSpec IntervalSets.
Open Scope Z_scope.

(** ** Inclusion *)

Definition included (pa pb : list (Z * Z)) : Prop := forall x, inside x pa -> inside x pb.

Lemma catch_pass x pb : catch x pb = match pass x pb with [] => None | q :: pb' => Some (q :: pb') end.
Proof.
  induction pb as [|q pb IH]; cbn [catch pass]; [done|]. destruct (tadd q.1 q.2 <=? x); [|done]. destruct pb as [|q' pb]; [done|]. exact IH.
Qed.

Lemma equal_run_spec pa : forall pb, exists r pa' pb', equal_run pa pb = (pa', pb') /\ pa = r ++ pa' /\ pb = r ++ pb'.
Proof.
  induction pa as [|p pa IH]; intros pb; cbn [equal_run]; [by exists [], [], pb|]. destruct pb as [|q pb]; [by exists [], (p :: pa), []|].
  case_bool_decide; [subst q|by exists [], (p :: pa), (q :: pb)]. destruct (IH pb) as (r & pa' & pb' & E & -> & ->). by exists (p :: r), pa', pb'.
Qed.

(** A common prefix does not matter for inclusion. *)
Lemma included_app la lb r pa pb : spaced la (r ++ pa) -> spaced lb (r ++ pb) -> included (r ++ pa) (r ++ pb) <-> included pa pb.
Proof.
  intros [Hr Ha]%spaced_app [_ Hb]%spaced_app. unfold included. split; intros H x Hx.
  - specialize (H x). rewrite !inside_app in H. destruct H as [H|H]; [by right| |done].
    destruct (inside_range _ _ _ Hr H), (inside_range _ _ _ Ha Hx). lia.
  - rewrite inside_app in Hx |- *. destruct Hx as [|Hx]; [by left|right; by apply H].
Qed.

Lemma included_cons af al pa pb : included ((af, al) :: pa) pb <-> (forall x, af <= x < af + al -> inside x pb) /\ included pa pb.
Proof.
  unfold included. split.
  - intros H. split; intros x Hx; apply H, inside_cons; tauto.
  - intros [H1 H2] x [Hx|Hx]%inside_cons; auto.
Qed.

Lemma subset_loop_spec fuel : forall pa pb la lb, (length pa < fuel)%nat -> 0 <= la -> 0 <= lb -> spaced la pa -> spaced lb pb ->
  exists b, subset_loop fuel pa pb = Ret b /\ (b = true <-> included pa pb).
Proof.
  induction fuel as [|fuel IH]; intros pa pb la lb Hfuel Hla Hlb Ha Hb; [lia|]. cbn [subset_loop].
  destruct pa as [|[af al] pa]; [exists true; split; [done|]; split; [intros _ x []%inside_nil|done]|]. pose proof Ha as (Ha1 & Ha2 & Ha3 & Ha4). cbn [length] in Hfuel.
  assert (forall pb', ~ inside af pb' -> exists b, Ret false = Ret b /\ (b = true <-> included ((af, al) :: pa) pb')) as Hno.
  { intros pb' Hn. exists false. split; [done|]. split; [done|]. intros Hi. destruct Hn. apply Hi, inside_cons. left. lia. }
  destruct pb as [|q0 pb0]; [apply Hno, inside_nil|]. rewrite catch_pass. destruct (pass_spec lb (q0 :: pb0) af Hlb Hb) as (pd & Ep & Hpd & Hh).
  destruct (pass af (q0 :: pb0)) as [|[bf bl] pb].
  { rewrite Ep, app_nil_r. apply Hno. intros Hx%Hpd. lia. }
  rewrite Ep in Hb |- *. apply spaced_app in Hb as [Hd Hb]. pose proof (next_ge _ _ Hd). clear Ep q0 pb0.
  assert (included ((af, al) :: pa) (pd ++ (bf, bl) :: pb) <-> included ((af, al) :: pa) ((bf, bl) :: pb)) as Hdrop.
  { unfold included. split; intros Hi x Hx; specialize (Hi x Hx); [|apply inside_app; by right]. apply inside_app in Hi as [Hi%Hpd|]; [|done].
    apply inside_cons in Hx as [?|Hx]; [lia|]. destruct (inside_range _ _ _ Ha4 Hx). lia. }
  setoid_rewrite Hdrop. clear Hdrop. pose proof Hb as (Hb1 & Hb2 & Hb3 & Hb4).
  case_bool_decide as Heq.
  { injection Heq as <- <-. cbn [equal_run]. rewrite bool_decide_eq_true_2 by done. destruct (equal_run_spec pa pb) as (r & pa' & pb' & -> & -> & ->).
    pose proof Ha4 as [Hr Ha']%spaced_app. pose proof Hb4 as [_ Hb']%spaced_app. pose proof (next_ge _ _ Hr). rewrite length_app in Hfuel.
    destruct (IH pa' pb' (next (af + al + 1) r) (next (af + al + 1) r) ltac:(lia) ltac:(lia) ltac:(lia) Ha' Hb') as (b & E & Hi). exists b. split; [done|]. rewrite Hi. symmetry. by eapply (included_app _ _ ((af, al) :: r)). }
  destruct (Z.ltb_spec af bf).
  { apply Hno. intros [?|Hx]%inside_cons; [lia|]. destruct (inside_range _ _ _ Hb4 Hx). lia. }
  assert (tadd af al = af + al) as -> by (apply uw_small; unfold is_u; lia). assert (tadd bf bl = bf + bl) as -> by (apply uw_small; unfold is_u; lia).
  destruct (Z.ltb_spec (bf + bl) (af + al)).
  - exists false. split; [done|]. split; [done|]. intros Hi. specialize (Hi (bf + bl)). rewrite !inside_cons in Hi. destruct Hi as [?|Hx]; [left; lia|lia|].
    destruct (inside_range _ _ _ Hb4 Hx). lia.
  - destruct (IH pa ((bf, bl) :: pb) (af + al + 1) (next lb pd) ltac:(lia) ltac:(lia) ltac:(lia) Ha4 Hb) as (b & E & Hi). exists b. split; [done|]. rewrite Hi, included_cons.
    split; [intros ?; split; [|done]|by intros []]. intros x Hx. apply inside_cons. left. lia.
Qed.

Lemma contains_all_spec l : forall lo big, 0 <= lo -> spaced lo l -> iset_ok big ->
  exists b, contains_all_loop l big = Ret b /\ (b = true <-> included l (is_map big)).
Proof.
  induction l as [|[f k] l IH]; intros lo big Hlo Hs Hb; cbn [contains_all_loop].
  { exists true. split; [done|]. split; [intros _ x []%inside_nil|done]. }
  pose proof Hs as (? & ? & ? & Hs'). destruct (contains_range_spec big Hb f k) as (b & E & Hc); [lia..|]. cbn [fst snd]. rewrite E. cbn [rbind].
  destruct (IH (f + k + 1) big ltac:(lia) Hs' Hb) as (b' & E' & Hi). setoid_rewrite included_cons. destruct b.
  - exists b'. split; [done|]. rewrite Hi. split; [intros ?; split; [by apply Hc|done]|by intros []].
  - exists false. split; [done|]. split; [done|]. intros [? _]. by apply Hc.
Qed.

(** The end of the last interval. *)
Lemma range_end_spec s : iset_ok s -> is_map s <> [] ->
  exists e, range_end s = Ret e /\ inside (e - 1) (is_map s) /\ forall x, inside x (is_map s) -> x < e.
Proof.
  intros [Hs _ _] Hne. unfold range_end. pose proof (unsnoc_spec (is_map s)) as Hu. destruct (unsnoc (is_map s)) as [[m [f l]]|]; [|done]. rewrite Hu in Hs |- *.
  rewrite (tadd_end 0 (m ++ [(f, l)])) by (done || (apply elem_of_app; right; by left)). cbn [fst snd].
  apply spaced_app in Hs as [Hm (? & ? & ? & _)]. exists (f + l). split_and!; [done|apply inside_mid; right; lia|].
  intros x [Hx|Hx]%inside_app; [destruct (inside_range _ _ _ Hm Hx); lia|rewrite inside_single in Hx; lia].
Qed.

Lemma subset_of_spec s big : iset_ok s -> iset_ok big ->
  exists b, subset_of s big = Ret b /\ (b = true <-> included (is_map s) (is_map big)).
Proof.
  intros Hs Hb. unfold subset_of. pose proof Hs as [Hsm Hsz _]. pose proof Hb as [Hbm Hbz _]. pose proof (total_nonneg _ _ Hsm). destruct (Z.eqb_spec (is_size s) 0).
  { exists true. split; [done|]. rewrite (total_zero _ _ Hsm) by lia. split; [intros _ x []%inside_nil|done]. }
  destruct (Z.ltb_spec (is_size big) (is_size s)).
  { exists false. split; [done|]. split; [done|]. intros Hi. pose proof (total_subset _ _ _ _ Hsm Hbm Hi). lia. }
  destruct (range_end_spec s Hs) as (e & -> & He & _); [intros Em; rewrite Em in Hsz; cbn in Hsz; lia|]. cbn [rbind].
  destruct (range_end_spec big Hb) as (e' & -> & _ & He'); [intros Em; rewrite Em in Hbz; cbn in Hbz; lia|]. cbn [rbind].
  destruct (Z.ltb_spec e' e).
  { exists false. split; [done|]. split; [done|]. intros Hi. specialize (He' _ (Hi _ He)). lia. }
  destruct (_ <? 10); [eapply (subset_loop_spec _ _ _ 0 0); [lia|lia|lia|done|done]|by apply (contains_all_spec _ 0)].
Qed.

(** ** Neighbours *)

(** Outside a set, the start of the next interval is the next element. *)
Lemma start_after_spec s i : iset_ok s -> ~ inside i (is_map s) ->
  (starts_after i s = Ret false /\ start_after i s = Fault /\ forall x, inside x (is_map s) -> x < i) \/
  (exists f, starts_after i s = Ret true /\ start_after i s = Ret f /\ i < f /\ inside f (is_map s) /\ forall x, inside x (is_map s) -> x < i \/ f <= x).
Proof.
  intros Hs Hn. unfold starts_after, start_after, lacks. destruct (contains_spec_is s Hs i) as (o & -> & Ho).
  destruct o as [[f l]|]; [destruct Hn; exists f, l; done|]. cbn [rbind rassert]. clear Ho.
  destruct (find_inc_ok s Hs i) as (l1 & l2 & -> & Hm & H1 & H2 & Hi). cbn [snd]. destruct Hs as [Hsp _ _]. rewrite Hm in Hsp |- *.
  assert (forall x, inside x l1 -> x < i) as Hl1 by (intros x (f & l & Hin & ?); specialize (H1 _ _ Hin); lia).
  destruct l2 as [|[f l] l2]; [left|right].
  - split_and!; [done|done|]. intros x. rewrite app_nil_r. apply Hl1.
  - destruct (H2 _ _ _ eq_refl) as [? _]. apply spaced_app in Hsp as [_ (? & ? & ? & Hs2)]. exists f. split_and!; [done|done| | |].
    + destruct (Z.le_gt_cases f i); [|done]. destruct Hn. apply Hi. by exists f, l, l2.
    + apply inside_mid. right. lia.
    + intros x [Hx|[Hx|Hx]%inside_cons]%inside_app; [left; by apply Hl1|right; lia|right]. destruct (inside_range _ _ _ Hs2 Hx). lia.
Qed.

(** ** Spans *)

(** The first [len] elements from [start] on, or all of them. *)
Definition span (m : list (Z * Z)) (start len : Z) (s : interval_set) : Prop :=
  iset_ok s /\ (forall x, inside x (is_map s) -> inside x m /\ start <= x) /\
  (forall x y, inside y (is_map s) -> inside x m -> start <= x < y -> inside x (is_map s)) /\
  total (is_map s) <= len /\ (total (is_map s) = len \/ forall x, inside x m -> start <= x -> inside x (is_map s)).

(** Inserting behind the last interval. *)
Lemma is_insert_behind f l s : iset_ok s -> next 0 (is_map s) <= f -> 0 < l -> f + l < 2 ^ 64 -> total (is_map s) + l < 2 ^ 63 ->
  exists s' r, is_insert f l s = Ret (s', r) /\ iset_ok s' /\ is_map s' = is_map s ++ [(f, l)].
Proof.
  intros Hs Hn ? ? ?. pose proof Hs as [Hm _ _]. pose proof (next_ge _ _ Hm).
  destruct (is_insert_spec f l s Hs) as (s' & r & E & Hs' & Hx & _); [lia..| |].
  { intros x ? Hin. destruct (inside_range _ _ _ Hm Hin). lia. }
  exists s', r. split_and!; [done|done|]. eapply (spaced_unique 0 0); [apply Hs'|by apply spaced_mid|]. intros x. by rewrite Hx, inside_mid, app_nil_r.
Qed.

Lemma span_loop_spec p : forall lo len s, 0 <= lo -> spaced lo p -> 0 < len < 2 ^ 64 -> iset_ok s -> next 0 (is_map s) <= lo -> total (is_map s) + total p < 2 ^ 63 ->
  exists s' r, span_loop p len s = Ret s' /\ iset_ok s' /\ is_map s' = is_map s ++ r /\ included r p /\
    (forall x y, inside y r -> inside x p -> x < y -> inside x r) /\ total r <= len /\ (total r = len \/ r = p).
Proof.
  induction p as [|[f l] p IH]; intros lo len s Hlo Hp Hl Hs Hn Ht; cbn [span_loop].
  { exists s, []. rewrite app_nil_r. split_and!; [done|done|done|by intros x|by intros x y []%inside_nil|cbn; lia|by right]. }
  rewrite (proj2 (Z.ltb_lt 0 len)) by lia. pose proof Hp as (? & ? & ? & Hp'). pose proof (total_nonneg _ _ Hp'). cbn in Ht.
  destruct (Z.ltb_spec l len).
  - destruct (is_insert_behind f l s Hs) as (s1 & r1 & -> & Hs1 & Em1); [lia..|]. cbn [rbind]. assert (tsub len l = len - l) as -> by (apply uw_small; unfold is_u; lia).
    destruct (IH (f + l + 1) (len - l) s1 ltac:(lia) Hp' ltac:(lia) Hs1) as (s' & r & E & Hs' & Em & Hi & Hd & Hle & Hor).
    { rewrite Em1, next_app. cbn. lia. } { rewrite Em1, total_app. cbn. lia. }
    exists s', ((f, l) :: r). split_and!; [done|done|by rewrite Em, Em1, <- (assoc_L (++))| | |cbn; lia|].
    + intros x. specialize (Hi x). rewrite !inside_cons. tauto.
    + intros x y [Hy|Hy]%inside_cons [Hx|Hx]%inside_cons ?; apply inside_cons; [by left| |by left|right; by eapply Hd].
      destruct (inside_range _ _ _ Hp' Hx). lia.
    + destruct Hor as [?| ->]; [left; cbn; lia|by right].
  - destruct (is_insert_behind f len s Hs) as (s1 & r1 & -> & Hs1 & Em1); [lia..|]. cbn [rbind]. exists s1, [(f, len)]. split_and!; [done|done|done| | |cbn; lia|left; cbn; lia].
    + intros x. rewrite inside_single, inside_cons. lia.
    + intros x y. rewrite !inside_single. intros ? [?|Hx]%inside_cons ?; [lia|]. destruct (inside_range _ _ _ Hp' Hx). lia.
Qed.

(** [span_of] runs its loop over what is left of the set from [start] on. *)
Lemma span_of_loop other start len : iset_ok other -> 0 <= start -> 0 < len -> start + len < 2 ^ 64 ->
  exists q, span_of other start len = span_loop q len clear /\ spaced start q /\ total q < 2 ^ 63 /\
    forall x, inside x q <-> inside x (is_map other) /\ start <= x.
Proof.
  intros Ho H0 Hl Hw. unfold span_of. destruct (find_inc_ok other Ho start) as (l1 & l2 & -> & Hm & H1 & H2 & _). cbn [snd].
  pose proof Ho as [Hs _ Ht]. rewrite Hm in Hs, Ht |- *. pose proof Hs as [Hs1 Hs2]%spaced_app. pose proof (next_ge _ _ Hs1). rewrite total_app in Ht. pose proof (total_nonneg _ _ Hs1).
  assert (forall x, inside x l1 -> x < start) as Hl1 by (intros x (f & l & Hin & ?); specialize (H1 _ _ Hin); lia).
  destruct l2 as [|[f l] l2]; [exists []; split_and!; [done..|]; intros x; rewrite app_nil_r; specialize (Hl1 x); iset|].
  destruct (H2 _ _ _ eq_refl) as [Hlt ->]. pose proof Hs2 as (? & ? & ? & Hs3). cbn in Ht.
  assert (forall x, inside x l2 -> f + l < x) as Hl2 by (intros x Hx; destruct (inside_range _ _ _ Hs3 Hx); lia).
  destruct (Z.ltb_spec f start); [|exists ((f, l) :: l2); split_and!; [done|by cbn|cbn; lia|]; intros x; specialize (Hl1 x); specialize (Hl2 x); iset].
  rewrite (proj2 (Z.ltb_ge (f + l) start)) by lia. assert (tadd start len = start + len) as -> by (apply uw_small; unfold is_u; lia).
  assert (tsub l (tsub start f) = f + l - start) as -> by (unfold tsub; rewrite (uw_small 64 (start - f)) by (unfold is_u; lia); rewrite uw_small by (unfold is_u; lia); lia).
  exists ((start, f + l - start) :: l2). split_and!.
  - cbn [span_loop]. rewrite (proj2 (Z.ltb_lt 0 len)) by lia. destruct (Z.ltb_spec (f + l) (start + len)), (Z.ltb_spec (f + l - start) len); done || lia.
  - cbn. replace (start + (f + l - start) + 1) with (f + l + 1) by lia. split_and!; [lia..|done].
  - cbn. lia.
  - intros x. specialize (Hl1 x). specialize (Hl2 x). iset.
Qed.

Lemma span_of_spec other start len : iset_ok other -> 0 <= start -> 0 < len -> start + len < 2 ^ 64 ->
  exists s, span_of other start len = Ret s /\ span (is_map other) start len s.
Proof.
  intros Ho H0 Hl Hw. destruct (span_of_loop other start len Ho H0 Hl Hw) as (q & -> & Hq & Ht & Hx).
  destruct (span_loop_spec q start len clear H0 Hq ltac:(lia) clear_ok) as (s & r & E & Hs & Em & Hi & Hd & Hle & Hor); [cbn; lia|cbn; lia|].
  exists s. split; [done|]. cbn in Em. rewrite <- Em in *. split_and!; [done| | |done|].
  - intros x Hin. by apply Hx, Hi.
  - intros x y Hy Hm ?. eapply Hd; [exact Hy|apply Hx; split; [done|lia]|lia].
  - destruct Hor as [?| ->]; [by left|right]. intros x ??. by apply Hx.
Qed.

(** ** Erasing at an iterator *)

Lemma erase_at_spec i s f l : iset_ok s -> is_map s !! i = Some (f, l) ->
  exists s', erase_at i s = Ret s' /\ iset_ok s' /\ forall x, inside x (is_map s') <-> inside x (is_map s) /\ ~ (f <= x < f + l).
Proof.
  intros [Hs Hz Ht] Hi. unfold erase_at. rewrite Hi. cbn [deref rbind fst snd]. 
  assert (exists l1 l2, is_map s = l1 ++ (f, l) :: l2 /\ delete i (is_map s) = l1 ++ l2) as (l1 & l2 & Em & ->).
  { exists (take i (is_map s)), (drop (S i) (is_map s)). split; [by rewrite take_drop_middle|apply delete_take_drop]. }
  rewrite Em in Hs, Hz, Ht |- *. rewrite total_mid, total_app in Hz, Ht. pose proof Hs as [Hs1 (? & ? & ? & Hs2)]%spaced_app.
  pose proof (total_nonneg _ _ Hs1). pose proof (total_nonneg _ _ Hs2). rewrite sw_small by (unfold is_s; lia). rewrite (proj2 (Z.leb_le _ _)) by lia. cbn [rassert rbind].
  eexists. split; [done|]. split.
  - apply iset_ok_intro; [|rewrite total_app; lia..]. apply spaced_app. split; [done|]. eapply spaced_mono, Hs2. lia.
  - intros x. cbn [is_map]. rewrite inside_mid. assert (inside x l1 -> x + 1 < f) by (intros Hx; destruct (inside_range _ _ _ Hs1 Hx); lia).
    assert (inside x l2 -> f + l < x) by (intros Hx; destruct (inside_range _ _ _ Hs2 Hx); lia). iset.
Qed.
