(* ===== verification/IntervalTheorems.v ===== *)
(** * Theorems on sets of intervals *)

From S2P Require Import Prelude IntervalSet IntervalSpec IntervalSets IntervalQueries.
Open Scope Z_scope.

(** ** Sequences of operations against sets of numbers *)

Inductive set_op :=
  | OpClear
  | OpInsert (start len : Z)
  | OpErase (start len : Z)
  | OpUnionInsert (start len : Z)
  | OpInsertSet (b : interval_set)
  | OpSubtract (b : interval_set)
  | OpUnion (b : interval_set)
  | OpIntersection (b : interval_set).

Definition do_op (o : set_op) (s : interval_set) : res interval_set :=
  match o with
  | OpClear => Ret clear
  | OpInsert start len => '(s, _) <~ is_insert start len s;; Ret s
  | OpErase start len => is_erase start len unclaimed s
  | OpUnionInsert start len => union_insert start len s
  | OpInsertSet b => insert_set b s
  | OpSubtract b => subtract b s
  | OpUnion b => union_of s b
  | OpIntersection b => intersection_of s b
  end.

Fixpoint run_ops (ops : list set_op) (s : interval_set) : res interval_set :=
  match ops with
  | [] => Ret s
  | o :: ops => s <~ do_op o s;; run_ops ops s
  end.

Definition within (start len x : Z) : Prop := start <= x < start + len.
Definition elements (s : interval_set) (x : Z) : Prop := inside x (is_map s).

Definition spec_op (o : set_op) (P : Z -> Prop) : Z -> Prop :=
  match o with
  | OpClear => fun _ => False
  | OpInsert start len | OpUnionInsert start len => fun x => P x \/ within start len x
  | OpErase start len => fun x => P x /\ ~ within start len x
  | OpInsertSet b | OpUnion b => fun x => P x \/ elements b x
  | OpSubtract b => fun x => P x /\ ~ elements b x
  | OpIntersection b => fun x => P x /\ elements b x
  end.

(** Elements are bounded so that no count of them reaches [2^63]. *)
Definition bound : Z := 2 ^ 62 - 1.

Definition good_range (start len : Z) : Prop := 0 <= start /\ 0 < len /\ start + len <= bound.
Definition good_set (b : interval_set) : Prop := iset_ok b /\ forall x, elements b x -> x < bound.

Definition enabled (o : set_op) (P : Z -> Prop) : Prop :=
  match o with
  | OpClear => True
  | OpInsert start len => good_range start len /\ forall x, within start len x -> ~ P x
  | OpErase start len => 0 < len /\ forall x, within start len x -> P x
  | OpUnionInsert start len => good_range start len
  | OpInsertSet b => good_set b /\ forall x, elements b x -> ~ P x
  | OpSubtract b => good_set b /\ forall x, elements b x -> P x
  | OpUnion b | OpIntersection b => good_set b
  end.

Fixpoint spec_ops (ops : list set_op) (P : Z -> Prop) : Z -> Prop :=
  match ops with [] => P | o :: ops => spec_ops ops (spec_op o P) end.

Fixpoint enabled_ops (ops : list set_op) (P : Z -> Prop) : Prop :=
  match ops with [] => True | o :: ops => enabled o P /\ enabled_ops ops (spec_op o P) end.

(** The set represents the elements. *)
Definition represents (s : interval_set) (P : Z -> Prop) : Prop := good_set s /\ forall x, elements s x <-> P x.

Lemma good_total s : good_set s -> total (is_map s) <= bound.
Proof. intros [[Hs _ _] Hx]. pose proof (total_bound 0 bound _ Hs). unfold bound in *. apply (Z.le_trans _ (2 ^ 62 - 1 - 0)); [|lia]. apply H; [lia|exact Hx]. Qed.

Lemma represents_intro s P : iset_ok s -> (forall x, elements s x <-> P x) -> (forall x, P x -> x < bound) -> represents s P.
Proof. intros Hs Hx Hb. split; [|done]. split; [done|]. intros x ?%Hx. by apply Hb. Qed.

Lemma do_op_refines o s P : represents s P -> enabled o P -> exists s', do_op o s = Ret s' /\ represents s' (spec_op o P).
Proof.
  intros [Hg Hx] He. pose proof (good_total s Hg) as Ht. destruct Hg as [Hs Hb]. unfold bound in Ht.
  assert (forall x, P x -> x < bound) as HP by (intros x ?%Hx; by apply Hb).
  destruct o as [|start len|start len|start len|b|b|b|b]; cbn [do_op enabled spec_op] in *; unfold within, good_range, bound in He.
  - exists clear. split; [done|]. apply represents_intro; [exact clear_ok| |done]. intros x. split; [apply inside_nil|done].
  - destruct He as [? Hd]. destruct (is_insert_spec start len s Hs) as (s' & r & -> & Hs' & Hx' & _); [lia..|intros x ??; by eapply Hd, Hx|].
    exists s'. split; [done|]. apply represents_intro; [done| |]; intros x; unfold elements, within; [rewrite Hx'; by setoid_rewrite Hx|].
    intros [?%HP|?]; unfold bound in *; lia.
  - destruct He as [? Hd]. destruct (is_erase_spec start len unclaimed s Hs) as (f & l & s' & _ & -> & Hs' & Hx'); [lia|intros x ?; by apply Hx, Hd|].
    exists s'. split; [done|]. apply represents_intro; [done| |by intros x [?%HP _]]. intros x. unfold elements, within. rewrite Hx'. setoid_rewrite Hx. unfold unclaimed. naive_solver.
  - destruct (union_insert_spec start len s Hs) as (s' & -> & Hs' & Hx'); [lia..|]. exists s'. split; [done|].
    apply represents_intro; [done| |]; intros x; unfold elements, within; [rewrite Hx'; by setoid_rewrite Hx|]. intros [?%HP|?]; unfold bound in *; lia.
  - destruct He as [Hgb Hd]. pose proof (good_total b Hgb) as Htb. unfold bound in Htb. destruct Hgb as [Hob Hbb].
    destruct (insert_set_spec b s Hob Hs) as (s' & -> & Hs' & Hx'); [lia|intros x ??; by eapply Hd, Hx|]. exists s'. split; [done|].
    apply represents_intro; [done| |]; intros x; unfold elements; [rewrite Hx'; by setoid_rewrite Hx|]. intros [?%HP|?%Hbb]; done.
  - destruct He as [[Hob _] Hd]. destruct (subtract_spec b s Hob Hs) as (s' & -> & Hs' & Hx'); [intros x ?; by apply Hx, Hd|]. exists s'. split; [done|].
    apply represents_intro; [done| |by intros x [?%HP _]]. intros x. unfold elements. rewrite Hx'. by setoid_rewrite Hx.
  - pose proof (good_total b He) as Htb. unfold bound in Htb. destruct He as [Hob Hbb].
    destruct (union_of_spec s b Hs Hob) as (s' & -> & Hs' & Hx'); [lia|]. exists s'. split; [done|].
    apply represents_intro; [done| |]; intros x; unfold elements; [rewrite Hx'; by setoid_rewrite Hx|]. intros [?%HP|?%Hbb]; done.
  - destruct (intersection_of_spec s b Hs (proj1 He)) as (s' & -> & Hs' & Hx'). exists s'. split; [done|].
    apply represents_intro; [done| |by intros x [?%HP _]]. intros x. unfold elements. rewrite Hx'. by setoid_rewrite Hx.
Qed.

Lemma run_ops_refines ops : forall s P, represents s P -> enabled_ops ops P -> exists s', run_ops ops s = Ret s' /\ represents s' (spec_ops ops P).
Proof.
  induction ops as [|o ops IH]; intros s P Hr He; cbn in *; [by exists s|]. destruct He as [Ho He].
  destruct (do_op_refines o s P Hr Ho) as (s1 & -> & Hr1). cbn [rbind]. by apply IH.
Qed.

(** ** The theorems *)

(** C18. Sets of intervals implement sets of numbers: a sequence of clear,
    insert, erase, union_insert, insert and subtract of a set, union and
    intersection, each used as the interface asks for (what is inserted is not
    there, what is erased is), runs without a failed assertion.  Afterwards
    the map is sorted with a gap between any two intervals, the size is the
    number of elements, the elements are those of the set of numbers, and
    [contains] decides membership and gives the interval. *)
Theorem interval_set_refines (ops : list set_op) (i : Z) :
  enabled_ops ops (fun _ => False) ->
  exists s o, run_ops ops clear = Ret s /\ iset_ok s /\ (forall x, inside x (is_map s) <-> spec_ops ops (fun _ => False) x) /\
    is_contains i s = Ret o /\
    match o with Some (f, l) => (f, l) ∈ is_map s /\ f <= i < f + l | None => ~ spec_ops ops (fun _ => False) i end.
Proof.
  intros He. destruct (run_ops_refines ops clear (fun _ => False)) as (s & E & [Hs _] & Hx); [|done|].
  { apply represents_intro; [exact clear_ok| |done]. intros x. split; [apply inside_nil|done]. }
  destruct (contains_spec_is s Hs i) as (o & Ec & Ho). exists s, o. split_and!; try done. destruct o; [done|]. by rewrite <- (Hx i).
Qed.

Lemma interval_set_refines_witness :
  exists s o, run_ops [OpInsert 5 10; OpInsert 20 5; OpErase 7 2; OpUnionInsert 0 6; OpIntersection (IntervalSet 8 [(4, 8)])] clear = Ret s /\ iset_ok s /\
    (forall x, inside x (is_map s) <-> spec_ops [OpInsert 5 10; OpInsert 20 5; OpErase 7 2; OpUnionInsert 0 6; OpIntersection (IntervalSet 8 [(4, 8)])] (fun _ => False) x) /\
    is_contains 10 s = Ret o /\
    match o with Some (f, l) => (f, l) ∈ is_map s /\ f <= 10 < f + l
    | None => ~ spec_ops [OpInsert 5 10; OpInsert 20 5; OpErase 7 2; OpUnionInsert 0 6; OpIntersection (IntervalSet 8 [(4, 8)])] (fun _ => False) 10 end.
Proof.
  apply (interval_set_refines [OpInsert 5 10; OpInsert 20 5; OpErase 7 2; OpUnionInsert 0 6; OpIntersection (IntervalSet 8 [(4, 8)])] 10).
  cbn. unfold good_range, within, bound. split_and!; try (intros; lia); try done. split; [by apply iset_ok_intro; cbn; lia|].
  intros x Hx. unfold elements in Hx. cbn [is_map] in Hx. rewrite inside_single in Hx. unfold bound. lia.
Defined.

(** C19. The two ways to intersect agree, and so do the two ways to test
    inclusion: [intersection_size_asym], which looks up each interval of the
    smaller set, gives the set (intervals and size) that the walk over both
    gives; [subset_size_sym] and the lookups of [subset_of] give the same
    answer; and [subset_of], whichever it uses, decides inclusion. *)
Theorem interval_algorithms_agree (s l : interval_set) :
  iset_ok s -> iset_ok l -> is_map s <> [] ->
  intersection_size_asym s l clear = sym_loop (S (length (is_map s) + length (is_map l))) (is_map s) (is_map l) clear /\
  subset_size_sym s l = contains_all_loop (is_map s) l /\
  exists b, subset_of s l = Ret b /\ subset_size_sym s l = Ret b /\ (b = true <-> forall x, inside x (is_map s) -> inside x (is_map l)).
Proof.
  intros Hs Hl Hne. destruct (asym_spec s l Hs Hl Hne) as (s1 & -> & [H1 Hz1 _] & Hx1), (sym_spec s l Hs Hl) as (s2 & -> & [H2 Hz2 _] & Hx2).
  destruct (subset_loop_spec (S (length (is_map s) + length (is_map l))) (is_map s) (is_map l) 0 0) as (b & E & Hb); [lia|lia|lia|apply Hs|apply Hl|].
  destruct (contains_all_spec (is_map s) 0 l) as (b' & E' & Hb'); [lia|apply Hs|done|]. destruct (subset_of_spec s l Hs Hl) as (b'' & E'' & Hb'').
  unfold subset_size_sym. rewrite E, E', E''. split_and!.
  - assert (is_map s1 = is_map s2) as Em by (eapply spaced_unique; [done|done|intros x; by rewrite Hx1, Hx2]).
    f_equal. destruct s1, s2. cbn in *. congruence.
  - f_equal. apply eq_true_iff_eq. by rewrite Hb, Hb'.
  - exists b''. split_and!; [done| |done]. f_equal. apply eq_true_iff_eq. by rewrite Hb, Hb''.
Qed.

Lemma interval_algorithms_agree_witness :
  intersection_size_asym (IntervalSet 3 [(1, 1); (9, 2)]) (IntervalSet 40 [(0, 10); (20, 30)]) clear = Ret (IntervalSet 2 [(1, 1); (9, 1)]) /\
  subset_of (IntervalSet 3 [(1, 1); (9, 2)]) (IntervalSet 40 [(0, 10); (20, 30)]) = Ret false.
Proof.
  assert (iset_ok (IntervalSet 3 [(1, 1); (9, 2)])) as H1 by (apply iset_ok_intro; cbn; lia).
  assert (iset_ok (IntervalSet 40 [(0, 10); (20, 30)])) as H2 by (apply iset_ok_intro; cbn; lia).
  destruct (interval_algorithms_agree _ _ H1 H2 ltac:(done)) as (E & _ & b & Eb & Es & _). split; [rewrite E; reflexivity|]. rewrite Eb, <- Es. reflexivity.
Defined.

(** [span_of] takes the first [len] elements from [start] on: the result
    is a well-formed set of elements of the other that are not below [start],
    with every element it skips none of them; it has [len] of them, or all
    that there are. *)
Theorem span_of_first (other : interval_set) (start len : Z) :
  iset_ok other -> 0 <= start -> 0 < len -> start + len < 2 ^ 64 ->
  exists s, span_of other start len = Ret s /\ iset_ok s /\ (forall x, inside x (is_map s) -> inside x (is_map other) /\ start <= x) /\
    (forall x y, inside y (is_map s) -> inside x (is_map other) -> start <= x < y -> inside x (is_map s)) /\
    is_size s <= len /\ (is_size s = len \/ forall x, inside x (is_map other) -> start <= x -> inside x (is_map s)).
Proof.
  intros Ho ???. destruct (span_of_spec other start len) as (s & E & Hs & Hin & Hini & Hle & Hall); [done..|]. exists s.
  rewrite (io_size _ Hs). by split_and!.
Qed.

(** The example of the comment on [span_of]. *)
Lemma span_of_first_witness :
  exists s, span_of (IntervalSet 15 [(5, 10); (20, 5)]) 8 5 = Ret s /\ s = IntervalSet 5 [(8, 5)] /\ is_size s <= 5.
Proof.
  destruct (span_of_first (IntervalSet 15 [(5, 10); (20, 5)]) 8 5) as (s & E & _ & _ & _ & Hle & _); [apply iset_ok_intro; cbn; lia|lia|lia|lia|].
  exists s. split_and!; [done| |done]. vm_compute in E. by injection E as <-.
Defined.

(** Decide a comparison that arithmetic decides. *)
Ltac case_cmp :=
  match goal with
  | |- context [?a <? ?b] => destruct (Z.ltb_spec a b); try lia
  | |- context [?a =? ?b] => destruct (Z.eqb_spec a b); try lia
  end.

(** [insert] does not notice every overlap: a range that starts where an
    interval ends and reaches over the start of the next one is appended.
    The map then holds two intervals that overlap, and the size counts the
    common elements twice.  Where no interval ends at its start, the same
    overlap fails the assertion. *)
Theorem insert_misses_overlap (f l nf nl len : Z) :
  0 <= f -> 0 < l -> f + l < nf < f + l + len -> 0 < nl -> nf + nl < 2 ^ 64 -> f + l + len < 2 ^ 64 -> l + nl + len < 2 ^ 63 ->
  iset_ok (IntervalSet (l + nl) [(f, l); (nf, nl)]) /\
  is_insert (f + l) len (IntervalSet (l + nl) [(f, l); (nf, nl)]) = Ret (IntervalSet (l + nl + len) [(f, l + len); (nf, nl)], (f, l + len)) /\
  ~ iset_ok (IntervalSet (l + nl + len) [(f, l + len); (nf, nl)]) /\
  inside nf [(f, l + len)] /\ inside nf [(nf, nl)] /\
  is_insert (f + l) len (IntervalSet nl [(nf, nl)]) = Fault.
Proof.
  intros. assert (forall a b, 0 <= a + b < 2 ^ 64 -> tadd a b = a + b) as Ht by (intros; by apply uw_small).
  split_and!; [apply iset_ok_intro; cbn; lia| | |rewrite inside_single; lia|rewrite inside_single; lia|].
  - unfold is_insert, find_adj. cbn. repeat (case_cmp; cbn; rewrite ?Ht by lia). rewrite sw_small by (unfold is_s; lia). done.
  - intros [Hs _ _]. cbn in Hs. lia.
  - unfold is_insert, find_adj. cbn. by repeat (case_cmp; cbn; rewrite ?Ht by lia).
Qed.

Lemma insert_misses_overlap_witness :
  is_insert 5 10 (IntervalSet 7 [(0, 5); (8, 2)]) = Ret (IntervalSet 17 [(0, 15); (8, 2)], (0, 15)) /\ ~ iset_ok (IntervalSet 17 [(0, 15); (8, 2)]).
Proof. destruct (insert_misses_overlap 0 5 8 2 10) as (_ & E & Hn & _); [lia..|]. by split. Defined.
