(* ===== verification/PgTypes.v ===== *)
(** * Placement groups (src/src/osd/osd_types.h, osd_types.cc,
    src/src/include/rados.h)

    [pg_t] and the part of [pg_pool_t] that maps hashes to placement groups
    and placement groups to CRUSH inputs: [ceph_stable_mod], splitting and
    merging, and the range of the store a placement group covers. *)

From stdpp Require Import gmap.
From S2P Require Import Prelude CrushHash Bits Encoding Hobject.
Open Scope Z_scope.

(** ** rados.h *)

(** The arguments are of type [int]. *)
Definition ceph_stable_mod (x b bmask : Z) : Z :=
  let x := s32 x in
  let b := s32 b in
  let bmask := s32 bmask in
  if Z.land x bmask <? b then Z.land x bmask else Z.land x (Z.shiftr bmask 1).

(** [(1 << bits) - 1] in [int]; [1 << 31] is [INT_MIN] and one less overflows. *)
Definition int_mask (bits : Z) : res Z := if 31 <=? bits then Fault else Ret (Z.shiftl 1 bits - 1).

(** ** pg_t *)

Record pg_t := Pg {
  m_pool : Z;
  m_seed : Z;
}.

#[export] Instance pg_eq_dec : EqDecision pg_t.
Proof. solve_decision. Defined.

#[export] Instance pg_countable : Countable pg_t :=
  inj_countable' (fun p => (m_pool p, m_seed p)) (fun p => Pg p.1 p.2) ltac:(by intros []).

(** The constructor takes the seed first. *)
Definition mk_pg (seed pool : Z) : pg_t := Pg pool seed.

Definition ps (p : pg_t) : Z := m_seed p.
Definition pg_pool (p : pg_t) : Z := s64 (m_pool p).
Definition set_ps (p : pg_t) (s : Z) : pg_t := Pg (m_pool p) s.

Definition pg_ltb (l r : pg_t) : bool :=
  (pg_pool l <? pg_pool r) || ((pg_pool l =? pg_pool r) && (ps l <? ps r)).

Definition pg_eqb (l r : pg_t) : bool := (pg_pool l =? pg_pool r) && (ps l =? ps r).

Definition get_ancestor (p : pg_t) (old_pg_num : Z) : res pg_t :=
  let old_bits := cbits old_pg_num in
  old_mask <~ int_mask old_bits;;
  Ret (set_ps p (u32 (ceph_stable_mod (m_seed p) old_pg_num old_mask))).

(** [for (unsigned n = 1; ; n++)] of [is_split]; the result is [split] and
    [children]. *)
Fixpoint split_loop (fuel : nat) (p : pg_t) (old_pg_num new_pg_num old_bits old_mask n : Z)
    (split : bool) (children : option (gset pg_t)) : res (bool * option (gset pg_t)) :=
  match fuel with
  | O => NoFuel
  | S fuel =>
      let next_bit := u32 (Z.shiftl n (old_bits - 1)) in
      let s := Z.lor next_bit (m_seed p) in
      if (s <? old_pg_num) || (s =? m_seed p)
      then split_loop fuel p old_pg_num new_pg_num old_bits old_mask (u32 (n + 1)) split children
      else if new_pg_num <=? s then Ret (split, children)
      else if u32 (ceph_stable_mod s old_pg_num old_mask) =? m_seed p
      then split_loop fuel p old_pg_num new_pg_num old_bits old_mask (u32 (n + 1)) true
             ((fun c => {[mk_pg s (m_pool p)]} ∪ c) <$> children)
      else split_loop fuel p old_pg_num new_pg_num old_bits old_mask (u32 (n + 1)) split children
  end.

(** The loop ends before [n] exceeds [new_pg_num]. *)
Definition is_split (p : pg_t) (old_pg_num new_pg_num : Z) (children : option (gset pg_t))
    : res (bool * option (gset pg_t)) :=
  if old_pg_num <=? m_seed p then Ret (false, children) else
  if new_pg_num <=? old_pg_num then Ret (false, children) else
  let old_bits := cbits old_pg_num in
  old_mask <~ int_mask old_bits;;
  split_loop (Z.to_nat new_pg_num) p old_pg_num new_pg_num old_bits (u32 old_mask) 1 false children.

Definition get_split_bits (p : pg_t) (pg_num : Z) : res Z :=
  if pg_num =? 1 then Ret 0 else
  _ <~ rassert (1 <? pg_num);;
  let b := cbits pg_num in
  _ <~ rassert (negb (b =? 0));;
  let d := u32 (Z.shiftl 1 (b - 1)) in
  Ret (if m_seed p mod d <? pg_num mod d then b else b - 1).

Definition get_parent (p : pg_t) : res pg_t :=
  let bits := cbits (m_seed p) in
  _ <~ rassert (negb (bits =? 0));;
  Ret (set_ps p (Z.land (m_seed p) (u32 (Z.lnot (Z.shiftl (-1) (bits - 1)))))).

(** [while (t.m_seed >= new_pg_num)] *)
Fixpoint merge_loop (fuel : nat) (t : pg_t) (new_pg_num : Z) : res pg_t :=
  match fuel with
  | O => NoFuel
  | S fuel =>
      if new_pg_num <=? m_seed t then t <~ get_parent t;; merge_loop fuel t new_pg_num else Ret t
  end.

(** The second component is [*parent] on return; a turn of the loop drops a
    bit of the 32 of the seed. *)
Definition is_merge_source (p : pg_t) (old_pg_num new_pg_num : Z) : res (bool * option pg_t) :=
  if (m_seed p <? old_pg_num) && (new_pg_num <=? m_seed p) then
    t <~ merge_loop 33 p new_pg_num;;
    Ret (true, Some t)
  else Ret (false, None).

Definition is_merge_target (p : pg_t) (old_pg_num new_pg_num : Z) : res bool :=
  if ps p <? new_pg_num then '(b, _) <~ is_split p new_pg_num old_pg_num None;; Ret b else Ret false.

Definition contains (p : pg_t) (bits : Z) (o : hobject_t) : res bool :=
  if pg_pool p =? get_logical_pool o then hobject_match o bits (ps p) else Ret false.

Definition get_hobj_start (p : pg_t) : hobject_t := mk_hobject [] [] 0 (m_seed p) (pg_pool p) [].

Definition get_hobj_end (p : pg_t) (pg_num : Z) : res hobject_t :=
  bits <~ get_split_bits p pg_num;;
  let rev_start := reverse_bits (m_seed p) in
  let rev_end := Z.lor rev_start (Z.shiftr 0xffffffff bits) + 1 in
  if 0x100000000 <=? rev_end then
    _ <~ rassert (rev_end =? 0x100000000);;
    Ret hobject_get_max
  else Ret (mk_hobject [] [] CEPH_NOSNAP (reverse_bits rev_end) (pg_pool p) []).

Definition pg_bytes (p : pg_t) : bytes :=
  encode_u8 1 ++ encode_u64 (m_pool p) ++ encode_u32 (m_seed p) ++ encode_s32 (-1).

Definition pg_decode : decoder pg_t :=
  v <-d decode_u8;;
  pool <-d decode_u64;;
  seed <-d decode_u32;;
  _ <-d advance 4;;
  dret (Pg pool seed).

(** ** pg_pool_t *)

Definition FLAG_HASHPSPOOL : Z := Z.shiftl 1 0.
Definition TYPE_REPLICATED : Z := 1.
Definition TYPE_ERASURE : Z := 3.

(** The fields the mapping uses. *)
Record pg_pool_t := PgPool {
  p_flags : Z;
  p_type : Z;
  p_size : Z;
  p_min_size : Z;
  p_crush_rule : Z;
  p_object_hash : Z;
  p_pg_num : Z;
  p_pgp_num : Z;
  p_pg_num_pending : Z;
  p_pg_num_mask : Z;
  p_pgp_num_mask : Z;
}.

Definition calc_pg_masks (pl : pg_pool_t) : res pg_pool_t :=
  m1 <~ int_mask (cbits (u32 (p_pg_num pl - 1)));;
  m2 <~ int_mask (cbits (u32 (p_pgp_num pl - 1)));;
  Ret (PgPool (p_flags pl) (p_type pl) (p_size pl) (p_min_size pl) (p_crush_rule pl) (p_object_hash pl)
         (p_pg_num pl) (p_pgp_num pl) (p_pg_num_pending pl) m1 m2).

Definition can_shift_osds (pl : pg_pool_t) : res bool :=
  if p_type pl =? TYPE_REPLICATED then Ret true
  else if p_type pl =? TYPE_ERASURE then Ret false
  else Fault.

Definition get_pg_num_divisor (pl : pg_pool_t) (pgid : pg_t) : Z :=
  if p_pg_num pl =? u32 (p_pg_num_mask pl + 1) then p_pg_num pl else
  let mask := Z.shiftr (p_pg_num_mask pl) 1 in
  if Z.land (ps pgid) mask <? Z.land (p_pg_num pl) mask
  then u32 (p_pg_num_mask pl + 1)
  else Z.shiftr (u32 (p_pg_num_mask pl + 1)) 1.

(** [for (unsigned ps = pg_num_pending; ps < pg_num; ++ps)]; [n] is
    [pg_num - ps]. *)
Fixpoint pending_loop (n : nat) (s : Z) (pgid : pg_t) : res bool :=
  match n with
  | O => Ret false
  | S n =>
      parent <~ get_parent (mk_pg s (u64 (pg_pool pgid)));;
      if pg_eqb parent pgid then Ret true else pending_loop n (s + 1) pgid
  end.

(** The second component is [*target], where it is set. *)
Definition is_pending_merge (pl : pg_pool_t) (pgid : pg_t) : res (bool * option bool) :=
  if p_pg_num pl <=? p_pg_num_pending pl then Ret (false, None) else
  if (p_pg_num_pending pl <=? ps pgid) && (ps pgid <? p_pg_num pl) then Ret (true, Some false) else
  b <~ pending_loop (Z.to_nat (p_pg_num pl - p_pg_num_pending pl)) (p_pg_num_pending pl) pgid;;
  Ret (b, if (b : bool) then Some true else None).

Definition raw_hash_to_pg (pl : pg_pool_t) (v : Z) : Z := u32 (ceph_stable_mod v (p_pg_num pl) (p_pg_num_mask pl)).

Definition raw_pg_to_pg (pl : pg_pool_t) (pg : pg_t) : pg_t :=
  set_ps pg (u32 (ceph_stable_mod (ps pg) (p_pg_num pl) (p_pg_num_mask pl))).

Definition raw_pg_to_pps (pl : pg_pool_t) (pg : pg_t) : Z :=
  if negb (Z.land (p_flags pl) FLAG_HASHPSPOOL =? 0) then
    crush_hash32_2 CRUSH_HASH_RJENKINS1
      (u32 (ceph_stable_mod (ps pg) (p_pgp_num pl) (p_pgp_num_mask pl))) (u32 (pg_pool pg))
  else u32 (ceph_stable_mod (ps pg) (p_pgp_num pl) (p_pgp_num_mask pl) + pg_pool pg).

Definition get_random_pg_position (pl : pg_pool_t) (pg : pg_t) (seed : Z) : Z :=
  let r := crush_hash32_2 CRUSH_HASH_RJENKINS1 seed 123 in
  let r :=
    if p_pg_num pl =? u32 (p_pg_num_mask pl + 1) then Z.land r (u32 (Z.lnot (p_pg_num_mask pl)))
    else
      let smaller_mask := Z.shiftr (p_pg_num_mask pl) 1 in
      if Z.land (ps pg) smaller_mask <? Z.land (p_pg_num pl) smaller_mask
      then Z.land r (u32 (Z.lnot (p_pg_num_mask pl)))
      else Z.land r (u32 (Z.lnot smaller_mask)) in
  Z.lor r (ps pg).
