(* ===== verification/PgMap.v ===== *)
(** * The mapping of hashes to placement groups

    [bin b x] is the placement group of a hash among [b]: the low bits of the
    hash, one bit fewer where that many groups do not exist.  The code
    computes it with either of two masks; the lemmas relate splitting,
    merging, the split bits and the object range of a group to it. *)

From stdpp Require Import gmap.
From S2P Require Import Prelude CrushHash Bits Encoding Hobject HobjectOrder PgTypes.
Open Scope Z_scope.

Definition bin (b x : Z) : Z :=
  let k := cbits b in
  if x mod 2 ^ k <? b then x mod 2 ^ k else x mod 2 ^ (k - 1).

(** A number of groups the masks of type [int] allow. *)
Definition num_ok (b : Z) : Prop := 0 < b < 2 ^ 30.

(** [2 ^ k - 1] is a mask for [b] groups. *)
Definition covers (b k : Z) : Prop := 0 <= k <= 30 /\ b <= 2 ^ k /\ (0 < k -> 2 ^ (k - 1) <= b).

Lemma pow2_half k : 0 < k -> 2 ^ k = 2 * 2 ^ (k - 1).
Proof. intros. rewrite <- Z.pow_succ_r by lia. f_equal. lia. Qed.

Lemma covers_cbits b : num_ok b -> covers b (cbits b).
Proof.
  intros [Hb Hb']. destruct (cbits_bounds b Hb) as (H1 & H2 & H3).
  split; [|lia]. pose proof (cbits_le b 30). lia.
Qed.

Lemma covers_pred b : num_ok b -> covers b (cbits (b - 1)).
Proof.
  intros [Hb Hb']. destruct (Z.eq_dec b 1) as [->|]; [unfold covers; change (cbits (1 - 1)) with 0; lia|].
  destruct (cbits_bounds (b - 1)) as (H1 & H2 & H3); [lia|].
  split; [|lia]. pose proof (cbits_le (b - 1) 30). lia.
Qed.

(** ** ceph_stable_mod *)

Lemma s32_mod x k : 0 <= k <= 32 -> s32 x mod 2 ^ k = x mod 2 ^ k.
Proof.
  intros Hk. unfold sw. change (32 - 1) with 31. assert (2 ^ 32 = 2 ^ k * 2 ^ (32 - k)) as E by (rewrite <- Z.pow_add_r; f_equal; lia).
  rewrite (Z.mod_eq (x + 2 ^ 31) (2 ^ 32)) by lia. set (q := (x + 2 ^ 31) / 2 ^ 32).
  replace (x + 2 ^ 31 - 2 ^ 32 * q - 2 ^ 31) with (x + (- (2 ^ (32 - k) * q)) * 2 ^ k) by (rewrite E; ring).
  apply Z.mod_add. lia.
Qed.

Lemma mod_half x k : 0 < k -> x mod 2 ^ k = x mod 2 ^ (k - 1) \/ x mod 2 ^ k = 2 ^ (k - 1) + x mod 2 ^ (k - 1).
Proof.
  intros Hk. rewrite (pow2_half k), (Z.mul_comm 2) by done. rewrite Z.rem_mul_r by lia.
  pose proof (Z.mod_pos_bound (x / 2 ^ (k - 1)) 2).
  assert ((x / 2 ^ (k - 1)) mod 2 = 0 \/ (x / 2 ^ (k - 1)) mod 2 = 1) as [-> | ->] by lia; [left|right]; lia.
Qed.

Lemma mod_mod_pow2 x j k : 0 <= j <= k -> (x mod 2 ^ k) mod 2 ^ j = x mod 2 ^ j.
Proof.
  intros Hj. replace (2 ^ k) with (2 ^ j * 2 ^ (k - j)) by (rewrite <- Z.pow_add_r; f_equal; lia).
  rewrite Z.rem_mul_r by lia. rewrite (Z.mul_comm (2 ^ j)), Z.mod_add by lia. by rewrite Z.mod_mod by lia.
Qed.

Lemma stable_mod_mask x b k :
  num_ok b -> covers b k ->
  ceph_stable_mod x b (2 ^ k - 1) = if x mod 2 ^ k <? b then x mod 2 ^ k else x mod 2 ^ (k - 1).
Proof.
  intros [Hb Hb'] (Hk & Hle & Hge). unfold ceph_stable_mod.
  assert (2 ^ k <= 2 ^ 30) by (apply Z.pow_le_mono_r; lia). pose proof (Z.pow_pos_nonneg 2 k).
  rewrite (sw_small 32 b), (sw_small 32 (2 ^ k - 1)) by (lia || (split; lia)).
  rewrite land_mask, s32_mod by lia. destruct (Z.ltb_spec (x mod 2 ^ k) b) as [|Hge']; [done|].
  destruct (Z.eq_dec k 0) as [->|]; [pose proof (Z.mod_pos_bound x (2 ^ 0)); lia|].
  by rewrite half_mask, land_mask, s32_mod by lia.
Qed.

(** Either mask computes the bin. *)
Lemma stable_mod_bin x b k : num_ok b -> covers b k -> ceph_stable_mod x b (2 ^ k - 1) = bin b x.
Proof.
  intros Hb Hk. rewrite stable_mod_mask by done. unfold bin.
  destruct Hk as (Hk & Hle & Hge). pose proof (covers_cbits b Hb) as (Hc & _ & _). destruct Hb as [Hb Hb'].
  destruct (cbits_bounds b Hb) as (Hc0 & Hc1 & Hc2). set (c := cbits b) in *.
  assert (k = c \/ (k = c - 1 /\ b = 2 ^ k)) as [->|[-> E]].
  { destruct (Z.lt_trichotomy k c) as [Hlt|[|Hlt]]; [|by left|].
    - assert (2 ^ k <= 2 ^ (c - 1)) by (apply Z.pow_le_mono_r; lia).
      assert (b = 2 ^ k) by lia. right. split; [|done]. apply (Z.pow_inj_r 2); lia.
    - assert (2 ^ c <= 2 ^ (k - 1)) by (apply Z.pow_le_mono_r; lia). lia. }
  { done. }
  pose proof (Z.mod_pos_bound x (2 ^ (c - 1))). destruct (Z.ltb_spec (x mod 2 ^ (c - 1)) b); [|lia].
  destruct (Z.ltb_spec (x mod 2 ^ c) b); [|done]. destruct (mod_half x c) as [->|E']; [lia|done|lia].
Qed.

Lemma bin_range b x : 0 < b -> 0 <= bin b x < b.
Proof.
  intros Hb. destruct (cbits_bounds b Hb) as (H0 & H1 & H2). unfold bin.
  pose proof (Z.mod_pos_bound x (2 ^ cbits b)). pose proof (Z.mod_pos_bound x (2 ^ (cbits b - 1))). case_bool; zbool; lia.
Qed.

Lemma bin_small b x : 0 <= x < b -> bin b x = x.
Proof.
  intros Hx. destruct (cbits_bounds b) as (H0 & H1 & H2); [lia|]. unfold bin.
  rewrite Z.mod_small by lia. destruct (Z.ltb_spec x b); lia.
Qed.

Lemma cbits_mono a b : 0 < a <= b -> cbits a <= cbits b.
Proof. intros. rewrite !cbits_pos by lia. pose proof (Z.log2_le_mono a b). lia. Qed.

(** Fewer groups: the group of a hash is the ancestor of its group among more. *)
Lemma bin_bin a b x : 0 < a <= b -> bin a (bin b x) = bin a x.
Proof.
  intros Hab. destruct (cbits_bounds a) as (Ha0 & Ha1 & Ha2), (cbits_bounds b) as (Hb0 & Hb1 & Hb2); [lia..|].
  pose proof (cbits_mono a b Hab). set (ka := cbits a) in *. set (kb := cbits b) in *.
  assert (forall j, ka <= j -> bin a (x mod 2 ^ j) = bin a x) as Hhi.
  { intros j Hj. unfold bin. fold ka. by rewrite !mod_mod_pow2 by lia. }
  unfold bin at 2. fold kb. destruct (Z.ltb_spec (x mod 2 ^ kb) b) as [|Hge]; [by apply Hhi|].
  destruct (Z.le_gt_cases ka (kb - 1)); [by apply Hhi|]. assert (ka = kb) as E by lia.
  pose proof (Z.mod_pos_bound x (2 ^ (kb - 1))). rewrite bin_small by (rewrite E in *; lia).
  unfold bin. fold ka. rewrite E. destruct (Z.ltb_spec (x mod 2 ^ kb) a); [lia|done].
Qed.

(** ** get_ancestor, and the hash to group functions *)

Lemma int_mask_spec k : 0 <= k < 31 -> int_mask k = Ret (2 ^ k - 1).
Proof. intros Hk. unfold int_mask. destruct (Z.leb_spec 31 k); [lia|]. by rewrite Z.shiftl_1_l. Qed.

Lemma u32_bin b x : num_ok b -> u32 (bin b x) = bin b x.
Proof. intros [H1 H2]. apply uw_small. pose proof (bin_range b x H1). split; lia. Qed.

Lemma get_ancestor_spec p b : num_ok b -> get_ancestor p b = Ret (set_ps p (bin b (m_seed p))).
Proof.
  intros Hb. unfold get_ancestor. pose proof (covers_cbits b Hb) as Hc. rewrite int_mask_spec by (destruct Hc; lia).
  cbn [rbind]. by rewrite stable_mod_bin, u32_bin.
Qed.

(** The masks of a pool are those [calc_pg_masks] computes. *)
Record wf_pool (pl : pg_pool_t) : Prop := WfPool {
  wfp_pg_num : num_ok (p_pg_num pl);
  wfp_pgp_num : num_ok (p_pgp_num pl);
  wfp_pg_mask : p_pg_num_mask pl = 2 ^ cbits (p_pg_num pl - 1) - 1;
  wfp_pgp_mask : p_pgp_num_mask pl = 2 ^ cbits (p_pgp_num pl - 1) - 1;
}.

Lemma calc_pg_masks_wf pl :
  num_ok (p_pg_num pl) -> num_ok (p_pgp_num pl) ->
  exists pl', calc_pg_masks pl = Ret pl' /\ wf_pool pl' /\ p_pg_num pl' = p_pg_num pl /\ p_pgp_num pl' = p_pgp_num pl.
Proof.
  intros Hn Hn'. unfold calc_pg_masks. destruct (covers_pred _ Hn) as [Hk _], (covers_pred _ Hn') as [Hk' _].
  unfold num_ok in *. rewrite !(uw_small 32) by (split; lia). rewrite !int_mask_spec by lia. cbn [rbind]. eexists. split; [done|]. by split.
Qed.

Lemma raw_hash_bin pl v : wf_pool pl -> raw_hash_to_pg pl v = bin (p_pg_num pl) v.
Proof.
  intros []. unfold raw_hash_to_pg. rewrite wfp_pg_mask0, stable_mod_bin by (done || by apply covers_pred). by apply u32_bin.
Qed.

Lemma raw_pg_bin pl pg : wf_pool pl -> raw_pg_to_pg pl pg = set_ps pg (bin (p_pg_num pl) (m_seed pg)).
Proof. intros Hw. pose proof (raw_hash_bin pl (m_seed pg) Hw) as E. unfold raw_hash_to_pg in E. unfold raw_pg_to_pg, ps. by rewrite E. Qed.

(** The placement seed depends on the group through its ancestor among
    [pgp_num]. *)
Lemma pps_bin pl pl' pg pg' :
  wf_pool pl -> wf_pool pl' -> p_flags pl = p_flags pl' -> p_pgp_num pl = p_pgp_num pl' -> m_pool pg = m_pool pg' ->
  bin (p_pgp_num pl) (m_seed pg) = bin (p_pgp_num pl) (m_seed pg') -> raw_pg_to_pps pl pg = raw_pg_to_pps pl' pg'.
Proof.
  intros [? Hg ? Em] [? ? ? Em'] Hf Hn Hp Hb. unfold raw_pg_to_pps, ps, pg_pool.
  rewrite Em, Em', <- Hn, !stable_mod_bin by (done || by apply covers_pred). by rewrite Hf, Hp, Hb.
Qed.

(** ** Split bits *)

(** The low bits of the hash that decide membership. *)
Definition split_bits (p : pg_t) (b : Z) : Z :=
  let k := cbits b in
  if b =? 1 then 0 else if m_seed p mod 2 ^ (k - 1) <? b mod 2 ^ (k - 1) then k else k - 1.

Lemma get_split_bits_spec p b : num_ok b -> get_split_bits p b = Ret (split_bits p b).
Proof.
  intros [Hb Hb']. unfold get_split_bits, split_bits. destruct (Z.eqb_spec b 1); [done|].
  destruct (cbits_bounds b Hb) as (H0 & H1 & H2). pose proof (covers_cbits b ltac:(done)) as [Hk _].
  rewrite (proj2 (Z.ltb_lt 1 b)), (proj2 (Z.eqb_neq (cbits b) 0)) by lia. cbn [rassert rbind negb].
  assert (2 ^ (cbits b - 1) <= 2 ^ 30) by (apply Z.pow_le_mono_r; lia).
  rewrite Z.shiftl_1_l, (uw_small 32 (2 ^ (cbits b - 1))) by (split; lia). done.
Qed.

Lemma split_bits_spec p b h :
  num_ok b -> 0 <= m_seed p < b ->
  0 <= split_bits p b <= 30 /\ m_seed p < 2 ^ split_bits p b /\ (bin b h = m_seed p <-> h mod 2 ^ split_bits p b = m_seed p).
Proof.
  intros Hb Hs. pose proof (covers_cbits b Hb) as [Hk _]. unfold split_bits, bin. destruct (Z.eqb_spec b 1) as [->|Hne].
  { assert (m_seed p = 0) as -> by lia. change (cbits 1) with 1. change (2 ^ (1 - 1)) with 1. change (2 ^ 0) with 1.
    change (2 ^ 1) with 2. rewrite !Z.mod_1_r. pose proof (Z.mod_pos_bound h 2).
    split; [lia|]. split; [lia|]. split; [done|intros _]. case_bool; zbool; lia. }
  destruct Hb as [Hb Hb'], (cbits_bounds b Hb) as (H0 & H1 & H2). set (k := cbits b) in *. set (s := m_seed p) in *.
  pose proof (pow2_half k H0) as E2. assert (b mod 2 ^ (k - 1) = b - 2 ^ (k - 1)) as Eb.
  { symmetry. apply (Z.mod_unique_pos b (2 ^ (k - 1)) 1); lia. }
  assert (s mod 2 ^ (k - 1) = if s <? 2 ^ (k - 1) then s else s - 2 ^ (k - 1)) as Es.
  { case_bool; zbool; [apply Z.mod_small; lia|]. symmetry. apply (Z.mod_unique_pos s (2 ^ (k - 1)) 1); lia. }
  rewrite Eb, Es. pose proof (mod_half h k H0). pose proof (Z.mod_pos_bound h (2 ^ (k - 1))).
  split; [repeat case_bool; lia|]. split; [repeat case_bool; zbool; lia|]. repeat case_bool; zbool; lia.
Qed.

(** ** The hash range of a group *)

Lemma lor_disjoint a n : 0 <= n -> a mod 2 ^ n = 0 -> Z.lor a (2 ^ n - 1) = a + (2 ^ n - 1).
Proof. intros Hn Ha. rewrite <- land_mask in Ha by done. by rewrite Z.add_nocarry_lxor, Z.lxor_lor. Qed.

Lemma prefix_interval a v n :
  0 <= n -> a mod 2 ^ n = 0 -> Z.shiftr v n = Z.shiftr a n <-> a <= v < a + 2 ^ n.
Proof.
  intros Hn Ha. rewrite !Z.shiftr_div_pow2 by done. pose proof (Z.div_mod a (2 ^ n)). pose proof (Z.div_mod v (2 ^ n)).
  pose proof (Z.mod_pos_bound v (2 ^ n)). assert (0 < 2 ^ n) by lia. split; intros E; [rewrite E in *; lia|].
  symmetry. apply (Z.div_unique_pos v (2 ^ n) (a / 2 ^ n) (v - a)); lia.
Qed.

Lemma reverse_low s k : is_u 32 s -> 0 <= k <= 32 -> s < 2 ^ k -> reverse_bits s mod 2 ^ (32 - k) = 0.
Proof.
  intros Hs Hk Hlt. apply Z.bits_inj'. intros i Hi. rewrite Z.testbit_0_l. destruct (Z_lt_le_dec i (32 - k)).
  - rewrite Z.mod_pow2_bits_low, reverse_bits_testbit by (done || lia).
    rewrite <- (Z.mod_small s (2 ^ k)) by (destruct Hs; lia). apply Z.mod_pow2_bits_high. lia.
  - apply Z.mod_pow2_bits_high. lia.
Qed.

(** The reversed hashes of a group are an interval. *)
Lemma group_interval p b h (n := 2 ^ (32 - split_bits p b)) :
  num_ok b -> 0 <= m_seed p < b -> is_u 32 h ->
  reverse_bits (m_seed p) + n <= 2 ^ 32 /\
  (bin b h = m_seed p <-> reverse_bits (m_seed p) <= reverse_bits h < reverse_bits (m_seed p) + n).
Proof.
  intros Hb Hs Hh. destruct (split_bits_spec p b h Hb Hs) as (Hk & Hlt & Hiff). set (k := split_bits p b) in *. subst n.
  assert (is_u 32 (m_seed p)) as Hu by (unfold num_ok in Hb; split; lia).
  pose proof (reverse_low (m_seed p) k Hu ltac:(lia) Hlt) as H0. pose proof (reverse_bits_word _ Hu) as Hr. split.
  - pose proof (Z.div_mod (reverse_bits (m_seed p)) (2 ^ (32 - k))). destruct Hr as [_ Hr].
    assert (2 ^ 32 = 2 ^ k * 2 ^ (32 - k)) as E by (rewrite <- Z.pow_add_r; f_equal; lia). rewrite E in *.
    set (q := reverse_bits (m_seed p) / 2 ^ (32 - k)) in *. assert (0 < 2 ^ (32 - k)) by lia. assert (q < 2 ^ k) by nia. nia.
  - rewrite Hiff, <- prefix_interval, reverse_prefix by (done || lia). by rewrite (Z.mod_small (m_seed p)) by lia.
Qed.

(** [get_hobj_end]: the maximum, or the first name of the next interval. *)
Lemma get_hobj_end_spec p b (e := reverse_bits (m_seed p) + 2 ^ (32 - split_bits p b)) :
  num_ok b -> 0 <= m_seed p < b ->
  get_hobj_end p b = Ret (if e =? 2 ^ 32 then hobject_get_max
                          else mk_hobject [] [] CEPH_NOSNAP (reverse_bits e) (pg_pool p) []).
Proof.
  intros Hb Hs. unfold get_hobj_end. rewrite get_split_bits_spec by done. cbn [rbind].
  destruct (split_bits_spec p b 0 Hb Hs) as (Hk & Hlt & _). set (k := split_bits p b) in *.
  assert (is_u 32 (m_seed p)) as Hu by (unfold num_ok in Hb; split; lia).
  destruct (group_interval p b 0 Hb Hs ltac:(unfold is_u; lia)) as [Hle _]. fold k in Hle.
  assert (Z.shiftr 0xffffffff k = 2 ^ (32 - k) - 1) as ->.
  { change 0xffffffff with (2 ^ 32 - 1). by rewrite !ones_mask, Z.shiftr_div_pow2, Z.ones_div_pow2 by lia. }
  rewrite lor_disjoint by (lia || apply reverse_low; (done || lia)).
  replace (reverse_bits (m_seed p) + (2 ^ (32 - k) - 1) + 1) with e by (unfold e; fold k; lia).
  change 0x100000000 with (2 ^ 32). fold e in Hle.
  destruct (Z.leb_spec (2 ^ 32) e), (Z.eqb_spec e (2 ^ 32)); try lia; done.
Qed.

(** Objects that are not nameless; [make_pgmeta] names a group's own nameless
    object, of snapshot [CEPH_NOSNAP]. *)
Definition named (o : hobject_t) : Prop := h_oid o <> [] \/ CEPH_NOSNAP <= h_snap o.

Lemma cmp_same_pool l r :
  h_max l = false -> h_max r = false -> h_pool l = h_pool r ->
  cmp l r = if h_hash_reverse_bits l =? h_hash_reverse_bits r
            then sign_of (pair_compare string_compare (pair_compare string_compare (pair_compare string_compare Z.compare))
                   (h_nspace l, (get_effective_key l, (h_oid l, h_snap l)))
                   (h_nspace r, (get_effective_key r, (h_oid r, h_snap r))))
            else if h_hash_reverse_bits l <? h_hash_reverse_bits r then -1 else 1.
Proof.
  intros Hl Hr Hp. rewrite cmp_hkey. unfold hkey, hkey_compare, get_bitwise_key. rewrite Hl, Hr, Hp.
  unfold pair_compare at 1 2 3; cbn [fst snd bool_compare]. rewrite Z.compare_refl.
  destruct (Z.compare_spec (h_hash_reverse_bits l) (h_hash_reverse_bits r)) as [E|E|E].
  - by rewrite (proj2 (Z.eqb_eq _ _) E).
  - rewrite (proj2 (Z.eqb_neq _ _)), (proj2 (Z.ltb_lt _ _) E) by lia. done.
  - rewrite (proj2 (Z.eqb_neq _ _)), (proj2 (Z.ltb_ge _ _)) by lia. done.
Qed.

Lemma start_below p o :
  wf_hobject o -> h_max o = false -> h_pool o = pg_pool p -> 0 <= h_snap o ->
  hobject_leb (get_hobj_start p) o = (reverse_bits (m_seed p) <=? reverse_bits (h_hash o)).
Proof.
  intros Hw Hm Hp Hs. unfold hobject_leb. rewrite cmp_same_pool by done. rewrite (wfh_bits _ Hw). cbn -[reverse_bits].
  destruct (Z.eqb_spec (reverse_bits (m_seed p)) (reverse_bits (h_hash o))) as [E|E].
  - rewrite (proj2 (Z.leb_le (reverse_bits (m_seed p)) (reverse_bits (h_hash o)))) by lia. unfold pair_compare. cbn.
    destruct (h_nspace o); [|done]. cbn. destruct (get_effective_key o); [|done]. cbn.
    destruct (h_oid o); [|done]. cbn. destruct (h_snap o); [done|done|lia].
  - destruct (Z.ltb_spec (reverse_bits (m_seed p)) (reverse_bits (h_hash o))), (Z.leb_spec (reverse_bits (m_seed p)) (reverse_bits (h_hash o))); try lia; done.
Qed.

Lemma below_end p e o :
  wf_hobject o -> h_max o = false -> h_pool o = pg_pool p -> named o -> is_u 32 e ->
  hobject_ltb o (mk_hobject [] [] CEPH_NOSNAP (reverse_bits e) (pg_pool p) []) = (reverse_bits (h_hash o) <? e).
Proof.
  intros Hw Hm Hp Hn He. unfold hobject_ltb. rewrite cmp_same_pool by done. rewrite (wfh_bits _ Hw). cbn [mk_hobject build_hash_cache h_hash_reverse_bits h_hash].
  rewrite reverse_bits_involutive by done. destruct (Z.eqb_spec (reverse_bits (h_hash o)) e) as [E|E].
  - rewrite (proj2 (Z.ltb_ge (reverse_bits (h_hash o)) e)) by lia. cbn -[CEPH_NOSNAP]. unfold pair_compare; cbn -[CEPH_NOSNAP].
    destruct (h_nspace o); [|done]. cbn -[CEPH_NOSNAP].
    destruct (get_effective_key o) eqn:Ek; [|done]. cbn -[CEPH_NOSNAP]. destruct Hn as [Hn|Hn].
    + destruct (h_oid o); [done|]. done.
    + destruct (h_oid o); [|done]. cbn -[CEPH_NOSNAP]. destruct (Z.compare_spec (h_snap o) CEPH_NOSNAP); [done|lia|done].
  - destruct (Z.ltb_spec (reverse_bits (h_hash o)) e); done.
Qed.

(** ** Splitting *)

Lemma below_max o : h_max o = false -> hobject_ltb o hobject_get_max = true.
Proof. intros Hm. unfold hobject_ltb. rewrite cmp_hkey. unfold hkey, hkey_compare, pair_compare at 1. cbn [fst]. by rewrite Hm. Qed.

(** Whether the end of a group is a hash or the end of the store. *)
Lemma below_stop p e o :
  wf_hobject o -> h_max o = false -> h_pool o = pg_pool p -> named o -> 0 <= e <= 2 ^ 32 ->
  hobject_ltb o (if e =? 2 ^ 32 then hobject_get_max else mk_hobject [] [] CEPH_NOSNAP (reverse_bits e) (pg_pool p) [])
    = (reverse_bits (h_hash o) <? e).
Proof.
  intros Ho Hm Hp Hn He. destruct (Z.eqb_spec e (2 ^ 32)) as [->|Hne]; [|by apply below_end; [..|unfold is_u; lia]].
  rewrite below_max by done. symmetry. apply Z.ltb_lt. apply (reverse_bits_word _ (wfh_hash _ Ho)).
Qed.

(** [contains] compares the low bits of the hash with the seed. *)
Lemma contains_spec p bits o :
  0 <= bits < 32 -> h_pool o = pg_pool p -> 0 <= h_pool o -> 0 <= m_seed p < 2 ^ bits ->
  contains p bits o = Ret (bool_decide (h_hash o mod 2 ^ bits = m_seed p)).
Proof.
  intros Hb Hp H0 Hs. unfold contains, get_logical_pool, is_temp_pool, POOL_TEMP_START.
  rewrite (proj2 (Z.leb_gt (h_pool o) (-2))), (proj2 (Z.eqb_eq (pg_pool p) (h_pool o))) by lia.
  unfold hobject_match, match_hash, match_mask. rewrite (proj2 (Z.leb_gt 32 bits)) by lia. cbn [rbind].
  rewrite low_mask, !land_mask by lia. unfold ps. rewrite (Z.mod_small (m_seed p)) by lia. f_equal.
  case_bool_decide as E; [by apply Z.eqb_eq|apply Z.eqb_neq; congruence].
Qed.

Lemma lor_parts a l t : 0 <= t -> 0 <= l < 2 ^ t -> Z.lor (Z.shiftl a t) l = a * 2 ^ t + l.
Proof.
  intros Ht Hl. rewrite <- Z.lxor_lor, <- Z.add_nocarry_lxor, Z.shiftl_mul_pow2 by (done || (
    apply Z.bits_inj'; intros i Hi; rewrite Z.land_spec, Z.testbit_0_l, Z.shiftl_spec by done;
    destruct (Z_lt_le_dec i t); [by rewrite Z.testbit_neg_r by lia|];
    rewrite <- (Z.mod_small l (2 ^ t)), Z.mod_pow2_bits_high by lia; apply andb_false_r)).
  done.
Qed.

Section split.
Context (p : pg_t) (old new : Z).
Context (Hseed : 0 <= m_seed p < old) (Hold : old < new) (Hnew : num_ok new).

Let k := cbits old.
Let D := 2 ^ (k - 1).
Let hi := m_seed p / D.

Lemma split_k : 0 < k <= 30 /\ D <= old < 2 * D.
Proof using Hseed Hold Hnew.
  destruct (cbits_bounds old) as (H0 & H1 & H2); [lia|]. unfold num_ok in Hnew. pose proof (cbits_le old 30 ltac:(lia) ltac:(lia)).
  fold k in H, H0, H1, H2. rewrite (pow2_half k) in H2 by done. fold D in H1, H2. lia.
Qed.

Lemma old_ok : num_ok old.
Proof using Hseed Hold Hnew. unfold num_ok in *. lia. Qed.

Lemma split_hi : hi = 0 \/ hi = 1.
Proof using Hseed Hold Hnew.
  pose proof split_k as [_ HD]. assert (0 <= hi < 2); [|lia]. unfold hi.
  split; [apply Z.div_pos; lia|apply Z.div_lt_upper_bound; lia].
Qed.

(** The candidate of turn [n]. *)
Definition candidate (n : Z) : Z := Z.lor (Z.shiftl n (k - 1)) (m_seed p).

Lemma candidate_eq n : candidate n = Z.lor n hi * D + m_seed p mod D.
Proof using Hseed Hold Hnew.
  pose proof split_k as [Hk HD]. pose proof (Z.mod_pos_bound (m_seed p) D). unfold candidate.
  assert (m_seed p = Z.lor (Z.shiftl hi (k - 1)) (m_seed p mod D)) as E.
  { rewrite lor_parts by (fold D; lia). fold D. unfold hi. rewrite (Z.div_mod (m_seed p) D) at 1 by lia. lia. }
  rewrite E at 1. rewrite Z.lor_assoc, <- Z.shiftl_lor. apply lor_parts; fold D; lia.
Qed.

Lemma lor_hi n : 0 <= n -> (Z.lor n hi = n /\ (hi = 1 -> n mod 2 = 1)) \/ (hi = 1 /\ n mod 2 = 0 /\ Z.lor n hi = n + 1).
Proof using Hseed Hold Hnew.
  intros Hn. destruct split_hi as [-> | ->]; [left; split; [apply Z.lor_0_r|done]|].
  pose proof (lor_parts (n / 2) (n mod 2) 1 ltac:(lia) ltac:(apply Z.mod_pos_bound; lia)) as E.
  change (2 ^ 1) with 2 in E. pose proof (Z.div_mod n 2 ltac:(lia)) as En. pose proof (Z.mod_pos_bound n 2 ltac:(lia)).
  assert (Z.lor n 1 = Z.lor (Z.shiftl (n / 2) 1) (Z.lor (n mod 2) 1)) as ->.
  { rewrite Z.lor_assoc, E. f_equal. lia. }
  assert (Z.lor (n mod 2) 1 = 1) as ->.
  { assert (n mod 2 = 0 \/ n mod 2 = 1) as [-> | ->] by lia; done. }
  rewrite lor_parts by lia. change (2 ^ 1) with 2. lia.
Qed.

Lemma candidate_mono m n : 0 <= n <= m -> candidate n <= candidate m.
Proof using Hseed Hold Hnew.
  intros Hn. rewrite !candidate_eq. pose proof split_k as [Hk HD]. assert (0 < D) by lia.
  assert (Z.lor n hi <= Z.lor m hi); [|nia].
  destruct (Z.eq_dec n m) as [->|]; [done|].
  destruct (lor_hi n ltac:(lia)) as [[-> _]|(_ & _ & ->)], (lor_hi m ltac:(lia)) as [[-> _]|(_ & _ & ->)]; lia.
Qed.

Lemma candidate_ge n : 0 <= n -> n * D <= candidate n < (n + 2) * D.
Proof using Hseed Hold Hnew.
  intros Hn. rewrite candidate_eq. pose proof split_k as [Hk HD]. pose proof (Z.mod_pos_bound (m_seed p) D).
  destruct (lor_hi n ltac:(lia)) as [[-> _]|(_ & _ & ->)]; nia.
Qed.

(** A child of the group: what the disabled brute force would insert. *)
Definition child_seed (s : Z) : Prop := old <= s < new /\ bin old s = m_seed p.

Lemma child_candidate s : child_seed s -> exists n, 1 <= n /\ s = candidate n.
Proof using Hseed Hold Hnew.
  intros [Hs Hb]. pose proof split_k as [Hk HD]. exists (s / D). split; [apply Z.div_le_lower_bound; lia|].
  rewrite candidate_eq. unfold bin in Hb. fold k in Hb. pose proof (mod_half s k ltac:(lia)) as Hh. fold D in Hh, Hb.
  pose proof (Z.mod_pos_bound s D ltac:(lia)). pose proof (Z.div_mod s D ltac:(lia)).
  assert (2 ^ k = D * 2) as EK by (rewrite (pow2_half k) by lia; fold D; lia).
  assert (m_seed p mod D = s mod D /\ (hi = 1 -> (s / D) mod 2 = 1)) as [E1 E2].
  { destruct (Z.ltb_spec (s mod 2 ^ k) old) as [_|_].
    - destruct Hh as [E|E]; rewrite Hb in E.
      + split; [rewrite E; apply Z.mod_mod; lia|]. unfold hi. rewrite E, Z.div_small by lia. lia.
      + split; [rewrite E, <- Zplus_mod_idemp_l, Z.mod_same, Z.add_0_l by lia; apply Z.mod_mod; lia|].
        intros _. assert (s mod (D * 2) = D + s mod D) as E' by (rewrite <- EK; congruence).
        rewrite Z.rem_mul_r in E' by lia. nia.
    - split; [rewrite <- Hb; apply Z.mod_mod; lia|]. unfold hi. rewrite <- Hb, Z.div_small by lia. lia. }
  rewrite E1. destruct (lor_hi (s / D)) as [[-> _]|(Eh & Hev & _)]; [apply Z.div_pos; lia|lia|]. rewrite E2 in Hev; [done|done].
Qed.

Definition in_split (n : Z) (q : pg_t) : Prop :=
  m_pool q = m_pool p /\ child_seed (m_seed q) /\ exists m, n <= m /\ m_seed q = candidate m.

Lemma in_split_step n q : in_split n q <-> in_split (n + 1) q \/ (q = mk_pg (candidate n) (m_pool p) /\ child_seed (candidate n)).
Proof.
  unfold in_split. split.
  - intros (Hp & Hc & m & Hm & E). destruct (Z.eq_dec m n) as [->|]; [right|left; split; [done|]; split; [done|]; exists m; split; [lia|done]].
    rewrite <- E. split; [|done]. destruct q as [qp qs]; cbn in *. by rewrite Hp.
  - intros [(Hp & Hc & m & Hm & E)|[-> Hc]]; [split; [done|]; split; [done|]; exists m; split; [lia|done]|].
    split; [done|]. split; [done|]. by exists n.
Qed.

Lemma split_loop_spec fuel n split children :
  1 <= n <= new -> (n - 1) * D < new -> new < Z.of_nat fuel + n ->
  exists N : gset pg_t, (forall q, q ∈ N <-> in_split n q) /\
    split_loop fuel p old new k (2 ^ k - 1) n split children
      = Ret (split || bool_decide (N <> ∅), (fun c => N ∪ c) <$> children).
Proof using Hseed Hold Hnew.
  revert n split children. induction fuel as [|fuel IH]; intros n split children Hn HD Hf; [lia|].
  pose proof split_k as [Hk HD']. pose proof (candidate_ge n ltac:(lia)) as Hc. cbn [split_loop].
  assert (u32 (Z.shiftl n (k - 1)) = Z.shiftl n (k - 1)) as ->.
  { apply uw_small. rewrite Z.shiftl_mul_pow2 by lia. fold D. unfold num_ok in Hnew. split; nia. }
  fold (candidate n). rewrite (stable_mod_bin (candidate n) old k old_ok (covers_cbits old old_ok)), (u32_bin old _ old_ok).
  assert (u32 (n + 1) = n + 1) as -> by (apply uw_small; unfold num_ok in Hnew; split; lia).
  assert (forall sp ch, candidate n < new -> ~ child_seed (candidate n) ->
    exists N : gset pg_t, (forall q, q ∈ N <-> in_split n q) /\
      split_loop fuel p old new k (2 ^ k - 1) (n + 1) sp ch = Ret (sp || bool_decide (N <> ∅), (fun c => N ∪ c) <$> ch)) as Hskip.
  { intros sp ch Hlt Hno. destruct (IH (n + 1) sp ch) as (N & HN & E); [nia..|]. exists N. split; [|done].
    intros q. rewrite HN, (in_split_step n). naive_solver. }
  destruct (Z.ltb_spec (candidate n) old) as [Hlt|Hge]; cbn [orb]; [apply Hskip; unfold child_seed; lia|].
  destruct (Z.eqb_spec (candidate n) (m_seed p)) as [E|Hne]; [lia|].
  destruct (Z.leb_spec new (candidate n)) as [Hle|Hlt].
  { exists ∅. split; [|rewrite orb_false_r; destruct children; cbn; [by rewrite (left_id_L ∅ (∪))|done]].
    intros q. rewrite elem_of_empty. split; [done|]. intros (_ & [[_ Hlt] _] & m & Hm & E).
    pose proof (candidate_mono m n ltac:(lia)). lia. }
  destruct (Z.eqb_spec (bin old (candidate n)) (m_seed p)) as [Eb|Hnb]; [|apply Hskip; [done|unfold child_seed; lia]].
  destruct (IH (n + 1) true ((fun c => {[mk_pg (candidate n) (m_pool p)]} ∪ c) <$> children)) as (N & HN & ->); [nia..|].
  exists ({[mk_pg (candidate n) (m_pool p)]} ∪ N). split.
  - intros q. rewrite elem_of_union, elem_of_singleton, HN, (in_split_step n). unfold child_seed. naive_solver.
  - f_equal. f_equal; [cbn; rewrite bool_decide_true by set_solver; by rewrite orb_true_r|].
    destruct children; cbn; [|done]. f_equal. set_solver.
Qed.

(** [is_split] finds the children the brute force would. *)
Lemma is_split_children children :
  exists N : gset pg_t, (forall q, q ∈ N <-> m_pool q = m_pool p /\ child_seed (m_seed q)) /\
    is_split p old new children = Ret (bool_decide (N <> ∅), (fun c => N ∪ c) <$> children).
Proof using Hseed Hold Hnew.
  pose proof split_k as [Hk HD]. unfold is_split. destruct (Z.leb_spec old (m_seed p)); [lia|]. destruct (Z.leb_spec new old); [lia|].
  fold k. rewrite int_mask_spec by lia. cbn [rbind]. assert (2 ^ k <= 2 ^ 30) by (apply Z.pow_le_mono_r; lia).
  rewrite (uw_small 32 (2 ^ k - 1)) by (split; lia).
  destruct (split_loop_spec (Z.to_nat new) 1 false children) as (N & HN & ->); [lia..|]. exists N. split; [|done].
  intros q. rewrite HN. unfold in_split. split; [naive_solver|]. intros [Hp Hc]. split; [done|]. split; [done|].
  by destruct (child_candidate _ Hc) as (n & ? & ?); eauto.
Qed.
End split.

(** ** Merging *)

Lemma get_parent_spec t : 0 < m_seed t < 2 ^ 31 -> get_parent t = Ret (set_ps t (m_seed t mod 2 ^ (cbits (m_seed t) - 1))).
Proof.
  intros Ht. destruct (cbits_bounds (m_seed t)) as (H0 & H1 & H2); [lia|]. pose proof (cbits_le (m_seed t) 31 ltac:(lia) ltac:(lia)).
  unfold get_parent. rewrite (proj2 (Z.eqb_neq _ 0)) by lia. cbn [negb rassert rbind]. by rewrite low_mask, land_mask by lia.
Qed.

Lemma parent_bin b s : 0 < b <= s -> bin b (s mod 2 ^ (cbits s - 1)) = bin b s.
Proof.
  intros Hb. destruct (cbits_bounds s) as (H0 & H1 & H2), (cbits_bounds b) as (H3 & H4 & H5); [lia..|].
  pose proof (cbits_mono b s ltac:(lia)). destruct (Z.eq_dec (cbits b) (cbits s)) as [E|Hne].
  - pose proof (Z.mod_pos_bound s (2 ^ (cbits s - 1))). rewrite E in *. rewrite bin_small by lia.
    unfold bin. rewrite E, (Z.mod_small s (2 ^ cbits s)) by lia. destruct (Z.ltb_spec s b); [lia|done].
  - unfold bin. by rewrite !mod_mod_pow2 by lia.
Qed.

Lemma merge_loop_spec fuel t b :
  0 < b -> 0 <= m_seed t < 2 ^ 31 -> cbits (m_seed t) < Z.of_nat fuel ->
  merge_loop fuel t b = Ret (set_ps t (bin b (m_seed t))).
Proof.
  revert t. induction fuel as [|fuel IH]; intros t Hb Ht Hf; [pose proof (cbits_nonneg (m_seed t)); lia|].
  cbn [merge_loop]. destruct (Z.leb_spec b (m_seed t)) as [Hle|Hlt].
  - rewrite get_parent_spec by lia. cbn [rbind]. destruct (cbits_bounds (m_seed t)) as (H0 & H1 & H2); [lia|].
    pose proof (Z.mod_pos_bound (m_seed t) (2 ^ (cbits (m_seed t) - 1))). set (s := m_seed t mod _) in *.
    rewrite IH; cbn [set_ps m_seed m_pool]; [|done|lia|pose proof (cbits_le s (cbits (m_seed t) - 1)); lia].
    unfold s. rewrite parent_bin by lia. by destruct t.
  - rewrite bin_small by lia. by destruct t.
Qed.

(** ** Divisors and random positions *)

Lemma pow_or_between b :
  num_ok b -> let k' := cbits (b - 1) in
  (b = 2 ^ k' /\ cbits b = k' + 1) \/ (b <> 2 ^ k' /\ 0 < k' /\ cbits b = k').
Proof.
  intros Hb k'. pose proof (covers_pred b Hb) as (Hk & Hle & Hge). fold k' in Hk, Hle, Hge. destruct Hb as [Hb Hb'].
  destruct (cbits_bounds b Hb) as (H0 & H1 & H2). destruct (Z.eq_dec b (2 ^ k')) as [E|Hne].
  - left. split; [done|]. rewrite E, cbits_pos, Z.log2_pow2 by lia. done.
  - right. split; [done|]. assert (b <> 1) by (intros ->; by apply Hne). assert (0 < k') by (unfold k'; apply cbits_bounds; lia).
    split; [done|]. specialize (Hge ltac:(done)). rewrite cbits_pos by done. rewrite (Z.log2_unique b (k' - 1)); [lia|lia|].
    replace (Z.succ (k' - 1)) with k' by lia. lia.
Qed.

Lemma divisor_spec pl pg :
  wf_pool pl -> 0 <= ps pg < p_pg_num pl -> get_pg_num_divisor pl pg = 2 ^ split_bits pg (p_pg_num pl).
Proof.
  intros [Hb _ Em _] Hs. unfold get_pg_num_divisor, split_bits, ps in *. set (b := p_pg_num pl) in *.
  destruct (covers_pred b Hb) as [Hk _]. rewrite Em. pose proof (pow_or_between b Hb) as Hor. cbn zeta in Hor. set (k' := cbits (b - 1)) in *.
  assert (2 ^ k' <= 2 ^ 30) by (apply Z.pow_le_mono_r; lia). replace (2 ^ k' - 1 + 1) with (2 ^ k') by lia.
  rewrite (uw_small 32 (2 ^ k')) by (split; lia). destruct Hor as [[E Ec]|(Hne & Hk0 & Ec)].
  - rewrite (proj2 (Z.eqb_eq _ _) E), Ec. replace (k' + 1 - 1) with k' by lia.
    destruct (Z.eqb_spec b 1) as [->|]; [done|]. rewrite E at 2. rewrite Z.mod_same by lia.
    pose proof (Z.mod_pos_bound (m_seed pg) (2 ^ k')). destruct (Z.ltb_spec (m_seed pg mod 2 ^ k') 0); lia.
  - rewrite (proj2 (Z.eqb_neq _ _) Hne), Ec, half_mask, !land_mask by lia.
    destruct (Z.eqb_spec b 1) as [E1|]; [exfalso; apply Hne; unfold k'; by rewrite E1|].
    case_bool; [done|]. rewrite Z.shiftr_div_pow2, (pow2_half k'), Z.mul_comm by lia. by apply Z.div_mul.
Qed.

Lemma position_mod r s j : 0 <= j <= 32 -> 0 <= s < 2 ^ j -> Z.lor (Z.land r (u32 (Z.lnot (2 ^ j - 1)))) s mod 2 ^ j = s.
Proof.
  intros Hj Hs. rewrite <- (Z.mod_small s (2 ^ j)) at 2 by done. apply Z.bits_inj'. intros i Hi. destruct (Z_lt_le_dec i j).
  - rewrite !Z.mod_pow2_bits_low, Z.lor_spec, Z.land_spec, u32_testbit, ones_mask, Z.lnot_spec, Z.ones_spec_low by lia.
    cbn. by rewrite !andb_false_r.
  - by rewrite !Z.mod_pow2_bits_high by lia.
Qed.

Lemma random_position_spec pl pg seed :
  wf_pool pl -> 0 <= ps pg < p_pg_num pl -> raw_hash_to_pg pl (get_random_pg_position pl pg seed) = ps pg.
Proof.
  intros Hw Hs. pose proof (divisor_spec pl pg Hw Hs) as Hd. rewrite raw_hash_bin by done. pose proof Hw as [Hb _ Em _].
  destruct (split_bits_spec pg (p_pg_num pl) (get_random_pg_position pl pg seed) Hb Hs) as (Hk & Hlt & Hiff). apply Hiff. clear Hiff.
  unfold get_pg_num_divisor in Hd. unfold get_random_pg_position, ps in *.
  destruct (covers_pred _ Hb) as [Hk' _]. set (b := p_pg_num pl) in *. set (r := crush_hash32_2 _ _ _).
  assert (forall m, m = 2 ^ split_bits pg b - 1 -> Z.lor (Z.land r (u32 (Z.lnot m))) (m_seed pg) mod 2 ^ split_bits pg b = m_seed pg) as Hpos
    by (intros m ->; apply position_mod; lia).
  set (k' := cbits (b - 1)) in *. assert (2 ^ k' <= 2 ^ 30) by (apply Z.pow_le_mono_r; lia). pose proof (Z.pow_pos_nonneg 2 k').
  rewrite Em in *. replace (2 ^ k' - 1 + 1) with (2 ^ k') in * by lia. rewrite (uw_small 32 (2 ^ k')) in * by (split; lia).
  destruct (Z.eqb_spec b (2 ^ k')) as [E|Hne]; [apply Hpos; lia|].
  assert (0 < k') by (destruct (Z.eq_dec b 1) as [E1|]; [exfalso; apply Hne; unfold k'; by rewrite E1|apply cbits_bounds; unfold num_ok in Hb; lia]).
  case_bool; apply Hpos; [lia|]. rewrite <- Hd, half_mask, Z.shiftr_div_pow2, (pow2_half k'), Z.mul_comm by lia.
  change (2 ^ 1) with 2. rewrite Z.div_mul by lia. lia.
Qed.

(** ** The encoding of [pg_t] *)

#[export] Instance pg_round_trip : RoundTrip pg_bytes pg_decode (fun p => is_u 64 (m_pool p) /\ is_u 32 (m_seed p)).
Proof.
  apply reads_round_trip. intros [pl s] [Hp Hs]; cbn in Hp, Hs. unfold pg_bytes, pg_decode; cbn [m_pool m_seed].
  apply (reads_bind encode_u8 decode_u8 (is_u 8)); [unfold is_u; lia|].
  apply (reads_bind encode_u64 decode_u64 (is_u 64)); [done|]. apply (reads_bind encode_u32 decode_u32 (is_u 32)); [done|].
  intros pre post Hl. unfold dbind, advance, dret. rewrite !length_app. unfold encode_s32. rewrite le_length.
  destruct (Z.ltb_spec (Z.of_nat (length pre + (4 + length post))) (zlen pre + 4)); [lia|]. f_equal. lia.
Qed.
