(* ===== verification/OsdMap.v ===== *)
(** * From placement groups to OSDs (src/src/osd/OSDMap.cc, OSDMap.h,
    src/src/crush/CrushWrapper.h)

    The mapping functions of [OSDMap]: raw CRUSH output, explicit mappings
    ([pg_upmap], [pg_upmap_items]), the up set, primary affinity, temporary
    mappings and the acting set.  What they need of CRUSH is the class
    [Placement]; the instance at the end is [CrushWrapper], which calls the
    mapper. *)

From stdpp Require Import gmap.
From S2P Require Import Prelude CrushHash CrushTypes CrushBucket CrushMapper CrushBuilder Bits Encoding Hobject PgTypes.
Open Scope Z_scope.

Definition CEPH_OSD_EXISTS : Z := Z.shiftl 1 0.
Definition CEPH_OSD_UP : Z := Z.shiftl 1 1.
Definition CEPH_OSD_MAX_PRIMARY_AFFINITY : Z := 0x10000.
Definition CEPH_OSD_DEFAULT_PRIMARY_AFFINITY : Z := 0x10000.

(** What [OSDMap] calls of its crush map: [find_rule(ruleset, type, size)] and
    [do_rule(ruleno, x, out, maxout, weight, choose_args_index)]. *)
Class Placement (C : Type) : Type := {
  find_rule : C -> Z -> Z -> Z -> res Z;
  do_rule : C -> Z -> Z -> Z -> list Z -> Z -> res (list Z);
}.

Record OSDMap (C : Type) := MkOSDMap {
  max_osd : Z;
  osd_state : list Z;
  osd_weight : list Z;
  pg_temp : gmap pg_t (list Z);
  primary_temp : gmap pg_t Z;
  osd_primary_affinity : option (list Z);
  pg_upmap : gmap pg_t (list Z);
  pg_upmap_items : gmap pg_t (list (Z * Z));
  pools : gmap Z pg_pool_t;
  crush : C;
}.
Arguments max_osd {C} _.
Arguments osd_state {C} _.
Arguments osd_weight {C} _.
Arguments pg_temp {C} _.
Arguments primary_temp {C} _.
Arguments osd_primary_affinity {C} _.
Arguments pg_upmap {C} _.
Arguments pg_upmap_items {C} _.
Arguments pools {C} _.
Arguments crush {C} _.

Section osdmap.
Context {C : Type} `{Placement C} (m : OSDMap C).

Definition get_pg_pool (p : Z) : option pg_pool_t := pools m !! p.

Definition osd_exists (osd : Z) : res bool :=
  if (0 <=? osd) && (osd <? max_osd m) then
    st <~ aget (osd_state m) osd;;
    Ret (negb (Z.land st CEPH_OSD_EXISTS =? 0))
  else Ret false.

Definition is_up (osd : Z) : res bool :=
  e <~ osd_exists osd;;
  if (e : bool) then st <~ aget (osd_state m) osd;; Ret (negb (Z.land st CEPH_OSD_UP =? 0)) else Ret false.

Definition is_down (osd : Z) : res bool := u <~ is_up osd;; Ret (negb u).

(** [!exists(osd) || is_down(osd)] *)
Definition gone (osd : Z) : res bool :=
  e <~ osd_exists osd;;
  if (e : bool) then is_down osd else Ret true.

(** ** Raw mapping *)

(** [for (unsigned i = 0; i < osds.size(); i++)]; [n] is [osds.size() - i]. *)
Fixpoint remove_loop (n : nat) (i removed : Z) (osds : list Z) : res (Z * list Z) :=
  match n with
  | O => Ret (removed, osds)
  | S n =>
      o <~ aget osds i;;
      e <~ osd_exists o;;
      if (e : bool) then
        osds <~ (if negb (removed =? 0) then aset osds (i - removed) o else Ret osds);;
        remove_loop n (i + 1) removed osds
      else remove_loop n (i + 1) (removed + 1) osds
  end.

(** [for (auto& osd : osds) if (!exists(osd)) osd = CRUSH_ITEM_NONE;] *)
Fixpoint none_loop (osds : list Z) : res (list Z) :=
  match osds with
  | [] => Ret []
  | o :: osds =>
      e <~ osd_exists o;;
      l <~ none_loop osds;;
      Ret ((if (e : bool) then o else CRUSH_ITEM_NONE) :: l)
  end.

Definition _remove_nonexistent_osds (pool : pg_pool_t) (osds : list Z) : res (list Z) :=
  shift <~ can_shift_osds pool;;
  if (shift : bool) then
    '(removed, osds) <~ remove_loop (length osds) 0 0 osds;;
    Ret (if negb (removed =? 0) then take (Z.to_nat (zlen osds - removed)) osds else osds)
  else none_loop osds.

(** The OSDs ([osds] is what the vector held before) and the placement seed. *)
Definition _pg_to_raw_osds (pool : pg_pool_t) (pg : pg_t) (osds : list Z) : res (list Z * Z) :=
  let pps := raw_pg_to_pps pool pg in
  let size := p_size pool in
  ruleno <~ find_rule (crush m) (p_crush_rule pool) (p_type pool) size;;
  osds <~ (if 0 <=? ruleno then do_rule (crush m) ruleno (s32 pps) size (osd_weight m) (pg_pool pg) else Ret osds);;
  osds <~ _remove_nonexistent_osds pool osds;;
  Ret (osds, pps).

Fixpoint _pick_primary (osds : list Z) : Z :=
  match osds with
  | [] => -1
  | o :: osds => if negb (o =? CRUSH_ITEM_NONE) then o else _pick_primary osds
  end.

(** ** Explicit mappings *)

(** A valid id of an OSD that is marked out. *)
Definition marked_out (osd : Z) : res bool :=
  if negb (osd =? CRUSH_ITEM_NONE) && (osd <? max_osd m) && (0 <=? osd) then
    w <~ aget (osd_weight m) osd;; Ret (w =? 0)
  else Ret false.

(** [for (auto osd : p->second)]: is some target marked out? *)
Fixpoint any_marked_out (osds : list Z) : res bool :=
  match osds with
  | [] => Ret false
  | o :: osds => b <~ marked_out o;; if (b : bool) then Ret true else any_marked_out osds
  end.

(** [for (unsigned i = 0; i < raw->size(); ++i)]: [exists] and [pos] for the
    pair [(first, second)]. *)
Fixpoint upmap_scan (rest : list Z) (i pos : Z) (first second : Z) : res (bool * Z) :=
  match rest with
  | [] => Ret (false, pos)
  | osd :: rest =>
      if osd =? second then Ret (true, pos) else
      pos <~ (if (osd =? first) && (pos <? 0) then
                b <~ marked_out second;; Ret (if (b : bool) then pos else i)
              else Ret pos);;
      upmap_scan rest (i + 1) pos first second
  end.

(** [for (auto& r : q->second)] *)
Fixpoint upmap_items (items : list (Z * Z)) (raw : list Z) : res (list Z) :=
  match items with
  | [] => Ret raw
  | (first, second) :: items =>
      '(ex, pos) <~ upmap_scan raw 0 (-1) first second;;
      raw <~ (if negb ex && (0 <=? pos) then aset raw pos second else Ret raw);;
      upmap_items items raw
  end.

Definition _apply_upmap (pi : pg_pool_t) (raw_pg : pg_t) (raw : list Z) : res (list Z) :=
  let pg := raw_pg_to_pg pi raw_pg in
  '(reject, raw) <~
    (match pg_upmap m !! pg with
     | Some l => b <~ any_marked_out l;; Ret (if (b : bool) then (true, raw) else (false, l))
     | None => Ret (false, raw)
     end);;
  if (reject : bool) then Ret raw else
  match pg_upmap_items m !! pg with
  | Some items => upmap_items items raw
  | None => Ret raw
  end.

(** ** Up *)

(** One pass over [raw]: shift left, or set the missing to [CRUSH_ITEM_NONE]. *)
Fixpoint up_loop (shift : bool) (raw : list Z) : res (list Z) :=
  match raw with
  | [] => Ret []
  | o :: raw =>
      g <~ gone o;;
      l <~ up_loop shift raw;;
      Ret (if (g : bool) then (if shift then l else CRUSH_ITEM_NONE :: l) else o :: l)
  end.

Definition _raw_to_up_osds (pool : pg_pool_t) (raw : list Z) : res (list Z) :=
  shift <~ can_shift_osds pool;;
  up_loop shift raw.

(** ** Primary affinity *)

(** Does one of the OSDs have a non-default affinity? *)
Fixpoint any_affinity (aff : list Z) (osds : list Z) : res bool :=
  match osds with
  | [] => Ret false
  | o :: osds =>
      if negb (o =? CRUSH_ITEM_NONE) then
        a <~ aget aff o;;
        if negb (a =? CEPH_OSD_DEFAULT_PRIMARY_AFFINITY) then Ret true else any_affinity aff osds
      else any_affinity aff osds
  end.

(** [for (unsigned i = 0; i < osds->size(); ++i)]: the position of the primary. *)
Fixpoint affinity_pos (aff : list Z) (seed : Z) (osds : list Z) (i pos : Z) : res Z :=
  match osds with
  | [] => Ret pos
  | o :: osds =>
      if o =? CRUSH_ITEM_NONE then affinity_pos aff seed osds (i + 1) pos else
      a <~ aget aff o;;
      if (a <? CEPH_OSD_MAX_PRIMARY_AFFINITY)
         && (a <=? Z.shiftr (crush_hash32_2 CRUSH_HASH_RJENKINS1 seed o) 16)
      then affinity_pos aff seed osds (i + 1) (if pos <? 0 then i else pos)
      else Ret i
  end.

(** [for (int i = pos; i > 0; --i) osds[i] = osds[i-1];] *)
Fixpoint rotate_loop (n : nat) (osds : list Z) : res (list Z) :=
  match n with
  | O => Ret osds
  | S n' =>
      v <~ aget osds (Z.of_nat n - 1);;
      osds <~ aset osds (Z.of_nat n) v;;
      rotate_loop n' osds
  end.

(** The OSDs and the primary. *)
Definition _apply_primary_affinity (seed : Z) (pool : pg_pool_t) (osds : list Z) (primary : Z)
    : res (list Z * Z) :=
  match osd_primary_affinity m with
  | None => Ret (osds, primary)
  | Some aff =>
      any <~ any_affinity aff osds;;
      if negb any then Ret (osds, primary) else
      pos <~ affinity_pos aff seed osds 0 (-1);;
      if pos <? 0 then Ret (osds, primary) else
      primary <~ aget osds pos;;
      shift <~ can_shift_osds pool;;
      if (shift : bool) && (0 <? pos) then
        osds <~ rotate_loop (Z.to_nat pos) osds;;
        osds <~ aset osds 0 primary;;
        Ret (osds, primary)
      else Ret (osds, primary)
  end.

(** ** Temporary mappings *)

(** [for (unsigned i=0; i<p->second.size(); i++)] *)
Fixpoint temp_loop (pool : pg_pool_t) (osds : list Z) : res (list Z) :=
  match osds with
  | [] => Ret []
  | o :: osds =>
      g <~ gone o;;
      here <~ (if (g : bool) then
                 shift <~ can_shift_osds pool;; Ret (if (shift : bool) then [] else [CRUSH_ITEM_NONE])
               else Ret [o]);;
      l <~ temp_loop pool osds;;
      Ret (here ++ l)
  end.

(** [temp_pg] and [temp_primary]. *)
Definition _get_temp_osds (pool : pg_pool_t) (pg : pg_t) : res (list Z * Z) :=
  let pg := raw_pg_to_pg pool pg in
  temp_pg <~
    (match pg_temp m !! pg with
     | Some l => temp_loop pool l
     | None => Ret []
     end);;
  Ret (temp_pg,
       match primary_temp m !! pg with
       | Some p => p
       | None => _pick_primary temp_pg
       end).

(** ** The mapping functions *)

Definition pg_to_raw_osds (pg : pg_t) (raw : list Z) : res (list Z * Z) :=
  match get_pg_pool (pg_pool pg) with
  | None => Ret ([], -1)
  | Some pool =>
      '(raw, _) <~ _pg_to_raw_osds pool pg raw;;
      Ret (raw, _pick_primary raw)
  end.

(** [raw] and [raw_upmap]. *)
Definition pg_to_raw_upmap (pg : pg_t) (raw : list Z) : res (list Z * list Z) :=
  match get_pg_pool (pg_pool pg) with
  | None => Ret (raw, [])
  | Some pool =>
      '(raw, _) <~ _pg_to_raw_osds pool pg raw;;
      up <~ _apply_upmap pool pg raw;;
      Ret (raw, up)
  end.

Definition pg_to_raw_up (pg : pg_t) : res (list Z * Z) :=
  match get_pg_pool (pg_pool pg) with
  | None => Ret ([], -1)
  | Some pool =>
      '(raw, pps) <~ _pg_to_raw_osds pool pg [];;
      raw <~ _apply_upmap pool pg raw;;
      up <~ _raw_to_up_osds pool raw;;
      _apply_primary_affinity pps pool up (_pick_primary raw)
  end.

(** What [_pg_to_up_acting_osds] computes of its outputs. *)
Record up_acting := UpActing {
  ua_up : list Z;
  ua_up_primary : Z;
  ua_acting : list Z;
  ua_acting_primary : Z;
}.

(** The up set and its primary. *)
Definition up_of (pool : pg_pool_t) (pg : pg_t) : res (list Z * Z) :=
  '(raw, pps) <~ _pg_to_raw_osds pool pg [];;
  raw <~ _apply_upmap pool pg raw;;
  up <~ _raw_to_up_osds pool raw;;
  _apply_primary_affinity pps pool up (_pick_primary up).

(** With all four output pointers given. *)
Definition _pg_to_up_acting_osds (pg : pg_t) (raw_pg_to_pg : bool) : res up_acting :=
  match get_pg_pool (pg_pool pg) with
  | None => Ret (UpActing [] (-1) [] (-1))
  | Some pool =>
      if negb raw_pg_to_pg && (p_pg_num pool <=? ps pg) then Ret (UpActing [] (-1) [] (-1)) else
      '(acting, acting_primary) <~ _get_temp_osds pool pg;;
      '(up, up_primary) <~ up_of pool pg;;
      match acting with
      | [] => Ret (UpActing up up_primary up (if acting_primary =? -1 then up_primary else acting_primary))
      | _ :: _ => Ret (UpActing up up_primary acting acting_primary)
      end
  end.

(** [pg_to_acting_osds]: [up] and [up_primary] are null, so that the up set is
    computed only where there is no temporary mapping. *)
Definition pg_to_acting_osds (pg : pg_t) : res (list Z * Z) :=
  match get_pg_pool (pg_pool pg) with
  | None => Ret ([], -1)
  | Some pool =>
      '(acting, acting_primary) <~ _get_temp_osds pool pg;;
      match acting with
      | [] =>
          '(up, up_primary) <~ up_of pool pg;;
          Ret (up, if acting_primary =? -1 then up_primary else acting_primary)
      | _ :: _ => Ret (acting, acting_primary)
      end
  end.
End osdmap.

(** [for (int i=0; i<nrep; i++)] *)
Fixpoint rank_loop (n : nat) (i osd : Z) (acting : list Z) : res Z :=
  match n with
  | O => Ret (-1)
  | S n => v <~ aget acting i;; if v =? osd then Ret i else rank_loop n (i + 1) osd acting
  end.

Definition calc_pg_rank (osd : Z) (acting : list Z) (nrep : Z) : res Z :=
  let nrep := if nrep =? 0 then zlen acting else nrep in
  rank_loop (Z.to_nat nrep) 0 osd acting.

Definition calc_pg_role (osd : Z) (acting : list Z) (nrep : Z) : res Z := calc_pg_rank osd acting nrep.

Definition is_empty (l : list Z) : bool := match l with [] => true | _ => false end.

Definition primary_changed (oldprimary : Z) (oldacting : list Z) (newprimary : Z) (newacting : list Z) : res bool :=
  if is_empty oldacting && is_empty newacting then Ret false
  else if xorb (is_empty oldacting) (is_empty newacting) then Ret true
  else if negb (oldprimary =? newprimary) then Ret true
  else
    a <~ calc_pg_rank oldprimary oldacting 0;;
    b <~ calc_pg_rank newprimary newacting 0;;
    Ret (negb (a =? b)).

(** ** CrushWrapper *)

Definition DEFAULT_CHOOSE_ARGS : Z := -1.

(** [choose_args] maps an index to its array; [None] is a null [crush]. *)
Record CrushWrapper := MkCrushWrapper {
  cw_crush : option crush_map;
  cw_have_uniform_rules : bool;
  cw_choose_args : gmap Z (list crush_choose_arg);
}.

Section wrapper.
(** What uninitialised memory holds, and the fuel of the mapper's loops. *)
Context (junk : Z) (fuel : nat).

Definition cw_find_rule (w : CrushWrapper) (ruleset' type' size' : Z) : res Z :=
  match cw_crush w with
  | None => Ret (-1)
  | Some c =>
      uniform <~
        (if cw_have_uniform_rules w && (ruleset' <? s32 (max_rules c)) then
           r <~ aget (rules c) ruleset';;
           Ret (match r with
                | Some r => (mtype (mask r) =? type') && (min_size (mask r) <=? size') && (size' <=? max_size (mask r))
                | None => false
                end)
         else Ret false);;
      Ret (if (uniform : bool) then ruleset' else crush_find_rule c ruleset' type' size')
  end.

Definition choose_args_get_with_fallback (w : CrushWrapper) (choose_args_index : Z)
    : option (list crush_choose_arg) :=
  match cw_choose_args w !! choose_args_index with
  | Some l => Some l
  | None => cw_choose_args w !! DEFAULT_CHOOSE_ARGS
  end.

Definition cw_do_rule (w : CrushWrapper) (rule x maxout : Z) (weight : list Z) (choose_args_index : Z)
    : res (list Z) :=
  c <~ deref (cw_crush w);;
  let cells := replicate (Z.to_nat maxout) junk in
  work <~ crush_init_workspace c junk;;
  let args := choose_args_get_with_fallback w choose_args_index in
  '(numrep, rawout, _) <~
    crush_do_rule c weight (zlen weight) x args fuel rule cells maxout cells cells cells (MState work None);;
  let numrep := if numrep <? 0 then 0 else numrep in
  Ret (take (Z.to_nat numrep) rawout).

#[export] Instance crush_placement : Placement CrushWrapper :=
  {| find_rule := cw_find_rule; do_rule := cw_do_rule |}.
End wrapper.
