(* ===== verification/OsdMapSpec.v ===== *)
(** * What the mapping functions compute

    Each pass of the mapping as a function of lists: removing, replacing and
    rotating.  [distinct] is the property every pass keeps: no OSD serves two
    positions. *)

From stdpp Require Import gmap.
From S2P Require Import Prelude CrushHash CrushTypes CrushBucket CrushMapper CrushBuilder Bits Encoding Hobject PgTypes OsdMap.
Open Scope Z_scope.

(** No two positions hold the same OSD; [CRUSH_ITEM_NONE] may repeat. *)
Definition distinct (l : list Z) : Prop :=
  forall i j o, l !! i = Some o -> l !! j = Some o -> o <> CRUSH_ITEM_NONE -> i = j.

Lemma distinct_NoDup l : NoDup l -> distinct l.
Proof. intros Hl i j o Hi Hj _. by eapply NoDup_lookup. Qed.

Lemma distinct_filter (P : Z -> bool) l : distinct l -> distinct (filter (fun o => P o = true) l).
Proof.
  induction l as [|a l IH]; intros Hl; [done|]. assert (distinct l) as Hl'.
  { intros i j o Hi Hj Ho. specialize (Hl (S i) (S j) o Hi Hj Ho). lia. }
  rewrite filter_cons. case_decide as Ha; [|by apply IH]. specialize (IH Hl').
  assert (a <> CRUSH_ITEM_NONE -> forall k, filter (fun o => P o = true) l !! k = Some a -> False) as Hno.
  { intros Hne k Hk. apply list_elem_of_lookup_2, list_elem_of_filter in Hk as [_ Hin].
    apply list_elem_of_lookup_1 in Hin as [k' Hk']. by specialize (Hl O (S k') a eq_refl Hk' Hne). }
  intros [|i] [|j] o Hi Hj Ho; cbn in *; [done|..].
  - injection Hi as <-. exfalso. by eapply Hno.
  - injection Hj as <-. exfalso. by eapply Hno.
  - f_equal. by eapply IH.
Qed.

Lemma distinct_none (P : Z -> bool) l : distinct l -> distinct ((fun o => if P o then o else CRUSH_ITEM_NONE) <$> l).
Proof.
  intros Hl i j o Hi Hj Ho. apply list_lookup_fmap_Some in Hi as (a & -> & Hi), Hj as (b & E & Hj).
  destruct (P a), (P b); try done. subst. by eapply Hl.
Qed.

Lemma distinct_perm l l' : l ≡ₚ l' -> distinct l -> distinct l'.
Proof.
  intros HP Hl i j o Hi Hj Ho. destruct (Permutation_inj l' l) as [Hperm _]. destruct (Hperm (Permutation_sym HP)) as (_ & f & Hinj & Hf).
  rewrite Hf in Hi, Hj. specialize (Hl _ _ _ Hi Hj Ho). by apply Hinj.
Qed.

Lemma distinct_insert l pos o : distinct l -> o ∉ l -> distinct (<[pos := o]> l).
Proof.
  intros Hl Hno i j v Hi Hj Hv. apply list_lookup_insert_Some in Hi as [(-> & -> & Hi)|[Hne Hi]];
    apply list_lookup_insert_Some in Hj as [(Ej & Ev & Hj)|[Hne' Hj]]; try congruence.
  - exfalso. apply Hno. by eapply list_elem_of_lookup_2.
  - exfalso. subst. apply Hno. by eapply list_elem_of_lookup_2.
  - by eapply Hl.
Qed.

Section spec.
Context {C : Type} `{Placement C} (m : OSDMap C).

(** The vectors have an entry for every OSD. *)
Record wf_osdmap : Prop := WfOsdmap {
  wfo_max : 0 <= max_osd m < CRUSH_ITEM_NONE;
  wfo_state : zlen (osd_state m) = max_osd m;
  wfo_weight : zlen (osd_weight m) = max_osd m;
  wfo_affinity aff : osd_primary_affinity m = Some aff -> zlen aff = max_osd m;
}.

(** [exists] and [is_up] as tests. *)
Definition state_has (flag osd : Z) : bool :=
  match osd_state m !! Z.to_nat osd with
  | Some st => negb (Z.land st flag =? 0)
  | None => false
  end.

Definition existb (osd : Z) : bool := (0 <=? osd) && (osd <? max_osd m) && state_has CEPH_OSD_EXISTS osd.

Definition upb (osd : Z) : bool := existb osd && state_has CEPH_OSD_UP osd.

Context (Hwf : wf_osdmap).

Lemma osd_exists_spec osd : osd_exists m osd = Ret (existb osd).
Proof using Hwf.
  unfold osd_exists, existb, state_has. destruct (Z.leb_spec 0 osd), (Z.ltb_spec osd (max_osd m)); try done. cbn [andb].
  destruct (aget_in (osd_state m) osd) as (st & -> & E); [rewrite (wfo_state Hwf); lia|]. cbn [rbind]. by rewrite E.
Qed.

Lemma is_up_spec osd : is_up m osd = Ret (upb osd).
Proof using Hwf.
  unfold is_up, upb. rewrite osd_exists_spec. cbn [rbind]. unfold existb at 1 2. unfold state_has at 2 3.
  destruct (Z.leb_spec 0 osd), (Z.ltb_spec osd (max_osd m)); try done. cbn [andb].
  destruct (aget_in (osd_state m) osd) as (st & -> & E); [rewrite (wfo_state Hwf); lia|]. unfold state_has. rewrite E. cbn.
  by destruct (Z.land st CEPH_OSD_EXISTS =? 0).
Qed.

Lemma gone_spec osd : gone m osd = Ret (negb (upb osd)).
Proof using Hwf.
  unfold gone, is_down. rewrite osd_exists_spec, is_up_spec. cbn [rbind]. unfold upb. by destruct (existb osd).
Qed.

Lemma upb_range osd : upb osd = true -> 0 <= osd < max_osd m.
Proof. unfold upb, existb. intros E. repeat (apply andb_prop in E as [E ?]). zbool. lia. Qed.

Lemma upb_device osd : upb osd = true -> osd <> CRUSH_ITEM_NONE.
Proof using Hwf. intros E%upb_range. pose proof (wfo_max Hwf). lia. Qed.

(** ** Removing *)

Lemma remove_loop_spec n i removed osds :
  zlen osds = i + Z.of_nat n -> 0 <= removed <= i ->
  exists removed' osds', remove_loop m n i removed osds = Ret (removed', osds') /\ length osds' = length osds /\
    removed <= removed' <= zlen osds /\ (removed' = 0 -> osds' = osds) /\
    take (Z.to_nat (zlen osds - removed')) osds'
      = take (Z.to_nat (i - removed)) osds ++ filter (fun o => existb o = true) (drop (Z.to_nat i) osds).
Proof using Hwf.
  revert i removed osds. induction n as [|n IH]; intros i removed osds Hn Hr; cbn [remove_loop].
  - exists removed, osds. rewrite (drop_ge osds) by lia. split; [done|]. split; [done|]. split; [lia|]. split; [done|].
    rewrite filter_nil, app_nil_r. f_equal. lia.
  - destruct (aget_in osds i) as (o & -> & Eo); [lia|]. cbn [rbind]. rewrite osd_exists_spec. cbn [rbind].
    rewrite (drop_S osds o (Z.to_nat i)), filter_cons by done. destruct (existb o) eqn:Ee.
    + rewrite decide_True by done.
      assert (exists osds1, (if negb (removed =? 0) then aset osds (i - removed) o else Ret osds) = Ret osds1 /\
        length osds1 = length osds /\ (removed = 0 -> osds1 = osds) /\
        take (Z.to_nat (i + 1 - removed)) osds1 = take (Z.to_nat (i - removed)) osds ++ [o] /\
        drop (S (Z.to_nat i)) osds1 = drop (S (Z.to_nat i)) osds) as (osds1 & -> & Hl & H0 & Ht & Hd).
      { assert (Z.to_nat (i + 1 - removed) = S (Z.to_nat (i - removed))) as E1 by lia. rewrite E1.
        destruct (Z.eqb_spec removed 0) as [->|Hne]; cbn [negb].
        - exists osds. split; [done|]. split; [done|]. split; [done|]. split; [|done]. apply take_S_r.
          by replace (Z.to_nat (i - 0)) with (Z.to_nat i) by lia.
        - rewrite aset_in by lia. eexists. split; [done|]. split; [apply length_insert|]. split; [done|]. split.
          + rewrite (take_S_r _ _ o) by (apply list_lookup_insert_eq; lia). by rewrite take_insert_ge by lia.
          + by rewrite drop_insert_lt by lia. }
      cbn [rbind]. destruct (IH (i + 1) removed osds1) as (r' & osds' & E & Hl' & Hr' & H0' & Et); [lia..|].
      rewrite Hl in *. exists r', osds'. split; [done|]. split; [congruence|]. split; [lia|].
      split; [intros Hz; rewrite H0' by done; apply H0; lia|].
      rewrite Et, Ht, <- app_assoc. replace (Z.to_nat (i + 1)) with (S (Z.to_nat i)) by lia. by rewrite Hd.
    + rewrite decide_False by done. destruct (IH (i + 1) (removed + 1) osds) as (r' & osds' & E & Hl' & Hr' & H0' & Et); [lia..|].
      exists r', osds'. split; [done|]. split; [done|]. split; [lia|]. split; [done|].
      rewrite Et. replace (i + 1 - (removed + 1)) with (i - removed) by lia.
      by replace (Z.to_nat (i + 1)) with (S (Z.to_nat i)) by lia.
Qed.

Lemma none_loop_spec osds : none_loop m osds = Ret ((fun o => if existb o then o else CRUSH_ITEM_NONE) <$> osds).
Proof using Hwf.
  induction osds as [|o osds IH]; cbn [none_loop]; [done|]. rewrite osd_exists_spec. cbn [rbind]. by rewrite IH.
Qed.

(** Missing OSDs are dropped where positions may shift, else become holes. *)
Definition keep (P : Z -> bool) (shift : bool) (osds : list Z) : list Z :=
  if shift then filter (fun o => P o = true) osds else (fun o => if P o then o else CRUSH_ITEM_NONE) <$> osds.

Lemma keep_distinct P shift osds : distinct osds -> distinct (keep P shift osds).
Proof. destruct shift; [apply distinct_filter|apply distinct_none]. Qed.

Lemma keep_in P shift osds o : o ∈ keep P shift osds -> (o ∈ osds /\ P o = true) \/ (shift = false /\ o = CRUSH_ITEM_NONE).
Proof.
  destruct shift; cbn.
  - rewrite list_elem_of_filter. naive_solver.
  - intros (a & -> & Ha)%list_elem_of_fmap. destruct (P a) eqn:E; [by left|by right].
Qed.

Lemma keep_length P shift osds : (length (keep P shift osds) <= length osds)%nat.
Proof. destruct shift; cbn; [apply length_filter|by rewrite length_fmap]. Qed.

Lemma remove_nonexistent_spec pool osds shift :
  can_shift_osds pool = Ret shift -> _remove_nonexistent_osds m pool osds = Ret (keep existb shift osds).
Proof using Hwf.
  intros Hs. unfold _remove_nonexistent_osds. rewrite Hs. cbn [rbind]. destruct shift; [|apply none_loop_spec].
  destruct (remove_loop_spec (length osds) 0 0 osds) as (r & osds' & -> & Hl & Hr & H0 & Et); [lia..|]. cbn [rbind].
  change (0 - 0) with 0 in Et. change (Z.to_nat 0) with O in Et. rewrite take_0, drop_0, app_nil_l in Et. f_equal. cbn [keep]. rewrite <- Et. destruct (Z.eqb_spec r 0) as [->|]; cbn [negb].
  - rewrite H0 by done. rewrite take_ge; [done|]. lia.
  - by rewrite Hl.
Qed.

Lemma up_loop_spec shift raw : up_loop m shift raw = Ret (keep upb shift raw).
Proof using Hwf.
  induction raw as [|o raw IH]; cbn [up_loop]; [by destruct shift|]. rewrite gone_spec. cbn [rbind]. rewrite IH. cbn [rbind].
  f_equal. unfold keep. destruct shift; cbn [fmap list_fmap]; [rewrite filter_cons|]; destruct (upb o); cbn [negb]; done.
Qed.

Lemma temp_loop_spec pool shift raw : can_shift_osds pool = Ret shift -> temp_loop m pool raw = Ret (keep upb shift raw).
Proof using Hwf.
  intros Hs. induction raw as [|o raw IH]; cbn [temp_loop]; [by destruct shift|]. rewrite gone_spec, IH, Hs. cbn [rbind].
  unfold keep. destruct (upb o) eqn:E, shift; cbn [fmap list_fmap negb rbind]; rewrite ?filter_cons, ?E; done.
Qed.

(** ** Explicit mappings *)

(** A valid id with weight zero. *)
Definition outb (osd : Z) : bool :=
  (0 <=? osd) && (osd <? max_osd m) && match osd_weight m !! Z.to_nat osd with Some w => w =? 0 | None => false end.

Lemma marked_out_spec osd : marked_out m osd = Ret (outb osd).
Proof using Hwf.
  unfold marked_out, outb. pose proof (wfo_max Hwf). destruct (Z.leb_spec 0 osd), (Z.ltb_spec osd (max_osd m)); try by rewrite ?andb_false_r.
  rewrite (proj2 (Z.eqb_neq osd CRUSH_ITEM_NONE)) by lia. cbn [negb andb].
  destruct (aget_in (osd_weight m) osd) as (w & -> & E); [rewrite (wfo_weight Hwf); lia|]. by rewrite E.
Qed.

Lemma any_marked_out_spec osds : any_marked_out m osds = Ret (existsb outb osds).
Proof using Hwf.
  induction osds as [|o osds IH]; cbn [any_marked_out existsb]; [done|]. rewrite marked_out_spec. cbn [rbind]. by destruct (outb o).
Qed.

(** What a pair of [pg_upmap_items] asks for: the second OSD in place of the
    first occurrence of the first, unless it is there already or marked out. *)
Definition substitute (raw : list Z) (r : Z * Z) : list Z :=
  if bool_decide (r.2 ∈ raw) || outb r.2 then raw
  else match list_find (fun o => o = r.1) raw with
       | Some (i, _) => <[i := r.2]> raw
       | None => raw
       end.

Definition first_pos (first : Z) (rest : list Z) : option nat := fst <$> list_find (fun o => o = first) rest.

Lemma upmap_scan_spec rest i pos first second :
  0 <= i ->
  exists pos', upmap_scan m rest i pos first second = Ret (bool_decide (second ∈ rest), pos') /\
    (second ∉ rest -> pos' = if (0 <=? pos) || outb second then pos
                             else match first_pos first rest with Some j => i + Z.of_nat j | None => pos end).
Proof using Hwf.
  revert i pos. induction rest as [|osd rest IH]; intros i pos Hi; cbn [upmap_scan].
  { exists pos. split; [done|]. intros _. by destruct ((0 <=? pos) || outb second). }
  destruct (Z.eqb_spec osd second) as [->|Hne].
  { exists pos. split; [|intros []; apply list_elem_of_here]. by rewrite bool_decide_eq_true_2 by apply list_elem_of_here. }
  set (pos1 := if (osd =? first) && (pos <? 0) then if outb second then pos else i else pos).
  destruct (IH (i + 1) pos1) as (pos' & E & Hp'); [lia|]. exists pos'. split.
  - replace (bool_decide (second ∈ osd :: rest)) with (bool_decide (second ∈ rest)); [|apply bool_decide_ext; rewrite elem_of_cons; naive_solver].
    rewrite <- E. unfold pos1. destruct ((osd =? first) && (pos <? 0)); [rewrite marked_out_spec|]; done.
  - intros Hno. rewrite Hp' by (intros ?; apply Hno; by apply list_elem_of_further). clear IH E Hp'. unfold pos1, first_pos. cbn [list_find].
    destruct (decide (osd = first)) as [->|Hf]; cbn [fmap option_fmap option_map fst].
    + rewrite Z.eqb_refl. cbn [andb]. destruct (outb second); [by rewrite !orb_true_r; destruct (pos <? 0)|].
      rewrite !orb_false_r. destruct (Z.leb_spec 0 pos), (Z.ltb_spec pos 0); try lia.
      * by rewrite (proj2 (Z.leb_le 0 pos)) by done.
      * rewrite (proj2 (Z.leb_le 0 i)) by done. lia.
    + rewrite (proj2 (Z.eqb_neq osd first)) by done. cbn [andb]. destruct ((0 <=? pos) || outb second); [done|].
      destruct (list_find _ rest) as [[j o]|]; cbn; [lia|done].
Qed.

Lemma upmap_items_spec items raw : upmap_items m items raw = Ret (foldl substitute raw items).
Proof using Hwf.
  revert raw. induction items as [|[first second] items IH]; intros raw; cbn [upmap_items foldl]; [done|].
  destruct (upmap_scan_spec raw 0 (-1) first second) as (pos & -> & Hp); [done|]. cbn [rbind]. rewrite <- IH. unfold substitute; cbn [fst snd].
  case_bool_decide as Hin; cbn [negb andb orb]; [done|]. rewrite (Hp Hin). unfold first_pos. change (0 <=? -1) with false. cbn [orb].
  destruct (outb second); [done|]. destruct (list_find _ raw) as [[j o]|] eqn:Ef; cbn [fmap option_fmap option_map fst]; [|done].
  rewrite Z.add_0_l, (proj2 (Z.leb_le 0 (Z.of_nat j))) by lia. apply list_find_Some in Ef as (Ej & _). apply lookup_lt_Some in Ej.
  rewrite aset_in by lia. cbn [rbind]. by rewrite Nat2Z.id.
Qed.

Lemma substitute_length raw r : length (substitute raw r) = length raw.
Proof. unfold substitute. case_bool; [done|]. destruct (list_find _ raw) as [[]|]; [apply length_insert|done]. Qed.

Lemma substitute_distinct raw r : distinct raw -> distinct (substitute raw r).
Proof.
  intros Hd. unfold substitute. case_bool_decide as Hin; cbn [orb]; [done|]. destruct (outb r.2); [done|].
  destruct (list_find _ raw) as [[]|]; [|done]. by apply distinct_insert.
Qed.

Lemma substitute_all items raw :
  length (foldl substitute raw items) = length raw /\ (distinct raw -> distinct (foldl substitute raw items)).
Proof.
  revert raw. induction items as [|r items IH]; intros raw; cbn [foldl]; [done|]. destruct (IH (substitute raw r)) as [El Hd].
  rewrite El, substitute_length. split; [done|]. intros H0. by apply Hd, substitute_distinct.
Qed.

(** The mapping with the explicit mappings of the group applied. *)
Definition explicit (raw : list Z) (upmap : option (list Z)) (items : option (list (Z * Z))) : list Z :=
  match upmap with
  | Some l => if existsb outb l then raw else foldl substitute l (default [] items)
  | None => foldl substitute raw (default [] items)
  end.

(** The documented mapping: a pair whose second id is no OSD is ignored too. *)
Definition intended (raw : list Z) (upmap : option (list Z)) (items : option (list (Z * Z))) : list Z :=
  explicit raw upmap (filter (fun r => 0 <= r.2 < max_osd m) <$> items).

Lemma intended_eq raw upmap items :
  (forall l r, items = Some l -> r ∈ l -> 0 <= r.2 < max_osd m) -> explicit raw upmap items = intended raw upmap items.
Proof.
  intros Hv. unfold intended. destruct items as [l|]; [|done]. cbn. do 2 f_equal. symmetry.
  specialize (fun r => Hv l r eq_refl). clear upmap. induction l as [|r l IH]; [done|]. rewrite filter_cons_True by (apply Hv; by left). f_equal. apply IH. intros r' Hr'. apply Hv. by right.
Qed.

Lemma apply_upmap_eq pool pg raw (pg' := raw_pg_to_pg pool pg) :
  _apply_upmap m pool pg raw = Ret (explicit raw (pg_upmap m !! pg') (pg_upmap_items m !! pg')).
Proof using Hwf.
  unfold _apply_upmap. fold pg'. destruct (pg_upmap m !! pg') as [l|]; cbn [rbind explicit].
  - rewrite any_marked_out_spec. cbn [rbind]. destruct (existsb outb l); [done|]. destruct (pg_upmap_items m !! pg'); [apply upmap_items_spec|done].
  - destruct (pg_upmap_items m !! pg'); [apply upmap_items_spec|done].
Qed.

Lemma apply_upmap_spec pool pg raw :
  exists raw', _apply_upmap m pool pg raw = Ret raw' /\
    (distinct raw -> (forall l, pg_upmap m !! raw_pg_to_pg pool pg = Some l -> distinct l) -> distinct raw') /\
    (pg_upmap m !! raw_pg_to_pg pool pg = None -> length raw' = length raw /\
      (pg_upmap_items m !! raw_pg_to_pg pool pg = None -> raw' = raw)).
Proof using Hwf.
  rewrite apply_upmap_eq. eexists. split; [done|]. destruct (pg_upmap m !! raw_pg_to_pg pool pg) as [l|]; cbn [explicit].
  - split; [|done]. intros Hr Hl. destruct (existsb outb l); [done|]. by apply substitute_all, Hl.
  - split; [intros Hr _; by apply substitute_all|]. intros _. split; [apply substitute_all|]. by intros ->.
Qed.

(** ** Primaries *)

Lemma pick_primary_spec osds :
  (Forall (fun o => o = CRUSH_ITEM_NONE) osds /\ _pick_primary osds = -1) \/
  (_pick_primary osds ∈ osds /\ _pick_primary osds <> CRUSH_ITEM_NONE).
Proof.
  induction osds as [|o osds IH]; cbn [_pick_primary]; [by left|]. destruct (Z.eqb_spec o CRUSH_ITEM_NONE) as [->|Hne]; cbn [negb].
  - destruct IH as [[HF E]|[Hin Hne]]; [left; by split; [constructor|]|right; split; [by apply list_elem_of_further|done]].
  - right. split; [apply list_elem_of_here|done].
Qed.

Lemma any_affinity_total aff osds :
  (forall o, o ∈ osds -> o <> CRUSH_ITEM_NONE -> 0 <= o < zlen aff) -> exists b, any_affinity aff osds = Ret b.
Proof.
  intros Hin. induction osds as [|o osds IH]; cbn [any_affinity]; [eauto|].
  destruct IH as [b ->]; [intros o' Ho'; apply Hin; by apply list_elem_of_further|].
  destruct (Z.eqb_spec o CRUSH_ITEM_NONE); cbn [negb]; [eauto|].
  destruct (aget_in aff o) as (a & -> & _); [apply Hin; [apply list_elem_of_here|done]|]. cbn [rbind]. case_bool; eauto.
Qed.

Lemma affinity_pos_spec aff seed osds i pos :
  (forall o, o ∈ osds -> o <> CRUSH_ITEM_NONE -> 0 <= o < zlen aff) -> 0 <= i ->
  exists pos', affinity_pos aff seed osds i pos = Ret pos' /\
    ((pos' = pos /\ (pos < 0 -> Forall (fun o => o = CRUSH_ITEM_NONE) osds)) \/
     exists k o, pos' = i + Z.of_nat k /\ osds !! k = Some o /\ o <> CRUSH_ITEM_NONE).
Proof.
  revert i pos. induction osds as [|o osds IH]; intros i pos Hin Hi; cbn [affinity_pos]; [exists pos; naive_solver|].
  assert (forall o, o ∈ osds -> o <> CRUSH_ITEM_NONE -> 0 <= o < zlen aff) as Hin' by (intros; apply Hin; [by apply list_elem_of_further|done]).
  destruct (Z.eqb_spec o CRUSH_ITEM_NONE) as [->|Hne].
  { destruct (IH (i + 1) pos Hin' ltac:(lia)) as (pos' & -> & [[-> HF]|(k & o & -> & Ek & Ho)]); eexists; (split; [done|]).
    - left. split; [done|]. intros Hp. constructor; [done|by apply HF].
    - right. exists (S k), o. split; [lia|done]. }
  destruct (aget_in aff o) as (a & -> & _); [apply Hin; [apply list_elem_of_here|done]|]. cbn [rbind]. case_bool.
  - destruct (IH (i + 1) (if pos <? 0 then i else pos) Hin' ltac:(lia)) as (pos' & -> & [[-> HF]|(k & o' & -> & Ek & Ho)]); eexists; (split; [done|]).
    + destruct (Z.ltb_spec pos 0); [right; exists 0%nat, o; split; [lia|done]|left; split; [done|lia]].
    + right. exists (S k), o'. split; [lia|done].
  - eexists. split; [done|]. right. exists 0%nat, o. split; [lia|done].
Qed.

Lemma rotate_loop_spec n osds :
  (n < length osds)%nat -> exists v, osds !! 0%nat = Some v /\
    rotate_loop n osds = Ret (v :: take n osds ++ drop (S n) osds).
Proof.
  revert osds. induction n as [|n IH]; intros osds Hn.
  - destruct osds as [|v osds]; [cbn in Hn; lia|]. exists v. cbn. by rewrite drop_0.
  - cbn [rotate_loop]. destruct (aget_in osds (Z.of_nat (S n) - 1)) as (v & -> & Ev); [lia|]. cbn [rbind].
    rewrite aset_in by lia. cbn [rbind]. rewrite Nat2Z.id.
    replace (Z.to_nat (Z.of_nat (S n) - 1)) with n in Ev by lia.
    destruct (IH (<[S n := v]> osds)) as (v0 & E0 & ->); [rewrite length_insert; lia|].
    rewrite list_lookup_insert_ne in E0 by lia. exists v0. split; [done|]. do 2 f_equal.
    rewrite take_insert_ge by lia. rewrite (take_S_r osds n v Ev), <- app_assoc. f_equal.
    rewrite (drop_S _ v (S n)) by (apply list_lookup_insert_eq; lia). rewrite drop_insert_lt by lia. done.
Qed.

(** The primary comes from the list where there is one; the list is permuted
    to put it first where positions may shift, and unchanged otherwise. *)
Lemma affinity_spec seed pool osds primary shift :
  can_shift_osds pool = Ret shift -> (forall o, o ∈ osds -> o <> CRUSH_ITEM_NONE -> upb o = true) ->
  primary = _pick_primary osds ->
  exists osds' primary', _apply_primary_affinity m seed pool osds primary = Ret (osds', primary') /\ osds' ≡ₚ osds /\
    (shift = false -> osds' = osds) /\
    ((Forall (fun o => o = CRUSH_ITEM_NONE) osds /\ primary' = -1) \/ (primary' ∈ osds /\ primary' <> CRUSH_ITEM_NONE)) /\
    (shift = true -> CRUSH_ITEM_NONE ∉ osds -> osds = [] \/ head osds' = Some primary').
Proof using Hwf.
  intros Hs Hup ->. unfold _apply_primary_affinity. pose proof (pick_primary_spec osds) as Hp.
  assert (CRUSH_ITEM_NONE ∉ osds -> osds = [] \/ head osds = Some (_pick_primary osds)) as Hhd.
  { destruct osds as [|o l]; [by left|]. intros Hno. right. cbn. destruct (Z.eqb_spec o CRUSH_ITEM_NONE) as [->|]; [|done].
    exfalso. apply Hno, list_elem_of_here. }
  destruct (osd_primary_affinity m) as [aff|] eqn:Eaff; [|exists osds, (_pick_primary osds); naive_solver].
  assert (forall o, o ∈ osds -> o <> CRUSH_ITEM_NONE -> 0 <= o < zlen aff) as Hin.
  { intros o Ho Hne. rewrite (wfo_affinity Hwf aff Eaff). by apply upb_range, Hup. }
  destruct (any_affinity_total aff osds Hin) as [[] ->]; cbn [rbind negb]; [|exists osds, (_pick_primary osds); naive_solver].
  destruct (affinity_pos_spec aff seed osds 0 (-1) Hin ltac:(lia)) as (pos & -> & Hpos); cbn [rbind].
  destruct Hpos as [[-> HF]|(k & o & -> & Ek & Ho)]; [cbn; exists osds, (_pick_primary osds); naive_solver|].
  destruct (Z.ltb_spec (0 + Z.of_nat k) 0); [lia|]. pose proof (lookup_lt_Some _ _ _ Ek) as Hlt.
  destruct (aget_in osds (0 + Z.of_nat k)) as (o' & -> & Eo'); [lia|]. cbn [rbind].
  replace (Z.to_nat (0 + Z.of_nat k)) with k in Eo' by lia. rewrite Ek in Eo'. injection Eo' as <-.
  rewrite Hs. cbn [rbind]. assert (o ∈ osds) as Hoin by (by eapply list_elem_of_lookup_2).
  destruct shift; cbn [andb]; [|exists osds, o; naive_solver].
  destruct (Z.ltb_spec 0 (0 + Z.of_nat k)) as [Hk|Hk].
  - replace (Z.to_nat (0 + Z.of_nat k)) with k by lia. destruct (rotate_loop_spec k osds Hlt) as (v & Ev & ->). cbn [rbind].
    rewrite aset_in by (cbn; lia). cbn [rbind].
    change (<[Z.to_nat 0 := o]> (v :: take k osds ++ drop (S k) osds)) with (o :: take k osds ++ drop (S k) osds).
    eexists _, o. split; [done|].
    split; [|split; [done|split; [by right|by right]]].
    rewrite <- (take_drop_middle osds k o Ek) at 3. apply Permutation_middle.
  - assert (k = 0%nat) as -> by lia. exists osds, o. split; [done|]. split; [done|]. split; [done|]. split; [by right|].
    intros _ _. right. by destruct osds.
Qed.
End spec.
