(* ===== verification/OsdMapCrush.v ===== *)
(** * The mapping over CRUSH

    [Places] is what a crush map promises to the OSD map: a rule is found, and
    its output has a property.  The mapping functions are proved against it,
    and [CrushWrapper] is shown to keep the promise with the rules of
    replicated and of erasure-coded pools. *)

From stdpp Require Import gmap relations.
From S2P Require Import Prelude CrushHash CrushTypes CrushBucket CrushMapper CrushWf CrushRule CrushPlace CrushBuilder Bits Encoding Hobject PgTypes PgMap OsdMap OsdMapSpec.
Open Scope Z_scope.

(** ** The promise *)

Class Places {C} `{Placement C} (c : C) (weight : list Z) (pool : pg_pool_t) (idx : Z) (good : Z -> list Z -> Prop) : Prop :=
  places : exists ruleno, find_rule c (p_crush_rule pool) (p_type pool) (p_size pool) = Ret ruleno /\
    (0 <= ruleno -> forall x, exists out, do_rule c ruleno x (p_size pool) weight idx = Ret out /\ good x out).

Lemma places_weaken {C} `{Placement C} (c : C) weight pool idx (good good' : Z -> list Z -> Prop) :
  (forall x out, good x out -> good' x out) -> Places c weight pool idx good -> Places c weight pool idx good'.
Proof. intros Hi (r & Hf & Hr). exists r. split; [done|]. intros H0 x. destruct (Hr H0 x) as (out & ? & ?). eauto. Qed.

(** No rule is found. *)
Definition no_rule {C} `{Placement C} (c : C) (pool : pg_pool_t) : Prop :=
  exists ruleno, find_rule c (p_crush_rule pool) (p_type pool) (p_size pool) = Ret ruleno /\ ruleno < 0.

Section mapping.
Context {C : Type} `{Placement C} (m : OSDMap C) (Hwf : wf_osdmap m).
Context (pool : pg_pool_t) (shift : bool) (Hshift : can_shift_osds pool = Ret shift).

(** The raw output: nothing where no rule is found. *)
Lemma raw_spec pg good :
  Places (crush m) (osd_weight m) pool (pg_pool pg) good -> (no_rule (crush m) pool -> good (s32 (raw_pg_to_pps pool pg)) []) ->
  exists out, good (s32 (raw_pg_to_pps pool pg)) out /\
    _pg_to_raw_osds m pool pg [] = Ret (keep (existb m) shift out, raw_pg_to_pps pool pg).
Proof using Hwf Hshift.
  intros (ruleno & Hfind & Hrule) Hnil. unfold _pg_to_raw_osds. rewrite Hfind. cbn [rbind].
  assert (exists out, (if 0 <=? ruleno then do_rule (crush m) ruleno (s32 (raw_pg_to_pps pool pg)) (p_size pool) (osd_weight m) (pg_pool pg)
    else Ret []) = Ret out /\ good (s32 (raw_pg_to_pps pool pg)) out) as (out & -> & Hout).
  { destruct (Z.leb_spec 0 ruleno) as [Hr|Hr]; [by apply Hrule|]. exists []. split; [done|]. apply Hnil. by exists ruleno. }
  cbn [rbind]. exists out. split; [done|]. by rewrite (remove_nonexistent_spec m Hwf pool out shift Hshift).
Qed.

(** The up set of a placement group. *)
Record up_ok (up : list Z) (primary : Z) : Prop := UpOk {
  uo_up o : o ∈ up -> upb m o = true \/ (shift = false /\ o = CRUSH_ITEM_NONE);
  uo_distinct : distinct up;
  uo_primary : (Forall (fun o => o = CRUSH_ITEM_NONE) up /\ primary = -1) \/ (primary ∈ up /\ upb m primary = true);
  uo_first : shift = true -> up = [] \/ head up = Some primary;
}.

Lemma upb_none : upb m CRUSH_ITEM_NONE = false.
Proof using Hwf. destruct (upb m CRUSH_ITEM_NONE) eqn:E; [|done]. by apply (upb_device m Hwf) in E. Qed.

Lemma keep_up raw o : o ∈ keep (upb m) shift raw -> o <> CRUSH_ITEM_NONE -> upb m o = true.
Proof. intros [[_ ?]|[_ ->]]%keep_in Hne; done. Qed.

(** From a list of OSDs to the up set. *)
Lemma up_of_raw raw pps :
  distinct raw ->
  exists up primary, (up <~ _raw_to_up_osds m pool raw;; _apply_primary_affinity m pps pool up (_pick_primary up)) = Ret (up, primary) /\
    up ≡ₚ keep (upb m) shift raw /\ (shift = false -> up = keep (upb m) shift raw) /\ up_ok up primary.
Proof using Hwf Hshift.
  intros Hd. unfold _raw_to_up_osds. rewrite Hshift. cbn [rbind]. rewrite (up_loop_spec m Hwf). cbn [rbind].
  destruct (affinity_spec m Hwf pps pool (keep (upb m) shift raw) _ shift Hshift (keep_up raw) eq_refl)
    as (up & primary & -> & Hperm & Heq & Hp & Hh).
  exists up, primary. split; [done|]. split; [done|]. split; [done|].
  assert (forall o, o ∈ up -> o ∈ keep (upb m) shift raw) as Hin by (intros o; by rewrite Hperm). split.
  - intros o [[_ ?]|?]%Hin%keep_in; [by left|by right].
  - eapply distinct_perm; [by symmetry|by apply keep_distinct].
  - destruct Hp as [[HF ->]|[Hi Hne]]; [left; split; [by rewrite Hperm|done]|right].
    split; [by rewrite Hperm|by apply (keep_up raw)].
  - intros E. destruct (Hh E) as [E0|?]; [|left; apply Permutation_nil; by rewrite <- E0, Hperm|by right].
    intros Hn. apply keep_in in Hn as [[_ Hn]|[Hs _]]; [by rewrite upb_none in Hn|congruence].
Qed.

Lemma up_of_spec pg good :
  Places (crush m) (osd_weight m) pool (pg_pool pg) good -> (no_rule (crush m) pool -> good (s32 (raw_pg_to_pps pool pg)) []) ->
  (forall x out, good x out -> distinct out) ->
  (forall l, pg_upmap m !! raw_pg_to_pg pool pg = Some l -> distinct l) ->
  exists up primary, up_of m pool pg = Ret (up, primary) /\ up_ok up primary /\
    (pg_upmap m !! raw_pg_to_pg pool pg = None -> pg_upmap_items m !! raw_pg_to_pg pool pg = None ->
     exists out, good (s32 (raw_pg_to_pps pool pg)) out /\ up ≡ₚ keep (upb m) shift out /\ (shift = false -> up = keep (upb m) shift out)).
Proof using Hwf Hshift.
  intros HP Hnil Hgood Hmap. destruct (raw_spec pg good HP Hnil) as (out & Hout & Eraw). unfold up_of. rewrite Eraw. cbn [rbind].
  destruct (apply_upmap_spec m Hwf pool pg (keep (existb m) shift out)) as (raw' & -> & Hd & Hsame). cbn [rbind].
  destruct (up_of_raw raw' (raw_pg_to_pps pool pg)) as (up & primary & E & Hperm & Heq & Hok).
  { apply Hd; [by apply keep_distinct, (Hgood _ _ Hout)|done]. }
  exists up, primary. split; [done|]. split; [done|]. intros Hn Hn'. destruct (Hsame Hn) as [_ Hid]. rewrite (Hid Hn') in *.
  exists out. split; [done|].
  assert (keep (upb m) shift (keep (existb m) shift out) = keep (upb m) shift out) as <-; [|done].
  clear. unfold keep. destruct shift.
  - rewrite list_filter_filter. apply list_filter_iff. intros o. unfold upb. rewrite andb_true_iff. tauto.
  - rewrite <- list_fmap_compose. apply list_fmap_ext. intros i o _. unfold compose, upb.
    destruct (existb m o) eqn:E; [by rewrite E|]. cbn. destruct (existb m CRUSH_ITEM_NONE); [|done]. by destruct (state_has m CEPH_OSD_UP CRUSH_ITEM_NONE).
Qed.

(** Temporary mappings. *)
Lemma temp_spec pg :
  exists temp primary, _get_temp_osds m pool pg = Ret (temp, primary) /\
    (forall o, o ∈ temp -> upb m o = true \/ (shift = false /\ o = CRUSH_ITEM_NONE)) /\
    match primary_temp m !! raw_pg_to_pg pool pg with
    | Some p => primary = p
    | None => primary = _pick_primary temp
    end /\
    (pg_temp m !! raw_pg_to_pg pool pg = None -> temp = []) /\
    (forall l, pg_temp m !! raw_pg_to_pg pool pg = Some l -> temp = keep (upb m) shift l).
Proof using Hwf Hshift.
  unfold _get_temp_osds. destruct (pg_temp m !! raw_pg_to_pg pool pg) as [l|].
  - rewrite (temp_loop_spec m Hwf pool shift) by done. cbn [rbind]. eexists _, _. split; [done|].
    split; [|split; [by destruct (primary_temp m !! _)|split; [done|by intros ? [= <-]]]].
    intros o [[_ ?]|?]%keep_in; [by left|by right].
  - cbn [rbind]. eexists _, _. split; [done|]. split; [by intros o ?%not_elem_of_nil|]. split; [by destruct (primary_temp m !! _)|done].
Qed.
End mapping.

(** ** CrushWrapper *)

Section wrapper.
Context (w : CrushWrapper) (c : crush_map) (rk : Z -> nat) (D : nat) (T L : Z) (junk : Z) (fuel : nat).
Context (weight : list Z) (idx : Z) (pool : pg_pool_t).
Context (Hc : cw_crush w = Some c) (Hws : working_size c = work_bytes c).
Context (Henv : placement_env c rk D (choose_args_get_with_fallback w idx) weight (zlen weight) (p_size pool) T L fuel).
Context (ruleno : Z) (rule : crush_rule) (root : crush_bucket) (a1 ty : Z).
Context (Hfind : cw_find_rule w (p_crush_rule pool) (p_type pool) (p_size pool) = Ret ruleno).
Context (Hrule : rule_at c ruleno rule) (Hroot : in_map c root) (Ha1 : a1 < 2 ^ 31).

#[local] Existing Instance crush_placement.

Lemma wrapper_room : room (p_size pool) (replicate (Z.to_nat (p_size pool)) junk) (replicate (Z.to_nat (p_size pool)) junk)
  (replicate (Z.to_nat (p_size pool)) junk) (replicate (Z.to_nat (p_size pool)) junk).
Proof using Henv. pose proof (pe_max _ _ _ _ _ _ _ _ _ _ Henv). unfold room. rewrite !length_replicate. lia. Qed.

(** The output of [do_rule] is that of [crush_do_rule] on a fresh workspace. *)
Lemma wrapper_run x n result' t' :
  0 <= n ->
  (forall wk, work_ok c wk -> exists wk', work_ok c wk' /\
    crush_do_rule c weight (zlen weight) x (choose_args_get_with_fallback w idx) fuel ruleno
      (replicate (Z.to_nat (p_size pool)) junk) (p_size pool) (replicate (Z.to_nat (p_size pool)) junk)
      (replicate (Z.to_nat (p_size pool)) junk) (replicate (Z.to_nat (p_size pool)) junk) (MState wk None)
      = Ret (n, result', MState wk' t')) ->
  cw_do_rule junk fuel w ruleno x (p_size pool) weight idx = Ret (take (Z.to_nat n) result').
Proof using Hc Hws Henv.
  intros Hn Hrun. unfold cw_do_rule. rewrite Hc. cbn [deref rbind].
  destruct (init_workspace_ok c rk D junk (pe_map _ _ _ _ _ _ _ _ _ _ Henv) Hws) as (wk & -> & Hwk). cbn [rbind].
  destruct (Hrun wk Hwk) as (wk' & _ & ->). cbn [rbind]. destruct (Z.ltb_spec n 0); [lia|done].
Qed.

Let numrep := if a1 <=? 0 then a1 + p_size pool else a1.
Context (Hnum : 0 < numrep).

(** A replicated pool: devices in distinct failure domains. *)
Lemma places_replicated :
  one_choose_rule T L rule true true root a1 ty ->
  @Places _ (crush_placement junk fuel) w weight pool idx (fun x out =>
    exists domains, spread c weight (zlen weight) x root ty out domains).
Proof using Hc Hws Henv Hfind Hrule Hroot Ha1 Hnum.
  intros Hone. exists ruleno. split; [exact Hfind|]. intros _ x.
  destruct (replicated_result c rk D _ weight (zlen weight) (p_size pool) T L fuel x ruleno rule root a1 ty _ _ _ _ None
              Henv Hrule Hone Hroot Ha1 Hnum wrapper_room ltac:(done)) as (n & result' & t' & domains & Hn & Hsp & _ & Hrun).
  exists (take (Z.to_nat n) result'). split; [apply (wrapper_run x n result' t'); [lia|done]|by exists domains].
Qed.

(** No device lies in two failure domains below the root.  The shadow trees of
    the device classes, which are below roots of their own, do not matter. *)
Definition domains_disjoint : Prop := forall d dom dom',
  tc (child c) (id root) dom -> tc (child c) (id root) dom' -> tc (child c) dom d -> tc (child c) dom' d -> item_type c dom = Ret ty -> item_type c dom' = Ret ty -> dom = dom'.

(** An erasure-coded pool over such a map: the positions asked for, no device
    in two of them. *)
Lemma places_erasure :
  one_choose_rule T L rule false true root a1 ty -> ty <> 0 -> domains_disjoint ->
  @Places _ (crush_placement junk fuel) w weight pool idx (fun x out =>
    distinct out /\ zlen out = Z.min numrep (p_size pool) /\
    cw_do_rule junk fuel w ruleno x (p_size pool) weight idx = Ret out).
Proof using Hc Hws Henv Hfind Hrule Hroot Ha1 Hnum.
  intros Hone Hty Hdis. exists ruleno. split; [exact Hfind|]. intros _ x.
  destruct (erasure_result c rk D _ weight (zlen weight) (p_size pool) T L fuel x ruleno rule root a1 ty _ _ _ _ None
              Henv Hrule Hone Hroot Hty Ha1 Hnum wrapper_room ltac:(done)) as (result' & t' & domains & Hcell & Hrun).
  exists (take (Z.to_nat (Z.min numrep (p_size pool))) result').
  assert (0 < p_size pool) by (pose proof (pe_max _ _ _ _ _ _ _ _ _ _ Henv); lia). fold numrep in Hcell, Hrun.
  pose proof (wrapper_run x (Z.min numrep (p_size pool)) result' t' ltac:(lia) Hrun) as Hdo. split; [exact Hdo|]. split; [|split; [|exact Hdo]].
  2: { destruct (Hcell (Z.to_nat (Z.min numrep (p_size pool)) - 1)%nat ltac:(lia)) as (d & _ & Ed & _).
       apply lookup_lt_Some in Ed. rewrite length_take. lia. }
  intros i j o Hi Hj Ho. apply lookup_take_Some in Hi as [Hi Hil], Hj as [Hj Hjl].
  destruct (Hcell i Hil) as (d & dom & Ed & Edom & Hd), (Hcell j Hjl) as (d' & dom' & Ed' & Edom' & Hd').
  assert (d = o) as -> by congruence. assert (d' = o) as -> by congruence.
  destruct Hd as [[-> _]|(Ho1 & Hdom & Htc & Huniq)]; [done|]. destruct Hd' as [[-> _]|(_ & Hdom' & Htc' & _)]; [done|].
  assert (dom = dom') as <- by (eapply Hdis; [apply Hdom|apply Hdom'|done|done|apply Hdom|apply Hdom']). symmetry. by apply Huniq.
Qed.
End wrapper.

(** ** Spreads *)

(** The up set of a spread output is spread. *)
Lemma spread_sub c weight wmax x root ty out domains (P : Z -> bool) up :
  spread c weight wmax x root ty out domains -> up ≡ₚ filter (fun o => P o = true) out ->
  exists domains', spread c weight wmax x root ty up domains'.
Proof.
  intros (Hd & Hdom & HF) Hup.
  set (pairs := zip out domains). pose proof (Forall2_length HF) as Hlen.
  assert (pairs.*1 = out /\ pairs.*2 = domains) as [E1 E2] by (split; [apply fst_zip|apply snd_zip]; lia).
  assert (Forall (fun p => item_ok c weight wmax x (id root) 0 p.1 /\ item_ok c weight wmax x (id root) ty p.2 /\
    (p.1 = p.2 \/ tc (child c) p.2 p.1)) pairs) as HP.
  { apply Forall_lookup. intros i [d dom] Hi. apply lookup_zip_Some in Hi as [H1 H2]. by eapply (Forall2_lookup_lr _ _ _ _ _ _ HF). }
  assert (filter (fun o => P o = true) out = (filter (fun p => P p.1 = true) pairs).*1) as E.
  { rewrite <- E1. clear. induction pairs as [|[d dom] l IH]; [done|]. rewrite fmap_cons, !filter_cons. cbn [fst].
    destruct (decide (P d = true)); [rewrite fmap_cons; by f_equal|done]. }
  rewrite E in Hup. destruct (Permutation_map_inv _ _ Hup) as (q & -> & Hq).
  assert (q.*2 ⊆+ domains) as Hsub.
  { rewrite <- Hq, <- E2. apply fmap_submseteq, sublist_submseteq, sublist_filter. }
  exists (q.*2). split; [|split].
  - change (NoDup (q.*1)). rewrite <- Hq, <- E. by apply list_relations.list.NoDup_filter.
  - apply submseteq_Permutation in Hsub as [k Hk]. rewrite Hk in Hdom. by apply list_relations.list.NoDup_app in Hdom as [? _].
  - apply Forall2_fmap, Forall_Forall2_diag. rewrite <- Hq. apply list_relations.list.Forall_forall. intros p0 Hp0.
    apply list_elem_of_filter in Hp0 as [_ Hp0]. by eapply (proj1 (list_relations.list.Forall_forall _ _) HP).
Qed.
