(* ===== verification/PgTheorems.v ===== *)
(** * The guarantees of placement groups

    How objects map to the placement groups of a pool, and what happens to
    them when the number of groups changes, each theorem with an instance on a
    pool of twelve groups. *)

From stdpp Require Import gmap.
From S2P Require Import Prelude CrushHash Bits Encoding Hobject HobjectOrder PgTypes PgMap.
Open Scope Z_scope.

(** A pool of [n] groups placed as [np] groups, with hashed pool ids. *)
Definition sample_pool (n np k kp : Z) : pg_pool_t := PgPool 1 1 3 2 0 2 n np n (2 ^ k - 1) (2 ^ kp - 1).

Lemma sample_pool_wf n np : num_ok n -> num_ok np -> wf_pool (sample_pool n np (cbits (n - 1)) (cbits (np - 1))).
Proof. intros. by split. Qed.

(** C17. When the number of groups of a pool grows, an object stays in its
    group or moves to a new group whose ancestor is the group it was in. *)
Theorem growth_is_stable old new pool h :
  wf_pool old -> wf_pool new -> p_pg_num old <= p_pg_num new ->
  get_ancestor (mk_pg (raw_hash_to_pg new h) pool) (p_pg_num old) = Ret (mk_pg (raw_hash_to_pg old h) pool) /\
  (raw_hash_to_pg new h = raw_hash_to_pg old h \/ p_pg_num old <= raw_hash_to_pg new h < p_pg_num new).
Proof.
  intros Hold Hnew Hle. pose proof (wfp_pg_num _ Hold) as Hn. rewrite get_ancestor_spec, !raw_hash_bin by done.
  cbn [mk_pg m_seed set_ps m_pool]. rewrite bin_bin by (unfold num_ok in Hn; lia). split; [done|].
  pose proof (bin_range (p_pg_num new) h ltac:(destruct (wfp_pg_num _ Hnew); lia)).
  destruct (Z_lt_le_dec (bin (p_pg_num new) h) (p_pg_num old)); [left|right; lia].
  rewrite <- (bin_bin (p_pg_num old) (p_pg_num new)) by (unfold num_ok in Hn; lia). symmetry. apply bin_small. lia.
Qed.

Lemma growth_is_stable_witness :
  get_ancestor (mk_pg (raw_hash_to_pg (sample_pool 20 12 5 4) 0x9f3d) 7) 12 = Ret (mk_pg (raw_hash_to_pg (sample_pool 12 12 4 4) 0x9f3d) 7) /\
  (raw_hash_to_pg (sample_pool 20 12 5 4) 0x9f3d = raw_hash_to_pg (sample_pool 12 12 4 4) 0x9f3d \/
   12 <= raw_hash_to_pg (sample_pool 20 12 5 4) 0x9f3d < 20).
Proof.
  apply (growth_is_stable (sample_pool 12 12 4 4) (sample_pool 20 12 5 4) 7 0x9f3d).
  - apply (sample_pool_wf 12 12); unfold num_ok; lia.
  - apply (sample_pool_wf 20 12); unfold num_ok; lia.
  - cbn. lia.
Defined.

(** C26. [is_split] returns, and finds exactly the groups a group is split
    into: those among the new ones whose ancestor it is.  They are added to
    [children] where that is given. *)
Theorem is_split_exact p old new children :
  0 <= m_seed p < old -> old < new -> num_ok new ->
  exists N : gset pg_t,
    (forall q, q ∈ N <-> m_pool q = m_pool p /\ old <= m_seed q < new /\ get_ancestor q old = Ret p) /\
    is_split p old new children = Ret (bool_decide (N <> ∅), (fun c => N ∪ c) <$> children).
Proof.
  intros Hs Ho Hn. destruct (is_split_children p old new Hs Ho Hn children) as (N & HN & E). exists N. split; [|exact E].
  intros q. rewrite HN. unfold child_seed. rewrite get_ancestor_spec by (unfold num_ok in *; lia).
  destruct p as [pl s], q as [pl' s']; cbn. split.
  - by intros (-> & ? & ->).
  - intros (-> & ? & [= ->]). done.
Qed.

Lemma is_split_exact_witness :
  exists N : gset pg_t,
    (forall q, q ∈ N <-> m_pool q = 7 /\ 12 <= m_seed q < 40 /\ get_ancestor q 12 = Ret (Pg 7 3)) /\
    is_split (Pg 7 3) 12 40 (Some ∅) = Ret (bool_decide (N <> ∅), (fun c => N ∪ c) <$> Some ∅).
Proof.
  apply (is_split_exact (Pg 7 3) 12 40 (Some ∅)).
  - cbn. lia.
  - lia.
  - unfold num_ok. lia.
Defined.

(** C27. A group is a contiguous part of the store: for an object of its pool,
    to hash to the group, to be contained in it by its split bits and to lie
    between [get_hobj_start] and [get_hobj_end] are the same. *)
Theorem group_is_range pl p o :
  wf_pool pl -> 0 <= m_seed p < p_pg_num pl -> wf_hobject o -> h_max o = false ->
  h_pool o = pg_pool p -> 0 <= h_pool o -> 0 <= h_snap o -> named o ->
  exists bits stop, get_split_bits p (p_pg_num pl) = Ret bits /\ get_hobj_end p (p_pg_num pl) = Ret stop /\
    contains p bits o = Ret (raw_hash_to_pg pl (h_hash o) =? m_seed p) /\
    hobject_leb (get_hobj_start p) o && hobject_ltb o stop = (raw_hash_to_pg pl (h_hash o) =? m_seed p).
Proof.
  intros Hw Hs Ho Hm Hp H0 Hsn Hname. pose proof (wfp_pg_num _ Hw) as Hn. set (b := p_pg_num pl) in *.
  destruct (split_bits_spec p b (h_hash o) Hn Hs) as (Hk & Hlt & Hiff).
  destruct (group_interval p b (h_hash o) Hn Hs (wfh_hash _ Ho)) as [Hend Hint].
  eexists _, _. split; [by apply get_split_bits_spec|]. split; [by apply get_hobj_end_spec|].
  rewrite raw_hash_bin by done. fold b. split.
  - rewrite contains_spec by (done || lia). f_equal. case_bool_decide; symmetry; [apply Z.eqb_eq|apply Z.eqb_neq]; tauto.
  - rewrite start_below by done. set (e := reverse_bits (m_seed p) + _) in *.
    assert (hobject_ltb o (if e =? 2 ^ 32 then hobject_get_max else mk_hobject [] [] CEPH_NOSNAP (reverse_bits e) (pg_pool p) [])
            = (reverse_bits (h_hash o) <? e)) as ->.
    { apply below_stop; [done..|]. pose proof (reverse_bits_word (m_seed p) ltac:(unfold num_ok in Hn; split; lia)) as [? _].
      pose proof (Z.pow_pos_nonneg 2 (32 - split_bits p b)). unfold e in *. lia. }
    apply eq_true_iff_eq. rewrite andb_true_iff, Z.leb_le, Z.ltb_lt, Z.eqb_eq. tauto.
Qed.

Lemma group_is_range_witness :
  exists bits stop, get_split_bits (Pg 7 5) 12 = Ret bits /\ get_hobj_end (Pg 7 5) 12 = Ret stop /\
    contains (Pg 7 5) bits (mk_hobject [97] [] CEPH_NOSNAP 0x3fd 7 []) = Ret true /\
    hobject_leb (get_hobj_start (Pg 7 5)) (mk_hobject [97] [] CEPH_NOSNAP 0x3fd 7 [])
      && hobject_ltb (mk_hobject [97] [] CEPH_NOSNAP 0x3fd 7 []) stop = true.
Proof.
  apply (group_is_range (sample_pool 12 12 4 4) (Pg 7 5) (mk_hobject [97] [] CEPH_NOSNAP 0x3fd 7 [])).
  - apply (sample_pool_wf 12 12); unfold num_ok; lia.
  - cbn. lia.
  - apply mk_hobject_wf. unfold is_u. lia.
  - done.
  - done.
  - cbn. lia.
  - cbn. done.
  - left. done.
Defined.

(** When the number of groups shrinks, [is_merge_source] ends and finds the
    groups that go away, and names the group each is merged into, which is its
    ancestor among those that stay. *)
Theorem merge_source_exact p old new :
  0 <= m_seed p -> 0 < new <= old -> num_ok old ->
  is_merge_source p old new
    = Ret (if (m_seed p <? old) && (new <=? m_seed p) then (true, match get_ancestor p new with Ret q => Some q | _ => None end)
           else (false, None)).
Proof.
  intros Hs Hn Ho. unfold is_merge_source. destruct ((m_seed p <? old) && (new <=? m_seed p)) eqn:E; [|done].
  apply andb_prop in E as [E1%Z.ltb_lt _]. unfold num_ok in Ho.
  rewrite get_ancestor_spec by (unfold num_ok; lia). rewrite merge_loop_spec; [done|lia..|].
  pose proof (cbits_le (m_seed p) 31 ltac:(lia) ltac:(lia)). lia.
Qed.

Lemma merge_source_exact_witness :
  is_merge_source (Pg 7 27) 40 5 = Ret (true, Some (Pg 7 3)).
Proof.
  rewrite (merge_source_exact (Pg 7 27) 40 5).
  - reflexivity.
  - cbn. lia.
  - lia.
  - unfold num_ok. lia.
Defined.

(** A split that leaves [pgp_num] as it was moves no data: an object's new
    group has the placement seed its old group had. *)
Theorem split_keeps_placement old new pool h :
  wf_pool old -> wf_pool new -> p_flags old = p_flags new -> p_pgp_num old = p_pgp_num new ->
  p_pgp_num old <= p_pg_num old <= p_pg_num new ->
  raw_pg_to_pps new (mk_pg (raw_hash_to_pg new h) pool) = raw_pg_to_pps old (mk_pg (raw_hash_to_pg old h) pool).
Proof.
  intros Hold Hnew Hf Hpgp Hle. symmetry. apply pps_bin; [done..|]. rewrite !raw_hash_bin by done. cbn [mk_pg m_seed].
  destruct (wfp_pgp_num _ Hold). by rewrite !bin_bin by lia.
Qed.

Lemma split_keeps_placement_witness :
  raw_pg_to_pps (sample_pool 40 12 6 4) (mk_pg (raw_hash_to_pg (sample_pool 40 12 6 4) 0x9f3d) 7)
    = raw_pg_to_pps (sample_pool 12 12 4 4) (mk_pg (raw_hash_to_pg (sample_pool 12 12 4 4) 0x9f3d) 7).
Proof.
  apply (split_keeps_placement (sample_pool 12 12 4 4) (sample_pool 40 12 6 4) 7 0x9f3d).
  - apply (sample_pool_wf 12 12); unfold num_ok; lia.
  - apply (sample_pool_wf 40 12); unfold num_ok; lia.
  - done.
  - done.
  - cbn. lia.
Defined.

(** [get_random_pg_position] yields a hash of the group for every seed, and
    [get_pg_num_divisor] the number of equal parts of the hash space of which
    the group is one. *)
Theorem random_position_in_group pl pg seed :
  wf_pool pl -> 0 <= ps pg < p_pg_num pl ->
  raw_hash_to_pg pl (get_random_pg_position pl pg seed) = ps pg /\
  forall h, raw_hash_to_pg pl h = ps pg <-> h mod get_pg_num_divisor pl pg = ps pg.
Proof.
  intros Hw Hs. split; [by apply random_position_spec|]. intros h. rewrite raw_hash_bin, divisor_spec by done.
  by apply (split_bits_spec pg (p_pg_num pl) h (wfp_pg_num _ Hw) Hs).
Qed.

Lemma random_position_in_group_witness :
  raw_hash_to_pg (sample_pool 12 12 4 4) (get_random_pg_position (sample_pool 12 12 4 4) (Pg 7 5) 99) = 5 /\
  forall h, raw_hash_to_pg (sample_pool 12 12 4 4) h = 5 <-> h mod get_pg_num_divisor (sample_pool 12 12 4 4) (Pg 7 5) = 5.
Proof.
  apply (random_position_in_group (sample_pool 12 12 4 4) (Pg 7 5) 99).
  - apply (sample_pool_wf 12 12); unfold num_ok; lia.
  - cbn. lia.
Defined.
