(* ===== verification/StoreTheorems.v ===== *)
(** * The guarantees of object names and encodings

    The order and the encodings of [hobject_t] and [ghobject_t], the encoding
    of versioned structures, and the buffer list iterator the decoders run on. *)

From S2P Require Import Prelude Bits Encoding BufferList Hobject HobjectOrder HobjectCodec.

(** C35. [cmp] is a total order on objects: it is antisymmetric and transitive,
    and two well-formed objects compare as equal exactly when [operator==]
    holds, which is when they are the same; so is [cmp] of [ghobject_t]. *)
Theorem object_order :
  orders cmp wf_hobject /\ orders gcmp wf_ghobject /\
  (forall l r, wf_hobject l -> wf_hobject r -> hobject_eqb l r = (cmp l r =? 0)).
Proof.
  split; [apply cmp_orders|]. split; [apply gcmp_orders|]. intros l r Hl Hr. apply eq_true_iff_eq.
  rewrite (hobject_eqb_eq l r Hl Hr), Z.eqb_eq. symmetry. by apply (ord_eq _ _ cmp_orders).
Qed.

Definition sample_object : hobject_t := mk_hobject [114; 98; 100] [107] CEPH_NOSNAP 0x1234abcd 7 [110; 115].

Lemma sample_codable : hobject_codable sample_object.
Proof. split; [split; vm_compute; (congruence || done)|apply mk_hobject_wf; unfold is_u; lia|done]. Qed.

(** C22. What [hobject_t::encode] writes, [hobject_t::decode] reads back, into
    whatever object it decodes and wherever in a buffer the bytes stand; it
    also reads what a later version wrote that appends fields and is marked
    compatible, and skips those. *)
Theorem object_round_trip o0 o v compat more pre post :
  hobject_codable o -> 4 <= v < 256 -> 0 <= compat <= 4 ->
  zlen (pre ++ encode_struct v compat (hobject_fields o ++ more)) < 2 ^ 32 ->
  hobject_decode o0 (pre ++ encode_struct v compat (hobject_fields o ++ more) ++ post) (zlen pre)
    = DOk o (zlen (pre ++ encode_struct v compat (hobject_fields o ++ more))).
Proof. intros Ho Hv Hc Hl. apply hobject_reads; [done|lia|unfold is_u; lia|done|done]. Qed.

Lemma object_round_trip_witness :
  hobject_decode hobject_default ([1; 2] ++ encode_struct 5 4 (hobject_fields sample_object ++ [9; 9]) ++ [3]) 2 = DOk sample_object 49.
Proof.
  apply (object_round_trip hobject_default sample_object 5 4 [9; 9] [1; 2] [3]).
  - apply sample_codable.
  - lia.
  - lia.
  - vm_compute. done.
Defined.

(** A [ghobject_t] is read back as it was written, and
    [encoded_size] is the number of bytes its encoding has. *)
Theorem ghobject_round_trip_size g0 g pre post :
  ghobject_codable g -> zlen (pre ++ ghobject_bytes g) < 2 ^ 32 ->
  ghobject_decode g0 (pre ++ ghobject_bytes g ++ post) (zlen pre) = DOk g (zlen pre + encoded_size g).
Proof.
  intros Hg Hl. rewrite <- encoded_size_spec by apply Hg. rewrite <- Nat2Z.inj_add, <- length_app. by apply ghobject_round_trip.
Qed.

Lemma ghobject_round_trip_size_witness :
  ghobject_decode (GHObject hobject_default 0 0 false) ([5] ++ ghobject_bytes (GHObject sample_object 12 (-1) false) ++ [6]) 1
    = DOk (GHObject sample_object 12 (-1) false) (1 + encoded_size (GHObject sample_object 12 (-1) false)).
Proof.
  apply (ghobject_round_trip_size (GHObject hobject_default 0 0 false) (GHObject sample_object 12 (-1) false) [5] [6]).
  - split; [apply sample_codable..|unfold is_u; cbn; lia|unfold is_s; cbn; lia].
  - vm_compute. done.
Defined.

(** A versioned structure is read by older code: if the body decoder reads
    the known fields [l], the structure of any later version that starts with
    them and names a compatible version the code knows is read to the same
    value, ending behind the structure. *)
Theorem struct_forward_compatible {A} v v' compat' (body : Z -> decoder A) l more a pre post :
  reads (body v') l a -> is_u 8 v' -> is_u 8 compat' -> compat' <= v ->
  zlen (pre ++ encode_struct v' compat' (l ++ more)) < 2 ^ 32 ->
  decode_struct v body (pre ++ encode_struct v' compat' (l ++ more) ++ post) (zlen pre)
    = DOk a (zlen (pre ++ encode_struct v' compat' (l ++ more))).
Proof. intros Hb Hv Hc Hle Hl. by apply struct_reads. Qed.

Lemma struct_forward_compatible_witness :
  decode_struct 2 (fun _ => decode_string) ([7] ++ encode_struct 6 1 (encode_string [104; 105] ++ [1; 2; 3]) ++ [8]) 1 = DOk [104; 105] 16.
Proof.
  apply (struct_forward_compatible 2 6 1 (fun _ => decode_string) (encode_string [104; 105]) [1; 2; 3] [104; 105] [7] [8]).
  - intros pre post Hl. by apply string_round_trip.
  - unfold is_u. lia.
  - unfold is_u. lia.
  - lia.
  - vm_compute. done.
Defined.

(** C23. The iterator of a buffer list refines the flat buffer: from an
    iterator in a coherent state, [copy] returns, yields the bytes the flat
    buffer has there or throws [end_of_buffer] exactly where the flat copy
    does, and leaves the iterator coherent and behind the bytes copied. *)
Theorem copy_refines_flat ls it len :
  it_ok ls it -> 0 <= len -> it_off it + len < 2 ^ 32 ->
  match copy_bytes len (mjoin ls) (it_off it) with
  | DErr e => it_copy ls it len = Some (inr e)
  | DOk l off' => exists it', it_copy ls it len = Some (inl (l, it')) /\ it_ok ls it' /\ it_off it' = off'
  end.
Proof. apply it_copy_spec. Qed.

Lemma copy_refines_flat_witness :
  exists it', it_copy [[1; 2; 3]; []; [4]; [5; 6]] (Iterator 0 1 1) 4 = Some (inl ([2; 3; 4; 5], it')) /\
    it_ok [[1; 2; 3]; []; [4]; [5; 6]] it' /\ it_off it' = 5.
Proof.
  apply (copy_refines_flat [[1; 2; 3]; []; [4]; [5; 6]] (Iterator 0 1 1) 4).
  - split; cbn; (lia || (by left)).
  - lia.
  - cbn. lia.
Defined.
