(* ===== verification/OsdMapActing.v ===== *)
(** * Up and acting sets

    What [_pg_to_up_acting_osds] computes over any crush map that keeps its
    promise, and over [CrushWrapper] with the rules of replicated and
    erasure-coded pools. *)

From stdpp Require Import gmap relations.
From S2P Require Import Prelude CrushHash CrushTypes CrushBucket CrushMapper CrushWf CrushRule CrushPlace CrushBuilder Bits Encoding Hobject PgTypes PgMap OsdMap OsdMapSpec OsdMapCrush.
Open Scope Z_scope.

(** ** Up and acting sets *)

Section up_acting.
Context {C : Type} `{Placement C} (m : OSDMap C) (pool : pg_pool_t) (shift : bool) (pg : pg_t).

(** The acting set and its primary, from the up set and its primary: what is up
    of the temporary mapping, if anything, and the temporary primary. *)
Definition acting_of (up : list Z) (up_primary : Z) : list Z * Z :=
  let temp := keep (upb m) shift (default [] (pg_temp m !! raw_pg_to_pg pool pg)) in
  match temp, primary_temp m !! raw_pg_to_pg pool pg with
  | [], None => (up, up_primary)
  | [], Some p => (up, if p =? -1 then up_primary else p)
  | _, None => (temp, _pick_primary temp)
  | _, Some p => (temp, p)
  end.

(** The acting set is as the up set, unless the temporary mapping repeats an
    OSD; so is its primary, unless the map names one. *)
Record acting_ok (acting : list Z) (primary : Z) : Prop := ActingOk {
  ao_up o : o ∈ acting -> upb m o = true \/ (shift = false /\ o = CRUSH_ITEM_NONE);
  ao_distinct : (forall l, pg_temp m !! raw_pg_to_pg pool pg = Some l -> distinct l) -> distinct acting;
  ao_primary : primary_temp m !! raw_pg_to_pg pool pg = None ->
    (Forall (fun o => o = CRUSH_ITEM_NONE) acting /\ primary = -1) \/ (primary ∈ acting /\ upb m primary = true);
}.

Context (Hwf : wf_osdmap m) (Hpool : pools m !! pg_pool pg = Some pool) (Hshift : can_shift_osds pool = Ret shift).
Context (good : Z -> list Z -> Prop) (HP : Places (crush m) (osd_weight m) pool (pg_pool pg) good).
Context (Hnil : no_rule (crush m) pool -> good (s32 (raw_pg_to_pps pool pg)) []) (Hgood : forall x out, good x out -> distinct out).
Context (Hmap : forall l, pg_upmap m !! raw_pg_to_pg pool pg = Some l -> distinct l).

Lemma up_ok_nil : up_ok m shift [] (-1).
Proof. split; [by intros o ?%not_elem_of_nil|by intros i j o ?|left; by split|by left]. Qed.

Lemma temp_acting temp primary :
  _get_temp_osds m pool pg = Ret (temp, primary) -> temp <> [] -> acting_ok temp primary.
Proof using Hwf Hshift.
  intros E Hne. destruct (temp_spec m Hwf pool shift Hshift pg) as (temp' & primary' & E' & Hup & Hp & Hn & Hs).
  rewrite E in E'. injection E' as <- <-. split; [done| |].
  - intros Hd. destruct (pg_temp m !! _) as [l|]; [|by rewrite Hn in Hne]. rewrite (Hs l eq_refl). apply keep_distinct. by apply Hd.
  - intros Hno. rewrite Hno in Hp. subst primary. destruct (pick_primary_spec temp) as [?|[Hin Hnn]]; [by left|right].
    split; [done|]. by destruct (Hup _ Hin) as [|[_ ?]].
Qed.

Lemma up_acting_run b :
  exists ua, _pg_to_up_acting_osds m pg b = Ret ua /\ up_ok m shift (ua_up ua) (ua_up_primary ua) /\
    (ua_acting ua, ua_acting_primary ua) = (if negb b && (p_pg_num pool <=? ps pg) then ([], -1) else acting_of (ua_up ua) (ua_up_primary ua)) /\
    acting_ok (ua_acting ua) (ua_acting_primary ua) /\
    (b = true \/ ps pg < p_pg_num pool -> up_of m pool pg = Ret (ua_up ua, ua_up_primary ua) /\
      pg_to_acting_osds m pg = Ret (ua_acting ua, ua_acting_primary ua)).
Proof using Hwf Hpool Hshift HP Hnil Hgood Hmap.
  unfold _pg_to_up_acting_osds, pg_to_acting_osds, get_pg_pool. rewrite Hpool.
  destruct (up_of_spec m Hwf pool shift Hshift pg good HP Hnil Hgood Hmap) as (up & primary & Eup & Hok & _).
  destruct (negb b && (p_pg_num pool <=? ps pg)) eqn:Eb.
  { exists (UpActing [] (-1) [] (-1)). split; [done|]. split; [apply up_ok_nil|]. split; [done|]. split.
    - split; [by intros o ?%not_elem_of_nil|by intros _ i j o ?|left; by split].
    - apply andb_prop in Eb as [->%negb_true_iff Eb%Z.leb_le]. intros [?|?]; [done|lia]. }
  destruct (temp_spec m Hwf pool shift Hshift pg) as (temp & tp & Etemp & _ & Hp & Hn & Hs). pose proof (temp_acting temp tp Etemp) as Hta.
  assert (temp = keep (upb m) shift (default [] (pg_temp m !! raw_pg_to_pg pool pg))) as Hkeep.
  { destruct (pg_temp m !! raw_pg_to_pg pool pg) as [l|]; [by apply Hs|]. rewrite Hn by done. by destruct shift. }
  rewrite Etemp, Eup. cbn [rbind]. destruct temp as [|o temp]; (eexists; split; [done|]); cbn [ua_up ua_up_primary ua_acting ua_acting_primary];
    (split; [done|]); unfold acting_of; rewrite <- Hkeep; (split; [destruct (primary_temp m !! _); by subst tp|]).
  - split; [|done]. destruct Hok as [Hu Hd Hpr _]. split; [done|by intros _|].
    intros Hno. rewrite Hno in Hp. cbn in Hp. by subst tp.
  - split; [by apply Hta|done].
Qed.
End up_acting.

(** ** Over CRUSH *)

(** The group's pool uses the rule [ruleno] of the crush map [c], which chooses
    leaves below [root] in distinct domains of type [ty]; the group has no
    explicit mapping. *)
Record backed (m : OSDMap CrushWrapper) (pg : pg_t) (pool : pg_pool_t) (c : crush_map) (rk : Z -> nat) (D : nat) (T L : Z)
    (fuel : nat) (ruleno : Z) (rule : crush_rule) (root : crush_bucket) (a1 ty : Z) (firstn : bool) : Prop := Backed {
  bk_wf : wf_osdmap m;
  bk_pool : pools m !! pg_pool pg = Some pool;
  bk_crush : cw_crush (crush m) = Some c;
  bk_work : working_size c = work_bytes c;
  bk_env : placement_env c rk D (choose_args_get_with_fallback (crush m) (pg_pool pg)) (osd_weight m) (zlen (osd_weight m)) (p_size pool) T L fuel;
  bk_find : cw_find_rule (crush m) (p_crush_rule pool) (p_type pool) (p_size pool) = Ret ruleno;
  bk_rule : rule_at c ruleno rule;
  bk_root : in_map c root;
  bk_steps : one_choose_rule T L rule firstn true root a1 ty;
  bk_a1 : a1 < 2 ^ 31;
  bk_num : 0 < if a1 <=? 0 then a1 + p_size pool else a1;
  bk_upmap : pg_upmap m !! raw_pg_to_pg pool pg = None;
  bk_items : pg_upmap_items m !! raw_pg_to_pg pool pg = None;
}.

Section backed.
Context (m : OSDMap CrushWrapper) (pg : pg_t) (pool : pg_pool_t) (c : crush_map) (rk : Z -> nat) (D : nat) (T L : Z) (junk : Z)
  (fuel : nat) (ruleno : Z) (rule : crush_rule) (root : crush_bucket) (a1 ty : Z).

Lemma backed_run firstn good shift :
  backed m pg pool c rk D T L fuel ruleno rule root a1 ty firstn -> can_shift_osds pool = Ret shift ->
  @Places _ (crush_placement junk fuel) (crush m) (osd_weight m) pool (pg_pool pg) good ->
  (@no_rule _ (crush_placement junk fuel) (crush m) pool -> good (s32 (raw_pg_to_pps pool pg)) []) -> (forall x out, good x out -> distinct out) ->
  exists ua out, @_pg_to_up_acting_osds _ (crush_placement junk fuel) m pg true = Ret ua /\
    up_ok m shift (ua_up ua) (ua_up_primary ua) /\ good (s32 (raw_pg_to_pps pool pg)) out /\
    ua_up ua ≡ₚ keep (upb m) shift out /\ (shift = false -> ua_up ua = keep (upb m) shift out).
Proof.
  intros Hb Hs HP Hnil Hgood. pose proof (bk_wf _ _ _ _ _ _ _ _ _ _ _ _ _ _ _ Hb) as Hwf. pose proof (bk_upmap _ _ _ _ _ _ _ _ _ _ _ _ _ _ _ Hb) as Hno.
  assert (forall l, pg_upmap m !! raw_pg_to_pg pool pg = Some l -> distinct l) as Hmap by (intros l El; congruence).
  destruct (@up_acting_run _ (crush_placement junk fuel) m pool shift pg Hwf (bk_pool _ _ _ _ _ _ _ _ _ _ _ _ _ _ _ Hb) Hs good HP Hnil Hgood Hmap true)
    as (ua & Hrun & Hok & _ & _ & Hup). destruct (Hup (or_introl eq_refl)) as [Eup _].
  destruct (@up_of_spec _ (crush_placement junk fuel) m Hwf pool shift Hs pg good HP Hnil Hgood Hmap) as (up & primary & E & _ & Hout).
  destruct (Hout Hno (bk_items _ _ _ _ _ _ _ _ _ _ _ _ _ _ _ Hb)) as (out & Hg & Hperm & Heq). rewrite Eup in E. injection E as <- <-. by exists ua, out.
Qed.

Lemma spread_nil weight wmax x : spread c weight wmax x root ty [] [].
Proof. split; [constructor|]. split; constructor. Qed.

Lemma replicated_run :
  backed m pg pool c rk D T L fuel ruleno rule root a1 ty true -> p_type pool = TYPE_REPLICATED ->
  exists ua domains, @_pg_to_up_acting_osds _ (crush_placement junk fuel) m pg true = Ret ua /\
    up_ok m true (ua_up ua) (ua_up_primary ua) /\
    spread c (osd_weight m) (zlen (osd_weight m)) (s32 (raw_pg_to_pps pool pg)) root ty (ua_up ua) domains.
Proof.
  intros Hb Ht. assert (can_shift_osds pool = Ret true) as Hs by (unfold can_shift_osds; by rewrite Ht).
  pose proof Hb as [? ? Hc Hws Henv Hfind Hrule Hroot Hsteps Ha1 Hnum ? ?].
  destruct (backed_run true _ true Hb Hs (places_replicated (crush m) c rk D T L junk fuel (osd_weight m) (pg_pool pg) pool Hc Hws Henv ruleno rule root a1 ty
    Hfind Hrule Hroot Ha1 Hnum Hsteps)) as (ua & out & Hrun & Hok & [domains Hsp] & Hperm & _).
  - intros _. exists []. apply spread_nil.
  - intros x out [domains [Hd _]]. by apply distinct_NoDup.
  - destruct (spread_sub c _ _ _ root ty out domains (upb m) (ua_up ua) Hsp Hperm) as [domains' Hsp']. by exists ua, domains'.
Qed.

Lemma erasure_run :
  backed m pg pool c rk D T L fuel ruleno rule root a1 ty false -> p_type pool = TYPE_ERASURE -> ty <> 0 -> domains_disjoint c root ty ->
  exists ua out, @_pg_to_up_acting_osds _ (crush_placement junk fuel) m pg true = Ret ua /\
    up_ok m false (ua_up ua) (ua_up_primary ua) /\ zlen (ua_up ua) = Z.min (if a1 <=? 0 then a1 + p_size pool else a1) (p_size pool) /\ distinct out /\
    cw_do_rule junk fuel (crush m) ruleno (s32 (raw_pg_to_pps pool pg)) (p_size pool) (osd_weight m) (pg_pool pg) = Ret out /\
    ua_up ua = (fun o => if upb m o then o else CRUSH_ITEM_NONE) <$> out.
Proof.
  intros Hb Ht Hty Hdis. assert (can_shift_osds pool = Ret false) as Hs by (unfold can_shift_osds; by rewrite Ht).
  pose proof Hb as [? ? Hc Hws Henv Hfind Hrule Hroot Hsteps Ha1 Hnum ? ?].
  destruct (backed_run false _ false Hb Hs (places_erasure (crush m) c rk D T L junk fuel (osd_weight m) (pg_pool pg) pool Hc Hws Henv ruleno rule root a1 ty
    Hfind Hrule Hroot Ha1 Hnum Hsteps Hty Hdis)) as (ua & out & Hrun & Hok & (Hd & Hlen & Hdo) & _ & Heq).
  - intros (r & Er & Hr). cbn in Er. rewrite Hfind in Er. injection Er as <-. destruct Hrule as (_ & Hr0 & _). lia.
  - by intros x out [? _].
  - specialize (Heq eq_refl). exists ua, out. split; [done|]. split; [done|]. rewrite Heq. split; [|done]. cbn [keep]. by rewrite length_fmap.
Qed.
End backed.

(** ** Raw and actual groups *)

Section raw.
Context {C : Type} `{Placement C} (m : OSDMap C) (pool : pg_pool_t) (pg : pg_t).
Context (Hw : wf_pool pool) (Hle : p_pgp_num pool <= p_pg_num pool).

Lemma raw_pg_idem : raw_pg_to_pg pool (raw_pg_to_pg pool pg) = raw_pg_to_pg pool pg.
Proof using Hw.
  rewrite !raw_pg_bin by done. cbn [set_ps m_seed m_pool]. rewrite bin_bin; [done|]. destruct (wfp_pg_num _ Hw). lia.
Qed.

Lemma raw_pg_pps : raw_pg_to_pps pool (raw_pg_to_pg pool pg) = raw_pg_to_pps pool pg.
Proof using Hw Hle.
  apply pps_bin; [done..|by rewrite raw_pg_bin|]. rewrite raw_pg_bin by done. cbn [set_ps m_seed]. apply bin_bin. destruct (wfp_pgp_num _ Hw). lia.
Qed.

Lemma raw_pg_same b :
  pools m !! pg_pool pg = Some pool ->
  _pg_to_up_acting_osds m (raw_pg_to_pg pool pg) b = _pg_to_up_acting_osds m pg true.
Proof using Hw Hle.
  intros Hp. assert (pg_pool (raw_pg_to_pg pool pg) = pg_pool pg) as Epool by done.
  unfold _pg_to_up_acting_osds, get_pg_pool. rewrite Epool, Hp. cbn [negb andb].
  assert ((p_pg_num pool <=? ps (raw_pg_to_pg pool pg)) = false) as ->.
  { apply Z.leb_gt. rewrite raw_pg_bin by done. cbn. apply bin_range. destruct (wfp_pg_num _ Hw). lia. }
  rewrite andb_false_r. unfold _get_temp_osds, up_of, _pg_to_raw_osds, _apply_upmap. by rewrite raw_pg_idem, raw_pg_pps, Epool.
Qed.
End raw.
