(* ===== verification/OsdTheorems.v ===== *)
(** * The guarantees of the OSD map

    What the mapping from placement groups to OSDs promises its users: which
    OSDs serve a group, which is the primary, and how the choices of CRUSH
    survive in it, each theorem with an instance on the sample cluster. *)

From stdpp Require Import gmap relations.
From S2P Require Import Prelude CrushHash CrushTypes CrushBucket CrushMapper CrushWf CrushRule CrushPlace CrushBuilder CrushSample Bits Encoding Hobject PgTypes PgMap OsdMap OsdMapSpec OsdMapCrush OsdMapActing.
Open Scope Z_scope.

(** ** The sample cluster *)

(** OSD 3 is down, OSD 2 out; the map substitutes OSD 1 for OSD 0 in one group. *)
Definition sample_wrapper : CrushWrapper := MkCrushWrapper (Some sample_map) true ∅.

Definition replicated_pool : pg_pool_t := PgPool 1 1 3 2 0 2 12 12 12 15 15.
Definition erasure_pool : pg_pool_t := PgPool 1 3 3 2 1 2 12 12 12 15 15.

Definition sample_osdmap : OSDMap CrushWrapper :=
  MkOSDMap _ 4 [3; 3; 3; 1] sample_weight ∅ ∅ (Some [0x10000; 0x8000; 0; 0x10000]) ∅ {[Pg 7 5 := [(0, 1)]]}
    {[7 := replicated_pool; 8 := erasure_pool]} sample_wrapper.

Lemma sample_osdmap_wf : wf_osdmap sample_osdmap.
Proof. split; [split; vm_compute; congruence|done|done|by intros ? [= <-]]. Qed.

Definition sample_fuel : nat := Z.to_nat 10000000.

#[local] Instance sample_placement : Placement CrushWrapper := crush_placement 0 sample_fuel.

Lemma sample_no_items s : s <> 5 -> pg_upmap_items sample_osdmap !! Pg 7 s = None.
Proof. intros Hs. cbn. apply lookup_singleton_ne. congruence. Qed.

Lemma sample_replicated s : raw_pg_to_pg replicated_pool (Pg 7 s) <> Pg 7 5 ->
  backed sample_osdmap (Pg 7 s) replicated_pool sample_map sample_rank 2 100 0 sample_fuel 0 replicated_rule sample_root 0 1 true.
Proof.
  intros Hs. split; [apply sample_osdmap_wf|done|done|done|apply sample_env|done|by split|by exists 0%nat| |done|done|done|].
  - split; [done|]. by exists [], 0, CRUSH_RULE_CHOOSELEAF_FIRSTN, 0, 0.
  - cbn. apply lookup_singleton_ne. congruence.
Qed.

Lemma sample_erasure s :
  backed sample_osdmap (Pg 8 s) erasure_pool sample_map sample_rank 2 100 0 sample_fuel 1 erasure_rule sample_root 0 1 false.
Proof.
  split; [apply sample_osdmap_wf|done|done|done|apply sample_env|done|by split|by exists 0%nat| |done|done|done|].
  - split; [done|]. exists [CrushStep CRUSH_RULE_SET_CHOOSELEAF_TRIES 5 0; CrushStep CRUSH_RULE_SET_CHOOSE_TRIES 100 0],
      0, CRUSH_RULE_CHOOSELEAF_INDEP, 0, 0. split; [done|]. split; [done|]. by repeat constructor.
  - cbn. by apply lookup_singleton_ne.
Qed.

(** What lies below each bucket of the sample map. *)
Lemma sample_below i j : tc (child sample_map) i j ->
  (i = -1) \/ (i = -2 /\ (j = 0 \/ j = 1)) \/ (i = -3 /\ (j = 2 \/ j = 3)).
Proof.
  assert (forall i j, child sample_map i j -> (i = -1) \/ (i = -2 /\ (j = 0 \/ j = 1)) \/ (i = -3 /\ (j = 2 \/ j = 3))) as Hch.
  { intros a b (bk & [n Hn] & <- & Hb). apply sample_bucket in Hn as [[-> ->]|[[-> ->]|[-> ->]]]; [by left|right..]; cbn in Hb;
      rewrite !elem_of_cons, elem_of_nil in Hb; cbn; tauto. }
  induction 1 as [a b Hab|a b d Hab _ IH]; [by apply Hch|]. destruct (Hch _ _ Hab) as [|[[-> Hb]|[-> Hb]]]; [by left|..]; exfalso; lia.
Qed.

Lemma sample_disjoint : domains_disjoint sample_map sample_root 1.
Proof.
  intros d dom dom' _ _ H1 H2 T1 T2. apply sample_below in H1, H2.
  destruct H1 as [->|[[-> H1]|[-> H1]]]; [discriminate|..]; (destruct H2 as [->|[[-> H2]|[-> H2]]]; [discriminate|..]); (done || lia).
Qed.

(** The sample map with the shadow tree of a device class, whose hosts hold some
    of the devices a second time. *)
Definition shadow_map : crush_map :=
  CrushMap (buckets sample_map ++ [Some (CrushBucket (-4) 10 0 0x20000 2 [-5; -6] (BStraw2 [0x10000; 0x10000]));
      Some (CrushBucket (-5) 1 0 0x10000 1 [0] (BStraw2 [0x10000])); Some (CrushBucket (-6) 1 0 0x10000 1 [2] (BStraw2 [0x10000]))])
    (rules sample_map) 6 2 4 0 0 50 1 1 1 (8 + 48 + 6 * 24) 0 54.

Lemma shadow_disjoint : domains_disjoint shadow_map sample_root 1.
Proof.
  assert (forall i j, child shadow_map i j -> (i = -1 /\ (j = -2 \/ j = -3)) \/ (i = -2 /\ (j = 0 \/ j = 1)) \/ (i = -3 /\ (j = 2 \/ j = 3)) \/ i < -3) as Hch.
  { intros i j (b & [n Hn] & <- & Hj). do 6 (destruct n as [|n]; [injection Hn as <-; cbn in Hj |- *; rewrite ?elem_of_cons, ?elem_of_nil in Hj; lia|]). done. }
  assert (forall i j, tc (child shadow_map) i j -> (i = -2 -> j = 0 \/ j = 1) /\ (i = -3 -> j = 2 \/ j = 3) /\ (i = -1 -> -3 <= j) /\ (0 <= i -> False)) as Htc.
  { induction 1 as [i j H|i k j H _ IH]; apply Hch in H; lia. }
  intros d dom dom' H1 H2 H3 H4 T1 T2. apply Htc in H1 as (_ & _ & H1 & _), H2 as (_ & _ & H2 & _). specialize (H1 eq_refl). specialize (H2 eq_refl).
  apply Htc in H3, H4. assert (dom <> -1 /\ dom' <> -1) by (split; intros ->; discriminate). lia.
Qed.

(** ** Theorems *)


Lemma sample_places : Places sample_wrapper sample_weight replicated_pool 7 (fun _ => distinct).
Proof.
  eapply places_weaken; [|apply (places_replicated sample_wrapper sample_map sample_rank 2 100 0 0 sample_fuel sample_weight 7
    replicated_pool eq_refl eq_refl sample_env 0 replicated_rule sample_root 0 1)].
  - intros x out [domains [Hd _]]. by apply distinct_NoDup.
  - done.
  - by split.
  - by exists 0%nat.
  - done.
  - done.
  - split; [done|]. by exists [], 0, CRUSH_RULE_CHOOSELEAF_FIRSTN, 0, 0.
Qed.


(** C8. The whole path of a group of a replicated pool whose rule chooses leaves
    firstn below one root, and that has no explicit mapping, to its OSDs through
    [CrushWrapper::do_rule] and [crush_do_rule]: the mapping returns, every OSD
    of the up set is up and not out, and the OSDs lie in distinct failure
    domains below the root of the rule. *)
Theorem replicated_pool_spread m pg pool c rk D T L junk fuel ruleno rule root a1 ty :
  backed m pg pool c rk D T L fuel ruleno rule root a1 ty true -> p_type pool = TYPE_REPLICATED ->
  exists ua domains, @_pg_to_up_acting_osds _ (crush_placement junk fuel) m pg true = Ret ua /\
    up_ok m true (ua_up ua) (ua_up_primary ua) /\
    spread c (osd_weight m) (zlen (osd_weight m)) (s32 (raw_pg_to_pps pool pg)) root ty (ua_up ua) domains.
Proof. apply replicated_run. Qed.

Lemma replicated_pool_spread_witness :
  exists ua domains, _pg_to_up_acting_osds sample_osdmap (Pg 7 0x9f34) true = Ret ua /\
    up_ok sample_osdmap true (ua_up ua) (ua_up_primary ua) /\
    spread sample_map sample_weight 4 (s32 (raw_pg_to_pps replicated_pool (Pg 7 0x9f34))) sample_root 1 (ua_up ua) domains.
Proof.
  apply (replicated_pool_spread sample_osdmap (Pg 7 0x9f34) replicated_pool sample_map sample_rank 2 100 0 0 sample_fuel 0
           replicated_rule sample_root 0 1).
  - apply sample_replicated. vm_compute. congruence.
  - done.
Defined.

(** C24. The whole path of a group of an erasure-coded pool whose rule chooses
    leaves below one root, in domains of a type above that of devices, where no
    device lies in two such domains below this root, and the group has no
    explicit mapping ([pg_upmap], [pg_upmap_items]): the up set is CRUSH's
    choice with a hole at each position whose OSD is not up, so that no shard
    changes its position; no OSD serves two positions, and there are as many
    positions as the rule asks for. *)
Theorem erasure_pool_positions m pg pool c rk D T L junk fuel ruleno rule root a1 ty :
  backed m pg pool c rk D T L fuel ruleno rule root a1 ty false -> p_type pool = TYPE_ERASURE -> ty <> 0 -> domains_disjoint c root ty ->
  exists ua out, @_pg_to_up_acting_osds _ (crush_placement junk fuel) m pg true = Ret ua /\
    up_ok m false (ua_up ua) (ua_up_primary ua) /\ zlen (ua_up ua) = Z.min (if a1 <=? 0 then a1 + p_size pool else a1) (p_size pool) /\ distinct out /\
    cw_do_rule junk fuel (crush m) ruleno (s32 (raw_pg_to_pps pool pg)) (p_size pool) (osd_weight m) (pg_pool pg) = Ret out /\
    ua_up ua = (fun o => if upb m o then o else CRUSH_ITEM_NONE) <$> out.
Proof. apply erasure_run. Qed.

Lemma erasure_pool_positions_witness :
  exists ua out, _pg_to_up_acting_osds sample_osdmap (Pg 8 3) true = Ret ua /\
    up_ok sample_osdmap false (ua_up ua) (ua_up_primary ua) /\ zlen (ua_up ua) = 3 /\ distinct out /\
    cw_do_rule 0 sample_fuel sample_wrapper 1 (s32 (raw_pg_to_pps erasure_pool (Pg 8 3))) 3 sample_weight 8 = Ret out /\
    ua_up ua = (fun o => if upb sample_osdmap o then o else CRUSH_ITEM_NONE) <$> out.
Proof.
  apply (erasure_pool_positions sample_osdmap (Pg 8 3) erasure_pool sample_map sample_rank 2 100 0 0 sample_fuel 1
           erasure_rule sample_root 0 1).
  - apply sample_erasure.
  - done.
  - done.
  - apply sample_disjoint.
Defined.

(** A raw group (the full hash of an object) and the group of the pool it
    folds to have the same mapping, as long as a pool is not placed as more
    groups than it has. *)
Theorem raw_and_actual_agree {C} `{Placement C} (m : OSDMap C) pool pg b :
  wf_pool pool -> p_pgp_num pool <= p_pg_num pool -> pools m !! pg_pool pg = Some pool ->
  _pg_to_up_acting_osds m (raw_pg_to_pg pool pg) b = _pg_to_up_acting_osds m pg true.
Proof. intros Hw Hle Hp. by apply raw_pg_same. Qed.

Lemma raw_and_actual_agree_witness :
  _pg_to_up_acting_osds sample_osdmap (raw_pg_to_pg replicated_pool (Pg 7 0xabcdef)) false
    = _pg_to_up_acting_osds sample_osdmap (Pg 7 0xabcdef) true.
Proof.
  apply (raw_and_actual_agree sample_osdmap replicated_pool (Pg 7 0xabcdef) false).
  - split; [split; vm_compute; congruence..|done|done].
  - done.
  - done.
Defined.

(** C25. [_apply_upmap] computes the documented explicit mapping, where every
    replacement that [pg_upmap_items] names for the group is the id of an OSD.
    If the group has a [pg_upmap] list and one of its OSDs is marked out,
    nothing is applied, [pg_upmap_items] neither.  Otherwise the list, if there
    is one, takes the place of CRUSH's; then, pair by pair, the second OSD takes
    the place of the first occurrence of the first, unless the second is in the
    list already or is marked out.  ([upmap_invalid_id] is about replacements
    that are no OSD.) *)
Theorem upmap_exact {C} `{Placement C} (m : OSDMap C) pool pg raw :
  wf_osdmap m ->
  (forall l r, pg_upmap_items m !! raw_pg_to_pg pool pg = Some l -> r ∈ l -> 0 <= r.2 < max_osd m) ->
  _apply_upmap m pool pg raw
    = Ret (intended m raw (pg_upmap m !! raw_pg_to_pg pool pg) (pg_upmap_items m !! raw_pg_to_pg pool pg)).
Proof. intros Hwf Hv. rewrite apply_upmap_eq by done. by rewrite intended_eq. Qed.

Lemma upmap_exact_witness : _apply_upmap sample_osdmap replicated_pool (Pg 7 5) [3; 0; 2] = Ret [3; 1; 2].
Proof.
  rewrite (upmap_exact sample_osdmap replicated_pool (Pg 7 5) [3; 0; 2]).
  - reflexivity.
  - apply sample_osdmap_wf.
  - intros l r [= <-] ->%list_elem_of_singleton. cbn. lia.
Defined.

(** [pg_to_acting_osds], which computes the up set only where there is no
    temporary mapping, agrees with the full computation. *)
Theorem acting_agrees {C} `{Placement C} (m : OSDMap C) pool shift pg :
  wf_osdmap m -> pools m !! pg_pool pg = Some pool -> can_shift_osds pool = Ret shift ->
  Places (crush m) (osd_weight m) pool (pg_pool pg) (fun _ => distinct) ->
  (forall l, pg_upmap m !! raw_pg_to_pg pool pg = Some l -> distinct l) ->
  exists ua, _pg_to_up_acting_osds m pg true = Ret ua /\ pg_to_acting_osds m pg = Ret (ua_acting ua, ua_acting_primary ua).
Proof.
  intros Hwf Hpool Hs HP Hmap.
  destruct (up_acting_run m pool shift pg Hwf Hpool Hs (fun _ => distinct) HP ltac:(by intros i j o ?) ltac:(done) Hmap true) as (ua & ? & _ & _ & _ & Ha).
  exists ua. split; [done|]. by apply Ha; left.
Qed.

Lemma acting_agrees_witness :
  exists ua, _pg_to_up_acting_osds sample_osdmap (Pg 7 5) true = Ret ua /\ pg_to_acting_osds sample_osdmap (Pg 7 5) = Ret (ua_acting ua, ua_acting_primary ua).
Proof.
  apply (acting_agrees sample_osdmap replicated_pool true (Pg 7 5)).
  - apply sample_osdmap_wf.
  - done.
  - done.
  - apply sample_places.
  - by intros l [=].
Defined.

(** ** Boundary behaviour *)

(** [pg_to_raw_up] takes the primary from the raw mapping: it can be an OSD that
    is down and not in the up set. *)
Lemma raw_up_primary_down :
  exists m : OSDMap (Z -> list Z), exists up p,
    let _ : Placement (Z -> list Z) := {| find_rule := fun _ _ _ _ => Ret 0; do_rule := fun c _ x _ _ _ => Ret (c x) |} in
    wf_osdmap m /\ pg_to_raw_up m (Pg 7 0) = Ret (up, p) /\ up = [1] /\ p = 0 /\ upb m p = false.
Proof.
  exists (MkOSDMap _ 2 [1; 3] [0x10000; 0x10000] ∅ ∅ None ∅ ∅ {[7 := replicated_pool]} (fun _ => [0; 1])), [1], 0.
  cbv zeta. split; [split; [split; vm_compute; congruence|done..]|]. done.
Qed.

(** An id in [pg_upmap_items] that is no OSD is put into the mapping, where the
    comment says that the pair is ignored. *)
Lemma upmap_invalid_id :
  let m := MkOSDMap CrushWrapper 4 [3; 3; 3; 1] sample_weight ∅ ∅ None ∅ {[Pg 7 5 := [(0, 99)]]} {[7 := replicated_pool]} sample_wrapper in
  _apply_upmap m replicated_pool (Pg 7 5) [0; 1] = Ret [99; 1].
Proof. reflexivity. Qed.

(** [calc_pg_rank] with more replicas than the vector has reads past its end. *)
Lemma rank_overread : calc_pg_rank 5 [1; 2] 3 = Fault.
Proof. reflexivity. Qed.
