(* ===== verification/StrHash.v ===== *)
(** * Hashes of object names and the group of an object
    (src/src/common/ceph_hash.cc, pg_pool_t::hash_key, OSDMap::object_locator_to_pg)

    A name is the list of its bytes; a read behind its end is a [Fault].  The
    reference hash cuts the name into blocks of twelve bytes and reads a last,
    padded one; the theorem of this file says that the loop and the switch
    with its falling cases compute it. *)

From S2P Require Import Prelude CrushHash CrushBuilder Encoding Hobject PgTypes OsdMap.
Open Scope mach_scope.

(** The macro [mix], which is [crush_hashmix] word for word. *)
Definition mix (a b c : Z) : Z * Z * Z := crush_hashmix a b c.

(** [k[0] + ((__u32)k[1] << 8) + ((__u32)k[2] << 16) + ((__u32)k[3] << 24)] *)
Definition key_word (k : bytes) (i : Z) : res Z :=
  k0 <~ aget k i;;
  k1 <~ aget k (i + 1);;
  k2 <~ aget k (i + 2);;
  k3 <~ aget k (i + 3);;
  Ret (k0 +u (k1 <<u 8) +u (k2 <<u 16) +u (k3 <<u 24)).

(** [while (len >= 12)]; [i] is where [k] points. *)
Fixpoint rjenkins_loop (fuel : nat) (k : bytes) (i len a b c : Z) : res (Z * Z * (Z * Z * Z)) :=
  match fuel with
  | O => NoFuel
  | S fuel =>
      if 12 <=? len then
        w0 <~ key_word k i;;
        w1 <~ key_word k (i + 4);;
        w2 <~ key_word k (i + 8);;
        let '(a, b, c) := mix (a +u w0) (b +u w1) (c +u w2) in
        rjenkins_loop fuel k (i + 12) (len - 12) a b c
      else Ret (i, len, (a, b, c))
  end.

(** [case n:] of the switch over [len], reached from the cases above it. *)
Definition fall (len n : Z) (k : bytes) (i sh w : Z) : res Z :=
  if n <=? len then x <~ aget k (i + n - 1);; Ret (w +u (x <<u sh)) else Ret w.

Definition rjenkins_tail (k : bytes) (i len length a b c : Z) : res (Z * Z * Z) :=
  let c := c +u length in
  c <~ fall len 11 k i 24 c;;
  c <~ fall len 10 k i 16 c;;
  c <~ fall len 9 k i 8 c;;
  b <~ fall len 8 k i 24 b;;
  b <~ fall len 7 k i 16 b;;
  b <~ fall len 6 k i 8 b;;
  b <~ fall len 5 k i 0 b;;
  a <~ fall len 4 k i 24 a;;
  a <~ fall len 3 k i 16 a;;
  a <~ fall len 2 k i 8 a;;
  a <~ fall len 1 k i 0 a;;
  Ret (a, b, c).

Definition ceph_str_hash_rjenkins (str : bytes) (length : Z) : res Z :=
  let a := 0x9e3779b9 in
  '(i, len, (a, b, c)) <~ rjenkins_loop (S (Z.to_nat (length / 12))) str 0 length a a 0;;
  '(a, b, c) <~ rjenkins_tail str i len length a b c;;
  let '(_, _, c) := mix a b c in
  Ret c.

(** [while (length--)] *)
Fixpoint linux_loop (n : nat) (str : bytes) (i hash : Z) : res Z :=
  match n with
  | O => Ret hash
  | S n =>
      c <~ aget str i;;
      linux_loop n str (i + 1) (u32 ((hash +u (Z.shiftl c 4) +u (Z.shiftr c 4)) * 11))
  end.

Definition ceph_str_hash_linux (str : bytes) (length : Z) : res Z := linux_loop (Z.to_nat length) str 0 0.

Definition CEPH_STR_HASH_LINUX : Z := 1.
Definition CEPH_STR_HASH_RJENKINS : Z := 2.

Definition ceph_str_hash (type : Z) (s : bytes) (len : Z) : res Z :=
  if type =? CEPH_STR_HASH_LINUX then ceph_str_hash_linux s len
  else if type =? CEPH_STR_HASH_RJENKINS then ceph_str_hash_rjenkins s len
  else Ret (u32 (-1)).

Definition ceph_str_hash_valid (type : Z) : bool := (type =? CEPH_STR_HASH_LINUX) || (type =? CEPH_STR_HASH_RJENKINS).

(** ** From an object to its group *)

(** [pg_pool_t::hash_key]; a buffer whose length overflows an [int] is a
    [Fault]. *)
Definition hash_key (pl : pg_pool_t) (key ns : bytes) : res Z :=
  match ns with
  | [] => ceph_str_hash (p_object_hash pl) key (u32 (zlen key))
  | _ :: _ =>
      let len := zlen key + zlen ns + 1 in
      if 2 ^ 31 <=? len then Fault
      else ceph_str_hash (p_object_hash pl) (ns ++ [31] ++ key) len
  end.

Record object_locator_t := Locator {
  l_pool : Z;
  l_key : bytes;
  l_nspace : bytes;
  l_hash : Z;
}.

Section locate.
Context {C : Type} (m : OSDMap C).

(** [map_to_pg]: a group, or an error. *)
Definition map_to_pg (poolid : Z) (name key nspace : bytes) : res (Z + pg_t) :=
  match get_pg_pool m poolid with
  | None => Ret (inl (- ENOENT))
  | Some pool =>
      ps <~ hash_key pool (if string_empty key then name else key) nspace;;
      Ret (inr (Pg (u64 poolid) ps))
  end.

Definition object_locator_to_pg (oid : bytes) (loc : object_locator_t) : res (Z + pg_t) :=
  if 0 <=? l_hash loc then
    match get_pg_pool m (l_pool loc) with
    | None => Ret (inl (- ENOENT))
    | Some _ => Ret (inr (Pg (u64 (l_pool loc)) (u32 (l_hash loc))))
    end
  else map_to_pg (l_pool loc) oid (l_key loc) (l_nspace loc).
End locate.

(** ** Reference *)

(** The number whose bytes are given, the lowest first. *)
Definition number (l : bytes) : Z := foldr (fun b n => b + 256 * n) 0 l.

(** The words of a block, added to the state. *)
Definition absorb (t : bytes) (st : Z * Z * Z) : Z * Z * Z :=
  let '(a, b, c) := st in
  (a +u number (take 4 t), b +u number (take 4 (drop 4 t)), c +u number (take 4 (drop 8 t))).

Definition mix_ (st : Z * Z * Z) : Z * Z * Z := let '(a, b, c) := st in mix a b c.

Fixpoint absorb_blocks (n : nat) (k : bytes) (st : Z * Z * Z) : Z * Z * Z :=
  match n with
  | O => st
  | S n => absorb_blocks n (drop 12 k) (mix_ (absorb k st))
  end.

(** Blocks of twelve bytes; the last one has the bytes that remain, padded
    with zeros, with the low byte of its third word left out for the length. *)
Definition rjenkins_ref (k : bytes) : Z :=
  let n := (length k / 12)%nat in
  let t := drop (12 * n) k ++ replicate (11 - length k mod 12) 0 in
  let '(a, b, c) := absorb (take 8 t ++ [0] ++ drop 8 t) (absorb_blocks n k (0x9e3779b9, 0x9e3779b9, 0)) in
  let '(_, _, c) := mix a b (c +u zlen k) in
  c.

(** ** The hash is the reference *)

Definition is_byte (b : Z) : Prop := 0 <= b < 256.

Lemma uw_add_l w a b : uw w (uw w a + b) = uw w (a + b).
Proof. apply Zplus_mod_idemp_l. Qed.

Lemma uw_add_r w a b : uw w (a + uw w b) = uw w (a + b).
Proof. apply Zplus_mod_idemp_r. Qed.

Lemma aget_nth (k : bytes) i : 0 <= i < zlen k -> aget k i = Ret (nth (Z.to_nat i) k 0).
Proof.
  intros Hi. unfold aget. rewrite (proj2 (Z.ltb_ge i 0)) by lia. destruct (k !! Z.to_nat i) eqn:E; [|apply lookup_ge_None in E; lia].
  f_equal. symmetry. by apply nth_lookup_Some.
Qed.

Lemma nth_drop_Z (k : bytes) i j : 0 <= i -> 0 <= j -> nth (Z.to_nat (i + j)) k 0 = nth (Z.to_nat j) (drop (Z.to_nat i) k) 0.
Proof. intros. rewrite !nth_lookup, lookup_drop. f_equal. f_equal. lia. Qed.

Lemma zlen_drop (k : bytes) i : 0 <= i -> zlen (drop (Z.to_nat i) k) = Z.max 0 (zlen k - i).
Proof. intros. rewrite length_drop. lia. Qed.

Lemma uw_add_ll w a b c : uw w (uw w a + b + c) = uw w (a + b + c).
Proof. by rewrite <- Z.add_assoc, uw_add_l, Z.add_assoc. Qed.

Lemma uw_add_lr w a b c : uw w (a + uw w b + c) = uw w (a + b + c).
Proof. by rewrite <- uw_add_l, uw_add_r, uw_add_l. Qed.

(** Drop the wraps inside a sum that wraps. *)
Ltac uw_norm := repeat first [rewrite uw_add_l | rewrite uw_add_r | rewrite uw_add_ll | rewrite uw_add_lr].

Lemma key_word_spec k i : 0 <= i -> i + 4 <= zlen k -> key_word k i = Ret (u32 (number (take 4 (drop (Z.to_nat i) k)))).
Proof.
  intros Hi Hl. unfold key_word. rewrite !aget_nth by lia. cbn [rbind]. f_equal.
  replace (nth (Z.to_nat i) k 0) with (nth 0 (drop (Z.to_nat i) k) 0) by (rewrite !nth_lookup, lookup_drop; f_equal; f_equal; lia). rewrite !nth_drop_Z by lia.
  pose proof (zlen_drop k i Hi) as Hd. destruct (drop (Z.to_nat i) k) as [|k0 [|k1 [|k2 [|k3 t]]]]; cbn in Hd; try lia.
  change (Z.to_nat 1) with 1%nat. change (Z.to_nat 2) with 2%nat. change (Z.to_nat 3) with 3%nat. cbn [nth take foldr number].
  uw_norm. rewrite !Z.shiftl_mul_pow2 by lia. f_equal. rewrite take_0. cbn. lia.
Qed.

(** A case of the switch adds a byte of the padded block. *)
Lemma fall_spec k i len n sh w : 0 <= i -> 0 < n -> 0 <= sh -> is_u 32 w -> len = zlen (drop (Z.to_nat i) k) ->
  fall len n k i sh w = Ret (u32 (w + nth (Z.to_nat (n - 1)) (drop (Z.to_nat i) k) 0 * 2 ^ sh)).
Proof.
  intros Hi Hn Hsh Hw Hlen. unfold fall. pose proof (zlen_drop k i Hi). destruct (Z.leb_spec n len).
  - rewrite aget_nth by lia. cbn [rbind]. f_equal. replace (i + n - 1) with (i + (n - 1)) by lia. rewrite nth_drop_Z by lia. uw_norm. by rewrite Z.shiftl_mul_pow2 by lia.
  - rewrite nth_overflow by lia. f_equal. rewrite Z.mul_0_l, Z.add_0_r. symmetry. by apply uw_small.
Qed.

Lemma rjenkins_tail_spec k i len length a b c :
  0 <= i -> is_u 32 a -> is_u 32 b -> is_u 32 c -> len = zlen (drop (Z.to_nat i) k) -> len < 12 ->
  let t := drop (Z.to_nat i) k ++ replicate (11 - Z.to_nat len) 0 in
  let '(a', b', c') := absorb (take 8 t ++ [0] ++ drop 8 t) (a, b, c) in
  rjenkins_tail k i len length a b c = Ret (a', b', c' +u length).
Proof.
  intros Hi Ha Hb Hc Hlen Hl. cbv zeta. set (t0 := drop (Z.to_nat i) k) in *. set (t := t0 ++ replicate (11 - Z.to_nat len) 0).
  assert (forall z, is_u 32 (u32 z)) as Hu by (intros; by apply uw_range).
  assert (forall n, nth n t0 0 = nth n t 0) as Hnth.
  { intros n. unfold t. rewrite !nth_lookup. destruct (t0 !! n) as [x|] eqn:E; [by rewrite (lookup_app_l_Some _ _ _ _ E)|].
    apply lookup_ge_None in E. rewrite lookup_app_r by done. destruct (replicate _ _ !! _) eqn:E'; [|done]. by apply lookup_replicate in E' as [-> _]. }
  unfold rjenkins_tail. repeat (rewrite fall_spec by (done || lia || auto); cbn [rbind]). fold t0. rewrite !Hnth.
  assert (Datatypes.length t = 11%nat) as Ht by (unfold t; rewrite length_app, length_replicate; lia).
  change (Z.to_nat (11 - 1)) with 10%nat. change (Z.to_nat (10 - 1)) with 9%nat. change (Z.to_nat (9 - 1)) with 8%nat. change (Z.to_nat (8 - 1)) with 7%nat.
  change (Z.to_nat (7 - 1)) with 6%nat. change (Z.to_nat (6 - 1)) with 5%nat. change (Z.to_nat (5 - 1)) with 4%nat. change (Z.to_nat (4 - 1)) with 3%nat.
  change (Z.to_nat (3 - 1)) with 2%nat. change (Z.to_nat (2 - 1)) with 1%nat. change (Z.to_nat (1 - 1)) with 0%nat.
  clearbody t. do 12 (destruct t as [|? t]; cbn [Datatypes.length] in Ht; try lia). cbn [nth take drop app absorb number foldr]. uw_norm.
  do 2 f_equal; [f_equal|]; f_equal; cbn; lia.
Qed.

Lemma mix_range a b c : is_u 32 a -> is_u 32 b -> is_u 32 c -> exists a' b' c', mix a b c = (a', b', c') /\ words (a', b', c').
Proof. exact (crush_hashmix_range a b c). Qed.

(** One block of the loop. *)
Lemma rjenkins_block fuel k i len a b c : 0 <= i -> 12 <= len -> len = zlen (drop (Z.to_nat i) k) ->
  rjenkins_loop (S fuel) k i len a b c =
    let '(a, b, c) := mix_ (absorb (drop (Z.to_nat i) k) (a, b, c)) in rjenkins_loop fuel k (i + 12) (len - 12) a b c.
Proof.
  intros Hi H12 Hlen. pose proof (zlen_drop k i Hi). cbn [rjenkins_loop]. rewrite (proj2 (Z.leb_le 12 len)), !key_word_spec by lia. cbn [rbind]. rewrite !uw_add_r.
  unfold absorb, mix_. rewrite !drop_drop. replace (Z.to_nat (i + 4)) with (Z.to_nat i + 4)%nat by lia. by replace (Z.to_nat (i + 8)) with (Z.to_nat i + 8)%nat by lia.
Qed.

Lemma absorb_blocks_S n k st : absorb_blocks (S n) k st = absorb_blocks n (drop 12 k) (mix_ (absorb k st)).
Proof. reflexivity. Qed.

Lemma mix_absorb_words t st : words st -> words (mix_ (absorb t st)).
Proof.
  destruct st as [[a b] c]. intros _. unfold absorb, mix_.
  destruct (mix_range (a +u number (take 4 t)) (b +u number (take 4 (drop 4 t))) (c +u number (take 4 (drop 8 t)))) as (a' & b' & c' & -> & ?); [by apply uw_range..|done].
Qed.

Lemma rjenkins_loop_spec q : forall fuel k i len a b c,
  (q < fuel)%nat -> 0 <= i -> len = zlen (drop (Z.to_nat i) k) -> 12 * Z.of_nat q <= len < 12 * Z.of_nat q + 12 -> words (a, b, c) ->
  exists st, absorb_blocks q (drop (Z.to_nat i) k) (a, b, c) = st /\ words st /\
    rjenkins_loop fuel k i len a b c = Ret (i + 12 * Z.of_nat q, len - 12 * Z.of_nat q, st).
Proof.
  induction q as [|q IH]; intros fuel k i len a b c Hf Hi Hlen Hq Hw; (destruct fuel as [|fuel]; [lia|]).
  { cbn [rjenkins_loop absorb_blocks]. rewrite (proj2 (Z.leb_gt 12 len)) by lia. exists (a, b, c). split_and!; [done|done|]. do 3 f_equal; lia. }
  rewrite rjenkins_block, absorb_blocks_S by lia. pose proof (mix_absorb_words (drop (Z.to_nat i) k) _ Hw) as Hw'.
  destruct (mix_ (absorb (drop (Z.to_nat i) k) (a, b, c))) as [[a' b'] c']. rewrite drop_drop.
  destruct (IH fuel k (i + 12) (len - 12) a' b' c') as (st & E & Hst & El); [lia|lia| |lia|done|].
  { pose proof (zlen_drop k i Hi). rewrite zlen_drop by lia. lia. }
  exists st. replace (Z.to_nat (i + 12)) with (Z.to_nat i + 12)%nat in E by lia. split_and!; [exact E|done|]. rewrite El. do 3 f_equal; lia.
Qed.

(** The hash of a name reads its bytes only and is the reference. *)
Lemma rjenkins_spec k : zlen k < 2 ^ 32 -> ceph_str_hash_rjenkins k (zlen k) = Ret (rjenkins_ref k) /\ is_u 32 (rjenkins_ref k).
Proof.
  intros Hk. unfold ceph_str_hash_rjenkins, rjenkins_ref. set (q := (length k / 12)%nat).
  pose proof (Nat.div_mod_eq (length k) 12) as Hdm. pose proof (Nat.mod_upper_bound (length k) 12 ltac:(lia)) as Hmod. fold q in Hdm.
  assert (zlen k / 12 = Z.of_nat q) as -> by (symmetry; apply (Z.div_unique _ _ _ (Z.of_nat (length k mod 12))); lia).
  destruct (rjenkins_loop_spec q (S (Z.to_nat (Z.of_nat q))) k 0 (zlen k) 0x9e3779b9 0x9e3779b9 0) as ([[a b] c] & E & (Ha & Hb & Hc) & El); [lia|lia|done|lia|by repeat split|].
  rewrite El. cbn [rbind]. change (Z.to_nat 0) with 0%nat in E. rewrite drop_0 in E. rewrite E.
  set (t := drop (12 * q) k ++ replicate (11 - length k mod 12) 0).
  pose proof (rjenkins_tail_spec k (0 + 12 * Z.of_nat q) (zlen k - 12 * Z.of_nat q) (zlen k) a b c) as Ht. rewrite zlen_drop in Ht by lia.
  replace (Z.to_nat (0 + 12 * Z.of_nat q)) with (12 * q)%nat in Ht by lia. replace (Z.to_nat (zlen k - 12 * Z.of_nat q)) with (length k mod 12)%nat in Ht by lia.
  fold t in Ht. specialize (Ht ltac:(lia) Ha Hb Hc ltac:(lia) ltac:(lia)). cbv zeta in Ht.
  destruct (absorb (take 8 t ++ [0] ++ drop 8 t) (a, b, c)) as [[a1 b1] c1] eqn:Ea. rewrite Ht. cbn [rbind].
  assert (words (a1, b1, c1)) as (Ha1 & Hb1 & Hc1) by (unfold absorb in Ea; injection Ea as <- <- <-; repeat split; apply uw_range; lia).
  destruct (mix_range a1 b1 (c1 +u zlen k) Ha1 Hb1) as (a2 & b2 & c2 & -> & _ & _ & ?); [by apply uw_range|]. done.
Qed.

Lemma linux_loop_ok n : forall str i h, 0 <= i -> i + Z.of_nat n <= zlen str -> is_u 32 h -> exists v, linux_loop n str i h = Ret v /\ is_u 32 v.
Proof.
  induction n as [|n IH]; intros str i h Hi Hn Hh; cbn [linux_loop]; [by exists h|]. rewrite aget_nth by lia. cbn [rbind]. apply IH; [lia|lia|by apply uw_range].
Qed.

Lemma str_hash_ok type k : zlen k < 2 ^ 32 -> exists h, ceph_str_hash type k (zlen k) = Ret h /\ is_u 32 h.
Proof.
  intros Hk. unfold ceph_str_hash. destruct (_ =? _); [unfold ceph_str_hash_linux; apply linux_loop_ok; [lia|lia|done]|].
  destruct (_ =? _); [destruct (rjenkins_spec k Hk) as [-> ?]; by eexists|]. eexists. split; [done|by apply uw_range].
Qed.

(** ** The group of an object *)

(** What is hashed: the namespace, a separator and the key or the name. *)
Definition hashed (oid : bytes) (loc : object_locator_t) : bytes :=
  let key := if string_empty (l_key loc) then oid else l_key loc in
  match l_nspace loc with [] => key | _ :: _ => l_nspace loc ++ [31] ++ key end.

Section locate_spec.
Context {C : Type} (m : OSDMap C).

Lemma hash_key_spec pl key ns : zlen key + zlen ns + 1 < 2 ^ 31 ->
  exists h, hash_key pl key ns = Ret h /\ is_u 32 h /\ ceph_str_hash (p_object_hash pl) (match ns with [] => key | _ :: _ => ns ++ [31] ++ key end)
    (zlen (match ns with [] => key | _ :: _ => ns ++ [31] ++ key end)) = Ret h.
Proof.
  intros Hl. unfold hash_key. destruct ns as [|n ns].
  - rewrite uw_small by (unfold is_u; lia). destruct (str_hash_ok (p_object_hash pl) key) as (h & -> & ?); [lia|]. by exists h.
  - rewrite (proj2 (Z.leb_gt _ _)) by lia. replace (zlen key + zlen (n :: ns) + 1) with (zlen ((n :: ns) ++ [31] ++ key)) by (rewrite !length_app; cbn; lia).
    destruct (str_hash_ok (p_object_hash pl) ((n :: ns) ++ [31] ++ key)) as (h & -> & ?); [rewrite !length_app; cbn in *; lia|]. by exists h.
Qed.

Lemma object_pg oid loc pl : get_pg_pool m (l_pool loc) = Some pl -> l_hash loc < 0 -> 0 <= l_pool loc < 2 ^ 63 ->
  zlen oid + zlen (l_key loc) + zlen (l_nspace loc) + 1 < 2 ^ 31 ->
  exists pg, object_locator_to_pg m oid loc = Ret (inr pg) /\ pg_pool pg = l_pool loc /\ is_u 32 (ps pg) /\
    ceph_str_hash (p_object_hash pl) (hashed oid loc) (zlen (hashed oid loc)) = Ret (ps pg).
Proof.
  intros Hp Hh Hpool Hl. unfold object_locator_to_pg, map_to_pg. rewrite (proj2 (Z.leb_gt 0 _)), Hp by lia. unfold hashed.
  destruct (hash_key_spec pl (if string_empty (l_key loc) then oid else l_key loc) (l_nspace loc)) as (h & -> & ? & E); [destruct (string_empty _); lia|].
  cbn [rbind]. eexists. split; [done|]. split_and!; [|done|exact E]. unfold pg_pool. cbn [m_pool]. rewrite uw_small by (unfold is_u; lia). apply sw_small; unfold is_s; lia.
Qed.

Lemma object_pg_none oid loc : get_pg_pool m (l_pool loc) = None -> object_locator_to_pg m oid loc = Ret (inl (- ENOENT)).
Proof. intros Hp. unfold object_locator_to_pg, map_to_pg. rewrite Hp. by destruct (0 <=? _). Qed.
End locate_spec.
