(* ===== verification/Striper.v ===== *)
(** * Striping of files over objects (src/src/osdc/Striper.cc, src/src/osdc/Striper.h)

    A file is cut into blocks of [stripe_unit] bytes that go round
    [stripe_count] objects until each has [object_size] bytes; then the next
    set of objects begins.  This file has the layout, the map from a range of
    the file to extents of objects and back, the sizes of truncated objects,
    and the reassembly of a read from the parts the objects return.

    Data are lists of bytes; a division by zero, a failed assertion, an
    exception and an access out of bounds are a [Fault].  The name of an
    object is what [snprintf] makes of its number with the format given, a
    function [object_name] of the model; [ino_object_name] is the one of the
    overload that takes an inode number.  Log messages are left out. *)

From S2P Require Import Prelude Encoding Hobject StrHash.
Open Scope Z_scope.

(** ** Layouts (src/src/include/fs_types.h, src/src/common/fs_types.cc) *)

Record file_layout_t := Layout {
  stripe_unit : Z;
  stripe_count : Z;
  object_size : Z;
  pool_id : Z;
  pool_ns : bytes;
}.

Definition CEPH_MIN_STRIPE_UNIT : Z := 65536.

Definition get_period (l : file_layout_t) : Z := u64 (stripe_count l * object_size l).

Definition layout_is_valid (l : file_layout_t) : bool :=
  if (stripe_unit l =? 0) || negb (Z.land (stripe_unit l) (CEPH_MIN_STRIPE_UNIT - 1) =? 0) then false
  else if (object_size l =? 0) || negb (Z.land (object_size l) (CEPH_MIN_STRIPE_UNIT - 1) =? 0) then false
  else if (object_size l <? stripe_unit l) || negb (object_size l mod stripe_unit l =? 0) then false
  else if stripe_count l =? 0 then false
  else true.

Definition file_to_object_locator (l : file_layout_t) : object_locator_t := Locator (pool_id l) [] (pool_ns l) (-1).

(** ** Arithmetic of [uint64_t] *)

Definition udiv (a b : Z) : res Z := if b =? 0 then Fault else Ret (a / b).
Definition umod (a b : Z) : res Z := if b =? 0 then Fault else Ret (a mod b).

(** ** Truncation *)

Definition object_truncate_size (layout : file_layout_t) (objectno trunc_size : Z) : res Z :=
  if (trunc_size =? 0) || (trunc_size =? u64 (-1)) then Ret trunc_size
  else
    let object_size := object_size layout in
    let su := stripe_unit layout in
    let stripe_count := stripe_count layout in
    _ <~ rassert (su <=? object_size);;
    stripes_per_object <~ udiv object_size su;;
    objectsetno <~ udiv objectno stripe_count;;
    t <~ udiv trunc_size object_size;;
    trunc_objectsetno <~ udiv t stripe_count;;
    if trunc_objectsetno <? objectsetno then Ret 0
    else if objectsetno <? trunc_objectsetno then Ret object_size
    else
      trunc_blockno <~ udiv trunc_size su;;
      trunc_stripeno <~ udiv trunc_blockno stripe_count;;
      trunc_stripepos <~ umod trunc_blockno stripe_count;;
      let trunc_objectno := u64 (trunc_objectsetno * stripe_count + trunc_stripepos) in
      r <~ umod trunc_stripeno stripes_per_object;;
      if objectno <? trunc_objectno then Ret (u64 ((r + 1) * su))
      else if trunc_objectno <? objectno then Ret (u64 (r * su))
      else o <~ umod trunc_size su;; Ret (u64 (r * su + o)).

Definition get_num_objects (layout : file_layout_t) (size : Z) : res Z :=
  let su := stripe_unit layout in
  let sc := stripe_count layout in
  let period := get_period layout in
  num_periods <~ udiv (u64 (size + period - 1)) period;;
  remainder_bytes <~ umod size period;;
  remainder_objs <~ (if (0 <? remainder_bytes) && (remainder_bytes <? u64 (sc * su))
                     then q <~ udiv (u64 (remainder_bytes + su - 1)) su;; Ret (u64 (sc - q))
                     else Ret 0);;
  Ret (u64 (num_periods * sc - remainder_objs)).

(** ** From a file to objects *)

Record ObjectExtent := Extent {
  e_oid : bytes;
  e_objectno : Z;
  e_offset : Z;
  e_length : Z;
  e_truncate_size : Z;
  e_oloc : object_locator_t;
  e_buffer_extents : list (Z * Z);
}.

(** [std::map<object_t, vector<ObjectExtent>>], in the order of names. *)
Notation extent_map := (list (bytes * list ObjectExtent)).

Fixpoint oget (oid : bytes) (m : extent_map) : list ObjectExtent :=
  match m with
  | [] => []
  | (k, v) :: m => if bool_decide (oid = k) then v else oget oid m
  end.

Fixpoint oput (oid : bytes) (v : list ObjectExtent) (m : extent_map) : extent_map :=
  match m with
  | [] => [(oid, v)]
  | (k, w) :: m =>
      if string_ltb oid k then (oid, v) :: (k, w) :: m
      else if bool_decide (oid = k) then (k, v) :: m
      else (k, w) :: oput oid v m
  end.

(** [exv.back()], read and changed. *)
Fixpoint back (exv : list ObjectExtent) : option ObjectExtent :=
  match exv with
  | [] => None
  | [ex] => Some ex
  | _ :: exv => back exv
  end.

Fixpoint update_back (f : ObjectExtent -> ObjectExtent) (exv : list ObjectExtent) : list ObjectExtent :=
  match exv with
  | [] => []
  | [ex] => [f ex]
  | ex :: exv => ex :: update_back f exv
  end.

Definition grow_extent (x_len : Z) (ex : ObjectExtent) : ObjectExtent :=
  Extent (e_oid ex) (e_objectno ex) (e_offset ex) (u64 (e_length ex + x_len)) (e_truncate_size ex) (e_oloc ex) (e_buffer_extents ex).

Definition push_buffer (be : Z * Z) (ex : ObjectExtent) : ObjectExtent :=
  Extent (e_oid ex) (e_objectno ex) (e_offset ex) (e_length ex) (e_truncate_size ex) (e_oloc ex) (e_buffer_extents ex ++ [be]).

Section names.
Context (object_name : Z -> bytes).

(** One turn of the loop: the object of the block at [cur] and the range in it. *)
Definition block_of (layout : file_layout_t) (su stripes_per_object cur left : Z) : res (Z * Z * Z) :=
  let stripe_count := stripe_count layout in
  blockno <~ udiv cur su;;
  stripeno <~ udiv blockno stripe_count;;
  stripepos <~ umod blockno stripe_count;;
  objectsetno <~ udiv stripeno stripes_per_object;;
  let objectno := u64 (objectsetno * stripe_count + stripepos) in
  r <~ umod stripeno stripes_per_object;;
  let block_start := u64 (r * su) in
  block_off <~ umod cur su;;
  let max := u64 (su - block_off) in
  let x_offset := u64 (block_start + block_off) in
  Ret (objectno, x_offset, if max <? left then max else left).

(** [vector<ObjectExtent>& exv = object_extents[oid]] and what is done to it. *)
Definition add_extent (layout : file_layout_t) (trunc_size objectno x_offset x_len : Z) (be : Z * Z) (exv : list ObjectExtent) : res (list ObjectExtent) :=
  let oid := object_name objectno in
  if match back exv with None => true | Some ex => negb (u64 (e_offset ex + e_length ex) =? x_offset) end then
    t <~ object_truncate_size layout objectno trunc_size;;
    Ret (exv ++ [Extent oid objectno x_offset x_len t (file_to_object_locator layout) [be]])
  else Ret (update_back (fun ex => push_buffer be (grow_extent x_len ex)) exv).

Fixpoint extents_loop (fuel : nat) (layout : file_layout_t) (su spo offset trunc_size buffer_offset cur left : Z) (m : extent_map) : res extent_map :=
  match fuel with
  | O => NoFuel
  | S fuel =>
      if 0 <? left then
        '(objectno, x_offset, x_len) <~ block_of layout su spo cur left;;
        let oid := object_name objectno in
        exv <~ add_extent layout trunc_size objectno x_offset x_len (u64 (u64 (cur - offset) + buffer_offset), x_len) (oget oid m);;
        extents_loop fuel layout su spo offset trunc_size buffer_offset (u64 (cur + x_len)) (u64 (left - x_len)) (oput oid exv m)
      else Ret m
  end.

(** [file_to_extents], which adds to the map it is given. *)
Definition file_to_extents (layout : file_layout_t) (offset len trunc_size buffer_offset : Z) (object_extents : extent_map) : res extent_map :=
  _ <~ rassert (0 <? len);;
  let su := stripe_unit layout in
  _ <~ rassert (su <=? object_size layout);;
  let su := if stripe_count layout =? 1 then object_size layout else su in
  stripes_per_object <~ udiv (object_size layout) su;;
  n <~ udiv len su;;
  extents_loop (Z.to_nat (n + 3)) layout su stripes_per_object offset trunc_size buffer_offset offset len object_extents.

Definition assimilate_extents (object_extents : extent_map) (extents : list ObjectExtent) : list ObjectExtent :=
  extents ++ concat (map snd object_extents).

Definition file_to_extent_list (layout : file_layout_t) (offset len trunc_size buffer_offset : Z) (extents : list ObjectExtent) : res (list ObjectExtent) :=
  m <~ file_to_extents layout offset len trunc_size buffer_offset [];;
  Ret (assimilate_extents m extents).
End names.

(** [snprintf] with [%llx] and with [%08llx]. *)
Fixpoint hex_digits (fuel : nat) (n : Z) (acc : bytes) : bytes :=
  match fuel with
  | O => acc
  | S fuel =>
      let d := n mod 16 in
      let acc := (if d <? 10 then 48 + d else 87 + d) :: acc in
      if n / 16 =? 0 then acc else hex_digits fuel (n / 16) acc
  end.

Definition hex (n : Z) : bytes := hex_digits 16 n [].
Definition hex08 (n : Z) : bytes := replicate (8 - length (hex n)) 48 ++ hex n.

(** The names ["%llx.%08llx"] of the overload for an inode. *)
Definition ino_object_name (ino objectno : Z) : bytes := hex ino ++ [46] ++ hex08 objectno.

(** ** From an object to the file *)

Fixpoint to_file_loop (fuel : nat) (su sc spo objectno off_in_block off len : Z) : res (list (Z * Z)) :=
  match fuel with
  | O => NoFuel
  | S fuel =>
      if 0 <? len then
        stripepos <~ umod objectno sc;;
        objectsetno <~ udiv objectno sc;;
        q <~ udiv off su;;
        let stripeno := u64 (q + u64 (objectsetno * spo)) in
        let blockno := u64 (u64 (stripeno * sc) + stripepos) in
        let extent_off := u64 (u64 (blockno * su) + off_in_block) in
        let extent_len := Z.min len (u64 (su - off_in_block)) in
        l <~ to_file_loop fuel su sc spo objectno 0 (u64 (off + extent_len)) (u64 (len - extent_len));;
        Ret ((extent_off, extent_len) :: l)
      else Ret []
  end.

(** The extents that are pushed. *)
Definition extent_to_file (layout : file_layout_t) (objectno off len : Z) : res (list (Z * Z)) :=
  let su := stripe_unit layout in
  _ <~ rassert (su <=? object_size layout);;
  stripes_per_object <~ udiv (object_size layout) su;;
  off_in_block <~ umod off su;;
  n <~ udiv len su;;
  to_file_loop (Z.to_nat (n + 3)) su (stripe_count layout) stripes_per_object objectno off_in_block off len.

(** ** Results of striped reads *)

Record StripedReadResult := Striped {
  partial : list (Z * (bytes * Z));
  total_intended_len : Z;
}.

Definition pget (k : Z) (m : list (Z * (bytes * Z))) : bytes * Z := match mget k m with Some r => r | None => ([], 0) end.

(** [bl.splice(0, len, &to)]: what is taken and what stays. *)
Definition splice (len : Z) (bl : bytes) : res (bytes * bytes) :=
  let len := u32 len in
  if len =? 0 then Ret ([], bl)
  else if zlen bl <? len then Fault
  else Ret (take (Z.to_nat len) bl, drop (Z.to_nat len) bl).

Fixpoint add_partial_result (buffer_extents : list (Z * Z)) (bl : bytes) (s : StripedReadResult) : res (StripedReadResult * bytes) :=
  match buffer_extents with
  | [] => Ret (s, bl)
  | (off, len) :: be =>
      let r := pget off (partial s) in
      '(got, bl) <~ splice (Z.min (zlen bl) len) bl;;
      add_partial_result be bl (Striped (mput off (r.1 ++ got, len) (partial s)) (u64 (total_intended_len s + len)))
  end.

(** [while (tlen > 0)] over one buffer extent: the iterator [sp] over
    [bl_map], the data, [bl_off] and the result. *)
Fixpoint sparse_loop (fuel : nat) (sp : list (Z * Z)) (bl : bytes) (bl_off tofs tlen : Z) (s : StripedReadResult)
    : res (list (Z * Z) * bytes * Z * StripedReadResult) :=
  match fuel with
  | O => NoFuel
  | S fuel =>
      if 0 <? tlen then
        match sp with
        | [] =>
            let r := pget tofs (partial s) in
            Ret (sp, bl, bl_off, Striped (mput tofs (r.1, tlen) (partial s)) (u64 (total_intended_len s + tlen)))
        | (sf, sl) :: sp' =>
            if sl =? 0 then sparse_loop fuel sp' bl bl_off tofs tlen s
            else
              let '(bl_off, tofs, tlen, s) :=
                if bl_off <? sf then
                  let r := pget tofs (partial s) in
                  let gap := Z.min (u64 (sf - bl_off)) tlen in
                  (u64 (bl_off + gap), u64 (tofs + gap), u64 (tlen - gap),
                   Striped (mput tofs (r.1, gap) (partial s)) (u64 (total_intended_len s + gap)))
                else (bl_off, tofs, tlen, s) in
              if tlen =? 0 then sparse_loop fuel sp bl bl_off tofs tlen s
              else
                _ <~ rassert (sf <=? bl_off);;
                let left := u64 (u64 (sf + sl) - bl_off) in
                let actual := Z.min left tlen in
                '(bl, bl_off, tofs, tlen, s) <~
                  (if 0 <? actual then
                     let r := pget tofs (partial s) in
                     '(got, bl) <~ splice actual bl;;
                     Ret (bl, u64 (bl_off + actual), u64 (tofs + actual), u64 (tlen - actual),
                          Striped (mput tofs (r.1 ++ got, actual) (partial s)) (u64 (total_intended_len s + actual)))
                   else Ret (bl, bl_off, tofs, tlen, s));;
                sparse_loop fuel (if actual =? left then sp' else sp) bl bl_off tofs tlen s
        end
      else Ret (sp, bl, bl_off, s)
  end.

Fixpoint sparse_extents (buffer_extents sp : list (Z * Z)) (bl : bytes) (bl_off : Z) (s : StripedReadResult) : res StripedReadResult :=
  match buffer_extents with
  | [] => Ret s
  | (tofs, tlen) :: be =>
      '(sp, bl, bl_off, s) <~ sparse_loop (length sp + 2) sp bl bl_off tofs tlen s;;
      sparse_extents be sp bl bl_off s
  end.

Definition add_partial_sparse_result (bl : bytes) (bl_map : list (Z * Z)) (bl_off : Z) (buffer_extents : list (Z * Z)) (s : StripedReadResult) : res StripedReadResult :=
  sparse_extents buffer_extents bl_map bl bl_off s.

(** [assemble_result(bl, zero_tail)]: what is appended to [bl]; the partial
    results are cleared. *)
Fixpoint assemble_loop (p : list (Z * (bytes * Z))) (bl : bytes) (zeros : Z) : bytes * Z :=
  match p with
  | [] => (bl, zeros)
  | (_, (data, expect)) :: p =>
      let got := zlen data in
      let '(bl, zeros) :=
        match data with
        | [] => (bl, zeros)
        | _ :: _ => (bl ++ replicate (Z.to_nat (u32 zeros)) 0 ++ data, 0)
        end in
      assemble_loop p bl (u64 (zeros + u64 (expect - got)))
  end.

Definition assemble_result (s : StripedReadResult) (bl : bytes) (zero_tail : bool) : bytes * StripedReadResult :=
  let '(bl, zeros) := assemble_loop (partial s) bl 0 in
  (if zero_tail && negb (zeros =? 0) then bl ++ replicate (Z.to_nat (u32 zeros)) 0 else bl, Striped [] (total_intended_len s)).

(** Writing into the caller's buffer. *)
Definition bwrite (buffer : bytes) (pos : Z) (data : bytes) : res bytes :=
  if (0 <=? pos) && (pos + zlen data <=? zlen buffer)
  then Ret (take (Z.to_nat pos) buffer ++ data ++ drop (Z.to_nat pos + length data) buffer)
  else Fault.

(** The loop from the last partial result to the first. *)
Fixpoint fill_loop (p : list (Z * (bytes * Z))) (buffer : bytes) (curr en : Z) : res (bytes * Z) :=
  match p with
  | [] => Ret (buffer, curr)
  | (first, (data, expect)) :: p =>
      _ <~ rassert (first =? u64 (en - expect));;
      let len := zlen data in
      _ <~ rassert (expect <=? curr);;
      let curr := u64 (curr - expect) in
      buffer <~
        (if len <? expect then
           buffer <~ bwrite buffer curr data;;
           bwrite buffer (curr + len) (replicate (Z.to_nat (expect - len)) 0)
         else bwrite buffer curr data);;
      fill_loop p buffer curr first
  end.

Definition assemble_buffer (s : StripedReadResult) (buffer : bytes) (length : Z) : res (bytes * StripedReadResult) :=
  _ <~ rassert (length =? total_intended_len s);;
  match rev (partial s) with
  | [] => Ret (buffer, s)
  | (first, (data, expect)) :: p =>
      '(buffer, curr) <~ fill_loop (rev (partial s)) buffer length (u64 (first + expect));;
      _ <~ rassert (curr =? 0);;
      Ret (buffer, Striped [] (total_intended_len s))
  end.
