(* ===== verification/StriperSpec.v ===== *)
(** * Where the bytes of a striped file are

    [locate] and [file_pos] are the two directions between positions in a file
    and positions in objects, [filled] the number of bytes of an object that
    lie in front of a position of the file.  The functions of Striper.v that
    compute with blocks and stripes are shown to compute these, and those that
    work with layouts are described by them. *)

From S2P Require Import Prelude Encoding Hobject HobjectOrder StrHash Striper.
Open Scope Z_scope.

Definition locate (su sc spo cur : Z) : Z * Z :=
  let b := cur / su in
  let t := b / sc in
  (t / spo * sc + b mod sc, t mod spo * su + cur mod su).

Definition file_pos (su sc spo o x : Z) : Z := ((x / su + o / sc * spo) * sc + o mod sc) * su + x mod su.

Lemma div_mul_add a b c : 0 < b -> 0 <= c < b -> (a * b + c) / b = a.
Proof. intros. symmetry. apply (Z.div_unique _ _ _ c); lia. Qed.

Lemma mod_mul_add a b c : 0 < b -> 0 <= c < b -> (a * b + c) mod b = c.
Proof. intros. symmetry. apply (Z.mod_unique _ _ a); lia. Qed.

Lemma mul_add_lt a b c d : 0 < b -> 0 <= c < b -> 0 <= a < d -> 0 <= a * b + c < d * b.
Proof. intros. nia. Qed.

Section layout.
Context (su sc spo : Z) (Hsu : 0 < su) (Hsc : 0 < sc) (Hspo : 0 < spo).

Notation os := (spo * su).
Notation locate := (locate su sc spo).
Notation file_pos := (file_pos su sc spo).

Lemma locate_range cur : 0 <= cur -> 0 <= (locate cur).1 /\ 0 <= (locate cur).2 < os.
Proof using Hsu Hsc Hspo.
  intros H. unfold StriperSpec.locate. cbn [fst snd]. pose proof (Z.mod_pos_bound (cur / su) sc Hsc). pose proof (Z.mod_pos_bound (cur / su / sc) spo Hspo).
  pose proof (Z.mod_pos_bound cur su Hsu). split; [|apply mul_add_lt; lia].
  apply Z.add_nonneg_nonneg; [|lia]. apply Z.mul_nonneg_nonneg; [|lia]. repeat apply Z.div_pos; lia.
Qed.

(** Position to object and back. *)
Lemma file_pos_locate cur : file_pos (locate cur).1 (locate cur).2 = cur.
Proof using Hsu Hsc Hspo.
  unfold StriperSpec.locate, StriperSpec.file_pos. cbn [fst snd]. pose proof (Z.mod_pos_bound (cur / su) sc Hsc). pose proof (Z.mod_pos_bound cur su Hsu).
  rewrite !div_mul_add, !mod_mul_add by lia. rewrite (Z.add_comm (_ mod spo)), <- (Z.mul_comm spo), <- Z.div_mod by lia.
  rewrite <- (Z.mul_comm sc), <- Z.div_mod by lia. rewrite <- (Z.mul_comm su), <- Z.div_mod by lia. done.
Qed.

(** Object to position and back. *)
Lemma locate_file_pos o x : 0 <= x < os -> locate (file_pos o x) = (o, x).
Proof using Hsu Hsc Hspo.
  intros Hx. unfold StriperSpec.locate, StriperSpec.file_pos. pose proof (Z.mod_pos_bound x su Hsu). pose proof (Z.mod_pos_bound o sc Hsc).
  assert (0 <= x / su < spo) by (split; [apply Z.div_pos; lia|apply Z.div_lt_upper_bound; lia]).
  rewrite !div_mul_add, !mod_mul_add by lia. rewrite (Z.add_comm (x / su)), div_mul_add, mod_mul_add by lia.
  rewrite <- (Z.mul_comm sc), <- Z.div_mod, <- (Z.mul_comm su), <- Z.div_mod by lia. done.
Qed.

Lemma file_pos_nonneg o x : 0 <= o -> 0 <= x -> 0 <= file_pos o x.
Proof using Hsu Hsc Hspo.
  intros. unfold StriperSpec.file_pos. pose proof (Z.mod_pos_bound x su Hsu). pose proof (Z.mod_pos_bound o sc Hsc).
  assert (0 <= x / su) by (apply Z.div_pos; lia). assert (0 <= o / sc) by (apply Z.div_pos; lia). nia.
Qed.

(** Within a block the two positions move together. *)
Lemma locate_block cur k : 0 <= k < su - cur mod su -> locate (cur + k) = ((locate cur).1, (locate cur).2 + k).
Proof using Hsu.
  intros Hk. unfold StriperSpec.locate. cbn [fst snd]. pose proof (Z.mod_pos_bound cur su Hsu). pose proof (Z.div_mod cur su ltac:(lia)) as E.
  assert ((cur + k) / su = cur / su) as -> by (symmetry; apply (Z.div_unique _ _ _ (cur mod su + k)); lia).
  assert ((cur + k) mod su = cur mod su + k) as -> by (symmetry; apply (Z.mod_unique _ _ (cur / su)); lia). f_equal. lia.
Qed.
End layout.

(** With one object per set the stripe unit does not matter. *)
Lemma locate_one su spo cur : 0 < su -> 0 < spo -> locate su 1 spo cur = locate (spo * su) 1 1 cur.
Proof.
  intros. unfold locate. rewrite !Z.div_1_r, !Z.mod_1_r, !Z.mul_1_r, !Z.add_0_r, Z.mul_0_l, Z.add_0_l, (Z.mul_comm spo), Z.div_div by lia. f_equal.
  rewrite Z.rem_mul_r by lia. lia.
Qed.

(** Digits compare from the highest on. *)
Lemma lex_lt b a c a' c' : 0 <= c < b -> 0 <= c' < b -> a * b + c < a' * b + c' <-> a < a' \/ a = a' /\ c < c'.
Proof. intros. split; [|nia]. intros H1. destruct (Z.lt_trichotomy a a') as [|[->|]]; [by left|right; lia|nia]. Qed.

Lemma lex_eq b a c a' c' : 0 <= c < b -> 0 <= c' < b -> a * b + c = a' * b + c' <-> a = a' /\ c = c'.
Proof. intros. split; [|by intros [-> ->]]. intros. assert (a = a') by nia. subst. lia. Qed.

(** The bytes of object [o] in front of position [n]. *)
Definition filled (su sc spo o n : Z) : Z :=
  let b := n / su in
  let t := b / sc in
  if t / spo <? o / sc then 0
  else if o / sc <? t / spo then spo * su
  else if o mod sc <? b mod sc then (t mod spo + 1) * su
  else if b mod sc <? o mod sc then t mod spo * su
  else t mod spo * su + n mod su.

Section filled.
Context (su sc spo : Z) (Hsu : 0 < su) (Hsc : 0 < sc) (Hspo : 0 < spo).

Notation os := (spo * su).
Notation locate := (locate su sc spo).
Notation file_pos := (file_pos su sc spo).
Notation filled := (filled su sc spo).

Lemma filled_range o n : 0 <= filled o n <= os.
Proof using Hsu Hsc Hspo.
  unfold StriperSpec.filled. pose proof (Z.mod_pos_bound (n / su / sc) spo Hspo). pose proof (Z.mod_pos_bound n su Hsu).
  repeat case_match; nia.
Qed.

Lemma filled_spec o n x : 0 <= x < os -> file_pos o x < n <-> x < filled o n.
Proof using Hsu Hsc Hspo.
  intros Hx. unfold StriperSpec.filled, StriperSpec.file_pos. pose proof (Z.mod_pos_bound x su Hsu) as Hi'. pose proof (Z.mod_pos_bound o sc Hsc) as Hp'.
  assert (0 <= x / su < spo) as Hr' by (split; [apply Z.div_pos; lia|apply Z.div_lt_upper_bound; lia]).
  pose proof (Z.mod_pos_bound n su Hsu) as Hi. pose proof (Z.mod_pos_bound (n / su) sc Hsc) as Hp. pose proof (Z.mod_pos_bound (n / su / sc) spo Hspo) as Hr.
  pose proof (Z.div_mod n su ltac:(lia)) as E1. pose proof (Z.div_mod (n / su) sc ltac:(lia)) as E2. pose proof (Z.div_mod (n / su / sc) spo ltac:(lia)) as E3.
  pose proof (Z.div_mod x su ltac:(lia)) as Ex.
  set (g := n / su / sc / spo) in *. set (r := (n / su / sc) mod spo) in *. set (p := (n / su) mod sc) in *. set (i := n mod su) in *.
  set (g' := o / sc) in *. set (r' := x / su) in *. set (p' := o mod sc) in *. set (i' := x mod su) in *.
  assert (n = ((r + g * spo) * sc + p) * su + i) as En by (rewrite E1, E2, E3 at 1; ring). assert (x = r' * su + i') as Exx by lia.
  clear E1 E2 E3 Ex. clearbody g r p i g' r' p' i'. rewrite En, Exx. rewrite Exx in Hx. clear En Exx.
  rewrite (Z.add_comm r'), (Z.add_comm r). rewrite !lex_lt, !lex_eq by lia.
  destruct (Z.ltb_spec g g'); [lia|]. destruct (Z.ltb_spec g' g); [lia|]. assert (g' = g) as -> by lia.
  destruct (Z.ltb_spec p' p); [rewrite <- (Z.add_0_r ((r + 1) * su)), lex_lt by lia; lia|].
  destruct (Z.ltb_spec p p'); [rewrite <- (Z.add_0_r (r * su)), lex_lt by lia; lia|]. assert (p' = p) as -> by lia. rewrite lex_lt by lia. lia.
Qed.

Lemma filled_unique o n v : 0 <= v <= os -> (forall x, 0 <= x < os -> file_pos o x < n <-> x < v) -> filled o n = v.
Proof using Hsu Hsc Hspo.
  intros Hv Hx. pose proof (filled_range o n) as Hr. destruct (Z.lt_trichotomy (filled o n) v) as [H1|[H1|H1]]; [|done|].
  - pose proof (filled_spec o n (filled o n) ltac:(lia)) as H2. specialize (Hx (filled o n) ltac:(lia)). lia.
  - pose proof (filled_spec o n v ltac:(lia)) as H2. specialize (Hx v ltac:(lia)). lia.
Qed.

Lemma filled_zero o : 0 <= o -> filled o 0 = 0.
Proof using Hsu Hsc Hspo.
  intros Ho. apply filled_unique; [nia|]. intros x Hx. pose proof (file_pos_nonneg su sc spo Hsu Hsc Hspo o x Ho ltac:(lia)). lia.
Qed.

Lemma filled_mono o n n' : n <= n' -> filled o n <= filled o n'.
Proof using Hsu Hsc Hspo.
  intros Hn. destruct (Z.le_gt_cases (filled o n) (filled o n')); [done|]. pose proof (filled_range o n). pose proof (filled_range o n').
  pose proof (filled_spec o n (filled o n') ltac:(lia)). pose proof (filled_spec o n' (filled o n') ltac:(lia)). lia.
Qed.

(** Positions grow with the place in the object. *)
Lemma file_pos_mono o x y : file_pos o x < file_pos o y <-> x < y.
Proof using Hsu Hsc Hspo.
  unfold StriperSpec.file_pos. pose proof (Z.mod_pos_bound x su Hsu). pose proof (Z.mod_pos_bound y su Hsu). pose proof (Z.mod_pos_bound o sc Hsc).
  rewrite !lex_lt, !lex_eq by lia. 
  pose proof (lex_lt su (x / su) (x mod su) (y / su) (y mod su) ltac:(lia) ltac:(lia)). pose proof (Z.div_mod x su ltac:(lia)). pose proof (Z.div_mod y su ltac:(lia)). lia.
Qed.

(** The object at a position is filled up to the place of that position. *)
Lemma filled_at cur : 0 <= cur -> filled (locate cur).1 cur = (locate cur).2.
Proof using Hsu Hsc Hspo.
  intros Hc. destruct (locate_range su sc spo Hsu Hsc Hspo cur Hc) as [Ho Hx]. apply filled_unique; [lia|]. intros y Hy.
  rewrite <- (file_pos_locate su sc spo Hsu Hsc Hspo cur) at 2. apply file_pos_mono.
Qed.

(** Going on in a block fills its object and no other. *)
Lemma filled_step cur k o : 0 <= cur -> 0 <= k <= su - cur mod su ->
  filled o (cur + k) = if o =? (locate cur).1 then (locate cur).2 + k else filled o cur.
Proof using Hsu Hsc Hspo.
  intros Hc Hk. destruct (locate_range su sc spo Hsu Hsc Hspo cur Hc) as [Ho Hx].
  assert (forall o x, 0 <= x < os -> cur <= file_pos o x < cur + k -> o = (locate cur).1 /\ (locate cur).2 <= x < (locate cur).2 + k) as Hin.
  { intros o' x Hx' Hp. pose proof (locate_block su sc spo Hsu cur (file_pos o' x - cur) ltac:(lia)) as E. replace (cur + _) with (file_pos o' x) in E by lia.
    rewrite (locate_file_pos su sc spo Hsu Hsc Hspo) in E by done. split; [exact (f_equal fst E)|]. pose proof (f_equal snd E) as E2. cbn [snd] in E2. lia. }
  assert ((locate cur).2 + k <= os) as Hle.
  { destruct (Z.eq_dec k 0); [lia|]. pose proof (locate_block su sc spo Hsu cur (k - 1) ltac:(lia)) as E.
    pose proof (locate_range su sc spo Hsu Hsc Hspo (cur + (k - 1)) ltac:(lia)) as [_ Hr]. rewrite E in Hr. cbn [fst snd] in Hr. lia. }
  destruct (Z.eqb_spec o (locate cur).1) as [->|Hne].
  - apply filled_unique; [lia|]. intros x Hx'. pose proof (filled_spec (locate cur).1 cur x Hx') as H1. rewrite (filled_at cur Hc) in *.
    split; [intros ?; destruct (Z.lt_ge_cases (file_pos (locate cur).1 x) cur); [lia|]; specialize (Hin _ _ Hx' ltac:(split; [eassumption|lia])); lia|].
    intros Hlt. destruct (Z.lt_ge_cases x (locate cur).2); [lia|]. pose proof (locate_block su sc spo Hsu cur (x - (locate cur).2) ltac:(lia)) as E.
    pose proof (file_pos_locate su sc spo Hsu Hsc Hspo (cur + (x - (locate cur).2))) as E'. rewrite E in E'. cbn [fst snd] in E'. replace ((locate cur).2 + _) with x in E' by lia. lia.
  - apply filled_unique; [apply filled_range|]. intros x Hx'. rewrite <- (filled_spec o cur x Hx'). split; [|lia]. intros Hlt.
    destruct (Z.lt_ge_cases (file_pos o x) cur); [done|]. by destruct (Hin o x Hx' ltac:(lia)).
Qed.
End filled.

Record lay_ok (l : file_layout_t) (spo : Z) : Prop := LayOk {
  lo_su : 0 < stripe_unit l < 2 ^ 32;
  lo_sc : 0 < stripe_count l < 2 ^ 32;
  lo_spo : 0 < spo;
  lo_os : object_size l = spo * stripe_unit l;
  lo_max : object_size l < 2 ^ 32;
}.

(** What [is_valid] accepts. *)
Lemma valid_lay_ok l : layout_is_valid l = true ->
  0 <= stripe_unit l < 2 ^ 32 -> 0 <= stripe_count l < 2 ^ 32 -> 0 <= object_size l < 2 ^ 32 -> lay_ok l (object_size l / stripe_unit l).
Proof.
  unfold layout_is_valid. intros Hv ???. destruct (Z.eqb_spec (stripe_unit l) 0); [done|]. destruct (negb _); [done|]. cbn [orb] in Hv.
  destruct (Z.eqb_spec (object_size l) 0); [done|]. destruct (negb _); [done|]. cbn [orb] in Hv. destruct (Z.ltb_spec (object_size l) (stripe_unit l)); [done|].
  destruct (Z.eqb_spec (object_size l mod stripe_unit l) 0) as [Em|]; [|done]. destruct (Z.eqb_spec (stripe_count l) 0); [done|].
  pose proof (Z.div_mod (object_size l) (stripe_unit l) ltac:(lia)). constructor; [lia|lia| |lia|lia]. apply Z.div_str_pos. lia.
Qed.

Lemma udiv_pos a b : 0 < b -> udiv a b = Ret (a / b).
Proof. intros. unfold udiv. by rewrite (proj2 (Z.eqb_neq b 0)) by lia. Qed.

Lemma umod_pos a b : 0 < b -> umod a b = Ret (a mod b).
Proof. intros. unfold umod. by rewrite (proj2 (Z.eqb_neq b 0)) by lia. Qed.

Lemma u64_small z : 0 <= z < 2 ^ 64 -> u64 z = z.
Proof. intros. by apply uw_small. Qed.

(** The numbers in a list of ranges. *)
Definition flat (r : list (Z * Z)) : list Z := concat (map (fun p => seqZ p.1 p.2) r).

Lemma flat_cons a n r : flat ((a, n) :: r) = seqZ a n ++ flat r.
Proof. done. Qed.

Lemma flat_app r r' : flat (r ++ r') = flat r ++ flat r'.
Proof. unfold flat. by rewrite map_app, concat_app. Qed.

Lemma seqZ_map (f : Z -> Z) a b n : (forall k, 0 <= k < n -> f (b + k) = a + k) -> seqZ a n = map f (seqZ b n).
Proof.
  intros Hf. apply list_eq. intros i. rewrite list_lookup_fmap. destruct (Z.lt_ge_cases (Z.of_nat i) n).
  - rewrite !lookup_seqZ_lt by done. cbn. f_equal. by rewrite Hf by lia.
  - by rewrite !lookup_seqZ_ge by done.
Qed.

Lemma le_mul_add a b c : 0 < b -> 0 <= a -> 0 <= c -> a <= a * b + c.
Proof. intros. nia. Qed.

Section layout.
Context (l : file_layout_t) (spo : Z) (Hl : lay_ok l spo).

Notation su := (stripe_unit l).
Notation sc := (stripe_count l).
Notation os := (object_size l).
Notation filled := (filled su sc spo).
Notation file_pos := (file_pos su sc spo).
Notation locate := (locate su sc spo).

Lemma su_pos : 0 < su. Proof using Hl. destruct Hl. lia. Qed.
Lemma sc_pos : 0 < sc. Proof using Hl. destruct Hl. lia. Qed.
Lemma spo_pos : 0 < spo. Proof using Hl. by destruct Hl. Qed.
Lemma su_le_os : su <= os. Proof using Hl. destruct Hl as [??? ->?]. nia. Qed.

(** The number of an object is below the number of blocks. *)
Lemma objectno_bound n : 0 <= n < 2 ^ 64 -> 0 <= n / su / sc / spo * sc + (n / su) mod sc < 2 ^ 64.
Proof using Hl.
  pose proof su_pos. pose proof sc_pos. pose proof spo_pos. intros Hn. pose proof (Z.mod_pos_bound (n / su) sc ltac:(lia)). pose proof (Z.div_mod (n / su) sc ltac:(lia)).
  assert (0 <= n / su <= n) by (split; [apply Z.div_pos; lia|apply Z.div_le_upper_bound; nia]). assert (0 <= n / su / sc) by (apply Z.div_pos; lia).
  assert (0 <= n / su / sc / spo <= n / su / sc) by (split; [apply Z.div_pos; lia|apply Z.div_le_upper_bound; nia]). nia.
Qed.

(** [object_truncate_size] is the number of bytes of the object in front of
    the end of the file. *)
Lemma truncate_spec o n : 0 <= o < 2 ^ 64 -> 0 <= n < 2 ^ 64 - 1 -> object_truncate_size l o n = Ret (filled o n).
Proof using Hl.
  pose proof su_pos. pose proof sc_pos. pose proof spo_pos. pose proof su_le_os. intros Ho Hn. unfold object_truncate_size. change (u64 (-1)) with (2 ^ 64 - 1).
  rewrite (proj2 (Z.eqb_neq n (2 ^ 64 - 1))) by lia. destruct (Z.eqb_spec n 0) as [->|Hn0]; cbn [orb]; [by rewrite filled_zero by lia|].
  rewrite (proj2 (Z.leb_le su os)) by lia. cbn [rassert rbind]. do 4 (rewrite udiv_pos by lia; cbn [rbind]).
  assert (os / su = spo) as Espo by (rewrite (lo_os _ _ Hl); apply Z.div_mul; lia).
  assert (n / os / sc = n / su / sc / spo) as Eset by (rewrite (lo_os _ _ Hl), !Z.div_div by nia; f_equal; ring).
  rewrite Espo, Eset. do 2 (rewrite udiv_pos by lia; cbn [rbind]). do 2 (rewrite umod_pos by lia; cbn [rbind]). rewrite umod_pos by lia. cbn [rbind]. unfold StriperSpec.filled. pose proof (lo_os _ _ Hl). pose proof (lo_max _ _ Hl).
  pose proof (Z.mod_pos_bound (n / su / sc) spo ltac:(lia)) as Hr. pose proof (Z.mod_pos_bound n su ltac:(lia)) as Hi. pose proof (objectno_bound n ltac:(lia)) as Hob.
  pose proof (Z.div_mod o sc ltac:(lia)) as Eo. pose proof (Z.mod_pos_bound o sc ltac:(lia)).
  destruct (Z.ltb_spec (n / su / sc / spo) (o / sc)); [done|]. destruct (Z.ltb_spec (o / sc) (n / su / sc / spo)); [congruence|].
  assert (o / sc = n / su / sc / spo) as Eg by lia. rewrite (u64_small _ Hob).
  assert (0 <= (n / su / sc) mod spo * su /\ ((n / su / sc) mod spo + 1) * su <= spo * su) as [? ?] by nia.
  rewrite !u64_small by nia. set (p := (n / su) mod sc) in *. set (q := o mod sc) in *. rewrite Eg in Eo. rewrite (Z.mul_comm sc) in Eo.
  destruct (Z.ltb_spec o (n / su / sc / spo * sc + p)), (Z.ltb_spec q p); try lia; [done|].
  destruct (Z.ltb_spec (n / su / sc / spo * sc + p) o), (Z.ltb_spec p q); try lia; done.
Qed.

(** The first byte of an object, in periods and blocks. *)
Lemma file_pos_0 o : file_pos o 0 = o / sc * (sc * os) + o mod sc * su.
Proof using Hl. pose proof su_pos. unfold StriperSpec.file_pos. rewrite Z.div_0_l, Z.mod_0_l, (lo_os _ _ Hl) by lia. ring. Qed.

Lemma period_bounds : sc * su <= sc * os < 2 ^ 64.
Proof using Hl. pose proof su_pos. pose proof sc_pos. pose proof su_le_os. destruct Hl. nia. Qed.

(** [get_num_objects] counts the objects that hold bytes of the file. *)
Lemma num_objects_spec size : 0 <= size -> size + sc * os <= 2 ^ 64 ->
  exists n, get_num_objects l size = Ret n /\ forall o, 0 <= o -> o < n <-> file_pos o 0 < size.
Proof using Hl.
  pose proof su_pos. pose proof sc_pos. pose proof period_bounds as Hper. intros Hs Hw. unfold get_num_objects, get_period. rewrite !(u64_small (sc * os)) by lia.
  set (P := sc * os) in *. assert (0 < P) by (apply Z.mul_pos_pos; lia). assert (sc <= P) by (transitivity (sc * 1); [lia|apply Z.mul_le_mono_nonneg_l; lia]). rewrite (u64_small (size + P - 1)) by lia. rewrite udiv_pos, umod_pos by lia. cbn [rbind].
  pose proof (Z.div_mod size P ltac:(lia)) as E. pose proof (Z.mod_pos_bound size P ltac:(lia)) as Hm. assert (0 <= size / P) as Hq by (apply Z.div_pos; lia).
  set (q := size / P) in *. set (m := size mod P) in *. assert (0 <= q * sc <= q * P) by (split; [apply Z.mul_nonneg_nonneg; lia|apply Z.mul_le_mono_nonneg_l; lia]). rewrite u64_small by lia.
  assert ((size + P - 1) / P = if m =? 0 then q else q + 1) as ->.
  { destruct (Z.eqb_spec m 0); symmetry; [apply (Z.div_unique _ _ _ (P - 1))|apply (Z.div_unique _ _ _ (m - 1))]; lia. }
  assert (forall n, 0 <= n <= sc -> (forall p, 0 <= p < sc -> p < n <-> p * su < m) -> forall o, 0 <= o -> o < q * sc + n <-> file_pos o 0 < size) as Hcount.
  { intros n Hn Hp o Ho. rewrite file_pos_0. fold P. pose proof (Z.mod_pos_bound o sc ltac:(lia)) as Hpo. pose proof (Z.div_mod o sc ltac:(lia)) as Eo.
    specialize (Hp (o mod sc) Hpo). rewrite E, (Z.mul_comm P). rewrite lex_lt by nia. rewrite Eo at 1. rewrite (Z.mul_comm sc).
    destruct (Z.eq_dec n sc) as [->|]; [|rewrite lex_lt by lia; lia]. 
    assert (o / sc * sc + o mod sc < q * sc + sc <-> o / sc < q + 1) as ->; [|lia].
    replace (q * sc + sc) with ((q + 1) * sc + 0) by ring. rewrite lex_lt by lia. lia. }
  destruct (Z.eqb_spec m 0) as [Em|Em].
  - rewrite (proj2 (Z.ltb_ge 0 m)) by lia. cbn [andb rbind]. rewrite Z.sub_0_r, u64_small by lia. exists (q * sc). split; [done|].
    rewrite <- (Z.add_0_r (q * sc)). apply Hcount; [lia|]. intros p Hp. nia.
  - rewrite (proj2 (Z.ltb_lt 0 m)) by lia. cbn [andb]. destruct (Z.ltb_spec m (sc * su)).
    + assert (m + su <= 2 ^ 64) by (destruct Hl; nia). rewrite (u64_small (m + su - 1)) by lia. rewrite udiv_pos by lia. cbn [rbind]. pose proof (Z.div_mod (m + su - 1) su ltac:(lia)). pose proof (Z.mod_pos_bound (m + su - 1) su ltac:(lia)).
      set (c := (m + su - 1) / su) in *. assert (0 <= c) by (apply Z.div_pos; lia).
      assert (c < sc + 1) by (apply (Z.mul_lt_mono_pos_r su); lia). rewrite (u64_small (sc - c)) by (destruct Hl; lia). rewrite u64_small by lia.
      exists (q * sc + c). split; [f_equal; lia|]. apply Hcount; [lia|]. intros p Hp. split; intros Hlt.
      * pose proof (Z.mul_le_mono_nonneg_r p (c - 1) su ltac:(lia) ltac:(lia)). lia.
      * apply (Z.mul_lt_mono_pos_r su); lia.
    + cbn [rbind]. rewrite Z.sub_0_r, u64_small by lia. exists (q * sc + sc). split; [f_equal; lia|]. apply Hcount; [lia|]. intros p Hp. nia.
Qed.

(** ** From objects to the file *)

Lemma file_pos_block o x k : 0 <= k < su - x mod su -> file_pos o (x + k) = file_pos o x + k.
Proof using Hl.
  pose proof su_pos. intros Hk. unfold StriperSpec.file_pos. pose proof (Z.mod_pos_bound x su ltac:(lia)). pose proof (Z.div_mod x su ltac:(lia)).
  assert ((x + k) / su = x / su) as -> by (symmetry; apply (Z.div_unique _ _ _ (x mod su + k)); lia).
  assert ((x + k) mod su = x mod su + k) as -> by (symmetry; apply (Z.mod_unique _ _ (x / su)); lia). lia.
Qed.

(** The position of a byte of an object, computed without wrapping. *)
Lemma file_pos_words o x : 0 <= o -> 0 <= x -> file_pos o x < 2 ^ 64 ->
  u64 (u64 (u64 (u64 (u64 (x / su + u64 (o / sc * spo)) * sc) + o mod sc) * su) + x mod su) = file_pos o x.
Proof using Hl.
  pose proof su_pos. pose proof sc_pos. pose proof spo_pos. intros Ho Hx Hw. unfold StriperSpec.file_pos in *.
  pose proof (Z.mod_pos_bound x su ltac:(lia)). pose proof (Z.mod_pos_bound o sc ltac:(lia)). assert (0 <= x / su) by (apply Z.div_pos; lia).
  assert (0 <= o / sc * spo) by (apply Z.mul_nonneg_nonneg; [apply Z.div_pos; lia|lia]).
  set (t := x / su + o / sc * spo) in *. pose proof (le_mul_add t sc (o mod sc) ltac:(lia) ltac:(lia) ltac:(lia)).
  pose proof (le_mul_add (t * sc + o mod sc) su (x mod su) ltac:(lia) ltac:(lia) ltac:(lia)). pose proof (Z.mul_nonneg_nonneg t sc ltac:(lia) ltac:(lia)).
  rewrite (u64_small (o / sc * spo)) by lia. fold t. rewrite (u64_small t), (u64_small (t * sc)), (u64_small (t * sc + o mod sc)) by lia.
  rewrite (u64_small ((t * sc + o mod sc) * su)), u64_small by lia. done.
Qed.

Lemma to_file_loop_spec fuel : forall o off len, 0 <= o < 2 ^ 64 -> 0 <= off -> 0 <= len -> off + len <= os ->
  (forall k, 0 <= k < len -> file_pos o (off + k) < 2 ^ 64) -> (off mod su + len) / su + 1 < Z.of_nat fuel ->
  exists exts, to_file_loop fuel su sc spo o (off mod su) off len = Ret exts /\ flat exts = map (file_pos o) (seqZ off len).
Proof using Hl.
  pose proof su_pos. pose proof sc_pos. pose proof su_le_os. pose proof (lo_max _ _ Hl). induction fuel as [|fuel IH]; intros o off len Ho Hoff Hlen Hos Hw Hfuel.
  { pose proof (Z.mod_pos_bound off su ltac:(lia)). assert (0 <= (off mod su + len) / su) by (apply Z.div_pos; lia). lia. }
  cbn [to_file_loop]. destruct (Z.ltb_spec 0 len); [|exists []; split; [done|]; by rewrite seqZ_nil by lia].
  rewrite umod_pos by lia. cbn [rbind]. do 2 (rewrite udiv_pos by lia; cbn [rbind]). 
  assert (file_pos o off < 2 ^ 64) by (rewrite <- (Z.add_0_r off); apply Hw; lia). rewrite file_pos_words by (done || lia).
  pose proof (Z.mod_pos_bound off su ltac:(lia)) as Hm. pose proof (Z.div_mod off su ltac:(lia)) as Ed. rewrite (u64_small (su - off mod su)) by lia.
  set (n := Z.min len (su - off mod su)). rewrite (u64_small (off + n)), (u64_small (len - n)) by lia.
  assert (exists exts, to_file_loop fuel su sc spo o 0 (off + n) (len - n) = Ret exts /\ flat exts = map (file_pos o) (seqZ (off + n) (len - n))) as (exts & E & Hf).
  { destruct (Z.le_gt_cases len (su - off mod su)) as [Hle|Hgt].
    - replace (len - n) with 0 by lia. exists []. split; [|by rewrite seqZ_nil by lia]. destruct fuel; [|done].
      assert (0 <= (off mod su + len) / su) by (apply Z.div_pos; lia). lia.
    - assert ((off + n) mod su = 0) as Ez by (symmetry; apply (Z.mod_unique _ _ (off / su + 1)); lia). rewrite <- Ez. apply IH; [done|lia|lia|lia| |].
      + intros k Hk. rewrite <- Z.add_assoc. apply Hw. lia.
      + rewrite Ez. replace (0 + (len - n)) with (off mod su + len + (-1) * su) by lia. rewrite Z.div_add by lia. lia. }
  rewrite E. cbn [rbind]. eexists. split; [done|]. rewrite flat_cons, Hf. 
  assert (seqZ off len = seqZ off n ++ seqZ (off + n) (len - n)) as -> by (rewrite <- seqZ_app by lia; f_equal; lia). rewrite map_app. f_equal.
  apply seqZ_map. intros k Hk. apply file_pos_block. lia.
Qed.

Lemma extent_to_file_spec o off len : 0 <= o < 2 ^ 64 -> 0 <= off -> 0 <= len -> off + len <= os ->
  (forall k, 0 <= k < len -> file_pos o (off + k) < 2 ^ 64) ->
  exists exts, extent_to_file l o off len = Ret exts /\ flat exts = map (file_pos o) (seqZ off len).
Proof using Hl.
  pose proof su_pos. pose proof su_le_os. intros Ho Hoff Hlen Hos Hw. unfold extent_to_file. rewrite (proj2 (Z.leb_le su os)) by lia. cbn [rassert rbind].
  rewrite udiv_pos by lia. cbn [rbind]. rewrite umod_pos by lia. cbn [rbind]. rewrite udiv_pos by lia. cbn [rbind].
  assert (os / su = spo) as -> by (rewrite (lo_os _ _ Hl); apply Z.div_mul; lia). apply to_file_loop_spec; try done.
  pose proof (Z.mod_pos_bound off su ltac:(lia)). assert (0 <= len / su) by (apply Z.div_pos; lia).
  assert ((off mod su + len) / su <= (len + 1 * su) / su) by (apply Z.div_le_mono; lia). rewrite Z.div_add in * by lia. lia.
Qed.
End layout.
