(* ===== verification/StriperMap.v ===== *)
(** * [file_to_extents]

    The loop over the blocks of a range, as one extent for each object: its
    bytes are those of the object that [filled] counts between the two ends of
    the range, and its buffer extents are where they go. *)

From S2P Require Import Prelude Encoding Hobject HobjectOrder StrHash Striper StriperSpec.
Open Scope Z_scope.

(** ** The map of extents *)

Lemma oget_put_same k v m : oget k (oput k v m) = v.
Proof.
  induction m as [|[k' v'] m IH]; cbn [oput oget]; [by rewrite bool_decide_eq_true_2|]. destruct (string_ltb k k'); cbn [oget]; [by rewrite bool_decide_eq_true_2|].
  case_bool_decide; cbn [oget]; [by rewrite bool_decide_eq_true_2|by rewrite bool_decide_eq_false_2].
Qed.

Lemma oget_put_ne k k' v m : k' <> k -> oget k' (oput k v m) = oget k' m.
Proof.
  intros Hne. induction m as [|[k1 v1] m IH]; cbn [oput oget]; [by rewrite bool_decide_eq_false_2|]. destruct (string_ltb k k1); cbn [oget].
  - by rewrite (bool_decide_eq_false_2 (k' = k)).
  - destruct (bool_decide_reflect (k = k1)) as [->|]; cbn [oget]; [|by rewrite IH]. by rewrite (bool_decide_eq_false_2 (k' = k1)).
Qed.

(** Keys grow_extent. *)
Fixpoint osorted (m : extent_map) : Prop :=
  match m with
  | [] => True
  | (k, _) :: m => (forall k' v, (k', v) ∈ m -> string_compare k k' = Lt) /\ osorted m
  end.

Lemma oput_in k v m k' v' : (k', v') ∈ oput k v m -> (k', v') = (k, v) \/ (k', v') ∈ m.
Proof.
  induction m as [|[k1 v1] m IH]; cbn [oput]; [by intros [?|[]%not_elem_of_nil]%elem_of_cons; left|]. destruct (string_ltb k k1).
  - intros [?|?]%elem_of_cons; auto.
  - case_bool_decide.
    + subst. intros [[= -> ->]|?]%elem_of_cons; [by left|right; by right].
    + intros [->|Hin]%elem_of_cons; [right; by left|]. destruct (IH Hin); [by left|right; by right].
Qed.

Lemma oput_sorted k v m : osorted m -> osorted (oput k v m).
Proof.
  induction m as [|[k1 v1] m IH]; cbn [oput osorted]; [by intros _; split; [intros ?? []%not_elem_of_nil|]|]. intros [H1 H2].
  destruct (string_ltb k k1) eqn:E; cbn [osorted].
  - apply string_ltb_compare in E. split; [|done]. intros k' v' [[= -> ->]|Hin]%elem_of_cons; [done|]. eapply tc_trans; [exact E|by eapply H1].
  - case_bool_decide as Heq; [subst; done|]. cbn [osorted]. split; [|by apply IH]. intros k' v' [[= -> ->]|Hin]%oput_in; [|by eapply H1].
    destruct (string_compare k1 k) eqn:Ec; [apply tc_eq in Ec; congruence|done|]. rewrite tc_opp in Ec. destruct (string_compare k k1) eqn:Ek; [done| |done]. apply string_ltb_compare in Ek. congruence.
Qed.

(** The extents of an object and those of the others. *)
Definition all_extents (m : extent_map) : list ObjectExtent := concat (map snd m).

Lemma oget_absent k m : (forall k' v, (k', v) ∈ m -> string_compare k k' = Lt) -> oget k m = [].
Proof.
  induction m as [|[k1 v1] m IH]; intros H; cbn [oget]; [done|]. rewrite bool_decide_eq_false_2; [apply IH; intros; eapply H; by right|].
  intros ->. specialize (H k1 v1 ltac:(by left)). by rewrite (tc_refl string_compare) in H.
Qed.

Lemma oput_all k v m : osorted m -> exists rest, all_extents m ≡ₚ oget k m ++ rest /\ all_extents (oput k v m) ≡ₚ v ++ rest.
Proof.
  unfold all_extents. induction m as [|[k1 v1] m IH]; cbn [oput oget osorted]; [by exists []|]. intros [H1 H2].
  destruct (string_ltb k k1) eqn:E.
  - apply string_ltb_compare in E. exists (v1 ++ concat (map snd m)). cbn. rewrite bool_decide_eq_false_2; [|intros ->; by rewrite (tc_refl string_compare) in E].
    rewrite oget_absent; [done|]. intros k' v' Hin. eapply tc_trans; [exact E|by eapply H1].
  - destruct (bool_decide_reflect (k = k1)) as [->|Hne]; [by exists (concat (map snd m))|]. destruct (IH H2) as (rest & Hp1 & Hp2). exists (v1 ++ rest). cbn.
    rewrite Hp1, Hp2. split; solve_Permutation.
Qed.

(** ** The loop *)

(** Consecutive ranges from [b] to [e]. *)
Fixpoint chain (b : Z) (P : list (Z * Z)) (e : Z) : Prop :=
  match P with
  | [] => b = e
  | (b', n) :: P => b' = b /\ 0 < n /\ chain (b + n) P e
  end.

Lemma chain_app b P e n : chain b P e -> 0 < n -> chain b (P ++ [(e, n)]) (e + n).
Proof. revert b. induction P as [|[b' k] P IH]; intros b; cbn; [by intros ->|]. intros (-> & ? & ?) ?. auto. Qed.

Section loop.
Context (l : file_layout_t) (spo : Z) (Hl : lay_ok l spo).
Context (object_name : Z -> bytes) (Hname : forall o o', 0 <= o < 2 ^ 64 -> 0 <= o' < 2 ^ 64 -> object_name o = object_name o' -> o = o').
Context (offset len trunc_size boff : Z) (Hoff : 0 <= offset) (Hlen : 0 < len) (Hend : offset + len < 2 ^ 64).
Context (Hboff : 0 <= boff) (Hbend : boff + len < 2 ^ 64) (Htrunc : 0 <= trunc_size < 2 ^ 64).

Notation sc := (stripe_count l).
Notation os := (object_size l).
Notation filled := (filled (stripe_unit l) sc spo).
Notation file_pos := (file_pos (stripe_unit l) sc spo).
Notation locate := (locate (stripe_unit l) sc spo).

(** The stripe unit of the loop, which for one object per set is the object. *)
Context (su' spo' : Z) (Hsu' : 0 < su') (Hspo' : 0 < spo') (Hos' : spo' * su' = os) (Hloc : forall cur, StriperSpec.locate su' sc spo' cur = locate cur).

Definition tsize (o : Z) : Z := if trunc_size =? 2 ^ 64 - 1 then trunc_size else filled o trunc_size.

Lemma tsize_spec o : 0 <= o < 2 ^ 64 -> object_truncate_size l o trunc_size = Ret (tsize o).
Proof using Hl Htrunc.
  intros Ho. unfold tsize. destruct (Z.eqb_spec trunc_size (2 ^ 64 - 1)) as [->|]; [done|]. apply truncate_spec; [done|done|lia].
Qed.

Lemma su_le : su' <= os < 2 ^ 32.
Proof using Hl Hsu' Hspo' Hos'. rewrite <- Hos'. pose proof (lo_max _ _ Hl). rewrite <- Hos' in *. nia. Qed.

Lemma file_pos_eq o x : 0 <= x < os -> StriperSpec.file_pos su' sc spo' o x = file_pos o x.
Proof using Hl Hsu' Hspo' Hos' Hloc.
  intros Hx. pose proof (sc_pos _ _ Hl). pose proof (su_pos _ _ Hl). pose proof (spo_pos _ _ Hl).
  rewrite <- (file_pos_locate su' sc spo' Hsu' ltac:(lia) Hspo' (file_pos o x)). rewrite Hloc, locate_file_pos by (rewrite <- ?(lo_os _ _ Hl); lia). done.
Qed.

Lemma filled_eq o n : StriperSpec.filled su' sc spo' o n = filled o n.
Proof using Hl Hsu' Hspo' Hos' Hloc.
  pose proof (sc_pos _ _ Hl). pose proof (su_pos _ _ Hl). pose proof (spo_pos _ _ Hl). pose proof (lo_os _ _ Hl) as Eos.
  pose proof (filled_range (stripe_unit l) sc spo ltac:(lia) ltac:(lia) ltac:(lia) o n).
  apply filled_unique; [lia..| |]; [lia|]. intros x Hx. rewrite file_pos_eq by lia. apply filled_spec; lia.
Qed.

(** One block: the places it goes to and what it fills. *)
Lemma block_step cur k o : 0 <= cur -> 0 <= k <= su' - cur mod su' ->
  filled o (cur + k) = if o =? (locate cur).1 then (locate cur).2 + k else filled o cur.
Proof using Hl Hsu' Hspo' Hos' Hloc.
  intros Hc Hk. rewrite <- !filled_eq, <- Hloc. apply filled_step; [lia|apply (sc_pos _ _ Hl)|lia|lia|lia].
Qed.

Lemma block_pos cur k : 0 <= cur -> 0 <= k < su' - cur mod su' -> file_pos (locate cur).1 ((locate cur).2 + k) = cur + k.
Proof using Hl Hsu' Hloc.
  intros Hc Hk. pose proof (locate_block su' sc spo' Hsu' cur k Hk) as E. rewrite !Hloc in E.
  pose proof (file_pos_locate (stripe_unit l) sc spo (su_pos _ _ Hl) (sc_pos _ _ Hl) (spo_pos _ _ Hl) (cur + k)) as Ep. rewrite E in Ep. exact Ep.
Qed.

Lemma place_range cur : 0 <= cur < 2 ^ 64 -> 0 <= (locate cur).1 < 2 ^ 64 /\ 0 <= (locate cur).2 < os.
Proof using Hl.
  intros Hc. pose proof (locate_range (stripe_unit l) sc spo (su_pos _ _ Hl) (sc_pos _ _ Hl) (spo_pos _ _ Hl) cur ltac:(lia)) as [Ho Hx].
  rewrite (lo_os _ _ Hl). split; [|done]. exact (objectno_bound l spo Hl cur Hc).
Qed.

Lemma block_of_spec cur left : 0 <= cur < 2 ^ 64 -> block_of l su' spo' cur left = Ret ((locate cur).1, (locate cur).2, Z.min (su' - cur mod su') left).
Proof using Hl Hsu' Hspo' Hos' Hloc.
  intros Hc. pose proof (place_range cur Hc) as [Ho Hx]. pose proof su_le as Hle. pose proof (sc_pos _ _ Hl). rewrite <- !Hloc in *. unfold StriperSpec.locate in *. cbn [fst snd] in *. unfold block_of.
  do 2 (rewrite udiv_pos by lia; cbn [rbind]). rewrite umod_pos by lia. cbn [rbind]. rewrite udiv_pos by lia. cbn [rbind]. do 2 (rewrite umod_pos by lia; cbn [rbind]).
  pose proof (Z.mod_pos_bound cur su' Hsu'). pose proof (Z.mod_pos_bound (cur / su' / sc) spo' Hspo').
  pose proof (Z.mul_nonneg_nonneg ((cur / su' / sc) mod spo') su' ltac:(lia) ltac:(lia)).
  rewrite (u64_small (_ * sc + _)), (u64_small (_ mod spo' * su')), (u64_small (_ mod spo' * su' + _)), (u64_small (su' - _)) by lia.
  do 2 f_equal. destruct (Z.ltb_spec (su' - cur mod su') left); lia.
Qed.

(** Where byte [x] of object [o] goes in the buffer. *)
Definition target (o x : Z) : Z := file_pos o x - offset + boff.

(** The extent of an object once the loop has come to [cur]. *)
Definition extent_ok (o cur : Z) (v : list ObjectExtent) : Prop :=
  if filled o offset <? filled o cur then
    exists be, v = [Extent (object_name o) o (filled o offset) (filled o cur - filled o offset) (tsize o) (file_to_object_locator l) be] /\
      flat be = map (target o) (seqZ (filled o offset) (filled o cur - filled o offset))
  else v = [].

Definition buffers (m : extent_map) : list (Z * Z) := concat (map e_buffer_extents (all_extents m)).

Record linv (cur : Z) (m : extent_map) (P : list (Z * Z)) : Prop := LInv {
  li_sorted : osorted m;
  li_get : forall o, 0 <= o < 2 ^ 64 -> extent_ok o cur (oget (object_name o) m);
  li_keys : forall k v, (k, v) ∈ m -> exists o, 0 <= o < 2 ^ 64 /\ k = object_name o /\ filled o offset < filled o cur;
  li_perm : buffers m ≡ₚ P;
  li_chain : chain boff P (boff + (cur - offset));
  li_piece : forall b n, (b, n) ∈ P -> n <= su' - (offset + (b - boff)) mod su';
}.

Lemma linv_start : linv offset [] [].
Proof using.
  constructor; [done| |by intros ?? []%not_elem_of_nil|done|cbn; lia|by intros ?? []%not_elem_of_nil].
  intros o _. unfold extent_ok. by rewrite Z.ltb_irrefl.
Qed.

(** What a block adds to the extents of its object. *)
Lemma add_extent_spec cur n v (o := (locate cur).1) :
  offset <= cur -> 0 < n -> n <= su' - cur mod su' -> cur + n < 2 ^ 64 -> extent_ok o cur v ->
  exists v', add_extent object_name l trunc_size o (locate cur).2 n (cur - offset + boff, n) v = Ret v' /\ extent_ok o (cur + n) v' /\
    concat (map e_buffer_extents v') = concat (map e_buffer_extents v) ++ [(cur - offset + boff, n)].
Proof using Hl Hoff Hsu' Hspo' Hos' Hloc Htrunc.
  intros Hc Hn Hle Hw Hv. pose proof (place_range cur ltac:(lia)) as [Ho Hx]. fold o in Ho. pose proof (su_pos _ _ Hl). pose proof (sc_pos _ _ Hl). pose proof (spo_pos _ _ Hl).
  pose proof (filled_at (stripe_unit l) sc spo ltac:(lia) ltac:(lia) ltac:(lia) cur ltac:(lia)) as Hat. fold o in Hat.
  pose proof (filled_mono (stripe_unit l) sc spo ltac:(lia) ltac:(lia) ltac:(lia) o offset cur Hc) as Hmono.
  pose proof (filled_range (stripe_unit l) sc spo ltac:(lia) ltac:(lia) ltac:(lia) o offset) as Hr0. pose proof su_le as Hos. pose proof (Z.mod_pos_bound cur su' Hsu').
  assert (filled o (cur + n) = (locate cur).2 + n) as Hst by (rewrite block_step by lia; by rewrite Z.eqb_refl).
  assert (seqZ (cur - offset + boff) n = map (target o) (seqZ (locate cur).2 n)) as Hseq.
  { apply seqZ_map. intros k Hk. unfold target, o. rewrite block_pos by lia. lia. }
  unfold add_extent, extent_ok in *. rewrite Hst. rewrite Hat in *. rewrite (proj2 (Z.ltb_lt (filled o offset) _)) by lia. destruct (Z.ltb_spec (filled o offset) (locate cur).2).
  - destruct Hv as (be & -> & Hbe). cbn [back e_offset e_length]. rewrite u64_small by lia. replace (filled o offset + _) with (locate cur).2 by lia.
    rewrite Z.eqb_refl. cbn [negb update_back]. eexists. split; [done|]. unfold grow_extent, push_buffer. cbn [e_oid e_objectno e_offset e_length e_truncate_size e_oloc e_buffer_extents map concat].
    rewrite u64_small by lia. split; [|by rewrite !app_nil_r].
    eexists. split; [do 2 f_equal; lia|]. rewrite flat_app, flat_cons, app_nil_r, Hbe, Hseq, <- map_app. f_equal.
    replace (seqZ (locate cur).2 n) with (seqZ (filled o offset + ((locate cur).2 - filled o offset)) n) by (f_equal; lia). rewrite <- seqZ_app by lia. f_equal. lia.
  - subst v. cbn [back]. assert (filled o offset = (locate cur).2) as -> by lia. rewrite tsize_spec by done. cbn [rbind]. eexists. split; [done|]. split; [|done].
    eexists. split; [cbn [app]; do 2 f_equal; lia|]. rewrite flat_cons, app_nil_r, Hseq. do 2 f_equal. lia.
Qed.

Lemma linv_step cur n m P (o := (locate cur).1) :
  offset <= cur -> 0 < n -> n <= su' - cur mod su' -> cur + n < 2 ^ 64 -> linv cur m P ->
  exists v, add_extent object_name l trunc_size o (locate cur).2 n (cur - offset + boff, n) (oget (object_name o) m) = Ret v /\
    linv (cur + n) (oput (object_name o) v m) (P ++ [(cur - offset + boff, n)]).
Proof using Hl Hname Hoff Hsu' Hspo' Hos' Hloc Htrunc.
  intros Hc Hn Hle Hw [Hso Hget Hkeys Hperm Hch Hpc]. pose proof (place_range cur ltac:(lia)) as [Ho Hx]. fold o in Ho.
  destruct (add_extent_spec cur n _ Hc Hn Hle Hw (Hget o Ho)) as (v & E & Hv & Hbe). fold o in E, Hv, Hbe. exists v. split; [done|].
  pose proof (su_pos _ _ Hl). pose proof (sc_pos _ _ Hl). pose proof (spo_pos _ _ Hl).
  assert (forall o', filled o' cur <= filled o' (cur + n)) as Hmono by (intros; apply filled_mono; lia).
  constructor.
  - by apply oput_sorted.
  - intros o' Ho'. destruct (Z.eq_dec o' o) as [->|Hne]; [by rewrite oget_put_same|]. rewrite oget_put_ne by (intros ?%Hname; done). specialize (Hget o' Ho').
    unfold extent_ok in *. rewrite block_step by lia. fold o. by rewrite (proj2 (Z.eqb_neq o' o)).
  - intros k w [[= -> ->]|Hin]%oput_in.
    + exists o. split; [exact Ho|]. split; [done|]. rewrite block_step by lia. unfold o. rewrite Z.eqb_refl. fold o.
      pose proof (filled_at (stripe_unit l) sc spo ltac:(lia) ltac:(lia) ltac:(lia) cur ltac:(lia)) as Hat. pose proof (filled_mono (stripe_unit l) sc spo ltac:(lia) ltac:(lia) ltac:(lia) o offset cur Hc). fold o in Hat. lia.
    + destruct (Hkeys _ _ Hin) as (o' & Ho' & ? & ?). exists o'. specialize (Hmono o'). split; [exact Ho'|]. split; [done|lia].
  - unfold buffers. destruct (oput_all (object_name o) v m Hso) as (rest & Hp1 & Hp2). rewrite Hp2, map_app, concat_app, Hbe, <- Hperm. unfold buffers. rewrite Hp1, map_app, concat_app. solve_Permutation.
  - replace (boff + (cur + n - offset)) with (boff + (cur - offset) + n) by lia. replace (cur - offset + boff) with (boff + (cur - offset)) by lia. by apply chain_app.
  - intros b k [Hin|[= -> ->]%list_elem_of_singleton]%elem_of_app; [by apply Hpc|]. by replace (offset + (cur - offset + boff - boff)) with cur by lia.
Qed.

Lemma extents_loop_spec fuel : forall cur left m P, offset <= cur -> 0 <= left -> cur + left = offset + len -> linv cur m P ->
  (cur mod su' + left) / su' + 1 < Z.of_nat fuel ->
  exists m' P', extents_loop object_name fuel l su' spo' offset trunc_size boff cur left m = Ret m' /\ linv (offset + len) m' P'.
Proof using Hl Hname Hoff Hlen Hend Hboff Hbend Hsu' Hspo' Hos' Hloc Htrunc.
  induction fuel as [|fuel IH]; intros cur left m P Hc Hleft Hsum Hinv Hfuel; pose proof (Z.mod_pos_bound cur su' Hsu') as Hm; pose proof (Z.div_mod cur su' ltac:(lia)) as Ed.
  { assert (0 <= (cur mod su' + left) / su') by (apply Z.div_pos; lia). lia. }
  cbn [extents_loop]. destruct (Z.ltb_spec 0 left); [|exists m, P; split; [done|]; by replace (offset + len) with cur by lia].
  rewrite block_of_spec by lia. cbn [rbind]. set (n := Z.min (su' - cur mod su') left).
  rewrite (u64_small (cur - offset)), (u64_small (cur - offset + boff)), (u64_small (cur + n)), (u64_small (left - n)) by lia.
  destruct (linv_step cur n m P) as (v & -> & Hinv'); [lia..|done|]. cbn [rbind]. destruct (Z.le_gt_cases left (su' - cur mod su')).
  - replace (left - n) with 0 by lia. replace (cur + n) with (offset + len) in * by lia. eexists _, _. split; [|exact Hinv']. destruct fuel; [|done].
    assert (0 <= (cur mod su' + left) / su') by (apply Z.div_pos; lia). lia.
  - eapply IH; [lia|lia|lia|exact Hinv'|]. assert ((cur + n) mod su' = 0) as -> by (symmetry; apply (Z.mod_unique _ _ (cur / su' + 1)); lia).
    replace (0 + (left - n)) with (cur mod su' + left + (-1) * su') by lia. rewrite Z.div_add by lia. lia.
Qed.
End loop.

(** The stripe unit [file_to_extents] uses. *)
Definition unit_of (l : file_layout_t) : Z := if stripe_count l =? 1 then object_size l else stripe_unit l.

Lemma unit_of_pos l spo : lay_ok l spo -> 0 < unit_of l.
Proof. intros Hl. unfold unit_of. pose proof (su_pos _ _ Hl). pose proof (su_le_os _ _ Hl). destruct (_ =? 1); lia. Qed.

Lemma file_to_extents_spec l spo object_name offset len trunc_size boff :
  lay_ok l spo -> (forall o o', 0 <= o < 2 ^ 64 -> 0 <= o' < 2 ^ 64 -> object_name o = object_name o' -> o = o') ->
  0 <= offset -> 0 < len -> offset + len < 2 ^ 64 -> 0 <= boff -> boff + len < 2 ^ 64 -> 0 <= trunc_size < 2 ^ 64 ->
  exists m P, file_to_extents object_name l offset len trunc_size boff [] = Ret m /\
    linv l spo object_name offset trunc_size boff (unit_of l) (offset + len) m P.
Proof.
  intros Hl Hname ? Hlen ? ? ? Ht. pose proof (su_pos _ _ Hl). pose proof (spo_pos _ _ Hl). pose proof (su_le_os _ _ Hl). pose proof (lo_os _ _ Hl) as Eos. pose proof (unit_of_pos _ _ Hl) as Hu.
  unfold file_to_extents. rewrite (proj2 (Z.ltb_lt 0 len)), (proj2 (Z.leb_le _ _)) by lia. cbn [rassert rbind]. fold (unit_of l). rewrite udiv_pos by lia. cbn [rbind]. rewrite udiv_pos by lia. cbn [rbind].
  set (spo' := object_size l / unit_of l).
  assert (0 < spo' /\ spo' * unit_of l = object_size l /\ forall cur, locate (unit_of l) (stripe_count l) spo' cur = locate (stripe_unit l) (stripe_count l) spo cur) as (Hspo' & Hos' & Hloc).
  { unfold spo', unit_of. destruct (Z.eqb_spec (stripe_count l) 1) as [E1|E1].
    - rewrite Z.div_same by lia. split; [done|]. split; [lia|]. intros cur. rewrite E1, Eos. symmetry. apply locate_one; lia.
    - assert (object_size l / stripe_unit l = spo) as -> by (rewrite Eos; apply Z.div_mul; lia). split; [done|]. split; [lia|done]. }
  eapply extents_loop_spec; try done; try lia; [apply linv_start|].
  pose proof (Z.mod_pos_bound offset (unit_of l) Hu). assert (0 <= len / unit_of l) by (apply Z.div_pos; lia).
  assert ((offset mod unit_of l + len) / unit_of l <= (len + 1 * unit_of l) / unit_of l) by (apply Z.div_le_mono; lia). rewrite Z.div_add in * by lia. lia.
Qed.

Lemma oget_in k v m : osorted m -> (k, v) ∈ m -> oget k m = v.
Proof.
  induction m as [|[k1 v1] m IH]; intros Hs Hin; [by apply not_elem_of_nil in Hin|]. destruct Hs as [H1 H2]. cbn [oget].
  apply elem_of_cons in Hin as [[= -> ->]|Hin]; [by rewrite bool_decide_eq_true_2|]. rewrite bool_decide_eq_false_2; [by apply IH|].
  intros ->. specialize (H1 _ _ Hin). by rewrite (tc_refl string_compare) in H1.
Qed.

(** Every extent of the map is the one extent of an object. *)
Lemma linv_extent l spo object_name offset trunc_size boff su' cur m P ex :
  linv l spo object_name offset trunc_size boff su' cur m P -> ex ∈ all_extents m ->
  exists o, 0 <= o < 2 ^ 64 /\ oget (object_name o) m = [ex] /\
    let X := filled (stripe_unit l) (stripe_count l) spo o offset in
    let L := filled (stripe_unit l) (stripe_count l) spo o cur - X in
    0 < L /\ e_oid ex = object_name o /\ e_objectno ex = o /\ e_offset ex = X /\ e_length ex = L /\ e_truncate_size ex = tsize l spo trunc_size o /\
    e_oloc ex = file_to_object_locator l /\ flat (e_buffer_extents ex) = map (target l spo offset boff o) (seqZ X L).
Proof.
  intros [Hso Hget Hkeys _ _ _] Hin. unfold all_extents in Hin. apply list_elem_of_In, in_concat in Hin as (v & Hv & Hin). apply in_map_iff in Hv as ([k v'] & Ev & Hkv). cbn in Ev. subst v'.
  apply list_elem_of_In in Hkv, Hin. destruct (Hkeys _ _ Hkv) as (o & Ho & -> & Hlt). exists o. split; [done|]. specialize (Hget o Ho). rewrite (oget_in _ _ _ Hso Hkv) in *.
  unfold extent_ok in Hget. rewrite (proj2 (Z.ltb_lt _ _) Hlt) in Hget. destruct Hget as (be & -> & Hbe). apply list_elem_of_singleton in Hin as ->.
  cbn [e_oid e_objectno e_offset e_length e_truncate_size e_oloc e_buffer_extents]. cbv zeta. split_and!; try done. lia.
Qed.

Lemma oget_all k m ex : ex ∈ oget k m -> ex ∈ all_extents m.
Proof.
  unfold all_extents. induction m as [|[k' v] m IH]; cbn [oget map concat snd]; [done|]. case_bool_decide; intros; apply elem_of_app; [by left|right; by apply IH].
Qed.

Section extents.
Context (l : file_layout_t) (spo : Z) (Hl : lay_ok l spo) (object_name : Z -> bytes) (offset trunc_size boff cur : Z) (m : extent_map) (P : list (Z * Z)).
Context (Hinv : linv l spo object_name offset trunc_size boff (unit_of l) cur m P).

(** One extent for each object. *)
Lemma linv_nodup : NoDup (map e_objectno (all_extents m)).
Proof using Hinv.
  assert (forall k v, (k, v) ∈ m -> exists ex, v = [ex] /\ k = object_name (e_objectno ex)) as Hone.
  { intros k v Hin. destruct (li_keys _ _ _ _ _ _ _ _ _ _ Hinv _ _ Hin) as (o & Ho & -> & Hlt). pose proof (li_get _ _ _ _ _ _ _ _ _ _ Hinv o Ho) as Hx.
    rewrite (oget_in _ _ _ (li_sorted _ _ _ _ _ _ _ _ _ _ Hinv) Hin) in Hx. unfold extent_ok in Hx. rewrite (proj2 (Z.ltb_lt _ _) Hlt) in Hx. destruct Hx as (be & -> & _). by eexists. }
  pose proof (li_sorted _ _ _ _ _ _ _ _ _ _ Hinv) as Hs. clear Hinv. unfold all_extents. revert Hone Hs. induction m as [|[k v] m' IH]; intros Hone Hs; [constructor|].
  destruct (Hone k v ltac:(by left)) as (ex & -> & ->). destruct Hs as [H1 H2]. cbn [map concat snd app]. constructor; [|apply IH; [|done]; intros k w Hin; apply Hone; by right].
  intros (ex' & E & Hin)%list_elem_of_fmap. apply list_elem_of_In, in_concat in Hin as (v & Hv & Hin). apply in_map_iff in Hv as ([k' v'] & Ev & Hkv). cbn in Ev. subst v'.
  apply list_elem_of_In in Hkv, Hin. destruct (Hone k' v ltac:(by right)) as (ex1 & -> & ->). apply list_elem_of_singleton in Hin as ->. specialize (H1 _ _ Hkv). rewrite E in H1. by rewrite (tc_refl string_compare) in H1.
Qed.

(** Every byte of the range is in the extent of its object. *)
Lemma linv_cover p : 0 <= offset <= p -> p < cur -> cur < 2 ^ 64 ->
  exists ex, ex ∈ all_extents m /\ e_objectno ex = (locate (stripe_unit l) (stripe_count l) spo p).1 /\
    e_offset ex <= (locate (stripe_unit l) (stripe_count l) spo p).2 < e_offset ex + e_length ex.
Proof using Hl Hinv.
  intros Hp Hc Hw. pose proof (su_pos _ _ Hl) as Hsu. pose proof (sc_pos _ _ Hl) as Hsc. pose proof (spo_pos _ _ Hl) as Hspo. destruct (place_range l spo Hl p ltac:(lia)) as [Ho Hx].
  rewrite (lo_os _ _ Hl) in Hx. pose proof (file_pos_locate _ _ _ Hsu Hsc Hspo p) as Ep. destruct (locate (stripe_unit l) (stripe_count l) spo p) as [o x]. cbn [fst snd] in *.
  pose proof (filled_spec _ _ _ Hsu Hsc Hspo o cur x Hx). pose proof (filled_spec _ _ _ Hsu Hsc Hspo o offset x Hx).
  pose proof (li_get _ _ _ _ _ _ _ _ _ _ Hinv o Ho) as Hg. unfold extent_ok in Hg. rewrite (proj2 (Z.ltb_lt _ _)) in Hg by lia. destruct Hg as (be & Hg & _).
  eexists. split; [eapply (oget_all (object_name o)); rewrite Hg; by left|]. cbn [e_objectno e_offset e_length]. split; [done|lia].
Qed.
End extents.

(** ** Names of objects *)

Definition unhex (l : bytes) (n : Z) : Z := foldl (fun acc c => acc * 16 + (if c <? 58 then c - 48 else c - 87)) n l.

Lemma unhex_digits fuel n acc : 0 <= n < 16 ^ Z.of_nat fuel -> unhex (hex_digits fuel n acc) 0 = unhex acc n.
Proof.
  revert n acc. induction fuel as [|fuel IH]; intros n acc Hn; [by replace n with 0 by (cbn in Hn; lia)|]. cbn [hex_digits]. pose proof (Z.mod_pos_bound n 16 ltac:(lia)). pose proof (Z.div_mod n 16 ltac:(lia)).
  assert (forall k, unhex ((if n mod 16 <? 10 then 48 + n mod 16 else 87 + n mod 16) :: acc) k = unhex acc (k * 16 + n mod 16)) as Hd.
  { intros k. unfold unhex. cbn [foldl]. f_equal. f_equal. destruct (Z.ltb_spec (n mod 16) 10); [rewrite (proj2 (Z.ltb_lt _ _)) by lia|rewrite (proj2 (Z.ltb_ge _ _)) by lia]; lia. }
  destruct (Z.eqb_spec (n / 16) 0); [rewrite Hd; f_equal; lia|]. rewrite IH; [rewrite Hd; f_equal; lia|]. rewrite Nat2Z.inj_succ, Z.pow_succ_r in Hn by lia.
  split; [apply Z.div_pos; lia|apply Z.div_lt_upper_bound; lia].
Qed.

Lemma unhex_zeros k l : unhex (replicate k 48 ++ l) 0 = unhex l 0.
Proof. induction k as [|k IH]; [done|]. exact IH. Qed.

Lemma ino_name_inj ino o o' : 0 <= o < 2 ^ 64 -> 0 <= o' < 2 ^ 64 -> ino_object_name ino o = ino_object_name ino o' -> o = o'.
Proof.
  intros Ho Ho' E. unfold ino_object_name in E. apply app_inv_head in E. injection E as E. apply (f_equal (fun l => unhex l 0)) in E. unfold hex08 in E. rewrite !unhex_zeros in E.
  unfold hex in E. rewrite !unhex_digits in E by (change (16 ^ Z.of_nat 16) with (2 ^ 64); lia). exact E.
Qed.
