(* ===== verification/StriperRead.v ===== *)
(** * Reading a striped file back

    The objects of a file are read extent by extent, [add_partial_result]
    keeps what each of them returned and [assemble_result] puts it together:
    the bytes of the file, with zeros where an object has none. *)

From S2P Require Import Prelude Encoding StrHash Striper StriperSpec StriperMap.
Open Scope Z_scope.

(** ** Sorted maps *)

Fixpoint msorted {A} (m : list (Z * A)) : Prop :=
  match m with
  | [] => True
  | (k, _) :: m => (forall k' a, (k', a) ∈ m -> k < k') /\ msorted m
  end.

Lemma mput_in {A} k (a : A) m k' a' : msorted m -> (k', a') ∈ mput k a m <-> (k', a') = (k, a) \/ k' <> k /\ (k', a') ∈ m.
Proof.
  induction m as [|[k1 a1] m IH]; cbn [mput msorted].
  { intros _. rewrite list_elem_of_singleton. split; [by left|]. intros [?|[_ []%not_elem_of_nil]]; done. }
  intros [H1 H2]. specialize (IH H2). assert ((k', a') ∈ m -> k1 < k') as Hlt by (intros; by eapply H1). destruct (Z.ltb_spec k k1).
  - rewrite elem_of_cons. split; [intros [?|Hin]; [by left|right]|intros [?|[_ ?]]; auto]. split; [|done].
    apply elem_of_cons in Hin as [[= -> ->]|Hin]; [lia|]. specialize (Hlt Hin). lia.
  - destruct (Z.eqb_spec k k1) as [->|Hne].
    + rewrite !elem_of_cons. split; [intros [?|Hin]; [by left|right]; specialize (Hlt Hin); split; [lia|by right]|].
      intros [?|[? [[= -> ->]|?]]]; [by left|done|by right].
    + rewrite !elem_of_cons, IH. split.
      * intros [[= -> ->]|[?|[? ?]]]; [right; split; [lia|by left]|by left|right; split; [done|by right]].
      * intros [?|[? [?|?]]]; [right; by left|by left|right; right; done].
Qed.

Lemma mput_sorted {A} k (a : A) m : msorted m -> msorted (mput k a m).
Proof.
  induction m as [|[k1 a1] m IH]; intros Hs; cbn [mput]; [split; [by intros ?? []%not_elem_of_nil|done]|].
  destruct Hs as [H1 H2]. destruct (Z.ltb_spec k k1); [|destruct (Z.eqb_spec k k1) as [->|]]; cbn [msorted].
  - split; [|done]. intros k' a' [[= -> ->]|Hin]%elem_of_cons; [done|]. specialize (H1 _ _ Hin). lia.
  - done.
  - split; [|by apply IH]. intros k' a' [[= -> ->]|[_ Hin]]%mput_in; [lia|by eapply H1|done].
Qed.

Lemma msorted_eq {A} (m m' : list (Z * A)) : msorted m -> msorted m' -> (forall k a, (k, a) ∈ m <-> (k, a) ∈ m') -> m = m'.
Proof.
  revert m'. induction m as [|[k a] m IH]; intros [|[k' a'] m']; cbn [msorted].
  - done.
  - intros _ _ H. specialize (H k' a'). exfalso. eapply not_elem_of_nil, H. by left.
  - intros _ _ H. specialize (H k a). exfalso. eapply not_elem_of_nil, H. by left.
  - intros [H1 H2] [H1' H2'] H. assert ((k, a) = (k', a')) as [= -> ->].
    { pose proof (proj1 (H k a) ltac:(by left)) as [?|Hin]%elem_of_cons; [done|]. pose proof (proj2 (H k' a') ltac:(by left)) as [?|Hin']%elem_of_cons; [done|].
      specialize (H1 _ _ Hin'). specialize (H1' _ _ Hin). lia. }
    f_equal. apply IH; [done..|]. intros k a. specialize (H k a). rewrite !elem_of_cons in H. split; intros Hin.
    + destruct (proj1 H (or_intror Hin)) as [[= -> ->]|]; [|done]. specialize (H1 _ _ Hin). lia.
    + destruct (proj2 H (or_intror Hin)) as [[= -> ->]|]; [|done]. specialize (H1' _ _ Hin). lia.
Qed.

Lemma mget_none {A} k (m : list (Z * A)) : (forall a, (k, a) ∉ m) -> mget k m = None.
Proof.
  induction m as [|[k' a'] m IH]; intros H; cbn [mget]; [done|]. destruct (Z.eqb_spec k k') as [->|]; [destruct (H a'); by left|].
  apply IH. intros a Hin. apply (H a). by right.
Qed.

(** ** Parts of a read *)

Lemma splice_spec bl n : 0 <= n < 2 ^ 32 -> splice (Z.min (zlen bl) n) bl = Ret (take (Z.to_nat n) bl, drop (Z.to_nat n) bl).
Proof.
  intros Hn. unfold splice. rewrite uw_small by (unfold is_u; lia). destruct (Z.eqb_spec (Z.min (zlen bl) n) 0).
  - destruct bl; [by rewrite take_nil, drop_nil|]. cbn in *. by replace (Z.to_nat n) with 0%nat by lia.
  - rewrite (proj2 (Z.ltb_ge _ _)) by lia. destruct (Z.le_gt_cases n (zlen bl)); [by rewrite Z.min_r by lia|].
    rewrite Z.min_l by lia. rewrite !take_ge, !drop_ge by lia. done.
Qed.

(** The data and the zeros of a part. *)
Definition padded (p : Z * (bytes * Z)) : bytes := p.2.1 ++ replicate (Z.to_nat (p.2.2 - zlen p.2.1)) 0.

Fixpoint expected (p : list (Z * (bytes * Z))) : Z :=
  match p with
  | [] => 0
  | (_, (_, n)) :: p => n + expected p
  end.

Definition part_ok (p : Z * (bytes * Z)) : Prop := zlen p.2.1 <= p.2.2.

Lemma expected_nonneg p : Forall part_ok p -> 0 <= expected p.
Proof. induction 1 as [|[b [d n]] p H _ IH]; cbn; [done|]. unfold part_ok in H. cbn in H. lia. Qed.

Lemma assemble_loop_spec p : forall bl zeros, Forall part_ok p -> 0 <= zeros -> zeros + expected p < 2 ^ 32 ->
  exists bl' z, assemble_loop p bl zeros = (bl', z) /\ 0 <= z < 2 ^ 32 /\
    bl' ++ replicate (Z.to_nat z) 0 = bl ++ replicate (Z.to_nat zeros) 0 ++ concat (map padded p).
Proof.
  induction p as [|[b [d n]] p IH]; intros bl zeros Hp Hz Hs; cbn [assemble_loop map concat].
  { exists bl, zeros. cbn in Hs. split_and!; [done|lia|lia|]. by rewrite app_nil_r. }
  inversion Hp as [|? ? Hd Hp']; subst. unfold part_ok in Hd. cbn in Hd, Hs. pose proof (expected_nonneg p Hp').
  assert (forall bl1 z1, 0 <= z1 -> z1 + (n - zlen d) + expected p < 2 ^ 32 -> bl1 ++ replicate (Z.to_nat z1) 0 = bl ++ replicate (Z.to_nat zeros) 0 ++ d ->
    exists bl' z, assemble_loop p bl1 (u64 (z1 + u64 (n - zlen d))) = (bl', z) /\ 0 <= z < 2 ^ 32 /\
      bl' ++ replicate (Z.to_nat z) 0 = bl ++ replicate (Z.to_nat zeros) 0 ++ padded (b, (d, n)) ++ concat (map padded p)) as Hgo.
  { intros bl1 z1 Hz1 Hs1 E. rewrite (u64_small (n - zlen d)), u64_small by lia. destruct (IH bl1 (z1 + (n - zlen d)) Hp') as (bl' & z & Ea & Hz' & El); [lia|lia|].
    exists bl', z. split_and!; [done|lia|lia|]. rewrite El. unfold padded. cbn [fst snd]. replace (Z.to_nat (z1 + (n - zlen d))) with (Z.to_nat z1 + Z.to_nat (n - zlen d))%nat by lia.
    rewrite replicate_add, <- !(assoc_L (++)). rewrite (assoc_L (++) bl1), E, <- !(assoc_L (++)). done. }
  destruct d as [|x d].
  - apply Hgo; [lia|cbn; lia|by rewrite app_nil_r].
  - apply Hgo; [lia|cbn [length] in *; lia|]. rewrite uw_small by (unfold is_u; cbn [length] in *; lia). cbn [Z.to_nat replicate]. by rewrite app_nil_r.
Qed.

(** ** The caller's buffer *)

Lemma bwrite_spec pre old post data : length old = length data -> bwrite (pre ++ old ++ post) (zlen pre) data = Ret (pre ++ data ++ post).
Proof.
  intros El. unfold bwrite. rewrite (proj2 (Z.leb_le 0 _)), (proj2 (Z.leb_le _ _)) by (rewrite ?length_app; lia). cbn [andb]. rewrite Nat2Z.id.
  rewrite take_app_length. rewrite <- El, <- length_app, (assoc_L (++) pre old post), drop_app_length. done.
Qed.

(** One part: its data and the zeros behind them. *)
Lemma part_write pre old post b d n : zlen d <= n -> zlen old = n ->
  (if zlen d <? n then buffer <~ bwrite (pre ++ old ++ post) (zlen pre) d;; bwrite buffer (zlen pre + zlen d) (replicate (Z.to_nat (n - zlen d)) 0)
   else bwrite (pre ++ old ++ post) (zlen pre) d)%res = Ret (pre ++ padded (b, (d, n)) ++ post).
Proof.
  intros Hd Ho. unfold padded. cbn [fst snd]. destruct (Z.ltb_spec (zlen d) n).
  - rewrite <- (take_drop (length d) old), <- (assoc_L (++) (take _ _)). rewrite bwrite_spec by (rewrite length_take; lia). cbn [rbind].
    rewrite (assoc_L (++) pre d), <- Nat2Z.inj_add, <- length_app. rewrite bwrite_spec by (rewrite length_drop, length_replicate; lia). by rewrite <- !(assoc_L (++)).
  - rewrite bwrite_spec by lia. replace (Z.to_nat (n - zlen d)) with 0%nat by lia. by rewrite app_nil_r.
Qed.

(** Parts that follow each other. *)
Fixpoint parts_chain (b : Z) (p : list (Z * (bytes * Z))) : Prop :=
  match p with
  | [] => True
  | (b', (d, n)) :: p => b' = b /\ parts_chain (b + n) p
  end.

Lemma expected_app p q : expected (p ++ q) = expected p + expected q.
Proof. induction p as [|[b [d n]] p IH]; cbn; [done|]. lia. Qed.

Lemma parts_chain_app b p b' d n : parts_chain b (p ++ [(b', (d, n))]) -> parts_chain b p /\ b' = b + expected p.
Proof. revert b. induction p as [|[b1 [d1 n1]] p IH]; intros b; cbn; [intros [-> _]; split; [done|lia]|]. intros [-> H]. apply IH in H as [H ->]. split; [done|lia]. Qed.

Lemma fill_loop_spec p : forall b buffer, parts_chain b p -> Forall part_ok p -> 0 <= b -> b + expected p < 2 ^ 64 -> expected p <= zlen buffer ->
  fill_loop (rev p) buffer (expected p) (b + expected p) = Ret (concat (map padded p) ++ drop (Z.to_nat (expected p)) buffer, 0).
Proof.
  induction p as [|[b' [d n]] p IH] using rev_ind; intros b buffer Hc Hp Hb Hw Hlen; [by rewrite drop_0|].
  apply Forall_app in Hp as [Hp Hd]. inversion Hd as [|? ? Hd' _]; subst; clear Hd; rename Hd' into Hd. unfold part_ok in Hd. cbn in Hd. apply parts_chain_app in Hc as [Hc ->].
  pose proof (expected_nonneg p Hp). rewrite expected_app in *. cbn [expected] in *. rewrite rev_app_distr. cbn [rev app fill_loop].
  rewrite (u64_small (b + (expected p + (n + 0)) - n)) by lia. replace (b + (expected p + (n + 0)) - n) with (b + expected p) by lia. rewrite Z.eqb_refl. cbn [rassert rbind].
  rewrite (proj2 (Z.leb_le n _)) by lia. cbn [rassert rbind]. rewrite u64_small by lia. replace (expected p + (n + 0) - n) with (expected p) by lia.
  set (i := Z.to_nat (expected p)). set (j := Z.to_nat n). assert (length buffer >= i + j)%nat as Hb' by lia.
  assert (buffer = take i buffer ++ take j (drop i buffer) ++ drop (i + j) buffer) as Eb by (rewrite <- drop_drop, !take_drop; done).
  assert (zlen (take i buffer) = expected p) as Epre by (rewrite length_take; lia). assert (zlen (take j (drop i buffer)) = n) as Eold by (rewrite length_take, length_drop; lia).
  pose proof (part_write (take i buffer) _ (drop (i + j) buffer) (b + expected p) d n ltac:(lia) Eold) as Hwr. rewrite <- Eb, Epre in Hwr. rewrite Hwr.
  cbn [rbind]. rewrite (IH b) by (done || rewrite ?length_app, ?length_take; lia). rewrite map_app, concat_app. cbn [map concat]. rewrite app_nil_r, <- (assoc_L (++)). do 3 f_equal.
  fold i. rewrite drop_app_ge by (rewrite length_take; lia). rewrite length_take. replace (i - min i (length buffer))%nat with 0%nat by lia. rewrite drop_0. do 2 f_equal. lia.
Qed.

(** ** Reading the objects *)

Definition sumn (Q : list (Z * Z)) : Z := foldr (fun p n => p.2 + n) 0 Q.

Lemma sumn_app Q Q' : sumn (Q ++ Q') = sumn Q + sumn Q'.
Proof. induction Q as [|p Q IH]; cbn [sumn foldr app]; [done|]. fold (sumn (Q ++ Q')). rewrite IH. fold (sumn Q). lia. Qed.

Lemma sumn_perm Q P : Q ≡ₚ P -> sumn Q = sumn P.
Proof. unfold sumn. induction 1; cbn; lia. Qed.

(** What a read of an extent returns: the bytes the object has there. *)
Definition read_object (obj : Z -> bytes) (ex : ObjectExtent) : bytes :=
  take (Z.to_nat (e_length ex)) (drop (Z.to_nat (e_offset ex)) (obj (e_objectno ex))).

Fixpoint read_extents (obj : Z -> bytes) (exs : list ObjectExtent) (s : StripedReadResult) : res StripedReadResult :=
  match exs with
  | [] => Ret s
  | ex :: exs =>
      '(s, _) <~ add_partial_result (e_buffer_extents ex) (read_object obj ex) s;;
      read_extents obj exs s
  end.

(** The byte of the file at a position; where the object is shorter it is zero. *)
Definition file_byte (l : file_layout_t) (spo : Z) (obj : Z -> bytes) (p : Z) : Z :=
  let '(o, x) := locate (stripe_unit l) (stripe_count l) spo p in nth (Z.to_nat x) (obj o) 0.

Section read.
Context (l : file_layout_t) (spo : Z) (Hl : lay_ok l spo) (obj : Z -> bytes) (offset boff : Z).

Notation locate := (locate (stripe_unit l) (stripe_count l) spo).
Notation file_pos := (file_pos (stripe_unit l) (stripe_count l) spo).
Notation target := (target l spo offset boff).

(** The data of a piece of the range. *)
Definition piece (b n : Z) : bytes :=
  let '(o, x) := locate (offset + (b - boff)) in take (Z.to_nat n) (drop (Z.to_nat x) (obj o)).

Record read_ok (Q : list (Z * Z)) (s : StripedReadResult) : Prop := ReadOk {
  rk_sorted : msorted (partial s);
  rk_parts : forall b v, (b, v) ∈ partial s <-> exists n, (b, n) ∈ Q /\ v = (piece b n, n);
  rk_total : total_intended_len s = sumn Q;
}.

Lemma read_ok_put b n Q s : read_ok Q s -> b ∉ map fst Q -> 0 <= sumn Q -> 0 <= n -> sumn Q + n < 2 ^ 64 ->
  (pget b (partial s)).1 = [] /\ read_ok (Q ++ [(b, n)]) (Striped (mput b (piece b n, n) (partial s)) (u64 (total_intended_len s + n))).
Proof using.
  intros [Hs Hp Ht] Hb H0 Hn Hw. split.
  - unfold pget. rewrite mget_none; [done|]. intros v (k & Hin & _)%Hp. apply Hb. apply list_elem_of_fmap. by exists (b, k).
  - constructor; cbn [partial total_intended_len].
    + by apply mput_sorted.
    + intros b' v'. rewrite mput_in by done. rewrite Hp. setoid_rewrite elem_of_app. setoid_rewrite list_elem_of_singleton. split.
      * intros [[= -> ->]|[? (k & ? & ?)]]; [exists n; split; [by right|done]|exists k; split; [by left|done]].
      * intros (k & [Hin|[= -> ->]] & ->); [right|by left]. split; [|by exists k]. intros ->. apply Hb. apply list_elem_of_fmap. by exists (b, k).
    + rewrite Ht, sumn_app. cbn. rewrite u64_small by lia. lia.
Qed.

Lemma add_partial_spec be : forall o X L s Q, flat be = map (target o) (seqZ X L) -> Forall (fun p => 0 < p.2 < 2 ^ 32) be ->
  0 <= X -> 0 <= L -> X + L <= object_size l -> NoDup (map fst (Q ++ be)) -> 0 <= sumn Q -> sumn (Q ++ be) < 2 ^ 64 -> read_ok Q s ->
  exists s' bl, add_partial_result be (take (Z.to_nat L) (drop (Z.to_nat X) (obj o))) s = Ret (s', bl) /\ read_ok (Q ++ be) s'.
Proof using Hl.
  induction be as [|[b n] be IH]; intros o X L s Q Hf Hpos HX HL Hos Hnd H0 Hw Hs; cbn [add_partial_result].
  { do 2 eexists. split; [done|]. by rewrite app_nil_r. }
  inversion Hpos as [|? ? Hn Hpos']; subst. cbn in Hn. rewrite flat_cons in Hf.
  assert (n <= L) as HnL. { apply (f_equal length) in Hf. rewrite length_app, length_fmap, !length_seqZ in Hf. lia. }
  assert (seqZ X L = seqZ X n ++ seqZ (X + n) (L - n)) as Eseq by (rewrite <- seqZ_app by lia; f_equal; lia). rewrite Eseq, map_app in Hf.
  apply app_inj_1 in Hf as [Hf1 Hf2]; [|by rewrite length_fmap, !length_seqZ].
  assert (piece b n = take (Z.to_nat n) (drop (Z.to_nat X) (obj o))) as Epc.
  { rewrite !(seqZ_cons _ n) in Hf1 by lia. injection Hf1 as Eb _. unfold piece. rewrite Eb. unfold StriperMap.target.
    replace (offset + _) with (file_pos o X) by lia. rewrite locate_file_pos; [done|apply (su_pos _ _ Hl)|apply (sc_pos _ _ Hl)|apply (spo_pos _ _ Hl)|rewrite <- (lo_os _ _ Hl); lia]. }
  rewrite splice_spec by lia. cbn [rbind]. rewrite take_take, Nat.min_l by lia. rewrite <- Epc.
  assert (sumn (Q ++ (b, n) :: be) = sumn Q + n + sumn be) as Esum by (rewrite sumn_app; cbn [sumn foldr snd]; fold (sumn be); lia).
  assert (0 <= sumn be) by (clear -Hpos'; induction Hpos' as [|p be Hp _ IH]; cbn [sumn foldr]; [done|fold (sumn be); lia]).
  rewrite map_app in Hnd. cbn [map fst] in Hnd. pose proof (proj1 (list_relations.list.NoDup_app _ _) Hnd) as Hnd'. destruct Hnd' as (_ & Hdis & _).
  destruct (read_ok_put b n Q s Hs) as [-> Hs']; [intros Hin; apply (Hdis b Hin); by left|lia..|]. cbn [app].
  replace (Q ++ (b, n) :: be) with ((Q ++ [(b, n)]) ++ be) in * by (by rewrite <- (assoc_L (++))).
  rewrite skipn_firstn_comm, drop_drop. replace (Z.to_nat L - Z.to_nat n)%nat with (Z.to_nat (L - n)) by lia. replace (Z.to_nat X + Z.to_nat n)%nat with (Z.to_nat (X + n)) by lia.
  apply IH; try done; try lia; [|rewrite sumn_app; cbn; lia]. rewrite !map_app, <- (assoc_L (++)). done.
Qed.

(** An extent whose buffer extents are where its bytes go. *)
Definition ex_ok (ex : ObjectExtent) : Prop :=
  0 <= e_offset ex /\ 0 <= e_length ex /\ e_offset ex + e_length ex <= object_size l /\
  flat (e_buffer_extents ex) = map (target (e_objectno ex)) (seqZ (e_offset ex) (e_length ex)).

Lemma sumn_nonneg Q : Forall (fun p => 0 < p.2 < 2 ^ 32) Q -> 0 <= sumn Q.
Proof using. induction 1 as [|p Q Hp _ IH]; cbn [sumn foldr]; [done|fold (sumn Q); lia]. Qed.

Lemma read_extents_spec exs : forall s Q, Forall ex_ok exs -> let be := concat (map e_buffer_extents exs) in
  Forall (fun p => 0 < p.2 < 2 ^ 32) (Q ++ be) -> NoDup (map fst (Q ++ be)) -> sumn (Q ++ be) < 2 ^ 64 -> read_ok Q s ->
  exists s', read_extents obj exs s = Ret s' /\ read_ok (Q ++ be) s'.
Proof using Hl.
  cbv zeta. induction exs as [|ex exs IH]; intros s Q Hex Hpos Hnd Hw Hs; cbn [read_extents map concat] in *; [exists s; by rewrite app_nil_r|].
  inversion Hex as [|? ? (HX & HL & Hos & Hf) Hex']; subst. rewrite (assoc_L (++)) in *. set (be := concat (map e_buffer_extents exs)) in *.
  pose proof Hpos as [Hpos1 Hpos2]%Forall_app. pose proof (sumn_nonneg _ Hpos2). rewrite sumn_app in Hw. rewrite map_app in Hnd. apply list_relations.list.NoDup_app in Hnd as Hnd1. destruct Hnd1 as (Hnd1 & _).
  apply Forall_app in Hpos1 as [HposQ HposE]. unfold read_object.
  destruct (add_partial_spec (e_buffer_extents ex) (e_objectno ex) _ _ s Q Hf HposE HX HL Hos Hnd1 (sumn_nonneg _ HposQ) ltac:(lia) Hs) as (s1 & bl & -> & Hs1). cbn [rbind].
  apply IH; [done|done|by rewrite map_app|rewrite sumn_app; lia|done].
Qed.

(** ** The whole range *)

Lemma chain_bounds b P e : chain b P e -> b <= e /\ sumn P = e - b /\ forall b' n, (b', n) ∈ P -> b <= b' /\ 0 < n /\ b' + n <= e.
Proof using.
  revert b. induction P as [|[b' n] P IH]; intros b; cbn [chain sumn foldr]; [intros ->; split_and!; [lia|lia|by intros ?? []%not_elem_of_nil]|]. fold (sumn P). intros (-> & ? & Hc).
  destruct (IH _ Hc) as (? & ? & Hin). split_and!; [lia|cbn; lia|]. intros b1 n1 [[= -> ->]|Hi]%elem_of_cons; [lia|]. specialize (Hin _ _ Hi). lia.
Qed.

Lemma chain_nodup b P e : chain b P e -> NoDup (map fst P).
Proof using.
  revert b. induction P as [|[b' n] P IH]; intros b; cbn [chain map fst]; [constructor|]. intros (-> & ? & Hc). constructor; [|by eapply IH].
  intros ([b1 n1] & E & Hi)%list_elem_of_fmap. cbn in E. destruct (chain_bounds _ _ _ Hc) as (_ & _ & Hb). specialize (Hb _ _ Hi). lia.
Qed.

Definition part (p : Z * Z) : Z * (bytes * Z) := (p.1, (piece p.1 p.2, p.2)).

Lemma parts_sorted b P e : chain b P e -> msorted (map part P).
Proof using.
  revert b. induction P as [|[b' n] P IH]; intros b; cbn [chain map msorted part fst snd]; [done|]. intros (-> & ? & Hc). split; [|by eapply IH].
  intros k a ([b1 n1] & E & Hi)%list_elem_of_fmap. unfold part in E. cbn in E. injection E as -> _. destruct (chain_bounds _ _ _ Hc) as (_ & _ & Hb). specialize (Hb _ _ Hi). lia.
Qed.

Lemma read_parts P Q s b e : chain b P e -> Q ≡ₚ P -> read_ok Q s -> partial s = map part P /\ total_intended_len s = e - b.
Proof using.
  intros Hc HQ [Hs Hp Ht]. split.
  - eapply msorted_eq; [done|by eapply parts_sorted|]. intros k v. rewrite Hp. setoid_rewrite HQ. rewrite list_elem_of_fmap. unfold part. split.
    + intros (n & Hin & ->). by exists (k, n).
    + intros ([b1 n1] & [= -> ->] & Hin). by exists n1.
  - destruct (chain_bounds _ _ _ Hc) as (_ & <- & _). rewrite Ht. by apply sumn_perm.
Qed.

Lemma parts_ok b P e : chain b P e -> Forall part_ok (map part P) /\ parts_chain b (map part P) /\ expected (map part P) = e - b.
Proof using.
  revert b. induction P as [|[b' n] P IH]; intros b; cbn [chain map]; [intros ->; split_and!; [constructor|done|cbn; lia]|]. intros (-> & ? & Hc).
  destruct (IH _ Hc) as (H1 & H2 & H3). split_and!; [constructor; [|done]|done|change (n + expected (map part P) = e - b); lia].
  unfold part_ok, part, piece. cbn [fst snd]. destruct (locate _) as [o x]. rewrite length_take. lia.
Qed.

(** A piece within a block, padded, is the bytes of the file there. *)
Lemma padded_piece su' b n : (forall k, 0 <= k < su' - (offset + (b - boff)) mod su' ->
    locate (offset + (b - boff) + k) = ((locate (offset + (b - boff))).1, (locate (offset + (b - boff))).2 + k)) ->
  0 <= offset + (b - boff) -> 0 <= n -> n <= su' - (offset + (b - boff)) mod su' ->
  padded (part (b, n)) = map (file_byte l spo obj) (seqZ (offset + (b - boff)) n).
Proof using Hl.
  intros Hblk H0 Hn Hle. set (p := offset + (b - boff)) in *. apply list_eq. intros i. rewrite list_lookup_fmap. unfold padded, part, piece. cbn [fst snd]. fold p.
  pose proof (locate_range (stripe_unit l) (stripe_count l) spo (su_pos _ _ Hl) (sc_pos _ _ Hl) (spo_pos _ _ Hl) p H0) as [_ Hx].
  destruct (Z.lt_ge_cases (Z.of_nat i) n) as [Hi|Hi].
  - rewrite lookup_seqZ_lt by done. cbn [fmap option_fmap option_map]. unfold file_byte. rewrite Hblk by lia. destruct (locate p) as [o x]. cbn [fst snd] in *.
    replace (Z.to_nat (x + Z.of_nat i)) with (Z.to_nat x + i)%nat by lia. rewrite nth_lookup, <- lookup_drop. set (D := drop (Z.to_nat x) (obj o)).
    destruct (D !! i) as [y|] eqn:E; cbn [default].
    + rewrite lookup_app_l by (rewrite length_take; apply lookup_lt_Some in E; lia). by rewrite lookup_take_lt by lia.
    + apply lookup_ge_None in E. rewrite lookup_app_r by (rewrite length_take; lia). apply lookup_replicate_2. rewrite length_take. lia.
  - rewrite lookup_seqZ_ge by done. apply lookup_ge_None. destruct (locate p) as [o x]. rewrite length_app, length_replicate, length_take. lia.
Qed.

Lemma padded_parts su' b P e : (forall p k, 0 <= p -> 0 <= k < su' - p mod su' -> locate (p + k) = ((locate p).1, (locate p).2 + k)) ->
  0 <= offset -> boff <= b -> chain b P e -> (forall b' n, (b', n) ∈ P -> n <= su' - (offset + (b' - boff)) mod su') ->
  concat (map padded (map part P)) = map (file_byte l spo obj) (seqZ (offset + (b - boff)) (e - b)).
Proof using Hl.
  intros Hblk H0. revert b. induction P as [|[b' n] P IH]; intros b Hb; cbn [chain map concat]; [intros -> _; by rewrite seqZ_nil by lia|].
  intros (-> & Hn & Hc) Hp. destruct (chain_bounds _ _ _ Hc) as (Hle & _). 
  rewrite (padded_piece su'); [|intros; apply Hblk; lia|lia|lia|apply Hp; by left].
  rewrite (IH (b + n)); [|lia|done|intros; apply Hp; by right]. rewrite <- map_app. f_equal.
  replace (offset + (b + n - boff)) with (offset + (b - boff) + n) by lia. rewrite <- seqZ_app by lia. f_equal. lia.
Qed.
End read.
