(* ===== verification/StriperTheorems.v ===== *)
(** * Theorems on striped files and on the way from a file to OSDs *)

From stdpp Require Import gmap relations.
From S2P Require Import Prelude CrushHash CrushTypes CrushBucket CrushMapper CrushWf CrushRule CrushPlace CrushBuilder CrushSample Bits Encoding Hobject PgTypes PgMap OsdMap OsdMapSpec OsdMapCrush OsdMapActing OsdTheorems StrHash Striper StriperSpec StriperMap StriperRead.
Open Scope Z_scope.

(** Layouts whose fields are 32-bit words. *)
Definition layout_words (l : file_layout_t) : Prop :=
  0 <= stripe_unit l < 2 ^ 32 /\ 0 <= stripe_count l < 2 ^ 32 /\ 0 <= object_size l < 2 ^ 32.

Definition stripes (l : file_layout_t) : Z := object_size l / stripe_unit l.

Lemma valid_layout l : layout_is_valid l = true -> layout_words l -> lay_ok l (stripes l).
Proof. intros ? (? & ? & ?). by apply valid_lay_ok. Qed.

(** A file with two objects per set, stripes of 64k and objects of 128k. *)
Definition sample_layout : file_layout_t := Layout 65536 2 131072 7 [].

Lemma sample_layout_words : layout_words sample_layout.
Proof. repeat split; cbn; lia. Qed.

(** ** Hashes of names *)

(** C38. The Jenkins hash of a name, of less than 2^32 bytes, reads the bytes
    of the name only and is the reference: blocks of twelve bytes added to the
    state as three little-endian words and mixed, the last block padded with
    zeros, with the length in the place of its ninth byte. *)
Theorem str_hash_reference (k : bytes) :
  zlen k < 2 ^ 32 -> ceph_str_hash CEPH_STR_HASH_RJENKINS k (zlen k) = Ret (rjenkins_ref k) /\ is_u 32 (rjenkins_ref k).
Proof. apply rjenkins_spec. Qed.

Lemma str_hash_reference_witness : ceph_str_hash CEPH_STR_HASH_RJENKINS [102; 111; 111] 3 = Ret 0x7fc1f406.
Proof. destruct (str_hash_reference [102; 111; 111]) as [E _]; [done|]. change 3 with (zlen [102; 111; 111]). rewrite E. vm_compute. reflexivity. Defined.

(** ** Striping *)

(** C36. The two maps between a file and its objects are inverse: every
    position has a byte of one object, every byte of an object that is not
    longer than its size one position, and [extent_to_file] gives the
    positions of a range of an object in their order. *)
Theorem striping_inverse (l : file_layout_t) (o off len : Z) :
  layout_is_valid l = true -> layout_words l -> 0 <= o < 2 ^ 64 -> 0 <= off -> 0 <= len -> off + len <= object_size l ->
  (forall k, 0 <= k < len -> file_pos (stripe_unit l) (stripe_count l) (stripes l) o (off + k) < 2 ^ 64) ->
  exists exts, extent_to_file l o off len = Ret exts /\
    map (locate (stripe_unit l) (stripe_count l) (stripes l)) (flat exts) = map (fun x => (o, x)) (seqZ off len) /\
    forall p, file_pos (stripe_unit l) (stripe_count l) (stripes l) (locate (stripe_unit l) (stripe_count l) (stripes l) p).1
      (locate (stripe_unit l) (stripe_count l) (stripes l) p).2 = p.
Proof.
  intros Hv Hw ? ? ? ? Hb. pose proof (valid_layout l Hv Hw) as Hl. destruct (extent_to_file_spec l _ Hl o off len) as (exts & E & Hf); try done.
  exists exts. split_and!; [done| |intros p; by apply file_pos_locate; [apply (su_pos _ _ Hl)|apply (sc_pos _ _ Hl)|apply (spo_pos _ _ Hl)]].
  rewrite Hf, map_map. apply map_ext_in. intros x Hx%list_elem_of_In%elem_of_seqZ. apply locate_file_pos; [apply (su_pos _ _ Hl)|apply (sc_pos _ _ Hl)|apply (spo_pos _ _ Hl)|].
  rewrite <- (lo_os _ _ Hl). lia.
Qed.

Lemma striping_inverse_witness : exists exts, extent_to_file sample_layout 3 65530 10 = Ret exts /\ exts = [(393210, 6); (458752, 4)].
Proof.
  destruct (striping_inverse sample_layout 3 65530 10 eq_refl sample_layout_words) as (exts & E & _); [lia|lia|lia|cbn; lia| |].
  - intros k Hk. pose proof (file_pos_mono 65536 2 2 ltac:(lia) ltac:(lia) ltac:(lia) 3 (65530 + k) 65540) as Hm.
    assert (file_pos 65536 2 2 3 65540 = 458756) as E by reflexivity. change (file_pos _ _ _ 3 (65530 + k)) with (file_pos 65536 2 2 3 (65530 + k)). lia.
  - exists exts. split; [done|]. vm_compute in E. by injection E as <-.
Defined.

(** C37. Sizes of truncated files: [object_truncate_size] is the number of
    bytes of an object in front of the end of the file, [get_num_objects] is
    the number of objects that have such bytes. *)
Theorem truncation_exact (l : file_layout_t) (size : Z) :
  layout_is_valid l = true -> layout_words l -> 0 <= size -> size + stripe_count l * object_size l < 2 ^ 64 ->
  (forall o, 0 <= o < 2 ^ 64 -> exists t, object_truncate_size l o size = Ret t /\ 0 <= t <= object_size l /\
     forall x, 0 <= x < object_size l -> file_pos (stripe_unit l) (stripe_count l) (stripes l) o x < size <-> x < t) /\
  exists n, get_num_objects l size = Ret n /\
    forall o, 0 <= o -> o < n <-> file_pos (stripe_unit l) (stripe_count l) (stripes l) o 0 < size.
Proof.
  intros Hv Hw Hs Hp. pose proof (valid_layout l Hv Hw) as Hl. pose proof (period_bounds l _ Hl). pose proof (sc_pos _ _ Hl). pose proof (su_pos _ _ Hl). split.
  - intros o Ho. eexists. split; [apply (truncate_spec l _ Hl); [done|]|]. { assert (0 < stripe_count l * stripe_unit l) by (apply Z.mul_pos_pos; lia). lia. }
    rewrite (lo_os _ _ Hl). split; [apply filled_range; [apply (su_pos _ _ Hl)|apply (sc_pos _ _ Hl)|apply (spo_pos _ _ Hl)]|].
    intros x Hx. by apply filled_spec; [apply (su_pos _ _ Hl)|apply (sc_pos _ _ Hl)|apply (spo_pos _ _ Hl)|].
  - apply (num_objects_spec l _ Hl); lia.
Qed.

Lemma truncation_exact_witness : exists n, get_num_objects sample_layout 300000 = Ret n /\ n = 3.
Proof.
  destruct (truncation_exact sample_layout 300000 eq_refl sample_layout_words) as [_ (n & E & _)]; [lia|cbn; lia|]. exists n. split; [done|].
  vm_compute in E. by injection E as <-.
Defined.

(** The objects of a range, for any names that tell them apart. *)
Section range.
Context (l : file_layout_t) (object_name : Z -> bytes) (offset len trunc_size boff : Z).
Context (Hv : layout_is_valid l = true) (Hw : layout_words l).
Context (Hname : forall o o', 0 <= o < 2 ^ 64 -> 0 <= o' < 2 ^ 64 -> object_name o = object_name o' -> o = o').
Context (Hoff : 0 <= offset) (Hlen : 0 < len) (Hend : offset + len < 2 ^ 64) (Hboff : 0 <= boff) (Hbend : boff + len < 2 ^ 64) (Htrunc : 0 <= trunc_size < 2 ^ 64).

Lemma range_extents :
  exists m P, file_to_extent_list object_name l offset len trunc_size boff [] = Ret (all_extents m) /\
    linv l (stripes l) object_name offset trunc_size boff (unit_of l) (offset + len) m P.
Proof using Hv Hw Hname Hoff Hlen Hend Hboff Hbend Htrunc.
  destruct (file_to_extents_spec l _ object_name offset len trunc_size boff (valid_layout l Hv Hw)) as (m & P & E & Hinv); try done. exists m, P. split; [|done].
  unfold file_to_extent_list. rewrite E. done.
Qed.

Lemma range_read obj m P exs :
  linv l (stripes l) object_name offset trunc_size boff (unit_of l) (offset + len) m P -> exs ≡ₚ all_extents m ->
  exists s, read_extents obj exs (Striped [] 0) = Ret s /\ partial s = map (part l (stripes l) obj offset boff) P /\ total_intended_len s = len.
Proof using Hv Hw Hoff Hlen Hend Hbend.
  intros Hinv Hperm. pose proof (valid_layout l Hv Hw) as Hl. pose proof (li_chain _ _ _ _ _ _ _ _ _ _ Hinv) as Hc. replace (boff + (offset + len - offset)) with (boff + len) in Hc by lia.
  destruct (chain_bounds _ _ _ Hc) as (_ & Hsum & Hin). assert (concat (map e_buffer_extents exs) ≡ₚ P) as HQ by (rewrite Hperm; apply (li_perm _ _ _ _ _ _ _ _ _ _ Hinv)).
  destruct (read_extents_spec l _ Hl obj offset boff exs (Striped [] 0) []) as (s & E & Hs).
  - apply list_relations.list.Forall_forall. intros ex Hex. rewrite Hperm in Hex. destruct (linv_extent _ _ _ _ _ _ _ _ _ _ _ Hinv Hex) as (o & Ho & _ & HL & _ & Eo & EX & EL & _ & _ & Hf).
    pose proof (filled_range _ _ _ (su_pos _ _ Hl) (sc_pos _ _ Hl) (spo_pos _ _ Hl) o offset). pose proof (filled_range _ _ _ (su_pos _ _ Hl) (sc_pos _ _ Hl) (spo_pos _ _ Hl) o (offset + len)).
    unfold ex_ok. rewrite Eo, EX, EL, (lo_os _ _ Hl). split_and!; [lia|lia|lia|exact Hf].
  - cbn [app]. rewrite HQ. apply list_relations.list.Forall_forall. intros [b n] Hp. cbn. specialize (Hin _ _ Hp). pose proof (li_piece _ _ _ _ _ _ _ _ _ _ Hinv _ _ Hp).
    pose proof (Z.mod_pos_bound (offset + (b - boff)) (unit_of l) (unit_of_pos _ _ Hl)). pose proof (su_le_os _ _ Hl). pose proof (lo_max _ _ Hl). unfold unit_of in *. destruct (_ =? 1); lia.
  - cbn [app]. rewrite HQ. by eapply chain_nodup.
  - cbn [app]. rewrite (sumn_perm _ _ HQ). lia.
  - constructor; [done| |done]. intros b v. split; [by intros []%not_elem_of_nil|by intros (? & []%not_elem_of_nil & _)].
  - exists s. split; [done|]. destruct (read_parts l _ obj offset boff P _ s _ _ Hc HQ Hs) as [-> ->]. split; [done|lia].
Qed.

Lemma range_bytes obj m P :
  linv l (stripes l) object_name offset trunc_size boff (unit_of l) (offset + len) m P ->
  concat (map padded (map (part l (stripes l) obj offset boff) P)) = map (file_byte l (stripes l) obj) (seqZ offset len).
Proof using Hv Hw Hoff.
  intros Hinv. pose proof (valid_layout l Hv Hw) as Hl. pose proof (li_chain _ _ _ _ _ _ _ _ _ _ Hinv) as Hc.
  rewrite (padded_parts l _ Hl obj offset boff (unit_of l) boff P _) with (5 := li_piece _ _ _ _ _ _ _ _ _ _ Hinv) (4 := Hc); [f_equal; f_equal; lia| |done|lia].
  intros p k Hp Hk. unfold unit_of in *. destruct (Z.eqb_spec (stripe_count l) 1) as [E|E].
  - rewrite !E in *. rewrite !(locate_one (stripe_unit l) (stripes l)) by (apply (su_pos _ _ Hl) || apply (spo_pos _ _ Hl)). rewrite <- (lo_os _ _ Hl). apply locate_block; [|done]. pose proof (su_le_os _ _ Hl). pose proof (su_pos _ _ Hl). lia.
  - apply locate_block; [apply (su_pos _ _ Hl)|done].
Qed.
End range.

(** C16. [file_to_extents] maps a range of a file to one extent for each of
    its objects, whatever the names are that tell objects apart: the extents
    hold every byte of the range and no other, the buffer extents of each say
    where its bytes go in their order, the truncated size is the number of
    bytes of the object in front of the end of the file, and the locator is
    that of the layout. *)
Theorem extents_exact (l : file_layout_t) (object_name : Z -> bytes) (offset len trunc_size boff : Z) :
  layout_is_valid l = true -> layout_words l ->
  (forall o o', 0 <= o < 2 ^ 64 -> 0 <= o' < 2 ^ 64 -> object_name o = object_name o' -> o = o') ->
  0 <= offset -> 0 < len -> offset + len < 2 ^ 64 -> 0 <= boff -> boff + len < 2 ^ 64 -> 0 <= trunc_size < 2 ^ 64 - 1 ->
  exists exs, file_to_extent_list object_name l offset len trunc_size boff [] = Ret exs /\ NoDup (map e_objectno exs) /\
    (forall ex, ex ∈ exs -> 0 < e_length ex /\ e_oid ex = object_name (e_objectno ex) /\ e_oloc ex = file_to_object_locator l /\
      object_truncate_size l (e_objectno ex) trunc_size = Ret (e_truncate_size ex) /\
      flat (e_buffer_extents ex) = map (fun x => file_pos (stripe_unit l) (stripe_count l) (stripes l) (e_objectno ex) x - offset + boff) (seqZ (e_offset ex) (e_length ex)) /\
      forall x, e_offset ex <= x < e_offset ex + e_length ex ->
        offset <= file_pos (stripe_unit l) (stripe_count l) (stripes l) (e_objectno ex) x < offset + len) /\
    forall p, offset <= p < offset + len -> exists ex, ex ∈ exs /\
      let '(o, x) := locate (stripe_unit l) (stripe_count l) (stripes l) p in e_objectno ex = o /\ e_offset ex <= x < e_offset ex + e_length ex.
Proof.
  intros Hv Hw Hname ? ? ? ? ? Ht. pose proof (valid_layout l Hv Hw) as Hl. destruct (range_extents l object_name offset len trunc_size boff) as (m & P & E & Hinv); try done; [lia|].
  exists (all_extents m). split; [done|]. split; [by eapply linv_nodup|]. split.
  - intros ex Hex. destruct (linv_extent _ _ _ _ _ _ _ _ _ _ _ Hinv Hex) as (o & Ho & _ & HL & Eid & Eo & EX & EL & Et & El & Hf).
    pose proof (su_pos _ _ Hl) as Hsu. pose proof (sc_pos _ _ Hl) as Hsc. pose proof (spo_pos _ _ Hl) as Hspo.
    pose proof (filled_range _ _ _ Hsu Hsc Hspo o offset). pose proof (filled_range _ _ _ Hsu Hsc Hspo o (offset + len)).
    rewrite Eo, EX, EL, Et. split_and!; [done|done|done| |exact Hf|].
    + rewrite (truncate_spec l _ Hl) by lia. unfold tsize. by rewrite (proj2 (Z.eqb_neq _ _)) by lia.
    + intros x Hx. pose proof (filled_spec _ _ _ Hsu Hsc Hspo o offset x ltac:(lia)). pose proof (filled_spec _ _ _ Hsu Hsc Hspo o (offset + len) x ltac:(lia)). lia.
  - intros p Hp. destruct (linv_cover l _ Hl _ _ _ _ _ _ _ Hinv p) as (ex & Hex & Eo & Hx); [lia..|]. exists ex. destruct (locate _ _ _ p) as [o x]. cbn [fst snd] in *. split; [done|lia].
Qed.

Lemma extents_exact_witness : exists exs, file_to_extent_list (ino_object_name 0x1a) sample_layout 60000 100000 0 0 [] = Ret exs /\ length exs = 2%nat /\ NoDup (map e_objectno exs).
Proof.
  destruct (extents_exact sample_layout (ino_object_name 0x1a) 60000 100000 0 0 eq_refl sample_layout_words (ino_name_inj 0x1a)) as (exs & E & Hnd & _); [lia..|].
  exists exs. split; [done|]. split; [|done]. vm_compute in E. by injection E as <-.
Defined.

(** C15. Reading back a striped file: the objects of the extents of a range
    are read in any order, each returning the bytes it has; the results,
    added one by one, are assembled to the bytes of the range, with zeros
    where an object ends before.  The buffer of the second form of
    [assemble_result] is filled with the same bytes, and its assertions
    hold. *)
Theorem striped_read_round_trip (l : file_layout_t) (object_name : Z -> bytes) (obj : Z -> bytes) (offset len trunc_size boff : Z) (buffer : bytes) :
  layout_is_valid l = true -> layout_words l ->
  (forall o o', 0 <= o < 2 ^ 64 -> 0 <= o' < 2 ^ 64 -> object_name o = object_name o' -> o = o') ->
  0 <= offset -> 0 < len < 2 ^ 32 -> offset + len < 2 ^ 64 -> 0 <= boff -> boff + len < 2 ^ 64 -> 0 <= trunc_size < 2 ^ 64 -> zlen buffer = len ->
  exists exs, file_to_extent_list object_name l offset len trunc_size boff [] = Ret exs /\
    forall order, order ≡ₚ exs -> exists s, read_extents obj order (Striped [] 0) = Ret s /\
      (assemble_result s [] true).1 = map (file_byte l (stripes l) obj) (seqZ offset len) /\
      exists s', assemble_buffer s buffer len = Ret (map (file_byte l (stripes l) obj) (seqZ offset len), s').
Proof.
  intros Hv Hw Hname ? Hlen ? ? ? ? Hbuf. pose proof (valid_layout l Hv Hw) as Hl. destruct (range_extents l object_name offset len trunc_size boff) as (m & P & E & Hinv); try done; [lia..|].
  exists (all_extents m). split; [done|]. intros order Hperm.
  destruct (range_read l object_name offset len trunc_size boff Hv Hw ltac:(lia) ltac:(lia) ltac:(lia) ltac:(lia) obj m P order Hinv Hperm) as (s & Es & Ep & Et). exists s. split; [done|].
  pose proof (li_chain _ _ _ _ _ _ _ _ _ _ Hinv) as Hc. replace (boff + (offset + len - offset)) with (boff + len) in Hc by lia.
  destruct (parts_ok l (stripes l) obj offset boff _ _ _ Hc) as (Hok & Hch & Hexp). rewrite <- (range_bytes l object_name offset len trunc_size boff Hv Hw ltac:(lia) obj m P Hinv).
  set (parts := map (part l (stripes l) obj offset boff) P) in *. split.
  - unfold assemble_result. rewrite Ep. destruct (assemble_loop_spec parts [] 0 Hok) as (bl & z & -> & Hz & Eb); [lia..|]. change (bl ++ replicate (Z.to_nat z) 0 = concat (map padded parts)) in Eb. rewrite <- Eb. cbn [fst andb].
    rewrite uw_small by done. destruct (Z.eqb_spec z 0) as [->|]; cbn [negb]; [by rewrite app_nil_r|done].
  - unfold assemble_buffer. rewrite Et, Z.eqb_refl, Ep. cbn [rassert rbind].
    pose proof (fill_loop_spec parts boff buffer Hch Hok ltac:(lia) ltac:(lia) ltac:(lia)) as Hfill. rewrite Hexp in Hfill. replace (boff + len - boff) with len in Hfill by lia.
    destruct (rev parts) as [|[first [d n]] rp] eqn:Er.
    { exfalso. assert (parts = []) as E0 by (rewrite <- (rev_involutive parts), Er; done). rewrite E0 in Hexp. cbn in Hexp. lia. }
    assert (u64 (first + n) = boff + len) as ->.
    { assert (parts = rev rp ++ [(first, (d, n))]) as Epr by (rewrite <- (rev_involutive parts), Er; done). rewrite Epr in Hch, Hexp. apply parts_chain_app in Hch as [_ ->].
      rewrite expected_app in Hexp. cbn in Hexp. rewrite u64_small by lia. lia. }
    rewrite Hfill. cbn [rbind]. rewrite Z.eqb_refl. cbn [rassert rbind]. eexists. do 2 f_equal. rewrite drop_ge by lia. by rewrite app_nil_r.
Qed.

Lemma striped_read_round_trip_witness :
  exists exs s, file_to_extent_list (ino_object_name 0x1a) sample_layout 65535 3 0 0 [] = Ret exs /\
    read_extents (fun o => if o =? 1 then [9] else [1; 2]) exs (Striped [] 0) = Ret s /\ (assemble_result s [] true).1 = [0; 9; 0].
Proof.
  destruct (striped_read_round_trip sample_layout (ino_object_name 0x1a) (fun o => if o =? 1 then [9] else [1; 2]) 65535 3 0 0 [5; 5; 5] eq_refl sample_layout_words (ino_name_inj 0x1a))
    as (exs & E & Hread); [lia..|done|]. destruct (Hread exs ltac:(done)) as (s & Es & Ea & _). exists exs, s. split_and!; [done|done|]. rewrite Ea. vm_compute. reflexivity.
Defined.

(** ** From a file to OSDs *)

Lemma hex_length fuel n acc : (length (hex_digits fuel n acc) <= fuel + length acc)%nat.
Proof. revert n acc. induction fuel as [|fuel IH]; intros n acc; cbn [hex_digits]; [lia|]. destruct (_ =? 0); cbn [length]; [lia|]. specialize (IH (n / 16) ((if n mod 16 <? 10 then 48 + n mod 16 else 87 + n mod 16) :: acc)). cbn [length] in IH. lia. Qed.

Lemma ino_name_length ino o : (length (ino_object_name ino o) <= 33)%nat.
Proof.
  unfold ino_object_name, hex08, hex. rewrite !length_app, length_replicate. cbn [length]. pose proof (hex_length 16 ino []). pose proof (hex_length 16 o []). cbn [length] in *. lia.
Qed.

(** C9. The whole way from a file to OSDs: for a file whose layout names a
    replicated pool whose rule chooses leaves firstn below one root and whose
    groups have no explicit mapping, every byte of a range lies in an extent whose object
    name hashes to a group of the pool, and the group is mapped to OSDs that
    are up and lie in distinct failure domains below the root of the rule of
    the pool. *)
Theorem file_to_osds (m : OSDMap CrushWrapper) (l : file_layout_t) (ino offset len trunc_size : Z) pool c rk D T L junk fuel ruleno rule root a1 ty :
  layout_is_valid l = true -> layout_words l -> 0 <= offset -> 0 < len -> offset + len < 2 ^ 64 -> 0 <= trunc_size < 2 ^ 64 ->
  0 <= pool_id l < 2 ^ 63 -> zlen (pool_ns l) < 2 ^ 30 -> p_type pool = TYPE_REPLICATED ->
  (forall pg, pg_pool pg = pool_id l -> backed m pg pool c rk D T L fuel ruleno rule root a1 ty true) ->
  exists exs, file_to_extent_list (ino_object_name ino) l offset len trunc_size 0 [] = Ret exs /\
    forall p, offset <= p < offset + len -> exists ex pg ua domains, ex ∈ exs /\
      e_objectno ex = (locate (stripe_unit l) (stripe_count l) (stripes l) p).1 /\
      e_offset ex <= (locate (stripe_unit l) (stripe_count l) (stripes l) p).2 < e_offset ex + e_length ex /\
      object_locator_to_pg m (e_oid ex) (e_oloc ex) = Ret (inr pg) /\ pg_pool pg = pool_id l /\
      @_pg_to_up_acting_osds _ (crush_placement junk fuel) m pg true = Ret ua /\ up_ok m true (ua_up ua) (ua_up_primary ua) /\
      spread c (osd_weight m) (zlen (osd_weight m)) (s32 (raw_pg_to_pps pool pg)) root ty (ua_up ua) domains.
Proof.
  intros Hv Hw ? ? ? ? Hpool Hns Hty Hback. pose proof (valid_layout l Hv Hw) as Hl.
  destruct (range_extents l (ino_object_name ino) offset len trunc_size 0) as (mm & P & E & Hinv); try done; [apply ino_name_inj|lia|]. exists (all_extents mm). split; [done|].
  intros p Hp. destruct (linv_cover l _ Hl _ _ _ _ _ _ _ Hinv p) as (ex & Hex & Eo & Hx); [lia..|].
  destruct (linv_extent _ _ _ _ _ _ _ _ _ _ _ Hinv Hex) as (o & _ & _ & _ & Eid & _ & _ & _ & _ & Eloc & _).
  assert (get_pg_pool m (l_pool (e_oloc ex)) = Some pool) as Egp.
  { rewrite Eloc. pose proof (bk_pool _ _ _ _ _ _ _ _ _ _ _ _ _ _ _ (Hback (Pg (u64 (pool_id l)) 0) ltac:(unfold pg_pool; cbn [m_pool]; rewrite (uw_small 64) by (unfold is_u; lia); apply sw_small; unfold is_s; lia))) as Hb.
    unfold pg_pool in Hb. cbn [m_pool] in Hb. rewrite (uw_small 64), sw_small in Hb by (unfold is_u, is_s; lia). exact Hb. }
  destruct (object_pg m (e_oid ex) (e_oloc ex) pool Egp) as (pg & Epg & Epool & _ & _).
  { by rewrite Eloc. } { by rewrite Eloc. }
  { rewrite Eloc, Eid. cbn [file_to_object_locator l_key l_nspace length]. pose proof (ino_name_length ino o). lia. }
  rewrite Eloc in Epool. cbn [file_to_object_locator l_pool] in Epool.
  destruct (replicated_run m pg pool c rk D T L junk fuel ruleno rule root a1 ty (Hback pg Epool) Hty) as (ua & domains & Hrun & Hup & Hsp).
  exists ex, pg, ua, domains. split_and!; try done; lia.
Qed.

(** The sample cluster without substitutions. *)
Definition plain_osdmap : OSDMap CrushWrapper :=
  MkOSDMap _ 4 [3; 3; 3; 1] sample_weight ∅ ∅ (Some [0x10000; 0x8000; 0; 0x10000]) ∅ ∅ {[7 := replicated_pool]} sample_wrapper.

Lemma plain_backed pg : pg_pool pg = 7 ->
  backed plain_osdmap pg replicated_pool sample_map sample_rank 2 100 0 sample_fuel 0 replicated_rule sample_root 0 1 true.
Proof.
  intros Hp. split; [split; [split; vm_compute; congruence|done|done|by intros ? [= <-]]|by rewrite Hp|done|done|rewrite Hp; apply sample_env|done|by split|by exists 0%nat| |done|done|done|done].
  split; [done|]. by exists [], 0, CRUSH_RULE_CHOOSELEAF_FIRSTN, 0, 0.
Qed.

Lemma file_to_osds_witness :
  exists exs, file_to_extent_list (ino_object_name 0x1a) sample_layout 65535 3 0 0 [] = Ret exs /\
    exists ex pg, ex ∈ exs /\ object_locator_to_pg plain_osdmap (e_oid ex) (e_oloc ex) = Ret (inr pg) /\ pg_pool pg = 7.
Proof.
  destruct (file_to_osds plain_osdmap sample_layout 0x1a 65535 3 0 replicated_pool sample_map sample_rank 2 100 0 0 sample_fuel 0 replicated_rule sample_root 0 1 eq_refl sample_layout_words)
    as (exs & E & Hp); [lia|lia|lia|lia|cbn; lia|cbn; lia|done|exact plain_backed|]. exists exs. split; [done|].
  destruct (Hp 65536 ltac:(lia)) as (ex & pg & ua & domains & Hex & _ & _ & Epg & Hpool & _). by exists ex, pg.
Defined.

(** The group of an object depends on its pool, its namespace and its
    locator key, or its name where there is no key, alone: objects that agree
    on these are in one group, with a 32-bit placement seed that is, in a
    pool that uses the Jenkins hash, the reference hash of the name behind the
    namespace and a byte 31; an unknown pool is refused with -ENOENT. *)
Theorem object_group (m : OSDMap CrushWrapper) (pl : pg_pool_t) (oid oid' : bytes) (loc loc' : object_locator_t) :
  get_pg_pool m (l_pool loc) = Some pl -> 0 <= l_pool loc < 2 ^ 63 -> l_hash loc < 0 -> l_hash loc' < 0 ->
  zlen oid + zlen (l_key loc) + zlen (l_nspace loc) + 1 < 2 ^ 31 -> zlen oid' + zlen (l_key loc') + zlen (l_nspace loc') + 1 < 2 ^ 31 ->
  (exists pg, object_locator_to_pg m oid loc = Ret (inr pg) /\ pg_pool pg = l_pool loc /\ is_u 32 (ps pg) /\
     (p_object_hash pl = CEPH_STR_HASH_RJENKINS -> ps pg = rjenkins_ref (hashed oid loc))) /\
  (l_pool loc' = l_pool loc -> hashed oid' loc' = hashed oid loc -> object_locator_to_pg m oid' loc' = object_locator_to_pg m oid loc) /\
  (get_pg_pool m (l_pool loc') = None -> object_locator_to_pg m oid' loc' = Ret (inl (- ENOENT))).
Proof.
  intros Hp Hpool Hh Hh' Hl Hl'. destruct (object_pg m oid loc pl Hp Hh Hpool Hl) as (pg & E & Epool & Hps & Ehash). split_and!.
  - exists pg. split; [done|]. split; [done|]. split; [done|]. intros Ht. rewrite Ht in Ehash.
    assert (zlen (hashed oid loc) < 2 ^ 32) as Hlen.
    { unfold hashed. destruct (l_nspace loc) as [|n ns]; destruct (string_empty (l_key loc)); rewrite ?length_app; cbn [length] in *; lia. }
    destruct (rjenkins_spec _ Hlen) as [Er _]. unfold ceph_str_hash in Ehash. cbn in Ehash. congruence.
  - intros Ep Eh. rewrite <- Ep in Hp, Hpool. destruct (object_pg m oid' loc' pl Hp Hh' Hpool Hl') as (pg' & E' & Epool' & Hps' & Ehash'). rewrite E, E'. rewrite Eh in Ehash'.
    unfold object_locator_to_pg, map_to_pg in E, E'. rewrite (proj2 (Z.leb_gt 0 _)) in E by lia. rewrite (proj2 (Z.leb_gt 0 _)) in E' by lia. rewrite <- Ep, Hp in E. rewrite Hp in E'.
    destruct (hash_key pl _ (l_nspace loc)) as [h| |] in E; [|done..]. destruct (hash_key pl _ (l_nspace loc')) as [h'| |] in E'; [|done..]. cbn [rbind] in E, E'.
    injection E as <-. injection E' as <-. cbn [ps m_seed] in Ehash, Ehash'. congruence.
  - apply object_pg_none.
Qed.

Lemma object_group_witness : exists pg, object_locator_to_pg plain_osdmap [102; 111; 111] (Locator 7 [] [] (-1)) = Ret (inr pg) /\ ps pg = 0x7fc1f406.
Proof.
  destruct (object_group plain_osdmap replicated_pool [102; 111; 111] [102; 111; 111] (Locator 7 [] [] (-1)) (Locator 7 [] [] (-1)) eq_refl) as [(pg & E & _ & _ & Eh) _]; [cbn; lia..|].
  exists pg. split; [done|]. rewrite (Eh eq_refl). vm_compute. reflexivity.
Defined.
