(* ===== verification/Frag.v ===== *)
(** * Directory fragments (src/src/include/ceph_frag.h, src/src/include/frag.h)

    A fragment is a part of the 24-bit space of hashes of names: those whose
    highest [bits] bits are the ones of its [value].  It is encoded in a 32-bit
    word, the number of bits in the upper eight.  A [fragtree_t] says which
    fragments of a directory are split and by how many bits; a [fragset_t] is
    a set of fragments that joins siblings.

    A shift by 32 or more, which C leaves undefined, and a failed assertion
    are a [Fault].  Stacks of fragments have their top in front.  Loops that
    walk a tree have as fuel the number of its nodes, those that go up or down
    one path 26, one more than there are sizes of fragments.  Printing and
    parsing are left out. *)

From stdpp Require Import gmap.
From S2P Require Import Prelude.
Open Scope mach_scope.

(** ** Encoded fragments *)

Definition shl (a k : Z) : res Z := if (0 <=? k) && (k <? 32) then Ret (a <<u k) else Fault.
Definition shr (a k : Z) : res Z := if (0 <=? k) && (k <? 32) then Ret (a >>u k) else Fault.

Definition ceph_frag_make (b v : Z) : res Z :=
  m <~ shl 0xffffff (24 -u b);;
  Ret (Z.lor (b <<u 24) (Z.land (Z.land v m) 0xffffff)).

Definition ceph_frag_bits (f : Z) : Z := f >>u 24.

Definition ceph_frag_value (f : Z) : Z := Z.land f 0xffffff.

Definition ceph_frag_mask (f : Z) : res Z :=
  m <~ shl 0xffffff (24 -u ceph_frag_bits f);; Ret (Z.land m 0xffffff).

Definition ceph_frag_mask_shift (f : Z) : Z := 24 -u ceph_frag_bits f.

Definition ceph_frag_contains_value (f v : Z) : res bool :=
  m <~ ceph_frag_mask f;; Ret (Z.land v m =? ceph_frag_value f).

Definition ceph_frag_contains_frag (f sub : Z) : res bool :=
  if ceph_frag_bits f <=? ceph_frag_bits sub then
    m <~ ceph_frag_mask f;; Ret (Z.land (ceph_frag_value sub) m =? ceph_frag_value f)
  else Ret false.

Definition ceph_frag_parent (f : Z) : res Z :=
  m <~ ceph_frag_mask f;;
  ceph_frag_make (ceph_frag_bits f -u 1) (Z.land (ceph_frag_value f) (m <<u 1)).

Definition ceph_frag_is_left_child (f : Z) : res bool :=
  if 0 <? ceph_frag_bits f then
    h <~ shr 0x1000000 (ceph_frag_bits f);; Ret (Z.land (ceph_frag_value f) h =? 0)
  else Ret false.

Definition ceph_frag_is_right_child (f : Z) : res bool :=
  if 0 <? ceph_frag_bits f then
    h <~ shr 0x1000000 (ceph_frag_bits f);; Ret (Z.land (ceph_frag_value f) h =? 1)
  else Ret false.

Definition ceph_frag_sibling (f : Z) : res Z :=
  h <~ shr 0x1000000 (ceph_frag_bits f);;
  ceph_frag_make (ceph_frag_bits f) (ceph_frag_value f ^u h).

Definition ceph_frag_left_child (f : Z) : res Z := ceph_frag_make (ceph_frag_bits f +u 1) (ceph_frag_value f).

Definition ceph_frag_right_child (f : Z) : res Z :=
  h <~ shr 0x1000000 (1 +u ceph_frag_bits f);;
  ceph_frag_make (ceph_frag_bits f +u 1) (Z.lor (ceph_frag_value f) h).

Definition ceph_frag_make_child (f by_ i : Z) : res Z :=
  let newbits := s32 (ceph_frag_bits f + by_) in
  h <~ shl i (24 - newbits);;
  ceph_frag_make (u32 newbits) (Z.lor (ceph_frag_value f) h).

Definition ceph_frag_is_leftmost (f : Z) : bool := ceph_frag_value f =? 0.

Definition ceph_frag_is_rightmost (f : Z) : res bool :=
  m <~ ceph_frag_mask f;; Ret (ceph_frag_value f =? m).

Definition ceph_frag_next (f : Z) : res Z :=
  h <~ shr 0x1000000 (ceph_frag_bits f);;
  ceph_frag_make (ceph_frag_bits f) (ceph_frag_value f +u h).

Definition ceph_frag_compare (a b : Z) : Z :=
  if ceph_frag_value a <? ceph_frag_value b then -1
  else if ceph_frag_value b <? ceph_frag_value a then 1
  else if ceph_frag_bits a <? ceph_frag_bits b then -1
  else if ceph_frag_bits b <? ceph_frag_bits a then 1
  else 0.

(** ** [frag_t] *)

Definition is_root (f : Z) : bool := ceph_frag_bits f =? 0.

Definition frag_parent (f : Z) : res Z := _ <~ rassert (0 <? ceph_frag_bits f);; ceph_frag_parent f.

(** [1 << nb], an [int]. *)
Definition ways (nb : Z) : res Z := if (0 <=? nb) && (nb <? 31) then Ret (Z.shiftl 1 nb) else Fault.

Definition make_child (f i nb : Z) : res Z :=
  n <~ ways nb;;
  _ <~ rassert (i <? n);;
  ceph_frag_make_child f nb i.

Fixpoint split_from (n : nat) (f i nb : Z) : res (list Z) :=
  match n with
  | O => Ret []
  | S n => c <~ make_child f i nb;; l <~ split_from n f (i + 1) nb;; Ret (c :: l)
  end.

(** [split], the fragments that are pushed. *)
Definition frag_split (f nb : Z) : res (list Z) :=
  _ <~ rassert (0 <? nb);;
  nway <~ ways nb;;
  split_from (Z.to_nat nway) f 0 nb.

Definition get_sibling (f : Z) : res Z := _ <~ rassert (negb (is_root f));; ceph_frag_sibling f.

Definition frag_next (f : Z) : res Z :=
  r <~ ceph_frag_is_rightmost f;;
  _ <~ rassert (negb r);;
  ceph_frag_next f.

(** ** [fragtree_t] *)

Definition fragtree_t := gmap Z Z.

Section tree.
Context (splits : fragtree_t).

Definition get_split (hb : Z) : Z := default 0 (splits !! hb).

(** The number of nodes at and below a fragment, to a depth. *)
Fixpoint tree_nodes (d : nat) (f : Z) : nat :=
  match d with
  | O => 1
  | S d => let nb := get_split f in
           S (if (0 <? nb) && (nb <=? 24 - ceph_frag_bits f)
              then match frag_split f nb with Ret l => sum_list (map (tree_nodes d) l) | _ => 0 end else 0)
  end.

Definition walk_fuel (f : Z) : nat := S (tree_nodes 25 f).
Definition path_fuel : nat := 26.

(** [t.split(nb, s)] *)
Definition push_children (t nb : Z) (s : list Z) : res (list Z) := l <~ frag_split t nb;; Ret (rev_append l s).

Fixpoint leaves_loop (fuel : nat) (s c : list Z) : res (list Z) :=
  match fuel with
  | O => NoFuel
  | S fuel =>
      match s with
      | [] => Ret c
      | t :: s =>
          let nb := get_split t in
          if negb (nb =? 0) then s <~ push_children t nb s;; leaves_loop fuel s c
          else leaves_loop fuel s (c ++ [t])
      end
  end.

Definition get_leaves_under_split (under : Z) (c : list Z) : res (list Z) := leaves_loop (walk_fuel under) [under] c.

Definition get_leaves (c : list Z) : res (list Z) := get_leaves_under_split 0 c.

Fixpoint branch_loop (fuel : nat) (x : Z) : res Z :=
  match fuel with
  | O => NoFuel
  | S fuel =>
      if x =? 0 then Ret x
      else if negb (get_split x =? 0) then Ret x
      else x <~ frag_parent x;; branch_loop fuel x
  end.

Definition get_branch (x : Z) : res Z := branch_loop path_fuel x.

Fixpoint above_loop (fuel : nat) (x : Z) : res Z :=
  match fuel with
  | O => NoFuel
  | S fuel =>
      if x =? 0 then Ret x
      else
        x <~ frag_parent x;;
        if negb (get_split x =? 0) then Ret x else above_loop fuel x
  end.

Definition get_branch_above (x : Z) : res Z := above_loop path_fuel x.

Definition get_branch_or_leaf (x : Z) : res Z :=
  branch <~ get_branch x;;
  let nb := get_split branch in
  if (0 <? nb) && (ceph_frag_bits branch +u nb <=? ceph_frag_bits x)
  then ceph_frag_make (ceph_frag_bits branch +u nb) (ceph_frag_value x)
  else Ret branch.

(** [t.bits() >= x.bits() && !x.contains(t)] *)
Definition beside (x t : Z) : res bool :=
  if ceph_frag_bits x <=? ceph_frag_bits t then i <~ ceph_frag_contains_frag x t;; Ret (negb i) else Ret false.

Fixpoint under_loop (fuel : nat) (x : Z) (s c : list Z) : res (list Z) :=
  match fuel with
  | O => NoFuel
  | S fuel =>
      match s with
      | [] => Ret c
      | t :: s =>
          skip <~ beside x t;;
          if (skip : bool) then under_loop fuel x s c
          else
            let nb := get_split t in
            if negb (nb =? 0) then s <~ push_children t nb s;; under_loop fuel x s c
            else
              i <~ ceph_frag_contains_frag x t;;
              under_loop fuel x s (if (i : bool) then c ++ [t] else c)
      end
  end.

Definition get_leaves_under (x : Z) (c : list Z) : res (list Z) :=
  t <~ get_branch_or_leaf x;;
  under_loop (walk_fuel t) x [t] c.

Definition is_leaf (x : Z) : res bool :=
  s <~ get_leaves_under x [];;
  Ret match s with [f] => f =? x | _ => false end.

Fixpoint contains_loop (fuel : nat) (x : Z) (s : list Z) : res bool :=
  match fuel with
  | O => NoFuel
  | S fuel =>
      match s with
      | [] => Ret false
      | t :: s =>
          skip <~ beside x t;;
          if (skip : bool) then contains_loop fuel x s
          else
            let nb := get_split t in
            if negb (nb =? 0) then
              if t =? x then Ret false
              else s <~ push_children t nb s;; contains_loop fuel x s
            else if t =? x then Ret true
            else contains_loop fuel x s
      end
  end.

Definition tree_contains (x : Z) : res bool :=
  t <~ get_branch x;;
  contains_loop (walk_fuel t) x [t].

(** The loop over the children in [operator[]]: the first that contains [v]. *)
Fixpoint pick_child (n : nat) (t i nb v : Z) : res (option Z) :=
  match n with
  | O => Ret None
  | S n =>
      c <~ make_child t i nb;;
      b <~ ceph_frag_contains_value c v;;
      if (b : bool) then Ret (Some c) else pick_child n t (i + 1) nb v
  end.

Fixpoint frag_loop (fuel : nat) (t v : Z) : res Z :=
  match fuel with
  | O => NoFuel
  | S fuel =>
      b <~ ceph_frag_contains_value t v;;
      _ <~ rassert b;;
      let nb := get_split t in
      if nb =? 0 then Ret t
      else
        nway <~ ways nb;;
        o <~ pick_child (Z.to_nat nway) t 0 nb v;;
        n <~ deref o;;
        frag_loop fuel n v
  end.

(** [operator[]] *)
Definition frag_of (v : Z) : res Z := frag_loop path_fuel 0 v.
End tree.

(** The first loop of [try_assimilate_children]: by how many bits all the
    children are split, or [None] where it returns. *)
Fixpoint common_split (splits : fragtree_t) (children : list Z) (childbits : Z) : option Z :=
  match children with
  | [] => Some childbits
  | c :: l =>
      let cb := get_split splits c in
      if cb =? 0 then None
      else if negb (childbits =? 0) && negb (cb =? childbits) then None
      else common_split splits l cb
  end.

Definition try_assimilate_children (x : Z) (splits : fragtree_t) : res fragtree_t :=
  let nb := get_split splits x in
  if nb =? 0 then Ret splits
  else
    children <~ frag_split x nb;;
    match common_split splits children 0 with
    | None => Ret splits
    | Some childbits =>
        let splits := foldl (fun m c => delete c m) splits children in
        Ret (<[x := s32 (get_split splits x + childbits)]> splits)
    end.

Definition split (x b : Z) (simplify : bool) (splits : fragtree_t) : res fragtree_t :=
  l <~ is_leaf splits x;;
  _ <~ rassert l;;
  let splits := <[x := b]> splits in
  if simplify then a <~ get_branch_above splits x;; try_assimilate_children a splits
  else Ret splits.

Definition merge (x b : Z) (simplify : bool) (splits : fragtree_t) : res fragtree_t :=
  l <~ is_leaf splits x;;
  _ <~ rassert (negb l);;
  _ <~ rassert (get_split splits x =? b);;
  let splits := delete x splits in
  if simplify then a <~ get_branch_above splits x;; try_assimilate_children a splits
  else Ret splits.

(** The splits of the intermediate fragments in [force_to_leaf]. *)
Fixpoint split_each (l : list Z) (b : Z) (splits : fragtree_t) : res fragtree_t :=
  match l with
  | [] => Ret splits
  | f :: l => splits <~ split f b false splits;; split_each l b splits
  end.

(** Its last loop. *)
Fixpoint hoover (fuel : nat) (s : list Z) (splits : fragtree_t) : res fragtree_t :=
  match fuel with
  | O => NoFuel
  | S fuel =>
      match s with
      | [] => Ret splits
      | t :: s =>
          let nb := get_split splits t in
          if negb (nb =? 0) then
            splits' <~ merge t nb false splits;;
            s <~ push_children t nb s;;
            hoover fuel s splits'
          else hoover fuel s splits
      end
  end.

Definition finish_leaf (x : Z) (splits : fragtree_t) : res (bool * fragtree_t) :=
  splits <~ hoover (walk_fuel splits x) [x] splits;;
  l <~ is_leaf splits x;;
  _ <~ rassert l;;
  Ret (true, splits).

Definition force_to_leaf (x : Z) (splits : fragtree_t) : res (bool * fragtree_t) :=
  l <~ is_leaf splits x;;
  if (l : bool) then Ret (false, splits)
  else
    parent <~ get_branch_or_leaf splits x;;
    _ <~ rassert (ceph_frag_bits parent <=? ceph_frag_bits x);;
    if ceph_frag_bits parent <? ceph_frag_bits x then
      let spread := s32 (ceph_frag_bits x - ceph_frag_bits parent) in
      let nb := get_split splits parent in
      if nb =? 0 then
        splits <~ split parent spread true splits;;
        l <~ is_leaf splits x;;
        _ <~ rassert l;;
        Ret (true, splits)
      else
        _ <~ rassert (spread <? nb);;
        splits <~ merge parent nb false splits;;
        splits <~ split parent spread false splits;;
        subs <~ frag_split parent spread;;
        splits <~ split_each subs (s32 (nb - spread)) splits;;
        finish_leaf x splits
    else finish_leaf x splits.

(** ** [fragset_t] *)

(** The set in the order of [std::set]; [frag_t] converts to its encoding. *)
Definition fragset_t := list Z.

Fixpoint set_insert (f : Z) (s : fragset_t) : fragset_t :=
  match s with
  | [] => [f]
  | g :: s => if f <? g then f :: g :: s else if f =? g then g :: s else g :: set_insert f s
  end.

Definition set_count (f : Z) (s : fragset_t) : bool := existsb (Z.eqb f) s.
Definition set_erase (f : Z) (s : fragset_t) : fragset_t := List.filter (fun g => negb (f =? g)) s.

(** [p++]: the first element behind [f]. *)
Definition set_after (f : Z) (s : fragset_t) : option Z := head (List.filter (fun g => f <? g) s).

Fixpoint set_contains_loop (fuel : nat) (s : fragset_t) (f : Z) : res bool :=
  match fuel with
  | O => NoFuel
  | S fuel =>
      if set_count f s then Ret true
      else if ceph_frag_bits f =? 0 then Ret false
      else f <~ frag_parent f;; set_contains_loop fuel s f
  end.

Definition set_contains (s : fragset_t) (f : Z) : res bool := set_contains_loop path_fuel s f.

(** One pass of [simplify], from the element [p] on. *)
Fixpoint simplify_pass (fuel : nat) (p : option Z) (clean : bool) (s : fragset_t) : res (bool * fragset_t) :=
  match fuel with
  | O => NoFuel
  | S fuel =>
      match p with
      | None => Ret (clean, s)
      | Some p =>
          join <~ (if is_root p then Ret None
                   else sib <~ get_sibling p;; Ret (if set_count sib s then Some sib else None));;
          match join with
          | Some sib =>
              par <~ frag_parent p;;
              let s := set_insert par (set_erase sib s) in
              let n := set_after p s in
              simplify_pass fuel n false (set_erase p s)
          | None => simplify_pass fuel (set_after p s) clean s
          end
      end
  end.

Fixpoint simplify_loop (fuel : nat) (s : fragset_t) : res fragset_t :=
  match fuel with
  | O => NoFuel
  | S fuel =>
      '(clean, s) <~ simplify_pass (S (length s)) (head s) true s;;
      if (clean : bool) then Ret s else simplify_loop fuel s
  end.

(** Each pass but the last makes the set smaller. *)
Definition simplify (s : fragset_t) : res fragset_t := simplify_loop (S (length s)) s.

Definition fragset_insert (f : Z) (s : fragset_t) : res fragset_t := simplify (set_insert f s).
