(* ===== verification/FragSpec.v ===== *)
(** * Fragments as nodes of a binary tree

    The fragment [fr b p] of [b] bits is the [p]-th of the [2 ^ b] of its size,
    [up f b] the one of [b] bits around [f].  Every function on encoded
    fragments is described by these. *)

From S2P Require Import Prelude CrushHash Frag.
Open Scope Z_scope.

Notation bits := ceph_frag_bits.

Definition fr (b p : Z) : Z := b * 2 ^ 24 + p * 2 ^ (24 - b).
Definition idx (f : Z) : Z := ceph_frag_value f / 2 ^ (24 - bits f).
Definition ok_frag (b p : Z) : Prop := 0 <= b <= 24 /\ 0 <= p < 2 ^ b.
Definition valid (f : Z) : Prop := ok_frag (bits f) (idx f) /\ f = fr (bits f) (idx f).

(** The powers that occur. *)
Lemma pow_split b : 0 <= b <= 24 -> 2 ^ b * 2 ^ (24 - b) = 2 ^ 24 /\ 0 < 2 ^ b /\ 0 < 2 ^ (24 - b).
Proof. intros Hb. rewrite <- Z.pow_add_r by lia. replace (b + (24 - b)) with 24 by lia. split_and!; [done|apply Z.pow_pos_nonneg; lia..]. Qed.

Lemma idx_range b p : ok_frag b p -> 0 <= p * 2 ^ (24 - b) < 2 ^ 24.
Proof. intros [Hb Hp]. destruct (pow_split b Hb) as (E & H1 & H2). rewrite <- E. split; [apply Z.mul_nonneg_nonneg; lia|apply Z.mul_lt_mono_pos_r; lia]. Qed.

Lemma value_mod f : ceph_frag_value f = f mod 2 ^ 24.
Proof. unfold ceph_frag_value. change 0xffffff with (Z.ones 24). by rewrite Z.land_ones. Qed.

Lemma bits_div f : bits f = f / 2 ^ 24.
Proof. unfold bits. by rewrite Z.shiftr_div_pow2. Qed.

Section fr.
Context (b p : Z) (Hok : ok_frag b p).

Lemma bits_fr : bits (fr b p) = b.
Proof using Hok. rewrite bits_div. unfold fr. rewrite Z.add_comm, Z.div_add, (Z.div_small _ (2 ^ 24)) by (done || by apply idx_range). lia. Qed.

Lemma value_fr : ceph_frag_value (fr b p) = p * 2 ^ (24 - b).
Proof using Hok. rewrite value_mod. unfold fr. rewrite Z.add_comm, Z_mod_plus_full. by apply Z.mod_small, idx_range. Qed.

Lemma idx_fr : idx (fr b p) = p.
Proof using Hok. unfold idx. rewrite bits_fr, value_fr. apply Z.div_mul. destruct Hok as [Hb _]. pose proof (pow_split b Hb). lia. Qed.

Lemma valid_fr : valid (fr b p).
Proof using Hok. unfold valid. by rewrite bits_fr, idx_fr. Qed.
End fr.

Lemma valid_0 : valid 0.
Proof. split; [split; vm_compute; intuition congruence|done]. Qed.

Lemma value_valid f : valid f -> ceph_frag_value f = idx f * 2 ^ (24 - bits f).
Proof. intros [Hok E]. rewrite E at 1. by apply value_fr. Qed.

Lemma frag_eq f g : valid f -> valid g -> bits f = bits g -> idx f = idx g -> f = g.
Proof. intros [_ Ef] [_ Eg] E1 E2. etrans; [exact Ef|]. by rewrite E1, E2. Qed.

Lemma bits_valid f : valid f -> 0 <= bits f <= 24.
Proof. by intros [[] _]. Qed.

Lemma frag_u32 f : valid f -> 0 <= f < 2 ^ 32.
Proof. intros [Hok E]. pose proof (idx_range _ _ Hok). destruct Hok as [Hb _]. unfold fr in E. change (2 ^ 32) with (256 * 2 ^ 24). lia. Qed.

(** ** Masks *)

Definition mask_of (b : Z) : Z := (2 ^ b - 1) * 2 ^ (24 - b).

Lemma mask_ones b : 0 <= b <= 24 -> mask_of b = Z.shiftl (Z.ones b) (24 - b).
Proof. intros Hb. unfold mask_of. rewrite Z.shiftl_mul_pow2, Z.ones_equiv by lia. lia. Qed.

Lemma mask_shl b : 0 <= b <= 24 -> shl 0xffffff (u32 (24 - b)) = Ret (u32 (Z.shiftl 0xffffff (24 - b))) /\ Z.land (u32 (Z.shiftl 0xffffff (24 - b))) 0xffffff = mask_of b.
Proof.
  intros Hb. unfold shl. rewrite (uw_small 32 (24 - b)) by (unfold is_u; lia). rewrite (proj2 (Z.leb_le _ _)), (proj2 (Z.ltb_lt _ _)) by lia. split; [done|].
  rewrite mask_ones by done. change 0xffffff with (Z.ones 24). unfold uw. apply Z.bits_inj'. intros n Hn. rewrite Z.land_spec, Z.shiftl_spec by lia.
  rewrite <- Z.land_ones, Z.land_spec, Z.shiftl_spec, !Z.testbit_ones by lia. lia.
Qed.

Lemma land_mask_of b v : 0 <= b <= 24 -> 0 <= v -> Z.land v (mask_of b) = v mod 2 ^ 24 / 2 ^ (24 - b) * 2 ^ (24 - b).
Proof.
  intros Hb Hv. rewrite mask_ones, <- Z.shiftr_div_pow2, <- Z.shiftl_mul_pow2, <- Z.land_ones by lia. apply Z.bits_inj'. intros n Hn.
  rewrite Z.land_spec, !Z.shiftl_spec by lia. destruct (Z.ltb_spec n (24 - b)).
  - rewrite !(Z.testbit_neg_r _ (n - (24 - b))) by lia. apply andb_false_r.
  - rewrite Z.shiftr_spec, Z.land_spec, !Z.testbit_ones by lia. replace (n - (24 - b) + (24 - b)) with n by lia. f_equal. lia.
Qed.

Lemma lor_add a n w : 0 <= n -> 0 <= w < 2 ^ n -> Z.lor (a * 2 ^ n) w = a * 2 ^ n + w.
Proof.
  intros Hn Hw. assert (Z.land (a * 2 ^ n) w = 0) as E.
  { rewrite <- Z.shiftl_mul_pow2 by done. apply Z.bits_inj'. intros k Hk. rewrite Z.land_spec, Z.bits_0, Z.shiftl_spec by done. destruct (Z.ltb_spec k n).
    - by rewrite Z.testbit_neg_r by lia.
    - rewrite <- (Z.mod_small w (2 ^ n)), Z.mod_pow2_bits_high by lia. apply andb_false_r. }
  rewrite Z.add_nocarry_lxor by done. by rewrite Z.lxor_lor.
Qed.

Lemma make_spec b v : 0 <= b <= 24 -> 0 <= v -> ceph_frag_make b v = Ret (fr b (v mod 2 ^ 24 / 2 ^ (24 - b))).
Proof.
  intros Hb Hv. unfold ceph_frag_make. destruct (mask_shl b Hb) as [-> E]. cbn [rbind]. f_equal. rewrite <- Z.land_assoc, E, land_mask_of by done.
  rewrite uw_small, Z.shiftl_mul_pow2 by (try rewrite Z.shiftl_mul_pow2; unfold is_u; lia). unfold fr.
  destruct (pow_split b Hb) as (_ & _ & H2). set (w := v mod 2 ^ 24 / 2 ^ (24 - b) * 2 ^ (24 - b)).
  assert (0 <= w < 2 ^ 24) as Hw.
  { unfold w. pose proof (Z.mod_pos_bound v (2 ^ 24) ltac:(lia)). pose proof (Z.mul_div_le (v mod 2 ^ 24) (2 ^ (24 - b)) H2). pose proof (Z.div_pos (v mod 2 ^ 24) (2 ^ (24 - b)) ltac:(lia) H2).
    split; [apply Z.mul_nonneg_nonneg; lia|lia]. }
  by apply lor_add.
Qed.

Lemma mask_spec f : valid f -> ceph_frag_mask f = Ret (mask_of (bits f)).
Proof. intros Hf. unfold ceph_frag_mask. destruct (mask_shl (bits f) (bits_valid f Hf)) as [-> <-]. done. Qed.

(** ** The tree of fragments *)

Definition up (f b : Z) : Z := fr b (idx f / 2 ^ (bits f - b)).
Definition anc (f g : Z) : Prop := bits f <= bits g /\ f = up g (bits f).
Definition child (f nb i : Z) : Z := fr (bits f + nb) (idx f * 2 ^ nb + i).

(** The smallest fragment of a hash. *)
Definition point (v : Z) : Z := fr 24 (v mod 2 ^ 24).

Lemma up_ok f b : valid f -> 0 <= b <= bits f -> ok_frag b (idx f / 2 ^ (bits f - b)).
Proof.
  intros [[Hb Hi] _] Hr. split; [lia|]. assert (0 < 2 ^ (bits f - b)) by (apply Z.pow_pos_nonneg; lia). split; [apply Z.div_pos; lia|]. apply Z.div_lt_upper_bound; [lia|].
  rewrite <- Z.pow_add_r by lia. replace (bits f - b + b) with (bits f) by lia. lia.
Qed.

Lemma valid_up f b : valid f -> 0 <= b <= bits f -> valid (up f b).
Proof. intros. by apply valid_fr, up_ok. Qed.

Lemma bits_up f b : valid f -> 0 <= b <= bits f -> bits (up f b) = b.
Proof. intros. by apply bits_fr, up_ok. Qed.

Lemma idx_up f b : valid f -> 0 <= b <= bits f -> idx (up f b) = idx f / 2 ^ (bits f - b).
Proof. intros. by apply idx_fr, up_ok. Qed.

Lemma up_up f b b' : valid f -> 0 <= b' <= b -> b <= bits f -> up (up f b) b' = up f b'.
Proof.
  intros Hf ? ?. unfold up at 1. rewrite bits_up, idx_up by (done || lia). unfold up. f_equal. rewrite Z.div_div, <- Z.pow_add_r by (try apply Z.pow_pos_nonneg; lia || (assert (0 < 2 ^ (bits f - b)) by (apply Z.pow_pos_nonneg; lia); lia)).
  do 2 f_equal. lia.
Qed.

Lemma up_self f : valid f -> up f (bits f) = f.
Proof. intros [_ E]. unfold up. by rewrite Z.sub_diag, Z.div_1_r. Qed.

Lemma up_0 f : valid f -> up f 0 = 0.
Proof. intros [[Hb Hi] _]. unfold up. rewrite Z.sub_0_r, Z.div_small by done. done. Qed.

Lemma anc_refl f : valid f -> anc f f.
Proof. intros. split; [lia|]. by rewrite up_self. Qed.

Lemma anc_valid f g : valid g -> 0 <= bits f -> anc f g -> valid f.
Proof. intros Hg Hb [? E]. rewrite E. apply valid_up; [done|lia]. Qed.

Lemma anc_trans f g h : anc f g -> anc g h -> valid f -> valid g -> valid h -> anc f h.
Proof. intros [? Ef] [? Eg] Hf Hg Hh. split; [lia|]. rewrite Ef at 1. rewrite Eg. pose proof (bits_valid f Hf). by rewrite up_up by (done || lia). Qed.

Lemma anc_eq f g : valid f -> valid g -> anc f g -> bits f = bits g -> f = g.
Proof. intros Hf Hg [_ E] Eb. rewrite E, Eb. by apply up_self. Qed.

(** Two fragments around a third: the larger is around the smaller. *)
Lemma anc_nested f g h : valid f -> valid g -> valid h -> anc f h -> anc g h -> bits f <= bits g -> anc f g.
Proof. intros Hf Hg Hh [? Ef] [? Eg] ?. split; [done|]. rewrite Eg. pose proof (bits_valid f Hf). by rewrite up_up by (done || lia). Qed.

Lemma anc_0 f : valid f -> anc 0 f.
Proof. intros Hf. split; [by apply bits_valid|]. by rewrite up_0. Qed.

Lemma anc_up f b : valid f -> 0 <= b <= bits f -> anc (up f b) f.
Proof. intros. split; rewrite bits_up by done; [lia|done]. Qed.

Section child.
Context (f nb i : Z) (Hf : valid f) (Hnb : 0 <= nb) (Hb : bits f + nb <= 24) (Hi : 0 <= i < 2 ^ nb).

Lemma child_ok : ok_frag (bits f + nb) (idx f * 2 ^ nb + i).
Proof using Hf Hnb Hb Hi.
  destruct Hf as [[? ?] _]. split; [lia|]. rewrite Z.pow_add_r by lia. assert (0 <= idx f * 2 ^ nb) by (apply Z.mul_nonneg_nonneg; lia). split; [lia|].
  assert ((idx f + 1) * 2 ^ nb <= 2 ^ bits f * 2 ^ nb) by (apply Z.mul_le_mono_nonneg_r; lia). lia.
Qed.

Lemma valid_child : valid (child f nb i).
Proof using Hf Hnb Hb Hi. apply valid_fr, child_ok. Qed.

Lemma bits_child : bits (child f nb i) = bits f + nb.
Proof using Hf Hnb Hb Hi. apply bits_fr, child_ok. Qed.

Lemma idx_child : idx (child f nb i) = idx f * 2 ^ nb + i.
Proof using Hf Hnb Hb Hi. apply idx_fr, child_ok. Qed.

Lemma up_child : up (child f nb i) (bits f) = f.
Proof using Hf Hnb Hb Hi.
  unfold up. rewrite bits_child, idx_child. replace (bits f + nb - bits f) with nb by lia. rewrite Z.add_comm, Z.div_add, (Z.div_small i), Z.add_0_l by lia. by destruct Hf as [_ <-].
Qed.

Lemma anc_child : anc f (child f nb i).
Proof using Hf Hnb Hb Hi. split; [rewrite bits_child; lia|]. by rewrite up_child. Qed.
End child.

(** The child of [f] around a fragment below it. *)
Lemma child_around f g nb : valid f -> valid g -> anc f g -> 0 <= nb -> bits f + nb <= bits g ->
  up g (bits f + nb) = child f nb (idx g / 2 ^ (bits g - (bits f + nb)) mod 2 ^ nb).
Proof.
  intros Hf Hg [_ E] ? ?. unfold up, child. f_equal. pose proof (bits_valid f Hf). pose proof (bits_valid g Hg).
  assert (idx f = idx g / 2 ^ (bits g - bits f)) as -> by (rewrite E at 1; apply idx_up; [done|lia]).
  replace (bits g - bits f) with (bits g - (bits f + nb) + nb) by lia. assert (0 < 2 ^ nb) by (apply Z.pow_pos_nonneg; lia).
  rewrite Z.pow_add_r, <- Z.div_div by (try (assert (0 < 2 ^ (bits g - (bits f + nb))) by (apply Z.pow_pos_nonneg; lia)); lia).
  rewrite Z.mul_comm. apply Z.div_mod. lia.
Qed.

Lemma child_inj f nb i j : valid f -> 0 <= nb -> bits f + nb <= 24 -> 0 <= i < 2 ^ nb -> 0 <= j < 2 ^ nb -> child f nb i = child f nb j -> i = j.
Proof. intros ? ? ? ? ? E. apply (f_equal idx) in E. rewrite !idx_child in E by done. lia. Qed.

(** ** The functions on encoded fragments *)

Lemma value_range f : 0 <= ceph_frag_value f < 2 ^ 24.
Proof. rewrite value_mod. apply Z.mod_pos_bound. lia. Qed.

Lemma value_div f b : valid f -> 0 <= b <= bits f -> ceph_frag_value f / 2 ^ (24 - b) = idx f / 2 ^ (bits f - b).
Proof.
  intros Hf Hb. pose proof (bits_valid f Hf). rewrite value_valid by done. replace (24 - b) with (bits f - b + (24 - bits f)) by lia. rewrite Z.pow_add_r by lia.
  assert (0 < 2 ^ (24 - bits f)) by (apply Z.pow_pos_nonneg; lia). assert (0 < 2 ^ (bits f - b)) by (apply Z.pow_pos_nonneg; lia). apply Z.div_mul_cancel_r; lia.
Qed.

Lemma anc_idx f g : valid f -> valid g -> bits f <= bits g -> anc f g <-> idx g / 2 ^ (bits g - bits f) = idx f.
Proof.
  intros Hf Hg Hb. pose proof (bits_valid f Hf). split.
  - intros [_ E]. rewrite E at 2. symmetry. apply idx_up; [done|lia].
  - intros E. split; [done|]. apply frag_eq; [done|apply valid_up; [done|lia]|rewrite bits_up; [done|done|lia]|rewrite idx_up; [lia|done|lia]].
Qed.

Lemma contains_frag_spec f g : valid f -> valid g -> ceph_frag_contains_frag f g = Ret (bool_decide (anc f g)).
Proof.
  intros Hf Hg. pose proof (bits_valid f Hf). unfold ceph_frag_contains_frag. destruct (Z.leb_spec (bits f) (bits g)) as [Hb|Hb].
  - rewrite mask_spec by done. cbn [rbind]. f_equal. rewrite land_mask_of by (done || apply value_range). rewrite (Z.mod_small _ (2 ^ 24)) by apply value_range.
    rewrite (value_div g), (value_valid f) by (done || lia). apply eq_bool_prop_intro. rewrite !Is_true_true, bool_decide_eq_true, Z.eqb_eq, anc_idx by done.
    destruct (pow_split (bits f)) as (_ & _ & ?); [done|]. split; [intros E; by apply Z.mul_cancel_r in E; [|lia]|by intros ->].
  - f_equal. symmetry. apply bool_decide_eq_false. intros []. lia.
Qed.

Lemma point_ok v : ok_frag 24 (v mod 2 ^ 24).
Proof. split; [lia|]. apply Z.mod_pos_bound. lia. Qed.

Lemma valid_point v : valid (point v).
Proof. apply valid_fr, point_ok. Qed.

Lemma contains_value_spec f v : valid f -> 0 <= v -> ceph_frag_contains_value f v = Ret (bool_decide (anc f (point v))).
Proof.
  intros Hf Hv. pose proof (bits_valid f Hf). unfold ceph_frag_contains_value. rewrite mask_spec by done. cbn [rbind]. f_equal. rewrite land_mask_of, (value_valid f) by done.
  assert (bits (point v) = 24) as Eb by apply bits_fr, point_ok. assert (idx (point v) = v mod 2 ^ 24) as Ei by apply idx_fr, point_ok.
  apply eq_bool_prop_intro. rewrite !Is_true_true, bool_decide_eq_true, Z.eqb_eq.
  rewrite anc_idx; [|exact Hf|apply valid_point|rewrite Eb; lia]. rewrite Eb, Ei.
  destruct (pow_split (bits f)) as (_ & _ & ?); [done|]. split; [intros E; by apply Z.mul_cancel_r in E; [|lia]|by intros ->].
Qed.

Lemma frag_parent_spec f : valid f -> 0 < bits f -> frag_parent f = Ret (up f (bits f - 1)).
Proof.
  intros Hf Hb. pose proof (bits_valid f Hf). unfold frag_parent, ceph_frag_parent. rewrite (proj2 (Z.ltb_lt 0 _)) by done. cbn [rassert rbind]. rewrite mask_spec by done. cbn [rbind].
  rewrite (uw_small 32 (bits f - 1)) by (unfold is_u; lia). rewrite make_spec by (try apply Z.land_nonneg; pose proof (value_range f); lia). unfold up. do 2 f_equal.
  rewrite <- (value_div f) by (done || lia). rewrite mask_ones by lia. unfold uw. rewrite <- !Z.shiftr_div_pow2 by lia. apply Z.bits_inj'. intros n Hn.
  rewrite !Z.shiftr_spec by done. rewrite <- !Z.land_ones, !Z.land_spec, !Z.shiftl_spec, !Z.testbit_ones by lia.
  destruct (Z.ltb_spec (n + (24 - (bits f - 1))) 24).
  - rewrite !(proj2 (Z.leb_le 0 _)), !(proj2 (Z.ltb_lt _ _)) by lia. cbn [andb]. by rewrite !andb_true_r.
  - rewrite andb_false_r. pose proof (value_range f). rewrite <- (Z.mod_small (ceph_frag_value f) (2 ^ 24)), Z.mod_pow2_bits_high by lia. by rewrite andb_false_r.
Qed.

Lemma make_child_spec f nb i : valid f -> 0 < nb -> bits f + nb <= 24 -> 0 <= i < 2 ^ nb -> make_child f i nb = Ret (child f nb i).
Proof.
  intros Hf Hnb Hb Hi. pose proof (bits_valid f Hf). assert (Z.shiftl 1 nb = 2 ^ nb) as E1 by (rewrite Z.shiftl_mul_pow2; lia).
  unfold make_child, ways. rewrite (proj2 (Z.leb_le 0 nb)), (proj2 (Z.ltb_lt nb 31)) by lia. cbn [andb rbind]. rewrite E1, (proj2 (Z.ltb_lt i _)) by lia. cbn [rassert rbind].
  unfold ceph_frag_make_child. rewrite (sw_small 32 (bits f + nb)) by (unfold is_s; lia). unfold shl. rewrite (proj2 (Z.leb_le 0 _)), (proj2 (Z.ltb_lt _ 32)) by lia. cbn [andb rbind].
  set (k := 24 - (bits f + nb)). assert (0 <= i * 2 ^ k < 2 ^ (nb + k)) as Hik.
  { rewrite Z.pow_add_r by lia. assert (0 < 2 ^ k) by (apply Z.pow_pos_nonneg; lia). split; [apply Z.mul_nonneg_nonneg; lia|apply Z.mul_lt_mono_pos_r; lia]. }
  assert (2 ^ (nb + k) <= 2 ^ 24) by (apply Z.pow_le_mono_r; lia).
  rewrite (uw_small 32 (bits f + nb)), (uw_small 32 (Z.shiftl i k)) by (rewrite ?Z.shiftl_mul_pow2 by lia; unfold is_u; lia). rewrite Z.shiftl_mul_pow2 by lia.
  assert (ceph_frag_value f = idx f * 2 ^ (nb + k)) as Ev by (rewrite value_valid by done; do 2 f_equal; lia). rewrite Ev, lor_add by lia.
  assert (idx f * 2 ^ (nb + k) + i * 2 ^ k = (idx f * 2 ^ nb + i) * 2 ^ k) as -> by (rewrite Z.pow_add_r by lia; ring).
  pose proof (idx_range _ _ (child_ok f nb i Hf ltac:(lia) Hb Hi)) as Hr. fold k in Hr. rewrite make_spec by lia. fold k. unfold child. do 2 f_equal.
  rewrite Z.mod_small by done. apply Z.div_mul. assert (0 < 2 ^ k) by (apply Z.pow_pos_nonneg; lia). lia.
Qed.

Definition children (f nb : Z) : list Z := map (child f nb) (seqZ 0 (2 ^ nb)).

Lemma split_from_spec n f nb i : valid f -> 0 < nb -> bits f + nb <= 24 -> 0 <= i -> i + Z.of_nat n = 2 ^ nb ->
  split_from n f i nb = Ret (map (child f nb) (seqZ i (Z.of_nat n))).
Proof.
  intros Hf Hnb Hb. revert i. induction n as [|n IH]; intros i Hi Hn; cbn [split_from]; [done|].
  rewrite make_child_spec by (done || lia). cbn [rbind]. rewrite IH by lia. cbn [rbind]. rewrite (seqZ_cons i) by lia. cbn [map]. do 4 f_equal. lia.
Qed.

Lemma frag_split_spec f nb : valid f -> 0 < nb -> bits f + nb <= 24 -> frag_split f nb = Ret (children f nb).
Proof.
  intros Hf Hnb Hb. pose proof (bits_valid f Hf). assert (Z.shiftl 1 nb = 2 ^ nb) as E1 by (rewrite Z.shiftl_mul_pow2; lia). assert (0 < 2 ^ nb) by (apply Z.pow_pos_nonneg; lia).
  unfold frag_split, ways. rewrite (proj2 (Z.ltb_lt 0 nb)), (proj2 (Z.leb_le 0 nb)), (proj2 (Z.ltb_lt nb 31)) by lia. cbn [andb rassert rbind]. rewrite E1.
  rewrite split_from_spec by (done || lia). unfold children. by rewrite Z2Nat.id by lia.
Qed.

Lemma elem_of_children f nb g : valid f -> 0 <= nb -> bits f + nb <= 24 -> g ∈ children f nb <-> valid g /\ anc f g /\ bits g = bits f + nb.
Proof.
  intros Hf Hnb Hb. unfold children. rewrite list_elem_of_fmap. split.
  - intros (i & -> & Hi%elem_of_seqZ). split_and!; [apply valid_child|apply anc_child|apply bits_child]; done || lia.
  - intros (Hg & Ha & Eb). eexists. split; [|].
    { rewrite <- (child_around f g nb) by (done || lia). rewrite <- Eb. symmetry. by apply up_self. }
    apply elem_of_seqZ.
    assert (0 < 2 ^ nb) by (apply Z.pow_pos_nonneg; lia). rewrite Z.add_0_l. by apply Z.mod_pos_bound.
Qed.

Lemma children_nodup f nb : valid f -> 0 <= nb -> bits f + nb <= 24 -> NoDup (children f nb).
Proof.
  intros Hf Hnb Hb. unfold children. apply NoDup_fmap_2_strong; [|apply NoDup_seqZ]. intros i j Hi%elem_of_seqZ Hj%elem_of_seqZ. apply child_inj; done || lia.
Qed.
