(* ===== verification/FragTree.v ===== *)
(** * Trees of fragments

    [bounded] says that every split is of a fragment that can be split so far;
    [wf_tree] also that the fragments that are split come about by the splits
    above them: each is a [node], the whole space or one of the fragments a
    split above it makes.  Two nodes are nested only along splits ([laminar]),
    so that the leaves, the fragments that are not split, partition the hashes
    and every walk finds the leaves it looks for.  The walks over a tree are
    described for bounded trees, because [force_to_leaf] walks over trees it
    has taken apart. *)

From stdpp Require Import gmap.
From S2P Require Import Prelude Frag FragSpec.
Open Scope Z_scope.

Definition bounded (T : fragtree_t) : Prop := forall k nb, T !! k = Some nb -> valid k /\ 0 < nb /\ bits k + nb <= 24.

(** ** Going up *)

Section bounded.
Context (T : fragtree_t) (HT : bounded T).

Lemma split_bounds f : get_split T f <> 0 -> valid f /\ 0 < get_split T f /\ bits f + get_split T f <= 24.
Proof using HT. unfold get_split. destruct (T !! f) as [nb|] eqn:E; [|done]. intros _. by apply HT. Qed.

Lemma up_bits_1 x : valid x -> 0 < bits x -> valid (up x (bits x - 1)) /\ bits (up x (bits x - 1)) = bits x - 1 /\ anc (up x (bits x - 1)) x.
Proof using. intros Hx Hb. split_and!; [apply valid_up|apply bits_up|apply anc_up]; done || lia. Qed.

(** What is around [x] is [x] or around its parent. *)
Lemma anc_parent s x : valid s -> valid x -> 0 < bits x -> anc s x -> s = x \/ anc s (up x (bits x - 1)) .
Proof using.
  intros Hs Hx Hb Ha. destruct (up_bits_1 x Hx Hb) as (? & E & ?). destruct (decide (bits s = bits x)) as [Eb|Eb]; [left; by apply anc_eq|right].
  destruct Ha as [? ?]. eapply (anc_nested _ _ x); try done. lia.
Qed.

Lemma root_bits x : valid x -> bits x = 0 -> x = 0.
Proof using. intros Hx Eb. rewrite <- (up_self x Hx), Eb. by apply up_0. Qed.

Lemma bits_pos x : valid x -> x <> 0 -> 0 < bits x.
Proof using. intros Hx Hn. pose proof (bits_valid x Hx). destruct (decide (bits x = 0)) as [E|]; [|lia]. by apply root_bits in E. Qed.

Definition top_split (a x : Z) : Prop :=
  valid a /\ anc a x /\ (a = 0 \/ get_split T a <> 0) /\ forall s, valid s -> anc s x -> get_split T s <> 0 -> bits s <= bits a.

Lemma branch_spec fuel x : valid x -> bits x < Z.of_nat fuel -> exists a, branch_loop T fuel x = Ret a /\ top_split a x.
Proof using.
  revert x. induction fuel as [|fuel IH]; intros x Hx Hf; [pose proof (bits_valid x Hx); lia|]. cbn [branch_loop].
  assert (forall s, valid s -> anc s x -> get_split T s <> 0 -> bits s <= bits x) as Hself by (intros s _ [? _] _; done).
  destruct (Z.eqb_spec x 0) as [->|Hn]; [exists 0; split; [done|]; split_and!; first [done|by apply anc_refl|by left]|].
  destruct (Z.eqb_spec (get_split T x) 0) as [E0|E0]; cbn [negb]; [|exists x; split; [done|]; split_and!; first [done|by apply anc_refl|by right]].
  pose proof (bits_pos x Hx Hn) as Hb. rewrite frag_parent_spec by done. cbn [rbind]. destruct (up_bits_1 x Hx Hb) as (Hv & Eb & Ha).
  destruct (IH (up x (bits x - 1)) Hv ltac:(lia)) as (a & -> & Hav & Haa & Hor & Hmax). exists a. split; [done|]. split_and!; [done|by eapply anc_trans|done|].
  intros s Hs Hsx Hsp. apply Hmax; [done| |done]. destruct (anc_parent s x Hs Hx Hb Hsx) as [->|]; done.
Qed.

Lemma get_branch_spec x : valid x -> exists a, get_branch T x = Ret a /\ top_split a x.
Proof using. intros Hx. apply branch_spec; [done|]. pose proof (bits_valid x Hx). unfold path_fuel. lia. Qed.

Lemma above_spec fuel x : valid x -> bits x < Z.of_nat fuel ->
  exists a, above_loop T fuel x = Ret a /\ valid a /\ anc a x /\ (a = 0 \/ get_split T a <> 0) /\ (x <> 0 -> bits a < bits x).
Proof using.
  revert x. induction fuel as [|fuel IH]; intros x Hx Hf; [pose proof (bits_valid x Hx); lia|]. cbn [above_loop].
  destruct (Z.eqb_spec x 0) as [->|Hn]; [exists 0; split_and!; first [done|by apply anc_refl|by left]|].
  pose proof (bits_pos x Hx Hn) as Hb. rewrite frag_parent_spec by done. cbn [rbind]. destruct (up_bits_1 x Hx Hb) as (Hv & Eb & Ha).
  destruct (Z.eqb_spec (get_split T (up x (bits x - 1))) 0) as [E0|E0]; cbn [negb]; [|eexists; split; [done|]; split_and!; first [done|by right|intros _; lia]].
  destruct (IH _ Hv ltac:(lia)) as (a & -> & Hav & Haa & Hor & _). exists a. split_and!; [done|done|by eapply anc_trans|done|]. intros _. destruct Haa. lia.
Qed.

Lemma get_branch_above_spec x : valid x ->
  exists a, get_branch_above T x = Ret a /\ valid a /\ anc a x /\ (a = 0 \/ get_split T a <> 0) /\ (x <> 0 -> bits a < bits x).
Proof using. intros Hx. apply above_spec; [done|]. pose proof (bits_valid x Hx). unfold path_fuel. lia. Qed.

(** Where the walk for [x] starts: the fragment of the lowest split around [x]
    that is around [x] too, or that split. *)
Lemma branch_or_leaf_spec x : valid x -> exists a, top_split a x /\
  get_branch_or_leaf T x = Ret (if bool_decide (get_split T a <> 0 /\ bits a + get_split T a <= bits x) then up x (bits a + get_split T a) else a).
Proof using HT.
  intros Hx. destruct (get_branch_spec x Hx) as (a & Ea & Htop). exists a. split; [done|]. destruct Htop as (Ha & Hax & _ & _). pose proof (bits_valid a Ha). pose proof (bits_valid x Hx).
  unfold get_branch_or_leaf. rewrite Ea. cbn [rbind]. destruct (decide (get_split T a = 0)) as [E|E].
  - rewrite E. cbn [Z.ltb andb]. by rewrite bool_decide_eq_false_2 by tauto.
  - destruct (split_bounds a E) as (_ & Hp & Hb). rewrite (proj2 (Z.ltb_lt 0 _)) by done. rewrite (uw_small 32 (bits a + _)) by (unfold is_u; lia). cbn [andb].
    destruct (Z.leb_spec (bits a + get_split T a) (bits x)); [|by rewrite bool_decide_eq_false_2 by lia]. rewrite bool_decide_eq_true_2 by done.
    rewrite make_spec by (try (pose proof (value_range x)); lia). unfold up. rewrite (Z.mod_small _ (2 ^ 24)) by apply value_range. by rewrite value_div by (done || lia).
Qed.

(** ** Going down *)

Inductive reach (t : Z) : Z -> Prop :=
  | reach_refl : reach t t
  | reach_step c g : get_split T t <> 0 -> c ∈ children t (get_split T t) -> reach c g -> reach t g.

Lemma split_children t c : get_split T t <> 0 -> c ∈ children t (get_split T t) <-> valid c /\ anc t c /\ bits c = bits t + get_split T t.
Proof using HT. intros E. destruct (split_bounds t E) as (? & ? & ?). apply elem_of_children; done || lia. Qed.

Lemma reach_anc t g : valid t -> reach t g -> valid g /\ anc t g.
Proof using HT.
  intros Ht H. induction H as [|t c g Hs Hc Hr IH]; [split; [done|by apply anc_refl]|]. apply split_children in Hc as (Hc & Ha & _); [|done]. destruct (IH Hc) as [Hg ?].
  split; [done|]. by eapply anc_trans.
Qed.

Lemma reach_trans t u g : reach t u -> reach u g -> reach t g.
Proof using. induction 1 as [|t c u Hs Hc Hr IH]; [done|]. intros. eapply reach_step; eauto. Qed.

Definition weight (f : Z) : nat := tree_nodes T (Z.to_nat (25 - bits f)) f.

Lemma sum_le {A} (f g : A -> nat) l : (forall x, x ∈ l -> (f x <= g x)%nat) -> (sum_list (map f l) <= sum_list (map g l))%nat.
Proof using. induction l as [|x l IH]; intros H; cbn; [done|]. pose proof (H x ltac:(left)). specialize (IH ltac:(intros; apply H; by right)). lia. Qed.

Lemma nodes_mono d f : (tree_nodes T d f <= tree_nodes T (S d) f)%nat.
Proof using.
  revert f. induction d as [|d IH]; intros f; [cbn [tree_nodes]; lia|]. cbn [tree_nodes]. apply le_n_S. destruct (_ && _); [|done].
  destruct (frag_split f _) as [l| |]; [|done..]. apply sum_le. intros x _. apply IH.
Qed.

Lemma tree_nodes_le d e f : (d <= e)%nat -> (tree_nodes T d f <= tree_nodes T e f)%nat.
Proof using. induction 1 as [|e H IH]; [done|]. etrans; [exact IH|apply nodes_mono]. Qed.

Lemma weight_pos f : (1 <= weight f)%nat.
Proof using. unfold weight. destruct (Z.to_nat _); cbn [tree_nodes]; lia. Qed.

Lemma weight_split f : get_split T f <> 0 -> (S (sum_list (map weight (children f (get_split T f)))) <= weight f)%nat.
Proof using HT.
  intros E. destruct (split_bounds f E) as (Hf & Hp & Hb). pose proof (bits_valid f Hf). unfold weight at 2. destruct (Z.to_nat (25 - bits f)) as [|d] eqn:Ed; [lia|]. cbn [tree_nodes].
  rewrite (proj2 (Z.ltb_lt 0 _)), (proj2 (Z.leb_le _ _)), frag_split_spec by (done || lia). cbn [andb]. apply le_n_S, sum_le. intros c Hc%split_children; [|done]. destruct Hc as (_ & _ & Ec).
  apply tree_nodes_le. lia.
Qed.

Lemma weight_fuel f : valid f -> (weight f < walk_fuel T f)%nat.
Proof using. intros Hf. unfold walk_fuel. apply le_n_S, tree_nodes_le. pose proof (bits_valid f Hf). lia. Qed.

Lemma sum_rev_append (f : Z -> nat) l s : sum_list (map f (rev_append l s)) = (sum_list (map f l) + sum_list (map f s))%nat.
Proof using. revert s. induction l as [|x l IH]; intros s; cbn; [done|]. rewrite IH. cbn. lia. Qed.

Definition nested (f g : Z) : Prop := anc f g \/ anc g f.
Definition apart (s : list Z) : Prop := ForallOrdPairs (fun f g => ~ nested f g) s.

Lemma push_spec t s : get_split T t <> 0 -> push_children t (get_split T t) s = Ret (rev_append (children t (get_split T t)) s).
Proof using HT. intros E. destruct (split_bounds t E) as (? & ? & ?). unfold push_children. by rewrite frag_split_spec. Qed.

Lemma nested_anc f g h : valid f -> valid g -> valid h -> anc f h -> anc g h -> nested f g.
Proof using. intros Hf Hg Hh Hfh Hgh. destruct (Z.le_ge_cases (bits f) (bits g)); [left|right]; by eapply anc_nested. Qed.

Lemma apart_children t s : get_split T t <> 0 -> Forall valid s -> apart (t :: s) -> apart (rev_append (children t (get_split T t)) s).
Proof using HT.
  intros E Hs Hap. inversion Hap as [|? ? Hts Hs']; subst. destruct (split_bounds t E) as (Ht & Hp & Hb).
  assert (forall l, (forall c, c ∈ l -> c ∈ children t (get_split T t)) -> NoDup l -> forall r, apart r ->
    (forall c u, c ∈ l -> u ∈ r -> ~ nested c u) -> apart (rev_append l r)) as Hgen.
  { induction l as [|c l IH]; intros Hl Hnd r Hr Hcr; [done|]. cbn [rev_append]. inversion Hnd as [|? ? Hc Hnd']; subst. apply IH; [intros; apply Hl; by right|done| |].
    - constructor; [|done]. apply list_relations.list.Forall_forall. intros u Hu. apply Hcr; [by left|done].
    - intros c' u Hc' [->|Hu]%elem_of_cons; [|apply Hcr; [by right|done]].
      assert (c' ∈ children t (get_split T t)) as H1%split_children by (try apply Hl; by right). 2: done. assert (c ∈ children t (get_split T t)) as H2%split_children by (try apply Hl; by left). 2: done.
      destruct H1 as (? & _ & ?), H2 as (? & _ & ?). assert (c' <> c) by (intros ->; done). intros [Hn|Hn]; apply anc_eq in Hn; done || lia || congruence. }
  apply Hgen; [done|apply children_nodup; done || lia|done|]. intros c u (Hc & Htc & _)%split_children Hu; [|done].
  eapply list_relations.list.Forall_forall in Hs; [|exact Hu]. eapply list_relations.list.Forall_forall in Hts; [|exact Hu]. intros [Hn|Hn]; apply Hts.
  - left. by eapply anc_trans.
  - by eapply (nested_anc t u c).
Qed.
Lemma beside_spec x t : valid x -> valid t -> exists b, beside x t = Ret b /\ (b = true <-> bits x <= bits t /\ ~ anc x t).
Proof using.
  intros Hx Ht. unfold beside. destruct (Z.leb_spec (bits x) (bits t)); [|exists false; split; [done|]; split; [done|lia]].
  rewrite contains_frag_spec by done. cbn [rbind]. eexists. split; [done|]. rewrite negb_true_iff, bool_decide_eq_false. tauto.
Qed.

(** The fragments a walk for [x] finds below the stack [s]. *)
Definition found (x : Z) (s : list Z) (g : Z) : Prop := exists t, t ∈ s /\ reach t g /\ anc x g /\ get_split T g = 0.

Lemma found_cons x t s g : found x (t :: s) g <-> (reach t g /\ anc x g /\ get_split T g = 0) \/ found x s g.
Proof using.
  unfold found. split.
  - intros (u & [->|Hu]%elem_of_cons & H); [by left|right; eauto].
  - intros [H|(u & Hu & H)]; [exists t; split; [by left|done]|exists u; split; [by right|done]].
Qed.

Lemma found_children x t s g : get_split T t <> 0 -> found x (rev_append (children t (get_split T t)) s) g <-> found x (t :: s) g.
Proof using.
  intros E. rewrite found_cons. unfold found. rewrite rev_append_rev. split.
  - intros (u & [Hu|Hu]%elem_of_app & Hr & H); [left|right; eauto]. split; [|done]. apply list_elem_of_In, in_rev, list_elem_of_In in Hu. by eapply reach_step.
  - intros [(Hr & H)|(u & Hu & H)]; [|exists u; split; [apply elem_of_app; by right|done]]. inversion Hr as [|c ? ? Hc Hr']; subst; [destruct H; done|].
    exists c. split; [apply elem_of_app; left; by apply list_elem_of_In, in_rev; rewrite rev_involutive; apply list_elem_of_In|done].
Qed.

Lemma children_valid t s : get_split T t <> 0 -> Forall valid s -> Forall valid (rev_append (children t (get_split T t)) s).
Proof using HT.
  intros E Hs. apply list_relations.list.Forall_forall. intros c. rewrite rev_append_rev, elem_of_app. intros [Hc|Hc].
  - apply list_elem_of_In, in_rev, list_elem_of_In, split_children in Hc; [by destruct Hc|done].
  - by eapply list_relations.list.Forall_forall in Hs.
Qed.

Lemma reach_leaf t g : get_split T t = 0 -> reach t g -> g = t.
Proof using. intros E H. by inversion H. Qed.

Lemma found_not_apart x t s : valid t -> Forall valid s -> apart (t :: s) -> ~ found x s t.
Proof using HT.
  intros Ht Hs Hap (u & Hu & Hr & _). inversion Hap as [|? ? Hts _]; subst. eapply list_relations.list.Forall_forall in Hts; [|exact Hu]. eapply list_relations.list.Forall_forall in Hs; [|exact Hu].
  apply Hts. right. by apply reach_anc.
Qed.

Lemma under_loop_spec fuel x s c : valid x -> Forall valid s -> apart s -> (sum_list (map weight s) < fuel)%nat ->
  exists L, under_loop T fuel x s c = Ret (c ++ L) /\ NoDup L /\ forall g, g ∈ L <-> found x s g.
Proof using HT.
  intros Hx. revert s c. induction fuel as [|fuel IH]; intros s c Hs Hap Hf; [lia|]. cbn [under_loop]. destruct s as [|t s].
  { exists []. rewrite app_nil_r. split_and!; [done|constructor|]. intros g. split; [by intros ?%not_elem_of_nil|by intros (? & ?%not_elem_of_nil & _)]. }
  inversion Hs as [|? ? Ht Hs']; subst. inversion Hap as [|? ? Hts Hap']; subst. cbn [map sum_list] in Hf. pose proof (weight_pos t) as Hwt.
  destruct (beside_spec x t Hx Ht) as (b & -> & Hb). cbn [rbind]. destruct b.
  { destruct (IH s c Hs' Hap' ltac:(cbn in Hf; lia)) as (L & E & Hnd & HL). exists L. split_and!; [done|done|]. intros g. rewrite HL, found_cons. split; [by right|]. intros [(Hr & Ha & _)|]; [|done].
    exfalso. apply (reach_anc t g Ht) in Hr as [Hg Htg]. destruct Hb as [Hb _]. destruct (Hb eq_refl) as [Hle Hn]. apply Hn. by eapply (anc_nested x t g). }
  destruct (Z.eqb_spec (get_split T t) 0) as [E0|E0]; cbn [negb].
  - rewrite contains_frag_spec by done. cbn [rbind]. destruct (IH s (if bool_decide (anc x t) then c ++ [t] else c) Hs' Hap' ltac:(cbn in Hf; lia)) as (L & E & Hnd & HL). rewrite E.
    exists ((if bool_decide (anc x t) then [t] else []) ++ L). case_bool_decide as Ha.
    + split_and!; [by rewrite <- app_assoc|constructor; [rewrite HL; by apply found_not_apart|done]|]. intros g. cbn [app]. rewrite elem_of_cons, HL, found_cons. split; intros [H|H]; [left|by right|left|by right].
      * subst. split_and!; [constructor|done|done].
      * destruct H as (H & _). by apply reach_leaf.
    + split_and!; [done|done|]. intros g. cbn [app]. rewrite HL, found_cons. split; [by right|]. intros [(H & H' & _)|H]; [|done]. apply reach_leaf in H as ->; done.
  - rewrite push_spec by done. cbn [rbind]. destruct (IH (rev_append (children t (get_split T t)) s) c) as (L & E & Hnd & HL).
    + by apply children_valid.
    + by apply apart_children.
    + rewrite sum_rev_append. pose proof (weight_split t E0). cbn in Hf. lia.
    + exists L. split_and!; [done|done|]. intros g. rewrite HL. by apply found_children.
Qed.

Lemma under_one x t c : valid x -> valid t ->
  exists L, under_loop T (walk_fuel T t) x [t] c = Ret (c ++ L) /\ NoDup L /\ forall g, g ∈ L <-> reach t g /\ anc x g /\ get_split T g = 0.
Proof using HT.
  intros Hx Ht. destruct (under_loop_spec (walk_fuel T t) x [t] c Hx) as (L & E & Hnd & HL); [by constructor|by repeat constructor|cbn; pose proof (weight_fuel t Ht); lia|].
  exists L. split_and!; [done|done|]. intros g. rewrite HL, found_cons. split; [|by left]. intros [|(? & []%not_elem_of_nil & _)]; done.
Qed.

(** [get_leaves_under_split] is the walk for the whole space. *)
Lemma leaves_under_root fuel s c : Forall valid s -> leaves_loop T fuel s c = under_loop T fuel 0 s c.
Proof using HT.
  revert s c. induction fuel as [|fuel IH]; intros s c Hs; [done|]. cbn [leaves_loop under_loop]. destruct s as [|t s]; [done|]. inversion Hs as [|? ? Ht Hs']; subst.
  destruct (beside_spec 0 t valid_0 Ht) as (b & -> & Hb). cbn [rbind]. destruct b; [destruct Hb as [Hb _]; destruct (Hb eq_refl) as [_ []]; by apply anc_0|].
  destruct (Z.eqb_spec (get_split T t) 0) as [E0|E0]; cbn [negb].
  - rewrite contains_frag_spec, bool_decide_eq_true_2 by (apply valid_0 || done || by apply anc_0). cbn [rbind]. by apply IH.
  - rewrite push_spec by done. cbn [rbind]. by apply IH, children_valid.
Qed.

(** ** Leaves *)

Definition leaf (x : Z) : Prop :=
  valid x /\ get_split T x = 0 /\
  (x = 0 \/ exists a, valid a /\ anc a x /\ get_split T a <> 0 /\ bits a + get_split T a = bits x /\
     forall s, valid s -> anc s x -> get_split T s <> 0 -> bits s <= bits a).

Lemma same_split a a' x : valid x -> valid a -> valid a' -> anc a x -> anc a' x -> bits a <= bits a' -> bits a' <= bits a -> a = a'.
Proof using. intros Hx Ha Ha' [_ E] [_ E'] ? ?. rewrite E, E'. f_equal. lia. Qed.

Lemma single (L : list Z) x : NoDup L -> (match L with [f] => f =? x | _ => false end = true <-> forall g, g ∈ L <-> g = x).
Proof using.
  intros Hnd. destruct L as [|f [|f' L]].
  - split; [done|]. intros H. specialize (H x). destruct H as [_ H]. by apply not_elem_of_nil in H.
  - rewrite Z.eqb_eq. split; [intros -> g; apply list_elem_of_singleton|]. intros H. apply H. by left.
  - split; [done|]. intros H. inversion Hnd as [|? ? Hn _]; subst. exfalso. apply Hn. assert (f = x) as -> by (apply H; by left). assert (f' = x) as -> by (apply H; right; by left). by left.
Qed.

Lemma is_leaf_spec x : valid x -> exists b, is_leaf T x = Ret b /\ (b = true <-> leaf x).
Proof using HT.
  intros Hx. destruct (branch_or_leaf_spec x Hx) as (a & (Ha & Hax & Hor & Hmax) & E). unfold is_leaf, get_leaves_under. rewrite E. cbn [rbind]. clear E.
  pose proof (bits_valid a Ha). pose proof (bits_valid x Hx). case_bool_decide as Hc.
  - destruct Hc as [Hs Hle]. destruct (split_bounds a Hs) as (_ & Hp & Hb). set (t := up x _).
    assert (valid t /\ bits t = bits a + get_split T a /\ anc t x) as (Ht & Ebt & Htx) by (split_and!; [apply valid_up|apply bits_up|apply anc_up]; done || lia).
    assert (get_split T t = 0) as E0. { destruct (decide (get_split T t = 0)) as [|Hn]; [done|]. specialize (Hmax t Ht Htx Hn). lia. }
    destruct (under_one x t [] Hx Ht) as (L & -> & Hnd & HL). cbn [rbind app]. eexists. split; [done|]. rewrite single by done. split.
    + intros Hg. assert (x ∈ L) as Hin by by apply Hg. apply HL in Hin as (Hr & _ & _). apply reach_leaf in Hr as Ext; [|done]. split_and!; [done|congruence|right]. exists a. split_and!; try done. congruence.
    + intros (_ & E0x & [->|(a' & Ha' & Hax' & Hs' & Eb & Hmax')]) g; [change (bits 0) with 0 in *; lia|].
      assert (a' = a) as -> by (eapply (same_split _ _ x); eauto). assert (t = x) as Et by (apply anc_eq; done || lia). rewrite HL, Et in *. split.
      * intros (Hr & _ & _). by apply reach_leaf.
      * intros ->. split_and!; [constructor|by apply anc_refl|done].
  - destruct (under_one x a [] Hx Ha) as (L & -> & Hnd & HL). cbn [rbind app]. eexists. split; [done|]. rewrite single by done. split.
    + intros Hg. assert (x ∈ L) as Hin by by apply Hg. apply HL in Hin as (Hr & _ & E0). inversion Hr as [E|c ? Hs Hcc Hr']; subst; [split_and!; [done|done|left; by destruct Hor]|].
      exfalso. apply Hc. split; [done|]. apply split_children in Hcc as (Hcv & _ & Ec); [|done]. apply reach_anc in Hr' as [_ [? _]]; [lia|done].
    + intros (_ & E0x & [->|(a' & Ha' & Hax' & Hs' & Eb & Hmax')]) g.
      * assert (a = 0) as -> by (apply root_bits; [done|destruct Hax; change (bits 0) with 0 in *; lia]). rewrite HL. split; [intros (Hr & _ & _); by apply reach_leaf|]. intros ->. split_and!; [constructor|by apply anc_refl|done].
      * exfalso. apply Hc. assert (get_split T a <> 0 /\ a = a') as [Hs ->]; [|by rewrite Eb]. specialize (Hmax a' Ha' Hax' Hs'). destruct (decide (get_split T a = 0)) as [Ez|Hn].
        { destruct Hor as [->|]; [|done]. assert (a' = 0) as -> by (apply root_bits; [done|change (bits 0) with 0 in *; pose proof (bits_valid a' Ha'); lia]). done. }
        split; [done|]. eapply (same_split _ _ x); eauto.
Qed.
End bounded.

Definition node (T : fragtree_t) (f : Z) : Prop :=
  f = 0 \/ exists h, get_split T h <> 0 /\ anc h f /\ bits f = bits h + get_split T h.

Record wf_tree (T : fragtree_t) : Prop := WfTree {
  wf_bounded : bounded T;
  wf_node : forall f, get_split T f <> 0 -> node T f;
}.

Section wf.
Context (T : fragtree_t) (HT : wf_tree T).
Let HB : bounded T := wf_bounded T HT.

Lemma laminar f g : valid f -> valid g -> node T f -> node T g -> anc f g -> f <> g -> get_split T f <> 0 /\ bits f + get_split T f <= bits g.
Proof using HT HB.
  remember (Z.to_nat (bits f + bits g)) as n eqn:En. revert f g En. induction n as [n IH] using lt_wf_ind. intros f g En Hf Hg Nf Ng Ha Hn.
  pose proof (bits_valid f Hf). pose proof (bits_valid g Hg). destruct Ng as [->|(h & Hs & Hhg & Eb)].
  { exfalso. apply Hn. apply anc_eq; [done..|]. destruct Ha as [Hle _]. change (bits 0) with 0 in *. lia. }
  destruct (split_bounds T HB h Hs) as (Hh & Hp & _). pose proof (bits_valid h Hh). pose proof (wf_node T HT h Hs) as Nh. destruct (Z.le_gt_cases (bits f) (bits h)) as [Hle|Hgt].
  - assert (anc f h) as Hfh by (by eapply (anc_nested f h g)). destruct (decide (f = h)) as [->|Hne]; [split; [done|lia]|].
    destruct (IH (Z.to_nat (bits f + bits h)) ltac:(lia) f h eq_refl Hf Hh Nf Nh Hfh Hne). split; [done|lia].
  - exfalso. assert (anc h f) as Hhf by (eapply (anc_nested h f g); done || lia). assert (h <> f) as Hne by (intros ->; lia).
    destruct (IH (Z.to_nat (bits h + bits f)) ltac:(lia) h f eq_refl Hh Hf Nh Nf Hhf Hne) as [_ Hle]. apply Hn. apply anc_eq; [done..|]. destruct Ha. lia.
Qed.

Lemma node_child t c : node T t -> get_split T t <> 0 -> c ∈ children t (get_split T t) -> node T c.
Proof using HT HB. intros Ht Hs (Hc & Ha & Eb)%split_children; [|done..]. right. by exists t. Qed.

Lemma reach_node t g : node T t -> reach T t g -> node T g.
Proof using HT HB. intros Ht H. induction H as [|t c g Hs Hc Hr IH]; [done|]. apply IH. by eapply node_child. Qed.

Lemma node_reach t g : valid t -> valid g -> node T t -> node T g -> anc t g -> reach T t g.
Proof using HT HB.
  intros Ht Hg Nt. remember (Z.to_nat (bits g)) as n eqn:En. revert g Hg En. induction n as [n IH] using lt_wf_ind. intros g Hg En Ng Ha.
  destruct (decide (t = g)) as [->|Hn]; [constructor|]. destruct (laminar t g) as [Hs Hle]; [done..|]. destruct Ng as [->|(h & Hhs & Hhg & Eb)].
  { destruct (split_bounds T HB t Hs) as (_ & ? & _). pose proof (bits_valid t Ht). change (bits 0) with 0 in *. lia. }
  destruct (split_bounds T HB h Hhs) as (Hh & Hp & _). pose proof (bits_valid h Hh). pose proof (wf_node T HT h Hhs) as Nh.
  assert (bits t <= bits h) as Hth.
  { destruct (Z.le_gt_cases (bits t) (bits h)) as [|Hgt]; [done|]. assert (anc h t) as Hht by (eapply (anc_nested h t g); done || lia). destruct (laminar h t) as [_ Hle']; [done..|by intros ->; lia|].
    destruct (split_bounds T HB t Hs) as (_ & ? & _). lia. }
  eapply reach_trans; [apply (IH (Z.to_nat (bits h)) ltac:(lia) h Hh eq_refl Nh); by eapply (anc_nested t h g)|]. eapply reach_step; [done| |constructor]. apply split_children; done.
Qed.

Lemma leaf_node x : leaf T x <-> valid x /\ get_split T x = 0 /\ node T x.
Proof using HT HB.
  unfold leaf. split; intros (Hx & E0 & H); (split; [done|]; split; [done|]).
  - destruct H as [->|(a & Ha & Hax & Hs & Eb & _)]; [by left|right; by exists a].
  - destruct H as [->|(h & Hs & Hhx & Eb)]; [by left|right]. destruct (split_bounds T HB h Hs) as (Hh & Hp & _). exists h. split_and!; try done. intros s Hsv Hsx Hss.
    destruct (Z.le_gt_cases (bits s) (bits h)) as [|Hgt]; [done|]. exfalso. assert (anc h s) as Hhs by (eapply (anc_nested h s x); done || lia).
    destruct (laminar h s) as [_ Hle]; [done..|by apply wf_node|by apply wf_node|done|by intros ->; lia|]. assert (s = x) as -> by (apply anc_eq; [done..|destruct Hsx; lia]). done.
Qed.

(** Every fragment has a leaf around it or leaves inside it; a hash has one
    leaf. *)
Lemma leaf_unique f g p : valid p -> leaf T f -> leaf T g -> anc f p -> anc g p -> f = g.
Proof using HT HB.
  intros Hp (Hf & Ef & Nf)%leaf_node (Hg & Eg & Ng)%leaf_node Hfp Hgp. destruct (decide (f = g)) as [|Hn]; [done|]. exfalso.
  destruct (nested_anc f g p) as [Ha|Ha]; [done..| |]; [destruct (laminar f g)|destruct (laminar g f)]; done.
Qed.

Lemma walk_start x : valid x -> exists t, get_branch_or_leaf T x = Ret t /\ valid t /\ node T t /\ nested t x /\ (anc t x).
Proof using HT HB.
  intros Hx. destruct (branch_or_leaf_spec T HB x Hx) as (a & (Ha & Hax & Hor & _) & ->). pose proof (bits_valid a Ha). pose proof (bits_valid x Hx). case_bool_decide as Hc.
  - destruct Hc as [Hs Hle]. destruct (split_bounds T HB a Hs) as (_ & Hp & Hb). assert (anc (up x (bits a + get_split T a)) x) by (apply anc_up; done || lia).
    eexists. split_and!; [done|apply valid_up; done || lia| |by left|done]. right. exists a. split_and!; [done| |apply bits_up; done || lia]. eapply (anc_nested a _ x); try done; [apply valid_up; done || lia|rewrite bits_up by (done || lia); lia].
  - exists a. split_and!; try done; [|by left]. destruct Hor as [->|Hs]; [by left|by apply wf_node].
Qed.

Lemma leaves_under_spec x c : valid x -> exists L, get_leaves_under T x c = Ret (c ++ L) /\ NoDup L /\ forall g, g ∈ L <-> leaf T g /\ anc x g.
Proof using HT HB.
  intros Hx. destruct (walk_start x Hx) as (t & E & Ht & Nt & _ & Htx). unfold get_leaves_under. rewrite E. cbn [rbind]. destruct (under_one T HB x t c Hx Ht) as (L & -> & Hnd & HL).
  exists L. split_and!; [done|done|]. intros g. rewrite HL. split.
  - intros (Hr & Ha & E0). destruct (reach_anc T HB t g Ht Hr) as [Hg _]. split; [|done]. apply leaf_node. split_and!; [done|done|by eapply reach_node].
  - intros [(Hg & E0 & Ng)%leaf_node Ha]. split_and!; [|done|done]. apply node_reach; try done. by eapply anc_trans.
Qed.

Lemma get_leaves_spec c : exists L, get_leaves T c = Ret (c ++ L) /\ NoDup L /\ forall g, g ∈ L <-> leaf T g.
Proof using HT HB.
  unfold get_leaves, get_leaves_under_split. rewrite (leaves_under_root T HB) by (constructor; [apply valid_0|done]).
  destruct (under_one T HB 0 0 c valid_0 valid_0) as (L & -> & Hnd & HL). exists L. split_and!; [done|done|]. intros g. rewrite HL, leaf_node. split.
  - intros (Hr & _ & E0). destruct (reach_anc T HB 0 g valid_0 Hr) as [Hg _]. split_and!; [done|done|]. apply (reach_node 0 g); [by left|done].
  - intros (Hg & E0 & Ng). split_and!; [|by apply anc_0|done]. apply node_reach; try done; [by left|by apply anc_0].
Qed.

(** ** The fragment of a hash *)

Lemma point_bits v : bits (point v) = 24.
Proof using. apply bits_fr, point_ok. Qed.

Lemma child_of_point t nb i v : valid t -> 0 < nb -> bits t + nb <= 24 -> 0 <= i < 2 ^ nb -> anc t (point v) ->
  anc (child t nb i) (point v) <-> child t nb i = up (point v) (bits t + nb).
Proof using. intros Ht Hnb Hb Hi Ha. unfold anc at 1. rewrite bits_child by (done || lia). rewrite point_bits. split; [by intros [_ ?]|by split; [lia|]]. Qed.

Lemma pick_child_spec n t i nb v i0 : valid t -> 0 < nb -> bits t + nb <= 24 -> 0 <= v -> anc t (point v) -> 0 <= i <= i0 -> i0 < i + Z.of_nat n -> i + Z.of_nat n = 2 ^ nb ->
  child t nb i0 = up (point v) (bits t + nb) -> pick_child n t i nb v = Ret (Some (up (point v) (bits t + nb))).
Proof using.
  intros Ht Hnb Hb Hv Ha. revert i. induction n as [|n IH]; intros i Hi Hlt Hn E0; [lia|]. cbn [pick_child]. rewrite make_child_spec by (done || lia). cbn [rbind].
  rewrite contains_value_spec by (try apply valid_child; done || lia). cbn [rbind]. case_bool_decide as Hc.
  - apply child_of_point in Hc; [|done || lia..]. by rewrite Hc.
  - apply IH; try done; [|lia..]. split; [lia|]. destruct (decide (i = i0)) as [->|]; [|lia]. exfalso. apply Hc. apply child_of_point; done || lia.
Qed.

Lemma frag_loop_spec fuel t v : valid t -> node T t -> anc t (point v) -> 0 <= v -> 24 - bits t < Z.of_nat fuel ->
  exists f, frag_loop T fuel t v = Ret f /\ leaf T f /\ anc f (point v).
Proof using HT HB.
  intros Ht Nt Ha Hv. revert t Ht Nt Ha. induction fuel as [|fuel IH]; intros t Ht Nt Ha Hf; [pose proof (bits_valid t Ht); lia|]. cbn [frag_loop].
  rewrite contains_value_spec, bool_decide_eq_true_2 by done. cbn [rbind rassert]. destruct (Z.eqb_spec (get_split T t) 0) as [E0|Hs]; [exists t; split; [done|]; split; [by apply leaf_node|done]|].
  destruct (split_bounds T HB t Hs) as (_ & Hp & Hb). pose proof (bits_valid t Ht). set (nb := get_split T t) in *. assert (Z.shiftl 1 nb = 2 ^ nb) as E1 by (rewrite Z.shiftl_mul_pow2; lia).
  unfold ways. rewrite (proj2 (Z.leb_le 0 nb)), (proj2 (Z.ltb_lt nb 31)) by lia. cbn [andb rbind]. rewrite E1. assert (0 < 2 ^ nb) as Hpow by (apply Z.pow_pos_nonneg; lia).
  pose proof (child_around t (point v) nb Ht (valid_point v) Ha ltac:(lia) ltac:(rewrite point_bits; lia)) as Ec. set (i0 := _ mod 2 ^ nb) in Ec. assert (0 <= i0 < 2 ^ nb) as Hi0 by (by apply Z.mod_pos_bound).
  rewrite (pick_child_spec _ t 0 nb v i0) by (done || lia). cbn [rbind deref]. assert (valid (up (point v) (bits t + nb)) /\ bits (up (point v) (bits t + nb)) = bits t + nb) as [Hc Eb].
  { split; [apply valid_up|apply bits_up]; [apply valid_point|rewrite point_bits; lia|apply valid_point|rewrite point_bits; lia]. }
  apply IH; [done| |apply anc_up; [apply valid_point|rewrite point_bits; lia]|lia]. right. exists t. split_and!; [done| |done]. rewrite Ec. apply anc_child; done || lia.
Qed.

Lemma frag_of_spec v : 0 <= v -> exists f, frag_of T v = Ret f /\ leaf T f /\ anc f (point v).
Proof using HT HB. intros Hv. apply frag_loop_spec; [apply valid_0|by left|apply anc_0, valid_point|done|]. change (bits 0) with 0. unfold path_fuel. lia. Qed.

Lemma frag_of_leaf v f : 0 <= v -> leaf T f -> anc f (point v) -> frag_of T v = Ret f.
Proof using HT HB. intros Hv Hf Ha. destruct (frag_of_spec v Hv) as (g & -> & Hg & Hga). f_equal. by eapply (leaf_unique _ _ (point v)); [apply valid_point|..]. Qed.
End wf.

(** The tree of one fragment. *)
Lemma wf_empty : wf_tree ∅.
Proof. split; [intros k nb H; discriminate H|]. by intros f []. Qed.
