(* ===== verification/FragOps.v ===== *)
(** * Splitting and merging fragments

    What [split], [merge], [try_assimilate_children] and [force_to_leaf] do to
    the leaves of a tree. *)

From stdpp Require Import gmap.
From S2P Require Import Prelude Frag FragSpec FragTree.
Open Scope Z_scope.

(** ** Changed splits *)

Lemma get_split_insert (T : fragtree_t) x b : get_split (<[x := b]> T) x = b.
Proof. unfold get_split, fragtree_t in *. by rewrite lookup_insert_eq. Qed.

Lemma get_split_insert_ne (T : fragtree_t) x b f : x <> f -> get_split (<[x := b]> T) f = get_split T f.
Proof. intros. unfold get_split, fragtree_t in *. by rewrite lookup_insert_ne. Qed.

Lemma get_split_delete (T : fragtree_t) x : get_split (delete x T) x = 0.
Proof. unfold get_split, fragtree_t in *. by rewrite lookup_delete_eq. Qed.

Lemma get_split_delete_ne (T : fragtree_t) x f : x <> f -> get_split (delete x T) f = get_split T f.
Proof. intros. unfold get_split, fragtree_t in *. by rewrite lookup_delete_ne. Qed.

Lemma bounded_insert T x b : bounded T -> valid x -> 0 < b -> bits x + b <= 24 -> bounded (<[x := b]> T).
Proof. intros HT ? ? ? k nb. unfold fragtree_t in *. destruct (decide (x = k)) as [->|]; [rewrite lookup_insert_eq; by intros [= <-]|rewrite lookup_insert_ne by done; apply HT]. Qed.

Lemma bounded_delete T x : bounded T -> bounded (delete x T).
Proof. intros HT k nb. unfold fragtree_t in *. destruct (decide (x = k)) as [->|]; [by rewrite lookup_delete_eq|rewrite lookup_delete_ne by done; apply HT]. Qed.

Lemma delete_all l (T : fragtree_t) : bounded T -> bounded (foldl (fun m c => delete c m) T l) /\
  forall f, (f ∈ l -> get_split (foldl (fun m c => delete c m) T l) f = 0) /\ (f ∉ l -> get_split (foldl (fun m c => delete c m) T l) f = get_split T f).
Proof.
  revert T. induction l as [|c l IH]; intros T HT; cbn [foldl]; [split; [done|]; intros f; split; [by intros ?%not_elem_of_nil|done]|].
  destruct (IH (delete c T) (bounded_delete T c HT)) as [Hb Hf]. split; [done|]. intros f. destruct (Hf f) as [H1 H2]. split.
  - intros [->|Hin]%elem_of_cons; [|by apply H1]. destruct (decide (c ∈ l)); [by apply H1|]. rewrite H2 by done. apply get_split_delete.
  - intros [Hn Hl]%not_elem_of_cons. rewrite H2 by done. by apply get_split_delete_ne.
Qed.

(** ** A split in two steps

    [fine] splits [x] by [nb] bits and each of its fragments by [cb] more,
    where [coarse] splits it by [nb + cb]. *)
Record two_step (fine coarse : fragtree_t) (x nb cb : Z) : Prop := TwoStep {
  ts_valid : valid x;
  ts_nb : 0 < nb;
  ts_cb : 0 < cb;
  ts_bits : bits x + nb + cb <= 24;
  ts_x : get_split fine x = nb;
  ts_child : forall c, c ∈ children x nb -> get_split fine c = cb;
  ts_other : forall f, f <> x -> f ∉ children x nb -> get_split fine f = get_split coarse f;
  ts_coarse : get_split coarse x = nb + cb;
  ts_coarse_child : forall c, c ∈ children x nb -> get_split coarse c = 0;
}.

Section two_step.
Context (fine coarse : fragtree_t) (x nb cb : Z) (H : two_step fine coarse x nb cb).
Context (Hfine : bounded fine) (Hcoarse : bounded coarse).

Lemma in_children f : f ∈ children x nb <-> valid f /\ anc x f /\ bits f = bits x + nb.
Proof using H. destruct H. apply elem_of_children; done || lia. Qed.

Lemma x_not_child : x ∉ children x nb.
Proof using H. intros (_ & _ & E)%in_children. destruct H. lia. Qed.

Lemma node_fine f : valid f -> node fine f <-> node coarse f \/ f ∈ children x nb.
Proof using H Hfine Hcoarse.
  intros Hv. pose proof H as [Hx Hnb Hcb Hb Efx Efc Efo Ecx Ecc]. split.
  - intros [->|(h & Hs & Ha & Eb)]; [by left; left|]. destruct (decide (h = x)) as [->|Hne]; [right; apply in_children; split_and!; done || lia|].
    destruct (decide (h ∈ children x nb)) as [Hc|Hc]; [|left; right; exists h; by rewrite <- Efo].
    left; right. exists x. rewrite (Efc h Hc) in Eb. apply in_children in Hc as (Hh & Hxh & E). split_and!; [lia| |lia]. by eapply anc_trans.
  - intros [[->|(h & Hs & Ha & Eb)]|Hc]; [by left| |right; exists x; apply in_children in Hc as (? & ? & ?); split_and!; [lia|done|lia]].
    right. destruct (decide (h = x)) as [->|Hne].
    + assert (up f (bits x + nb) ∈ children x nb) as Hc.
      { rewrite (child_around x f nb) by (done || lia). apply in_children. split_and!; [apply valid_child|apply anc_child|apply bits_child]; try done; try lia; apply Z.mod_pos_bound, Z.pow_pos_nonneg; lia. }
      exists (up f (bits x + nb)). rewrite (Efc _ Hc). pose proof (bits_valid x Hx). rewrite bits_up by (done || lia). split_and!; [lia|apply anc_up; done || lia|lia].
    + destruct (decide (h ∈ children x nb)) as [Hc|Hc]; [by rewrite (Ecc h Hc) in Hs|]. exists h. by rewrite Efo.
Qed.

Lemma two_step_wf : wf_tree fine <-> wf_tree coarse.
Proof using H Hfine Hcoarse.
  pose proof H as [Hx Hnb Hcb Hb Efx Efc Efo Ecx Ecc]. split; intros HT; (split; [done|]; intros f Hs).
  - destruct (split_bounds coarse Hcoarse f Hs) as (Hf & _ & _). assert (f ∉ children x nb) as Hc by (intros Hc; by rewrite Ecc in Hs). assert (node fine f) as Hn.
    { destruct (decide (f = x)) as [->|]; [apply (wf_node fine HT); lia|]. apply (wf_node fine HT). by rewrite Efo. }
    apply node_fine in Hn as [|]; done.
  - destruct (split_bounds fine Hfine f Hs) as (Hf & _ & _). apply node_fine; [done|]. destruct (decide (f ∈ children x nb)) as [|Hc]; [by right|left].
    apply (wf_node coarse HT). destruct (decide (f = x)) as [->|]; [lia|by rewrite <- Efo].
Qed.

Lemma two_step_leaf f : wf_tree coarse -> leaf fine f <-> leaf coarse f.
Proof using H Hfine Hcoarse.
  intros HT. rewrite (leaf_node coarse HT), (leaf_node fine (proj2 two_step_wf HT)). pose proof H as [Hx Hnb Hcb Hb Efx Efc Efo Ecx Ecc].
  split; intros (Hf & E0 & Hn); (split; [done|]).
  - assert (f <> x) by (intros ->; lia). assert (f ∉ children x nb) as Hc by (intros Hc; rewrite Efc in E0 by done; lia). rewrite <- Efo by done. split; [done|]. apply node_fine in Hn as [|]; done.
  - assert (f <> x) by (intros ->; lia). assert (f ∉ children x nb) as Hc.
    { intros (_ & Ha & Eb)%in_children. destruct (laminar coarse HT x f) as [_ Hle]; try done; [apply (wf_node coarse HT); lia|lia]. }
    rewrite Efo by done. split; [done|]. apply node_fine; [done|by left].
Qed.
End two_step.

(** ** [try_assimilate_children] *)

Lemma common_split_spec T l cb0 cb : common_split T l cb0 = Some cb ->
  (l = [] /\ cb = cb0) \/ (cb <> 0 /\ (cb0 <> 0 -> cb = cb0) /\ forall c, c ∈ l -> get_split T c = cb).
Proof.
  revert cb0. induction l as [|c l IH]; intros cb0; cbn [common_split]; [intros [= ->]; by left|]. destruct (Z.eqb_spec (get_split T c) 0) as [|Hn]; [done|].
  destruct (negb (cb0 =? 0) && negb (get_split T c =? cb0)) eqn:E; [done|]. intros [[-> ->]|(Hcb & Heq & Hall)]%IH; right.
  - split_and!; [done|intros; destruct (Z.eqb_spec cb0 0), (Z.eqb_spec (get_split T c) cb0); done|]. by intros c' ->%list_elem_of_singleton.
  - specialize (Heq Hn). split_and!; [done|intros; destruct (Z.eqb_spec cb0 0), (Z.eqb_spec (get_split T c) cb0); done || congruence|]. intros c' [->|]%elem_of_cons; [done|by apply Hall].
Qed.

Lemma assimilate_spec T x : wf_tree T -> exists T', try_assimilate_children x T = Ret T' /\ wf_tree T' /\ forall g, leaf T' g <-> leaf T g.
Proof.
  intros HT. pose proof (wf_bounded T HT) as HB. unfold try_assimilate_children. destruct (Z.eqb_spec (get_split T x) 0) as [|Hs]; [by exists T|].
  destruct (split_bounds T HB x Hs) as (Hx & Hp & Hb). pose proof (bits_valid x Hx). rewrite frag_split_spec by done. cbn [rbind]. set (nb := get_split T x) in *.
  destruct (common_split T (children x nb) 0) as [cb|] eqn:Ecs; [|by exists T]. assert (child x nb 0 ∈ children x nb) as Hc0.
  { assert (0 < 2 ^ nb) by (apply Z.pow_pos_nonneg; lia). apply elem_of_children; [done|lia..|]. split_and!; [apply valid_child|apply anc_child|apply bits_child]; done || lia. }
  apply common_split_spec in Ecs as [[E0 _]|(Hcb & _ & Hall)]; [by rewrite E0 in Hc0; apply not_elem_of_nil in Hc0|].
  destruct (split_bounds T HB _ ltac:(by rewrite (Hall _ Hc0))) as (_ & Hcp & Hcb24). rewrite (Hall _ Hc0) in Hcp, Hcb24. rewrite bits_child in Hcb24 by (try apply Z.pow_pos_nonneg; (done || lia || (split; [lia|apply Z.pow_pos_nonneg; lia]))).
  destruct (delete_all (children x nb) T HB) as [HB' Hdel]. assert (x ∉ children x nb) as Hxc by (intros (_ & _ & ?)%elem_of_children; done || lia).
  rewrite (proj2 (Hdel x) Hxc). fold nb. rewrite sw_small by (unfold is_s; lia). eexists. split; [done|]. set (T' := <[x := nb + cb]> _). assert (bounded T') as HBT' by (apply bounded_insert; done || lia).
  assert (two_step T T' x nb cb) as H2.
  { split; try done; try lia; unfold T'.
    - intros f Hfx Hfc. rewrite get_split_insert_ne by done. symmetry. by apply Hdel.
    - apply get_split_insert.
    - intros c Hc. rewrite get_split_insert_ne by (intros ->; done). by apply Hdel. }
  assert (wf_tree T') as HT' by (by apply (two_step_wf T T' x nb cb H2 HB HBT')). split; [done|]. intros g. symmetry. by apply (two_step_leaf T T' x nb cb H2 HB HBT').
Qed.

(** ** [split] *)

Lemma is_leaf_true T x : bounded T -> leaf T x -> is_leaf T x = Ret true.
Proof. intros HT Hl. destruct (is_leaf_spec T HT x (proj1 Hl)) as (b & -> & Hb). by rewrite (proj2 Hb Hl). Qed.

Lemma is_leaf_false T x : bounded T -> valid x -> ~ leaf T x -> is_leaf T x = Ret false.
Proof. intros HT Hx Hl. destruct (is_leaf_spec T HT x Hx) as (b & -> & Hb). destruct b; [|done]. destruct Hl. by apply Hb. Qed.

Lemma assimilate_above T x : wf_tree T -> valid x ->
  exists T', (a <~ get_branch_above T x;; try_assimilate_children a T) = Ret T' /\ wf_tree T' /\ forall g, leaf T' g <-> leaf T g.
Proof. intros HT Hx. destruct (get_branch_above_spec T x Hx) as (a & -> & _). cbn [rbind]. by apply assimilate_spec. Qed.

Section split.
Context (T : fragtree_t) (HT : wf_tree T) (x b : Z) (Hl : leaf T x) (Hb : 0 < b) (Hbits : bits x + b <= 24).

Lemma insert_leaf : wf_tree (<[x := b]> T) /\ forall g, leaf (<[x := b]> T) g <-> (leaf T g /\ g <> x) \/ g ∈ children x b.
Proof using HT Hl Hb Hbits.
  pose proof (proj1 (leaf_node T HT x) Hl) as (Hx & E0 & Nx). assert (bounded (<[x := b]> T)) as HB by (apply bounded_insert; [apply HT|done..]).
  assert (forall g, valid g -> node (<[x := b]> T) g <-> node T g \/ g ∈ children x b) as Hnode.
  { intros g Hg. rewrite elem_of_children by (done || lia). unfold node. split.
    - intros [->|(h & Hs & Ha & Eb)]; [by left; left|]. destruct (decide (x = h)) as [<-|Hn]; [rewrite get_split_insert in *; by right|]. rewrite get_split_insert_ne in * by done. left; right. by exists h.
    - intros [[->|(h & Hs & Ha & Eb)]|(_ & Ha & Eb)]; [by left|right|right; exists x; rewrite get_split_insert; split_and!; [lia|done|done]].
      exists h. rewrite get_split_insert_ne by (intros <-; done). done. }
  assert (wf_tree (<[x := b]> T)) as HT'.
  { split; [done|]. intros f Hs. destruct (split_bounds _ HB f Hs) as (Hf & _ & _). apply Hnode; [done|left]. destruct (decide (x = f)) as [<-|Hn]; [done|]. rewrite get_split_insert_ne in Hs by done. by apply HT. }
  split; [done|]. intros g. rewrite (leaf_node _ HT'), (leaf_node T HT). split.
  - intros (Hg & Eg & Ng). assert (x <> g) as Hn by (intros <-; rewrite get_split_insert in Eg; lia). rewrite get_split_insert_ne in Eg by done. apply Hnode in Ng as [|]; [left; split_and!; congruence|by right|done].
  - intros [((Hg & Eg & Ng) & Hn)|Hg].
    + rewrite get_split_insert_ne by congruence. split_and!; [done|done|]. apply Hnode; [done|by left].
    + pose proof (proj1 (elem_of_children x b g Hx ltac:(lia) Hbits) Hg) as (Hv & Ha & Eb). assert (x <> g) as Hn by (intros <-; lia). rewrite get_split_insert_ne by done. split_and!; [done| |apply Hnode; [done|by right]].
      destruct (decide (get_split T g = 0)) as [|Hs]; [done|]. exfalso. destruct (laminar T HT x g) as [? _]; try done. by apply HT.
Qed.

Lemma split_spec simplify : exists T', split x b simplify T = Ret T' /\ wf_tree T' /\ forall g, leaf T' g <-> (leaf T g /\ g <> x) \/ g ∈ children x b.
Proof using HT Hl Hb Hbits.
  destruct insert_leaf as [HT' Hleaf]. unfold split. rewrite is_leaf_true by (apply HT || done). cbn [rbind rassert]. destruct simplify; [|by eexists].
  destruct (assimilate_above _ x HT' (proj1 Hl)) as (T' & -> & HT2 & Hleaf2). exists T'. split_and!; [done|done|]. intros g. by rewrite Hleaf2.
Qed.
End split.

(** ** [merge] *)

Section merge.
Context (T : fragtree_t) (HT : wf_tree T) (x b : Z) (Hs : get_split T x = b) (Hb : b <> 0) (Hc : forall c, c ∈ children x b -> get_split T c = 0).

Lemma delete_split : wf_tree (delete x T) /\ forall g, leaf (delete x T) g <-> g = x \/ (leaf T g /\ ~ anc x g).
Proof using HT Hs Hb Hc.
  pose proof (wf_bounded T HT) as HB. assert (get_split T x <> 0) as Hsx by congruence. destruct (split_bounds T HB x Hsx) as (Hx & Hp & Hb24). pose proof (wf_node T HT x Hsx) as Nx.
  assert (forall f, get_split (delete x T) f <> 0 -> f <> x /\ get_split (delete x T) f = get_split T f) as Hdel.
  { intros f Hf. destruct (decide (x = f)) as [<-|Hn]; [by rewrite get_split_delete in Hf|]. by rewrite get_split_delete_ne. }
  (* what is split below [x] is [x] itself *)
  assert (forall h, get_split T h <> 0 -> anc x h -> h = x) as Hbelow.
  { intros h Hh Ha. destruct (decide (h = x)) as [|Hn]; [done|]. exfalso. destruct (split_bounds T HB h Hh) as (Hv & _ & _). pose proof (wf_node T HT h Hh) as Nh.
    destruct (laminar T HT x h) as [_ Hle]; try done. rewrite Hs in *. pose proof (bits_valid x Hx). set (c := up h (bits x + b)).
    assert (valid c /\ bits c = bits x + b /\ anc c h) as (Hcv & Ecb & Hch) by (split_and!; [apply valid_up|apply bits_up|apply anc_up]; done || lia).
    assert (c ∈ children x b) as Hcc by (apply elem_of_children; [done|lia|lia|]; split_and!; [done|eapply (anc_nested x c h); done || lia|done]).
    destruct (decide (c = h)) as [E|Hn']; [by rewrite <- E, Hc in Hh|]. destruct (laminar T HT c h) as [Hsc _]; try done; [|by rewrite Hc in Hsc].
    right. exists x. apply elem_of_children in Hcc as (_ & ? & ?); [|done|lia|lia]. rewrite Hs. done. }
  assert (wf_tree (delete x T)) as HT'.
  { split; [by apply bounded_delete|]. intros f Hf. destruct (Hdel f Hf) as [Hn E]. rewrite E in Hf. destruct (split_bounds T HB f Hf) as (Hv & _ & _).
    destruct (wf_node T HT f Hf) as [->|(h & Hh & Ha & Eb)]; [by left|right]. exists h. destruct (decide (x = h)) as [<-|Hnh]; [by apply Hbelow in Ha|]. by rewrite get_split_delete_ne. }
  split; [done|]. intros g. rewrite (leaf_node _ HT'), (leaf_node T HT). split.
  - intros (Hg & Eg & Ng). destruct (decide (x = g)) as [<-|Hn]; [by left|right]. rewrite get_split_delete_ne in Eg by done. destruct Ng as [->|(h & Hh & Ha & Eb)].
    { split; [split_and!; [done|done|by left]|]. intros Ha. apply Hn, anc_eq; [done..|]. destruct Ha as [? _]. pose proof (bits_valid x Hx). change (bits 0) with 0 in *. lia. }
    destruct (Hdel h Hh) as [Hnh E]. rewrite E in *. split; [split_and!; [done|done|right; by exists h]|]. intros Hxg. destruct (split_bounds T HB h Hh) as (Hv & Hhp & _).
    destruct (nested_anc x h g) as [Hxh|Hhx]; try done; [by apply Hbelow in Hxh|]. destruct (laminar T HT h x) as [_ Hle]; try done; [by apply HT|]. apply Hn, anc_eq; try done. destruct Hxg. lia.
  - intros [->|((Hg & Eg & Ng) & Hna)].
    + split_and!; [done|apply get_split_delete|]. destruct Nx as [->|(h & Hh & Ha & Eb)]; [by left|right]. exists h. rewrite get_split_delete_ne; [done|]. intros <-. lia.
    + assert (x <> g) as Hn by (intros <-; congruence). rewrite get_split_delete_ne by done. split_and!; [done|done|]. destruct Ng as [->|(h & Hh & Ha & Eb)]; [by left|right]. exists h. rewrite get_split_delete_ne; [done|]. by intros <-.
Qed.

Lemma split_not_leaf : ~ leaf T x.
Proof using Hs Hb. intros (_ & E & _). congruence. Qed.

Lemma merge_spec simplify : exists T', merge x b simplify T = Ret T' /\ wf_tree T' /\ forall g, leaf T' g <-> g = x \/ (leaf T g /\ ~ anc x g).
Proof using HT Hs Hb Hc.
  destruct delete_split as [HT' Hleaf]. pose proof (wf_bounded T HT) as HB. destruct (split_bounds T HB x ltac:(congruence)) as (Hx & _ & _). unfold merge.
  rewrite is_leaf_false by (done || apply split_not_leaf). cbn [rbind rassert negb]. rewrite Hs, Z.eqb_refl. cbn [rbind rassert]. destruct simplify; [|by eexists].
  destruct (assimilate_above _ x HT' Hx) as (T' & -> & HT2 & Hleaf2). exists T'. split_and!; [done|done|]. intros g. by rewrite Hleaf2.
Qed.
End merge.
