(* ===== verification/FragForce.v ===== *)
(** * [force_to_leaf] and [contains]

    [force_to_leaf] makes a fragment a leaf: it splits the leaf around it, or
    takes a split around it apart in two, and merges what is split below it.
    On the way the tree is not well-formed, so that its assertions are
    discharged for bounded trees. *)

From stdpp Require Import gmap.
From S2P Require Import Prelude Frag FragSpec FragTree FragOps.
Open Scope Z_scope.

Lemma anc_valid_r f g : valid f -> anc f g -> 0 <= bits f <= bits g.
Proof. intros Hf [? _]. pose proof (bits_valid f Hf). lia. Qed.

Lemma anc_eq_root x : valid x -> anc x 0 -> 0 = x.
Proof. intros Hx [? _]. symmetry. apply root_bits; [done|]. pose proof (bits_valid x Hx). change (bits 0) with 0 in *. lia. Qed.

(** ** Merging all below a fragment *)

Lemma nodes_delete T t d f : (tree_nodes (delete t T) d f <= tree_nodes T d f)%nat.
Proof.
  revert f. induction d as [|d IH]; intros f; cbn [tree_nodes]; [done|]. apply le_n_S. destruct (decide (t = f)) as [<-|Hn].
  - rewrite get_split_delete. cbn. lia.
  - rewrite get_split_delete_ne by done. destruct (_ && _); [|done]. destruct (frag_split f _) as [l| |]; [|done..]. apply sum_le. intros x _. apply IH.
Qed.

(** What is below a fragment that is not around [t] does not depend on [t]. *)
Lemma reach_delete T t u g : bounded T -> valid t -> valid u -> ~ anc u t -> reach (delete t T) u g <-> reach T u g.
Proof.
  intros HT Ht Hu Hn. assert (forall v, valid v -> ~ anc v t -> get_split (delete t T) v = get_split T v) as Hsame.
  { intros v Hv Ha. apply get_split_delete_ne. intros <-. by apply Ha, anc_refl. }
  assert (forall c v, get_split T v <> 0 -> c ∈ children v (get_split T v) -> ~ anc v t -> valid c /\ ~ anc c t) as Hdown.
  { intros c v Hv (Hc & Hvc & _)%split_children Ha; [|done..]. split; [done|]. intros Hct. apply Ha. eapply anc_trans; try done. by apply (split_bounds T HT). }
  split; intros Hr; revert Hu Hn; induction Hr as [|u c g Hs Hc Hr IH]; intros Hu Hn; try constructor.
  - rewrite Hsame in Hs, Hc by done. eapply reach_step; [done|done|]. destruct (Hdown c u Hs Hc Hn). by apply IH.
  - destruct (Hdown c u Hs Hc Hn). eapply reach_step; [by rewrite Hsame|by rewrite Hsame|by apply IH].
Qed.

(** [hoover] takes the splits away that are at and below the stack. *)
Lemma hoover_spec fuel s T : bounded T -> Forall valid s -> apart s -> (sum_list (map (weight T) s) < fuel)%nat ->
  exists T', hoover fuel s T = Ret T' /\ bounded T' /\
    (forall g t, t ∈ s -> reach T t g -> get_split T' g = 0) /\ (forall g, (forall t, t ∈ s -> ~ reach T t g) -> get_split T' g = get_split T g).
Proof.
  revert s T. induction fuel as [|fuel IH]; intros s T HT Hs Hap Hf; [lia|]. cbn [hoover]. destruct s as [|t s].
  { exists T. split_and!; [done|done|by intros ? ? ?%not_elem_of_nil|done]. }
  inversion Hs as [|? ? Ht Hs']; subst. inversion Hap as [|? ? Hts Hap']; subst. cbn [map sum_list] in Hf. pose proof (weight_pos T t) as Hwt. destruct (Z.eqb_spec (get_split T t) 0) as [E0|E0]; cbn [negb].
  { destruct (IH s T HT Hs' Hap' ltac:(cbn in Hf; lia)) as (T' & E & HB & H0 & H1). exists T'. split_and!; [done|done| |].
    - intros g u [->|Hu]%elem_of_cons Hr; [|by eapply H0]. apply reach_leaf in Hr as ->; [|done]. rewrite H1; [done|]. intros u Hu Hr. eapply list_relations.list.Forall_forall in Hts; [|exact Hu]. eapply list_relations.list.Forall_forall in Hs'; [|exact Hu]. apply Hts. right. by apply (reach_anc T HT).
    - intros g Hg. apply H1. intros u Hu. apply Hg. by right. }
  assert (merge t (get_split T t) false T = Ret (delete t T)) as ->.
  { unfold merge. rewrite is_leaf_false by (done || by intros (_ & ? & _)). cbn [rbind rassert negb]. by rewrite Z.eqb_refl. }
  cbn [rbind]. rewrite push_spec by done. cbn [rbind]. set (s' := rev_append (children t (get_split T t)) s).
  assert (forall u, u ∈ s' -> u ∈ children t (get_split T t) \/ u ∈ s) as Hs'in.
  { intros u. unfold s'. rewrite rev_append_rev, elem_of_app. intros [Hu|Hu]; [left|by right]. by apply list_elem_of_In, in_rev, list_elem_of_In in Hu. }
  assert (forall u, u ∈ s' -> valid u /\ ~ anc u t) as Hs'ok.
  { intros u Hu. destruct (Hs'in u Hu) as [Hc|Hc].
    - apply split_children in Hc as (? & _ & Eb); [|done..]. split; [done|]. intros [? _]. destruct (split_bounds T HT t E0) as (_ & ? & _). lia.
    - eapply list_relations.list.Forall_forall in Hs'; [|exact Hc]. eapply list_relations.list.Forall_forall in Hts; [|exact Hc]. split; [done|]. intros Ha. apply Hts. by right. }
  pose proof (bounded_delete T t HT) as HTd. assert (Forall valid s') as Hs'v by (apply list_relations.list.Forall_forall; intros u Hu; by apply Hs'ok).
  assert (forall u g, u ∈ s' -> reach (delete t T) u g <-> reach T u g) as Hreach by (intros u g Hu; destruct (Hs'ok u Hu); by apply reach_delete).
  destruct (IH s' (delete t T) HTd Hs'v) as (T' & E & HB & H0 & H1); [by apply apart_children| |].
  { assert (sum_list (map (weight (delete t T)) s') <= sum_list (map (weight T) s'))%nat by (apply sum_le; intros; apply nodes_delete). unfold s' in *. rewrite (sum_rev_append (weight T)) in *. pose proof (weight_split T HT t E0). cbn in Hf. lia. }
  exists T'. split_and!; [done|done| |].
  - intros g u Hu Hr. assert (forall w, w ∈ s' -> reach T w g -> get_split T' g = 0) as H0' by (intros w Hw Hwr; eapply H0; [exact Hw|by apply Hreach]).
    apply elem_of_cons in Hu as [->|Hu]; [|eapply H0'; [|done]; unfold s'; rewrite rev_append_rev; apply elem_of_app; by right]. inversion Hr as [|c ? _ Hc Hr']; subst.
    + rewrite H1; [apply get_split_delete|]. intros w Hw Hwr. destruct (Hs'ok w Hw) as [? Hn]. by apply Hn, (reach_anc (delete g T) HTd).
    + eapply H0'; [|exact Hr']. unfold s'. rewrite rev_append_rev. apply elem_of_app. left. by apply list_elem_of_In, in_rev; rewrite rev_involutive; apply list_elem_of_In.
  - intros g Hg. rewrite H1.
    + apply get_split_delete_ne. intros <-. apply (Hg t); [by left|constructor].
    + intros w Hw Hwr%Hreach; [|done]. destruct (Hs'in w Hw) as [Hc|Hw']; [apply (Hg t); [by left|by eapply reach_step]|apply (Hg w); [by right|done]].
Qed.

(** ** A fragment of a well-formed tree becomes a leaf *)

Section finish.
Context (T : fragtree_t) (HT : wf_tree T) (x : Z) (Hx : valid x) (Nx : node T x).

Lemma finish_spec : exists T', finish_leaf x T = Ret (true, T') /\ wf_tree T' /\ forall g, leaf T' g <-> g = x \/ (leaf T g /\ ~ anc x g).
Proof using HT Hx Nx.
  pose proof (wf_bounded T HT) as HB. destruct (hoover_spec (walk_fuel T x) [x] T HB) as (T' & E & HB' & H0 & H1); [by constructor|by repeat constructor|cbn; pose proof (weight_fuel T x Hx); lia|].
  assert (forall g, valid g -> anc x g -> get_split T' g = 0) as Hin.
  { intros g Hg Ha. destruct (decide (get_split T g = 0)) as [E0|Hs]; [|apply (H0 g x); [by left|]; apply (node_reach T HT); try done; by apply HT].
    destruct (decide (get_split T' g = 0)) as [|Hn]; [done|]. exfalso. apply Hn. rewrite H1; [done|]. intros t ->%list_elem_of_singleton Hr. apply Hn. apply (H0 g x); [by left|done]. }
  assert (forall g, ~ anc x g -> get_split T' g = get_split T g) as Hout by (intros g Ha; apply H1; intros t ->%list_elem_of_singleton Hr; by apply Ha, (reach_anc T HB)).
  assert (forall h, get_split T' h <> 0 -> valid h /\ ~ anc x h /\ get_split T h <> 0) as Hsplit.
  { intros h Hh. destruct (split_bounds T' HB' h Hh) as (Hv & _ & _). assert (~ anc x h) as Hn by (intros Ha; by apply Hh, Hin). split_and!; [done|done|]. by rewrite <- Hout. }
  assert (forall h g, valid h -> valid g -> anc h g -> ~ anc x g -> ~ anc x h) as Hup by (intros h g Hh Hg Hhg Hn Hxh; apply Hn; by eapply anc_trans).
  assert (wf_tree T') as HT'.
  { split; [done|]. intros f Hf. destruct (Hsplit f Hf) as (Hv & Hn & Hs). destruct (wf_node T HT f Hs) as [->|(h & Hh & Ha & Eb)]; [by left|right]. exists h.
    destruct (split_bounds T HB h Hh) as (Hhv & _ & _). rewrite Hout by (by apply (Hup h f)). done. }
  assert (forall g, leaf T' g <-> g = x \/ (leaf T g /\ ~ anc x g)) as Hleaf.
  { intros g. rewrite (leaf_node T' HT'), (leaf_node T HT). split.
    - intros (Hg & Eg & Ng). destruct (decide (g = x)) as [|Hne]; [by left|right]. assert (~ anc x g) as Hn; [|rewrite Hout in Eg by done; split; [split_and!; [done|done|]|done]].
      + intros Ha. destruct Ng as [->|(h & Hh & Hhg & Eb)]; [apply Hne, anc_eq_root; done|]. destruct (Hsplit h Hh) as (Hhv & Hnh & Hs).
        destruct (nested_anc x h g) as [?|Hhx]; try done. destruct (laminar T HT h x) as [_ Hle]; try done; [by apply HT|by intros ->; apply Hnh, anc_refl|].
        apply Hne. symmetry. apply anc_eq; try done. destruct Ha. rewrite Hout in Eb by done. lia.
      + destruct Ng as [->|(h & Hh & Hhg & Eb)]; [by left|right]. destruct (Hsplit h Hh) as (Hhv & Hnh & Hs). exists h. by rewrite <- Hout.
    - intros [->|((Hg & Eg & Ng) & Hn)].
      + split_and!; [done|by apply Hin; [|apply anc_refl]|]. destruct Nx as [->|(h & Hh & Hhx & Eb)]; [by left|right]. destruct (split_bounds T HB h Hh) as (Hhv & Hp & _). exists h.
        rewrite Hout; [done|]. intros [? _]. lia.
      + split_and!; [done|by rewrite Hout|]. destruct Ng as [->|(h & Hh & Hhg & Eb)]; [by left|right]. destruct (split_bounds T HB h Hh) as (Hhv & _ & _). exists h. rewrite Hout by (by apply (Hup h g)). done. }
  exists T'. split_and!; [|done|done]. unfold finish_leaf. rewrite E. cbn [rbind]. rewrite is_leaf_true by (done || (apply Hleaf; by left)). done.
Qed.
End finish.

(** ** A split taken apart *)

Section apart.
Context (T : fragtree_t) (HT : wf_tree T) (a nb k : Z) (Hs : get_split T a = nb) (Hk : 0 < k < nb).
Let HB : bounded T := wf_bounded T HT.

Lemma apart_bounds : valid a /\ bits a + nb <= 24 /\ node T a.
Proof using HT HB Hs Hk. destruct (split_bounds T HB a ltac:(lia)) as (? & ? & ?). split_and!; [done|lia|]. apply HT. lia. Qed.

(** Only [a] itself is split among what is around a fragment above its own. *)
Lemma no_split_between s f : valid s -> valid f -> anc a f -> bits f < bits a + nb -> anc s f -> get_split T s <> 0 -> bits s <= bits a.
Proof using HT HB Hs Hk.
  intros Hv Hf Haf Hlt Hsf Hss. destruct apart_bounds as (Ha & _ & Na). destruct (Z.le_gt_cases (bits s) (bits a)) as [|Hgt]; [done|]. exfalso.
  assert (anc a s) by (eapply (anc_nested a s f); done || lia). destruct (laminar T HT a s) as [_ Hle]; try done; [by apply HT|by intros ->; lia|]. destruct Hsf. lia.
Qed.

(** The tree while the fragments of [a] are split again, [l] being left. *)
Record resplit (l : list Z) (R : fragtree_t) : Prop := Resplit {
  rs_bounded : bounded R;
  rs_a : get_split R a = k;
  rs_todo : forall c, c ∈ l -> get_split R c = 0;
  rs_done : forall c, c ∈ children a k -> c ∉ l -> get_split R c = nb - k;
  rs_other : forall f, f <> a -> f ∉ children a k -> get_split R f = get_split T f;
}.

Lemma resplit_leaf f l R : f ∈ children a k -> f ∈ l -> resplit l R -> leaf R f.
Proof using HT HB Hs Hk.
  intros Hf Hl [Rb Ra Rt Rd Ro]. destruct apart_bounds as (Ha & Hb & Na). pose proof (proj1 (elem_of_children a k f Ha ltac:(lia) ltac:(lia)) Hf) as (Hv & Haf & Eb).
  split_and!; [done|by apply Rt|right]. exists a. split_and!; [done|done|lia|lia|]. intros s Hsv Hsf Hss. destruct (decide (s = a)) as [->|Hn]; [done|].
  destruct (decide (s ∈ children a k)) as [Hc|Hc]; [|rewrite Ro in Hss by done; apply (no_split_between s f); done || lia].
  pose proof (proj1 (elem_of_children a k s Ha ltac:(lia) ltac:(lia)) Hc) as (_ & _ & Es). apply anc_eq in Hsf as ->; [by rewrite Rt in Hss|done|done|lia].
Qed.

Lemma split_each_spec l R : (forall c, c ∈ l -> c ∈ children a k) -> NoDup l -> resplit l R ->
  exists R', split_each l (nb - k) R = Ret R' /\ resplit [] R'.
Proof using HT HB Hs Hk.
  destruct apart_bounds as (Ha & Hb & Na). revert R. induction l as [|f l IH]; intros R Hl Hnd HR; [by exists R|]. inversion Hnd as [|? ? Hfl Hnd']; subst. assert (f ∈ children a k) as Hf by (apply Hl; by left).
  pose proof (proj1 (elem_of_children a k f Ha ltac:(lia) ltac:(lia)) Hf) as (Hv & Haf & Eb). pose proof HR as [Rb Ra Rt Rd Ro].
  cbn [split_each]. unfold split. rewrite is_leaf_true by (done || (eapply resplit_leaf; [done| |done]; by left)). cbn [rbind rassert]. apply IH; [intros; apply Hl; by right|done|]. split.
  - apply bounded_insert; done || lia.
  - rewrite get_split_insert_ne; [done|]. intros ->. lia.
  - intros c Hc. rewrite get_split_insert_ne by (intros ->; done). apply Rt. by right.
  - intros c Hc Hcl. destruct (decide (f = c)) as [<-|Hn]; [apply get_split_insert|]. rewrite get_split_insert_ne by done. apply Rd; [done|]. intros [|]%elem_of_cons; congruence.
  - intros g Hg Hgc. rewrite get_split_insert_ne by (intros ->; done). by apply Ro.
Qed.

Lemma take_apart : exists T', wf_tree T' /\ (forall g, leaf T' g <-> leaf T g) /\ node T' a /\ (forall c, c ∈ children a k -> node T' c) /\
  forall (B : Type) (K : fragtree_t -> res B),
  (splits <~ merge a nb false T;; splits <~ split a k false splits;; subs <~ frag_split a k;; splits <~ split_each subs (s32 (nb - k)) splits;; K splits) = K T'.
Proof using HT HB Hs Hk.
  destruct apart_bounds as (Ha & Hb & Na). assert (leaf (delete a T) a) as Hleaf.
  { split_and!; [done|apply get_split_delete|]. destruct Na as [->|(h & Hh & Hha & Eb)]; [by left|right]. destruct (split_bounds T HB h Hh) as (Hhv & Hp & _). assert (a <> h) as Hne by (intros <-; lia).
    exists h. rewrite get_split_delete_ne by done. split_and!; try done. intros s Hv Hsa Hss. destruct (decide (a = s)) as [<-|Hn]; [by rewrite get_split_delete in Hss|]. rewrite get_split_delete_ne in Hss by done.
    destruct (Z.le_gt_cases (bits s) (bits h)) as [|Hgt]; [done|]. exfalso. assert (anc h s) by (eapply (anc_nested h s a); done || lia). destruct (laminar T HT h s) as [_ Hle]; try done; [by apply HT|by apply HT|by intros ->; lia|].
    apply Hn. symmetry. apply anc_eq; try done. destruct Hsa. lia. }
  assert (resplit (children a k) (<[a := k]> (delete a T))) as H0.
  { assert (forall f, a <> f -> get_split (<[a := k]> (delete a T)) f = get_split T f) as Hne by (intros f Hn; rewrite get_split_insert_ne, get_split_delete_ne by done; done). split.
    - apply bounded_insert; [by apply bounded_delete|done|lia|lia].
    - apply get_split_insert.
    - intros c (Hv & Hac & Eb)%elem_of_children; [|done || lia..]. rewrite Hne by (intros <-; lia). destruct (decide (get_split T c = 0)) as [|Hsc]; [done|].
      exfalso. pose proof (no_split_between c c Hv Hv Hac ltac:(lia) ltac:(by apply anc_refl) Hsc). lia.
    - done.
    - intros f Hn _. by apply Hne. }
  destruct (split_each_spec (children a k) _ ltac:(done) ltac:(apply children_nodup; done || lia) H0) as (T' & E & [Rb Ra Rt Rd Ro]).
  assert (two_step T' T a k (nb - k)) as H2.
  { split; try done; try lia; [intros c Hc; apply Rd; [done|apply not_elem_of_nil]|]. intros c Hc%elem_of_children; [|done || lia..]. destruct Hc as (Hv & Hac & Eb). destruct (decide (get_split T c = 0)) as [|Hsc]; [done|].
    exfalso. pose proof (no_split_between c c Hv Hv Hac ltac:(lia) ltac:(by apply anc_refl) Hsc). lia. }
  assert (wf_tree T') as HT' by (by apply (two_step_wf T' T a k (nb - k) H2 Rb HB)). exists T'. split_and!; [done| |apply (wf_node T' HT'); lia| |].
  - intros g. by apply (two_step_leaf T' T a k (nb - k) H2 Rb HB).
  - intros c Hc. apply (wf_node T' HT'). rewrite Rd by (done || apply not_elem_of_nil). lia.
  - intros B K. unfold merge. rewrite is_leaf_false by (done || by intros (_ & ? & _); lia). cbn [rbind rassert negb]. rewrite Hs, Z.eqb_refl. cbn [rbind rassert].
    unfold split. rewrite is_leaf_true by (done || by apply bounded_delete). cbn [rbind rassert]. rewrite frag_split_spec by (done || lia). cbn [rbind]. pose proof (bits_valid a Ha). rewrite sw_small by (unfold is_s; lia). by rewrite E.
Qed.
End apart.

(** ** [force_to_leaf] *)

Section force.
Context (T : fragtree_t) (HT : wf_tree T) (x : Z) (Hx : valid x).
Let HB : bounded T := wf_bounded T HT.

(** The leaves that a tree with [x] as a leaf has: those beside [x], and the
    fragments of the size of [x] of a leaf that was around it. *)
Definition forced (T' : fragtree_t) : Prop :=
  leaf T' x /\ (forall g, leaf T g -> ~ nested x g -> leaf T' g) /\
  (forall p g, leaf T p -> anc p x -> p <> x -> g ∈ children p (bits x - bits p) -> leaf T' g).

Lemma forced_inside T1 T' : (forall p, leaf T p -> anc p x -> p = x) -> (forall g, leaf T1 g <-> leaf T g) -> (forall g, leaf T' g <-> g = x \/ (leaf T1 g /\ ~ anc x g)) -> forced T'.
Proof using.
  intros Hno H1 H'. split_and!; [apply H'; by left| |].
  - intros g Hg Hn. apply H'. right. rewrite H1. split; [done|]. intros Ha. apply Hn. by left.
  - intros p g Hp Ha Hne _. by destruct Hne; apply Hno.
Qed.

Lemma leaf_around p : leaf T p -> anc p x -> forall a, top_split T a x -> get_split T a <> 0 -> bits x < bits a + get_split T a -> False.
Proof using HT HB Hx.
  intros (Hp & E0 & Np)%(leaf_node T HT) Hpx a (Ha & Hax & _ & _) Hs Hlt. pose proof (wf_node T HT a Hs) as Na. destruct (split_bounds T HB a Hs) as (_ & Hpos & _).
  destruct (nested_anc p a x) as [Hpa|Hap]; try done.
  - destruct (decide (p = a)) as [->|Hn]; [done|]. by destruct (laminar T HT p a).
  - destruct (decide (a = p)) as [->|Hn]; [done|]. destruct (laminar T HT a p) as [_ Hle]; try done. destruct Hpx. lia.
Qed.

Lemma force_split p : leaf T p -> anc p x -> bits p < bits x -> exists T', split p (bits x - bits p) true T = Ret T' /\ wf_tree T' /\ forced T'.
Proof using HT HB Hx.
  intros Hl Hpx Hlt. pose proof (proj1 Hl) as Hp. pose proof (bits_valid p Hp). pose proof (bits_valid x Hx). destruct (split_spec T HT p (bits x - bits p) Hl ltac:(lia) ltac:(lia) true) as (T' & E & HT' & Hleaf).
  exists T'. split; [done|]. split; [done|]. split_and!.
  - apply Hleaf. right. apply elem_of_children; [done|lia|lia|]. split_and!; [done|done|lia].
  - intros g Hg Hn. apply Hleaf. left. split; [done|]. intros ->. apply Hn. by right.
  - intros q g Hq Hqx Hne Hg. assert (q = p) as -> by (by eapply (leaf_unique T HT q p x)). apply Hleaf. by right.
Qed.

Lemma force_spec : exists b T', force_to_leaf x T = Ret (b, T') /\ wf_tree T' /\ forced T' /\ (b = false -> T' = T).
Proof using HT HB Hx.
  unfold force_to_leaf. pose proof (bits_valid x Hx). destruct (is_leaf_spec T HB x Hx) as (l & -> & Hl). cbn [rbind]. destruct l.
  { exists false, T. split_and!; [done|done| |done]. assert (leaf T x) as Hlx by (by apply Hl). split_and!; [done|done|]. intros p g Hp Ha Hne _. destruct Hne. eapply (leaf_unique T HT p x x); try done. by apply anc_refl. }
  assert (~ leaf T x) as Hnl by (intros ?%Hl; done). destruct (branch_or_leaf_spec T HB x Hx) as (a & Htop & ->). pose proof Htop as (Ha & Hax & Hor & Hmax). pose proof (bits_valid a Ha). cbn [rbind].
  (* the case of a leaf around [x] *)
  assert (forall p, leaf T p -> anc p x -> exists b T', (_ <~ rassert (bits p <=? bits x);; if bits p <? bits x then
      let spread := s32 (bits x - bits p) in let nb := get_split T p in
      if nb =? 0 then splits <~ split p spread true T;; l <~ is_leaf splits x;; _ <~ rassert l;; Ret (true, splits)
      else _ <~ rassert (spread <? nb);; splits <~ merge p nb false T;; splits <~ split p spread false splits;; subs <~ frag_split p spread;; splits <~ split_each subs (s32 (nb - spread)) splits;; finish_leaf x splits
      else finish_leaf x T) = Ret (b, T') /\ wf_tree T' /\ forced T' /\ (b = false -> T' = T)) as Hcase.
  { intros p Hp Hpx. pose proof (proj1 Hp) as Hpv. pose proof (bits_valid p Hpv). assert (bits p < bits x) as Hlt.
    { destruct (decide (bits p = bits x)) as [E|]; [|destruct Hpx; lia]. apply anc_eq in Hpx as ->; done. }
    rewrite (proj2 (Z.leb_le _ _)), (proj2 (Z.ltb_lt _ _)) by lia. cbn [rassert rbind]. cbv zeta. rewrite (proj1 (proj2 Hp)). cbn [Z.eqb]. rewrite sw_small by (unfold is_s; lia).
    destruct (force_split p Hp Hpx Hlt) as (T' & -> & HT' & Hf). cbn [rbind]. rewrite (is_leaf_true T' x (wf_bounded T' HT') (proj1 Hf)). cbn [rbind rassert]. exists true, T'. by split_and!. }
  case_bool_decide as Hc.
  - destruct Hc as [Hs Hle]. destruct (split_bounds T HB a Hs) as (_ & Hp & Hb). apply Hcase; [|apply anc_up; done || lia].
    assert (valid (up x (bits a + get_split T a)) /\ bits (up x (bits a + get_split T a)) = bits a + get_split T a /\ anc (up x (bits a + get_split T a)) x) as (Hv & Eb & Hux) by (split_and!; [apply valid_up|apply bits_up|apply anc_up]; done || lia).
    apply (leaf_node T HT). split_and!; [done| |right; exists a; split_and!; [done| |done]; eapply (anc_nested a _ x); done || lia].
    destruct (decide (get_split T (up x (bits a + get_split T a)) = 0)) as [|Hn]; [done|]. specialize (Hmax _ Hv Hux Hn). lia.
  - destruct (decide (get_split T a = 0)) as [E0|Hs].
    { destruct Hor as [->|]; [|done]. apply Hcase; [|done]. apply (leaf_node T HT). split_and!; [done|done|by left]. }
    assert (bits x < bits a + get_split T a) as Hlt by (destruct (Z.lt_ge_cases (bits x) (bits a + get_split T a)); [done|by destruct Hc]). pose proof (anc_valid_r a x Ha Hax) as Hle. clear Hcase.
    assert (forall p, leaf T p -> anc p x -> p = x) as Hno by (intros p Hp Hpx; by destruct (leaf_around p Hp Hpx a Htop Hs Hlt)).
    rewrite (proj2 (Z.leb_le _ _)) by lia. cbn [rassert rbind]. destruct (Z.ltb_spec (bits a) (bits x)) as [Hlt'|Hge].
    + rewrite (proj2 (Z.eqb_neq _ _) Hs). rewrite sw_small by (unfold is_s; lia). rewrite (proj2 (Z.ltb_lt _ _)) by lia. cbn [rassert rbind].
      destruct (take_apart T HT a (get_split T a) (bits x - bits a) eq_refl ltac:(lia)) as (T1 & HT1 & Hleaf1 & _ & Hn1 & ->).
      destruct (split_bounds T HB a Hs) as (_ & _ & Hb24). destruct (finish_spec T1 HT1 x Hx) as (T' & -> & HT' & Hleaf'); [apply Hn1, elem_of_children; [done|lia|lia|]; split_and!; [done|done|lia]|].
      exists true, T'. split_and!; [done|done|by eapply forced_inside|done].
    + assert (a = x) as -> by (apply anc_eq; [done..|lia]). destruct (finish_spec T HT x Hx (wf_node T HT x Hs)) as (T' & -> & HT' & Hleaf'). exists true, T'. split_and!; [done|done|by eapply (forced_inside T)|done].
Qed.
End force.

(** ** [contains] *)

Lemma contains_loop_spec T fuel x s : bounded T -> valid x -> Forall valid s -> apart s -> (sum_list (map (weight T) s) < fuel)%nat ->
  exists b, contains_loop T fuel x s = Ret b /\ (b = true <-> get_split T x = 0 /\ exists t, t ∈ s /\ reach T t x).
Proof.
  intros HT Hx. revert s. induction fuel as [|fuel IH]; intros s Hs Hap Hf; [lia|]. cbn [contains_loop]. destruct s as [|t s].
  { exists false. split; [done|]. split; [done|]. by intros (_ & ? & ?%not_elem_of_nil & _). }
  inversion Hs as [|? ? Ht Hs']; subst. inversion Hap as [|? ? Hts Hap']; subst. cbn [map sum_list] in Hf. pose proof (weight_pos T t) as Hwt.
  assert (forall Q : Prop, (forall u, u ∈ s -> reach T u x -> Q) -> (reach T t x -> Q) -> (exists u, u ∈ t :: s /\ reach T u x) -> Q) as Hcons by (intros Q H1 H2 (u & [->|Hu]%elem_of_cons & Hr); eauto).
  destruct (beside_spec x t Hx Ht) as (b & -> & Hb). cbn [rbind]. destruct b.
  { destruct (IH s Hs' Hap' ltac:(cbn in Hf; lia)) as (b & -> & Hbr). exists b. split; [done|]. rewrite Hbr. split; intros [E He]; (split; [done|]).
    - destruct He as (u & Hu & Hr). exists u. split; [by right|done].
    - revert He. apply Hcons; [eauto|]. intros Hr. exfalso. destruct Hb as [Hb _]. destruct (Hb eq_refl) as [Hle Hn]. apply Hn. apply (reach_anc T HT) in Hr as [_ Ha]; [|done]. eapply (anc_nested x t x); try done. by apply anc_refl. }
  destruct (Z.eqb_spec (get_split T t) 0) as [E0|E0]; cbn [negb]; destruct (Z.eqb_spec t x) as [->|Hn].
  - exists true. split; [done|]. split; [|done]. intros _. split; [done|]. exists x. split; [by left|constructor].
  - destruct (IH s Hs' Hap' ltac:(cbn in Hf; lia)) as (b & -> & Hbr). exists b. split; [done|]. rewrite Hbr. split; intros [E He]; (split; [done|]).
    + destruct He as (u & Hu & Hr). exists u. split; [by right|done].
    + revert He. apply Hcons; [eauto|]. intros Hr. apply reach_leaf in Hr; [congruence|done].
  - exists false. split; [done|]. split; [done|]. by intros [? _].
  - rewrite push_spec by done. cbn [rbind]. destruct (IH (rev_append (children t (get_split T t)) s)) as (b & -> & Hbr).
    + by apply children_valid.
    + by apply apart_children.
    + rewrite sum_rev_append. pose proof (weight_split T HT t E0). cbn in Hf. lia.
    + exists b. split; [done|]. rewrite Hbr. split; intros [E He]; (split; [done|]).
      * destruct He as (u & Hu & Hr). rewrite rev_append_rev in Hu. apply elem_of_app in Hu as [Hu|Hu]; [|exists u; split; [by right|done]]. apply list_elem_of_In, in_rev, list_elem_of_In in Hu. exists t. split; [by left|by eapply reach_step].
      * revert He. apply Hcons; [intros u Hu Hr; exists u; rewrite rev_append_rev; split; [apply elem_of_app; by right|done]|]. intros Hr. inversion Hr as [|c ? _ Hc Hr']; subst; [done|]. exists c. split; [|done].
        rewrite rev_append_rev. apply elem_of_app. left. by apply list_elem_of_In, in_rev; rewrite rev_involutive; apply list_elem_of_In.
Qed.

Lemma tree_contains_spec T x : wf_tree T -> valid x -> tree_contains T x = is_leaf T x.
Proof.
  intros HT Hx. pose proof (wf_bounded T HT) as HB. destruct (is_leaf_spec T HB x Hx) as (l & -> & Hl). unfold tree_contains. destruct (get_branch_spec T x Hx) as (a & -> & Ha & Hax & Hor & _). cbn [rbind].
  destruct (contains_loop_spec T (walk_fuel T a) x [a] HB Hx) as (b & -> & Hb); [by constructor|by repeat constructor|cbn; pose proof (weight_fuel T a Ha); lia|].
  f_equal. apply eq_bool_prop_intro. rewrite !Is_true_true, Hb, Hl, (leaf_node T HT). assert (node T a) as Na by (destruct Hor as [->|]; [by left|by apply HT]). split.
  - intros (E & t & ->%list_elem_of_singleton & Hr). split_and!; [done|done|by eapply reach_node].
  - intros (_ & E & Nx). split; [done|]. exists a. split; [by left|by apply node_reach].
Qed.
