(* ===== verification/FragSet.v ===== *)
(** * Sets of fragments

    [fragset_t::simplify] replaces two halves of a fragment by the fragment
    until no two elements are halves of one.  The set then contains every
    fragment whose hashes it covers. *)

From Stdlib Require Import Sorted.
From stdpp Require Import gmap.
From S2P Require Import Prelude Frag FragSpec FragTree.
Open Scope Z_scope.

(** ** Siblings *)

Lemma lxor_1 i : 0 <= i -> Z.lxor i 1 = i + 1 - 2 * (i mod 2).
Proof.
  intros Hi. assert (forall j, Z.lxor (2 * j) 1 = 2 * j + 1) as He.
  { intros j. symmetry. apply Z.add_nocarry_lxor. change 1 with (Z.ones 1) at 1. rewrite Z.land_ones by lia. change (2 ^ 1) with 2. rewrite Z.mul_comm. apply Z.mod_mul. lia. }
  pose proof (Z.mod_pos_bound i 2 ltac:(lia)). pose proof (Z.div_mod i 2 ltac:(lia)) as Ei. destruct (decide (i mod 2 = 0)) as [E|E].
  - rewrite E in *. replace i with (2 * (i / 2)) at 1 by lia. rewrite He. lia.
  - assert (i mod 2 = 1) as E1 by lia. rewrite E1 in *. replace i with (2 * (i / 2) + 1) at 1 by lia. rewrite <- He, Z.lxor_assoc, Z.lxor_nilpotent, Z.lxor_0_r. lia.
Qed.

Definition half (f : Z) : Z := fr (bits f) (Z.lxor (idx f) 1).

Section half.
Context (f : Z) (Hf : valid f) (Hb : 0 < bits f).

Lemma half_ok : ok_frag (bits f) (Z.lxor (idx f) 1).
Proof using Hf Hb.
  destruct Hf as [[Hbits Hi] _]. rewrite lxor_1 by lia. split; [done|]. assert (2 ^ bits f = 2 * 2 ^ (bits f - 1)) as E by (rewrite <- (Z.pow_succ_r 2 (bits f - 1)) by lia; f_equal; lia).
  pose proof (Z.mod_pos_bound (idx f) 2 ltac:(lia)). pose proof (Z.div_mod (idx f) 2 ltac:(lia)). lia.
Qed.

Lemma half_valid : valid (half f) /\ bits (half f) = bits f /\ idx (half f) = Z.lxor (idx f) 1.
Proof using Hf Hb. split_and!; [apply valid_fr|apply bits_fr|apply idx_fr]; apply half_ok. Qed.

Lemma half_ne : half f <> f.
Proof using Hf Hb. intros E. destruct half_valid as (_ & _ & Ei). rewrite E, lxor_1 in Ei by apply Hf. pose proof (Z.mod_pos_bound (idx f) 2 ltac:(lia)). lia. Qed.

Lemma half_up : up (half f) (bits f - 1) = up f (bits f - 1).
Proof using Hf Hb.
  unfold up. destruct half_valid as (_ & -> & ->). f_equal. replace (bits f - (bits f - 1)) with 1 by lia. change (2 ^ 1) with 2. rewrite lxor_1 by apply Hf.
  pose proof (Z.mod_pos_bound (idx f) 2 ltac:(lia)). pose proof (Z.div_mod (idx f) 2 ltac:(lia)).
  assert (0 <= (1 - idx f mod 2) < 2) by lia. replace (idx f + 1 - 2 * (idx f mod 2)) with ((1 - idx f mod 2) + (idx f / 2) * 2) by lia. rewrite Z.div_add by lia. rewrite Z.div_small by lia. lia.
Qed.

Lemma sibling_spec : get_sibling f = Ret (half f).
Proof using Hf Hb.
  pose proof (bits_valid f Hf) as Hbits. unfold get_sibling, is_root, ceph_frag_sibling. rewrite (proj2 (Z.eqb_neq _ _)) by lia. cbn [negb rassert rbind]. unfold shr. rewrite (proj2 (Z.leb_le _ _)), (proj2 (Z.ltb_lt _ _)) by lia. cbn [andb rbind].
  assert (Z.shiftr 0x1000000 (bits f) = 2 ^ (24 - bits f)) as ->.
  { rewrite Z.shiftr_div_pow2 by lia. change 0x1000000 with (2 ^ 24). symmetry. apply Z.pow_sub_r; lia. }
  rewrite (value_valid f Hf). set (k := 24 - bits f). assert (Z.lxor (idx f * 2 ^ k) (2 ^ k) = Z.lxor (idx f) 1 * 2 ^ k) as ->.
  { rewrite <- !Z.shiftl_mul_pow2 by lia. rewrite Z.shiftl_lxor. do 2 f_equal. rewrite Z.shiftl_mul_pow2 by lia. lia. }
  pose proof (idx_range _ _ half_ok) as Hr. fold k in Hr. rewrite make_spec by lia. fold k. unfold half. do 2 f_equal. rewrite Z.mod_small by done. apply Z.div_mul. assert (0 < 2 ^ k) by (apply Z.pow_pos_nonneg; lia). lia.
Qed.

(** A fragment inside the parent of [f] is in [f] or in its other half. *)
Lemma half_split q : valid q -> bits f <= bits q -> anc (up f (bits f - 1)) q <-> anc f q \/ anc (half f) q.
Proof using Hf Hb.
  intros Hq Hle. destruct half_valid as (Hh & Ebh & Eih). destruct (up_bits_1 f Hf Hb) as (Hp & Ebp & Hpf). assert (anc (up f (bits f - 1)) (half f)) as Hph by (rewrite <- half_up, <- Ebh; by apply up_bits_1; rewrite ?Ebh).
  split; [|by intros [Ha|Ha]; [apply (anc_trans _ f)|apply (anc_trans _ (half f))]]. intros [_ E]. rewrite Ebp in E. set (u := up q (bits f)).
  assert (valid u /\ bits u = bits f /\ anc u q) as (Hu & Ebu & Huq) by (split_and!; [apply valid_up|apply bits_up|apply anc_up]; done || lia).
  assert (idx u / 2 = idx f / 2) as Ei.
  { assert (up u (bits f - 1) = up f (bits f - 1)) as E2 by (unfold u; rewrite up_up by (done || lia); done). apply (f_equal idx) in E2. rewrite !idx_up, Ebu in E2 by (done || lia).
    by replace (bits f - (bits f - 1)) with 1 in E2 by lia. }
  rewrite lxor_1 in Eih by apply Hf. pose proof (Z.mod_pos_bound (idx f) 2 ltac:(lia)). pose proof (Z.mod_pos_bound (idx u) 2 ltac:(lia)). pose proof (Z.div_mod (idx f) 2 ltac:(lia)). pose proof (Z.div_mod (idx u) 2 ltac:(lia)).
  destruct (decide (idx u = idx f)) as [Eu|Nu]; [left|right].
  - assert (f = u) as E2 by (apply frag_eq; done || lia). by rewrite E2.
  - assert (half f = u) as E2 by (apply frag_eq; done || lia). by rewrite E2.
Qed.

(** The encoding of a parent is below that of its halves. *)
Lemma parent_lt : up f (bits f - 1) < f.
Proof using Hf Hb.
  destruct (up_bits_1 f Hf Hb) as (Hp & Ebp & _). pose proof (proj2 Hf) as E. pose proof (proj2 Hp) as Ep. pose proof (idx_range _ _ (proj1 Hf)). pose proof (idx_range _ _ (proj1 Hp)). unfold fr in E, Ep. rewrite Ebp in *. lia.
Qed.
End half.

(** ** Sets *)

Definition incr (s : list Z) : Prop := StronglySorted Z.lt s.
Definition fset (s : fragset_t) : Prop := incr s /\ Forall valid s.

Lemma elem_set_insert f s g : g ∈ set_insert f s <-> g = f \/ g ∈ s.
Proof.
  induction s as [|h s IH]; cbn [set_insert]; [rewrite list_elem_of_singleton; set_solver|]. destruct (f <? h); [set_solver|]. destruct (Z.eqb_spec f h) as [->|]; [set_solver|]. rewrite !elem_of_cons, IH. tauto.
Qed.

Lemma set_insert_incr f s : incr s -> incr (set_insert f s).
Proof.
  induction 1 as [|h s Hs IH Hh]; cbn [set_insert]; [by repeat constructor|]. destruct (Z.ltb_spec f h).
  - constructor; [by constructor|]. constructor; [done|]. eapply list_relations.list.Forall_impl; [exact Hh|]. cbn. lia.
  - destruct (Z.eqb_spec f h) as [->|]; [by constructor|]. constructor; [done|]. apply list_relations.list.Forall_forall. intros g [->|Hg]%elem_set_insert; [lia|]. by eapply list_relations.list.Forall_forall in Hh.
Qed.

Lemma elem_set_erase f s g : g ∈ set_erase f s <-> g ∈ s /\ g <> f.
Proof. unfold set_erase. rewrite !list_elem_of_In, filter_In, negb_true_iff, Z.eqb_neq. intuition congruence. Qed.

Lemma filter_incr p s : incr s -> incr (List.filter p s).
Proof.
  induction 1 as [|h s Hs IH Hh]; cbn [List.filter]; [constructor|]. destruct (p h); [|done]. constructor; [done|]. apply list_relations.list.Forall_forall. intros g Hg%list_elem_of_In%filter_In.
  destruct Hg as [Hg%list_elem_of_In _]. by eapply list_relations.list.Forall_forall in Hh.
Qed.

Lemma set_count_spec f s : set_count f s = true <-> f ∈ s.
Proof. unfold set_count. rewrite existsb_exists. setoid_rewrite Z.eqb_eq. rewrite list_elem_of_In. split; [by intros (? & ? & ->)|by exists f]. Qed.

Lemma fset_insert f s : fset s -> valid f -> fset (set_insert f s).
Proof. intros [Hi Hv] Hf. split; [by apply set_insert_incr|]. apply list_relations.list.Forall_forall. intros g [->|Hg]%elem_set_insert; [done|]. by eapply list_relations.list.Forall_forall in Hv. Qed.

Lemma fset_erase f s : fset s -> fset (set_erase f s).
Proof. intros [Hi Hv]. split; [by apply filter_incr|]. apply list_relations.list.Forall_forall. intros g [Hg _]%elem_set_erase. by eapply list_relations.list.Forall_forall in Hv. Qed.

(** The elements from [p] on, the measure of a pass. *)
Definition from (p : Z) (s : fragset_t) : list Z := List.filter (fun g => p <=? g) s.

Lemma set_after_spec p s : incr s ->
  match set_after p s with
  | None => forall g, g ∈ s -> g <= p
  | Some n => n ∈ s /\ p < n /\ forall g, g ∈ s -> p < g -> n <= g
  end.
Proof.
  intros Hs. unfold set_after. assert (forall g, g ∈ List.filter (fun g => p <? g) s <-> g ∈ s /\ p < g) as Hin by (intros g; rewrite !list_elem_of_In, filter_In, Z.ltb_lt; done).
  pose proof (filter_incr (fun g => p <? g) s Hs) as Hf. destruct (List.filter (fun g => p <? g) s) as [|n l]; cbn [head].
  - intros g Hg. destruct (Z.le_gt_cases g p) as [|Hgt]; [done|]. assert (g ∈ []) as []%not_elem_of_nil by (apply Hin; split; [done|lia]).
  - destruct (proj1 (Hin n) ltac:(left)) as [Hn Hp]. split_and!; [done|done|]. intros g Hg Hpg. assert (g ∈ n :: l) as [->|Hgl]%elem_of_cons by (by apply Hin); [lia|].
    inversion Hf as [|? ? _ Hall]; subst. eapply list_relations.list.Forall_forall in Hall; [|exact Hgl]. cbn in Hall. lia.
Qed.

Definition covers (s : fragset_t) (q : Z) : Prop := exists g, g ∈ s /\ anc g q.

Lemma elem_from p s g : g ∈ from p s <-> g ∈ s /\ p <= g.
Proof. unfold from. rewrite !list_elem_of_In, filter_In, Z.leb_le. done. Qed.

Lemma incr_nodup s : incr s -> NoDup s.
Proof. induction 1 as [|h s Hs IH Hh]; constructor; [|done]. intros Hin. eapply list_relations.list.Forall_forall in Hh; [|exact Hin]. cbn in Hh. lia. Qed.

Lemma erase_length f s : f ∈ s -> (S (length (set_erase f s)) <= length s)%nat.
Proof.
  unfold set_erase. induction s as [|g s IH]; [by intros ?%not_elem_of_nil|]. pose proof (filter_length_le (fun g => negb (f =? g)) s).
  intros [->|Hin]%elem_of_cons; cbn [List.filter length]; [rewrite Z.eqb_refl; cbn; lia|]. specialize (IH Hin). destruct (negb (f =? g)); cbn [length]; lia.
Qed.

Lemma insert_length f s : (length (set_insert f s) <= S (length s))%nat.
Proof. induction s as [|g s IH]; cbn [set_insert length]; [done|]. destruct (f <? g); [done|]. destruct (f =? g); cbn [length]; lia. Qed.

(** What is behind [p] in a set that got only smaller elements is less than
    what was from [p] on. *)
Lemma from_after p n s s' : incr s -> incr s' -> p ∈ s -> p < n -> (forall g, g ∈ s' -> p < g -> g ∈ s) -> (length (from n s') < length (from p s))%nat.
Proof.
  intros Hs Hs' Hp Hn Hin. change (length (p :: from n s') <= length (from p s))%nat. apply NoDup_incl_length.
  - apply NoDup_ListNoDup. constructor; [|apply incr_nodup; by apply filter_incr]. intros [_ ?]%elem_from. lia.
  - intros g Hg. apply list_elem_of_In in Hg. apply list_elem_of_In, elem_from. apply elem_of_cons in Hg as [->|[Hg Hng]%elem_from]; [split; [done|lia]|split; [apply Hin; [done|lia]|lia]].
Qed.

(** ** [simplify] *)

Section join.
Context (p : Z) (s : fragset_t) (Hs : fset s) (Hp : p ∈ s) (Hb : 0 < bits p) (Hsib : half p ∈ s).

Let par : Z := up p (bits p - 1).
Let s1 : fragset_t := set_insert par (set_erase (half p) s).

Lemma join_valid : valid p.
Proof using Hs Hp. by eapply list_relations.list.Forall_forall in Hp; [|apply Hs]. Qed.

Lemma join_elem g : g ∈ set_erase p s1 <-> (g = par \/ g ∈ s) /\ g <> p /\ g <> half p.
Proof using Hs Hp Hb.
  unfold s1. rewrite elem_set_erase, elem_set_insert, elem_set_erase. pose proof (parent_lt p join_valid Hb) as Hlt. fold par in Hlt.
  assert (par <> half p). { intros E. destruct (half_valid p join_valid Hb) as (_ & Eb & _). destruct (up_bits_1 p join_valid Hb) as (_ & Eb' & _). fold par in Eb'. rewrite E in Eb'. lia. }
  split; [intros [[->|[? ?]] ?]; split; [by left|split; [lia|done]|by right|done]|]. intros ([->|Hg] & H1 & H2); (split; [|done]); [by left|by right].
Qed.

Lemma join_fset : fset s1 /\ fset (set_erase p s1).
Proof using Hs Hp Hb. assert (fset s1) by (apply fset_insert; [by apply fset_erase|]; apply up_bits_1; [apply join_valid|done]). split; [done|by apply fset_erase]. Qed.

Lemma join_covers q : valid q -> bits q = 24 -> covers (set_erase p s1) q <-> covers s q.
Proof using Hs Hp Hb Hsib.
  intros Hq E. pose proof join_valid as Hv. pose proof (bits_valid p Hv). pose proof (half_split p Hv Hb q Hq ltac:(lia)) as Hh. fold par in Hh. unfold covers. split.
  - intros (g & Hg & Ha). apply join_elem in Hg as ([->|Hg] & _ & _); [apply Hh in Ha as [Ha|Ha]; eauto|eauto].
  - intros (g & Hg & Ha). destruct (decide (g = p)) as [->|Hn1]; [|destruct (decide (g = half p)) as [->|Hn2]].
    1, 2: exists par; split; [apply join_elem; split; [by left|]; pose proof (proj1 (join_elem par)); pose proof (parent_lt p Hv Hb) as Hlt; fold par in Hlt; split; [lia|];
      intros E2; destruct (half_valid p Hv Hb) as (_ & Eb & _); destruct (up_bits_1 p Hv Hb) as (_ & Eb' & _); fold par in Eb'; rewrite E2 in Eb'; lia|apply Hh; tauto].
    exists g. split; [|done]. apply join_elem. split; [by right|done].
Qed.

Lemma join_length : (length (set_erase p s1) < length s)%nat.
Proof using Hs Hp Hb Hsib.
  pose proof (erase_length (half p) s Hsib). pose proof (insert_length par (set_erase (half p) s)) as Hi. fold s1 in Hi. assert (p ∈ s1) as Hin.
  { unfold s1. apply elem_set_insert. right. apply elem_set_erase. split; [done|]. intros E. symmetry in E. by apply half_ne in E; [|apply join_valid|]. }
  pose proof (erase_length p s1 Hin). lia.
Qed.
End join.

Lemma simplify_pass_spec fuel p clean s : fset s -> match p with Some p => p ∈ s /\ (length (from p s) < fuel)%nat | None => (0 < fuel)%nat end ->
  exists c s', simplify_pass fuel p clean s = Ret (c, s') /\ fset s' /\ (forall q, valid q -> bits q = 24 -> covers s' q <-> covers s q) /\ (length s' <= length s)%nat /\
    (c = false -> clean = false \/ (length s' < length s)%nat) /\
    (c = true -> clean = true /\ s' = s /\ match p with Some p => forall g, g ∈ s -> p <= g -> 0 < bits g -> half g ∉ s | None => True end).
Proof.
  revert p clean s. induction fuel as [|fuel IH]; intros p clean s Hs Hp; [destruct p; [destruct Hp|]; lia|]. cbn [simplify_pass]. destruct p as [p|]; [|exists clean, s; split_and!; first [done|by left|by intros ->]].
  destruct Hp as [Hp Hf]. assert (valid p) as Hv by (eapply list_relations.list.Forall_forall in Hp; [done|apply Hs]). assert (forall n s', incr s' -> p < n -> (forall g, g ∈ s' -> p < g -> g ∈ s) -> (length (from n s') < fuel)%nat) as Hfuel.
  { intros n s' Hs' Hn Hin. pose proof (from_after p n s s' (proj1 Hs) Hs' Hp Hn Hin). lia. }
  assert (0 < fuel)%nat as H0. { assert (p ∈ from p s) as Hin by (apply elem_from; split; [done|lia]). destruct (from p s); [by apply not_elem_of_nil in Hin|]. cbn in Hf. lia. }
  (* a step without a join *)
  assert ((0 < bits p -> half p ∉ s) -> exists c s', simplify_pass fuel (set_after p s) clean s = Ret (c, s') /\ fset s' /\ (forall q, valid q -> bits q = 24 -> covers s' q <-> covers s q) /\ (length s' <= length s)%nat /\
    (c = false -> clean = false \/ (length s' < length s)%nat) /\ (c = true -> clean = true /\ s' = s /\ forall g, g ∈ s -> p <= g -> 0 < bits g -> half g ∉ s)) as Hnext.
  { intros Hno. pose proof (set_after_spec p s (proj1 Hs)) as Ha. destruct (IH (set_after p s) clean s Hs) as (c & s' & E & H1 & H2 & H3 & H4 & H5).
    { destruct (set_after p s) as [n|]; [destruct Ha as (? & ? & ?); split; [done|by apply Hfuel; [apply Hs|..]]|done]. }
    exists c, s'. split_and!; try done. intros Ec. destruct (H5 Ec) as (? & ? & Hall). split_and!; [done|done|]. intros g Hg Hpg Hbg. destruct (decide (g = p)) as [->|Hne]; [by apply Hno|].
    destruct (set_after p s) as [n|]; [apply Hall; try done; apply Ha; [done|lia]|specialize (Ha g Hg); lia]. }
  unfold is_root. destruct (Z.eqb_spec (bits p) 0) as [Eb|Nb]; [cbn [rbind]; apply Hnext; lia|]. pose proof (bits_valid p Hv). rewrite sibling_spec by (done || lia). cbn [rbind].
  destruct (set_count (half p) s) eqn:Ec; [apply set_count_spec in Ec|cbn [rbind]; apply Hnext; intros _ Hin%set_count_spec; congruence]. cbn [rbind]. rewrite frag_parent_spec by (done || lia). cbn [rbind].
  destruct (join_fset p s Hs Hp ltac:(lia)) as [Hs1 Hs2]. pose proof (join_length p s Hs Hp ltac:(lia) Ec) as Hlen. pose proof (join_covers p s Hs Hp ltac:(lia) Ec) as Hcov. pose proof (join_elem p s Hs Hp ltac:(lia)) as Hel.
  set (s1 := set_insert _ (set_erase (half p) s)) in *. pose proof (parent_lt p Hv ltac:(lia)) as Hlt. pose proof (set_after_spec p s1 (proj1 Hs1)) as Ha.
  destruct (IH (set_after p s1) false (set_erase p s1) Hs2) as (c & s' & E & H1 & H2 & H3 & H4 & H5).
  { destruct (set_after p s1) as [n|]; [|done]. destruct Ha as (Hn & Hpn & _). split; [apply elem_set_erase; split; [done|lia]|]. apply Hfuel; [apply Hs2|done|]. intros g Hg Hpg. apply Hel in Hg as ([->|?] & _); [lia|done]. }
  exists c, s'. split_and!; [done|done|intros q Hq Eq; rewrite H2, Hcov by done; done|lia|right; lia|]. intros E1. by destruct (H5 E1).
Qed.

Definition no_halves (s : fragset_t) : Prop := forall g, g ∈ s -> 0 < bits g -> half g ∉ s.

Lemma simplify_spec s : fset s -> exists s', simplify s = Ret s' /\ fset s' /\ no_halves s' /\ forall q, valid q -> bits q = 24 -> covers s' q <-> covers s q.
Proof.
  unfold simplify. assert (forall fuel s, fset s -> (length s < fuel)%nat -> exists s', simplify_loop fuel s = Ret s' /\ fset s' /\ no_halves s' /\ forall q, valid q -> bits q = 24 -> covers s' q <-> covers s q) as Hgen; [|intros; apply Hgen; [done|lia]].
  clear s. induction fuel as [|fuel IH]; intros s Hs Hf; [lia|]. cbn [simplify_loop]. destruct (simplify_pass_spec (S (length s)) (head s) true s Hs) as (c & s' & -> & H1 & H2 & H3 & H4 & H5).
  { destruct s as [|p s]; cbn [head]; [lia|]. split; [by left|]. unfold from. apply le_n_S. apply filter_length_le. }
  cbn [rbind]. destruct c.
  - destruct (H5 eq_refl) as (_ & -> & Hall). exists s. split_and!; try done. intros g Hg Hb. destruct s as [|p s]; [by apply not_elem_of_nil in Hg|]. apply Hall; try done. apply elem_of_cons in Hg as [->|Hg]; [lia|].
    destruct Hs as [Hi _]. inversion Hi as [|? ? _ Hh]; subst. eapply list_relations.list.Forall_forall in Hh; [|exact Hg]. cbn in Hh. lia.
  - destruct (H4 eq_refl) as [?|Hlt]; [done|]. destruct (IH s' H1 ltac:(lia)) as (s'' & -> & ? & ? & Hc). exists s''. split_and!; try done. intros q Hq Eq. rewrite Hc, H2 by done. done.
Qed.

(** ** [contains] *)

Lemma set_contains_spec s f : fset s -> valid f -> exists b, set_contains s f = Ret b /\ (b = true <-> covers s f).
Proof.
  intros Hs. unfold set_contains. assert (forall fuel f, valid f -> bits f < Z.of_nat fuel -> exists b, set_contains_loop fuel s f = Ret b /\ (b = true <-> covers s f)) as Hgen.
  2: { intros Hf. apply Hgen; [done|]. pose proof (bits_valid f Hf). unfold path_fuel. lia. }
  clear f. induction fuel as [|fuel IH]; intros f Hf Hlt; [pose proof (bits_valid f Hf); lia|]. cbn [set_contains_loop]. destruct (set_count f s) eqn:Ec.
  - apply set_count_spec in Ec. exists true. split; [done|]. split; [|done]. intros _. exists f. split; [done|by apply anc_refl].
  - assert (f ∉ s) as Hn by (intros Hin%set_count_spec; congruence). destruct (Z.eqb_spec (bits f) 0) as [Eb|Nb].
    + exists false. split; [done|]. split; [done|]. intros (g & Hg & Ha). exfalso. apply Hn. apply root_bits in Eb as ->; [|done]. assert (valid g) as Hgv by (eapply list_relations.list.Forall_forall in Hg; [done|apply Hs]).
      replace 0 with g; [done|]. apply root_bits; [done|]. destruct Ha as [? _]. pose proof (bits_valid g Hgv). change (bits 0) with 0 in *. lia.
    + pose proof (bits_valid f Hf). rewrite frag_parent_spec by (done || lia). cbn [rbind]. destruct (up_bits_1 f Hf ltac:(lia)) as (Hp & Ebp & Hpf). destruct (IH _ Hp ltac:(lia)) as (b & -> & Hb). exists b. split; [done|]. rewrite Hb. unfold covers. split.
      * intros (g & Hg & Ha). exists g. split; [done|]. assert (valid g) as Hgv by (eapply list_relations.list.Forall_forall in Hg; [done|apply Hs]). by eapply anc_trans.
      * intros (g & Hg & Ha). assert (valid g) as Hgv by (eapply list_relations.list.Forall_forall in Hg; [done|apply Hs]). destruct (anc_parent g f Hgv Hf ltac:(lia) Ha) as [->|]; [done|eauto].
Qed.

(** A set without two halves of one fragment contains what it covers. *)
Lemma covers_whole s f : fset s -> no_halves s -> valid f -> (forall q, valid q -> bits q = 24 -> anc f q -> covers s q) -> covers s f.
Proof.
  intros Hs Hno. remember (Z.to_nat (24 - bits f)) as n eqn:En. revert f En. induction n as [|n IH]; intros f En Hf Hall; pose proof (bits_valid f Hf) as Hbits.
  { apply Hall; [done|lia|by apply anc_refl]. }
  assert (forall g, g ∈ s -> valid g) as Hsv by (intros g Hg; eapply list_relations.list.Forall_forall in Hg; [done|apply Hs]).
  assert (forall i, 0 <= i < 2 -> let c := child f 1 i in valid c /\ bits c = bits f + 1 /\ anc f c /\ covers s c) as Hchild.
  { intros i Hi c. assert (valid c /\ bits c = bits f + 1 /\ anc f c) as (Hc & Eb & Hfc) by (split_and!; [apply valid_child|apply bits_child|apply anc_child]; done || lia || (change (2 ^ 1) with 2; lia)).
    split_and!; [done|done|done|]. apply IH; [lia|done|]. intros q Hq Eq Ha. apply Hall; [done|done|]. by apply (anc_trans _ c). }
  destruct (Hchild 0 ltac:(lia)) as (H0 & E0 & A0 & (g0 & G0 & Ha0)). destruct (Hchild 1 ltac:(lia)) as (H1 & E1 & A1 & (g1 & G1 & Ha1)).
  assert (forall c g, valid c -> bits c = bits f + 1 -> anc f c -> g ∈ s -> anc g c -> g = c \/ anc g f) as Hup.
  { intros c g Hc Eb Hfc Hg Ha. destruct (Z.le_gt_cases (bits g) (bits f)); [right; eapply (anc_nested g f c); auto|left; apply anc_eq; auto; destruct Ha; lia]. }
  destruct (Hup _ _ H0 E0 A0 G0 Ha0) as [->|]; [|by exists g0]. destruct (Hup _ _ H1 E1 A1 G1 Ha1) as [->|]; [|by exists g1]. exfalso. apply (Hno _ G0); [lia|].
  assert (half (child f 1 0) = child f 1 1) as ->; [|done]. unfold half. rewrite E0. unfold child at 2. f_equal. rewrite idx_child by (done || lia || (change (2 ^ 1) with 2; lia)). change (2 ^ 1) with 2.
  destruct Hf as [[_ Hi] _]. rewrite lxor_1 by lia. rewrite Z.add_0_r, Z.mod_mul by lia. lia.
Qed.
