(* ===== verification/FragTheorems.v ===== *)
(** * Theorems on directory fragments *)

From stdpp Require Import gmap.
From S2P Require Import Prelude Frag FragSpec FragTree FragOps FragForce FragSet.
Open Scope Z_scope.

(** Trees that the operations of [fragtree_t] make, each used as its callers
    have to: a leaf is split by a number of bits it has, a split is merged when
    its fragments are leaves. *)
Inductive built : fragtree_t -> Prop :=
  | built_empty : built ∅
  | built_split x b simplify T T' : built T -> valid x -> is_leaf T x = Ret true -> 0 < b -> bits x + b <= 24 ->
      split x b simplify T = Ret T' -> built T'
  | built_merge x b simplify T T' : built T -> b <> 0 -> get_split T x = b -> (forall c, c ∈ children x b -> is_leaf T c = Ret true) ->
      merge x b simplify T = Ret T' -> built T'
  | built_force x r T T' : built T -> valid x -> force_to_leaf x T = Ret (r, T') -> built T'.

Lemma ret_decide (P : Prop) `{Decision P} : Ret (bool_decide P) = Ret true <-> P.
Proof. case_bool_decide; split; done. Qed.

Lemma is_leaf_iff T x : bounded T -> valid x -> is_leaf T x = Ret true <-> leaf T x.
Proof. intros HT Hx. destruct (is_leaf_spec T HT x Hx) as (b & -> & <-). split; [by intros [= ->]|by intros ->]. Qed.

Lemma unsplit_children T x b : wf_tree T -> get_split T x = b -> b <> 0 -> (forall c, c ∈ children x b -> is_leaf T c = Ret true) -> forall c, c ∈ children x b -> get_split T c = 0.
Proof.
  intros HT Hs Hb Hc c Hin. destruct (split_bounds T (wf_bounded T HT) x ltac:(congruence)) as (Hx & ? & ?). pose proof (proj1 (elem_of_children x b c Hx ltac:(lia) ltac:(lia)) Hin) as (Hv & _).
  apply Hc, (is_leaf_iff T c (wf_bounded T HT) Hv) in Hin. apply Hin.
Qed.

Lemma built_wf T : built T -> wf_tree T.
Proof.
  induction 1 as [|x b simp T T' _ IH Hx Hl Hb Hb24 E|x b simp T T' _ IH Hb Hs Hc E|x r T T' _ IH Hx E]; [apply wf_empty| | |].
  - apply (is_leaf_iff T x (wf_bounded T IH) Hx) in Hl. destruct (split_spec T IH x b Hl Hb Hb24 simp) as (T2 & E2 & ? & _). congruence.
  - destruct (merge_spec T IH x b Hs Hb (unsplit_children T x b IH Hs Hb Hc) simp) as (T2 & E2 & ? & _). congruence.
  - destruct (force_spec T IH x Hx) as (r2 & T2 & E2 & ? & _). congruence.
Qed.

(** The fragment of a size around a hash. *)
Lemma make_point b v : 0 <= b <= 24 -> 0 <= v -> ceph_frag_make b v = Ret (up (point v) b).
Proof. intros Hb Hv. rewrite make_spec by done. unfold up. assert (bits (point v) = 24) as -> by apply bits_fr, point_ok. assert (idx (point v) = v mod 2 ^ 24) as -> by apply idx_fr, point_ok. done. Qed.

(** C21. The leaves of a tree partition the hashes: [operator[]] finds, for
    every hash, the one leaf that contains it; [get_leaves_under] finds exactly
    the leaves inside a fragment; [is_leaf] and [contains] say which fragments
    are leaves.  All assertions hold and all walks end. *)
Theorem fragtree_partition (T : fragtree_t) : built T ->
  exists L, get_leaves T [] = Ret L /\ NoDup L /\
    (forall v, 0 <= v < 2 ^ 32 -> exists f, frag_of T v = Ret f /\ f ∈ L /\ forall g, g ∈ L -> ceph_frag_contains_value g v = Ret (bool_decide (g = f))) /\
    (forall x, valid x -> is_leaf T x = Ret (bool_decide (x ∈ L)) /\ tree_contains T x = Ret (bool_decide (x ∈ L)) /\
       exists Lx, get_leaves_under T x [] = Ret Lx /\ NoDup Lx /\ forall g, g ∈ Lx <-> g ∈ L /\ ceph_frag_contains_frag x g = Ret true).
Proof.
  intros HT%built_wf. pose proof (wf_bounded T HT) as HB. destruct (get_leaves_spec T HT []) as (L & E & Hnd & HL). exists L. split_and!; [done|done| |].
  - intros v Hv. destruct (frag_of_spec T HT v ltac:(lia)) as (f & Ef & Hf & Ha). exists f. split_and!; [done|by apply HL|]. intros g Hg%HL. rewrite contains_value_spec by (apply Hg || lia). f_equal.
    apply bool_decide_ext. split; [intros Hga; by apply (leaf_unique T HT g f (point v)); [apply valid_point|..]|by intros ->].
  - intros x Hx. assert (is_leaf T x = Ret (bool_decide (x ∈ L))) as El.
    { destruct (is_leaf_spec T HB x Hx) as (b & -> & Hb). f_equal. apply eq_bool_prop_intro. by rewrite !Is_true_true, bool_decide_eq_true, HL. }
    split_and!; [done|by rewrite tree_contains_spec|]. destruct (leaves_under_spec T HT x [] Hx) as (Lx & -> & Hndx & HLx). exists Lx. split_and!; [done|done|]. intros g. rewrite HLx, HL. split; intros [Hg Ha]; (split; [done|]).
    + rewrite contains_frag_spec by (done || apply Hg). by apply ret_decide.
    + rewrite contains_frag_spec in Ha by (done || apply Hg). by apply ret_decide in Ha.
Qed.

Definition validb (f : Z) : bool := (0 <=? bits f) && (bits f <=? 24) && (0 <=? idx f) && (idx f <? 2 ^ bits f) && (f =? fr (bits f) (idx f)).

Lemma validb_valid f : validb f = true -> valid f.
Proof. unfold validb. rewrite !andb_true_iff, !Z.leb_le, Z.ltb_lt, Z.eqb_eq. intros [[[[? ?] ?] ?] ?]. by repeat split. Qed.

(** The root split by 2 bits and its second quarter by 1. *)
Definition sample_tree : fragtree_t := {[0 := 2; 0x2400000 := 1]}.

Lemma sample_tree_built : built sample_tree.
Proof.
  assert (valid 0x2400000) as Hv by (by apply validb_valid).
  apply (built_split 0x2400000 1 true {[0 := 2]} _); [|done|vm_compute; reflexivity|lia|vm_compute; congruence|vm_compute; reflexivity].
  apply (built_split 0 2 true ∅ _); [constructor|apply valid_0|vm_compute; reflexivity|lia|vm_compute; congruence|vm_compute; reflexivity].
Qed.

Lemma fragtree_partition_witness : exists L, get_leaves sample_tree [] = Ret L /\ length L = 5%nat /\ NoDup L.
Proof. destruct (fragtree_partition sample_tree sample_tree_built) as (L & E & Hnd & _). exists L. split; [done|]. split; [|done]. vm_compute in E. by injection E as <-. Defined.

(** C39. [split] and [merge] change the fragments of hashes as they say, with
    or without the simplification: a split of a leaf sends its hashes to the
    fragments with more of their bits, a merge sends the hashes of its
    fragments to the whole; all other hashes keep their fragment, and the
    tree can be used further. *)
Theorem fragtree_updates (T : fragtree_t) (x b : Z) (simplify : bool) : built T -> valid x -> 0 < b ->
  (is_leaf T x = Ret true -> bits x + b <= 24 ->
     exists T', split x b simplify T = Ret T' /\ built T' /\
       forall v, 0 <= v < 2 ^ 32 -> frag_of T' v = (f <~ frag_of T v;; if f =? x then ceph_frag_make (bits x + b) v else Ret f)) /\
  (get_split T x = b -> (forall c, c ∈ children x b -> is_leaf T c = Ret true) ->
     exists T', merge x b simplify T = Ret T' /\ built T' /\
       forall v, 0 <= v < 2 ^ 32 -> frag_of T' v = (f <~ frag_of T v;; i <~ ceph_frag_contains_frag x f;; Ret (if (i : bool) then x else f))).
Proof.
  intros Hbuilt Hx Hb. pose proof (built_wf T Hbuilt) as HT. pose proof (wf_bounded T HT) as HB. pose proof (bits_valid x Hx). split.
  - intros Hlt Hb24. pose proof (proj1 (is_leaf_iff T x HB Hx) Hlt) as Hl. destruct (split_spec T HT x b Hl Hb Hb24 simplify) as (T' & E & HT' & Hleaf). exists T'. split_and!; [done|by eapply built_split|].
    intros v Hv. destruct (frag_of_spec T HT v ltac:(lia)) as (f & -> & Hf & Ha). cbn [rbind]. destruct (Z.eqb_spec f x) as [->|Hn]; [|apply (frag_of_leaf T' HT'); [lia| |done]; apply Hleaf; by left].
    rewrite make_point by lia. pose proof (valid_point v) as Hp. pose proof (point_bits v) as Ep. apply (frag_of_leaf T' HT'); [lia| |apply anc_up; [done|lia]]. apply Hleaf. right. apply elem_of_children; [done|lia|lia|].
    split_and!; [apply valid_up; [done|lia]| |apply bits_up; [done|lia]]. eapply (anc_nested x _ (point v)); try done; [apply valid_up; [done|lia]|apply anc_up; [done|lia]|rewrite bits_up; [lia|done|lia]].
  - intros Hs Hc. pose proof (unsplit_children T x b HT Hs ltac:(lia) Hc) as Hc'. destruct (merge_spec T HT x b Hs ltac:(lia) Hc' simplify) as (T' & E & HT' & Hleaf). exists T'. split_and!; [done|eapply built_merge; try done; lia|].
    intros v Hv. destruct (frag_of_spec T HT v ltac:(lia)) as (f & -> & Hf & Ha). cbn [rbind]. rewrite contains_frag_spec by (done || apply Hf). cbn [rbind]. case_bool_decide as Hxf.
    + apply (frag_of_leaf T' HT'); [lia|apply Hleaf; by left|]. eapply anc_trans; [done|done|done|apply Hf|apply valid_point].
    + apply (frag_of_leaf T' HT'); [lia|apply Hleaf; by right|done].
Qed.

Lemma fragtree_updates_witness : exists T', split 0x2c00000 1 true sample_tree = Ret T' /\ built T' /\ frag_of T' 0xd00000 = Ret 0x3c00000.
Proof.
  destruct (fragtree_updates sample_tree 0x2c00000 1 true sample_tree_built) as [Hs _]; [by apply validb_valid|lia|].
  destruct Hs as (T' & E & HT' & Hf); [vm_compute; reflexivity|vm_compute; congruence|]. exists T'. split_and!; [done|done|]. rewrite Hf by lia. vm_compute. reflexivity.
Defined.

(** C20. [force_to_leaf] always succeeds, its assertions included, and makes
    the fragment a leaf: its hashes go to it, the hashes beside it in a leaf
    that was around it go to the fragments of its size, all others stay where
    they were. *)
Theorem force_to_leaf_exact (T : fragtree_t) (x : Z) : built T -> valid x ->
  exists r T', force_to_leaf x T = Ret (r, T') /\ built T' /\ is_leaf T' x = Ret true /\ (r = false -> T' = T) /\
    forall v, 0 <= v < 2 ^ 32 -> frag_of T' v =
      (f <~ frag_of T v;; i <~ ceph_frag_contains_value x v;; o <~ ceph_frag_contains_frag f x;;
       if (i : bool) then Ret x else if (o : bool) then ceph_frag_make (bits x) v else Ret f).
Proof.
  intros Hbuilt Hx. pose proof (built_wf T Hbuilt) as HT. pose proof (bits_valid x Hx). destruct (force_spec T HT x Hx) as (r & T' & E & HT' & (Hl & Hbeside & Haround) & Hr). exists r, T'.
  split_and!; [done|by eapply built_force|by apply (is_leaf_true T' x (wf_bounded T' HT'))|done|]. intros v Hv. destruct (frag_of_spec T HT v ltac:(lia)) as (f & -> & Hf & Ha). cbn [rbind].
  pose proof (valid_point v) as Hp. pose proof (point_bits v) as Ep. rewrite contains_value_spec, contains_frag_spec by (done || apply Hf || lia). cbn [rbind]. case_bool_decide as Hxv; [by apply (frag_of_leaf T' HT'); [lia|..]|]. case_bool_decide as Hfx.
  - rewrite make_point by lia. apply (frag_of_leaf T' HT'); [lia| |apply anc_up; [done|lia]]. pose proof (proj1 Hf) as Hfv. pose proof (bits_valid f Hfv). apply (Haround f); [done|done|by intros ->|].
    apply elem_of_children; [done|destruct Hfx; lia|lia|]. split_and!; [apply valid_up; [done|lia]| |rewrite bits_up; [lia|done|lia]].
    eapply (anc_nested f _ (point v)); try done; [apply valid_up; [done|lia]|apply anc_up; [done|lia]|rewrite bits_up; [by destruct Hfx|done|lia]].
  - apply (frag_of_leaf T' HT'); [lia| |done]. apply Hbeside; [done|]. intros [Hxf|?]; [|done]. apply Hxv. eapply anc_trans; [done|done|done|apply Hf|done].
Qed.

Lemma force_to_leaf_exact_witness : exists T', force_to_leaf 0x1000000 sample_tree = Ret (true, T') /\ built T' /\ frag_of T' 0x700000 = Ret 0x1000000 /\ frag_of T' 0xd00000 = Ret 0x2c00000.
Proof.
  destruct (force_to_leaf_exact sample_tree 0x1000000 sample_tree_built) as (r & T' & E & HT' & _ & _ & Hf); [by apply validb_valid|].
  exists T'. split_and!; [|done|rewrite Hf by lia; vm_compute; reflexivity..]. assert (r = true) as <-; [|done]. vm_compute in E. by injection E as <- _.
Defined.

(** ** Sets *)

Fixpoint insert_all (fs : list Z) (s : fragset_t) : res fragset_t :=
  match fs with
  | [] => Ret s
  | f :: fs => s <~ fragset_insert f s;; insert_all fs s
  end.

Lemma insert_all_spec fs s : Forall valid fs -> fset s -> no_halves s ->
  exists s', insert_all fs s = Ret s' /\ fset s' /\ no_halves s' /\ forall q, valid q -> bits q = 24 -> covers s' q <-> covers s q \/ exists f, f ∈ fs /\ anc f q.
Proof.
  revert s. induction fs as [|f fs IH]; intros s Hfs Hs Hno; cbn [insert_all].
  { exists s. split_and!; try done. intros q _ _. split; [by left|]. by intros [|(? & ?%not_elem_of_nil & _)]. }
  inversion Hfs as [|? ? Hf Hfs']; subst. unfold fragset_insert. destruct (simplify_spec (set_insert f s) (fset_insert f s Hs Hf)) as (s1 & -> & Hs1 & Hno1 & Hc1). cbn [rbind].
  destruct (IH s1 Hfs' Hs1 Hno1) as (s' & -> & Hs' & Hno' & Hc'). exists s'. split_and!; try done. intros q Hq Eq. rewrite Hc', Hc1 by done. unfold covers. setoid_rewrite elem_set_insert. setoid_rewrite elem_of_cons. split.
  - intros [(g & [->|Hg] & Ha)|(g & Hg & Ha)]; [right; exists f; auto|left; eauto|right; exists g; auto].
  - intros [(g & Hg & Ha)|(g & [->|Hg] & Ha)]; [left; exists g; auto|left; exists f; auto|right; eauto].
Qed.

(** C40. A set of fragments contains a fragment exactly when every hash of it
    is in one of the fragments that were inserted: [insert] ends and loses
    nothing, and joining halves finds every fragment that is covered. *)
Theorem fragset_exact (fs : list Z) : Forall valid fs ->
  exists s, insert_all fs [] = Ret s /\ forall g, valid g -> exists b, set_contains s g = Ret b /\
    (b = true <-> forall v, 0 <= v < 2 ^ 32 -> ceph_frag_contains_value g v = Ret true -> exists f, f ∈ fs /\ ceph_frag_contains_value f v = Ret true).
Proof.
  intros Hfs. destruct (insert_all_spec fs [] Hfs) as (s & E & Hs & Hno & Hc); [split; constructor|by intros ? ?%not_elem_of_nil|]. exists s. split; [done|]. intros g Hg.
  assert (forall f v, valid f -> 0 <= v -> ceph_frag_contains_value f v = Ret true <-> anc f (point v)) as Hval.
  { intros f v Hf Hv. rewrite contains_value_spec by done. apply ret_decide. }
  assert (forall f, f ∈ fs -> valid f) as Hfv by (intros f Hf; by eapply list_relations.list.Forall_forall in Hfs).
  assert (forall q, valid q -> bits q = 24 -> covers s q <-> exists f, f ∈ fs /\ anc f q) as Hc'.
  { intros q Hq Eq. rewrite Hc by done. split; [|by right]. intros [(? & ?%not_elem_of_nil & _)|]; done. }
  destruct (set_contains_spec s g Hs Hg) as (b & -> & Hb). exists b. split; [done|]. rewrite Hb. split.
  - intros (h & Hh & Hhg) v Hv Hgv%Hval; [|done|lia]. assert (valid h) as Hhv by (eapply list_relations.list.Forall_forall in Hh; [done|apply Hs]). destruct (proj1 (Hc' (point v) (valid_point v) (point_bits v))) as (f & Hf & Ha).
    { exists h. split; [done|]. eapply anc_trans; [done|done|done|done|apply valid_point]. }
    exists f. split; [done|]. apply Hval; [by apply Hfv|lia|done].
  - intros Hall. apply covers_whole; [done|done|done|]. intros q Hq Eq Ha. apply Hc'; [done|done|]. pose proof (proj1 Hq) as [_ Hi]. rewrite Eq in Hi.
    assert (point (idx q) = q) as Epq by (unfold point; rewrite Z.mod_small by done; rewrite <- Eq at 1; by destruct Hq as [_ <-]).
    destruct (Hall (idx q)) as (f & Hf & Hfa); [lia|apply Hval; [done|lia|by rewrite Epq]|]. apply Hval in Hfa; [|by apply Hfv|lia]. exists f. split; [done|]. by rewrite Epq in Hfa.
Qed.

Lemma fragset_exact_witness : exists s, insert_all [0x2000000; 0x2400000; 0x1800000] [] = Ret s /\ set_contains s 0 = Ret true.
Proof.
  destruct (fragset_exact [0x2000000; 0x2400000; 0x1800000]) as (s & E & _); [by constructor; [|constructor; [|constructor; [|constructor]]]; apply validb_valid|].
  exists s. split; [done|]. vm_compute in E. injection E as <-. vm_compute. reflexivity.
Defined.

(** The right half of the whole space is not a right child to
    [ceph_frag_is_right_child], which compares the bit it masks with 1. *)
Lemma right_child_test : ceph_frag_right_child 0 = Ret 0x1800000 /\ ceph_frag_is_right_child 0x1800000 = Ret false /\ ceph_frag_is_left_child 0x1800000 = Ret false.
Proof. vm_compute. done. Qed.
