(* ===== verification/PgLog.v ===== *)
(** * The log of a placement group (src/src/osd/PGLog.h, src/src/osd/PGLog.cc,
    and pg_log_t, pg_log_entry_t and pg_missing_set of src/src/osd/osd_types.h)

    Each OSD of a group keeps a log of the latest writes and the set of the
    objects it misses.  After a failure the logs of OSDs can differ at their
    ends; [merge_log] makes a log follow another one, takes back or discards
    the writes that did not survive, and records the objects that must be
    recovered.

    Objects are any type with an order ([ObjOrder]), as [hobject_t] has.  What
    the log asks of the object store is the class [LogEntryHandler], as in the
    code; its state is threaded through the functions, and [rb] says whether
    there is a handler.  A failed assertion is a [Fault].

    Of the indexes of the log the one by object is modelled, the ones by
    request, which only serve the detection of repeated requests, are not; nor
    is the recovery pointer [last_requested].  The pointer [complete_to] is a
    position in the log that is passed to the functions that use it.  The
    reverse iterator [rollback_info_trimmed_to_riter] is the number of entries
    up to the one it points to. *)

From stdpp Require Import gmap.
From S2P Require Import Prelude.
Open Scope Z_scope.

(** ** Versions *)

Record eversion_t := EV { ev_epoch : Z; ev_version : Z }.

#[export] Instance eversion_eq_dec : EqDecision eversion_t.
Proof. solve_decision. Defined.

#[export] Instance eversion_countable : Countable eversion_t.
Proof. refine (inj_countable' (fun v => (ev_epoch v, ev_version v)) (fun p => EV p.1 p.2) _). by intros []. Defined.

Definition ev0 : eversion_t := EV 0 0.
Definition ev_max : eversion_t := EV (u32 (-1)) (u64 (-1)).

Definition ev_ltb (l r : eversion_t) : bool :=
  if ev_epoch l =? ev_epoch r then ev_version l <? ev_version r else ev_epoch l <? ev_epoch r.

Definition ev_leb (l r : eversion_t) : bool :=
  if ev_epoch l =? ev_epoch r then ev_version l <=? ev_version r else ev_epoch l <=? ev_epoch r.

Definition ev_eqb (l r : eversion_t) : bool := (ev_epoch l =? ev_epoch r) && (ev_version l =? ev_version r).

(** [std::max] *)
Definition max_ev (a b : eversion_t) : eversion_t := if ev_ltb a b then b else a.

(** ** Objects *)

Class ObjOrder (O : Type) := {
  ocmp : O -> O -> Z;
  ois_max : O -> bool;
}.

Definition oleb {O} `{ObjOrder O} (a b : O) : bool := ocmp a b <=? 0.

(** ** Entries *)

Inductive log_op := MODIFY | CLONE | DELETE | LOST_REVERT | LOST_DELETE | LOST_MARK | PROMOTE | CLEAN | ERROR.

Section pglog.
Context {O : Type} `{Countable O} `{ObjOrder O}.

Record pg_log_entry_t := Entry {
  le_op : log_op;
  le_soid : O;
  le_version : eversion_t;
  le_prior_version : eversion_t;
  le_can_rollback : bool;
  le_reqid : Z;
  le_extra_reqids : list (Z * Z);
  le_extra_reqid_return_codes : list (Z * Z);
  le_user_version : Z;
  le_return_code : Z;
}.

Definition is_clone (e : pg_log_entry_t) : bool := match le_op e with CLONE => true | _ => false end.
Definition is_error (e : pg_log_entry_t) : bool := match le_op e with ERROR => true | _ => false end.
Definition is_lost_delete (e : pg_log_entry_t) : bool := match le_op e with LOST_DELETE => true | _ => false end.
Definition is_update (e : pg_log_entry_t) : bool :=
  match le_op e with CLONE | MODIFY | PROMOTE | CLEAN | LOST_REVERT | LOST_MARK => true | _ => false end.
Definition is_delete (e : pg_log_entry_t) : bool := match le_op e with DELETE | LOST_DELETE => true | _ => false end.

Record pg_log_dup_t := Dup { d_version : eversion_t; d_user_version : Z; d_reqid : Z; d_return_code : Z }.

(** ** [pg_missing_set] *)

Record pg_missing_item := Item { mi_need : eversion_t; mi_have : eversion_t; mi_delete : bool }.

Record pg_missing_set := Missing {
  ms_missing : gmap O pg_missing_item;
  ms_rmissing : gmap Z O;
  ms_may_include_deletes : bool;
  ms_changed : gset O;
}.

Definition is_missing (m : pg_missing_set) (oid : O) : bool := bool_decide (is_Some (ms_missing m !! oid)).

Definition is_missing_at (m : pg_missing_set) (oid : O) (v : eversion_t) : bool :=
  match ms_missing m !! oid with
  | None => false
  | Some item => negb (ev_ltb v (mi_need item))
  end.

(** The two maps and the tracker after a change of [oid]; [old] is an item
    whose version leaves [rmissing]. *)
Definition set_item (m : pg_missing_set) (oid : O) (old : option pg_missing_item) (new : pg_missing_item) : pg_missing_set :=
  let rmissing := match old with Some i => delete (ev_version (mi_need i)) (ms_rmissing m) | None => ms_rmissing m end in
  Missing (<[oid := new]> (ms_missing m)) (<[ev_version (mi_need new) := oid]> rmissing) (ms_may_include_deletes m) ({[oid]} ∪ ms_changed m).

Definition add_next_event (e : pg_log_entry_t) (m : pg_missing_set) : pg_missing_set :=
  let old := ms_missing m !! le_soid e in
  if ev_eqb (le_prior_version e) ev0 || is_clone e then
    set_item m (le_soid e) old (Item (le_version e) ev0 (is_delete e))
  else
    match old with
    | Some i => set_item m (le_soid e) old (Item (le_version e) (mi_have i) (is_delete e))
    | None => set_item m (le_soid e) None (Item (le_version e) (le_prior_version e) (is_delete e))
    end.

Definition revise_need (oid : O) (need : eversion_t) (del : bool) (m : pg_missing_set) : pg_missing_set :=
  match ms_missing m !! oid with
  | Some i => set_item m oid (Some i) (Item need (mi_have i) del)
  | None => set_item m oid None (Item need ev0 del)
  end.

Definition revise_have (oid : O) (have : eversion_t) (m : pg_missing_set) : pg_missing_set :=
  match ms_missing m !! oid with
  | Some i => Missing (<[oid := Item (mi_need i) have (mi_delete i)]> (ms_missing m)) (ms_rmissing m) (ms_may_include_deletes m) ({[oid]} ∪ ms_changed m)
  | None => m
  end.

Definition missing_add (oid : O) (need have : eversion_t) (del : bool) (m : pg_missing_set) : pg_missing_set :=
  set_item m oid None (Item need have del).

(** [rm] and [got] of an iterator. *)
Definition rm_item (oid : O) (i : pg_missing_item) (m : pg_missing_set) : pg_missing_set :=
  Missing (delete oid (ms_missing m)) (delete (ev_version (mi_need i)) (ms_rmissing m)) (ms_may_include_deletes m) ({[oid]} ∪ ms_changed m).

Definition missing_rm (oid : O) (v : eversion_t) (m : pg_missing_set) : pg_missing_set :=
  match ms_missing m !! oid with
  | Some i => if ev_leb (mi_need i) v then rm_item oid i m else m
  | None => m
  end.

Definition missing_got (oid : O) (v : eversion_t) (m : pg_missing_set) : res pg_missing_set :=
  match ms_missing m !! oid with
  | None => Fault
  | Some i => _ <~ rassert (ev_leb (mi_need i) v || mi_delete i);; Ret (rm_item oid i m)
  end.

(** The first element of [rmissing]. *)
Definition rmissing_begin (m : pg_missing_set) : option O :=
  let ks := map fst (map_to_list (ms_rmissing m)) in
  match ks with
  | [] => None
  | k :: ks => ms_rmissing m !! foldl Z.min k ks
  end.

Definition get_oldest_need (m : pg_missing_set) : res eversion_t :=
  if bool_decide (ms_missing m = ∅) then Ret ev0
  else
    o <~ deref (rmissing_begin m);;
    i <~ deref (ms_missing m !! o);;
    Ret (mi_need i).

(** ** The object store *)

Class LogEntryHandler (St : Type) := {
  h_rollback : pg_log_entry_t -> St -> St;
  h_rollforward : pg_log_entry_t -> St -> St;
  h_trim : pg_log_entry_t -> St -> St;
  h_remove : O -> St -> St;
  h_try_stash : O -> Z -> St -> St;
}.

Context {St : Type} `{LogEntryHandler St}.

(** ** [pg_log_t] *)

Record pg_log_t := PLog {
  pl_head : eversion_t;
  pl_tail : eversion_t;
  pl_can_rollback_to : eversion_t;
  pl_rollback_info_trimmed_to : eversion_t;
  pl_log : list pg_log_entry_t;
  pl_dups : list pg_log_dup_t;
}.

Definition pl_null (l : pg_log_t) : bool := (ev_version (pl_head l) =? 0) && (ev_epoch (pl_head l) =? 0).

(** The loop of [rewind_from_head], over the log from its head: what stays
    and what is divergent. *)
Fixpoint rewind_loop (rl : list pg_log_entry_t) (newhead : eversion_t) (divergent : list pg_log_entry_t) : res (list pg_log_entry_t * list pg_log_entry_t) :=
  match rl with
  | [] => Ret ([], divergent)
  | p :: rl' =>
      if ev_version (le_version p) <=? ev_version newhead then Ret (rev rl, divergent)
      else
        _ <~ rassert (ev_ltb newhead (le_version p));;
        rewind_loop rl' newhead (p :: divergent)
  end.

Definition cap_ev (v bound : eversion_t) : eversion_t := if ev_ltb bound v then bound else v.

Definition pl_rewind_from_head (newhead : eversion_t) (l : pg_log_t) : res (pg_log_t * list pg_log_entry_t) :=
  _ <~ rassert (ev_leb (pl_tail l) newhead);;
  '(log, divergent) <~ rewind_loop (rev (pl_log l)) newhead [];;
  Ret (PLog newhead (pl_tail l) (cap_ev (pl_can_rollback_to l) newhead) (cap_ev (pl_rollback_info_trimmed_to l) newhead) log (pl_dups l), divergent).

(** ** [IndexedLog] *)

Record IndexedLog := ILog {
  il_pl : pg_log_t;
  il_objects : gmap O pg_log_entry_t;
  il_indexed : bool;
  il_riter : nat;
}.

Definition index_entry (m : gmap O pg_log_entry_t) (e : pg_log_entry_t) : gmap O pg_log_entry_t :=
  if is_error e then m else <[le_soid e := e]> m.

Definition index_of (log : list pg_log_entry_t) : gmap O pg_log_entry_t := foldl index_entry ∅ log.

(** [index()] *)
Definition il_index (l : IndexedLog) : IndexedLog := ILog (il_pl l) (index_of (pl_log (il_pl l))) true (il_riter l).

(** [index(e)] *)
Definition il_index_one (e : pg_log_entry_t) (objects : gmap O pg_log_entry_t) : gmap O pg_log_entry_t :=
  if is_error e then objects
  else match objects !! le_soid e with
       | Some o => if ev_ltb (le_version o) (le_version e) then <[le_soid e := e]> objects else objects
       | None => <[le_soid e := e]> objects
       end.

(** [unindex(e)] *)
Definition il_unindex_one (e : pg_log_entry_t) (objects : gmap O pg_log_entry_t) : gmap O pg_log_entry_t :=
  match objects !! le_soid e with
  | Some o => if ev_eqb (le_version o) (le_version e) then delete (le_soid e) objects else objects
  | None => objects
  end.

(** [reset_rollback_info_trimmed_to_riter], over the log from its head. *)
Fixpoint riter_loop (rl : list pg_log_entry_t) (trimmed_to : eversion_t) : nat :=
  match rl with
  | [] => 0
  | e :: rl' => if ev_ltb trimmed_to (le_version e) then riter_loop rl' trimmed_to else length rl
  end.

Definition reset_riter (l : IndexedLog) : IndexedLog :=
  ILog (il_pl l) (il_objects l) (il_indexed l) (riter_loop (rev (pl_log (il_pl l))) (pl_rollback_info_trimmed_to (il_pl l))).

(** The constructor from a [pg_log_t]. *)
Definition indexed_log (l : pg_log_t) : IndexedLog := il_index (reset_riter (ILog l ∅ false 0)).

(** The entries from the iterator to the head. *)
Fixpoint advance_loop (f : pg_log_entry_t -> St -> St) (l : list pg_log_entry_t) (trimmed_to : eversion_t) (riter : nat) (s : St) : nat * St :=
  match l with
  | [] => (riter, s)
  | e :: l => if ev_ltb trimmed_to (le_version e) then (riter, s) else advance_loop f l trimmed_to (S riter) (f e s)
  end.

Definition raise_ev (v to_ : eversion_t) : eversion_t := if ev_ltb v to_ then to_ else v.

Definition advance_can_rollback_to (to_ : eversion_t) (f : pg_log_entry_t -> St -> St) (l : IndexedLog) (s : St) : bool * IndexedLog * St :=
  let p := il_pl l in
  let dirty := ev_ltb (pl_can_rollback_to p) to_ || ev_ltb (pl_rollback_info_trimmed_to p) to_ in
  let crt := raise_ev (pl_can_rollback_to p) to_ in
  let trimmed_to := raise_ev (pl_rollback_info_trimmed_to p) to_ in
  let '(riter, s) := advance_loop f (drop (il_riter l) (pl_log p)) trimmed_to (il_riter l) s in
  (dirty, ILog (PLog (pl_head p) (pl_tail p) crt trimmed_to (pl_log p) (pl_dups p)) (il_objects l) (il_indexed l) riter, s).

Definition trim_rollback_info_to (to_ : eversion_t) (l : IndexedLog) (s : St) : IndexedLog * St :=
  let '(_, l, s) := advance_can_rollback_to to_ h_trim l s in (l, s).

Definition roll_forward_to (to_ : eversion_t) (l : IndexedLog) (s : St) : bool * IndexedLog * St := advance_can_rollback_to to_ h_rollforward l s.

Definition skip_can_rollback_to_to_head (l : IndexedLog) (s : St) : IndexedLog * St :=
  let '(_, l, s) := advance_can_rollback_to (pl_head (il_pl l)) (fun _ s => s) l s in (l, s).

Definition il_rewind_from_head (newhead : eversion_t) (l : IndexedLog) : res (IndexedLog * list pg_log_entry_t) :=
  '(p, divergent) <~ pl_rewind_from_head newhead (il_pl l);;
  Ret (reset_riter (il_index (ILog p (il_objects l) (il_indexed l) (il_riter l))), divergent).

(** [add] of an entry that is applied, the default: the iterator stays at its
    entry. *)
Definition il_add (e : pg_log_entry_t) (l : IndexedLog) : res IndexedLog :=
  let p := il_pl l in
  _ <~ rassert (ev_ltb (pl_head p) (le_version e));;
  _ <~ rassert ((ev_version (pl_head p) =? 0) || (ev_version (pl_head p) <? ev_version (le_version e)));;
  Ret (ILog (PLog (le_version e) (pl_tail p) (pl_can_rollback_to p) (pl_rollback_info_trimmed_to p) (pl_log p ++ [e]) (pl_dups p))
        (if il_indexed l then index_entry (il_objects l) e else il_objects l) (il_indexed l) (il_riter l)).

(** ** [PGLog] *)

Record PGLog := PgL {
  pg_missing : pg_missing_set;
  pg_log : IndexedLog;
  dirty_to : eversion_t;
  dirty_from : eversion_t;
  writeout_from : eversion_t;
  dirty_to_dups : eversion_t;
  dirty_from_dups : eversion_t;
}.

Definition mark_dirty_to (v : eversion_t) (p : PGLog) : PGLog :=
  PgL (pg_missing p) (pg_log p) (if ev_ltb (dirty_to p) v then v else dirty_to p) (dirty_from p) (writeout_from p) (dirty_to_dups p) (dirty_from_dups p).

Definition mark_dirty_from (v : eversion_t) (p : PGLog) : PGLog :=
  PgL (pg_missing p) (pg_log p) (dirty_to p) (if ev_ltb v (dirty_from p) then v else dirty_from p) (writeout_from p) (dirty_to_dups p) (dirty_from_dups p).

Definition mark_writeout_from (v : eversion_t) (p : PGLog) : PGLog :=
  PgL (pg_missing p) (pg_log p) (dirty_to p) (dirty_from p) (if ev_ltb v (writeout_from p) then v else writeout_from p) (dirty_to_dups p) (dirty_from_dups p).

Definition set_log (l : IndexedLog) (p : PGLog) : PGLog :=
  PgL (pg_missing p) l (dirty_to p) (dirty_from p) (writeout_from p) (dirty_to_dups p) (dirty_from_dups p).

Definition set_missing (m : pg_missing_set) (p : PGLog) : PGLog :=
  PgL m (pg_log p) (dirty_to p) (dirty_from p) (writeout_from p) (dirty_to_dups p) (dirty_from_dups p).

(** What is used of [pg_info_t]; [i_hit_set], [i_purged_snaps] and the other
    statistics are only copied. *)
Record pg_stat_t := Stat { st_reported_seq : Z; st_reported_epoch : Z; st_num_objects_missing : Z; st_other : Z }.

Record pg_info_t := Info {
  i_last_update : eversion_t;
  i_last_complete : eversion_t;
  i_log_tail : eversion_t;
  i_last_user_version : Z;
  i_last_backfill : O;
  i_stats : pg_stat_t;
  i_hit_set : Z;
  i_purged_snaps : Z;
}.

(** ** Divergent entries *)

(** The map of [split_by_object], in the order of objects. *)
Fixpoint split_add (e : pg_log_entry_t) (m : list (O * list pg_log_entry_t)) : list (O * list pg_log_entry_t) :=
  match m with
  | [] => [(le_soid e, [e])]
  | (o, l) :: m =>
      if bool_decide (le_soid e = o) then (o, l ++ [e]) :: m
      else if ocmp (le_soid e) o <? 0 then (le_soid e, [e]) :: (o, l) :: m
      else (o, l) :: split_add e m
  end.

Definition split_by_object (entries : list pg_log_entry_t) : list (O * list pg_log_entry_t) := foldl (fun m e => split_add e m) [] entries.

(** The loop that strips ERROR entries; [first] is set for the first entry. *)
Fixpoint strip_errors (hoid : O) (first seen_non_error : bool) (last_ : eversion_t) (l : list pg_log_entry_t) : res (list pg_log_entry_t) :=
  match l with
  | [] => Ret []
  | i :: l =>
      _ <~ rassert (bool_decide (le_soid i = hoid));;
      let first_non_error := negb seen_non_error && negb (is_error i) in
      let seen_non_error := seen_non_error || negb (is_error i) in
      _ <~ (if negb first && negb (ev_eqb (le_prior_version i) ev0) && negb first_non_error then
              _ <~ rassert (ev_ltb last_ (le_version i));;
              rassert (ev_eqb (le_prior_version i) last_ || is_error i)
            else Ret tt);;
      if is_error i then strip_errors hoid false seen_non_error last_ l
      else entries <~ strip_errors hoid false seen_non_error (le_version i) l;; Ret (i :: entries)
  end.

(** [if (rollbacker)] *)
Definition trim_all (rb : bool) (entries : list pg_log_entry_t) (s : St) : St := if rb then foldl (fun s e => h_trim e s) s entries else s.
Definition remove_if (rb : bool) (hoid : O) (s : St) : St := if rb then h_remove hoid s else s.

(** [entries.back()] of a list with the head [e]. *)
Fixpoint last_of (e : pg_log_entry_t) (l : list pg_log_entry_t) : pg_log_entry_t := match l with [] => e | x :: l => last_of x l end.

Definition merge_object_divergent_entries (objects : gmap O pg_log_entry_t) (hoid : O) (orig_entries : list pg_log_entry_t)
    (last_backfill : O) (olog_can_rollback_to : eversion_t) (rb : bool) (m : pg_missing_set) (s : St) : res (pg_missing_set * St) :=
  if negb (oleb hoid last_backfill) then Ret (m, s)
  else
    _ <~ rassert (match orig_entries with [] => false | _ => true end);;
    entries <~ strip_errors hoid true false ev0 orig_entries;;
    match entries with
    | [] => Ret (m, s)
    | front :: rest =>
        let prior_version := le_prior_version front in
        let first_divergent_update := le_version front in
        let back := last_of front rest in
        let last_divergent_update := le_version back in
        let object_not_in_store := negb (is_missing m hoid) && is_delete back in
        let remove s := if object_not_in_store then s else remove_if rb hoid s in
        let other := (* the cases without a more recent entry *)
          if ev_eqb prior_version ev0 || is_clone front then
            let m := match ms_missing m !! hoid with Some i => rm_item hoid i m | None => m end in
            Ret (m, trim_all rb entries (remove s))
          else
            match ms_missing m !! hoid with
            | Some i =>
                let m := if ev_eqb (mi_have i) prior_version then rm_item hoid i m else revise_need hoid prior_version false m in
                Ret (m, trim_all rb entries s)
            | None =>
                let can_rollback := forallb (fun e => le_can_rollback e && negb (ev_leb (le_version e) olog_can_rollback_to)) entries in
                if can_rollback then Ret (m, if rb then foldl (fun s e => h_rollback e s) s (rev entries) else s)
                else Ret (missing_add hoid prior_version ev0 false m, trim_all rb entries (remove s))
            end in
        match objects !! hoid with
        | Some obj =>
            if ev_leb first_divergent_update (le_version obj) then
              _ <~ rassert (ev_ltb last_divergent_update (le_version obj));;
              _ <~ (if is_update obj || (ms_may_include_deletes m && is_delete obj)
                    then match ms_missing m !! hoid with Some i => rassert (ev_eqb (mi_need i) (le_version obj)) | None => Fault end
                    else rassert (negb (is_missing m hoid)));;
              Ret (revise_have hoid ev0 m, trim_all rb entries (remove s))
            else other
        | None => other
        end
    end.

Fixpoint merge_objects (objects : gmap O pg_log_entry_t) (l : list (O * list pg_log_entry_t)) (last_backfill : O) (crt : eversion_t) (rb : bool)
    (m : pg_missing_set) (s : St) : res (pg_missing_set * St) :=
  match l with
  | [] => Ret (m, s)
  | (o, entries) :: l =>
      '(m, s) <~ merge_object_divergent_entries objects o entries last_backfill crt rb m s;;
      merge_objects objects l last_backfill crt rb m s
  end.

Definition merge_divergent_entries (log : IndexedLog) (entries : list pg_log_entry_t) (oinfo : pg_info_t) (olog_can_rollback_to : eversion_t)
    (rb : bool) (omissing : pg_missing_set) (s : St) : res (pg_missing_set * St) :=
  merge_objects (il_objects log) (split_by_object entries) (i_last_backfill oinfo) olog_can_rollback_to rb omissing s.

(** ** Appending entries *)

Definition append_one (last_backfill : O) (maintain_rollback rb : bool) (p : pg_log_entry_t) (m : pg_missing_set) (s : St) : pg_missing_set * St :=
  if oleb (le_soid p) last_backfill && negb (is_error p) then
    if ms_may_include_deletes m then (add_next_event p m, s)
    else
      (if is_delete p then missing_rm (le_soid p) (le_version p) m else add_next_event p m,
       if rb then
         if maintain_rollback && is_lost_delete p && le_can_rollback p then h_try_stash (le_soid p) (ev_version (le_version p)) s
         else if is_delete p then h_remove (le_soid p) s else s
       else s)
  else (m, s).

Fixpoint append_loop (last_backfill : O) (entries : list pg_log_entry_t) (maintain_rollback rb : bool) (log : option IndexedLog) (m : pg_missing_set) (s : St)
    : res (option IndexedLog * pg_missing_set * St) :=
  match entries with
  | [] => Ret (log, m, s)
  | p :: entries =>
      log <~ match log with Some l => l <~ il_add p l;; Ret (Some l) | None => Ret None end;;
      let '(m, s) := append_one last_backfill maintain_rollback rb p m s in
      append_loop last_backfill entries maintain_rollback rb log m s
  end.

(** [append_log_entries_update_missing]; the result says whether the
    statistics are invalid. *)
Definition append_log_entries_update_missing (last_backfill : O) (entries : list pg_log_entry_t) (maintain_rollback rb : bool)
    (log : option IndexedLog) (m : pg_missing_set) (s : St) : res (bool * option IndexedLog * pg_missing_set * St) :=
  _ <~ match log, entries with Some l, e :: _ => rassert (ev_ltb (pl_head (il_pl l)) (le_version e)) | _, _ => Ret tt end;;
  '(log, m, s) <~ append_loop last_backfill entries maintain_rollback rb log m s;;
  Ret (existsb (fun e => negb (is_error e)) entries, log, m, s).

(** ** Merging logs *)

Definition set_last_complete (v : eversion_t) (i : pg_info_t) : pg_info_t :=
  Info (i_last_update i) v (i_log_tail i) (i_last_user_version i) (i_last_backfill i) (i_stats i) (i_hit_set i) (i_purged_snaps i).
Definition set_last_update (v : eversion_t) (i : pg_info_t) : pg_info_t :=
  Info v (i_last_complete i) (i_log_tail i) (i_last_user_version i) (i_last_backfill i) (i_stats i) (i_hit_set i) (i_purged_snaps i).

Definition rewind_divergent_log (newhead : eversion_t) (p : PGLog) (info : pg_info_t) (s : St) : res (PGLog * pg_info_t * St) :=
  let original_crt := pl_can_rollback_to (il_pl (pg_log p)) in
  let info := if ev_ltb newhead (i_last_complete info) then set_last_complete newhead info else info in
  '(log, divergent) <~ il_rewind_from_head newhead (pg_log p);;
  let p := set_log log p in
  let p := match divergent with e :: _ => mark_dirty_from (le_version e) p | [] => p end in
  let info := set_last_update newhead info in
  '(m, s) <~ merge_divergent_entries log divergent info original_crt true (pg_missing p) s;;
  Ret (set_missing m p, info, s).

(** The entries of [olog] up to the tail of the log, and the others. *)
Fixpoint tail_part (l : list pg_log_entry_t) (tail : eversion_t) : list pg_log_entry_t * list pg_log_entry_t :=
  match l with
  | [] => ([], [])
  | e :: l' => if ev_ltb tail (le_version e) then ([], l) else let '(a, b) := tail_part l' tail in (e :: a, b)
  end.

Definition extend_tail (olog : pg_log_t) (p : PGLog) (info : pg_info_t) : bool * PGLog * pg_info_t * list pg_log_entry_t :=
  let l := pg_log p in
  if ev_ltb (pl_tail olog) (pl_tail (il_pl l)) then
    let '(old, rest) := tail_part (pl_log olog) (pl_tail (il_pl l)) in
    let last_ := match rev old with e :: _ => le_version e | [] => ev0 end in
    let pl := il_pl l in
    let l := ILog (PLog (pl_head pl) (pl_tail olog) (pl_can_rollback_to pl) (pl_rollback_info_trimmed_to pl) (old ++ pl_log pl) (pl_dups pl))
               (if il_indexed l then foldl (fun m e => il_index_one e m) (il_objects l) old else il_objects l) (il_indexed l) (length old + il_riter l) in
    let info := Info (i_last_update info) (i_last_complete info) (pl_tail olog) (i_last_user_version info) (i_last_backfill info) (i_stats info) (i_hit_set info) (i_purged_snaps info) in
    (true, set_log l (mark_dirty_to last_ p), info, rest)
  else (false, p, info, pl_log olog).

(** The entries of [olog] behind the last one that is not newer than [head],
    and the version of that one; over [olog] from its head. *)
Fixpoint new_part (rl : list pg_log_entry_t) (head : eversion_t) (acc : list pg_log_entry_t) : option eversion_t * list pg_log_entry_t :=
  match rl with
  | [] => (None, acc)
  | e :: rl => if ev_leb (le_version e) head then (Some (le_version e), acc) else new_part rl head (e :: acc)
  end.

(** What follows "extend on head?" in [merge_log]; [olog] is what is left of it. *)
Definition extend_head (olog : pg_log_t) (ologlog : list pg_log_entry_t) (orig_tail : eversion_t) (oinfo : pg_info_t) (p : PGLog) (info : pg_info_t) (s : St)
    : res (PGLog * pg_info_t * St) :=
  let l := pg_log p in
  let lower_bound := max_ev (pl_tail olog) orig_tail in
  let '(shared, new_entries) := new_part (rev ologlog) (pl_head (il_pl l)) [] in
  let lower_bound := match shared with Some v => max_ev lower_bound v | None => lower_bound end in
  let p := mark_dirty_from lower_bound p in
  let original_crt := pl_can_rollback_to (il_pl l) in
  '(l, divergent) <~ il_rewind_from_head lower_bound l;;
  let '(_, l, s) := roll_forward_to (pl_head (il_pl l)) l s in
  '(_, ol, m, s) <~ append_log_entries_update_missing (i_last_backfill info) new_entries false true (Some l) (pg_missing p) s;;
  l <~ deref ol;;
  '(m, s) <~ merge_divergent_entries l divergent info original_crt true m s;;
  let pl := il_pl l in
  let l := ILog (PLog (pl_head olog) (pl_tail pl) (pl_can_rollback_to pl) (pl_rollback_info_trimmed_to pl) (pl_log pl) (pl_dups pl)) (il_objects l) (il_indexed l) (il_riter l) in
  let '(l, s) := skip_can_rollback_to_to_head l s in
  let st := i_stats info in
  let info := Info (pl_head olog) (i_last_complete info) (i_log_tail info) (i_last_user_version oinfo) (i_last_backfill info)
                (Stat (st_reported_seq st) (st_reported_epoch st) (Z.of_nat (size (ms_missing m))) (st_other st)) (i_hit_set info) (i_purged_snaps oinfo) in
  Ret (set_missing m (set_log l p), info, s).

(** [merge_log_dups] *)

(** The dups newer than [v], and the oldest of them. *)
Definition newer_dups (l : list pg_log_dup_t) (v : eversion_t) : list pg_log_dup_t :=
  (fix go rl acc := match rl with
                    | [] => acc
                    | d :: rl => if ev_leb (d_version d) v then acc else go rl (d :: acc)
                    end) (rev l) [].

Fixpoint older_dups (l : list pg_log_dup_t) (v : eversion_t) : list pg_log_dup_t :=
  match l with
  | [] => []
  | d :: l => if ev_leb v (d_version d) then [] else d :: older_dups l v
  end.

(** The dups that do not overlap with the log, from the newest on. *)
Fixpoint drop_dups (rl : list pg_log_dup_t) (tail : eversion_t) : list pg_log_dup_t :=
  match rl with
  | [] => []
  | d :: rl' => if ev_ltb tail (d_version d) then drop_dups rl' tail else rl
  end.

Definition set_dups (d : list pg_log_dup_t) (l : IndexedLog) : IndexedLog :=
  let p := il_pl l in ILog (PLog (pl_head p) (pl_tail p) (pl_can_rollback_to p) (pl_rollback_info_trimmed_to p) (pl_log p) d) (il_objects l) (il_indexed l) (il_riter l).

Definition set_dirty_dups (to_ from : eversion_t) (p : PGLog) : PGLog :=
  PgL (pg_missing p) (pg_log p) (dirty_to p) (dirty_from p) (writeout_from p) to_ from.

Definition min_from (from v : eversion_t) : eversion_t := if ev_ltb v from then v else from.

Definition extend_dups (odups : list pg_log_dup_t) (p : PGLog) : bool * PGLog :=
  let l := pg_log p in
  let dups := pl_dups (il_pl l) in
  match rev odups with
  | [] => (false, p)
  | oback :: _ =>
      match rev dups with
      | [] => (true, set_dirty_dups ev_max ev0 (set_log (set_dups odups l) p))
      | back :: _ =>
          let '(c1, dups, p) :=
            if ev_ltb (d_version back) (d_version oback) then
              let new := newer_dups odups (d_version back) in
              let last_shared := match new with d :: _ => d_version d | [] => ev_max end in
              (true, dups ++ new, set_dirty_dups (dirty_to_dups p) (min_from (dirty_from_dups p) last_shared) p)
            else (false, dups, p) in
          let ofront := match odups with d :: _ => d | [] => oback end in
          let front := match dups with d :: _ => d | [] => back end in
          let '(c2, dups, p) :=
            if ev_ltb (d_version ofront) (d_version front) then
              let old := older_dups odups (d_version front) in
              let last_ := match rev old with d :: _ => d_version d | [] => ev0 end in
              (true, old ++ dups, set_dirty_dups (if ev_ltb (dirty_to_dups p) last_ then last_ else dirty_to_dups p) (dirty_from_dups p) p)
            else (false, dups, p) in
          (c1 || c2, set_log (set_dups dups l) p)
      end
  end.

(** The removal of dups that overlap with the log, each marking itself dirty. *)
Definition cut_dups (p : PGLog) : bool * PGLog :=
  let l := pg_log p in
  let dups := pl_dups (il_pl l) in
  let tail := pl_tail (il_pl l) in
  match rev dups with
  | back :: _ =>
      if ev_ltb tail (d_version back) then
        let kept := rev (drop_dups (rev dups) tail) in
        let cut := drop (length kept) dups in
        (true, set_log (set_dups kept l) (set_dirty_dups (dirty_to_dups p) (foldl (fun f d => min_from f (d_version d)) (dirty_from_dups p) (rev cut)) p))
      else (false, p)
  | [] => (false, p)
  end.

Definition merge_log_dups (odups : list pg_log_dup_t) (p : PGLog) : bool * PGLog :=
  let '(c1, p) := extend_dups odups p in
  let '(c2, p) := cut_dups p in
  (c1 || c2, p).

(** [merge_log]: the log, the two infos, whether they are dirty, and the
    store. *)
Definition merge_log (oinfo : pg_info_t) (olog : pg_log_t) (p : PGLog) (info : pg_info_t) (s : St) : res (PGLog * pg_info_t * pg_info_t * bool * St) :=
  let pl := il_pl (pg_log p) in
  _ <~ rassert (negb (pl_null pl) || ev_eqb (pl_tail olog) ev0);;
  _ <~ rassert (ev_leb (pl_tail olog) (pl_head pl) && ev_leb (pl_tail pl) (pl_head olog));;
  let orig_tail := pl_tail pl in
  let '(c1, p, info, ologlog) := extend_tail olog p info in
  let st := i_stats info in
  let ost := i_stats oinfo in
  let oinfo :=
    if (st_reported_seq ost <? st_reported_seq st) || (st_reported_epoch ost <? st_reported_epoch st)
    then Info (i_last_update oinfo) (i_last_complete oinfo) (i_log_tail oinfo) (i_last_user_version oinfo) (i_last_backfill oinfo)
           (Stat (st_reported_seq st) (st_reported_epoch st) (st_num_objects_missing ost) (st_other ost)) (i_hit_set oinfo) (i_purged_snaps oinfo)
    else oinfo in
  let info := Info (i_last_update info) (i_last_complete info) (i_log_tail info) (i_last_user_version info) (i_last_backfill info)
                (if ois_max (i_last_backfill info) then i_stats oinfo else st) (i_hit_set oinfo) (i_purged_snaps info) in
  '(c2, p, info, s) <~
    (if ev_ltb (pl_head olog) (pl_head (il_pl (pg_log p)))
     then '(p, info, s) <~ rewind_divergent_log (pl_head olog) p info s;; Ret (true, p, info, s)
     else Ret (false, p, info, s));;
  '(c3, p, info, s) <~
    (if ev_ltb (pl_head (il_pl (pg_log p))) (pl_head olog)
     then '(p, info, s) <~ extend_head olog ologlog orig_tail oinfo p info s;; Ret (true, p, info, s)
     else Ret (false, p, info, s));;
  let '(c4, p) := merge_log_dups (pl_dups olog) p in
  Ret (p, info, oinfo, c1 || c2 || c3 || c4, s).

(** ** Recovery *)

(** The walk of [complete_to] to the first entry that is not older than what
    is missing. *)
Fixpoint complete_loop (l : list pg_log_entry_t) (oldest_need : eversion_t) (pos : nat) : res nat :=
  match l with
  | [] => Fault
  | e :: l => if ev_ltb (le_version e) oldest_need then complete_loop l oldest_need (S pos) else Ret pos
  end.

(** [reset_complete_to]: the pointer and, where there is an info, its
    [last_complete]; nothing changes where the log is empty. *)
Definition reset_complete_to (p : PGLog) (complete_to : nat) (info : option pg_info_t) : res (nat * option pg_info_t) :=
  let log := pl_log (il_pl (pg_log p)) in
  if bool_decide (log = []) then Ret (complete_to, info)
  else
    oldest_need <~ get_oldest_need (pg_missing p);;
    pos <~ (if ev_eqb oldest_need ev0 then Ret 0%nat else complete_loop log oldest_need 0);;
    Ret (pos, match info with
              | None => None
              | Some info => Some (set_last_complete (match pos with
                                                      | 0%nat => ev0
                                                      | S k => match log !! k with Some e => le_version e | None => ev0 end
                                                      end) info)
              end).

(** The loop that raises [last_complete], over the entries from [complete_to]. *)
Fixpoint got_loop (l : list pg_log_entry_t) (oldest_need : eversion_t) (complete_to : nat) (last_complete : eversion_t) : nat * eversion_t :=
  match l with
  | [] => (complete_to, last_complete)
  | e :: l =>
      if ev_leb oldest_need (le_version e) then (complete_to, last_complete)
      else got_loop l oldest_need (S complete_to) (if ev_ltb last_complete (le_version e) then le_version e else last_complete)
  end.

Definition set_num_missing (n : Z) (i : pg_info_t) : pg_info_t :=
  let st := i_stats i in
  Info (i_last_update i) (i_last_complete i) (i_log_tail i) (i_last_user_version i) (i_last_backfill i)
    (Stat (st_reported_seq st) (st_reported_epoch st) n (st_other st)) (i_hit_set i) (i_purged_snaps i).

Definition recover_got (oid : O) (v : eversion_t) (p : PGLog) (complete_to : nat) (info : pg_info_t) : res (PGLog * nat * pg_info_t) :=
  let pl := il_pl (pg_log p) in
  '(p, complete_to, info) <~
    (if is_missing_at (pg_missing p) oid v then
       m <~ missing_got oid v (pg_missing p);;
       let info := set_num_missing (Z.of_nat (size (ms_missing m))) info in
       let '(complete_to, info) :=
         if bool_decide (ms_missing m = ∅) then (length (pl_log pl), set_last_complete (i_last_update info) info) else (complete_to, info) in
       oldest_need <~ get_oldest_need m;;
       let '(complete_to, last_complete) := got_loop (drop complete_to (pl_log pl)) oldest_need complete_to (i_last_complete info) in
       Ret (set_missing m p, complete_to, set_last_complete last_complete info)
     else Ret (p, complete_to, info));;
  _ <~ rassert (ev_leb v (pl_can_rollback_to pl));;
  Ret (p, complete_to, info).

Definition append_new_log_entries (last_backfill : O) (entries : list pg_log_entry_t) (p : PGLog) (complete_to : nat) (rb : bool) (s : St) : res (bool * PGLog * nat * St) :=
  '(inv, ol, m, s) <~ append_log_entries_update_missing last_backfill entries true rb (Some (pg_log p)) (pg_missing p) s;;
  l <~ deref ol;;
  let p := set_missing m (set_log l p) in
  match entries with
  | [] => Ret (inv, p, complete_to, s)
  | e :: _ =>
      let p := mark_writeout_from (le_version e) p in
      '(complete_to, _) <~ (if is_lost_delete e then reset_complete_to p complete_to None else Ret (complete_to, None));;
      Ret (inv, p, complete_to, s)
  end.

(** ** Logs of replicas *)

(** The last entry of the log that is not newer than [head]. *)
Fixpoint last_shared (rl : list pg_log_entry_t) (head : eversion_t) : option eversion_t :=
  match rl with
  | [] => None
  | e :: rl => if ev_leb (le_version e) head then Some (le_version e) else last_shared rl head
  end.

(** [oinfo.last_complete] where objects are missing. *)
Fixpoint complete_before (l : list pg_log_entry_t) (first_missing lc : eversion_t) : eversion_t :=
  match l with
  | [] => lc
  | e :: l => if ev_ltb (le_version e) first_missing then complete_before l first_missing (le_version e) else lc
  end.

Definition proc_replica_log (p : PGLog) (oinfo : pg_info_t) (olog : pg_log_t) (omissing : pg_missing_set) (s : St) : res (pg_info_t * pg_missing_set) :=
  let log := il_pl (pg_log p) in
  if ev_ltb (pl_head olog) (pl_tail log) then Ret (oinfo, omissing)
  else if ev_eqb (pl_head olog) (pl_head log) then Ret (oinfo, omissing)
  else
    let limit := max_ev (pl_tail olog) (pl_tail log) in
    let lu := match last_shared (rev (pl_log log)) (pl_head olog) with
              | None => limit
              | Some v => if ev_ltb v limit then limit else v
              end in
    '(folog, divergent) <~ il_rewind_from_head lu (indexed_log olog);;
    '(omissing, _) <~ merge_divergent_entries folog divergent oinfo (pl_can_rollback_to olog) false omissing s;;
    let oinfo := if ev_ltb lu (i_last_update oinfo) then set_last_update lu oinfo else oinfo in
    if bool_decide (ms_missing omissing = ∅) then Ret (set_last_complete (i_last_update oinfo) oinfo, omissing)
    else
      first_missing <~ get_oldest_need omissing;;
      Ret (set_last_complete (complete_before (pl_log olog) first_missing ev0) oinfo, omissing).

(** ** Trimming *)

Definition dups_of (e : pg_log_entry_t) : list pg_log_dup_t :=
  Dup (le_version e) (le_user_version e) (le_reqid e) (le_return_code e) ::
  imap (fun idx x =>
          let rc := le_return_code e in
          Dup (le_version e) x.2 x.1 (if 0 <=? rc then match mget (Z.of_nat idx) (le_extra_reqid_return_codes e) with Some c => c | None => rc end else rc))
    (le_extra_reqids e).

(** The loop over the entries that are trimmed: the log, the index, the
    iterator, the dups, what was trimmed, and from where dups are written. *)
Fixpoint trim_loop (log : list pg_log_entry_t) (s : eversion_t) (earliest_dup : Z) (objects : gmap O pg_log_entry_t) (indexed : bool) (riter : nat)
    (dups : list pg_log_dup_t) (trimmed : list eversion_t) (wfd : eversion_t)
    : list pg_log_entry_t * gmap O pg_log_entry_t * nat * list pg_log_dup_t * list eversion_t * eversion_t :=
  match log with
  | [] => (log, objects, riter, dups, trimmed, wfd)
  | e :: l =>
      if ev_ltb s (le_version e) then (log, objects, riter, dups, trimmed, wfd)
      else
        let objects := if indexed then il_unindex_one e objects else objects in
        let '(dups, wfd) :=
          if earliest_dup <=? ev_version (le_version e)
          then (dups ++ dups_of e, if ev_ltb (le_version e) wfd then le_version e else wfd)
          else (dups, wfd) in
        trim_loop l s earliest_dup objects indexed (pred riter) dups (trimmed ++ [le_version e]) wfd
  end.

(** The dups that are no longer tracked, and the others. *)
Fixpoint split_dups (dups : list pg_log_dup_t) (earliest : Z) : list pg_log_dup_t * list pg_log_dup_t :=
  match dups with
  | [] => ([], [])
  | d :: l => if earliest <=? ev_version (d_version d) then ([], dups) else let '(a, b) := split_dups l earliest in (d :: a, b)
  end.

(** [IndexedLog::trim], without its effect on [complete_to]; [tracked] is the
    option osd_pg_log_dups_tracked.  The result has the versions and the dups
    whose keys are to be removed, and from where dups are to be written. *)
Definition il_trim (tracked : Z) (s : eversion_t) (l : IndexedLog) (wfd : eversion_t) : res (IndexedLog * list eversion_t * list pg_log_dup_t * eversion_t) :=
  let p := il_pl l in
  _ <~ rassert (ev_leb s (pl_can_rollback_to p));;
  newest <~ deref (head (rev (pl_log p)));;
  let v := ev_version (le_version newest) in
  let earliest := if v <? tracked then 0 else u64 (v - tracked + 1) in
  let '(log, objects, riter, dups, trimmed, wfd) := trim_loop (pl_log p) s earliest (il_objects l) (il_indexed l) (il_riter l) (pl_dups p) [] wfd in
  let '(cut, dups) := split_dups dups earliest in
  Ret (ILog (PLog (pl_head p) (if ev_ltb (pl_tail p) s then s else pl_tail p) (pl_can_rollback_to p) (pl_rollback_info_trimmed_to p) log dups) objects (il_indexed l) riter, trimmed, cut, wfd).

(** [PGLog::trim]; what is to be removed on disk is added to [trimmed], [tdups]
    and [wfd]. *)
Definition pg_trim (tracked : Z) (trim_to : eversion_t) (transaction_applied async : bool) (p : PGLog) (info : pg_info_t)
    (trimmed : list eversion_t) (tdups : list pg_log_dup_t) (wfd : eversion_t) : res (PGLog * pg_info_t * list eversion_t * list pg_log_dup_t * eversion_t) :=
  if ev_ltb (pl_tail (il_pl (pg_log p))) trim_to then
    _ <~ (if transaction_applied && negb async && bool_decide (ms_missing (pg_missing p) = ∅) then rassert (ev_leb trim_to (i_last_complete info)) else Ret tt);;
    '(l, t, d, wfd) <~ il_trim tracked trim_to (pg_log p) wfd;;
    Ret (set_log l p,
         Info (i_last_update info) (i_last_complete info) (pl_tail (il_pl l)) (i_last_user_version info) (i_last_backfill info) (i_stats info) (i_hit_set info) (i_purged_snaps info),
         trimmed ++ t, tdups ++ d, wfd)
  else Ret (p, info, trimmed, tdups, wfd).
End pglog.
