(* ===== verification/PgHist.v ===== *)
(** * Histories of a placement group

    What the log of a group (PgLog.v) is about: the writes of the group in
    their order, from its creation on.  A log is the part of a history above
    its tail.  [holds] says when the missing set and the store of an OSD agree
    with a history: an object that is not missing is in the store as the
    history leaves it, one that is missing needs the version of its last
    write.  [StoreLaws] are the promises of the object store. *)

From S2P Require Import Prelude PgLog.
From stdpp Require Import gmap sorting.
Open Scope Z_scope.

(** ** The order of versions *)

Definition ev_lt (a b : eversion_t) : Prop := ev_epoch a < ev_epoch b \/ (ev_epoch a = ev_epoch b /\ ev_version a < ev_version b).
Definition ev_le (a b : eversion_t) : Prop := ev_epoch a < ev_epoch b \/ (ev_epoch a = ev_epoch b /\ ev_version a <= ev_version b).

(** Writes of one history: the epoch does not decrease, the number grows. *)
Definition vlt (a b : eversion_t) : Prop := ev_epoch a <= ev_epoch b /\ ev_version a < ev_version b.

Lemma ev_ltb_lt a b : ev_ltb a b = true <-> ev_lt a b.
Proof. unfold ev_ltb, ev_lt. case_bool; zbool; split; intros; zbool; try (apply Z.ltb_lt); lia. Qed.

Lemma ev_leb_le a b : ev_leb a b = true <-> ev_le a b.
Proof. unfold ev_leb, ev_le. case_bool; zbool; split; intros; zbool; try (apply Z.leb_le); lia. Qed.

Lemma ev_ext a b : ev_epoch a = ev_epoch b -> ev_version a = ev_version b -> a = b.
Proof. destruct a, b. cbn. by intros -> ->. Qed.

Lemma ev_eqb_eq a b : ev_eqb a b = true <-> a = b.
Proof.
  unfold ev_eqb. split.
  - intros E. zbool. by apply ev_ext.
  - intros ->. by rewrite !Z.eqb_refl.
Qed.

Lemma ev_ltb_ge a b : ev_ltb a b = false <-> ev_le b a.
Proof. rewrite <- not_true_iff_false, ev_ltb_lt. unfold ev_lt, ev_le. lia. Qed.

Lemma ev_leb_gt a b : ev_leb a b = false <-> ev_lt b a.
Proof. rewrite <- not_true_iff_false, ev_leb_le. unfold ev_lt, ev_le. lia. Qed.

Lemma ev_eqb_neq a b : ev_eqb a b = false <-> a <> b.
Proof. rewrite <- not_true_iff_false, ev_eqb_eq. done. Qed.

Lemma ev_le_antisym a b : ev_le a b -> ev_le b a -> a = b.
Proof. unfold ev_le. intros. apply ev_ext; lia. Qed.

(** Comparisons of versions in the context and the goal, as arithmetic. *)
Ltac evbool :=
  repeat match goal with
  | H : (_ && _) = true |- _ => apply andb_prop in H; destruct H
  | H : (_ || _) = false |- _ => apply orb_false_elim in H; destruct H
  | H : negb _ = true |- _ => apply negb_true_iff in H
  | H : negb _ = false |- _ => apply negb_false_iff in H
  | H : ev_ltb _ _ = true |- _ => apply ev_ltb_lt in H
  | H : ev_ltb _ _ = false |- _ => apply ev_ltb_ge in H
  | H : ev_leb _ _ = true |- _ => apply ev_leb_le in H
  | H : ev_leb _ _ = false |- _ => apply ev_leb_gt in H
  | H : ev_eqb _ _ = true |- _ => apply ev_eqb_eq in H
  | H : ev_eqb _ _ = false |- _ => apply ev_eqb_neq in H
  | |- ev_ltb _ _ = true => apply ev_ltb_lt
  | |- ev_ltb _ _ = false => apply ev_ltb_ge
  | |- ev_leb _ _ = true => apply ev_leb_le
  | |- ev_leb _ _ = false => apply ev_leb_gt
  | |- ev_eqb _ _ = true => apply ev_eqb_eq
  | |- ev_eqb _ _ = false => apply ev_eqb_neq
  end.

Ltac ev_lia := evbool; unfold ev_lt, ev_le, vlt, max_ev, cap_ev, raise_ev in *; cbn [ev0 ev_epoch ev_version] in *; lia.

Lemma max_ev_l a b : ev_le b a -> max_ev a b = a.
Proof. intros. unfold max_ev. case_bool; [|done]. apply ev_le_antisym; [done|]. evbool. unfold ev_lt, ev_le in *. lia. Qed.

Lemma max_ev_r a b : ev_le a b -> max_ev a b = b.
Proof. intros. unfold max_ev. case_bool; [done|]. apply ev_le_antisym; [done|]. by evbool. Qed.

Lemma vlt_irrefl a : ~ vlt a a.
Proof. unfold vlt. lia. Qed.

(** ** Writes *)

Section writes.
Context {O : Type} `{EqDecision O}.
Notation entry := (pg_log_entry_t (O:=O)).

(** The version an object has after and before a write, [None] where it does
    not exist. *)
Definition after (e : entry) : option eversion_t := if is_delete e then None else Some (le_version e).
Definition before (e : entry) : option eversion_t := if ev_eqb (le_prior_version e) ev0 || is_clone e then None else Some (le_prior_version e).

(** The writes of an object; an ERROR entry is not one. *)
Definition hist (o : O) (h : list entry) : list entry := filter (fun e => le_soid e = o /\ is_error e = false) h.

Definition cur (l : list entry) : option eversion_t := match last l with Some e => after e | None => None end.

(** The writes of one object follow each other: each one names the version
    before it, and a clone is a new object. *)
Definition chained (l : list entry) : Prop := forall l1 e l2, l = l1 ++ e :: l2 -> cur l1 = before e /\ (is_clone e = true -> l1 = []).

Definition lt_entry (a b : entry) : Prop := vlt (le_version a) (le_version b).

(** A history of a group. *)
Record history (h : list entry) : Prop := History {
  h_sorted : StronglySorted lt_entry h;
  h_positive : forall e, e ∈ h -> vlt ev0 (le_version e);
  h_chained : forall o, chained (hist o h);
}.

(** The version of the last write. *)
Definition head_of (h : list entry) : eversion_t := match last h with Some e => le_version e | None => ev0 end.

(** The part of a history above a tail. *)
Definition above (t : eversion_t) (h : list entry) : list entry := filter (fun e => ev_ltb t (le_version e) = true) h.

Lemma writes_app o h1 h2 : hist o (h1 ++ h2) = hist o h1 ++ hist o h2.
Proof. apply filter_app. Qed.

Lemma above_app t h1 h2 : above t (h1 ++ h2) = above t h1 ++ above t h2.
Proof. apply filter_app. Qed.

Lemma elem_hist o h e : e ∈ hist o h <-> le_soid e = o /\ is_error e = false /\ e ∈ h.
Proof. unfold hist. rewrite list_elem_of_filter. tauto. Qed.

Lemma sorted_app (h1 h2 : list entry) :
  StronglySorted lt_entry (h1 ++ h2) <->
  StronglySorted lt_entry h1 /\ StronglySorted lt_entry h2 /\ (forall a b, a ∈ h1 -> b ∈ h2 -> lt_entry a b).
Proof.
  induction h1 as [|x h1 IH]; cbn.
  - split; [intros; split_and!; [constructor|done|]|tauto]. intros a b Ha. by apply elem_of_nil in Ha.
  - split.
    + intros S. inversion S as [|? ? S1 F]; subst. apply IH in S1 as (S1 & S2 & S3). rewrite Forall_app in F. destruct F as [F1 F2].
      split_and!; [by constructor|done|]. intros a b Ha Hb. apply elem_of_cons in Ha as [->|Ha]; [|by apply S3].
      by apply (proj1 (Forall_forall _ _) F2).
    + intros (S1 & S2 & S3). inversion S1 as [|? ? S1' F]; subst. constructor.
      * apply IH. split_and!; [done..|]. intros a b Ha Hb. apply S3; [by constructor|done].
      * rewrite Forall_app. split; [done|]. apply Forall_forall. intros b Hb. apply S3; [by constructor|done].
Qed.

Lemma chained_app l1 l2 : chained (l1 ++ l2) -> chained l1.
Proof. intros C a e b ->. apply (C a e (b ++ l2)). by rewrite <- app_assoc. Qed.

(** A write of an object that exists names the version before it. *)
Lemma chained_prior (l1 l2 : list entry) e : chained (l1 ++ e :: l2) -> l1 <> [] -> le_prior_version e <> ev0 -> le_prior_version e = head_of l1.
Proof.
  intros C N P. destruct (C l1 e l2 eq_refl) as [E K]. unfold before in E.
  assert (ev_eqb (le_prior_version e) ev0 = false) as Ep by by apply ev_eqb_neq. rewrite Ep in E. cbn [orb] in E.
  destruct (is_clone e); [by rewrite K in N|]. unfold cur, head_of, after in *.
  destruct (last l1); [|done]. by destruct (is_delete _); simplify_eq.
Qed.

Lemma cur_snoc (l : list entry) e : cur (l ++ [e]) = after e.
Proof. unfold cur. by rewrite last_snoc. Qed.

Lemma history_app h1 h2 : history (h1 ++ h2) -> history h1.
Proof.
  intros [S P C]. split.
  - by apply sorted_app in S as (? & _).
  - intros e He. apply P. apply elem_of_app. by left.
  - intros o. specialize (C o). rewrite writes_app in C. by eapply chained_app.
Qed.

Lemma sorted_head (h : list entry) e : StronglySorted lt_entry h -> e ∈ h -> ev_le (le_version e) (head_of h).
Proof.
  intros S He. unfold head_of. destruct (last h) as [x|] eqn:E.
  - apply last_Some in E as [l ->]. apply sorted_app in S as (_ & _ & S). apply elem_of_app in He as [He|He].
    + specialize (S e x He ltac:(by constructor)). unfold lt_entry in S. ev_lia.
    + apply list_elem_of_singleton in He as ->. ev_lia.
  - apply last_None in E as ->. by apply elem_of_nil in He.
Qed.

Lemma head_of_ge h e : history h -> e ∈ h -> ev_le (le_version e) (head_of h).
Proof. intros [S _ _]. by apply sorted_head. Qed.

Lemma head_of_app_ne h1 h2 : h2 <> [] -> head_of (h1 ++ h2) = head_of h2.
Proof. intros N. unfold head_of. rewrite last_app. destruct (last h2) eqn:E; [done|]. by apply last_None in E. Qed.

Lemma head_of_elem (h : list entry) : h <> [] -> exists e, e ∈ h /\ head_of h = le_version e.
Proof.
  intros N. unfold head_of. destruct (last h) as [x|] eqn:E; [|by apply last_None in E].
  exists x. split; [|done]. apply last_Some in E as [l ->]. apply elem_of_app. right. by constructor.
Qed.

(** The head of a history is below the writes that follow. *)
Lemma head_of_lt h1 h2 e : history (h1 ++ h2) -> e ∈ h2 -> vlt (head_of h1) (le_version e).
Proof.
  intros Hh He. destruct h1 as [|x h1].
  - apply (h_positive _ Hh). done.
  - destruct (head_of_elem (x :: h1) ltac:(done)) as (y & Hy & ->). pose proof (h_sorted _ Hh) as S.
    apply sorted_app in S as (_ & _ & S). by apply S.
Qed.

Lemma above_none t h : (forall e, e ∈ h -> ev_le (le_version e) t) -> above t h = [].
Proof.
  intros Hall. unfold above. destruct (filter _ h) as [|x l] eqn:E; [done|].
  assert (x ∈ filter (fun e => ev_ltb t (le_version e) = true) h) as Hx by (rewrite E; by constructor).
  apply list_elem_of_filter in Hx as [H1 H2]. specialize (Hall x H2). ev_lia.
Qed.

Lemma above_all t h : (forall e, e ∈ h -> ev_lt t (le_version e)) -> above t h = h.
Proof.
  induction h as [|e h IH]; [done|]. intros Hall. unfold above. rewrite filter_cons_True.
  - f_equal. apply IH. intros x Hx. apply Hall. by constructor.
  - apply ev_ltb_lt, Hall. by constructor.
Qed.

Lemma elem_above t h e : e ∈ above t h <-> ev_lt t (le_version e) /\ e ∈ h.
Proof. unfold above. by rewrite list_elem_of_filter, ev_ltb_lt. Qed.
End writes.

(** ** The object store *)

Section store.
Context {O : Type} `{Countable O} `{!ObjOrder O}.
Notation entry := (pg_log_entry_t (O:=O)).

(** [sv] is the version of each object in the store; [ready] says that what
    the store kept to take back a write is still there. *)
Class StoreLaws (St : Type) `{!LogEntryHandler (O:=O) St} := {
  sv : St -> O -> option eversion_t;
  ready : St -> entry -> Prop;
  sv_remove : forall o s o', sv (h_remove o s) o' = if decide (o' = o) then None else sv s o';
  sv_stash : forall o v s o', sv (h_try_stash o v s) o' = if decide (o' = o) then None else sv s o';
  sv_trim : forall e s o, sv (h_trim e s) o = sv s o;
  sv_rollforward : forall e s o, sv (h_rollforward e s) o = sv s o;
  sv_rollback : forall e s, ready s e -> sv s (le_soid e) = after e -> sv (h_rollback e s) (le_soid e) = before e;
  sv_rollback_other : forall e s o, o <> le_soid e -> sv (h_rollback e s) o = sv s o;
  ready_remove : forall o s e, ready s e -> ready (h_remove o s) e;
  ready_stash : forall o v s e, ready s e -> ready (h_try_stash o v s) e;
  ready_trim : forall e s e', le_version e' <> le_version e -> ready s e' -> ready (h_trim e s) e';
  ready_rollforward : forall e s e', le_version e' <> le_version e -> ready s e' -> ready (h_rollforward e s) e';
  ready_rollback : forall e s e', le_version e' <> le_version e -> ready s e' -> ready (h_rollback e s) e';
}.

(** The missing item and the version in the store of an object with the
    writes [l]; [md] is [may_include_deletes]. *)
Definition okobj (md : bool) (l : list entry) (mo : option pg_missing_item) (v : option eversion_t) : Prop :=
  match mo with
  | None => v = cur l
  | Some i => exists e, last l = Some e /\ mi_need i = le_version e /\ mi_delete i = is_delete e /\ (md = false -> is_delete e = false) /\
                   (mi_have i <> ev0 -> v = Some (mi_have i))
  end.

(** The object is to be recovered to its newest write [x], or [x] deleted it. *)
Definition newest (md : bool) (x : entry) (mo : option pg_missing_item) (v : option eversion_t) : Prop :=
  match mo with
  | Some i => mi_need i = le_version x /\ mi_delete i = is_delete x /\ (md = false -> is_delete x = false)
  | None => md = false /\ is_delete x = true /\ v = None
  end.

(** The log [l] is the part of the history [h] above its tail. *)
Record logs (h : list entry) (l : IndexedLog (O:=O)) : Prop := Logs {
  lg_head : pl_head (il_pl l) = head_of h;
  lg_log : pl_log (il_pl l) = above (pl_tail (il_pl l)) h;
  lg_objects : il_objects l = index_of (pl_log (il_pl l));
  lg_indexed : il_indexed l = true;
  lg_tail : ev_le ev0 (pl_tail (il_pl l)) /\ ev_le (pl_tail (il_pl l)) (head_of h);
}.

Context {St : Type} `{!LogEntryHandler (O:=O) St} `{!StoreLaws St}.

(** The missing set and the store agree with the history, for the objects up
    to [last_backfill]. *)
Definition holds (last_backfill : O) (h : list entry) (m : pg_missing_set (O:=O)) (s : St) : Prop :=
  forall o, oleb o last_backfill = true -> okobj (ms_may_include_deletes m) (hist o h) (ms_missing m !! o) (sv s o).

(** What may be rolled back can be. *)
Definition rollbackable (crt : eversion_t) (h : list entry) (s : St) : Prop :=
  forall e, e ∈ h -> is_error e = false -> le_can_rollback e = true -> ev_lt crt (le_version e) -> ready s e.

(** An OSD that is at the end of the history [h]. *)
Record osd_ok (h : list entry) (p : PGLog (O:=O)) (info : pg_info_t (O:=O)) (s : St) : Prop := OsdOk {
  ok_logs : logs h (pg_log p);
  ok_holds : holds (i_last_backfill info) h (pg_missing p) s;
  ok_rollback : rollbackable (pl_can_rollback_to (il_pl (pg_log p))) h s;
  ok_update : i_last_update info = head_of h;
  ok_tail : i_log_tail info = pl_tail (il_pl (pg_log p));
}.
End store.
