(* ===== verification/PgDivergent.v ===== *)
(** * Divergent writes

    [merge_object_divergent_entries] (PgLog.v) on the divergent writes of one
    object: without a newer write of the object it goes back to the state
    before them ([merge_older]), with one the object is to be recovered
    ([merge_newer]).  Nothing else changes ([frame]).

    [merge_divergent_entries] splits the divergent writes by object and merges
    each object.  [merge_divergent_spec]: if a history [p ++ d] was to become
    [p ++ n], the missing set and the store agree with [p ++ n] afterwards for
    each object that has divergent writes, and nothing else changed. *)

From S2P Require Import Prelude PgLog PgHist.
From stdpp Require Import gmap sorting.
Open Scope Z_scope.

Section merge.
Context {O : Type} `{Countable O} `{!ObjOrder O} {St : Type} `{!LogEntryHandler (O:=O) St} `{!StoreLaws St}.
Notation entry := (pg_log_entry_t (O:=O)).
Notation missing := (pg_missing_set (O:=O)).

(** Only the object [o], and what the store keeps for the writes [es], may
    change. *)
Record frame (o : O) (es : list entry) (m : missing) (s : St) (m' : missing) (s' : St) : Prop := Frame {
  fr_md : ms_may_include_deletes m' = ms_may_include_deletes m;
  fr_missing : forall o', o' <> o -> ms_missing m' !! o' = ms_missing m !! o';
  fr_sv : forall o', o' <> o -> sv s' o' = sv s o';
  fr_ready : forall e, le_version e ∉ map le_version es -> ready s e -> ready s' e;
}.

Lemma frame_refl o es m s : frame o es m s m s.
Proof. by split. Qed.

Lemma frame_trans o es m1 s1 m2 s2 m3 s3 : frame o es m1 s1 m2 s2 -> frame o es m2 s2 m3 s3 -> frame o es m1 s1 m3 s3.
Proof.
  intros [A1 A2 A3 A4] [B1 B2 B3 B4]. split.
  - congruence.
  - intros o' N. by rewrite B2, A2.
  - intros o' N. by rewrite B3, A3.
  - auto.
Qed.

(** ** The missing set *)

Lemma rm_item_lookup o i (m : missing) : ms_missing (rm_item o i m) !! o = None.
Proof. apply lookup_delete_eq. Qed.

Lemma set_item_lookup (m : missing) o old i : ms_missing (set_item m o old i) !! o = Some i.
Proof. apply lookup_insert_eq. Qed.

Lemma frame_rm o es i m s : frame o es m s (rm_item o i m) s.
Proof. split; [done| |done..]. intros o' N. by apply lookup_delete_ne. Qed.

Lemma frame_set o es old i m s : frame o es m s (set_item m o old i) s.
Proof. split; [done| |done..]. intros o' N. by apply lookup_insert_ne. Qed.

Lemma frame_revise_have o es v m s : frame o es m s (revise_have o v m) s.
Proof. unfold revise_have. destruct (ms_missing m !! o); [|apply frame_refl]. split; [done| |done..]. intros o' N. by apply lookup_insert_ne. Qed.

Lemma frame_revise_need o es v d m s : frame o es m s (revise_need o v d m) s.
Proof. unfold revise_need. destruct (ms_missing m !! o); apply frame_set. Qed.

(** ** The store *)

Lemma frame_remove o es m s : frame o es m s m (h_remove o s).
Proof. split; [done|done| |]. - intros o' N. rewrite sv_remove. by case_decide. - intros e _. apply ready_remove. Qed.

Lemma frame_trim o es l m s : incl l es -> frame o es m s m (trim_all true l s).
Proof.
  intros I. unfold trim_all. revert s. induction l as [|e l IH]; intros s; cbn; [apply frame_refl|].
  eapply frame_trans; [|apply IH; by eapply incl_cons_inv]. split; [done|done| |].
  - intros. by rewrite sv_trim.
  - intros e' N. apply ready_trim. intros E. apply N. rewrite E. apply list_elem_of_In, in_map, I. by left.
Qed.

Lemma sv_trim_all l s o : sv (trim_all true l s) o = sv s o.
Proof. unfold trim_all. revert s. induction l as [|e l IH]; intros s; cbn; [done|]. by rewrite IH, sv_trim. Qed.

(** Rolling back the writes of an object, from the last one. *)
Lemma rollback_all o (l es : list entry) s :
  (forall e, e ∈ es -> le_soid e = o) -> NoDup (map le_version es) -> chained (l ++ es) ->
  (forall e, e ∈ es -> ready s e) -> sv s o = cur (l ++ es) ->
  let s' := foldl (fun s e => h_rollback e s) s (rev es) in
  sv s' o = cur l /\ (forall m, frame o es m s m s').
Proof.
  revert s. induction es as [|e es IH] using rev_ind; intros s Ho Hn Hc Hr Hs; cbn zeta.
  { rewrite app_nil_r in Hs. split; [done|]. intros. apply frame_refl. }
  rewrite rev_app_distr. cbn [rev app foldl]. rewrite map_app in Hn. apply NoDup_app in Hn as (Hn & Hd & _).
  assert (le_soid e = o) as Eo by (apply Ho, elem_of_app; right; by constructor).
  assert (cur (l ++ es) = before e) as Eb by (apply (Hc (l ++ es) e []); by rewrite <- app_assoc).
  rewrite app_assoc, cur_snoc in Hs.
  assert (ready s e) as Re by (apply Hr, elem_of_app; right; by constructor).
  destruct (IH (h_rollback e s)) as (IH1 & IH2).
  - intros x Hx. apply Ho, elem_of_app. by left.
  - done.
  - rewrite app_assoc in Hc. by eapply chained_app.
  - intros x Hx. apply ready_rollback; [|apply Hr, elem_of_app; by left]. intros E. apply (Hd (le_version x)); [apply list_elem_of_In, in_map, list_elem_of_In, Hx|].
    rewrite E. by constructor.
  - rewrite <- Eo in *. by rewrite sv_rollback.
  - split; [exact IH1|]. intros m. apply (frame_trans _ _ _ _ m (h_rollback e s)).
    + split; [done|done| |].
      * intros o' N. apply sv_rollback_other. congruence.
      * intros x Nx. apply ready_rollback. intros E. apply Nx. rewrite map_app, E. apply elem_of_app. right. by constructor.
    + destruct (IH2 m) as [F1 F2 F3 F4]. split; [done..|]. intros x Nx. apply F4. intros Hx. apply Nx. rewrite map_app. apply elem_of_app. by left.
Qed.

Lemma is_missing_false (m : missing) o : ms_missing m !! o = None -> is_missing m o = false.
Proof. intros E. unfold is_missing. rewrite E. by apply bool_decide_eq_false, is_Some_None. Qed.

Lemma is_missing_true (m : missing) o i : ms_missing m !! o = Some i -> is_missing m o = true.
Proof. intros E. unfold is_missing. rewrite E. by apply bool_decide_eq_true. Qed.

(** The removal, unless the object is known not to be in the store. *)
Lemma remove_spec o es m s (back : entry) :
  (is_missing m o = false -> is_delete back = true -> sv s o = None) ->
  let s' := if negb (is_missing m o) && is_delete back then s else remove_if true o s in
  sv s' o = None /\ (forall l, sv (trim_all true l s') o = None) /\ (forall m' l, incl l es -> frame o es m' s m' (trim_all true l s')).
Proof.
  intros A s'. assert (sv s' o = None) as E.
  { subst s'. destruct (negb _ && _) eqn:B; [|cbn; rewrite sv_remove; by case_decide]. evbool. by apply A. }
  split_and!; [done|intros; by rewrite sv_trim_all|]. intros m' l I. apply (frame_trans _ _ _ _ m' s'); [|by apply frame_trim].
  subst s'. destruct (negb _ && _); [apply frame_refl|apply frame_remove].
Qed.

(** ** The entries that are not errors *)

Notation no_errors := (filter (fun e : entry => is_error e = false)).

Lemma strip_errors_spec o (q pre : list entry) first v (l : list entry) :
  (forall e, e ∈ l -> le_soid e = o) -> (first = true -> pre = []) -> (pre <> [] -> v = head_of pre) ->
  (forall e, e ∈ l -> ev_lt v (le_version e)) -> StronglySorted lt_entry l -> chained (q ++ pre ++ no_errors l) ->
  strip_errors o first (negb (bool_decide (pre = []))) v l = Ret (no_errors l).
Proof.
  revert pre first v. induction l as [|i l IH]; intros pre first v Ho Hf Hv Hlt Hs Hc; [done|].
  cbn [strip_errors]. rewrite bool_decide_eq_true_2 by (apply Ho; by constructor). cbn [rassert rbind].
  inversion Hs as [|? ? Hs' Hi]; subst. rewrite Forall_forall in Hi.
  assert (ev_lt v (le_version i)) as Hvi by (apply Hlt; by constructor).
  destruct (is_error i) eqn:Ei.
  - rewrite filter_cons_False in Hc |- * by congruence. rewrite andb_false_r, orb_false_r. cbn [negb].
    replace (ev_ltb v (le_version i)) with true by (symmetry; by apply ev_ltb_lt). rewrite orb_true_r.
    rewrite (IH pre false v); [by destruct (_ && _)| |done|done| |done|done].
    + intros e He. apply Ho. by constructor.
    + intros e He. apply Hlt. by constructor.
  - rewrite filter_cons_True in Hc |- * by done. cbn [negb]. rewrite orb_true_r, andb_true_r.
    assert (negb (bool_decide (pre ++ [i] = [])) = true) as En by (by rewrite bool_decide_eq_false_2 by (by destruct pre)).
    specialize (IH (pre ++ [i]) false (le_version i)). rewrite En in IH. rewrite IH; clear IH.
    + case_bool; [|done]. evbool. apply bool_decide_eq_false in H1.
      replace (ev_ltb v (le_version i)) with true by (symmetry; by apply ev_ltb_lt).
      rewrite Hv by done. rewrite app_assoc in Hc. apply chained_prior in Hc as ->; [|by destruct q|done].
      rewrite head_of_app_ne by done. replace (ev_eqb _ _) with true by (symmetry; by apply ev_eqb_eq). done.
    + intros e He. apply Ho. by constructor.
    + done.
    + intros _. rewrite head_of_app_ne by done. done.
    + intros e He. specialize (Hi e He). unfold lt_entry in Hi. ev_lia.
    + done.
    + by rewrite <- app_assoc.
Qed.

Lemma last_of_last (e : entry) l : last (e :: l) = Some (last_of e l).
Proof. revert e. induction l as [|x l IH]; intros e; [done|]. by rewrite last_cons_cons, IH. Qed.

(** ** One object *)

Section object.
Context (o last_backfill : O) (crt : eversion_t) (objects : gmap O entry) (orig : list entry) (front : entry) (rest : list entry).
Context (m : missing) (s : St).
Hypothesis Hbackfill : oleb o last_backfill = true.
Hypothesis Hstrip : orig <> [] /\ strip_errors o true false ev0 orig = Ret (front :: rest).
Let ds := front :: rest.
Let md := ms_may_include_deletes m.

(** Without a newer write of the object the divergent ones are undone. *)
Lemma merge_older (l : list entry) :
  (forall x, objects !! o = Some x -> ev_lt (le_version x) (le_version front)) ->
  chained (l ++ ds) -> (forall e, e ∈ ds -> le_soid e = o) -> NoDup (map le_version ds) ->
  okobj md (l ++ ds) (ms_missing m !! o) (sv s o) ->
  (forall e, e ∈ ds -> le_can_rollback e = true -> ev_lt crt (le_version e) -> ready s e) ->
  exists m' s', merge_object_divergent_entries objects o orig last_backfill crt true m s = Ret (m', s') /\
    okobj md l (ms_missing m' !! o) (sv s' o) /\ frame o ds m s m' s'.
Proof.
  intros Hobj Hc Ho Hn Hok Hr. destruct Hstrip as [Hne Es]. unfold merge_object_divergent_entries. rewrite Hbackfill, Es.
  assert (rassert (match orig with [] => false | _ => true end) = Ret tt) as -> by (by destruct orig). cbn [negb rbind].
  assert (cur l = before front) as Eb by (by apply (Hc l front rest)).
  assert (match objects !! o with Some x => ev_leb (le_version front) (le_version x) | None => false end = false) as Eo.
  { destruct (objects !! o) as [x|] eqn:E; [|done]. apply ev_leb_gt. by apply Hobj. }
  assert (last (l ++ ds) = Some (last_of front rest)) as El by (subst ds; by rewrite last_app, last_of_last).
  match goal with |- exists m' s', match _ with Some _ => if _ then _ else ?X | None => _ end = _ /\ _ => enough (exists m' s', X = Ret (m', s') /\ okobj md l (ms_missing m' !! o) (sv s' o) /\ frame o ds m s m' s') as G end.
  { destruct (objects !! o); [by rewrite Eo|done]. }
  fold ds. destruct (remove_spec o ds m s (last_of front rest)) as (R0 & R1 & R2).
  { intros Em Ed. unfold is_missing in Em. apply bool_decide_eq_false, eq_None_not_Some in Em. rewrite Em in Hok. cbn in Hok.
    rewrite Hok. unfold cur, after. by rewrite El, Ed. }
  assert (forall i, ms_missing m !! o = Some i -> mi_have i <> ev0 -> sv s o = Some (mi_have i)) as Hhave.
  { intros i Ei. rewrite Ei in Hok. destruct Hok as (e & _ & _ & _ & _ & Hok). done. }
  destruct (ev_eqb (le_prior_version front) ev0 || is_clone front) eqn:Ec.
  - eexists _, _. split; [reflexivity|]. split.
    + unfold before in Eb. rewrite Ec in Eb. rewrite R1. by destruct (ms_missing m !! o) as [i|] eqn:Em; [rewrite rm_item_lookup|rewrite Em]; rewrite <- Eb.
    + eapply frame_trans; [|apply R2, incl_refl]. destruct (ms_missing m !! o); [apply frame_rm|apply frame_refl].
  - pose proof Eb as Eb'. unfold before in Eb'. rewrite Ec in Eb'. apply orb_false_elim in Ec as [Ep _]. apply ev_eqb_neq in Ep.
    assert (exists e, last l = Some e /\ le_version e = le_prior_version front /\ is_delete e = false) as (e & E1 & E2 & E3).
    { unfold cur, after in Eb'. destruct (last l) as [e|]; [|done]. exists e. by destruct (is_delete e); simplify_eq. }
    destruct (ms_missing m !! o) as [i|] eqn:Em.
    + eexists _, _. split; [reflexivity|]. split.
      * rewrite sv_trim_all. destruct (ev_eqb _ _) eqn:Eh.
        -- rewrite rm_item_lookup. cbn. evbool. rewrite Eb', <- Eh. apply Hhave; [done|congruence].
        -- unfold revise_need. rewrite Em, set_item_lookup. exists e. cbn. split_and!; [done..|]. by apply Hhave.
      * eapply frame_trans; [|apply frame_trim, incl_refl]. case_bool; [apply frame_rm|apply frame_revise_need].
    + case_bool.
      * rewrite forallb_forall in Heqb. destruct (rollback_all o l ds s) as [G1 G2]; try done.
        { intros x Hx. destruct (andb_prop _ _ (Heqb x (proj1 (list_elem_of_In _ _) Hx))). apply Hr; [done..|ev_lia]. }
        eexists _, _. split; [reflexivity|]. split; [|apply G2]. rewrite Em. cbn. apply G1.
      * eexists _, _. split; [reflexivity|]. split.
        -- rewrite R1. unfold missing_add. rewrite set_item_lookup. exists e. cbn. by split_and!.
        -- eapply frame_trans; [apply frame_set|apply R2, incl_refl].
Qed.

(** With a newer write of the object it is removed, and recovered if that
    write does not delete it. *)
Lemma merge_newer (l : list entry) x :
  objects !! o = Some x -> last l = Some x -> is_error x = false -> ev_lt (le_version (last_of front rest)) (le_version x) ->
  ev_le (le_version front) (le_version (last_of front rest)) ->
  newest md x (ms_missing m !! o) (sv s o) ->
  exists m' s', merge_object_divergent_entries objects o orig last_backfill crt true m s = Ret (m', s') /\
    okobj md l (ms_missing m' !! o) (sv s' o) /\ frame o ds m s m' s'.
Proof.
  intros Eo El Ee Hlt Hle Hw. unfold newest in Hw. destruct Hstrip as [Hne Es]. unfold merge_object_divergent_entries. rewrite Hbackfill, Es.
  assert (rassert (match orig with [] => false | _ => true end) = Ret tt) as -> by (by destruct orig). cbn [negb rbind].
  rewrite Eo. replace (ev_leb _ _) with true by (symmetry; ev_lia). replace (ev_ltb _ _) with true by (symmetry; ev_lia). cbn [rassert rbind].
  assert (is_update x = negb (is_delete x)) as -> by (unfold is_update, is_delete, is_error in *; by destruct (le_op x)).
  fold ds md. destruct (remove_spec o ds m s (last_of front rest)) as (R0 & R1 & R2).
  { intros Em _. unfold is_missing in Em. apply bool_decide_eq_false, eq_None_not_Some in Em. rewrite Em in Hw. tauto. }
  match goal with |- exists m' s', (_ <~ ?X;; _) = _ /\ _ => assert (X = Ret tt) as -> end.
  { destruct (ms_missing m !! o) as [i|] eqn:Em.
    - destruct Hw as (-> & _ & Hw). replace (ev_eqb _ _) with true by (symmetry; by apply ev_eqb_eq).
      destruct md, (is_delete x); try done. by specialize (Hw eq_refl).
    - destruct Hw as (-> & -> & _). by rewrite is_missing_false. }
  eexists _, _. split; [reflexivity|]. split.
  - rewrite R1. unfold revise_have. destruct (ms_missing m !! o) as [i|] eqn:Em.
    + cbn [ms_missing]. rewrite lookup_insert_eq. exists x. cbn. tauto.
    + rewrite Em. cbn. unfold cur, after. rewrite El. by destruct Hw as (_ & -> & _).
  - eapply frame_trans; [apply frame_revise_have|apply R2, incl_refl].
Qed.
End object.
End merge.

(** The order of objects is total. *)
Class ObjOrderLaws (O : Type) `{!ObjOrder O} := {
  ocmp_eq : forall a b, ocmp a b = 0 <-> a = b;
  ocmp_sym : forall a b, ocmp a b < 0 <-> 0 < ocmp b a;
  ocmp_trans : forall a b c, ocmp a b < 0 -> ocmp b c < 0 -> ocmp a c < 0;
}.

Section divergent.
Context {O : Type} `{Countable O} `{!ObjOrder O} `{!ObjOrderLaws O}.
Notation entry := (pg_log_entry_t (O:=O)).
Notation missing := (pg_missing_set (O:=O)).

(** ** [split_by_object] *)

Definition lt_key (a b : O * list entry) : Prop := ocmp a.1 b.1 < 0.

Lemma lt_key_ne a b : lt_key a b -> a.1 <> b.1.
Proof. unfold lt_key. intros L E. apply ocmp_eq in E. lia. Qed.

Definition splits (d : list entry) (g : list (O * list entry)) : Prop :=
  StronglySorted lt_key g /\ forall o l, (o, l) ∈ g <-> l = filter (fun e => le_soid e = o) d /\ l <> [].

Lemma split_add_spec e (g : list (O * list entry)) :
  StronglySorted lt_key g ->
  StronglySorted lt_key (split_add e g) /\
  forall o l, (o, l) ∈ split_add e g <->
    (o <> le_soid e /\ (o, l) ∈ g) \/ (o = le_soid e /\ ((exists l', (o, l') ∈ g /\ l = l' ++ [e]) \/ ((forall l', (o, l') ∉ g) /\ l = [e]))).
Proof.
  induction g as [|[o1 l1] g IH]; intros S; cbn [split_add].
  - split; [repeat constructor|]. intros o l. rewrite list_elem_of_singleton. split.
    + intros [= -> ->]. right. split; [done|]. right. split; [|done]. intros l'. apply not_elem_of_nil.
    + intros [[_ Hx]|[-> [(l' & Hx & _)|[_ ->]]]]; [by apply elem_of_nil in Hx..|done].
  - inversion S as [|? ? S1 F]; subst. rewrite Forall_forall in F.
    assert (forall l', (o1, l') ∉ g) as N1 by (intros l' Hl; by apply (lt_key_ne _ _ (F _ Hl))).
    case_bool_decide as E.
    + subst o1. split; [constructor; [done|]; by apply Forall_forall|]. intros o l. rewrite !elem_of_cons. split.
      * intros [[= -> ->]|Hx]; [right; split; [done|]; left; exists l1; split; [by constructor|done]|].
        left. split; [|by right]. intros ->. by apply N1 in Hx.
      * intros [[N [[= -> ->]|Hx]]|[-> [(l' & Hl & ->)|[Hn ->]]]]; [done|by right| |].
        -- apply elem_of_cons in Hl as [[= ->]|Hl]; [by left|by apply N1 in Hl].
        -- exfalso. apply (Hn l1). by constructor.
    + case_bool; zbool.
      * assert (forall l', (le_soid e, l') ∉ (o1, l1) :: g) as N2.
        { intros l' Hl. apply elem_of_cons in Hl as [Hl|Hl]; [congruence|]. specialize (F _ Hl). unfold lt_key in F. cbn in F.
          pose proof (ocmp_trans _ _ _ Heqb F). pose proof (proj2 (ocmp_eq (le_soid e) (le_soid e)) eq_refl). lia. }
        split.
        -- constructor; [done|]. constructor; [done|]. apply Forall_forall. intros x Hx. by apply (ocmp_trans _ o1); [|apply (F x)].
        -- intros o l. rewrite (elem_of_cons _ _ ((le_soid e, [e]))). split.
           ++ intros [[= -> ->]|Hx]; [right; split; [done|]; by right|]. left. split; [|done]. intros ->. by apply N2 in Hx.
           ++ intros [[N Hx]|[-> [(l' & Hl & ->)|[Hn ->]]]]; [by right|by apply N2 in Hl|by left].
      * destruct (IH S1) as [IH1 IH2]. assert (ocmp o1 (le_soid e) < 0) as L.
        { apply ocmp_sym. assert (ocmp (le_soid e) o1 <> 0) by (by rewrite ocmp_eq). lia. }
        split.
        -- constructor; [done|]. apply Forall_forall. intros [o l] Hx. apply IH2 in Hx as [[_ Hx]|[-> _]]; [by apply (F _ Hx)|done].
        -- intros o l. rewrite elem_of_cons, IH2. split.
           ++ intros [[= -> ->]|[[N Hx]|[-> [(l' & Hl & ->)|[Hn ->]]]]].
              ** left. split; [congruence|by constructor].
              ** left. split; [done|by constructor].
              ** right. split; [done|]. left. exists l'. split; [by constructor|done].
              ** right. split; [done|]. right. split; [|done]. intros l' Hl. apply elem_of_cons in Hl as [Hl|Hl]; [congruence|by apply Hn in Hl].
           ++ intros [[N Hx]|[-> [(l' & Hl & ->)|[Hn ->]]]].
              ** apply elem_of_cons in Hx as [Hx|Hx]; [by left|right; left; done].
              ** right. right. split; [done|]. left. exists l'. split; [|done]. apply elem_of_cons in Hl as [Hl|Hl]; [congruence|done].
              ** right. right. split; [done|]. right. split; [|done]. intros l' Hl. apply (Hn l'). by constructor.
Qed.

Lemma split_by_object_spec (d : list entry) : splits d (split_by_object d).
Proof.
  unfold split_by_object, splits. induction d as [|e d IH] using rev_ind; cbn.
  { split; [constructor|]. intros o l. split; [by intros ?%elem_of_nil|]. intros [-> ?]. done. }
  rewrite foldl_snoc. destruct IH as [IH1 IH2]. destruct (split_add_spec e _ IH1) as [S1 S2]. split; [done|].
  intros o l. rewrite S2, filter_app. setoid_rewrite IH2. clear. split.
  - intros [(N & -> & L)|[-> [(l' & [-> L] & ->)|[L ->]]]].
    + rewrite filter_cons_False by done. by rewrite filter_nil, app_nil_r.
    + rewrite filter_cons_True by done. split; [done|]. by destruct (filter _ d).
    + rewrite filter_cons_True by done. split; [|done]. destruct (filter _ d) as [|x f] eqn:E; [done|]. exfalso. by apply (L (x :: f)).
  - intros [-> L]. destruct (decide (le_soid e = o)) as [E|E].
    + right. split; [done|]. rewrite filter_cons_True by done. destruct (filter _ d) as [|x f] eqn:F; [right|left].
      * split; [|done]. intros l' [-> ?]. congruence.
      * exists (x :: f). done.
    + left. rewrite filter_cons_False, filter_nil, app_nil_r in * by done. done.
Qed.

Lemma filter_sorted (P : entry -> Prop) `{!forall x, Decision (P x)} (l : list entry) : StronglySorted lt_entry l -> StronglySorted lt_entry (filter P l).
Proof.
  induction 1 as [|e l S IH F]; [constructor|]. destruct (decide (P e)).
  - rewrite filter_cons_True by done. constructor; [done|]. rewrite Forall_forall in F |- *. intros x Hx. apply F. by apply list_elem_of_filter in Hx as [_ ?].
  - by rewrite filter_cons_False.
Qed.

Lemma sorted_versions (l : list entry) : StronglySorted lt_entry l -> NoDup (map le_version l).
Proof.
  induction 1 as [|e l S IH F]; cbn; constructor; [|done]. rewrite Forall_forall in F.
  intros Hx. apply list_elem_of_In, in_map_iff in Hx as (x & E & Hx). apply list_elem_of_In in Hx. specialize (F x Hx).
  unfold lt_entry in F. rewrite E in F. by apply vlt_irrefl in F.
Qed.

Lemma version_inj (l : list entry) e e' : StronglySorted lt_entry l -> e ∈ l -> e' ∈ l -> le_version e = le_version e' -> e = e'.
Proof.
  induction 1 as [|x l S IH F]; [by intros ?%elem_of_nil|]. rewrite Forall_forall in F. rewrite !elem_of_cons.
  intros [->|He] [->|He'] E; [done| | |by apply IH].
  - specialize (F _ He'). unfold lt_entry in F. rewrite E in F. by apply vlt_irrefl in F.
  - specialize (F _ He). unfold lt_entry in F. rewrite E in F. by apply vlt_irrefl in F.
Qed.

Lemma hist_filter o (d : list entry) : hist o d = filter (fun e => is_error e = false) (filter (fun e => le_soid e = o) d).
Proof. unfold hist. rewrite list_filter_filter. apply list_filter_iff. tauto. Qed.

Context {St : Type} `{!LogEntryHandler (O:=O) St} `{!StoreLaws St}.

Lemma frame_incl o (es es' : list entry) m (s : St) m' s' : incl es es' -> frame o es m s m' s' -> frame o es' m s m' s'.
Proof.
  intros I [F1 F2 F3 F4]. split; [done..|]. intros e N. apply F4. intros Hx. apply N. apply list_elem_of_In. apply list_elem_of_In in Hx.
  apply in_map_iff in Hx as (x & E & Hx). apply in_map_iff. exists x. split; [done|by apply I].
Qed.

(** The objects one after the other: what holds of each one after its merge
    holds at the end. *)
Lemma merge_objects_spec objects last_backfill crt (post : O -> option pg_missing_item -> option eversion_t -> Prop) (g : list (O * list entry)) (m : missing) (s : St) :
  StronglySorted lt_key g ->
  (forall o l o' l' e e', (o, l) ∈ g -> (o', l') ∈ g -> o <> o' -> e ∈ l -> e' ∈ l' -> le_version e <> le_version e') ->
  (forall o l, (o, l) ∈ g -> oleb o last_backfill = true ->
     forall m1 s1, ms_may_include_deletes m1 = ms_may_include_deletes m -> ms_missing m1 !! o = ms_missing m !! o -> sv s1 o = sv s o ->
     (forall e, e ∈ l -> ready s e -> ready s1 e) ->
     exists m2 s2, merge_object_divergent_entries objects o l last_backfill crt true m1 s1 = Ret (m2, s2) /\
       post o (ms_missing m2 !! o) (sv s2 o) /\ frame o l m1 s1 m2 s2) ->
  exists m' s', merge_objects objects g last_backfill crt true m s = Ret (m', s') /\
    ms_may_include_deletes m' = ms_may_include_deletes m /\
    (forall o l, (o, l) ∈ g -> oleb o last_backfill = true -> post o (ms_missing m' !! o) (sv s' o)) /\
    (forall o, (forall l, (o, l) ∉ g) \/ oleb o last_backfill = false -> ms_missing m' !! o = ms_missing m !! o /\ sv s' o = sv s o) /\
    (forall e, (forall o l e', (o, l) ∈ g -> e' ∈ l -> le_version e <> le_version e') -> ready s e -> ready s' e).
Proof.
  revert m s. induction g as [|[o l] g IH]; intros m s Hs Hn Hstep; cbn [merge_objects].
  { exists m, s. split_and!; try done. intros o l Hx. by apply elem_of_nil in Hx. }
  inversion Hs as [|? ? Hs1 F]; subst. rewrite Forall_forall in F.
  assert (forall l', (o, l') ∉ g) as No by (intros l' Hl; by apply (lt_key_ne _ _ (F _ Hl))).
  assert (exists m1 s1, merge_object_divergent_entries objects o l last_backfill crt true m s = Ret (m1, s1) /\
    (oleb o last_backfill = true -> post o (ms_missing m1 !! o) (sv s1 o)) /\
    (oleb o last_backfill = false -> ms_missing m1 !! o = ms_missing m !! o /\ sv s1 o = sv s o) /\ frame o l m s m1 s1) as (m1 & s1 & E1 & G1 & G2 & G3).
  { destruct (oleb o last_backfill) eqn:Eb.
    - destruct (Hstep o l ltac:(by constructor) Eb m s) as (m1 & s1 & ? & ? & ?); [done..|]. exists m1, s1. by split_and!.
    - exists m, s. split_and!; [|done|done|apply frame_refl]. unfold merge_object_divergent_entries. by rewrite Eb. }
  rewrite E1. cbn [rbind]. destruct G3 as [F1 F2 F3 F4].
  destruct (IH m1 s1 Hs1) as (m' & s' & E2 & M1 & M2 & M3 & M4).
  { intros a la b lb e e' Ha Hb. eapply Hn; constructor; eassumption. }
  { intros o' l' Hx Hb m2 s2 A1 A2 A3 A4. assert (o' <> o) by (intros ->; by apply No in Hx). apply Hstep; [by constructor|done|congruence|rewrite A2; by apply F2|rewrite A3; by apply F3|].
    intros e He Hr. apply A4; [done|]. apply F4; [|done]. intros Hv. apply list_elem_of_In, in_map_iff in Hv as (x & Ev & Hv).
    apply (Hn o l o' l' x e); [by constructor|by constructor|done|by apply list_elem_of_In|done|done]. }
  exists m', s'. split_and!; [done|congruence| | |].
  - intros o' l' Hx Hb. apply elem_of_cons in Hx as [[= -> ->]|Hx]; [|by eapply M2]. destruct (M3 o ltac:(by left)) as [-> ->]. by apply G1.
  - intros o' Ho'. destruct (M3 o') as [-> ->].
    { destruct Ho' as [Ho'|?]; [left|by right]. intros l' Hl. apply (Ho' l'). by constructor. }
    destruct (decide (o' = o)) as [->|N]; [|by rewrite F2, F3]. destruct Ho' as [Ho'|?]; [|by apply G2]. exfalso. apply (Ho' l). by constructor.
  - intros e He Hr. apply M4; [intros a la e' Ha; apply (He a la); by constructor|]. apply F4; [|done].
    intros Hv. apply list_elem_of_In, in_map_iff in Hv as (x & Ev & Hv). apply list_elem_of_In in Hv. by apply (He o l x ltac:(by constructor) Hv).
Qed.

(** ** The divergent part of a history *)

Section history.
Context (p d n : list entry) (objects : gmap O entry) (last_backfill : O) (crt : eversion_t) (m : missing) (s : St).
Let md := ms_may_include_deletes m.
Hypothesis Hd : history (p ++ d).
Hypothesis Hrollback : rollbackable crt d s.

(** An object with divergent writes: either it has no write in [n] and is as
    after them, or the last one in [n] is indexed, newer, and already taken
    into account. *)
Definition diverged (o : O) (mo : option pg_missing_item) (v : option eversion_t) : Prop :=
  (hist o n = [] /\ (forall x, objects !! o = Some x -> x ∈ p) /\ okobj md (hist o (p ++ d)) mo v) \/
  (exists x, objects !! o = Some x /\ last (hist o n) = Some x /\ (forall y, y ∈ d -> ev_lt (le_version y) (le_version x)) /\ newest md x mo v).

Lemma strip_group o : strip_errors o true false ev0 (filter (fun e => le_soid e = o) d) = Ret (hist o d).
Proof.
  rewrite hist_filter. pose proof Hd as [S P C]. apply sorted_app in S as (_ & S & _).
  apply (strip_errors_spec o (hist o p) [] true ev0); [|done|done| | |].
  - by intros e [? _]%list_elem_of_filter.
  - intros e [_ He]%list_elem_of_filter. assert (vlt ev0 (le_version e)) by (apply P, elem_of_app; by right). ev_lia.
  - by apply filter_sorted.
  - cbn [app]. rewrite <- hist_filter, <- writes_app. apply C.
Qed.

Lemma merge_group o (m1 : missing) (s1 : St) :
  oleb o last_backfill = true -> filter (fun e => le_soid e = o) d <> [] ->
  (hist o d <> [] -> diverged o (ms_missing m !! o) (sv s o)) ->
  ms_may_include_deletes m1 = md -> ms_missing m1 !! o = ms_missing m !! o -> sv s1 o = sv s o ->
  (forall e, e ∈ filter (fun e => le_soid e = o) d -> ready s e -> ready s1 e) ->
  exists m2 s2, merge_object_divergent_entries objects o (filter (fun e => le_soid e = o) d) last_backfill crt true m1 s1 = Ret (m2, s2) /\
    (if decide (hist o d = []) then ms_missing m2 !! o = ms_missing m !! o /\ sv s2 o = sv s o else okobj md (hist o (p ++ n)) (ms_missing m2 !! o) (sv s2 o)) /\
    frame o (filter (fun e => le_soid e = o) d) m1 s1 m2 s2.
Proof.
  intros Hb Hne Hdiv Emd Em Es Hr. pose proof (strip_group o) as Hstrip. case_decide as Eh.
  - exists m1, s1. split_and!; [|done|done|apply frame_refl]. unfold merge_object_divergent_entries. rewrite Hb, Hstrip, Eh. by destruct (filter _ d).
  - destruct (hist o d) as [|front rest] eqn:Ed; [done|].
    assert (forall e, e ∈ front :: rest -> le_soid e = o /\ is_error e = false /\ e ∈ d) as Hel by (intros e; rewrite <- Ed; apply elem_hist).
    assert (incl (front :: rest) (filter (fun e => le_soid e = o) d)) as I.
    { intros e He. apply list_elem_of_In, Hel in He as (? & ? & ?). apply list_elem_of_In. by apply list_elem_of_filter. }
    pose proof Hd as [S _ C]. specialize (C o). rewrite writes_app, Ed in C. apply sorted_app in S as (_ & S & Spd).
    assert (StronglySorted lt_entry (front :: rest)) as Sr by (rewrite <- Ed; by apply filter_sorted).
    specialize (Hdiv ltac:(done)). destruct Hdiv as [(En & Hx & Hok)|(x & Ex & El & Hlt & Hw)].
    + rewrite writes_app, En, app_nil_r. rewrite writes_app, Ed in Hok. rewrite <- Em, <- Es in Hok.
      destruct (merge_older o last_backfill crt objects (filter (fun e => le_soid e = o) d) front rest m1 s1 Hb ltac:(done) (hist o p)) as (m2 & s2 & G1 & G2 & G3).
      * intros x Ex. specialize (Spd x front (Hx x Ex) ltac:(apply Hel; by constructor)). unfold lt_entry in Spd. ev_lia.
      * done.
      * intros e He. by apply Hel.
      * by apply sorted_versions.
      * by rewrite Emd.
      * intros e He Hc Hlt. apply Hr; [by apply list_elem_of_In, I, list_elem_of_In|]. apply Hel in He as (_ & ? & ?). by apply Hrollback.
      * exists m2, s2. rewrite Emd in G2. split_and!; [done..|]. by eapply frame_incl.
    + assert (last_of front rest ∈ front :: rest) as Hlast by (apply last_Some_elem_of, last_of_last).
      assert (x ∈ hist o n) as Hn by by apply last_Some_elem_of.
      destruct (merge_newer o last_backfill crt objects (filter (fun e => le_soid e = o) d) front rest m1 s1 Hb ltac:(done) (hist o (p ++ n)) x Ex) as (m2 & s2 & G1 & G2 & G3).
      * rewrite writes_app, last_app, El. done.
      * apply elem_hist in Hn. tauto.
      * apply Hlt. by apply Hel.
      * apply elem_of_cons in Hlast as [->|Hlast]; [unfold ev_le; lia|]. inversion Sr as [|? ? _ F]; subst. rewrite Forall_forall in F. specialize (F _ Hlast). unfold lt_entry in F. ev_lia.
      * by rewrite Em, Es, Emd.
      * exists m2, s2. rewrite Emd in G2. split_and!; [done..|]. by eapply frame_incl.
Qed.

Lemma merge_divergent_spec :
  (forall o, oleb o last_backfill = true -> hist o d <> [] -> diverged o (ms_missing m !! o) (sv s o)) ->
  exists m' s', merge_objects objects (split_by_object d) last_backfill crt true m s = Ret (m', s') /\
    ms_may_include_deletes m' = md /\
    (forall o, oleb o last_backfill = true -> hist o d <> [] -> okobj md (hist o (p ++ n)) (ms_missing m' !! o) (sv s' o)) /\
    (forall o, hist o d = [] \/ oleb o last_backfill = false -> ms_missing m' !! o = ms_missing m !! o /\ sv s' o = sv s o) /\
    (forall e, e ∈ p -> ready s e -> ready s' e).
Proof.
  intros Hdiv. destruct (split_by_object_spec d) as [Sg Hg]. pose proof Hd as [S _ _]. apply sorted_app in S as (_ & S & Spd).
  destruct (merge_objects_spec objects last_backfill crt
    (fun o mo v => if decide (hist o d = []) then mo = ms_missing m !! o /\ v = sv s o else okobj md (hist o (p ++ n)) mo v) _ m s Sg) as (m' & s' & E & G1 & G2 & G3 & G4).
  - intros o l o' l' e e' Hl Hl' No He He' Ev. apply Hg in Hl as [-> _], Hl' as [-> _]. apply list_elem_of_filter in He as [<- He], He' as [<- He'].
    by rewrite (version_inj d e e') in No.
  - intros o l Hl Hb m1 s1 A1 A2 A3 A4. apply Hg in Hl as [-> Hl]. apply merge_group; try done. by apply Hdiv.
  - exists m', s'. split_and!; [done..| | |].
    + intros o Hb Hh. specialize (G2 o (filter (fun e => le_soid e = o) d)). rewrite decide_False in G2 by done. apply G2; [|done].
      apply Hg. split; [done|]. intros E'. by rewrite hist_filter, E' in Hh.
    + intros o Ho. destruct (decide (oleb o last_backfill = true)) as [Hb|Hb]; [|apply G3; right; by apply not_true_iff_false].
      destruct Ho as [Ho|Ho]; [|congruence]. destruct (decide (filter (fun e => le_soid e = o) d = [])) as [Ef|Ef].
      * apply G3. left. intros l Hl. apply Hg in Hl as [-> Hl]. done.
      * specialize (G2 o (filter (fun e => le_soid e = o) d)). rewrite decide_True in G2 by done. apply G2; [|done]. by apply Hg.
    + intros e He. apply G4. intros o l e' Hl He' Ev. apply Hg in Hl as [-> _]. apply list_elem_of_filter in He' as [_ He'].
      specialize (Spd e e' He He'). unfold lt_entry in Spd. rewrite Ev in Spd. by apply vlt_irrefl in Spd.
Qed.
End history.
End divergent.
