(* ===== verification/PgRewind.v ===== *)
(** * Appending to a log, rewinding and extending it

    The operations [merge_log] (PgLog.v) is made of, on an OSD at the end of a
    history [p ++ d]: appending new writes, after which the log, the missing
    set and the store follow the history ([append_loop_spec]), taking the log
    back to the end of [p] ([rewind_divergent_spec]), and filling in older
    entries ([extend_tail_spec]). *)

From S2P Require Import Prelude PgLog PgHist PgDivergent.
From stdpp Require Import gmap sorting.
Open Scope Z_scope.

Section append.
Context {O : Type} `{Countable O} `{!ObjOrder O} {St : Type} `{!LogEntryHandler (O:=O) St} `{!StoreLaws St}.
Notation entry := (pg_log_entry_t (O:=O)).
Notation missing := (pg_missing_set (O:=O)).

(** What is needed of the object is older than the entry. *)
Definition older (mo : option pg_missing_item) (e : entry) : Prop := forall i, mo = Some i -> ev_lt (mi_need i) (le_version e).

(** ** One entry *)

Section one.
Context (last_backfill : O) (mr : bool) (e : entry) (m : missing) (s : St).
Let md := ms_may_include_deletes m.
Let m' := (append_one last_backfill mr true e m s).1.
Let s' := (append_one last_backfill mr true e m s).2.

Lemma missing_rm_lookup o v (m0 : missing) : (forall i, ms_missing m0 !! o = Some i -> ev_le (mi_need i) v) -> ms_missing (missing_rm o v m0) !! o = None.
Proof.
  intros Hi. unfold missing_rm. destruct (ms_missing m0 !! o) as [i|] eqn:E; [|done].
  replace (ev_leb _ _) with true by (symmetry; apply ev_leb_le; by apply Hi). apply rm_item_lookup.
Qed.

Lemma add_next_other o (m0 : missing) : le_soid e <> o -> ms_missing (add_next_event e m0) !! o = ms_missing m0 !! o.
Proof.
  intros N. unfold add_next_event. case_bool; [by apply lookup_insert_ne|]. destruct (ms_missing m0 !! le_soid e); by apply lookup_insert_ne.
Qed.

Lemma add_next_newest (m0 : missing) v :
  (ms_may_include_deletes m0 = false -> is_delete e = false) -> newest (ms_may_include_deletes m0) e (ms_missing (add_next_event e m0) !! le_soid e) v.
Proof.
  intros Hd. unfold add_next_event. case_bool; [by rewrite set_item_lookup|].
  by destruct (ms_missing m0 !! le_soid e); rewrite set_item_lookup.
Qed.

Lemma add_next_ok (m0 : missing) l v :
  cur l = before e -> (ms_may_include_deletes m0 = false -> is_delete e = false) ->
  okobj (ms_may_include_deletes m0) l (ms_missing m0 !! le_soid e) v ->
  okobj (ms_may_include_deletes m0) (l ++ [e]) (ms_missing (add_next_event e m0) !! le_soid e) v.
Proof.
  intros Eb Hd Hok. unfold add_next_event. unfold before in Eb. destruct (ev_eqb _ _ || _).
  { rewrite set_item_lookup. exists e. rewrite last_snoc. by split_and!. }
  destruct (ms_missing m0 !! le_soid e) as [i|] eqn:Em; rewrite set_item_lookup; exists e; rewrite last_snoc; split_and!; try done.
  - by destruct Hok as (x & _ & _ & _ & _ & Hok).
  - cbn in Hok |- *. by rewrite Hok, Eb.
Qed.

Lemma append_one_md : ms_may_include_deletes m' = md.
Proof.
  subst m' md. unfold append_one, missing_rm, add_next_event. repeat first [case_bool | case_match]; done.
Qed.

Lemma append_one_ready x : ready s x -> ready s' x.
Proof. subst s'. unfold append_one. repeat case_bool; cbn; auto using ready_remove, ready_stash. Qed.

Lemma append_one_other o : le_soid e <> o \/ is_error e = true \/ oleb o last_backfill = false -> ms_missing m' !! o = ms_missing m !! o /\ sv s' o = sv s o.
Proof.
  intros Ho. subst m' s'. unfold append_one. case_bool; [|done]. evbool.
  assert (le_soid e <> o) as N. { destruct Ho as [?|[?|?]]; congruence. }
  case_bool; cbn [fst snd]; [by rewrite add_next_other|]. split.
  - case_bool; [|by apply add_next_other]. unfold missing_rm. destruct (ms_missing m !! le_soid e); [|done]. case_bool; [|done]. by apply lookup_delete_ne.
  - case_bool; [by rewrite sv_stash, decide_False|]. case_bool; [by rewrite sv_remove, decide_False|done].
Qed.

Hypothesis Hb : oleb (le_soid e) last_backfill = true.
Hypothesis He : is_error e = false.

(** The entry is applied or the object needs it. *)
Lemma append_one_newest : older (ms_missing m !! le_soid e) e -> newest md e (ms_missing m' !! le_soid e) (sv s' (le_soid e)).
Proof.
  intros Hold. subst m' s' md. unfold append_one. rewrite Hb, He. cbn [negb andb]. destruct (ms_may_include_deletes m) eqn:Emd; cbn [fst snd].
  - pose proof (add_next_newest m (sv s (le_soid e))) as A. rewrite Emd in A. by apply A.
  - destruct (is_delete e) eqn:Ed.
    + rewrite missing_rm_lookup by (intros i Hi; specialize (Hold i Hi); ev_lia). cbn. split_and!; [done..|].
      case_bool; [rewrite sv_stash|rewrite sv_remove]; by rewrite decide_True.
    + pose proof (add_next_newest m) as A. rewrite Emd in A. by apply A.
Qed.

Lemma append_one_ok l : older (ms_missing m !! le_soid e) e -> cur l = before e -> okobj md l (ms_missing m !! le_soid e) (sv s (le_soid e)) ->
  okobj md (l ++ [e]) (ms_missing m' !! le_soid e) (sv s' (le_soid e)).
Proof.
  intros Hold Hc Hok. subst m' s' md. unfold append_one. rewrite Hb, He. cbn [negb andb]. destruct (ms_may_include_deletes m) eqn:Emd; cbn [fst snd].
  - pose proof (add_next_ok m l (sv s (le_soid e)) Hc) as A. rewrite Emd in A. by apply A.
  - destruct (is_delete e) eqn:Ed.
    + rewrite missing_rm_lookup by (intros i Hi; specialize (Hold i Hi); ev_lia). cbn. rewrite cur_snoc. unfold after. rewrite Ed.
      case_bool; [rewrite sv_stash|rewrite sv_remove]; by rewrite decide_True.
    + pose proof (add_next_ok m l (sv s (le_soid e)) Hc) as A. rewrite Emd in A.
      assert (is_lost_delete e = false) as -> by (unfold is_lost_delete, is_delete in *; by destruct (le_op e)).
      rewrite andb_false_r. by apply A.
Qed.
End one.

(** ** The log *)

Lemma logs_add h (l : IndexedLog (O:=O)) e : history (h ++ [e]) -> logs h l ->
  exists l', il_add e l = Ret l' /\ logs (h ++ [e]) l' /\ pl_tail (il_pl l') = pl_tail (il_pl l) /\
    pl_can_rollback_to (il_pl l') = pl_can_rollback_to (il_pl l) /\ pl_rollback_info_trimmed_to (il_pl l') = pl_rollback_info_trimmed_to (il_pl l) /\
    pl_dups (il_pl l') = pl_dups (il_pl l).
Proof.
  intros Hh [L1 L2 L3 L4 [L5 L6]]. pose proof (head_of_lt h [e] e Hh ltac:(by constructor)) as V. unfold il_add. rewrite L1.
  replace (ev_ltb _ _) with true by (symmetry; ev_lia). replace (_ <? _) with true by (symmetry; apply Z.ltb_lt; ev_lia).
  rewrite orb_true_r. eexists. split; [reflexivity|]. rewrite L4. cbn. split_and!; [|done..].
  assert (head_of (h ++ [e]) = le_version e) as Eh by by rewrite head_of_app_ne. split; cbn.
  - done.
  - rewrite above_app, <- L2. f_equal. symmetry. apply above_all. intros x ->%list_elem_of_singleton. ev_lia.
  - unfold index_of. by rewrite foldl_snoc, L3.
  - done.
  - split; [done|]. rewrite Eh. ev_lia.
Qed.

Lemma hist_cons o e (l : list entry) : hist o (e :: l) = if decide (le_soid e = o /\ is_error e = false) then e :: hist o l else hist o l.
Proof. unfold hist. by rewrite filter_cons. Qed.

(** ** All entries *)

Record appended (last_backfill : O) (n : list entry) (m : missing) (s : St) (m' : missing) (s' : St) : Prop := Appended {
  ap_md : ms_may_include_deletes m' = ms_may_include_deletes m;
  ap_other : forall o, oleb o last_backfill = false \/ hist o n = [] -> ms_missing m' !! o = ms_missing m !! o /\ sv s' o = sv s o;
  ap_ok : forall o l, oleb o last_backfill = true -> chained (l ++ hist o n) -> (forall e, e ∈ n -> older (ms_missing m !! o) e) ->
    okobj (ms_may_include_deletes m) l (ms_missing m !! o) (sv s o) -> okobj (ms_may_include_deletes m) (l ++ hist o n) (ms_missing m' !! o) (sv s' o);
  ap_newest : forall o x, oleb o last_backfill = true -> last (hist o n) = Some x -> (forall e, e ∈ n -> older (ms_missing m !! o) e) ->
    newest (ms_may_include_deletes m) x (ms_missing m' !! o) (sv s' o);
  ap_ready : forall e, ready s e -> ready s' e;
}.

Lemma appended_cons last_backfill mr e n m s m1 s1 m' s' :
  StronglySorted lt_entry (e :: n) -> append_one last_backfill mr true e m s = (m1, s1) ->
  appended last_backfill n m1 s1 m' s' -> appended last_backfill (e :: n) m s m' s'.
Proof.
  intros S E [A1 A2 A3 A4 A5]. inversion S as [|? ? _ F]; subst. rewrite Forall_forall in F.
  pose proof (append_one_md last_backfill mr e m s) as B1. pose proof (append_one_other last_backfill mr e m s) as B2.
  pose proof (append_one_ready last_backfill mr e m s) as B3. pose proof (append_one_newest last_backfill mr e m s) as B4. pose proof (append_one_ok last_backfill mr e m s) as B5.
  rewrite E in B1, B2, B3, B4, B5. cbn [fst snd] in *. rewrite B1 in *.
  assert (forall o, le_soid e = o /\ is_error e = false \/ ~ (le_soid e = o /\ is_error e = false) /\ ms_missing m1 !! o = ms_missing m !! o /\ sv s1 o = sv s o) as Cases.
  { intros o. destruct (decide (le_soid e = o /\ is_error e = false)) as [D|D]; [by left|right]. split; [done|]. apply B2.
    destruct (decide (le_soid e = o)); [right; left|by left]. destruct (is_error e) eqn:Ee; [done|by destruct D]. }
  assert (forall o x, newest (ms_may_include_deletes m) e (ms_missing m1 !! o) x -> forall y, y ∈ n -> older (ms_missing m1 !! o) y) as Next.
  { intros o x N y Hy i Hi. rewrite Hi in N. destruct N as [-> _]. specialize (F y Hy). unfold lt_entry in F. ev_lia. }
  split; [done| | | |auto].
  - intros o Ho. rewrite hist_cons in Ho. destruct (Cases o) as [D|(D & E1 & E2)].
    + rewrite decide_True in Ho by done. destruct Ho as [Ho|Ho]; [|done]. destruct (A2 o ltac:(by left)) as [-> ->]. apply B2. by right; right.
    + rewrite decide_False in Ho by done. destruct (A2 o Ho) as [-> ->]. done.
  - intros o l Hb Hc Hold Hok. rewrite hist_cons in Hc |- *. destruct (Cases o) as [D|(D & E1 & E2)].
    + rewrite decide_True in Hc |- * by done. destruct D as [<- De]. rewrite cons_middle, app_assoc in Hc |- *. apply A3; [done|done| |].
      * eapply Next. apply B4; [done..|]. apply Hold. by constructor.
      * apply B5; [done..| | |done]; [apply Hold; by constructor|]. eapply (Hc l e). by rewrite <- app_assoc.
    + rewrite decide_False in Hc |- * by done. rewrite <- E1, <- E2 in Hok. apply A3; try done. intros y Hy. rewrite E1. apply Hold. by constructor.
  - intros o x Hb Hl Hold. rewrite hist_cons in Hl. destruct (Cases o) as [D|(D & E1 & E2)].
    + rewrite decide_True in Hl by done. destruct D as [<- De]. assert (newest (ms_may_include_deletes m) e (ms_missing m1 !! le_soid e) (sv s1 (le_soid e))) as N.
      { apply B4; [done..|]. apply Hold. by constructor. }
      destruct (hist (le_soid e) n) as [|y t] eqn:Eh.
      * injection Hl as <-. destruct (A2 (le_soid e) ltac:(by right)) as [-> ->]. done.
      * rewrite last_cons_cons in Hl. apply A4; [done|by rewrite Eh|]. by eapply Next.
    + rewrite decide_False in Hl by done. apply A4; [done..|]. intros y Hy. rewrite E1. apply Hold. by constructor.
Qed.

Lemma append_loop_spec last_backfill mr h n (l : IndexedLog (O:=O)) (m : missing) (s : St) :
  history (h ++ n) -> logs h l ->
  exists l' m' s', append_loop last_backfill n mr true (Some l) m s = Ret (Some l', m', s') /\ logs (h ++ n) l' /\ appended last_backfill n m s m' s' /\
    pl_tail (il_pl l') = pl_tail (il_pl l) /\ pl_can_rollback_to (il_pl l') = pl_can_rollback_to (il_pl l) /\ pl_dups (il_pl l') = pl_dups (il_pl l).
Proof.
  revert h l m s. induction n as [|e n IH]; intros h l m s Hh Hl; cbn [append_loop].
  { exists l, m, s. rewrite app_nil_r. split_and!; try done. split; try done. intros o l0 _ _ _. by rewrite app_nil_r. }
  rewrite cons_middle, app_assoc in Hh |- *. destruct (logs_add h l e) as (l1 & -> & L1 & L2 & L3 & _ & L4); [by eapply history_app|done|]. cbn [rbind].
  destruct (append_one last_backfill mr true e m s) as [m1 s1] eqn:E1.
  destruct (IH (h ++ [e]) l1 m1 s1 Hh L1) as (l' & m' & s' & E2 & G1 & G2 & G3 & G4 & G5). exists l', m', s'. split_and!; [done|done| |congruence..].
  eapply appended_cons; [|done|done]. pose proof (h_sorted _ Hh) as S. rewrite <- app_assoc in S. by apply sorted_app in S as (_ & S & _).
Qed.
End append.

Section rewind.
Context {O : Type} `{Countable O} `{!ObjOrder O} `{!ObjOrderLaws O} {St : Type} `{!LogEntryHandler (O:=O) St} `{!StoreLaws St}.
Notation entry := (pg_log_entry_t (O:=O)).
Notation missing := (pg_missing_set (O:=O)).
Notation ilog := (IndexedLog (O:=O)).

(** ** Parts of a history *)

Lemma index_of_lookup (l : list entry) o : index_of l !! o = last (hist o l).
Proof.
  induction l as [|e l IH] using rev_ind; [done|]. unfold index_of in *. rewrite foldl_snoc, writes_app. unfold index_entry at 1.
  rewrite hist_cons. cbn. destruct (is_error e) eqn:E; [rewrite decide_False by (by intros [_ ?]); by rewrite app_nil_r|].
  destruct (decide (le_soid e = o)) as [<-|N].
  - rewrite decide_True by done. by rewrite lookup_insert_eq, last_snoc.
  - rewrite decide_False by (by intros [? _]). by rewrite lookup_insert_ne, app_nil_r.
Qed.

Lemma above_prefix t (p d : list entry) : history (p ++ d) -> ev_le t (head_of p) -> above t (p ++ d) = above t p ++ d.
Proof.
  intros Hh Ht. rewrite above_app. f_equal. apply above_all. intros e He. pose proof (head_of_lt p d e Hh He). ev_lia.
Qed.

Lemma last_above t (p : list entry) : history p -> last (above t p) = None /\ ev_le (head_of p) (max_ev t ev0) \/ last (above t p) = last p /\ ev_lt t (head_of p).
Proof.
  intros Hh. destruct (last p) as [x|] eqn:E.
  - assert (head_of p = le_version x) as -> by (unfold head_of; by rewrite E). pose proof E as E'. apply last_Some in E' as [q ->].
    rewrite above_app. destruct (ev_ltb t (le_version x)) eqn:Et.
    + right. split; [|by apply ev_ltb_lt]. rewrite (above_all t [x]); [by rewrite last_snoc|]. intros e ->%list_elem_of_singleton. by apply ev_ltb_lt.
    + left. rewrite <- above_app, above_none; [split; [done|]|].
      * unfold max_ev. case_bool; ev_lia.
      * intros e He. pose proof (head_of_ge _ _ Hh He) as L. rewrite head_of_app_ne in L by done. cbn in L. ev_lia.
  - apply last_None in E as ->. left. split; [done|]. unfold head_of, max_ev. cbn. case_bool; ev_lia.
Qed.

(** ** [rewind_from_head] *)

Lemma rewind_loop_spec (a d acc : list entry) newhead :
  (forall e, e ∈ d -> vlt newhead (le_version e)) -> (forall e, e ∈ a -> ev_version (le_version e) <= ev_version newhead) ->
  rewind_loop (rev (a ++ d)) newhead acc = Ret (a, d ++ acc).
Proof.
  revert acc. induction d as [|e d IH] using rev_ind; intros acc Hd Ha.
  - rewrite app_nil_r. destruct a as [|e a _] using rev_ind; [done|]. rewrite rev_app_distr. cbn [rev app rewind_loop].
    replace (_ <=? _) with true; [cbn; by rewrite rev_involutive|]. symmetry. apply Z.leb_le, Ha, elem_of_app. right. by constructor.
  - assert (vlt newhead (le_version e)) as V by (apply Hd, elem_of_app; right; by constructor).
    rewrite app_assoc, rev_app_distr. cbn [rev app rewind_loop]. replace (_ <=? _) with false by (symmetry; apply Z.leb_gt; ev_lia).
    replace (ev_ltb _ _) with true by (symmetry; ev_lia). cbn [rassert rbind]. rewrite IH, <- app_assoc; [done| |done].
    intros x Hx. apply Hd, elem_of_app. by left.
Qed.

Lemma head_version_ge (p : list entry) e : history p -> e ∈ p -> ev_version (le_version e) <= ev_version (head_of p).
Proof.
  intros Hh He. destruct (last p) as [x|] eqn:E.
  - unfold head_of. rewrite E. apply last_Some in E as [q ->]. apply elem_of_app in He as [He|He%list_elem_of_singleton]; [|by subst].
    pose proof (h_sorted _ Hh) as S. apply sorted_app in S as (_ & _ & S). specialize (S e x He ltac:(by constructor)). unfold lt_entry, vlt in S. lia.
  - apply last_None in E as ->. by apply elem_of_nil in He.
Qed.

Lemma il_rewind_spec (p d : list entry) (l : ilog) :
  history (p ++ d) -> logs (p ++ d) l -> ev_le (pl_tail (il_pl l)) (head_of p) ->
  exists l', il_rewind_from_head (head_of p) l = Ret (l', d) /\ logs p l' /\ pl_tail (il_pl l') = pl_tail (il_pl l) /\
    pl_can_rollback_to (il_pl l') = cap_ev (pl_can_rollback_to (il_pl l)) (head_of p) /\ pl_dups (il_pl l') = pl_dups (il_pl l).
Proof.
  intros Hh [L1 L2 L3 L4 [L5 L6]] Ht. unfold il_rewind_from_head, pl_rewind_from_head. replace (ev_leb _ _) with true by (symmetry; by apply ev_leb_le).
  cbn [rassert rbind]. rewrite L2, above_prefix, rewind_loop_spec; [|by intros e; apply head_of_lt| |done..].
  - cbn. rewrite app_nil_r. eexists. split; [reflexivity|]. cbn. split_and!; [|done..]. by split.
  - intros e [_ He]%elem_above. apply head_version_ge; [by eapply history_app|done].
Qed.

Lemma rollbackable_rewind crt (p d : list entry) (s : St) : history p -> rollbackable crt (p ++ d) s -> rollbackable (cap_ev crt (head_of p)) p s.
Proof.
  intros Hh Hr e He Hee Hc Hlt. apply Hr; [apply elem_of_app; by left|done..|]. pose proof (head_of_ge _ _ Hh He).
  unfold cap_ev in Hlt. case_bool; ev_lia.
Qed.

(** ** [rewind_divergent_log] *)

Lemma rewind_divergent_spec (p d : list entry) (g : PGLog (O:=O)) info (s : St) :
  history (p ++ d) -> osd_ok (p ++ d) g info s -> ev_le (pl_tail (il_pl (pg_log g))) (head_of p) ->
  exists g' info' s', rewind_divergent_log (head_of p) g info s = Ret (g', info', s') /\ osd_ok p g' info' s' /\
    pl_tail (il_pl (pg_log g')) = pl_tail (il_pl (pg_log g)) /\ i_last_backfill info' = i_last_backfill info /\
    merge_objects (index_of (above (pl_tail (il_pl (pg_log g))) p)) (split_by_object d) (i_last_backfill info) (pl_can_rollback_to (il_pl (pg_log g))) true (pg_missing g) s = Ret (pg_missing g', s').
Proof.
  intros Hh [G1 G2 G3 G4 G5] Ht. pose proof (history_app _ _ Hh) as Hp. unfold rewind_divergent_log.
  destruct (il_rewind_spec p d _ Hh G1 Ht) as (l' & -> & L1 & L2 & L3 & L4). cbn [rbind].
  set (g1 := match d with [] => _ | _ => _ end). assert (pg_missing g1 = pg_missing g /\ pg_log g1 = l') as [M1 M2] by (subst g1; by destruct d).
  set (info1 := set_last_update _ _). assert (i_last_backfill info1 = i_last_backfill info /\ i_last_update info1 = head_of p /\ i_log_tail info1 = i_log_tail info) as (I1 & I2 & I3) by (subst info1; by case_bool).
  clearbody g1 info1. unfold merge_divergent_entries. rewrite M1, I1.
  destruct (merge_divergent_spec p d [] (il_objects l') (i_last_backfill info) (pl_can_rollback_to (il_pl (pg_log g))) (pg_missing g) s) as (m' & s' & Em & D1 & D2 & D3 & D4).
  - done.
  - intros e He. apply G3, elem_of_app. by right.
  - intros o Ho _. left. split; [done|]. split; [|by apply G2]. intros x Hx. rewrite (lg_objects _ _ L1), index_of_lookup, (lg_log _ _ L1) in Hx.
    by apply last_Some_elem_of, elem_hist in Hx as (_ & _ & [_ Hx]%elem_above).
  - rewrite Em. cbn [rbind]. eexists _, _, _. split; [reflexivity|]. split_and!; [split; cbn|cbn; congruence|done|by rewrite <- L2, <- (lg_log _ _ L1), <- (lg_objects _ _ L1)].
    + by rewrite M2.
    + rewrite I1. intros o Ho. rewrite D1. destruct (decide (hist o d = [])) as [E|E].
      * destruct (D3 o ltac:(by left)) as [-> ->]. specialize (G2 o Ho). by rewrite writes_app, E, app_nil_r in G2.
      * specialize (D2 o Ho E). by rewrite app_nil_r in D2.
    + rewrite M2, L3. intros e He Hee Hc Hlt. apply D4; [done|]. by eapply rollbackable_rewind.
    + done.
    + rewrite M2. congruence.
Qed.

(** ** Older entries *)

Notation upto t := (filter (fun e : entry => ev_ltb t (le_version e) = false)).

Lemma tail_part_spec t (l : list entry) : StronglySorted lt_entry l -> tail_part l t = (upto t l, above t l).
Proof.
  induction 1 as [|e l S IH F]; [done|]. cbn [tail_part]. rewrite Forall_forall in F. unfold above in *. destruct (ev_ltb t (le_version e)) eqn:E.
  - rewrite filter_cons_False by congruence. rewrite filter_cons_True by done.
    assert (forall x, x ∈ l -> ev_lt t (le_version x)) as A by (intros x Hx; specialize (F x Hx); unfold lt_entry in F; ev_lia).
    f_equal; [|f_equal; symmetry; by apply above_all]. symmetry. destruct (upto t l) as [|x k] eqn:Eu; [done|].
    assert (x ∈ upto t l) as Hx by (rewrite Eu; by constructor). apply list_elem_of_filter in Hx as [Hx1 Hx2]. specialize (A x Hx2). ev_lia.
  - rewrite IH. rewrite filter_cons_True by done. by rewrite filter_cons_False by congruence.
Qed.

Lemma upto_above t (l : list entry) : StronglySorted lt_entry l -> upto t l ++ above t l = l.
Proof.
  intros S. pose proof (tail_part_spec t l S) as E. enough (forall a b, tail_part l t = (a, b) -> a ++ b = l) as G by by apply G.
  clear. induction l as [|e l IH]; cbn; intros a b; [by intros [= <- <-]|]. case_bool; [by intros [= <- <-]|].
  destruct (tail_part l t) as [a' b']. intros [= <- <-]. cbn. f_equal. by apply IH.
Qed.

Lemma above_above t1 t2 (l : list entry) : ev_le t2 t1 -> above t1 (above t2 l) = above t1 l.
Proof. intros L. unfold above. rewrite list_filter_filter. apply list_filter_iff. intros x. split; [tauto|]. intros. split; [done|ev_lia]. Qed.

Lemma index_older (old l : list entry) :
  StronglySorted lt_entry (old ++ l) -> foldl (fun m e => il_index_one e m) (index_of l) old = index_of (old ++ l).
Proof.
  intros S. apply map_eq. intros o. rewrite index_of_lookup, writes_app, last_app, <- index_of_lookup.
  assert (forall x, index_of l !! o = Some x -> forall e, e ∈ old -> ev_lt (le_version e) (le_version x)) as A.
  { intros x Hx e He. rewrite index_of_lookup in Hx. apply last_Some_elem_of, elem_hist in Hx as (_ & _ & Hx).
    apply sorted_app in S as (_ & _ & S). specialize (S e x He Hx). unfold lt_entry in S. ev_lia. }
  apply sorted_app in S as (S & _ & _). revert A S. induction old as [|e old IH] using rev_ind; intros A S; cbn; [by destruct (index_of l !! o)|].
  rewrite foldl_snoc. apply sorted_app in S as (S1 & _ & S2). specialize (IH (fun x Hx y Hy => A x Hx y (proj2 (elem_of_app _ _ _) (or_introl Hy))) S1).
  unfold il_index_one at 1. rewrite writes_app, hist_cons. cbn. destruct (is_error e) eqn:Ee.
  { rewrite decide_False by (by intros [_ ?]). by rewrite app_nil_r. }
  destruct (decide (le_soid e = o)) as [<-|N].
  - rewrite decide_True, last_snoc by done. rewrite IH. destruct (index_of l !! le_soid e) as [x|] eqn:Ex.
    + assert (ev_lt (le_version e) (le_version x)) by (apply A; [done|apply elem_of_app; right; by constructor]).
      replace (ev_ltb _ _) with false by (symmetry; ev_lia). by rewrite IH.
    + destruct (last (hist (le_soid e) old)) as [y|] eqn:Ey; [|by apply lookup_insert_eq]. apply last_Some_elem_of, elem_hist in Ey as (_ & _ & Ey).
      specialize (S2 y e Ey ltac:(by constructor)). unfold lt_entry in S2. replace (ev_ltb _ _) with true by (symmetry; ev_lia). by apply lookup_insert_eq.
  - rewrite decide_False by (by intros [? _]). rewrite app_nil_r. destruct (foldl _ _ _ !! le_soid e); [case_bool|]; rewrite ?lookup_insert_ne; done.
Qed.

Section extend.
Context (p d n : list entry).
Hypothesis Hd : history (p ++ d).
Hypothesis Hn : history (p ++ n).

Lemma older_part t1 t2 : ev_le t1 (head_of p) -> ev_le t2 t1 -> upto t1 (above t2 (p ++ n)) ++ above t1 (p ++ d) = above t2 (p ++ d).
Proof.
  intros L1 L2. pose proof (h_sorted _ (history_app _ _ Hd)) as S.
  rewrite !above_prefix; [|done|ev_lia|done|ev_lia|done|ev_lia]. rewrite filter_app.
  replace (upto t1 n) with (@nil entry).
  - rewrite app_nil_r, app_assoc. f_equal. rewrite <- (above_above t1 t2 p) by done. apply upto_above. by apply filter_sorted.
  - symmetry. destruct (upto t1 n) as [|x k] eqn:E; [done|]. assert (x ∈ upto t1 n) as Hx by (rewrite E; by constructor).
    apply list_elem_of_filter in Hx as [Hx1 Hx2]. pose proof (head_of_lt p n x Hn Hx2). ev_lia.
Qed.

Lemma extend_tail_spec (olog : pg_log_t (O:=O)) (g : PGLog (O:=O)) info (s : St) :
  osd_ok (p ++ d) g info s -> pl_log olog = above (pl_tail olog) (p ++ n) -> ev_le ev0 (pl_tail olog) ->
  ev_le (pl_tail olog) (head_of p) -> ev_le (pl_tail (il_pl (pg_log g))) (head_of p) ->
  exists c g' info' rest, extend_tail olog g info = (c, g', info', rest) /\ osd_ok (p ++ d) g' info' s /\
    rest = above (max_ev (pl_tail olog) (pl_tail (il_pl (pg_log g)))) (p ++ n) /\
    pl_tail (il_pl (pg_log g')) = cap_ev (pl_tail (il_pl (pg_log g))) (pl_tail olog) /\ i_last_backfill info' = i_last_backfill info.
Proof.
  intros [G1 G2 G3 G4 G5] El T0 T2 T1. unfold extend_tail, cap_ev. destruct (ev_ltb (pl_tail olog) _) eqn:E.
  - assert (ev_le (pl_tail olog) (pl_tail (il_pl (pg_log g)))) as Le by ev_lia.
    rewrite El, tail_part_spec by apply filter_sorted, (h_sorted _ Hn). destruct G1 as [L1 L2 L3 L4 [L5 L6]].
    eexists _, _, _, _. split; [reflexivity|]. split_and!; [|by rewrite max_ev_r, above_above|done|done].
    split; try done. cbn. rewrite L4, L3. split; cbn; [done| | |done|split; [done|ev_lia]].
    + rewrite L2. by apply older_part.
    + apply index_older. rewrite L2, older_part by done. apply filter_sorted, (h_sorted _ Hd).
  - eexists _, _, _, _. split; [reflexivity|]. split_and!; [by split| |done|done]. rewrite max_ev_l; [done|ev_lia].
Qed.
End extend.
End rewind.
