(* ===== verification/PgMergeLog.v ===== *)
(** * Following another log

    [extend_head] and [merge_log] (PgLog.v): an OSD at the end of a history
    [p ++ d] that merges the log of one at the end of [p ++ n] is then at the
    end of [p ++ n] ([merge_log_ok]). *)

From S2P Require Import Prelude PgLog PgHist PgDivergent PgRewind.
From stdpp Require Import gmap sorting.
Open Scope Z_scope.

Section merge_log.
Context {O : Type} `{Countable O} `{!ObjOrder O} `{!ObjOrderLaws O} {St : Type} `{!LogEntryHandler (O:=O) St} `{!StoreLaws St}.
Notation entry := (pg_log_entry_t (O:=O)).
Notation missing := (pg_missing_set (O:=O)).
Notation ilog := (IndexedLog (O:=O)).

(** ** Rolling forward *)

Lemma advance_entries_spec (f : entry -> St -> St) (l : list entry) to_ k (s : St) k' s' :
  (forall e s o, sv (f e s) o = sv s o) -> (forall e s x, le_version x <> le_version e -> ready s x -> ready (f e s) x) ->
  advance_loop f l to_ k s = (k', s') ->
  (forall o, sv s' o = sv s o) /\ (forall x, le_version x ∉ map le_version l -> ready s x -> ready s' x).
Proof.
  intros Fs Fr. revert k s. induction l as [|e l IH]; intros k s; cbn [advance_loop]; [by intros [= <- <-]|].
  case_bool; [by intros [= <- <-]|]. intros E. destruct (IH _ _ E) as [A B]. split.
  - intros o. by rewrite A, Fs.
  - intros x Hx. cbn in Hx. apply not_elem_of_cons in Hx as [Hx1 Hx2]. auto.
Qed.

(** Neither the log nor the versions in the store change, and what is kept for
    the writes that are not in the log stays. *)
Lemma advance_spec to_ f (l : ilog) (s : St) c l' s' :
  (forall e s o, sv (f e s) o = sv s o) -> (forall e s x, le_version x <> le_version e -> ready s x -> ready (f e s) x) ->
  advance_can_rollback_to to_ f l s = (c, l', s') ->
  (forall h, logs h l -> logs h l') /\ pl_tail (il_pl l') = pl_tail (il_pl l) /\ pl_can_rollback_to (il_pl l') = raise_ev (pl_can_rollback_to (il_pl l)) to_ /\
  (forall o, sv s' o = sv s o) /\ (forall x, le_version x ∉ map le_version (pl_log (il_pl l)) -> ready s x -> ready s' x).
Proof.
  intros Fs Fr. unfold advance_can_rollback_to. destruct (advance_loop _ _ _ _ _) as [k s1] eqn:E. intros [= <- <- <-]. cbn.
  apply advance_entries_spec in E as [A B]; [|done..]. split_and!; try done.
  - intros h [L1 L2 L3 L4 L5]. by split.
  - intros x Hx. apply B. intros Hy. apply Hx. apply list_elem_of_In, in_map_iff in Hy as (y & Ey & Hy).
    apply list_elem_of_In, in_map_iff. exists y. split; [done|]. apply list_elem_of_In in Hy. apply list_elem_of_In. by eapply subseteq_drop.
Qed.

(** ** New entries *)

Lemma new_part_spec (a n acc : list entry) head_ :
  (forall e, e ∈ n -> ev_lt head_ (le_version e)) -> (forall e, e ∈ a -> ev_le (le_version e) head_) ->
  new_part (rev (a ++ n)) head_ acc = (le_version <$> last a, n ++ acc).
Proof.
  revert acc. induction n as [|e n IH] using rev_ind; intros acc Hn Ha.
  - rewrite app_nil_r. destruct a as [|e a _] using rev_ind; [done|]. rewrite rev_app_distr, last_snoc. cbn.
    replace (ev_leb _ _) with true; [done|]. symmetry. apply ev_leb_le, Ha, elem_of_app. right. by constructor.
  - rewrite app_assoc, rev_app_distr. cbn. replace (ev_leb _ _) with false.
    + rewrite IH, <- app_assoc; [done| |done]. intros x Hx. apply Hn, elem_of_app. by left.
    + symmetry. apply ev_leb_gt, Hn, elem_of_app. right. by constructor.
Qed.

Section head.
Context (p d n : list entry).
Hypothesis Hd : history (p ++ d).
Hypothesis Hn : history (p ++ n).
Hypothesis Hdn : forall x y, x ∈ d -> y ∈ n -> ev_lt (le_version x) (le_version y).

Lemma head_below e : e ∈ n -> ev_lt (head_of (p ++ d)) (le_version e).
Proof.
  intros He. destruct d as [|x d'] eqn:E.
  - rewrite app_nil_r. pose proof (head_of_lt p n e Hn He). ev_lia.
  - rewrite head_of_app_ne by done. destruct (head_of_elem (x :: d') ltac:(done)) as (y & Hy & ->). by apply Hdn.
Qed.

(** The cut point is the last shared write. *)
Lemma cut_point t : ev_le ev0 t -> ev_le t (head_of p) ->
  new_part (rev (above t (p ++ n))) (head_of (p ++ d)) [] = (le_version <$> last (above t p), n) /\
  match le_version <$> last (above t p) with Some v => max_ev t v | None => t end = head_of p.
Proof.
  intros T0 T1. pose proof (history_app _ _ Hn) as Hp. split.
  - rewrite above_prefix by done. rewrite new_part_spec; [by rewrite app_nil_r|apply head_below|].
    intros e [_ He]%elem_above. apply head_of_ge; [done|]. apply elem_of_app. by left.
  - destruct (last_above t p Hp) as [[-> L]|[-> L]]; cbn.
    + rewrite max_ev_l in L by done. by apply ev_le_antisym.
    + unfold head_of in L, T1 |- *. destruct (last p) as [x|]; cbn; [|ev_lia]. apply max_ev_r. ev_lia.
Qed.

(** The missing set and the store after the new writes are appended: the
    objects without divergent writes agree with [p ++ n] already. *)
Lemma appended_diverged last_backfill objects (m : missing) (s : St) m' s' t :
  holds last_backfill (p ++ d) m s -> appended last_backfill n m s m' s' ->
  objects = index_of (above t (p ++ n)) -> ev_le t (head_of p) ->
  forall o, oleb o last_backfill = true ->
    (hist o d = [] -> okobj (ms_may_include_deletes m) (hist o (p ++ n)) (ms_missing m' !! o) (sv s' o)) /\
    diverged p d n objects m' o (ms_missing m' !! o) (sv s' o).
Proof.
  intros Hh Ha -> Ht o Ho. pose proof (ap_md _ _ _ _ _ _ Ha) as Emd. specialize (Hh o Ho).
  assert (forall e, e ∈ n -> older (ms_missing m !! o) e) as Hold.
  { intros e He i Hi. rewrite Hi in Hh. destruct Hh as (x & Hx & -> & _). apply last_Some_elem_of, elem_hist in Hx as (_ & _ & Hx).
    pose proof (head_of_ge _ _ Hd Hx). pose proof (head_below e He). ev_lia. }
  split.
  - intros E. rewrite writes_app, E, app_nil_r in Hh. rewrite writes_app. apply (ap_ok _ _ _ _ _ _ Ha); try done.
    rewrite <- writes_app. apply (h_chained _ Hn).
  - unfold diverged. rewrite Emd. destruct (last (hist o n)) as [x|] eqn:Ex.
    + right. exists x. split_and!; [|done| |].
      * by rewrite index_of_lookup, above_prefix, writes_app, last_app, Ex by done.
      * intros y Hy. apply Hdn; [done|]. by apply last_Some_elem_of, elem_hist in Ex as (_ & _ & ?).
      * by apply (ap_newest _ _ _ _ _ _ Ha).
    + left. apply last_None in Ex. destruct (ap_other _ _ _ _ _ _ Ha o ltac:(by right)) as [-> ->]. split_and!; [done| |done].
      intros x Hx. rewrite index_of_lookup, above_prefix, writes_app, Ex, app_nil_r in Hx by done.
      by apply last_Some_elem_of, elem_hist in Hx as (_ & _ & [_ Hx]%elem_above).
Qed.

(** The roll forward touches only what is kept for the shared writes. *)
Lemma rollbackable_forward crt (l : ilog) (s s' : St) :
  logs p l -> rollbackable crt (p ++ d) s -> (forall x, le_version x ∉ map le_version (pl_log (il_pl l)) -> ready s x -> ready s' x) -> rollbackable crt d s'.
Proof.
  intros [_ L _ _ _] Hr Hs e He Hee Hc Hlt. apply Hs; [|apply Hr; [apply elem_of_app; by right|done..]].
  rewrite L. intros Hx. apply list_elem_of_In, in_map_iff in Hx as (x & Ex & Hx). apply list_elem_of_In, elem_above in Hx as [_ Hx].
  pose proof (h_sorted _ Hd) as S. apply sorted_app in S as (_ & _ & S). specialize (S x e Hx He). unfold lt_entry in S. rewrite Ex in S. by apply vlt_irrefl in S.
Qed.

Lemma extend_head_spec (olog : pg_log_t (O:=O)) t orig_tail oinfo (g : PGLog (O:=O)) info (s : St) :
  osd_ok (p ++ d) g info s -> pl_head olog = head_of (p ++ n) -> t = max_ev (pl_tail olog) orig_tail -> n <> [] ->
  ev_le ev0 t -> ev_le t (head_of p) -> ev_le (pl_tail (il_pl (pg_log g))) (head_of p) ->
  exists g' info' s', extend_head olog (above t (p ++ n)) orig_tail oinfo g info s = Ret (g', info', s') /\ osd_ok (p ++ n) g' info' s' /\
    pl_tail (il_pl (pg_log g')) = pl_tail (il_pl (pg_log g)) /\ i_last_backfill info' = i_last_backfill info.
Proof.
  intros [G1 G2 G3 G4 G5] Eh Et Nn T0 T1 T2. unfold extend_head. rewrite <- Et, (lg_head _ _ G1). destruct (cut_point t T0 T1) as [-> E2]. rewrite E2.
  cbn [pg_log mark_dirty_from pg_missing]. destruct (il_rewind_spec p d _ Hd G1 T2) as (l1 & -> & L1 & L2 & _ & _). cbn [rbind].
  destruct (roll_forward_to _ l1 s) as [[c2 l2] s2] eqn:E3. apply advance_spec in E3 as (A1 & A2 & _ & A4 & A5); [|apply sv_rollforward|apply ready_rollforward].
  specialize (A1 p L1). pose proof (rollbackable_forward _ _ _ _ L1 G3 A5) as G3'.
  assert (holds (i_last_backfill info) (p ++ d) (pg_missing g) s2) as G2' by (intros o Ho; rewrite A4; by apply G2).
  unfold append_log_entries_update_missing.
  assert ((match n with [] => Ret tt | e :: _ => rassert (ev_ltb (pl_head (il_pl l2)) (le_version e)) end) = Ret tt) as ->.
  { destruct n as [|e n'] eqn:En; [done|]. rewrite (lg_head _ _ A1). pose proof (head_of_lt p (e :: n') e Hn ltac:(by constructor)). by replace (ev_ltb _ _) with true by (symmetry; ev_lia). }
  cbn [rbind]. destruct (append_loop_spec (i_last_backfill info) false p n l2 (pg_missing g) s2 Hn A1) as (l3 & m3 & s3 & -> & B1 & B2 & B3 & B4 & B5).
  cbn [rbind deref]. assert (ev_le (pl_tail (il_pl l3)) (head_of p)) as T3 by (rewrite B3, A2, L2; done).
  pose proof (appended_diverged (i_last_backfill info) (il_objects l3) _ _ _ _ (pl_tail (il_pl l3)) G2' B2 ltac:(by rewrite (lg_objects _ _ B1), (lg_log _ _ B1)) T3) as Hdiv.
  unfold merge_divergent_entries.
  destruct (merge_divergent_spec p d n (il_objects l3) (i_last_backfill info) (pl_can_rollback_to (il_pl (pg_log g))) m3 s3 Hd) as (m4 & s4 & -> & D1 & D2 & D3 & D4).
  { intros e He Hee Hc Hlt. by apply (ap_ready _ _ _ _ _ _ B2), G3'. }
  { intros o Ho _. by apply Hdiv. }
  cbn [rbind]. destruct (skip_can_rollback_to_to_head _ s4) as [l5 s5] eqn:E5. unfold skip_can_rollback_to_to_head in E5.
  destruct (advance_can_rollback_to _ _ _ s4) as [[c6 l6] s6] eqn:E6. injection E5 as <- <-.
  apply advance_spec in E6 as (C1 & C2 & C3 & C4 & _); [|done..]. cbn [il_pl pl_tail pl_head pl_can_rollback_to] in C2, C3.
  eexists _, _, _. split; [reflexivity|]. split_and!; [|cbn; congruence|done]. split; cbn.
  - apply C1. destruct B1 as [? ? ? ? ?]. by split.
  - intros o Ho. rewrite C4, D1. destruct (decide (hist o d = [])) as [E|E].
    + destruct (D3 o ltac:(by left)) as [-> ->]. rewrite (ap_md _ _ _ _ _ _ B2). by apply Hdiv.
    + by apply D2.
  - intros e He _ _ Hlt. rewrite C3, Eh in Hlt. pose proof (head_of_ge _ _ Hn He). unfold raise_ev in Hlt. case_bool; ev_lia.
  - done.
  - congruence.
Qed.
End head.

(** ** Dups *)

(** Only the dups, and from where they are to be written, change. *)
Definition dups_only (g g' : PGLog (O:=O)) : Prop := pg_missing g' = pg_missing g /\ exists d, pg_log g' = set_dups d (pg_log g).

Lemma dups_only_refl g : dups_only g g.
Proof. split; [done|]. exists (pl_dups (il_pl (pg_log g))). by destruct g as [? [[] ? ? ?] ? ? ? ? ?]. Qed.

Lemma merge_log_dups_only odups g : dups_only g (merge_log_dups odups g).2.
Proof.
  assert (dups_only g (extend_dups odups g).2) as A.
  { unfold extend_dups. destruct (rev odups); [apply dups_only_refl|]. destruct (rev (pl_dups (il_pl (pg_log g)))); [split; [done|by eexists]|].
    repeat case_bool; (split; [done|by eexists]). }
  unfold merge_log_dups. destruct (extend_dups odups g) as [c1 g1]. cbn in A.
  assert (dups_only g1 (cut_dups g1).2) as B.
  { unfold cut_dups. destruct (rev (pl_dups _)); [apply dups_only_refl|]. case_bool; [split; [done|by eexists]|apply dups_only_refl]. }
  destruct (cut_dups g1) as [c2 g2]. cbn in B |- *. destruct A as [A1 [d1 A2]], B as [B1 [d2 B2]]. split; [congruence|]. exists d2. by rewrite B2, A2.
Qed.

Lemma osd_ok_dups h g g' info (s : St) : dups_only g g' -> osd_ok h g info s -> osd_ok h g' info s.
Proof. intros [E1 [d E2]] [[] G2 G3 G4 G5]. by split; rewrite ?E1, ?E2. Qed.

(** ** [merge_log] *)

Lemma head_of_le (p d : list entry) : history (p ++ d) -> ev_le (head_of p) (head_of (p ++ d)).
Proof.
  intros Hh. destruct d as [|e d]; [rewrite app_nil_r; unfold ev_le; lia|]. pose proof (head_of_lt p (e :: d) e Hh ltac:(by constructor)).
  pose proof (head_of_ge _ e Hh ltac:(apply elem_of_app; right; by constructor)). ev_lia.
Qed.

Lemma osd_ok_info h g info info' (s : St) :
  i_last_update info' = i_last_update info -> i_log_tail info' = i_log_tail info -> i_last_backfill info' = i_last_backfill info ->
  osd_ok h g info s -> osd_ok h g info' s.
Proof. intros E1 E2 E3 [G1 G2 G3 G4 G5]. split; rewrite ?E1, ?E2, ?E3; done. Qed.

(** C5. Merging logs: an OSD at the end of a history [p ++ d] that merges the
    log of an OSD at the end of [p ++ n] meets no failed assertion and is then
    at the end of [p ++ n].  Its log is that history above the older of the two
    tails, an object that is not missing is in its store as [p ++ n] leaves it,
    a missing one needs its last write, and what may be rolled back can be. *)
Theorem merge_log_ok p d n (olog : pg_log_t (O:=O)) oinfo (g : PGLog (O:=O)) info (s : St) :
  history (p ++ d) -> history (p ++ n) -> (forall x y, x ∈ d -> y ∈ n -> ev_lt (le_version x) (le_version y)) ->
  osd_ok (p ++ d) g info s -> ev_le (pl_tail (il_pl (pg_log g))) (head_of p) ->
  pl_head olog = head_of (p ++ n) -> pl_log olog = above (pl_tail olog) (p ++ n) -> ev_le ev0 (pl_tail olog) -> ev_le (pl_tail olog) (head_of p) ->
  exists g' info' oinfo' c s', merge_log oinfo olog g info s = Ret (g', info', oinfo', c, s') /\ osd_ok (p ++ n) g' info' s' /\
    pl_tail (il_pl (pg_log g')) = cap_ev (pl_tail (il_pl (pg_log g))) (pl_tail olog) /\ i_last_backfill info' = i_last_backfill info.
Proof.
  intros Hd Hn Hdn Hok Ht Eh El T0 T2. pose proof (ok_logs _ _ _ _ Hok) as [L1 _ _ _ [L0 _]]. unfold merge_log.
  pose proof (head_of_le p d Hd) as Hpd. pose proof (head_of_le p n Hn) as Hpn.
  assert (negb (pl_null (il_pl (pg_log g))) || ev_eqb (pl_tail olog) ev0 = true) as ->.
  { unfold pl_null. rewrite L1. destruct (_ && _) eqn:E; [|done]. zbool. apply ev_eqb_eq, ev_le_antisym; ev_lia. }
  rewrite L1, Eh. replace (ev_leb _ _) with true by (symmetry; ev_lia). replace (ev_leb _ _) with true by (symmetry; ev_lia). cbn [rassert rbind andb].
  destruct (extend_tail_spec p d n Hd Hn olog g info s Hok El T0 T2 Ht) as (c1 & g1 & info1 & rest & -> & Hok1 & Er & Et1 & Eb1).
  set (oinfo1 := if _ || _ then _ else oinfo). set (info2 := Info (i_last_update info1) _ _ _ _ _ _ _).
  assert (osd_ok (p ++ d) g1 info2 s) as Hok2 by by apply (osd_ok_info _ _ info1).
  assert (i_last_backfill info2 = i_last_backfill info) as Eb2 by done.
  assert (ev_le (pl_tail (il_pl (pg_log g1))) (head_of p)) as Ht1 by (rewrite Et1; unfold cap_ev; by case_bool).
  pose proof (lg_head _ _ (ok_logs _ _ _ _ Hok2)) as L2. rewrite L2. clearbody oinfo1 info2.
  assert (forall c g2 info3 (s2 : St), osd_ok (p ++ n) g2 info3 s2 -> pl_tail (il_pl (pg_log g2)) = pl_tail (il_pl (pg_log g1)) -> i_last_backfill info3 = i_last_backfill info2 ->
    exists g' info' oinfo' c' s', (let '(c4, q) := merge_log_dups (pl_dups olog) g2 in Ret (q, info3, oinfo1, c || c4, s2)) = Ret (g', info', oinfo', c', s') /\ osd_ok (p ++ n) g' info' s' /\
    pl_tail (il_pl (pg_log g')) = cap_ev (pl_tail (il_pl (pg_log g))) (pl_tail olog) /\ i_last_backfill info' = i_last_backfill info) as Fin.
  { intros c g2 info3 s2 K1 K2 K3. pose proof (merge_log_dups_only (pl_dups olog) g2) as K4. destruct (merge_log_dups _ g2) as [c4 g3]. cbn in K4.
    eexists _, _, _, _, _. split; [reflexivity|]. split_and!; [by eapply osd_ok_dups| |congruence]. destruct K4 as [_ [dd ->]]. cbn. congruence. }
  destruct (decide (n = [])) as [->|Nn].
  - rewrite app_nil_r in *. destruct (ev_ltb (head_of p) (head_of (p ++ d))) eqn:E.
    + destruct (rewind_divergent_spec p d g1 info2 s Hd Hok2 Ht1) as (g2 & info3 & s2 & -> & R1 & R2 & R3 & _). cbn [rbind].
      rewrite (lg_head _ _ (ok_logs _ _ _ _ R1)). replace (ev_ltb _ _) with false by (symmetry; ev_lia). cbn [rbind]. by apply Fin.
    + cbn [rbind]. rewrite L2. replace (ev_ltb _ _) with false by (symmetry; ev_lia). cbn [rbind]. apply Fin; try done.
      replace p with (p ++ d) at 1; [done|]. destruct d as [|e d']; [apply app_nil_r|]. exfalso.
      pose proof (head_of_lt p (e :: d') e Hd ltac:(by constructor)). pose proof (head_of_ge _ e Hd ltac:(apply elem_of_app; right; by constructor)). ev_lia.
  - destruct (head_of_elem n Nn) as (y & Hy & Ey). pose proof (head_below p d n Hd Hn Hdn y Hy) as Hlt. rewrite (head_of_app_ne p n) by done.
    rewrite Ey. replace (ev_ltb _ _) with false by (symmetry; ev_lia). cbn [rbind]. rewrite L2. replace (ev_ltb _ _) with true by (symmetry; ev_lia).
    subst rest. set (t := max_ev _ _).
    destruct (extend_head_spec p d n Hd Hn Hdn olog t (pl_tail (il_pl (pg_log g))) oinfo1 g1 info2 s Hok2) as (g2 & info3 & s2 & -> & R1 & R2 & R3); try done.
    + subst t. unfold max_ev. by case_bool.
    + subst t. unfold max_ev. by case_bool.
    + cbn [rbind]. by apply Fin.
Qed.
End merge_log.
