(* ===== verification/PgReplica.v ===== *)
(** * The log of a replica, and the order of missing objects

    [rmissing] (PgLog.v) orders the missing objects by the number of the
    version they need.  It is the inverse of [missing] ([rm_ok]) as long as
    all versions are those of one history ([owned]); the operations on a
    replica's log keep that ([merge_divergent_owned]).  The missing set that
    the primary computes from a replica's log is the one that the replica gets
    when it rewinds its own log ([merge_divergent_rb]). *)

From S2P Require Import Prelude PgLog PgHist PgDivergent PgRewind PgMergeLog.
From stdpp Require Import gmap sorting.
Open Scope Z_scope.

Section replica.
Context {O : Type} `{Countable O} `{!ObjOrder O} `{!ObjOrderLaws O} {St : Type} `{!LogEntryHandler (O:=O) St}.
Notation entry := (pg_log_entry_t (O:=O)).
Notation missing := (pg_missing_set (O:=O)).

(** ** Without a handler *)

Lemma merge_object_rb objects o l last_backfill crt (m : missing) (s t : St) m' s' :
  merge_object_divergent_entries objects o l last_backfill crt true m s = Ret (m', s') ->
  merge_object_divergent_entries objects o l last_backfill crt false m t = Ret (m', t).
Proof.
  unfold merge_object_divergent_entries. case_bool; [by intros [= <- _]|]. intros E. rinv E. cbn [rbind]. rinv E. cbn [rbind].
  destruct a0 as [|front rest]; [by injection E as <- _|]. cbn zeta in E |- *. destruct (objects !! o) as [x|]; [destruct (ev_leb _ _)|].
  - rinv E. cbn [rbind]. rinv E. cbn [rbind]. injection E as <- _. unfold trim_all, remove_if. by case_bool.
  - revert E. unfold trim_all, remove_if. repeat case_bool; repeat case_match; intros [= <- _]; done.
  - revert E. unfold trim_all, remove_if. repeat case_bool; repeat case_match; intros [= <- _]; done.
Qed.

Lemma merge_divergent_rb objects g last_backfill crt (m : missing) (s t : St) m' s' :
  merge_objects objects g last_backfill crt true m s = Ret (m', s') -> merge_objects objects g last_backfill crt false m t = Ret (m', t).
Proof.
  revert m s. induction g as [|[o l] g IH]; intros m s; cbn [merge_objects]; [by intros [= <- _]|]. intros E. rinv E. destruct a as [m1 s1].
  rewrite (merge_object_rb _ _ _ _ _ _ _ t _ _ E0). cbn [rbind]. by eapply IH.
Qed.

(** ** [rmissing] *)

Record rm_ok (m : missing) : Prop := RmOk {
  rm_in : forall o i, ms_missing m !! o = Some i -> ms_rmissing m !! ev_version (mi_need i) = Some o;
  rm_out : forall v o, ms_rmissing m !! v = Some o -> exists i, ms_missing m !! o = Some i /\ ev_version (mi_need i) = v;
}.

(** Each needed version is that of a write of the object. *)
Definition owned (h : list entry) (m : missing) : Prop :=
  forall o i, ms_missing m !! o = Some i -> exists e, e ∈ h /\ le_soid e = o /\ le_version e = mi_need i.

Lemma owned_number h (m : missing) o1 o2 i1 v e : history h -> owned h m -> ms_missing m !! o1 = Some i1 -> e ∈ h -> le_soid e = o2 -> le_version e = v ->
  ev_version (mi_need i1) = ev_version v -> o1 = o2.
Proof.
  intros Hh Ho E1 He <- <- Ev. destruct (Ho o1 i1 E1) as (e1 & He1 & <- & E). rewrite <- E in Ev. clear Ho E1 E. pose proof (h_sorted _ Hh) as S. clear Hh.
  induction S as [|x l S IH F]; [by apply elem_of_nil in He|]. rewrite Forall_forall in F. apply elem_of_cons in He as [->|He], He1 as [->|He1]; [done| | |by apply IH].
  - specialize (F e1 He1). unfold lt_entry, vlt in F. lia.
  - specialize (F e He). unfold lt_entry, vlt in F. lia.
Qed.

Lemma rm_item_owned h (m : missing) o i : rm_ok m -> owned h m -> ms_missing m !! o = Some i -> rm_ok (rm_item o i m) /\ owned h (rm_item o i m).
Proof.
  intros [A B] Ho E. split; [split|]; cbn.
  - intros o' i' [N E']%lookup_delete_Some. rewrite lookup_delete_ne; [by apply A|]. intros Ev. apply A in E, E'. congruence.
  - intros v o' [N E']%lookup_delete_Some. destruct (B v o' E') as (i' & E1 & E2). exists i'. split; [|done]. rewrite lookup_delete_ne; [done|]. congruence.
  - intros o' i'. cbn. intros [N E']%lookup_delete_Some. by apply Ho.
Qed.

Lemma set_item_owned h (m : missing) o i e : history h -> rm_ok m -> owned h m -> e ∈ h -> le_soid e = o -> le_version e = mi_need i ->
  rm_ok (set_item m o (ms_missing m !! o) i) /\ owned h (set_item m o (ms_missing m !! o) i).
Proof.
  intros Hh [A B] Ho He Es Ev. pose proof (fun o1 i1 E1 E2 => owned_number h m o1 o i1 (mi_need i) e Hh Ho E1 He Es Ev E2) as U.
  set (r := match ms_missing m !! o with Some i0 => delete (ev_version (mi_need i0)) (ms_rmissing m) | None => ms_rmissing m end).
  assert (forall v o', o' <> o -> r !! v = Some o' <-> ms_rmissing m !! v = Some o') as R1.
  { intros v o' N. subst r. destruct (ms_missing m !! o) as [i0|] eqn:E; [|done]. rewrite lookup_delete_Some. split; [tauto|]. intros E'. split; [|done].
    intros Ev'. apply A in E. congruence. }
  assert (forall v, r !! v <> Some o) as R2.
  { intros v. subst r. destruct (ms_missing m !! o) as [i0|] eqn:E.
    - intros [N E']%lookup_delete_Some. destruct (B v o E') as (i1 & E1 & E2). congruence.
    - intros E'. destruct (B v o E') as (i1 & E1 & E2). congruence. }
  split; [split|]; cbn; fold r.
  - intros o' i' [[<- <-]|[N E']]%lookup_insert_Some; [by apply lookup_insert_eq|]. rewrite lookup_insert_ne; [apply R1; [done|by apply A]|]. intros Ev'. by apply N, eq_sym, (U o' i').
  - intros v o' [[<- <-]|[N E']]%lookup_insert_Some; [exists i; split; [by apply lookup_insert_eq|done]|].
    destruct (decide (o' = o)) as [->|No]; [by apply R2 in E'|]. apply R1 in E'; [|done]. destruct (B v o' E') as (i' & E1 & E2). exists i'. by rewrite lookup_insert_ne.
  - intros o' i'. cbn. intros [[<- <-]|[N E']]%lookup_insert_Some; [by exists e|by apply Ho].
Qed.

Lemma revise_have_owned h (m : missing) o v : rm_ok m -> owned h m -> rm_ok (revise_have o v m) /\ owned h (revise_have o v m).
Proof.
  intros [A B] Ho. unfold revise_have. destruct (ms_missing m !! o) as [i|] eqn:E; [|done]. split; [split|]; cbn.
  - intros o' i' [[<- <-]|[N E']]%lookup_insert_Some; [by apply (A o i)|by apply A].
  - intros w o' E'. destruct (B w o' E') as (i' & E1 & E2). destruct (decide (o' = o)) as [->|N]; [|exists i'; by rewrite lookup_insert_ne].
    exists (Item (mi_need i) v (mi_delete i)). rewrite lookup_insert_eq. split; [done|]. cbn. congruence.
  - intros o' i'. cbn. intros [[<- <-]|[N E']]%lookup_insert_Some; [by apply (Ho o i)|by apply Ho].
Qed.

(** A step on one object of the history [h ++ d]. *)
Lemma merge_object_owned p d objects o last_backfill crt rb (m : missing) (s : St) m' s' :
  history (p ++ d) -> merge_object_divergent_entries objects o (filter (fun e => le_soid e = o) d) last_backfill crt rb m s = Ret (m', s') ->
  rm_ok m -> owned (p ++ d) m -> rm_ok m' /\ owned (p ++ d) m'.
Proof.
  intros Hh E Hr Ho. unfold merge_object_divergent_entries in E. revert E. case_bool; [by intros [= <- _]|]. intros E. rinv E.
  rewrite (strip_group p d Hh) in E. cbn [rbind] in E. destruct (hist o d) as [|front rest] eqn:Ed; [by injection E as <- _|].
  assert (cur (hist o p) = before front) as Eb.
  { apply (h_chained _ Hh o (hist o p) front rest). by rewrite writes_app, Ed. }
  assert (forall i, le_prior_version front = mi_need i -> (ev_eqb (le_prior_version front) ev0 || is_clone front) = false ->
    rm_ok (set_item m o (ms_missing m !! o) i) /\ owned (p ++ d) (set_item m o (ms_missing m !! o) i)) as Hset.
  { intros i Ei Ec. unfold before, cur, after in Eb. rewrite Ec in Eb. destruct (last (hist o p)) as [e|] eqn:El; [|done].
    apply last_Some_elem_of, elem_hist in El as (Es & _ & El). apply (set_item_owned _ _ _ _ e); try done; [apply elem_of_app; by left|].
    destruct (is_delete e); simplify_eq. congruence. }
  cbn zeta in E. destruct (objects !! o) as [x|]; [destruct (ev_leb _ _)|].
  - rinv E. rinv E. injection E as <- _. by apply revise_have_owned.
  - revert E. unfold revise_need, missing_add. destruct (ms_missing m !! o) as [i|] eqn:Em; repeat case_bool; intros [= <- _]; try done; try (by apply rm_item_owned); by apply Hset.
  - revert E. unfold revise_need, missing_add. destruct (ms_missing m !! o) as [i|] eqn:Em; repeat case_bool; intros [= <- _]; try done; try (by apply rm_item_owned); by apply Hset.
Qed.

Lemma merge_divergent_owned p d objects g last_backfill crt rb (m : missing) (s : St) m' s' :
  history (p ++ d) -> (forall o l, (o, l) ∈ g -> l = filter (fun e => le_soid e = o) d) ->
  merge_objects objects g last_backfill crt rb m s = Ret (m', s') -> rm_ok m -> owned (p ++ d) m -> rm_ok m' /\ owned (p ++ d) m'.
Proof.
  intros Hh. revert m s. induction g as [|[o l] g IH]; intros m s Hg; cbn [merge_objects]; [by intros [= <- _]|]. intros E Hr Ho. rinv E. destruct a as [m1 s1].
  rewrite (Hg o l ltac:(by constructor)) in E0. destruct (merge_object_owned _ _ _ _ _ _ _ _ _ _ _ Hh E0 Hr Ho) as [Hr1 Ho1].
  apply (IH m1 s1); try done. intros o' l' Hl. apply Hg. by constructor.
Qed.

(** ** The oldest missing object *)

Lemma foldl_min_le (l : list Z) k : foldl Z.min k l <= k /\ (forall x, x ∈ l -> foldl Z.min k l <= x) /\ (foldl Z.min k l = k \/ foldl Z.min k l ∈ l).
Proof.
  revert k. induction l as [|y l IH]; intros k; cbn; [split_and!; [lia| |by left]; by intros x ?%elem_of_nil|].
  destruct (IH (Z.min k y)) as (A & B & C). split_and!; [lia| |].
  - intros x [->|Hx]%elem_of_cons; [lia|by apply B].
  - destruct C as [->|C]; [destruct (Z.min_spec k y) as [[_ ->]|[_ ->]]; [by left|right; by constructor]|right; by constructor].
Qed.

Lemma rmissing_begin_spec (m : missing) : rm_ok m -> ms_missing m <> ∅ ->
  exists o i, rmissing_begin m = Some o /\ ms_missing m !! o = Some i /\ forall o' i', ms_missing m !! o' = Some i' -> ev_version (mi_need i) <= ev_version (mi_need i').
Proof.
  intros [A B] N. unfold rmissing_begin. set (ks := map fst (map_to_list (ms_rmissing m))).
  assert (forall k, k ∈ ks <-> exists o, ms_rmissing m !! k = Some o) as Hk.
  { intros k. subst ks. rewrite list_elem_of_In, in_map_iff. split.
    - intros ([k' o] & <- & Hx%list_elem_of_In%elem_of_map_to_list). by exists o.
    - intros [o Ho]. exists (k, o). split; [done|]. by apply list_elem_of_In, elem_of_map_to_list. }
  destruct ks as [|k l] eqn:Ek.
  - apply map_choose in N as (o & i & Ei). apply A in Ei. assert (ev_version (mi_need i) ∈ (@nil Z)) as Hx by (apply Hk; by exists o). by apply elem_of_nil in Hx.
  - destruct (foldl_min_le l k) as (F1 & F2 & F3). set (v := foldl Z.min k l) in *.
    assert (v ∈ k :: l) as Hv by (destruct F3 as [->|F3]; by constructor). apply Hk in Hv as [o Ho]. destruct (B v o Ho) as (i & Ei & Ev).
    exists o, i. split_and!; [done|done|]. intros o' i' E'. apply A in E'. assert (ev_version (mi_need i') ∈ k :: l) as Hx by (apply Hk; by exists o').
    apply elem_of_cons in Hx as [->|Hx]; [lia|]. specialize (F2 _ Hx). lia.
Qed.

(** The oldest need is a need, and no need is older. *)
Lemma get_oldest_need_spec h (m : missing) : history h -> rm_ok m -> owned h m -> ms_missing m <> ∅ ->
  exists o i, get_oldest_need m = Ret (mi_need i) /\ ms_missing m !! o = Some i /\ forall o' i', ms_missing m !! o' = Some i' -> ev_le (mi_need i) (mi_need i').
Proof.
  intros Hh Hr Ho N. destruct (rmissing_begin_spec m Hr N) as (o & i & E1 & E2 & E3). exists o, i. split_and!; [|done|].
  - unfold get_oldest_need. rewrite bool_decide_eq_false_2, E1 by done. cbn. by rewrite E2.
  - intros o' i' E'. specialize (E3 o' i' E'). destruct (Ho o i E2) as (e & He & _ & Ee), (Ho o' i' E') as (e' & He' & _ & Ee'). rewrite <- Ee, <- Ee' in E3 |- *.
    pose proof (h_sorted _ Hh) as S. clear -S He He' E3. induction S as [|x l S IH F]; [by apply elem_of_nil in He|]. rewrite Forall_forall in F.
    apply elem_of_cons in He as [->|He], He' as [->|He']; [unfold ev_le; lia| | |by apply IH].
    + specialize (F e' He'). unfold lt_entry in F. ev_lia.
    + specialize (F e He). unfold lt_entry, vlt in F. lia.
Qed.

(** ** [proc_replica_log] *)

Lemma last_shared_spec (a n : list entry) head_ :
  (forall e, e ∈ n -> ev_lt head_ (le_version e)) -> (forall e, e ∈ a -> ev_le (le_version e) head_) ->
  last_shared (rev (a ++ n)) head_ = le_version <$> last a.
Proof.
  intros Hn Ha. induction n as [|e n IH] using rev_ind.
  - rewrite app_nil_r. destruct a as [|e a _] using rev_ind; [done|]. rewrite rev_app_distr, last_snoc. cbn.
    replace (ev_leb _ _) with true; [done|]. symmetry. apply ev_leb_le, Ha, elem_of_app. right. by constructor.
  - rewrite app_assoc, rev_app_distr. cbn. replace (ev_leb _ _) with false.
    + apply IH. intros x Hx. apply Hn, elem_of_app. by left.
    + symmetry. apply ev_leb_gt, Hn, elem_of_app. right. by constructor.
Qed.

Lemma complete_before_spec (l : list entry) f lc :
  StronglySorted lt_entry l -> ev_lt lc f -> (forall e, e ∈ l -> ev_le lc (le_version e)) ->
  ev_lt (complete_before l f lc) f /\ (forall e, e ∈ l -> ev_lt (le_version e) f -> ev_le (le_version e) (complete_before l f lc)) /\ ev_le lc (complete_before l f lc).
Proof.
  intros S. revert lc. induction S as [|e l S IH F]; intros lc Hlt Hle; cbn [complete_before].
  { split_and!; [done| |unfold ev_le; lia]. by intros e ?%elem_of_nil. }
  rewrite Forall_forall in F. assert (ev_le lc (le_version e)) as L by (apply Hle; by constructor). destruct (ev_ltb (le_version e) f) eqn:E; evbool.
  - destruct (IH (le_version e) E) as (A & B & C).
    { intros x Hx. specialize (F x Hx). unfold lt_entry in F. ev_lia. }
    split_and!; [done| |ev_lia]. intros x [->|Hx]%elem_of_cons Hxf; [done|by apply B].
  - split_and!; [done| |unfold ev_le; lia]. intros x [->|Hx]%elem_of_cons Hxf; [ev_lia|]. specialize (F x Hx). unfold lt_entry in F. ev_lia.
Qed.

Context `{!StoreLaws St}.

Section proc.
Context (p d n : list entry).
Hypothesis Hd : history (p ++ d).
Hypothesis Hn : history (p ++ n).
Hypothesis Hdn : forall x y, x ∈ d -> y ∈ n -> ev_lt (le_version x) (le_version y).

(** The point up to which the replica's log is taken. *)
Lemma shared_point t1 t2 : ev_le ev0 t1 -> ev_le t1 (head_of p) -> ev_le t2 (head_of p) ->
  match last_shared (rev (above t1 (p ++ n))) (head_of (p ++ d)) with
  | None => max_ev t2 t1
  | Some v => if ev_ltb v (max_ev t2 t1) then max_ev t2 t1 else v
  end = head_of p.
Proof.
  intros T0 T1 T2. pose proof (history_app _ _ Hn) as Hp. rewrite above_prefix by done.
  assert (ev_le (max_ev t2 t1) (head_of p)) as Tm by (unfold max_ev; by case_bool). rewrite last_shared_spec.
  - destruct (last_above t1 p Hp) as [[-> L]|[-> L]]; cbn.
    + rewrite max_ev_l in L by done. apply ev_le_antisym; [done|]. unfold max_ev. case_bool; ev_lia.
    + unfold head_of in *. destruct (last p) as [x|]; cbn; [|ev_lia]. case_bool; [|done]. evbool. unfold ev_lt, ev_le in *. lia.
  - intros e He. by apply (head_below p d n).
  - intros e [_ He]%elem_above. apply head_of_ge; [done|]. apply elem_of_app. by left.
Qed.

Lemma heads_equal : head_of (p ++ d) = head_of (p ++ n) -> d = [].
Proof.
  intros E. destruct n as [|y n'] eqn:En.
  - rewrite app_nil_r in E. destruct d as [|x d'] eqn:Ed; [done|]. pose proof (head_of_lt p (x :: d') x Hd ltac:(by constructor)).
    pose proof (head_of_ge _ x Hd ltac:(apply elem_of_app; right; by constructor)). rewrite E in *. ev_lia.
  - pose proof (head_below p d (y :: n') Hd Hn Hdn y ltac:(by constructor)). pose proof (head_of_ge _ y Hn ltac:(apply elem_of_app; right; by constructor)).
    rewrite E in *. ev_lia.
Qed.

(** C12. The log of a replica: from the log and the missing set of a replica at
    the end of [p ++ d], a primary at the end of [p ++ n] computes the missing
    set that the replica gets when it rewinds its log to the end of [p]; it
    takes [p] as the replica's last update, and, where the heads of the two
    logs differ, its last complete version is below everything that is missing.
    The replica's [rmissing] agrees with its missing items. *)
Theorem proc_replica_log_ok (g r : PGLog (O:=O)) rinfo (s t : St) :
  logs (p ++ n) (pg_log g) -> ev_le (pl_tail (il_pl (pg_log g))) (head_of p) ->
  osd_ok (p ++ d) r rinfo s -> ev_le (pl_tail (il_pl (pg_log r))) (head_of p) -> rm_ok (pg_missing r) -> owned (p ++ d) (pg_missing r) ->
  exists oinfo om r' rinfo' s', proc_replica_log g rinfo (il_pl (pg_log r)) (pg_missing r) t = Ret (oinfo, om) /\
    rewind_divergent_log (head_of p) r rinfo s = Ret (r', rinfo', s') /\ osd_ok p r' rinfo' s' /\ pg_missing r' = om /\ i_last_update oinfo = head_of p /\ rm_ok om /\
    (head_of (p ++ d) <> head_of (p ++ n) -> forall o i, ms_missing om !! o = Some i -> ev_lt (i_last_complete oinfo) (mi_need i)).
Proof.
  intros Lg Tg Hok Tr Hrm Hown. pose proof Hok as [L1 _ _ Eu _].
  destruct (rewind_divergent_spec p d r rinfo s Hd Hok Tr) as (r' & rinfo' & s' & Er & Hok' & _ & _ & Em).
  destruct (merge_divergent_owned _ _ _ _ _ _ _ _ _ _ _ Hd (fun o l Hl => proj1 (proj1 (proj2 (split_by_object_spec d) o l) Hl)) Em Hrm Hown) as [Hrm' Hown'].
  unfold proc_replica_log. pose proof (head_of_le p d Hd) as Hpd. rewrite (lg_head _ _ L1), (lg_head _ _ Lg).
  replace (ev_ltb _ _) with false by (symmetry; ev_lia). case_bool; evbool.
  { eexists _, _, r', rinfo', s'. split; [reflexivity|]. pose proof (heads_equal ltac:(done)) as ->. cbn in Em. injection Em as Em _. rewrite app_nil_r in *. by split_and!. }
  rewrite (lg_log _ _ Lg), shared_point; [|apply (lg_tail _ _ Lg)|done..].
  destruct (il_rewind_spec p d (indexed_log (il_pl (pg_log r))) Hd) as (l' & -> & K1 & K2 & K3 & K4); [by destruct L1; split|done|]. cbn [rbind].
  change (pl_tail (il_pl l') = pl_tail (il_pl (pg_log r))) in K2.
  unfold merge_divergent_entries. rewrite (lg_objects _ _ K1), (lg_log _ _ K1), K2, (merge_divergent_rb _ _ _ _ _ _ t _ _ Em). cbn [rbind].
  set (oinfo := if ev_ltb _ _ then _ else rinfo). assert (i_last_update oinfo = head_of p) as Eo.
  { subst oinfo. rewrite Eu. case_bool; [done|]. rewrite Eu. evbool. by apply ev_le_antisym. }
  clearbody oinfo. case_bool_decide as Ee.
  { eexists _, _, r', rinfo', s'. split; [reflexivity|]. split_and!; try done. intros _ o i. by rewrite Ee, lookup_empty. }
  destruct (get_oldest_need_spec _ _ Hd Hrm' Hown' Ee) as (o & i & -> & Ei & Hmin). cbn [rbind].
  eexists _, _, r', rinfo', s'. split; [reflexivity|]. split_and!; try done. intros _ o' i' E'. specialize (Hmin o' i' E').
  destruct (complete_before_spec (pl_log (il_pl (pg_log r))) (mi_need i) ev0) as (A & _ & _).
  - rewrite (lg_log _ _ L1). apply filter_sorted, (h_sorted _ Hd).
  - destruct (Hown' o i Ei) as (e & He & _ & <-). pose proof (h_positive _ Hd e He). ev_lia.
  - intros e He. rewrite (lg_log _ _ L1) in He. apply elem_above in He as [_ He]. pose proof (h_positive _ Hd e He). ev_lia.
  - cbn. ev_lia.
Qed.
End proc.
End replica.
