(* ===== verification/PgRecover.v ===== *)
(** * Recovering objects and trimming the log

    [complete] is what [complete_to] and [last_complete] mean: the writes up to
    [last_complete] are not needed any more, and those before [complete_to]
    are among them.  [reset_complete_to] establishes it and [recover_got]
    keeps it (PgLog.v).  [pg_trim_ok]: trimming cuts the log at a version and
    keeps the dups that are still tracked. *)

From S2P Require Import Prelude PgLog PgHist PgDivergent PgRewind PgMergeLog PgReplica.
From stdpp Require Import gmap sorting.
Open Scope Z_scope.

Section recover.
Context {O : Type} `{Countable O} `{!ObjOrder O}.
Notation entry := (pg_log_entry_t (O:=O)).
Notation missing := (pg_missing_set (O:=O)).

(** ** [complete_to] *)

Record complete (log : list entry) (m : missing) (k : nat) (lc : eversion_t) : Prop := Complete {
  co_need : forall o i, ms_missing m !! o = Some i -> ev_lt lc (mi_need i);
  co_done : forall e, e ∈ take k log -> ev_le (le_version e) lc;
  co_next : forall e, e ∈ log -> (forall o i, ms_missing m !! o = Some i -> ev_lt (le_version e) (mi_need i)) -> ms_missing m <> ∅ -> ev_le (le_version e) lc;
}.

Lemma complete_loop_spec (l : list entry) f pos : (exists e, e ∈ l /\ ev_le f (le_version e)) -> StronglySorted lt_entry l ->
  exists a e b, l = a ++ e :: b /\ complete_loop l f pos = Ret (pos + length a)%nat /\ (forall x, x ∈ a -> ev_lt (le_version x) f) /\ ev_le f (le_version e).
Proof.
  intros Hex S. revert pos. induction S as [|x l S IH F]; intros pos; [by destruct Hex as (e & ?%elem_of_nil & _)|]. cbn [complete_loop].
  destruct (ev_ltb (le_version x) f) eqn:E; evbool.
  - destruct (IH) with (pos := Datatypes.S pos) as (a & e & b & -> & -> & A & B).
    { destruct Hex as (e & [->|He]%elem_of_cons & L); [ev_lia|by exists e]. }
    exists (x :: a), e, b. split_and!; [done|f_equal; cbn; lia| |done]. intros y [->|Hy]%elem_of_cons; [done|by apply A].
  - exists [], x, l. split_and!; [done|f_equal; cbn; lia| |done]. by intros y ?%elem_of_nil.
Qed.

Lemma got_loop_spec (l : list entry) f k lc k' lc' : got_loop l f k lc = (k', lc') -> StronglySorted lt_entry l -> ev_lt lc f ->
  (exists a b, l = a ++ b /\ k' = (k + length a)%nat /\ (forall x, x ∈ a -> ev_le (le_version x) lc') /\ (forall x, x ∈ b -> ev_le f (le_version x))) /\
  ev_lt lc' f /\ ev_le lc lc'.
Proof.
  revert k lc. induction l as [|e l IH]; intros k lc; cbn [got_loop].
  { intros [= <- <-] _ L. split_and!; [|done|unfold ev_le; lia]. exists [], []. split_and!; [done|cbn; lia|by intros x ?%elem_of_nil..]. }
  intros E S L. inversion S as [|? ? S1 F]; subst. rewrite Forall_forall in F. destruct (ev_leb f (le_version e)) eqn:El; evbool.
  - injection E as <- <-. split_and!; [|done|unfold ev_le; lia]. exists [], (e :: l). split_and!; [done|cbn; lia|by intros x ?%elem_of_nil|].
    intros x [->|Hx]%elem_of_cons; [done|]. specialize (F x Hx). unfold lt_entry in F. ev_lia.
  - assert (ev_lt (if ev_ltb lc (le_version e) then le_version e else lc) f /\ ev_le lc (if ev_ltb lc (le_version e) then le_version e else lc) /\
      ev_le (le_version e) (if ev_ltb lc (le_version e) then le_version e else lc)) as (L1 & L2 & L3) by (case_bool; evbool; unfold ev_lt, ev_le in *; lia).
    destruct (IH _ _ E S1 L1) as ((a & b & -> & -> & A & B) & C & D). split_and!; [|done|ev_lia]. exists (e :: a), b. split_and!; [done|cbn; lia| |done].
    intros x [->|Hx]%elem_of_cons; [ev_lia|by apply A].
Qed.

Section log.
Context (h : list entry) (Hh : history h).

Lemma reset_complete_spec (g : PGLog (O:=O)) k info :
  logs h (pg_log g) -> rm_ok (pg_missing g) -> owned h (pg_missing g) -> pl_log (il_pl (pg_log g)) <> [] -> ms_missing (pg_missing g) <> ∅ ->
  exists k' info', reset_complete_to g k (Some info) = Ret (k', Some info') /\ complete (pl_log (il_pl (pg_log g))) (pg_missing g) k' (i_last_complete info') /\
    i_last_update info' = i_last_update info.
Proof.
  intros L Hr Ho Nl Nm. unfold reset_complete_to. rewrite bool_decide_eq_false_2 by done. pose proof (lg_log _ _ L) as Elog. set (log := pl_log _) in *.
  destruct (get_oldest_need_spec h _ Hh Hr Ho Nm) as (o & i & -> & Ei & Hmin). cbn [rbind]. destruct (Ho o i Ei) as (e & He & _ & Ee).
  pose proof (h_positive _ Hh e He) as Pe. rewrite Ee in Pe. replace (ev_eqb _ _) with false by (symmetry; apply ev_eqb_neq; intros E; rewrite E in Pe; by apply vlt_irrefl in Pe).
  assert (StronglySorted lt_entry log) as S by (rewrite Elog; apply filter_sorted, (h_sorted _ Hh)).
  destruct (complete_loop_spec log (mi_need i) 0) as (a & x & b & Eab & -> & A & B); [|done|].
  { destruct (ev_ltb (pl_tail (il_pl (pg_log g))) (mi_need i)) eqn:Et; evbool.
    - exists e. split; [|rewrite Ee; unfold ev_le; lia]. rewrite Elog. apply elem_above. by rewrite Ee.
    - destruct log as [|x l] eqn:El; [done|]. exists x. split; [by constructor|]. assert (x ∈ above (pl_tail (il_pl (pg_log g))) h) as Hx by (rewrite <- Elog; by constructor).
      apply elem_above in Hx as [Hx _]. ev_lia. }
  cbn [rbind]. eexists _, _. split; [reflexivity|]. split; [|done]. cbn [i_last_complete set_last_complete Nat.add].
  assert (match length a with 0%nat => ev0 | Datatypes.S j => match log !! j with Some e => le_version e | None => ev0 end end = head_of a) as ->.
  { rewrite Eab. destruct a as [|y a' _] using rev_ind; [done|]. rewrite length_app, Nat.add_1_r. unfold head_of. rewrite last_snoc.
    rewrite <- app_assoc. by rewrite lookup_app_r, Nat.sub_diag by done. }
  rewrite Eab in S. apply sorted_app in S as (Sa & Sb & Sab).
  assert (forall y, y ∈ a -> ev_le (le_version y) (head_of a)) as Hle by (intros y Hy; by apply sorted_head).
  split.
  - intros o' i' E'. specialize (Hmin o' i' E'). enough (ev_lt (head_of a) (mi_need i)) by ev_lia. unfold head_of. destruct (last a) as [y|] eqn:El; [by apply A, last_Some_elem_of|ev_lia].
  - rewrite Eab, take_app_length. done.
  - intros y Hy Hlt _. rewrite Eab in Hy. apply elem_of_app in Hy as [Hy|Hy]; [by apply Hle|]. specialize (Hlt o i Ei). exfalso.
    inversion Sb as [|? ? _ F]; subst. rewrite Forall_forall in F. apply elem_of_cons in Hy as [->|Hy]; [ev_lia|]. specialize (F y Hy). unfold lt_entry in F. ev_lia.
Qed.

(** One object is recovered. *)
Lemma recover_got_spec (g : PGLog (O:=O)) k info o i :
  logs h (pg_log g) -> rm_ok (pg_missing g) -> owned h (pg_missing g) -> complete (pl_log (il_pl (pg_log g))) (pg_missing g) k (i_last_complete info) ->
  i_last_update info = head_of h -> ms_missing (pg_missing g) !! o = Some i -> ev_le (mi_need i) (pl_can_rollback_to (il_pl (pg_log g))) ->
  exists g' k' info', recover_got o (mi_need i) g k info = Ret (g', k', info') /\ pg_log g' = pg_log g /\ pg_missing g' = rm_item o i (pg_missing g) /\
    rm_ok (pg_missing g') /\ owned h (pg_missing g') /\ complete (pl_log (il_pl (pg_log g'))) (pg_missing g') k' (i_last_complete info') /\
    i_last_update info' = head_of h /\ (ms_missing (pg_missing g') = ∅ -> i_last_complete info' = head_of h).
Proof.
  intros L Hr Ho [C1 C2 C3] Eu Ei Hcrt. destruct (rm_item_owned h _ o i Hr Ho Ei) as [Hr' Ho']. unfold recover_got, is_missing_at, missing_got. rewrite Ei.
  replace (ev_ltb _ _) with false by (symmetry; apply ev_ltb_ge; unfold ev_le; lia). replace (ev_leb (mi_need i) (mi_need i)) with true by (symmetry; apply ev_leb_le; unfold ev_le; lia).
  cbn [negb orb rassert rbind]. replace (ev_leb _ _) with true by (symmetry; by apply ev_leb_le). cbn [rassert rbind].
  set (m := rm_item o i (pg_missing g)) in *. pose proof (lg_log _ _ L) as Elog. set (log := pl_log _) in *.
  assert (StronglySorted lt_entry log) as S by (rewrite Elog; apply filter_sorted, (h_sorted _ Hh)).
  case_bool_decide as Em.
  - unfold get_oldest_need. rewrite bool_decide_eq_true_2 by done. cbn [rbind]. rewrite drop_all. cbn [got_loop rbind]. eexists _, _, _. split; [reflexivity|]. cbn [set_missing pg_missing pg_log i_last_complete i_last_update set_last_complete set_num_missing].
    split_and!; try done. split.
    + intros o' i' E'. by rewrite Em, lookup_empty in E'.
    + intros e He. rewrite Eu. apply head_of_ge; [done|]. apply subseteq_take in He. change (e ∈ log) in He. rewrite Elog in He. by apply elem_above in He as [_ He].
    + intros e _ _ N. done.
  - destruct (get_oldest_need_spec h m Hh Hr' Ho' Em) as (o1 & i1 & -> & E1 & Hmin). cbn [rbind].
    destruct (got_loop (drop k log) (mi_need i1) k (i_last_complete info)) as [k' lc'] eqn:Eg.
    assert (ms_missing (pg_missing g) !! o1 = Some i1) as E1' by (unfold m, rm_item in E1; cbn in E1; by apply lookup_delete_Some in E1 as [_ ?]).
    change (i_last_complete (set_num_missing (Z.of_nat (size (ms_missing m))) info)) with (i_last_complete info). rewrite Eg. cbn [rbind].
    rewrite <- (take_drop k log) in S. apply sorted_app in S as (_ & S & _).
    destruct (got_loop_spec _ _ _ _ _ _ Eg S (C1 _ _ E1')) as ((a & b & Eab & -> & A & B) & D1 & D2).
    eexists _, _, _. split; [reflexivity|]. cbn [set_missing pg_missing pg_log i_last_complete i_last_update set_last_complete set_num_missing]. split_and!; try done.
    assert (log = take k log ++ a ++ b) as Elog' by (by rewrite <- Eab, take_drop). split.
    + intros o' i' E'. specialize (Hmin o' i' E'). ev_lia.
    + fold log. intros e He. rewrite <- take_take_drop, Eab, take_app_length in He. apply elem_of_app in He as [He|He]; [|by apply A]. specialize (C2 e He). ev_lia.
    + fold log. intros e He Hlt _. rewrite Elog' in He. rewrite !elem_of_app in He. specialize (Hlt o1 i1 E1).
      destruct He as [He|[He|He]]; [specialize (C2 e He); ev_lia|by apply A|specialize (B e He); ev_lia].
Qed.

(** ** Any number of objects, in any order *)

Fixpoint recover_all (l : list O) (g : PGLog (O:=O)) (k : nat) (info : pg_info_t (O:=O)) : res (PGLog (O:=O) * nat * pg_info_t (O:=O)) :=
  match l with
  | [] => Ret (g, k, info)
  | o :: l =>
      i <~ deref (ms_missing (pg_missing g) !! o);;
      '(g, k, info) <~ recover_got o (mi_need i) g k info;;
      recover_all l g k info
  end.

Lemma recover_all_spec (l : list O) (g : PGLog (O:=O)) k info :
  NoDup l -> (forall o, o ∈ l -> is_Some (ms_missing (pg_missing g) !! o)) ->
  logs h (pg_log g) -> rm_ok (pg_missing g) -> owned h (pg_missing g) -> complete (pl_log (il_pl (pg_log g))) (pg_missing g) k (i_last_complete info) ->
  i_last_update info = head_of h -> (forall o i, ms_missing (pg_missing g) !! o = Some i -> ev_le (mi_need i) (pl_can_rollback_to (il_pl (pg_log g)))) ->
  (ms_missing (pg_missing g) = ∅ -> i_last_complete info = head_of h) ->
  exists g' k' info', recover_all l g k info = Ret (g', k', info') /\ pg_log g' = pg_log g /\
    (forall o, ms_missing (pg_missing g') !! o = if decide (o ∈ l) then None else ms_missing (pg_missing g) !! o) /\
    rm_ok (pg_missing g') /\ complete (pl_log (il_pl (pg_log g'))) (pg_missing g') k' (i_last_complete info') /\
    (ms_missing (pg_missing g') = ∅ -> i_last_complete info' = head_of h).
Proof.
  intros Hn. revert g k info. induction Hn as [|o l Hnin Hn IH]; intros g k info Hl L Hr Ho C Eu Hcrt Hfin; cbn [recover_all].
  { exists g, k, info. split_and!; try done. }
  destruct (Hl o ltac:(by constructor)) as [i Ei]. rewrite Ei. cbn [deref rbind].
  destruct (recover_got_spec g k info o i L Hr Ho C Eu Ei (Hcrt o i Ei)) as (g1 & k1 & info1 & -> & E1 & E2 & Hr1 & Ho1 & C1 & Eu1 & Hfin1). cbn [rbind].
  destruct (IH g1 k1 info1) as (g' & k' & info' & -> & G1 & G2 & G3 & G4 & G5); try done.
  - intros o' Ho'. rewrite E2. cbn. rewrite lookup_delete_ne by (by intros ->). apply Hl. by constructor.
  - by rewrite E1.
  - intros o' i'. rewrite E1, E2. cbn. intros [_ E']%lookup_delete_Some. by eapply Hcrt.
  - exists g', k', info'. split_and!; try done; [congruence|]. intros o'. rewrite G2, E2. cbn. destruct (decide (o' = o)) as [->|N].
    + rewrite (decide_True (P := o ∈ o :: l)) by by constructor. case_decide; [done|]. apply lookup_delete_eq.
    + rewrite lookup_delete_ne by done. destruct (decide (o' ∈ l)) as [Hi|Hi]; [by rewrite decide_True by by constructor|].
      rewrite decide_False; [done|]. intros [?|?]%elem_of_cons; done.
Qed.

(** C13. Activation and recovery, where [rmissing] agrees with the missing items
    and no needed version is above [can_rollback_to]: [activate_not_complete] finds the first entry
    that is still needed, and however many missing objects are then recovered,
    in whatever order, no assertion fails, they are no longer missing,
    [last_complete] stays below every version that is still needed and reaches
    every write below all of them, and it is the last update once nothing is
    missing. *)
Theorem recovery_ok (l : list O) (g : PGLog (O:=O)) k info :
  logs h (pg_log g) -> rm_ok (pg_missing g) -> owned h (pg_missing g) -> pl_log (il_pl (pg_log g)) <> [] -> ms_missing (pg_missing g) <> ∅ ->
  i_last_update info = head_of h -> (forall o i, ms_missing (pg_missing g) !! o = Some i -> ev_le (mi_need i) (pl_can_rollback_to (il_pl (pg_log g)))) ->
  NoDup l -> (forall o, o ∈ l -> is_Some (ms_missing (pg_missing g) !! o)) ->
  exists k0 info0 g' k' info', reset_complete_to g k (Some info) = Ret (k0, Some info0) /\ recover_all l g k0 info0 = Ret (g', k', info') /\
    (forall o, ms_missing (pg_missing g') !! o = if decide (o ∈ l) then None else ms_missing (pg_missing g) !! o) /\ rm_ok (pg_missing g') /\
    complete (pl_log (il_pl (pg_log g'))) (pg_missing g') k' (i_last_complete info') /\
    (ms_missing (pg_missing g') = ∅ -> i_last_complete info' = head_of h).
Proof.
  intros L Hr Ho Nl Nm Eu Hcrt Hn Hl. destruct (reset_complete_spec g k info L Hr Ho Nl Nm) as (k0 & info0 & -> & C & Eu0).
  destruct (recover_all_spec l g k0 info0) as (g' & k' & info' & E & _ & G); try done; [congruence|].
  exists k0, info0, g', k', info'. by split_and!; [..|apply G|apply G|apply G|apply G].
Qed.
End log.

(** ** Trimming *)

Notation upto t := (filter (fun e : entry => ev_ltb t (le_version e) = false)).

Lemma unindex_spec (e : entry) (l : list entry) : StronglySorted lt_entry (e :: l) -> il_unindex_one e (index_of (e :: l)) = index_of l.
Proof.
  intros S. inversion S as [|? ? _ F]; subst. rewrite Forall_forall in F. unfold il_unindex_one. apply map_eq. intros o.
  assert (forall o', index_of (e :: l) !! o' = match index_of l !! o' with Some x => Some x | None => if decide (le_soid e = o' /\ is_error e = false) then Some e else None end) as E.
  { intros o'. rewrite !index_of_lookup, hist_cons. case_decide; [rewrite last_cons|]; by destruct (last (hist o' l)). }
  assert (forall x, index_of l !! le_soid e = Some x -> ev_eqb (le_version x) (le_version e) = false) as N.
  { intros x Hx. rewrite index_of_lookup in Hx. apply last_Some_elem_of, elem_hist in Hx as (_ & _ & Hx). apply ev_eqb_neq. intros Ev. specialize (F x Hx).
    unfold lt_entry in F. rewrite Ev in F. by apply vlt_irrefl in F. }
  rewrite (E (le_soid e)). destruct (index_of l !! le_soid e) as [x|] eqn:Ex.
  - rewrite N by done. rewrite E. destruct (index_of l !! o) eqn:Eo; [done|]. rewrite decide_False; [done|]. intros [<- _]. congruence.
  - destruct (decide (le_soid e = le_soid e /\ is_error e = false)) as [D|D].
    + replace (ev_eqb (le_version e) (le_version e)) with true by (symmetry; by apply ev_eqb_eq). cbv iota. destruct (decide (o = le_soid e)) as [->|No]; [by rewrite lookup_delete_eq, Ex|].
      rewrite lookup_delete_ne, E by done. destruct (index_of l !! o); [done|]. by rewrite decide_False by (intros [? _]; congruence).
    + rewrite E. destruct (index_of l !! o) eqn:Eo; [done|]. rewrite decide_False; [done|]. intros [<- ?]. by apply D.
Qed.

Lemma trim_loop_spec (log : list entry) v earliest k dups trimmed wfd :
  StronglySorted lt_entry log ->
  exists k' wfd', trim_loop log v earliest (index_of log) true k dups trimmed wfd =
    (above v log, index_of (above v log), k', dups ++ mjoin ((fun e => if earliest <=? ev_version (le_version e) then dups_of e else []) <$> upto v log),
     trimmed ++ (le_version <$> upto v log), wfd').
Proof.
  intros S. revert k dups trimmed wfd. induction S as [|e l S IH F]; intros k dups trimmed wfd; cbn [trim_loop].
  { exists k, wfd. by rewrite !app_nil_r. }
  pose proof (tail_part_spec v (e :: l) ltac:(by constructor)) as Et. cbn [tail_part] in Et. destruct (ev_ltb v (le_version e)) eqn:E.
  - injection Et as <- <-. exists k, wfd. by rewrite !app_nil_r.
  - rewrite unindex_spec by by constructor. unfold above in *. rewrite (filter_cons_False _ e) by congruence. rewrite filter_cons_True by done. cbn [fmap list_fmap mjoin list_join].
    case_bool; cbn zeta; (edestruct IH as (k' & wfd' & ->)); exists k', wfd'; by rewrite <- ?app_assoc.
Qed.

Lemma split_dups_spec (dups : list pg_log_dup_t) earliest x : x ∈ dups -> earliest <= ev_version (d_version x) -> x ∈ (split_dups dups earliest).2.
Proof.
  intros Hx He. induction dups as [|d l IH]; cbn; [by apply elem_of_nil in Hx|]. case_bool; [done|]. zbool.
  destruct (split_dups l earliest) as [a b]. cbn in *. apply IH. apply elem_of_cons in Hx as [->|Hx]; [lia|done].
Qed.

Lemma dups_of_version (e : entry) x : x ∈ dups_of e -> d_version x = le_version e.
Proof.
  unfold dups_of. intros [->|Hx]%elem_of_cons; [done|]. apply elem_of_lookup_imap in Hx as (i & y & -> & _). done.
Qed.

Context {St : Type} `{!LogEntryHandler (O:=O) St} `{!StoreLaws St}.

(** C14. Trimming: when the store can no longer be taken back below [trim_to],
    the log is afterwards the part of the history above it, with the index that
    belongs to it; the versions that left are those to be erased on disk, and
    of the requests of the last [tracked] versions none is forgotten: each is
    in the log or among the dups. *)
Theorem pg_trim_ok h tracked trim_to applied async (g : PGLog (O:=O)) info (s : St) trimmed tdups wfd :
  history h -> osd_ok h g info s -> 0 <= tracked ->
  ev_lt (pl_tail (il_pl (pg_log g))) trim_to -> ev_le trim_to (pl_can_rollback_to (il_pl (pg_log g))) -> ev_le trim_to (head_of h) ->
  (applied = true -> async = false -> ms_missing (pg_missing g) = ∅ -> ev_le trim_to (i_last_complete info)) ->
  exists g' info' trimmed' tdups' wfd', pg_trim tracked trim_to applied async g info trimmed tdups wfd = Ret (g', info', trimmed', tdups', wfd') /\
    osd_ok h g' info' s /\ pl_tail (il_pl (pg_log g')) = trim_to /\ pg_missing g' = pg_missing g /\
    trimmed' = trimmed ++ (le_version <$> upto trim_to (pl_log (il_pl (pg_log g)))) /\
    (forall x, x ∈ pl_dups (il_pl (pg_log g)) \/ (exists e, e ∈ pl_log (il_pl (pg_log g)) /\ ev_le (le_version e) trim_to /\ x ∈ dups_of e) ->
       0 <= ev_version (d_version x) -> ev_version (head_of h) - tracked < ev_version (d_version x) -> x ∈ pl_dups (il_pl (pg_log g'))).
Proof.
  intros Hh [L G2 G3 G4 G5] Ht0 Ht Hcrt Hhead Happ. unfold pg_trim. replace (ev_ltb _ _) with true by (symmetry; by apply ev_ltb_lt).
  assert ((if applied && negb async && bool_decide (ms_missing (pg_missing g) = ∅) then rassert (ev_leb trim_to (i_last_complete info)) else Ret tt) = Ret tt) as ->.
  { case_bool; [|done]. evbool. apply bool_decide_eq_true in H1. by replace (ev_leb _ _) with true by (symmetry; apply ev_leb_le; auto). }
  cbn [rbind]. unfold il_trim. replace (ev_leb _ _) with true by (symmetry; by apply ev_leb_le). cbn [rassert rbind].
  pose proof L as [L1 L2 L3 L4 [L5 L6]]. destruct (last_above (pl_tail (il_pl (pg_log g))) h Hh) as [[_ Hle]|[El _]].
  { rewrite max_ev_l in Hle by done. ev_lia. }
  rewrite <- L2 in El. destruct (last h) as [x|] eqn:Eh; [|unfold head_of in Hhead; rewrite Eh in Hhead; ev_lia].
  assert (head_of h = le_version x) as Ex by (unfold head_of; by rewrite Eh). apply last_Some in El as [q Eq].
  assert (head (rev (pl_log (il_pl (pg_log g)))) = Some x) as -> by (by rewrite Eq, rev_app_distr). cbn [deref rbind].
  rewrite <- Ex. set (earliest := if ev_version (head_of h) <? tracked then 0 else _).
  assert (earliest <= ev_version (head_of h) - tracked + 1 \/ earliest = 0) as He.
  { subst earliest. case_bool; [by right|left]. zbool. apply Z.mod_le; lia. }
  assert (StronglySorted lt_entry (pl_log (il_pl (pg_log g)))) as S by (rewrite L2; apply filter_sorted, (h_sorted _ Hh)).
  rewrite L3, L4. destruct (trim_loop_spec _ trim_to earliest (il_riter (pg_log g)) (pl_dups (il_pl (pg_log g))) [] wfd S) as (k' & wfd' & ->).
  set (dups := _ ++ mjoin _). pose proof (split_dups_spec dups earliest) as Hs. destruct (split_dups dups earliest) as [cut dups']. cbn [rbind snd] in *.
  replace (ev_ltb _ _) with true by (symmetry; by apply ev_ltb_lt).
  eexists _, _, _, _, _. split; [reflexivity|]. split_and!; [|done|done|done|].
  - split; cbn; try done. split; cbn; [done| |done|done|split; [ev_lia|done]]. rewrite L2. apply above_above. ev_lia.
  - intros y Hy H0 Hlt. cbn. apply Hs; [|lia]. subst dups. apply elem_of_app. destruct Hy as [Hy|(e & Hy & Hle & Hd)]; [by left|right]. apply list_elem_of_join. exists (dups_of e). split; [done|].
      apply list_elem_of_fmap. exists e. split; [|apply list_elem_of_filter; split; [by apply ev_ltb_ge|done]].
      assert (d_version y = le_version e) as Ey by by apply dups_of_version. rewrite Ey in Hlt. pose proof (h_positive _ Hh e) as P. rewrite L2 in Hy. apply elem_above in Hy as [_ Hy].
      specialize (P Hy). unfold vlt in P. cbn in P. by replace (_ <=? _) with true by (symmetry; apply Z.leb_le; lia).
Qed.
End recover.
