(* ===== verification/PgLogTheorems.v ===== *)
(** * The log of a placement group: a store, objects, and runs

    The interfaces of PgHist.v and PgDivergent.v hold of what they stand for:
    a map from objects to versions is a store with the laws ([map_store]), and
    the objects of Hobject.v are ordered ([object_laws]).  A run of two OSDs
    whose logs differ, and a run that shows how the order of the missing
    objects gets lost ([merge_loses_order]). *)

From S2P Require Import Prelude Bits Encoding Hobject HobjectOrder PgLog PgHist PgDivergent PgRewind PgMergeLog PgReplica PgRecover.
From stdpp Require Import gmap sorting.
Open Scope Z_scope.

(** ** A store *)

Section map_store.
Context {O : Type} `{Countable O}.
Notation entry := (pg_log_entry_t (O:=O)).

(** The versions of the objects, and the writes for which nothing is kept. *)
Record map_store := MapStore { st_objects : gmap O eversion_t; st_gone : gset eversion_t }.

Definition forget (e : entry) (s : map_store) : map_store := MapStore (st_objects s) ({[le_version e]} ∪ st_gone s).
Definition drop_object (o : O) (s : map_store) : map_store := MapStore (delete o (st_objects s)) (st_gone s).

#[export] Instance map_handler : LogEntryHandler (O:=O) map_store := {
  h_rollback e s := forget e (MapStore (partial_alter (fun _ => before e) (le_soid e) (st_objects s)) (st_gone s));
  h_rollforward := forget;
  h_trim := forget;
  h_remove := drop_object;
  h_try_stash o v := drop_object o;
}.

#[export, refine] Instance map_store_laws : StoreLaws map_store := {
  sv s o := st_objects s !! o;
  ready s e := le_version e ∉ st_gone s;
}.
Proof.
  all: intros; cbn in *; try done; try (apply not_elem_of_union; split; [by apply not_elem_of_singleton|done]).
  - case_decide as E; [subst; apply lookup_delete_eq|by apply lookup_delete_ne].
  - case_decide as E; [subst; apply lookup_delete_eq|by apply lookup_delete_ne].
  - apply lookup_partial_alter_eq.
  - by apply lookup_partial_alter_ne.
Defined.
End map_store.

(** ** Objects *)

#[export] Instance hobject_eq_dec : EqDecision hobject_t.
Proof. solve_decision. Defined.

#[export] Instance hobject_countable : Countable hobject_t.
Proof.
  refine (inj_countable' (fun o => (h_oid o, h_snap o, h_hash o, h_max o, h_nibblewise_key_cache o, h_hash_reverse_bits o, h_pool o, h_nspace o, h_key o))
    (fun '(a, b, c, d, e, f, g, i, j) => HObject a b c d e f g i j) _). by intros [].
Defined.

#[export] Instance wf_hobject_dec o : Decision (wf_hobject o).
Proof.
  refine (cast_if (decide ((0 <= h_hash o < 2 ^ 32) /\ h_nibblewise_key_cache o = reverse_nibbles (h_hash o) /\ h_hash_reverse_bits o = reverse_bits (h_hash o) /\
    (h_key o = [] \/ h_key o <> h_oid o) /\ (h_max o = true -> o = hobject_get_max)))); [|intros []; tauto].
  by destruct a as (? & ? & ? & ? & ?); split.
Defined.

Notation object := (dsig wf_hobject).

#[export] Instance object_objorder : ObjOrder object := { ocmp a b := cmp (`a) (`b); ois_max a := h_max (`a) }.

#[export] Instance object_laws : ObjOrderLaws object.
Proof.
  pose proof cmp_orders as [A T E]. split; cbn.
  - intros a b. rewrite (E (`a) (`b)) by (by apply (proj2_dsig _)). symmetry. apply dsig_eq.
  - intros a b. rewrite (A (`a) (`b)). lia.
  - intros a b c H1 H2. pose proof (T (`a) (`b) (`c)).
    destruct (decide (cmp (`a) (`c) = 0)) as [Z0|]; [|lia]. apply E in Z0; [|by apply (proj2_dsig _)..]. rewrite Z0 in H1. rewrite (A (`b) (`c)) in H1. lia.
Qed.

(** ** Checking histories *)

Section check.
Context {O : Type} `{Countable O}.
Notation entry := (pg_log_entry_t (O:=O)).

Fixpoint chainedb (prev : option entry) (l : list entry) : bool :=
  match l with
  | [] => true
  | e :: l =>
      bool_decide (match prev with Some x => after x | None => None end = before e) &&
      (negb (is_clone e) || match prev with None => true | Some _ => false end) && chainedb (Some e) l
  end.

Fixpoint sortedb (v : eversion_t) (l : list entry) : bool :=
  match l with
  | [] => true
  | e :: l => (ev_epoch v <=? ev_epoch (le_version e)) && (ev_version v <? ev_version (le_version e)) && sortedb (le_version e) l
  end.

Definition historyb (h : list entry) : bool := sortedb ev0 h && forallb (fun o => chainedb None (hist o h)) (map le_soid h).

Lemma chainedb_spec (pre l : list entry) : chainedb (last pre) l = true -> chained pre -> chained (pre ++ l).
Proof.
  revert pre. induction l as [|e l IH]; intros pre E C; cbn in E; [by rewrite app_nil_r|]. zbool. rewrite bool_decide_eq_true in H0.
  rewrite cons_middle, app_assoc. apply IH; [by rewrite last_snoc|]. intros l1 x l2 Ex. destruct l2 as [|y l2 _] using rev_ind.
  - apply app_inj_tail in Ex as [<- <-]. split; [done|]. intros Ec. rewrite Ec in H2. cbn in H2. destruct (last pre) eqn:El; [done|]. by apply last_None.
  - rewrite app_comm_cons, app_assoc in Ex. apply app_inj_tail in Ex as [-> _]. by apply (C l1 x l2).
Qed.

Lemma sortedb_spec v (l : list entry) : sortedb v l = true -> StronglySorted lt_entry l /\ forall e, e ∈ l -> vlt v (le_version e).
Proof.
  revert v. induction l as [|e l IH]; intros v E; cbn in E; [split; [constructor|by intros e ?%elem_of_nil]|]. zbool. destruct (IH _ H1) as [S A]. split.
  - constructor; [done|]. apply Forall_forall. intros x Hx. by apply A.
  - intros x [->|Hx]%elem_of_cons; [done|]. specialize (A x Hx). unfold vlt in *. lia.
Qed.

Lemma historyb_spec h : historyb h = true -> history h.
Proof.
  unfold historyb. intros E. zbool. destruct (sortedb_spec _ _ H0) as [S A]. split; [done|done|]. intros o. rewrite forallb_forall in H1.
  destruct (hist o h) as [|e l] eqn:Eh; [by intros [|] ? ? ?|]. assert (e ∈ hist o h) as He by (rewrite Eh; by constructor). apply elem_hist in He as (Es & _ & He).
  rewrite <- Eh. apply (chainedb_spec []); [|by intros [|] ? ? ?]. apply H1. rewrite <- Es. by apply in_map, list_elem_of_In.
Qed.

(** The store a history leaves. *)
Definition objects_of (h : list entry) : gmap O eversion_t :=
  foldl (fun m e => if is_error e then m else partial_alter (fun _ => after e) (le_soid e) m) ∅ h.

Lemma objects_of_lookup h o : objects_of h !! o = cur (hist o h).
Proof.
  induction h as [|e h IH] using rev_ind; [done|]. unfold objects_of in *. rewrite foldl_snoc, writes_app, hist_cons. destruct (is_error e) eqn:E.
  - rewrite decide_False by (by intros [_ ?]). by rewrite app_nil_r.
  - destruct (decide (le_soid e = o)) as [<-|N].
    + rewrite decide_True, lookup_partial_alter_eq by done. symmetry. apply cur_snoc.
    + rewrite decide_False by (by intros [? _]). by rewrite lookup_partial_alter_ne, app_nil_r.
Qed.
End check.

(** ** A run

    Objects are numbers.  Two writes are shared; one OSD then changed object 1
    and deleted object 2, the other one changed object 2 in a later epoch. *)

#[local] Instance number_order : ObjOrder Z := { ocmp a b := a - b; ois_max a := a =? 100 }.

#[local] Instance number_laws : ObjOrderLaws Z.
Proof. split; cbn; intros; lia. Qed.

Definition wr (op : log_op) (o ep v pep pv : Z) (rollback : bool) : pg_log_entry_t (O:=Z) := Entry op o (EV ep v) (EV pep pv) rollback v [] [] v 0.

Definition shared : list (pg_log_entry_t (O:=Z)) := [wr MODIFY 1 1 1 0 0 true; wr MODIFY 2 1 2 0 0 true].
Definition diverging : list (pg_log_entry_t (O:=Z)) := [wr MODIFY 1 1 3 1 1 true; wr DELETE 2 1 4 1 2 false].
Definition newer : list (pg_log_entry_t (O:=Z)) := [wr MODIFY 2 2 3 1 2 true].

Definition no_missing : pg_missing_set (O:=Z) := Missing ∅ ∅ true ∅.

Definition log_at (h : list (pg_log_entry_t (O:=Z))) (tail crt : eversion_t) : pg_log_t (O:=Z) := PLog (head_of h) tail crt crt (above tail h) [].

Definition osd_at (h : list (pg_log_entry_t (O:=Z))) (tail crt : eversion_t) (m : pg_missing_set (O:=Z)) : PGLog (O:=Z) :=
  PgL m (indexed_log (log_at h tail crt)) ev0 ev_max ev_max ev0 ev_max.

Definition info_at (h : list (pg_log_entry_t (O:=Z))) (tail : eversion_t) : pg_info_t (O:=Z) := Info (head_of h) (head_of h) tail 0 100 (Stat 0 0 0 0) 0 0.

Definition store_at (h : list (pg_log_entry_t (O:=Z))) : map_store (O:=Z) := MapStore (objects_of h) ∅.

Lemma logs_at h tail crt : ev_leb ev0 tail && ev_leb tail (head_of h) = true -> logs h (indexed_log (log_at h tail crt)).
Proof. intros E. evbool. by split. Qed.

Lemma osd_at_ok h tail crt : ev_leb ev0 tail && ev_leb tail (head_of h) = true -> osd_ok h (osd_at h tail crt no_missing) (info_at h tail) (store_at h).
Proof.
  intros E. split; [by apply logs_at| | |done|done].
  - intros o _. cbn. apply objects_of_lookup.
  - intros e _ _ _ _. cbn. set_solver.
Qed.

Lemma newer_later x y : x ∈ diverging -> y ∈ newer -> ev_lt (le_version x) (le_version y).
Proof. intros Hx Hy. apply list_elem_of_In in Hx, Hy. destruct Hy as [<-|[]]. destruct Hx as [<-|[<-|[]]]; left; done. Qed.

Lemma merge_log_ok_witness :
  exists g' info' oinfo' c s', merge_log (info_at (shared ++ newer) ev0) (log_at (shared ++ newer) ev0 (EV 1 2)) (osd_at (shared ++ diverging) (EV 1 1) (EV 1 2) no_missing)
      (info_at (shared ++ diverging) (EV 1 1)) (store_at (shared ++ diverging)) = Ret (g', info', oinfo', c, s') /\
    osd_ok (shared ++ newer) g' info' s' /\ pl_tail (il_pl (pg_log g')) = ev0 /\ i_last_backfill info' = 100.
Proof.
  apply (merge_log_ok shared diverging newer); [by apply historyb_spec|by apply historyb_spec|apply newer_later|by apply osd_at_ok|by apply ev_leb_le|done|done|by apply ev_leb_le|by apply ev_leb_le].
Defined.

Lemma no_missing_ok h : rm_ok no_missing /\ owned h no_missing.
Proof. split; [split; cbn; intros ? ?; by rewrite lookup_empty|]. intros o i. cbn. by rewrite lookup_empty. Qed.

Lemma proc_replica_log_ok_witness :
  let g := osd_at (shared ++ newer) ev0 (EV 1 2) no_missing in
  let r := osd_at (shared ++ diverging) (EV 1 1) (EV 1 2) no_missing in
  exists oinfo om r' rinfo' s', proc_replica_log g (info_at (shared ++ diverging) (EV 1 1)) (il_pl (pg_log r)) (pg_missing r) (store_at []) = Ret (oinfo, om) /\
    rewind_divergent_log (head_of shared) r (info_at (shared ++ diverging) (EV 1 1)) (store_at (shared ++ diverging)) = Ret (r', rinfo', s') /\ osd_ok shared r' rinfo' s' /\
    pg_missing r' = om /\ i_last_update oinfo = head_of shared /\ rm_ok om /\
    (head_of (shared ++ diverging) <> head_of (shared ++ newer) -> forall o i, ms_missing om !! o = Some i -> ev_lt (i_last_complete oinfo) (mi_need i)).
Proof.
  apply (proc_replica_log_ok shared diverging newer); [by apply historyb_spec|by apply historyb_spec|apply newer_later|by apply logs_at|by apply ev_leb_le|by apply osd_at_ok|by apply ev_leb_le|apply (no_missing_ok [])|apply no_missing_ok].
Defined.

(** Object 2 is missing after the shared writes. *)
Definition one_missing : pg_missing_set (O:=Z) := Missing {[2 := Item (EV 1 2) ev0 false]} {[2 := 2]} true ∅.

Lemma one_missing_ok : rm_ok one_missing /\ owned shared one_missing.
Proof.
  split; [split; cbn|].
  - intros o i [<- <-]%lookup_singleton_Some. apply lookup_singleton_eq.
  - intros v o [<- <-]%lookup_singleton_Some. eexists. by rewrite lookup_singleton_eq.
  - intros o i. cbn. intros [<- <-]%lookup_singleton_Some. exists (wr MODIFY 2 1 2 0 0 true). split; [|done]. apply list_elem_of_In. right. by left.
Qed.

Lemma recovery_ok_witness :
  exists k0 info0 g' k' info', reset_complete_to (osd_at shared ev0 (EV 1 2) one_missing) 0 (Some (info_at shared ev0)) = Ret (k0, Some info0) /\
    recover_all [2] (osd_at shared ev0 (EV 1 2) one_missing) k0 info0 = Ret (g', k', info') /\
    (forall o, ms_missing (pg_missing g') !! o = if decide (o ∈ [2]) then None else ms_missing one_missing !! o) /\ rm_ok (pg_missing g') /\
    complete (pl_log (il_pl (pg_log g'))) (pg_missing g') k' (i_last_complete info') /\
    (ms_missing (pg_missing g') = ∅ -> i_last_complete info' = EV 1 2).
Proof.
  apply (recovery_ok shared ltac:(by apply historyb_spec) [2] (osd_at shared ev0 (EV 1 2) one_missing) 0 (info_at shared ev0));
    [by apply logs_at|apply one_missing_ok|apply one_missing_ok|done|done|done| |apply NoDup_singleton|].
  - intros o i. cbn. intros [<- <-]%lookup_singleton_Some. by apply ev_leb_le.
  - intros o ->%list_elem_of_singleton. by eexists.
Defined.

Lemma pg_trim_ok_witness :
  exists g' info' trimmed' tdups' wfd', pg_trim 3000 (EV 1 1) true false (osd_at shared ev0 (EV 1 2) no_missing) (info_at shared ev0) [] [] ev_max = Ret (g', info', trimmed', tdups', wfd') /\
    osd_ok shared g' info' (store_at shared) /\ pl_tail (il_pl (pg_log g')) = EV 1 1 /\ pg_missing g' = no_missing /\ trimmed' = [EV 1 1] /\
    (forall x, x ∈ [] \/ (exists e, e ∈ shared /\ ev_le (le_version e) (EV 1 1) /\ x ∈ dups_of e) -> 0 <= ev_version (d_version x) -> 2 - 3000 < ev_version (d_version x) ->
       x ∈ pl_dups (il_pl (pg_log g'))).
Proof.
  apply (pg_trim_ok shared 3000 (EV 1 1) true false (osd_at shared ev0 (EV 1 2) no_missing) (info_at shared ev0) (store_at shared) [] [] ev_max);
    [by apply historyb_spec|by apply osd_at_ok|done|by apply ev_ltb_lt|by apply ev_leb_le|by apply ev_leb_le|by intros; apply ev_leb_le].
Defined.

(** ** The order of missing objects

    The divergent write 1'3 of object 1 is missing when the log with the write
    2'3 of object 2 is merged.  Both have the number 3. *)

Definition diverging_missing : list (pg_log_entry_t (O:=Z)) := [wr MODIFY 1 1 3 1 1 true].
Definition divergent_need : pg_missing_set (O:=Z) := Missing {[1 := Item (EV 1 3) (EV 1 1) false]} {[3 := 1]} true ∅.

Lemma divergent_need_ok : rm_ok divergent_need /\ owned (shared ++ diverging_missing) divergent_need.
Proof.
  split; [split; cbn|].
  - intros o i [<- <-]%lookup_singleton_Some. apply lookup_singleton_eq.
  - intros v o [<- <-]%lookup_singleton_Some. eexists. by rewrite lookup_singleton_eq.
  - intros o i. cbn. intros [<- <-]%lookup_singleton_Some. exists (wr MODIFY 1 1 3 1 1 true). split; [|done]. apply list_elem_of_In. right. right. by left.
Qed.

(** [merge_log] enters object 2 under the number 3 and then, for object 1, erases
    what is under the number 3: object 2 is missing but not in [rmissing], and
    the next activation takes the first element of an empty map.  Before the
    merge the OSD was at the end of its history and [rmissing] was right. *)
Lemma merge_loses_order :
  let g := osd_at (shared ++ diverging_missing) ev0 (EV 1 2) divergent_need in
  let info := info_at (shared ++ diverging_missing) ev0 in
  osd_ok (shared ++ diverging_missing) g info (store_at shared) /\ rm_ok (pg_missing g) /\ owned (shared ++ diverging_missing) (pg_missing g) /\
  exists g' info' oinfo' c s', merge_log (info_at (shared ++ newer) ev0) (log_at (shared ++ newer) ev0 (EV 1 2)) g info (store_at shared) = Ret (g', info', oinfo', c, s') /\
    ms_missing (pg_missing g') = {[2 := Item (EV 2 3) (EV 1 2) false]} /\ ms_rmissing (pg_missing g') = ∅ /\ reset_complete_to g' 0 (Some info') = Fault.
Proof.
  cbn zeta. split_and!; [|apply divergent_need_ok..|].
  - split; [by apply logs_at| | |done|done].
    + intros o _. cbn. destruct (decide (o = 1)) as [->|N].
      * rewrite lookup_singleton_eq. exists (wr MODIFY 1 1 3 1 1 true). by split_and!.
      * rewrite lookup_singleton_ne by done. change (objects_of shared !! o = cur (hist o (shared ++ diverging_missing))).
        rewrite objects_of_lookup, writes_app. unfold diverging_missing. rewrite hist_cons, decide_False by (cbn; intros [? _]; congruence). by rewrite app_nil_r.
    + intros e _ _ _ _. cbn. set_solver.
  - match goal with |- context [merge_log ?a ?b ?c ?d ?e] => assert (match merge_log a b c d e with
      | Ret (g', info', _, _, _) => ms_missing (pg_missing g') = {[2 := Item (EV 2 3) (EV 1 2) false]} /\ ms_rmissing (pg_missing g') = ∅ /\ reset_complete_to g' 0 (Some info') = Fault
      | _ => False end) as E by (vm_compute; done) end.
    destruct (merge_log _ _ _ _ _) as [[[[[g' info'] oinfo'] c] s']| |]; [|done..]. by exists g', info', oinfo', c, s'.
Qed.
