(* ===== verification/Paxos.v ===== *)
(** * The monitors' Paxos (src/src/mon/Paxos.cc, Paxos.h,
    src/src/messages/MMonPaxos.h)

    One monitor: its memory, its store and every handler of [Paxos], as
    functions that change the monitor and collect the messages it sends.  A
    failed [ceph_assert] is [Fault].  The services that propose transactions
    are not part of this component: what their operations do to their keys is
    a parameter.

    Time is an argument ([ceph_clock_now()] at the call), and so is the answer
    of [refresh_from_paxos], which asks for a bootstrap when a service needs
    one.  Timer events are flags that say whether one is set.  Completions of
    the services are not modelled, except the one that ends a trim. *)

From stdpp Require Import gmap sorting.
From S2P Require Import Prelude.
Open Scope Z_scope.

Inductive state :=
  | STATE_RECOVERING
  | STATE_ACTIVE
  | STATE_UPDATING
  | STATE_UPDATING_PREVIOUS
  | STATE_WRITING
  | STATE_WRITING_PREVIOUS
  | STATE_REFRESH
  | STATE_SHUTDOWN.

#[export] Instance state_eq_dec : EqDecision state.
Proof. solve_decision. Defined.

Inductive paxos_op := OP_COLLECT | OP_LAST | OP_BEGIN | OP_ACCEPT | OP_COMMIT | OP_LEASE | OP_LEASE_ACK.

#[export] Instance paxos_op_eq_dec : EqDecision paxos_op.
Proof. solve_decision. Defined.

(** [Monitor::state].  A monitor that synchronizes its store is not modelled. *)
Inductive role := Leader | Peon | Probing | Electing.

#[export] Instance role_eq_dec : EqDecision role.
Proof. solve_decision. Defined.

Definition in_quorum (r : role) : bool := match r with Leader | Peon => true | _ => false end.

(** What [pending_finishers] holds: the completion of a trim or one of a
    service. *)
Inductive finisher := C_Trimmed | C_Service.

#[export] Instance finisher_eq_dec : EqDecision finisher.
Proof. solve_decision. Defined.

(** Options of the configuration. *)
Record config := Config {
  paxos_min : Z;
  paxos_trim_min : Z;
  paxos_trim_max : Z;
  mon_lease : Z;
}.

Fixpoint drop_while {A} (P : A -> bool) (l : list A) : list A :=
  match l with
  | [] => []
  | a :: l => if P a then drop_while P l else a :: l
  end.

Fixpoint take_while {A} (P : A -> bool) (l : list A) : list A :=
  match l with
  | [] => []
  | a :: l => if P a then a :: take_while P l else []
  end.

Section paxos.
Context {Op Svc : Type} (run_op : Op -> Svc -> Svc).

(** ** Transactions and the store *)

(** The operations of a proposed transaction: those [trim] and [begin] put
    there, and those of the services. *)
Inductive vop :=
  | PutFirstCommitted (v : Z)
  | EraseVersion (v : Z)
  | ServiceOp (o : Op).

Notation tx := (list vop).

(** A [bufferlist] that is empty or holds an encoded transaction. *)
Notation bufferlist := (option tx).

Record MonitorDBStore := MkStore {
  d_last_pn : Z;
  d_accepted_pn : Z;
  d_last_committed : Z;
  d_first_committed : Z;
  d_pending_v : Z;
  d_pending_pn : Z;
  d_versions : gmap Z bufferlist; (** the values, by version *)
  d_service : Svc; (** the keys of the services *)
}.

Definition set_d_last_pn (v : Z) (r : MonitorDBStore) : MonitorDBStore := MkStore v (d_accepted_pn r)
  (d_last_committed r) (d_first_committed r) (d_pending_v r) (d_pending_pn r) (d_versions r) (d_service r).
Definition set_d_accepted_pn (v : Z) (r : MonitorDBStore) : MonitorDBStore := MkStore (d_last_pn r) v
  (d_last_committed r) (d_first_committed r) (d_pending_v r) (d_pending_pn r) (d_versions r) (d_service r).
Definition set_d_last_committed (v : Z) (r : MonitorDBStore) : MonitorDBStore := MkStore (d_last_pn r) (d_accepted_pn
  r) v (d_first_committed r) (d_pending_v r) (d_pending_pn r) (d_versions r) (d_service r).
Definition set_d_first_committed (v : Z) (r : MonitorDBStore) : MonitorDBStore := MkStore (d_last_pn r) (d_accepted_pn
  r) (d_last_committed r) v (d_pending_v r) (d_pending_pn r) (d_versions r) (d_service r).
Definition set_d_pending_v (v : Z) (r : MonitorDBStore) : MonitorDBStore := MkStore (d_last_pn r) (d_accepted_pn r)
  (d_last_committed r) (d_first_committed r) v (d_pending_pn r) (d_versions r) (d_service r).
Definition set_d_pending_pn (v : Z) (r : MonitorDBStore) : MonitorDBStore := MkStore (d_last_pn r) (d_accepted_pn r)
  (d_last_committed r) (d_first_committed r) (d_pending_v r) v (d_versions r) (d_service r).
Definition set_d_versions (v : gmap Z bufferlist) (r : MonitorDBStore) : MonitorDBStore := MkStore (d_last_pn r)
  (d_accepted_pn r) (d_last_committed r) (d_first_committed r) (d_pending_v r) (d_pending_pn r) v (d_service r).
Definition set_d_service (v : Svc) (r : MonitorDBStore) : MonitorDBStore := MkStore (d_last_pn r) (d_accepted_pn r)
  (d_last_committed r) (d_first_committed r) (d_pending_v r) (d_pending_pn r) (d_versions r) v.

Definition apply_vop (d : MonitorDBStore) (o : vop) : MonitorDBStore :=
  match o with
  | PutFirstCommitted v => set_d_first_committed v d
  | EraseVersion v => set_d_versions (delete v (d_versions d)) d
  | ServiceOp o => set_d_service (run_op o (d_service d)) d
  end.

Definition apply_tx (d : MonitorDBStore) (t : tx) : MonitorDBStore := foldl apply_vop d t.

Definition put_version (v : Z) (bl : bufferlist) (d : MonitorDBStore) : MonitorDBStore :=
  set_d_versions (<[v := bl]> (d_versions d)) d.

Definition exists_version (d : MonitorDBStore) (v : Z) : bool :=
  match d_versions d !! v with Some _ => true | None => false end.

Definition get_version_bl (d : MonitorDBStore) (v : Z) : bufferlist :=
  match d_versions d !! v with Some bl => bl | None => None end.

(** [bl.length() > 0] *)
Definition nonempty (bl : bufferlist) : bool := match bl with Some _ => true | None => false end.

(** Decoding a transaction; the empty list throws. *)
Definition decode_tx (bl : bufferlist) : res tx := deref bl.

(** ** Messages and monitors *)

Record MMonPaxos := MkMMonPaxos {
  op : paxos_op;
  epoch : Z;
  msg_first_committed : Z;
  msg_last_committed : Z;
  pn_from : Z;
  pn : Z;
  msg_uncommitted_pn : Z;
  lease_timestamp : Z;
  values : list (Z * bufferlist); (** by version, ascending *)
}.

Definition set_op (v : paxos_op) (r : MMonPaxos) : MMonPaxos := MkMMonPaxos v (epoch r) (msg_first_committed r)
  (msg_last_committed r) (pn_from r) (pn r) (msg_uncommitted_pn r) (lease_timestamp r) (values r).
Definition set_epoch (v : Z) (r : MMonPaxos) : MMonPaxos := MkMMonPaxos (op r) v (msg_first_committed r)
  (msg_last_committed r) (pn_from r) (pn r) (msg_uncommitted_pn r) (lease_timestamp r) (values r).
Definition set_msg_first_committed (v : Z) (r : MMonPaxos) : MMonPaxos := MkMMonPaxos (op r) (epoch r) v
  (msg_last_committed r) (pn_from r) (pn r) (msg_uncommitted_pn r) (lease_timestamp r) (values r).
Definition set_msg_last_committed (v : Z) (r : MMonPaxos) : MMonPaxos := MkMMonPaxos (op r) (epoch r)
  (msg_first_committed r) v (pn_from r) (pn r) (msg_uncommitted_pn r) (lease_timestamp r) (values r).
Definition set_pn_from (v : Z) (r : MMonPaxos) : MMonPaxos := MkMMonPaxos (op r) (epoch r) (msg_first_committed r)
  (msg_last_committed r) v (pn r) (msg_uncommitted_pn r) (lease_timestamp r) (values r).
Definition set_pn (v : Z) (r : MMonPaxos) : MMonPaxos := MkMMonPaxos (op r) (epoch r) (msg_first_committed r)
  (msg_last_committed r) (pn_from r) v (msg_uncommitted_pn r) (lease_timestamp r) (values r).
Definition set_msg_uncommitted_pn (v : Z) (r : MMonPaxos) : MMonPaxos := MkMMonPaxos (op r) (epoch r)
  (msg_first_committed r) (msg_last_committed r) (pn_from r) (pn r) v (lease_timestamp r) (values r).
Definition set_lease_timestamp (v : Z) (r : MMonPaxos) : MMonPaxos := MkMMonPaxos (op r) (epoch r)
  (msg_first_committed r) (msg_last_committed r) (pn_from r) (pn r) (msg_uncommitted_pn r) v (values r).
Definition set_values (v : list (Z * bufferlist)) (r : MMonPaxos) : MMonPaxos := MkMMonPaxos (op r) (epoch r)
  (msg_first_committed r) (msg_last_committed r) (pn_from r) (pn r) (msg_uncommitted_pn r) (lease_timestamp r) v.

Definition new_msg (o : paxos_op) (e : Z) : MMonPaxos := MkMMonPaxos o e 0 0 0 0 0 0 [].

(** [values[v]]: an absent value is inserted empty. *)
Definition msg_value (m : MMonPaxos) (v : Z) : bufferlist :=
  match mget v (values m) with Some bl => bl | None => None end.

Record packet := Packet {
  src : Z;
  dst : Z;
  msg : MMonPaxos;
}.

Record monitor := MkMonitor {
  m_rank : Z;
  m_role : role;
  m_epoch : Z;
  m_quorum : gset Z;
  m_leader : Z;
  m_size : Z; (** [monmap->size()] *)
}.

Definition set_m_rank (v : Z) (r : monitor) : monitor := MkMonitor v (m_role r) (m_epoch r) (m_quorum r) (m_leader r)
  (m_size r).
Definition set_m_role (v : role) (r : monitor) : monitor := MkMonitor (m_rank r) v (m_epoch r) (m_quorum r) (m_leader
  r) (m_size r).
Definition set_m_epoch (v : Z) (r : monitor) : monitor := MkMonitor (m_rank r) (m_role r) v (m_quorum r) (m_leader r)
  (m_size r).
Definition set_m_quorum (v : gset Z) (r : monitor) : monitor := MkMonitor (m_rank r) (m_role r) (m_epoch r) v
  (m_leader r) (m_size r).
Definition set_m_leader (v : Z) (r : monitor) : monitor := MkMonitor (m_rank r) (m_role r) (m_epoch r) (m_quorum r) v
  (m_size r).
Definition set_m_size (v : Z) (r : monitor) : monitor := MkMonitor (m_rank r) (m_role r) (m_epoch r) (m_quorum r)
  (m_leader r) v.

Record paxos := MkPaxos {
  p_state : state;
  commits_started : Z;
  first_committed : Z;
  last_pn : Z;
  last_committed : Z;
  accepted_pn : Z;
  accepted_pn_from : Z;
  peer_first_committed : gmap Z Z;
  peer_last_committed : list (Z * Z); (** by rank, ascending *)
  lease_expire : Z; (** 0 is [utime_t()] *)
  num_last : Z;
  uncommitted_v : Z;
  uncommitted_pn : Z;
  uncommitted_value : bufferlist;
  new_value : bufferlist;
  accepted : gset Z;
  acked_lease : gset Z;
  collect_timeout_event : bool;
  lease_renew_event : bool;
  lease_ack_timeout_event : bool;
  lease_timeout_event : bool;
  accept_timeout_event : bool;
  pending_proposal : option tx;
  pending_finishers : list finisher;
  committing_finishers : list finisher;
  plugged : bool;
  trimming : bool;
}.

Definition set_p_state (v : state) (r : paxos) : paxos := MkPaxos v (commits_started r) (first_committed r) (last_pn
  r) (last_committed r) (accepted_pn r) (accepted_pn_from r) (peer_first_committed r) (peer_last_committed r)
  (lease_expire r) (num_last r) (uncommitted_v r) (uncommitted_pn r) (uncommitted_value r) (new_value r) (accepted r)
  (acked_lease r) (collect_timeout_event r) (lease_renew_event r) (lease_ack_timeout_event r) (lease_timeout_event r)
  (accept_timeout_event r) (pending_proposal r) (pending_finishers r) (committing_finishers r) (plugged r) (trimming
  r).
Definition set_commits_started (v : Z) (r : paxos) : paxos := MkPaxos (p_state r) v (first_committed r) (last_pn r)
  (last_committed r) (accepted_pn r) (accepted_pn_from r) (peer_first_committed r) (peer_last_committed r)
  (lease_expire r) (num_last r) (uncommitted_v r) (uncommitted_pn r) (uncommitted_value r) (new_value r) (accepted r)
  (acked_lease r) (collect_timeout_event r) (lease_renew_event r) (lease_ack_timeout_event r) (lease_timeout_event r)
  (accept_timeout_event r) (pending_proposal r) (pending_finishers r) (committing_finishers r) (plugged r) (trimming
  r).
Definition set_first_committed (v : Z) (r : paxos) : paxos := MkPaxos (p_state r) (commits_started r) v (last_pn r)
  (last_committed r) (accepted_pn r) (accepted_pn_from r) (peer_first_committed r) (peer_last_committed r)
  (lease_expire r) (num_last r) (uncommitted_v r) (uncommitted_pn r) (uncommitted_value r) (new_value r) (accepted r)
  (acked_lease r) (collect_timeout_event r) (lease_renew_event r) (lease_ack_timeout_event r) (lease_timeout_event r)
  (accept_timeout_event r) (pending_proposal r) (pending_finishers r) (committing_finishers r) (plugged r) (trimming
  r).
Definition set_last_pn (v : Z) (r : paxos) : paxos := MkPaxos (p_state r) (commits_started r) (first_committed r) v
  (last_committed r) (accepted_pn r) (accepted_pn_from r) (peer_first_committed r) (peer_last_committed r)
  (lease_expire r) (num_last r) (uncommitted_v r) (uncommitted_pn r) (uncommitted_value r) (new_value r) (accepted r)
  (acked_lease r) (collect_timeout_event r) (lease_renew_event r) (lease_ack_timeout_event r) (lease_timeout_event r)
  (accept_timeout_event r) (pending_proposal r) (pending_finishers r) (committing_finishers r) (plugged r) (trimming
  r).
Definition set_last_committed (v : Z) (r : paxos) : paxos := MkPaxos (p_state r) (commits_started r) (first_committed
  r) (last_pn r) v (accepted_pn r) (accepted_pn_from r) (peer_first_committed r) (peer_last_committed r) (lease_expire
  r) (num_last r) (uncommitted_v r) (uncommitted_pn r) (uncommitted_value r) (new_value r) (accepted r) (acked_lease
  r) (collect_timeout_event r) (lease_renew_event r) (lease_ack_timeout_event r) (lease_timeout_event r)
  (accept_timeout_event r) (pending_proposal r) (pending_finishers r) (committing_finishers r) (plugged r) (trimming
  r).
Definition set_accepted_pn (v : Z) (r : paxos) : paxos := MkPaxos (p_state r) (commits_started r) (first_committed r)
  (last_pn r) (last_committed r) v (accepted_pn_from r) (peer_first_committed r) (peer_last_committed r) (lease_expire
  r) (num_last r) (uncommitted_v r) (uncommitted_pn r) (uncommitted_value r) (new_value r) (accepted r) (acked_lease
  r) (collect_timeout_event r) (lease_renew_event r) (lease_ack_timeout_event r) (lease_timeout_event r)
  (accept_timeout_event r) (pending_proposal r) (pending_finishers r) (committing_finishers r) (plugged r) (trimming
  r).
Definition set_accepted_pn_from (v : Z) (r : paxos) : paxos := MkPaxos (p_state r) (commits_started r)
  (first_committed r) (last_pn r) (last_committed r) (accepted_pn r) v (peer_first_committed r) (peer_last_committed
  r) (lease_expire r) (num_last r) (uncommitted_v r) (uncommitted_pn r) (uncommitted_value r) (new_value r) (accepted
  r) (acked_lease r) (collect_timeout_event r) (lease_renew_event r) (lease_ack_timeout_event r) (lease_timeout_event
  r) (accept_timeout_event r) (pending_proposal r) (pending_finishers r) (committing_finishers r) (plugged r)
  (trimming r).
Definition set_peer_first_committed (v : gmap Z Z) (r : paxos) : paxos := MkPaxos (p_state r) (commits_started r)
  (first_committed r) (last_pn r) (last_committed r) (accepted_pn r) (accepted_pn_from r) v (peer_last_committed r)
  (lease_expire r) (num_last r) (uncommitted_v r) (uncommitted_pn r) (uncommitted_value r) (new_value r) (accepted r)
  (acked_lease r) (collect_timeout_event r) (lease_renew_event r) (lease_ack_timeout_event r) (lease_timeout_event r)
  (accept_timeout_event r) (pending_proposal r) (pending_finishers r) (committing_finishers r) (plugged r) (trimming
  r).
Definition set_peer_last_committed (v : list (Z * Z)) (r : paxos) : paxos := MkPaxos (p_state r) (commits_started r)
  (first_committed r) (last_pn r) (last_committed r) (accepted_pn r) (accepted_pn_from r) (peer_first_committed r) v
  (lease_expire r) (num_last r) (uncommitted_v r) (uncommitted_pn r) (uncommitted_value r) (new_value r) (accepted r)
  (acked_lease r) (collect_timeout_event r) (lease_renew_event r) (lease_ack_timeout_event r) (lease_timeout_event r)
  (accept_timeout_event r) (pending_proposal r) (pending_finishers r) (committing_finishers r) (plugged r) (trimming
  r).
Definition set_lease_expire (v : Z) (r : paxos) : paxos := MkPaxos (p_state r) (commits_started r) (first_committed r)
  (last_pn r) (last_committed r) (accepted_pn r) (accepted_pn_from r) (peer_first_committed r) (peer_last_committed r)
  v (num_last r) (uncommitted_v r) (uncommitted_pn r) (uncommitted_value r) (new_value r) (accepted r) (acked_lease r)
  (collect_timeout_event r) (lease_renew_event r) (lease_ack_timeout_event r) (lease_timeout_event r)
  (accept_timeout_event r) (pending_proposal r) (pending_finishers r) (committing_finishers r) (plugged r) (trimming
  r).
Definition set_num_last (v : Z) (r : paxos) : paxos := MkPaxos (p_state r) (commits_started r) (first_committed r)
  (last_pn r) (last_committed r) (accepted_pn r) (accepted_pn_from r) (peer_first_committed r) (peer_last_committed r)
  (lease_expire r) v (uncommitted_v r) (uncommitted_pn r) (uncommitted_value r) (new_value r) (accepted r)
  (acked_lease r) (collect_timeout_event r) (lease_renew_event r) (lease_ack_timeout_event r) (lease_timeout_event r)
  (accept_timeout_event r) (pending_proposal r) (pending_finishers r) (committing_finishers r) (plugged r) (trimming
  r).
Definition set_uncommitted_v (v : Z) (r : paxos) : paxos := MkPaxos (p_state r) (commits_started r) (first_committed
  r) (last_pn r) (last_committed r) (accepted_pn r) (accepted_pn_from r) (peer_first_committed r) (peer_last_committed
  r) (lease_expire r) (num_last r) v (uncommitted_pn r) (uncommitted_value r) (new_value r) (accepted r) (acked_lease
  r) (collect_timeout_event r) (lease_renew_event r) (lease_ack_timeout_event r) (lease_timeout_event r)
  (accept_timeout_event r) (pending_proposal r) (pending_finishers r) (committing_finishers r) (plugged r) (trimming
  r).
Definition set_uncommitted_pn (v : Z) (r : paxos) : paxos := MkPaxos (p_state r) (commits_started r) (first_committed
  r) (last_pn r) (last_committed r) (accepted_pn r) (accepted_pn_from r) (peer_first_committed r) (peer_last_committed
  r) (lease_expire r) (num_last r) (uncommitted_v r) v (uncommitted_value r) (new_value r) (accepted r) (acked_lease
  r) (collect_timeout_event r) (lease_renew_event r) (lease_ack_timeout_event r) (lease_timeout_event r)
  (accept_timeout_event r) (pending_proposal r) (pending_finishers r) (committing_finishers r) (plugged r) (trimming
  r).
Definition set_uncommitted_value (v : bufferlist) (r : paxos) : paxos := MkPaxos (p_state r) (commits_started r)
  (first_committed r) (last_pn r) (last_committed r) (accepted_pn r) (accepted_pn_from r) (peer_first_committed r)
  (peer_last_committed r) (lease_expire r) (num_last r) (uncommitted_v r) (uncommitted_pn r) v (new_value r) (accepted
  r) (acked_lease r) (collect_timeout_event r) (lease_renew_event r) (lease_ack_timeout_event r) (lease_timeout_event
  r) (accept_timeout_event r) (pending_proposal r) (pending_finishers r) (committing_finishers r) (plugged r)
  (trimming r).
Definition set_new_value (v : bufferlist) (r : paxos) : paxos := MkPaxos (p_state r) (commits_started r)
  (first_committed r) (last_pn r) (last_committed r) (accepted_pn r) (accepted_pn_from r) (peer_first_committed r)
  (peer_last_committed r) (lease_expire r) (num_last r) (uncommitted_v r) (uncommitted_pn r) (uncommitted_value r) v
  (accepted r) (acked_lease r) (collect_timeout_event r) (lease_renew_event r) (lease_ack_timeout_event r)
  (lease_timeout_event r) (accept_timeout_event r) (pending_proposal r) (pending_finishers r) (committing_finishers r)
  (plugged r) (trimming r).
Definition set_accepted (v : gset Z) (r : paxos) : paxos := MkPaxos (p_state r) (commits_started r) (first_committed
  r) (last_pn r) (last_committed r) (accepted_pn r) (accepted_pn_from r) (peer_first_committed r) (peer_last_committed
  r) (lease_expire r) (num_last r) (uncommitted_v r) (uncommitted_pn r) (uncommitted_value r) (new_value r) v
  (acked_lease r) (collect_timeout_event r) (lease_renew_event r) (lease_ack_timeout_event r) (lease_timeout_event r)
  (accept_timeout_event r) (pending_proposal r) (pending_finishers r) (committing_finishers r) (plugged r) (trimming
  r).
Definition set_acked_lease (v : gset Z) (r : paxos) : paxos := MkPaxos (p_state r) (commits_started r)
  (first_committed r) (last_pn r) (last_committed r) (accepted_pn r) (accepted_pn_from r) (peer_first_committed r)
  (peer_last_committed r) (lease_expire r) (num_last r) (uncommitted_v r) (uncommitted_pn r) (uncommitted_value r)
  (new_value r) (accepted r) v (collect_timeout_event r) (lease_renew_event r) (lease_ack_timeout_event r)
  (lease_timeout_event r) (accept_timeout_event r) (pending_proposal r) (pending_finishers r) (committing_finishers r)
  (plugged r) (trimming r).
Definition set_collect_timeout_event (v : bool) (r : paxos) : paxos := MkPaxos (p_state r) (commits_started r)
  (first_committed r) (last_pn r) (last_committed r) (accepted_pn r) (accepted_pn_from r) (peer_first_committed r)
  (peer_last_committed r) (lease_expire r) (num_last r) (uncommitted_v r) (uncommitted_pn r) (uncommitted_value r)
  (new_value r) (accepted r) (acked_lease r) v (lease_renew_event r) (lease_ack_timeout_event r) (lease_timeout_event
  r) (accept_timeout_event r) (pending_proposal r) (pending_finishers r) (committing_finishers r) (plugged r)
  (trimming r).
Definition set_lease_renew_event (v : bool) (r : paxos) : paxos := MkPaxos (p_state r) (commits_started r)
  (first_committed r) (last_pn r) (last_committed r) (accepted_pn r) (accepted_pn_from r) (peer_first_committed r)
  (peer_last_committed r) (lease_expire r) (num_last r) (uncommitted_v r) (uncommitted_pn r) (uncommitted_value r)
  (new_value r) (accepted r) (acked_lease r) (collect_timeout_event r) v (lease_ack_timeout_event r)
  (lease_timeout_event r) (accept_timeout_event r) (pending_proposal r) (pending_finishers r) (committing_finishers r)
  (plugged r) (trimming r).
Definition set_lease_ack_timeout_event (v : bool) (r : paxos) : paxos := MkPaxos (p_state r) (commits_started r)
  (first_committed r) (last_pn r) (last_committed r) (accepted_pn r) (accepted_pn_from r) (peer_first_committed r)
  (peer_last_committed r) (lease_expire r) (num_last r) (uncommitted_v r) (uncommitted_pn r) (uncommitted_value r)
  (new_value r) (accepted r) (acked_lease r) (collect_timeout_event r) (lease_renew_event r) v (lease_timeout_event r)
  (accept_timeout_event r) (pending_proposal r) (pending_finishers r) (committing_finishers r) (plugged r) (trimming
  r).
Definition set_lease_timeout_event (v : bool) (r : paxos) : paxos := MkPaxos (p_state r) (commits_started r)
  (first_committed r) (last_pn r) (last_committed r) (accepted_pn r) (accepted_pn_from r) (peer_first_committed r)
  (peer_last_committed r) (lease_expire r) (num_last r) (uncommitted_v r) (uncommitted_pn r) (uncommitted_value r)
  (new_value r) (accepted r) (acked_lease r) (collect_timeout_event r) (lease_renew_event r) (lease_ack_timeout_event
  r) v (accept_timeout_event r) (pending_proposal r) (pending_finishers r) (committing_finishers r) (plugged r)
  (trimming r).
Definition set_accept_timeout_event (v : bool) (r : paxos) : paxos := MkPaxos (p_state r) (commits_started r)
  (first_committed r) (last_pn r) (last_committed r) (accepted_pn r) (accepted_pn_from r) (peer_first_committed r)
  (peer_last_committed r) (lease_expire r) (num_last r) (uncommitted_v r) (uncommitted_pn r) (uncommitted_value r)
  (new_value r) (accepted r) (acked_lease r) (collect_timeout_event r) (lease_renew_event r) (lease_ack_timeout_event
  r) (lease_timeout_event r) v (pending_proposal r) (pending_finishers r) (committing_finishers r) (plugged r)
  (trimming r).
Definition set_pending_proposal (v : option tx) (r : paxos) : paxos := MkPaxos (p_state r) (commits_started r)
  (first_committed r) (last_pn r) (last_committed r) (accepted_pn r) (accepted_pn_from r) (peer_first_committed r)
  (peer_last_committed r) (lease_expire r) (num_last r) (uncommitted_v r) (uncommitted_pn r) (uncommitted_value r)
  (new_value r) (accepted r) (acked_lease r) (collect_timeout_event r) (lease_renew_event r) (lease_ack_timeout_event
  r) (lease_timeout_event r) (accept_timeout_event r) v (pending_finishers r) (committing_finishers r) (plugged r)
  (trimming r).
Definition set_pending_finishers (v : list finisher) (r : paxos) : paxos := MkPaxos (p_state r) (commits_started r)
  (first_committed r) (last_pn r) (last_committed r) (accepted_pn r) (accepted_pn_from r) (peer_first_committed r)
  (peer_last_committed r) (lease_expire r) (num_last r) (uncommitted_v r) (uncommitted_pn r) (uncommitted_value r)
  (new_value r) (accepted r) (acked_lease r) (collect_timeout_event r) (lease_renew_event r) (lease_ack_timeout_event
  r) (lease_timeout_event r) (accept_timeout_event r) (pending_proposal r) v (committing_finishers r) (plugged r)
  (trimming r).
Definition set_committing_finishers (v : list finisher) (r : paxos) : paxos := MkPaxos (p_state r) (commits_started r)
  (first_committed r) (last_pn r) (last_committed r) (accepted_pn r) (accepted_pn_from r) (peer_first_committed r)
  (peer_last_committed r) (lease_expire r) (num_last r) (uncommitted_v r) (uncommitted_pn r) (uncommitted_value r)
  (new_value r) (accepted r) (acked_lease r) (collect_timeout_event r) (lease_renew_event r) (lease_ack_timeout_event
  r) (lease_timeout_event r) (accept_timeout_event r) (pending_proposal r) (pending_finishers r) v (plugged r)
  (trimming r).
Definition set_plugged (v : bool) (r : paxos) : paxos := MkPaxos (p_state r) (commits_started r) (first_committed r)
  (last_pn r) (last_committed r) (accepted_pn r) (accepted_pn_from r) (peer_first_committed r) (peer_last_committed r)
  (lease_expire r) (num_last r) (uncommitted_v r) (uncommitted_pn r) (uncommitted_value r) (new_value r) (accepted r)
  (acked_lease r) (collect_timeout_event r) (lease_renew_event r) (lease_ack_timeout_event r) (lease_timeout_event r)
  (accept_timeout_event r) (pending_proposal r) (pending_finishers r) (committing_finishers r) v (trimming r).
Definition set_trimming (v : bool) (r : paxos) : paxos := MkPaxos (p_state r) (commits_started r) (first_committed r)
  (last_pn r) (last_committed r) (accepted_pn r) (accepted_pn_from r) (peer_first_committed r) (peer_last_committed r)
  (lease_expire r) (num_last r) (uncommitted_v r) (uncommitted_pn r) (uncommitted_value r) (new_value r) (accepted r)
  (acked_lease r) (collect_timeout_event r) (lease_renew_event r) (lease_ack_timeout_event r) (lease_timeout_event r)
  (accept_timeout_event r) (pending_proposal r) (pending_finishers r) (committing_finishers r) (plugged r) v.

(** What the finisher of the store has to do: write the transaction that
    commits version [v], or call [commit_finish]. *)
Inductive io :=
  | Queued (v : Z) (t : tx)
  | Written.

Record node := MkNode {
  n_mon : monitor;
  n_px : paxos;
  n_store : MonitorDBStore;
  n_io : option io; (** the transaction given to [queue_transaction] *)
  n_out : list packet; (** messages sent *)
}.

Definition set_n_mon (v : monitor) (r : node) : node := MkNode v (n_px r) (n_store r) (n_io r) (n_out r).
Definition set_n_px (v : paxos) (r : node) : node := MkNode (n_mon r) v (n_store r) (n_io r) (n_out r).
Definition set_n_store (v : MonitorDBStore) (r : node) : node := MkNode (n_mon r) (n_px r) v (n_io r) (n_out r).
Definition set_n_io (v : option io) (r : node) : node := MkNode (n_mon r) (n_px r) (n_store r) v (n_out r).
Definition set_n_out (v : list packet) (r : node) : node := MkNode (n_mon r) (n_px r) (n_store r) (n_io r) v.

Definition upd (f : paxos -> paxos) (n : node) : node := set_n_px (f (n_px n)) n.
Definition updd (f : MonitorDBStore -> MonitorDBStore) (n : node) : node := set_n_store (f (n_store n)) n.

Definition is_leader (n : node) : bool := bool_decide (m_role (n_mon n) = Leader).
Definition is_peon (n : node) : bool := bool_decide (m_role (n_mon n) = Peon).
Definition in_state (s : state) (n : node) : bool := bool_decide (p_state (n_px n) = s).
Definition is_active : node -> bool := in_state STATE_ACTIVE.
Definition is_updating : node -> bool := in_state STATE_UPDATING.
Definition is_updating_previous : node -> bool := in_state STATE_UPDATING_PREVIOUS.
Definition is_writing : node -> bool := in_state STATE_WRITING.
Definition is_writing_previous : node -> bool := in_state STATE_WRITING_PREVIOUS.
Definition is_refresh : node -> bool := in_state STATE_REFRESH.

Definition rank (n : node) : Z := m_rank (n_mon n).
Definition quorum_size (n : node) : Z := Z.of_nat (size (m_quorum (n_mon n))).

Definition send (to : Z) (m : MMonPaxos) (n : node) : node :=
  set_n_out (n_out n ++ [Packet (rank n) to m]) n.

(** A message to every other member of the quorum. *)
Definition bcast (m : MMonPaxos) (n : node) : node :=
  set_n_out (n_out n ++ ((fun p => Packet (rank n) p m) <$> filter (fun p => p <> rank n) (merge_sort Z.le (elements (m_quorum (n_mon n)))))) n.

(** ** Timers and completions *)

Definition cancel_events (p : paxos) : paxos :=
  set_collect_timeout_event false (set_accept_timeout_event false (set_lease_renew_event false
    (set_lease_ack_timeout_event false (set_lease_timeout_event false p)))).

Definition reset_lease_timeout (p : paxos) : paxos := set_lease_timeout_event true p.

(** Running completions: that of a trim clears [trimming]. *)
Definition finish_contexts (l : list finisher) (p : paxos) : paxos :=
  if bool_decide (C_Trimmed ∈ l) then set_trimming false p else p.

Definition reset_pending_committing_finishers (p : paxos) : paxos :=
  let l := committing_finishers p ++ pending_finishers p in
  finish_contexts l (set_committing_finishers [] (set_pending_finishers [] p)).

(** ** Proposal numbers *)

(** Proposal numbers have 64 bits; the model stops where one would wrap. *)
Definition get_new_proposal_number (gt : Z) (n : node) : res (Z * node) :=
  let last := last_pn (n_px n) in
  let last := if last <? gt then gt else last in
  let last := (last / 100 + 1) * 100 + rank n in
  _ <~ rassert (last <? 2 ^ 64);;
  Ret (last, updd (set_d_last_pn last) (upd (set_last_pn last) n)).

(** ** Phase 1 *)

(** The pn under which the value after [last_committed] was accepted. *)
Definition uncommitted_pn_of (n : node) (fallback : Z) : Z :=
  let d := n_store n in
  let v := d_pending_v d in
  let pn := d_pending_pn d in
  if negb (v =? 0) && negb (pn =? 0) && (v =? last_committed (n_px n) + 1) then pn else fallback.

Definition collect (oldpn : Z) (n : node) : res node :=
  let n := upd (set_p_state STATE_RECOVERING) n in
  _ <~ rassert (is_leader n);;
  let n := upd (fun p => set_uncommitted_v 0 (set_uncommitted_pn 0 (set_uncommitted_value None
             (set_peer_first_committed ∅ (set_peer_last_committed [] p))))) n in
  let v := last_committed (n_px n) + 1 in
  n <~ (if exists_version (n_store n) v then
          let pn := uncommitted_pn_of n (accepted_pn (n_px n)) in
          let bl := get_version_bl (n_store n) v in
          _ <~ rassert (nonempty bl);;
          Ret (upd (fun p => set_uncommitted_v v (set_uncommitted_pn pn (set_uncommitted_value bl p))) n)
        else Ret n);;
  '(pn, n) <~ get_new_proposal_number (Z.max (accepted_pn (n_px n)) oldpn) n;;
  let n := upd (fun p => set_accepted_pn pn (set_accepted_pn_from (last_committed p) (set_num_last 1 p))) n in
  let p := n_px n in
  let m := MkMMonPaxos OP_COLLECT (m_epoch (n_mon n)) (first_committed p) (last_committed p) 0 (accepted_pn p) 0 0 [] in
  Ret (upd (set_collect_timeout_event true) (bcast m n)).

(** [for ( ; v <= last_committed; v++)] of [share_state]; [k] is the number of
    turns left. *)
Fixpoint share_loop (k : nat) (v : Z) (d : MonitorDBStore) (vals : list (Z * bufferlist))
    : res (list (Z * bufferlist)) :=
  match k with
  | O => Ret vals
  | S k =>
      if exists_version d v then
        let bl := get_version_bl d v in
        _ <~ rassert (nonempty bl);;
        share_loop k (v + 1) d (mput v bl vals)
      else share_loop k (v + 1) d vals
  end.

Definition share_state (n : node) (m : MMonPaxos) (peer_last_committed : Z) : res MMonPaxos :=
  let lc := last_committed (n_px n) in
  _ <~ rassert (peer_last_committed <? lc);;
  vals <~ share_loop (Z.to_nat (lc - peer_last_committed)) (peer_last_committed + 1) (n_store n) (values m);;
  Ret (set_msg_last_committed lc (set_values vals m)).

(** The store after writing and applying the values of [l]. *)
Fixpoint store_values (l : list (Z * bufferlist)) (d : MonitorDBStore) : res MonitorDBStore :=
  match l with
  | [] => Ret d
  | (v, bl) :: l =>
      t <~ decode_tx bl;;
      store_values l (apply_tx (put_version v bl d) t)
  end.

Definition store_state (m : MMonPaxos) (n : node) : res (bool * node) :=
  let lc := last_committed (n_px n) in
  if match values m with (v, _) :: _ => lc + 1 <? v | [] => false end then Ret (false, n) else
  let start := drop_while (fun p => p.1 <=? lc) (values m) in
  let l := take_while (fun p => p.1 <=? msg_last_committed m) start in
  let lc := foldl (fun _ p => p.1) lc l in
  match l with
  | [] => Ret (false, n)
  | _ :: _ =>
      let n := upd (set_last_committed lc) n in
      d <~ store_values l (set_d_last_committed lc (n_store n));;
      let n := if negb (uncommitted_v (n_px n) =? 0) && (uncommitted_v (n_px n) <=? lc)
               then upd (fun p => set_uncommitted_v 0 (set_uncommitted_pn 0 (set_uncommitted_value None p))) n
               else n in
      let n := upd (set_first_committed (d_first_committed d)) (set_n_store d n) in
      _ <~ rassert (d_last_committed d =? lc);;
      Ret (true, n)
  end.

(** ** Leases *)

Definition extend_lease (cfg : config) (now : Z) (n : node) : res node :=
  _ <~ rassert (is_leader n);;
  let n := upd (fun p => set_lease_expire (now + mon_lease cfg) (set_acked_lease {[rank n]} p)) n in
  let p := n_px n in
  let m := MkMMonPaxos OP_LEASE (m_epoch (n_mon n)) (first_committed p) (last_committed p) 0 0 0 (lease_expire p) [] in
  Ret (upd (fun p => set_lease_ack_timeout_event true (set_lease_renew_event true p)) (bcast m n)).

Definition is_lease_valid (now : Z) (n : node) : bool :=
  (quorum_size n =? 1) || (now <? lease_expire (n_px n)).

Definition is_readable (now v : Z) (n : node) : bool :=
  if last_committed (n_px n) <? v then false
  else (is_peon n || is_leader n) && (is_active n || is_updating n || is_writing n)
       && (0 <? last_committed (n_px n)) && is_lease_valid now n.

Definition is_writeable (now : Z) (n : node) : bool := is_leader n && is_active n && is_lease_valid now n.

(** [m] was received from [from]. *)
Definition handle_lease (m : MMonPaxos) (from : Z) (n : node) : res node :=
  if negb (is_peon n) || negb (last_committed (n_px n) =? msg_last_committed m) then Ret n else
  let n := upd (fun p => if lease_expire p <? lease_timestamp m then set_lease_expire (lease_timestamp m) p else p) n in
  let n := upd (set_p_state STATE_ACTIVE) n in
  let p := n_px n in
  let ack := MkMMonPaxos OP_LEASE_ACK (m_epoch (n_mon n)) (first_committed p) (last_committed p) 0 0 0 0 [] in
  Ret (upd reset_lease_timeout (send from ack n)).

Definition handle_lease_ack (m : MMonPaxos) (from : Z) (n : node) : res node :=
  if negb (lease_ack_timeout_event (n_px n)) then Ret n
  else if bool_decide (from ∉ acked_lease (n_px n)) then
    let n := upd (fun p => set_acked_lease ({[from]} ∪ acked_lease p) p) n in
    Ret (if bool_decide (acked_lease (n_px n) = m_quorum (n_mon n)) then upd (set_lease_ack_timeout_event false) n else n)
  else Ret n.

(** ** Phase 2 *)

(** [commit_start]: the transaction is queued, not yet written. *)
Definition commit_start (n : node) : res node :=
  let v := last_committed (n_px n) + 1 in
  t <~ decode_tx (new_value (n_px n));;
  let n := set_n_io (Some (Queued v t)) n in
  n <~ (if is_updating_previous n then Ret (upd (set_p_state STATE_WRITING_PREVIOUS) n)
        else if is_updating n then Ret (upd (set_p_state STATE_WRITING) n)
        else Fault);;
  let n := upd (fun p => set_commits_started (commits_started p + 1) p) n in
  Ret (if 1 <? quorum_size n then upd (set_accept_timeout_event false) n else n).

(** [begin] *)
Definition begin_ (v : bufferlist) (n : node) : res node :=
  _ <~ rassert (is_leader n);;
  _ <~ rassert (is_updating n || is_updating_previous n);;
  _ <~ rassert ((quorum_size n =? 1) || (m_size (n_mon n) / 2 <? num_last (n_px n)));;
  _ <~ rassert (negb (nonempty (new_value (n_px n))));;
  let lc := last_committed (n_px n) in
  t <~ decode_tx v;;
  let value := Some (if lc =? 0 then PutFirstCommitted 1 :: t else t) in
  let n := upd (fun p => set_accepted {[rank n]} (set_new_value value p)) n in
  let n := updd (fun d => set_d_pending_pn (accepted_pn (n_px n)) (set_d_pending_v (lc + 1) (put_version (lc + 1) value d))) n in
  if quorum_size n =? 1 then commit_start n else
  let m := MkMMonPaxos OP_BEGIN (m_epoch (n_mon n)) 0 lc 0 (accepted_pn (n_px n)) 0 0 [(lc + 1, value)] in
  Ret (upd (set_accept_timeout_event true) (bcast m n)).

(** ** Proposals *)

Definition get_pending_transaction (n : node) : res node :=
  _ <~ rassert (is_leader n);;
  match pending_proposal (n_px n) with
  | Some _ => Ret n
  | None =>
      _ <~ rassert (bool_decide (pending_finishers (n_px n) = []));;
      Ret (upd (set_pending_proposal (Some [])) n)
  end.

(** Operations appended to the pending transaction. *)
Definition add_pending (l : tx) (n : node) : node :=
  upd (fun p => set_pending_proposal (Some (match pending_proposal p with Some t => t ++ l | None => l end)) p) n.

Definition propose_pending (n : node) : res node :=
  _ <~ rassert (is_active n);;
  t <~ deref (pending_proposal (n_px n));;
  let n := upd (fun p => set_p_state STATE_UPDATING
             (set_pending_finishers (committing_finishers p) (set_committing_finishers (pending_finishers p)
               (set_pending_proposal None (cancel_events p))))) n in
  begin_ (Some t) n.

Definition trigger_propose (n : node) : res (bool * node) :=
  if plugged (n_px n) then Ret (false, n)
  else if is_active n then n <~ propose_pending n;; Ret (true, n)
  else Ret (false, n).

(** [available_versions] is an [int]. *)
Definition should_trim (cfg : config) (p : paxos) : bool :=
  let available_versions := s32 (last_committed p - first_committed p) in
  let maximum_versions := paxos_min cfg + paxos_trim_min cfg in
  negb (trimming p || (available_versions <=? maximum_versions)).

(** The erasures of [trim]; [k] is [end - v]. *)
Fixpoint erase_from (k : nat) (v : Z) : tx :=
  match k with
  | O => []
  | S k => EraseVersion v :: erase_from k (v + 1)
  end.

Definition trim (cfg : config) (n : node) : res node :=
  _ <~ rassert (should_trim cfg (n_px n));;
  let fc := first_committed (n_px n) in
  let end_ := Z.min (last_committed (n_px n) - paxos_min cfg) (fc + paxos_trim_max cfg) in
  if end_ <=? fc then Ret n else
  n <~ get_pending_transaction n;;
  let n := add_pending (erase_from (Z.to_nat (end_ - fc)) fc ++ [PutFirstCommitted end_]) n in
  Ret (upd (fun p => set_trimming true (set_pending_finishers (pending_finishers p ++ [C_Trimmed]) p)) n).

Definition finish_round (cfg : config) (n : node) : res node :=
  _ <~ rassert (is_leader n);;
  let n := upd (set_p_state STATE_ACTIVE) n in
  n <~ (if should_trim cfg (n_px n) then trim cfg n else Ret n);;
  match pending_proposal (n_px n) with
  | Some _ => if is_active n then propose_pending n else Ret n
  | None => Ret n
  end.

(** ** Restart *)

(** [restart], once no write is in progress. *)
Definition restart (n : node) : node :=
  upd (fun p => reset_pending_committing_finishers (set_pending_proposal None
         (set_p_state STATE_RECOVERING (set_new_value None (cancel_events p))))) n.

(** [Monitor::_reset], with the state its callers set: the monitor leaves the
    quorum. *)
Definition reset (state : role) (n : node) : node :=
  restart (set_n_mon (set_m_role state (set_m_quorum ∅ (n_mon n))) n).

(** [do_refresh] in a state that is not writing, so that the bootstrap it may
    ask for has no write to wait for. *)
Definition do_refresh (need_bootstrap : bool) (n : node) : bool * node :=
  if need_bootstrap then (false, reset Probing n) else (true, n).

Definition commit_proposal (n : node) : res node :=
  _ <~ rassert (is_leader n);;
  _ <~ rassert (is_refresh n);;
  Ret (upd (fun p => finish_contexts (committing_finishers p) (set_committing_finishers [] p)) n).

(** The queued transaction reaches the disk. *)
Definition flush (n : node) : node :=
  match n_io n with
  | Some (Queued v t) => set_n_io (Some Written) (updd (fun d => apply_tx (set_d_last_committed v d) t) n)
  | _ => n
  end.

Definition commit_finish (cfg : config) (now : Z) (need_bootstrap : bool) (n : node) : res node :=
  let n := upd (fun p => set_last_committed (last_committed p + 1) (set_lease_expire 0 p)) (set_n_io None n) in
  let n := upd (set_first_committed (d_first_committed (n_store n))) n in
  _ <~ rassert (d_last_committed (n_store n) =? last_committed (n_px n));;
  let p := n_px n in
  let m := MkMMonPaxos OP_COMMIT (m_epoch (n_mon n)) 0 (last_committed p) 0 (accepted_pn p) 0 0
             [(last_committed p, new_value p)] in
  let n := upd (set_new_value None) (bcast m n) in
  _ <~ rassert (is_writing n || is_writing_previous n);;
  let n := upd (set_p_state STATE_REFRESH) n in
  _ <~ rassert (0 <? commits_started (n_px n));;
  let n := upd (fun p => set_commits_started (commits_started p - 1) p) n in
  let '(ok, n) := do_refresh need_bootstrap n in
  if ok then
    n <~ commit_proposal n;;
    n <~ (if 1 <? quorum_size n then extend_lease cfg now n else Ret n);;
    finish_round cfg n
  else Ret n.

(** [MonitorDBStore::flush]: the finisher writes what is queued and completes
    it, until nothing is; what a completion queues is done too.  [answers] has
    the answer of [refresh_from_paxos] to each write, at least as many as there
    are writes. *)
Fixpoint store_flush (cfg : config) (now : Z) (answers : list bool) (n : node) : res node :=
  match n_io n, answers with
  | None, _ => Ret n
  | Some _, [] => NoFuel
  | Some _, need_bootstrap :: answers =>
      n <~ commit_finish cfg now need_bootstrap (flush n);;
      store_flush cfg now answers n
  end.

Definition wait_for_paxos_write (cfg : config) (now : Z) (answers : list bool) (n : node) : res node :=
  if is_writing n || is_writing_previous n then store_flush cfg now answers n else Ret n.

(** What [Monitor::bootstrap], [start_election] and [join_election] do to
    Paxos: a write in progress is finished first. *)
Definition leave_quorum (state : role) (cfg : config) (now : Z) (answers : list bool) (n : node) : res node :=
  n <~ wait_for_paxos_write cfg now answers n;;
  Ret (reset state n).

(** [Monitor::bootstrap] in a monmap of more than one monitor. *)
Definition bootstrap : config -> Z -> list bool -> node -> res node := leave_quorum Probing.

(** The answer of [refresh_from_paxos] in a handler that finished no write. *)
Definition answer (answers : list bool) : bool := match answers with b :: _ => b | [] => false end.

(** ** Handlers *)

Definition handle_collect (cfg : config) (now : Z) (answers : list bool) (m : MMonPaxos) (from : Z) (n : node) : res node :=
  _ <~ rassert (is_peon n);;
  let n := upd (fun p => reset_lease_timeout (set_p_state STATE_RECOVERING p)) n in
  let p := n_px n in
  let lc := last_committed p in
  if lc + 1 <? msg_first_committed m then bootstrap cfg now answers n else
  let last := MkMMonPaxos OP_LAST (m_epoch (n_mon n)) (first_committed p) lc 0 0 0 0 [] in
  let previous_pn := accepted_pn p in
  let n := if accepted_pn p <? pn m then
             updd (set_d_accepted_pn (pn m)) (upd (fun p => set_accepted_pn (pn m) (set_accepted_pn_from (pn_from m) p)) n)
           else n in
  let last := set_pn (accepted_pn (n_px n)) (set_pn_from (accepted_pn_from (n_px n)) last) in
  last <~ (if msg_last_committed m <? lc then share_state n last (msg_last_committed m) else Ret last);;
  last <~ (if (msg_last_committed m <=? lc) && exists_version (n_store n) (lc + 1) then
             let bl := get_version_bl (n_store n) (lc + 1) in
             _ <~ rassert (nonempty bl);;
             let last := set_values (mput (lc + 1) bl (values last)) last in
             Ret (set_msg_uncommitted_pn (uncommitted_pn_of n previous_pn) last)
           else Ret last);;
  Ret (send from last n).

(** [for (p = peer_last_committed.begin(); ...)] of [handle_last]: a commit to
    each peer that lags; [false] if one lags too far. *)
Fixpoint catch_up (l : list (Z * Z)) (n : node) : res (bool * node) :=
  match l with
  | [] => Ret (true, n)
  | (p, lc) :: l =>
      if (lc + 1 <? first_committed (n_px n)) && (1 <? first_committed (n_px n)) then Ret (false, n) else
      n <~ (if lc <? last_committed (n_px n) then
              commit <~ share_state n (new_msg OP_COMMIT (m_epoch (n_mon n))) lc;;
              Ret (send p commit n)
            else Ret n);;
      catch_up l n
  end.

(** The value [last] reports, if it is the one to propose again. *)
Definition learn_uncommitted (last : MMonPaxos) (p : paxos) : paxos :=
  if negb (msg_uncommitted_pn last =? 0)
     && (uncommitted_pn p <=? msg_uncommitted_pn last)
     && (last_committed p <=? msg_last_committed last)
     && (uncommitted_v p <=? msg_last_committed last + 1)
  then
    let v := msg_last_committed last + 1 in
    set_uncommitted_v v (set_uncommitted_pn (msg_uncommitted_pn last) (set_uncommitted_value (msg_value last v) p))
  else p.

(** All members of the quorum have answered; the flag says whether the monitor
    was refreshed. *)
Definition collected (cfg : config) (now : Z) (need_bootstrap : bool) (n : node) : res (bool * node) :=
  let n := upd (fun p => set_collect_timeout_event false (set_peer_first_committed ∅ (set_peer_last_committed [] p))) n in
  let p := n_px n in
  if (uncommitted_v p =? last_committed p + 1) && nonempty (uncommitted_value p) then
    n <~ begin_ (uncommitted_value p) (upd (set_p_state STATE_UPDATING_PREVIOUS) n);;
    Ret (false, n)
  else
    n <~ extend_lease cfg now n;;
    let '(ok, n) := do_refresh need_bootstrap n in
    n <~ (if ok then finish_round cfg n else Ret n);;
    Ret (true, n).

Definition handle_last (cfg : config) (now : Z) (answers : list bool) (last : MMonPaxos) (from : Z) (n : node) : res node :=
  if negb (is_leader n) then Ret n else
  let n := upd (fun p => set_peer_first_committed (<[from := msg_first_committed last]> (peer_first_committed p))
             (set_peer_last_committed (mput from (msg_last_committed last) (peer_last_committed p)) p)) n in
  if last_committed (n_px n) + 1 <? msg_first_committed last then bootstrap cfg now answers n else
  '(need_refresh, n) <~ store_state last n;;
  '(ok, n) <~ catch_up (peer_last_committed (n_px n)) n;;
  if negb ok then bootstrap cfg now answers n else
  '(refreshed, n) <~
    (if accepted_pn (n_px n) <? pn last then
       n <~ collect (pn last) (upd (set_collect_timeout_event false) n);;
       Ret (false, n)
     else if pn last =? accepted_pn (n_px n) then
       let n := upd (fun p => learn_uncommitted last (set_num_last (num_last p + 1) p)) n in
       if num_last (n_px n) =? quorum_size n then collected cfg now (answer answers) n else Ret (false, n)
     else Ret (false, n));;
  Ret (if need_refresh && negb refreshed then (do_refresh (answer answers) n).2 else n).

Definition handle_begin (m : MMonPaxos) (from : Z) (n : node) : res node :=
  let p := n_px n in
  if pn m <? accepted_pn p then Ret n else
  _ <~ rassert (pn m =? accepted_pn p);;
  _ <~ rassert (msg_last_committed m =? last_committed p);;
  let n := upd (fun p => set_p_state STATE_UPDATING (set_lease_expire 0 p)) n in
  let v := last_committed p + 1 in
  let n := updd (fun d => set_d_pending_pn (accepted_pn p) (set_d_pending_v v (put_version v (msg_value m v) d))) n in
  let accept := MkMMonPaxos OP_ACCEPT (m_epoch (n_mon n)) 0 (last_committed p) 0 (accepted_pn p) 0 0 [] in
  Ret (send from accept n).

Definition handle_accept (m : MMonPaxos) (from : Z) (n : node) : res node :=
  let p := n_px n in
  let lc := last_committed p in
  if negb (pn m =? accepted_pn p) then Ret n else
  if (0 <? lc) && (msg_last_committed m <? lc - 1) then Ret n else
  _ <~ rassert ((msg_last_committed m =? lc) || (msg_last_committed m =? lc - 1));;
  _ <~ rassert (is_updating n || is_updating_previous n);;
  _ <~ rassert (bool_decide (from ∉ accepted p));;
  let n := upd (fun p => set_accepted ({[from]} ∪ accepted p) p) n in
  if bool_decide (accepted (n_px n) = m_quorum (n_mon n)) then commit_start n else Ret n.

Definition handle_commit (need_bootstrap : bool) (m : MMonPaxos) (n : node) : res node :=
  _ <~ rassert (is_peon n);;
  '(_, n) <~ store_state m n;;
  Ret (do_refresh need_bootstrap n).2.

Definition dispatch (cfg : config) (now : Z) (answers : list bool) (m : MMonPaxos) (from : Z) (n : node) : res node :=
  if negb (is_leader n) && negb (is_peon n) then Ret n else
  _ <~ rassert (is_leader n || (is_peon n && (from =? m_leader (n_mon n))));;
  match op m with
  | OP_COLLECT => handle_collect cfg now answers m from n
  | OP_LAST => handle_last cfg now answers m from n
  | OP_BEGIN => handle_begin m from n
  | OP_ACCEPT => handle_accept m from n
  | OP_COMMIT => handle_commit (answer answers) m n
  | OP_LEASE => handle_lease m from n
  | OP_LEASE_ACK => handle_lease_ack m from n
  end.

(** The filter of [Monitor::dispatch_op] on the election epoch. *)
Definition receive (cfg : config) (now : Z) (answers : list bool) (m : MMonPaxos) (from : Z) (n : node) : res node :=
  if m_epoch (n_mon n) <? epoch m then bootstrap cfg now answers n
  else if negb (epoch m =? m_epoch (n_mon n)) then Ret n
  else dispatch cfg now answers m from n.

(** ** Timeouts *)

Definition collect_timeout (cfg : config) (now : Z) (answers : list bool) (n : node) : res node :=
  let n := upd (set_collect_timeout_event false) n in
  _ <~ rassert (is_leader n);;
  bootstrap cfg now answers n.

Definition accept_timeout (cfg : config) (now : Z) (answers : list bool) (n : node) : res node :=
  let n := upd (set_accept_timeout_event false) n in
  _ <~ rassert (is_leader n);;
  _ <~ rassert (is_updating n || is_updating_previous n || is_writing n || is_writing_previous n);;
  bootstrap cfg now answers n.

Definition lease_ack_timeout (cfg : config) (now : Z) (answers : list bool) (n : node) : res node :=
  _ <~ rassert (is_leader n);;
  _ <~ rassert (is_active n);;
  bootstrap cfg now answers (upd (set_lease_ack_timeout_event false) n).

Definition lease_timeout (cfg : config) (now : Z) (answers : list bool) (n : node) : res node :=
  _ <~ rassert (is_peon n);;
  bootstrap cfg now answers (upd (set_lease_timeout_event false) n).

Definition lease_renew_timeout (cfg : config) (now : Z) (n : node) : res node :=
  extend_lease cfg now (upd (set_lease_renew_event false) n).

(** ** Start *)

(** [init]: a monitor that starts knows what its store holds; its epoch is that
    of a new [Elector]. *)
Definition init (n : node) : res node :=
  let d := n_store n in
  let p := MkPaxos STATE_RECOVERING 0 (d_first_committed d) (d_last_pn d) (d_last_committed d) (d_accepted_pn d) 0
             ∅ [] 0 0 0 0 None None ∅ ∅ false false false false false None [] [] false false in
  _ <~ rassert (first_committed p <=? last_committed p);;
  Ret (set_n_px p (set_n_io None (set_n_mon (set_m_role Probing (set_m_epoch 0 (set_m_quorum ∅ (n_mon n)))) n))).

Definition leader_init (n : node) : res node :=
  let n := upd (fun p => reset_pending_committing_finishers (set_pending_proposal None (set_new_value None (cancel_events p)))) n in
  if quorum_size n =? 1 then Ret (upd (set_p_state STATE_ACTIVE) n) else
  collect 0 (upd (fun p => set_lease_expire 0 (set_p_state STATE_RECOVERING p)) n).

Definition peon_init (n : node) : node :=
  upd (fun p => reset_pending_committing_finishers (set_pending_proposal None (reset_lease_timeout
         (set_lease_expire 0 (set_p_state STATE_RECOVERING (set_new_value None (cancel_events p))))))) n.

(** The election ends: [Monitor::win_election] and [Monitor::lose_election], as
    far as Paxos is concerned. *)
Definition win_election (e : Z) (active : gset Z) (n : node) : res node :=
  _ <~ rassert (bool_decide (m_role (n_mon n) = Electing));;
  leader_init (set_n_mon (set_m_role Leader (set_m_epoch e (set_m_quorum active (set_m_leader (rank n) (n_mon n))))) n).

Definition lose_election (e : Z) (q : gset Z) (l : Z) (n : node) : node :=
  peon_init (set_n_mon (set_m_role Peon (set_m_epoch e (set_m_quorum q (set_m_leader l (n_mon n))))) n).
End paxos.
