(* ===== verification/PaxosVote.v ===== *)
(** * Votes

    What makes Paxos safe, without messages or stores: promises, proposals and
    votes.  A proposal needs the promise of a quorum and must repeat, up to an
    equivalence, the value of the latest session in which one of the quorum has
    voted.  [agreement] says that all values chosen for a version are
    equivalent. *)

From stdpp Require Import gmap.
From S2P Require Import Prelude.
Open Scope Z_scope.

Section votes.
Context {V : Type} (veq : V -> V -> Prop) `{!Equivalence veq}.

(** Any two quorums share a member. *)
Context (is_quorum : gset Z -> Prop) (Hmeet : forall q q', is_quorum q -> is_quorum q' -> exists a, a ∈ q /\ a ∈ q').

(** The promise of each node, votes (node, session, version) and proposals
    (session, version, value). *)
Record votes := Votes {
  prom : Z -> Z;
  vote : Z -> Z -> Z -> Prop;
  prop : Z -> Z -> V -> Prop;
}.

(** A value that may be proposed in session [p], after the promises of [q], for
    version [n]. *)
Definition justified (s : votes) (p : Z) (q : gset Z) (n : Z) (v : V) : Prop :=
  (forall a k, a ∈ q -> k < p -> ~ vote s a k n) \/
  exists r u, r < p /\ prop s r n u /\ veq u v /\ forall a k, a ∈ q -> k < p -> vote s a k n -> k <= r.

Inductive vstep (s : votes) : votes -> Prop :=
  | VPromise a p :
      prom s a < p ->
      vstep s (Votes (fun a' => if decide (a' = a) then p else prom s a') (vote s) (prop s))
  | VPropose l p q n v :
      is_quorum q -> prom s l = p -> (forall a, a ∈ q -> p <= prom s a) -> (forall u, ~ prop s p n u) ->
      justified s p q n v ->
      vstep s (Votes (prom s) (fun a k m => vote s a k m \/ (a = l /\ k = p /\ m = n))
                 (fun k m u => prop s k m u \/ (k = p /\ m = n /\ u = v)))
  | VVote a p n v :
      prom s a = p -> prop s p n v ->
      vstep s (Votes (prom s) (fun a' k m => vote s a' k m \/ (a' = a /\ k = p /\ m = n)) (prop s)).

(** Another value proposed in session [k] can no longer be chosen. *)
Definition settled (s : votes) (k n : Z) (v : V) : Prop :=
  (exists u, prop s k n u /\ veq u v) \/
  exists q, is_quorum q /\ forall a, a ∈ q -> ~ vote s a k n /\ k < prom s a.

Record vinv (s : votes) : Prop := VInv {
  vi_vote a p n : vote s a p n -> p <= prom s a /\ exists v, prop s p n v;
  vi_prop p n v v' : prop s p n v -> prop s p n v' -> v = v';
  vi_safe p n v k : prop s p n v -> k < p -> settled s k n v;
}.

Definition chosen (s : votes) (n : Z) (v : V) : Prop :=
  exists p q, is_quorum q /\ prop s p n v /\ forall a, a ∈ q -> vote s a p n.

(** A proposal that is justified is settled against every earlier session. *)
Lemma justified_settled s p q n v k :
  vinv s -> is_quorum q -> (forall a, a ∈ q -> p <= prom s a) -> justified s p q n v -> k < p -> settled s k n v.
Proof using Equivalence0.
  intros Hi Hq Hprom Hj Hk.
  assert ((forall a, a ∈ q -> ~ vote s a k n) -> settled s k n v) as Hset.
  { intros Hno. right. exists q. split; [done|]. intros a Ha. split; [by apply Hno|]. specialize (Hprom a Ha). lia. }
  destruct Hj as [Hno|(r & u & Hr & Hu & Heq & Hle)]; [by eauto|].
  destruct (Z.lt_trichotomy k r) as [Hlt|[->|Hgt]].
  - destruct (vi_safe _ Hi r n u k Hu Hlt) as [(w & Hw & Hwu)|Hno]; [left|by right].
    exists w. split; [done|]. by etrans.
  - left. by exists u.
  - apply Hset. intros a Ha Hv. specialize (Hle a k Ha Hk Hv). lia.
Qed.

(** Promises only grow and a vote needs the current promise, so what is
    settled stays settled. *)
Lemma settled_mono s s' k n v :
  (forall a, prom s a <= prom s' a) -> (forall m u, prop s k m u -> prop s' k m u) ->
  (forall a, vote s' a k n -> vote s a k n \/ prom s a <= k) -> settled s k n v -> settled s' k n v.
Proof.
  intros Hp Hpr Hv [(u & Hu & Heq)|(q & Hq & Hno)]; [left; eauto|right].
  exists q. split; [done|]. intros a Ha. destruct (Hno a Ha) as [Hnv Hk].
  split; [|specialize (Hp a); lia]. intros Hv'. destruct (Hv a Hv'); [done|lia].
Qed.

Lemma vstep_vinv s s' : vinv s -> vstep s s' -> vinv s'.
Proof using Equivalence0.
  intros Hi Hst. destruct Hst as [a p Hlt|l p q n v Hq Hp Hall Hnew Hj|a p n v Hp Hv].
  - split; cbn; [|apply Hi|].
    + intros a' p' n Hv. destruct (vi_vote _ Hi _ _ _ Hv). case_decide; subst; split; [lia|done|lia|done].
    + intros p' n v k Hv Hk. eapply settled_mono; [..|by eapply vi_safe]; cbn; eauto.
      intros a'. case_decide; subst; lia.
  - split; cbn.
    + intros a k m [Hv|(-> & -> & ->)]; [|split; [by rewrite Hp|eauto]].
      destruct (vi_vote _ Hi _ _ _ Hv) as [? [u Hu]]. eauto.
    + intros p' m u u' [Hu|(-> & -> & ->)] [Hu'|(Hp' & Hm' & ->)]; subst;
        [by eapply vi_prop|by destruct (Hnew u)|by destruct (Hnew u')|done].
    + intros p' m u k Hu Hk. assert (settled s k m u) as Hset.
      { destruct Hu as [Hu|(-> & -> & ->)]; [by eapply vi_safe|by eapply justified_settled]. }
      eapply settled_mono; [..|exact Hset]; cbn; [done|by left|]. intros a [Hv|(-> & -> & _)]; [by left|right; lia].
  - split; cbn; [|apply Hi|].
    + intros a' k m [Hv'|(-> & -> & ->)]; [by eapply vi_vote|]. split; [by rewrite Hp|eauto].
    + intros p' m u k Hu Hk. eapply settled_mono; [..|by eapply vi_safe]; cbn; [done|done|].
      intros a' [Hv'|(-> & -> & _)]; [by left|right; lia].
Qed.

(** All values chosen for a version are equivalent. *)
Lemma agreement s n v v' : vinv s -> chosen s n v -> chosen s n v' -> veq v v'.
Proof using Hmeet Equivalence0.
  intros Hi. assert (forall p p' q u u', p < p' -> is_quorum q -> prop s p n u ->
    (forall a, a ∈ q -> vote s a p n) -> prop s p' n u' -> veq u u') as Hlt.
  { intros p p' q u u' Hpp Hq Hu Hall Hu'. destruct (vi_safe _ Hi _ _ _ _ Hu' Hpp) as [(w & Hw & Heq)|(q' & Hq' & Hno)].
    - by rewrite (vi_prop _ Hi _ _ _ _ Hu Hw).
    - destruct (Hmeet q q') as (a & Ha & Ha'); [done|done|]. destruct (Hno a Ha') as [[] _]. by apply Hall. }
  intros (p & q & Hq & Hv & Hall) (p' & q' & Hq' & Hv' & Hall').
  destruct (Z.lt_trichotomy p p') as [?|[->|?]]; [by eapply (Hlt p p' q)| |symmetry; by eapply (Hlt p' p q')].
  by rewrite (vi_prop _ Hi _ _ _ _ Hv Hv').
Qed.

Lemma vinv_empty : vinv (Votes (fun _ => 0) (fun _ _ _ => False) (fun _ _ _ => False)).
Proof. split; cbn; naive_solver. Qed.

(** States with the same promises, votes and proposals. *)
#[export] Instance votes_equiv : Equiv votes := fun s s' =>
  (forall a, prom s a = prom s' a) /\ (forall a p n, vote s a p n <-> vote s' a p n) /\
  (forall p n v, prop s p n v <-> prop s' p n v).

#[export] Instance votes_equivalence : Equivalence (≡@{votes}).
Proof.
  split; [done| |].
  - intros s s' (H2 & H3 & H4). split_and!; intros; symmetry; eauto.
  - intros s s' s'' (H2 & H3 & H4) (G2 & G3 & G4).
    split_and!; intros; [by rewrite H2|by rewrite H3|by rewrite H4].
Qed.

Lemma vinv_equiv_1 s s' : s ≡ s' -> vinv s -> vinv s'.
Proof.
  intros (Hp & Hv & Hpr) Hi. split.
  - intros a p n. rewrite <- Hv, <- Hp. intros H. destruct (vi_vote _ Hi _ _ _ H) as [? [v ?]].
    split; [done|]. exists v. by apply Hpr.
  - intros p n v v'. rewrite <- !Hpr. apply Hi.
  - intros p n v k Hv' Hk. rewrite <- Hpr in Hv'. destruct (vi_safe _ Hi _ _ _ _ Hv' Hk) as [(u & Hu & Heq)|(q & Hq & Hno)].
    + left. exists u. by rewrite <- Hpr.
    + right. exists q. split; [done|]. intros a Ha. rewrite <- Hv, <- Hp. by apply Hno.
Qed.

#[export] Instance vinv_proper : Proper ((≡) ==> iff) vinv.
Proof. intros s s' Heq. split; by apply vinv_equiv_1. Qed.
End votes.
