(* ===== verification/PaxosNet.v ===== *)
(** * A cluster of monitors

    The monitors of Paxos.v, the messages between them and the events of Paxos
    that change them.  Messages from one monitor to another arrive in order and
    at most once, and may be lost.  Events are executable, so that a run is a
    list of events.  Elections and restarts are in Monitors.v. *)

From stdpp Require Import gmap.
From S2P Require Import Prelude Paxos.
Open Scope Z_scope.

Section cluster.
Context {Op Svc : Type} (run_op : Op -> Svc -> Svc) (cfg : config).
Notation node := (@node Op Svc).
Notation packet := (@packet Op).

(** [sent] is the history of all messages, for the proofs. *)
Record cluster := Cluster {
  nodes : gmap Z node;
  net : list packet;
  sent : list packet;
}.

Inductive event :=
  | Deliver (s d : Z) (now : Z) (answers : list bool)
  | Lose (i : nat)
  | Flush (r : Z)
  | Committed (r : Z) (now : Z) (need_bootstrap : bool)
  | Propose (r : Z) (l : list Op) (trigger : bool)
  | CollectTimeout (r : Z) (now : Z) (answers : list bool)
  | AcceptTimeout (r : Z) (now : Z) (answers : list bool)
  | LeaseAckTimeout (r : Z) (now : Z) (answers : list bool)
  | LeaseTimeout (r : Z) (now : Z) (answers : list bool)
  | LeaseRenew (r : Z) (now : Z).

(** A monitor runs [f]; what it sends goes to the network. *)
Definition at_node (r : Z) (f : node -> res node) (c : cluster) : option cluster :=
  match nodes c !! r with
  | Some n =>
      match f n with
      | Ret n' =>
          Some (Cluster (<[r := set_n_out [] n']> (nodes c)) (net c ++ n_out n') (sent c ++ n_out n'))
      | _ => None
      end
  | None => None
  end.

Definition guard (b : bool) (f : node -> res node) (n : node) : res node := if b then f n else Fault.

Definition on_channel (s d : Z) (p : packet) : Prop := src p = s /\ dst p = d.

#[export] Instance on_channel_dec s d p : Decision (on_channel s d p).
Proof. unfold on_channel. apply _. Defined.

(** A service adds operations to the pending transaction. *)
Definition propose (l : list Op) (trigger : bool) (n : node) : res node :=
  n <~ get_pending_transaction n;;
  let n := add_pending (ServiceOp <$> l) n in
  let n := upd (fun p => set_pending_finishers (pending_finishers p ++ [C_Service]) p) n in
  if trigger then '(_, n) <~ trigger_propose n;; Ret n else Ret n.

Definition written (n : node) : bool := match n_io n with Some Written => true | _ => false end.

Definition exec (ev : event) (c : cluster) : option cluster :=
  match ev with
  | Deliver s d now nb =>
      match list_find (on_channel s d) (net c) with
      | Some (i, p) =>
          at_node d (receive run_op cfg now nb (msg p) s) (Cluster (nodes c) (delete i (net c)) (sent c))
      | None => None
      end
  | Lose i => Some (Cluster (nodes c) (delete i (net c)) (sent c))
  | Flush r => at_node r (fun n => Ret (flush run_op n)) c
  | Committed r now nb => at_node r (fun n => guard (written n) (commit_finish cfg now nb) n) c
  | Propose r l trigger => at_node r (propose l trigger) c
  | CollectTimeout r now nb =>
      at_node r (fun n => guard (collect_timeout_event (n_px n)) (collect_timeout run_op cfg now nb) n) c
  | AcceptTimeout r now nb =>
      at_node r (fun n => guard (accept_timeout_event (n_px n)) (accept_timeout run_op cfg now nb) n) c
  | LeaseAckTimeout r now nb =>
      at_node r (fun n => guard (lease_ack_timeout_event (n_px n)) (lease_ack_timeout run_op cfg now nb) n) c
  | LeaseTimeout r now nb =>
      at_node r (fun n => guard (lease_timeout_event (n_px n)) (lease_timeout run_op cfg now nb) n) c
  | LeaseRenew r now =>
      at_node r (fun n => guard (lease_renew_event (n_px n)) (lease_renew_timeout cfg now) n) c
  end.

(** A monitor with an empty store. *)
Definition fresh_node (r size : Z) (s : Svc) : node :=
  MkNode (MkMonitor r Probing 0 ∅ (-1) size)
    (MkPaxos STATE_RECOVERING 0 0 0 0 0 0 ∅ [] 0 0 0 0 None None ∅ ∅ false false false false false None [] [] false false)
    (MkStore 0 0 0 0 0 0 ∅ s) None [].

Definition start (size : Z) (s : Svc) : cluster :=
  Cluster (list_to_map ((fun r => (r, fresh_node r size s)) <$> seqZ 0 size)) [] [].
End cluster.
