(* ===== verification/PaxosInv.v ===== *)
(** * Invariants of a cluster of monitors

    What holds in every state the cluster of PaxosNet.v reaches when a monitor
    that restarts has its promise in its store: of the stores ([disk_ok]), of
    the messages ([pkt_ok]), of a leader in each phase ([leading]) and of the
    votes ([abs], with the invariant of PaxosVote.v). *)

From stdpp Require Import gmap sorting.
From S2P Require Import Prelude Paxos PaxosVote PaxosNet.
Open Scope Z_scope.

(** ** Lists in which every earlier element is related to every later one *)

Lemma ss_sublist {A} (R : A -> A -> Prop) l l' : sublist l' l -> StronglySorted R l -> StronglySorted R l'.
Proof.
  induction 1 as [|x l1 l2 Hs IH|x l1 l2 Hs IH]; [done| |]; intros [Ht Hf]%StronglySorted_inv; [|by apply IH].
  constructor; [by apply IH|]. apply list_relations.list.Forall_forall. intros y Hy.
  eapply list_relations.list.Forall_forall in Hf; [done|]. by eapply elem_of_sublist.
Qed.

Lemma ss_none {A} (R : A -> A -> Prop) l : (forall x y, x ∈ l -> y ∈ l -> R x y) -> StronglySorted R l.
Proof.
  induction l as [|x l IH]; intros H; constructor.
  - apply IH. intros. apply H; by right.
  - apply list_relations.list.Forall_forall. intros y Hy. apply H; [by left|by right].
Qed.

(** ** Sorted association lists *)

Lemma mget_elem {A} k (a : A) l : StronglySorted Z.lt (fst <$> l) -> (k, a) ∈ l -> mget k l = Some a.
Proof.
  induction l as [|[k' a'] l IH]; [by intros _ []%not_elem_of_nil|].
  rewrite fmap_cons. intros [Hs Hf]%StronglySorted_inv Hin. cbn [mget fst] in *.
  apply elem_of_cons in Hin as [[= -> ->]|Hin]; [by rewrite Z.eqb_refl|].
  destruct (Z.eqb_spec k k') as [->|]; [|by apply IH]. exfalso.
  eapply (list_relations.list.Forall_forall) in Hf; [|apply list_elem_of_fmap; by exists (k', a)]. cbn in Hf. lia.
Qed.

Lemma mget_some {A} k (a : A) l : mget k l = Some a -> (k, a) ∈ l.
Proof.
  induction l as [|[k' a'] l IH]; cbn [mget]; [done|].
  destruct (Z.eqb_spec k k') as [->|]; intros H; [injection H as ->; by left|right; by apply IH].
Qed.

(** Putting a key after all others appends. *)
Lemma mput_end {A} k (a : A) l : (forall k' a', (k', a') ∈ l -> k' < k) -> mput k a l = l ++ [(k, a)].
Proof.
  induction l as [|[k' a'] l IH]; intros H; cbn [mput]; [done|].
  assert (k' < k) by (eapply H; by left).
  destruct (Z.ltb_spec k k'); [lia|]. destruct (Z.eqb_spec k k'); [lia|]. cbn. f_equal. apply IH.
  intros k1 a1 Hin. eapply H. by right.
Qed.

Lemma ss_snoc {A} k (a : A) l :
  StronglySorted Z.lt (fst <$> l) -> (forall k' a', (k', a') ∈ l -> k' < k) -> StronglySorted Z.lt (fst <$> l ++ [(k, a)]).
Proof.
  intros Hs Hk. rewrite fmap_app. apply StronglySorted_app. split_and!; [|done|repeat constructor].
  intros x y (z & -> & Hz)%list_elem_of_fmap ->%list_elem_of_singleton. destruct z. cbn. eauto.
Qed.

(** A majority of [N] monitors. *)
Definition majority (N : Z) (q : gset Z) : Prop := (forall r, r ∈ q -> 0 <= r < N) /\ 0 <= N < 2 * Z.of_nat (size q).

(** Not between [r] and another monitor. *)
Definition unconnected {Op} (r : Z) (p : @packet Op) : Prop := src p <> r /\ dst p <> r.

Section inv.
Context {Op Svc : Type} (run_op : Op -> Svc -> Svc).
Notation node := (@node Op Svc).
Notation packet := (@packet Op).
Notation tx := (list (@vop Op)).
Notation MonitorDBStore := (@MonitorDBStore Op Svc).

(** ** What a transaction does *)

Definition fc_op (f : Z) (o : @vop Op) : Z := match o with PutFirstCommitted v => v | _ => f end.
Definition svc_op (s : Svc) (o : @vop Op) : Svc := match o with ServiceOp o => run_op o s | _ => s end.
Definition fc_after (t : tx) (f : Z) : Z := foldl fc_op f t.
Definition svc_after (t : tx) (s : Svc) : Svc := foldl svc_op s t.
Definition erases (t : tx) (v : Z) : Prop := EraseVersion v ∈ t.

(** Transactions with the same effect. *)
Definition tx_eq (t t' : tx) : Prop :=
  (forall f, fc_after t f = fc_after t' f) /\ (forall s, svc_after t s = svc_after t' s) /\
  forall v, erases t v <-> erases t' v.

#[export] Instance tx_eq_equivalence : Equivalence tx_eq.
Proof.
  split; [done| |].
  - intros t t' (H1 & H2 & H3). split_and!; intros; symmetry; eauto.
  - intros t t' t'' (H1 & H2 & H3) (G1 & G2 & G3). split_and!; intros; [by rewrite H1|by rewrite H2|by rewrite H3].
Qed.

Record same_but_data (d d' : MonitorDBStore) : Prop := SameButData {
  sb_last_pn : d_last_pn d' = d_last_pn d;
  sb_accepted_pn : d_accepted_pn d' = d_accepted_pn d;
  sb_last_committed : d_last_committed d' = d_last_committed d;
  sb_pending_v : d_pending_v d' = d_pending_v d;
  sb_pending_pn : d_pending_pn d' = d_pending_pn d;
}.

Lemma apply_tx_spec d t :
  same_but_data d (apply_tx run_op d t) /\
  d_first_committed (apply_tx run_op d t) = fc_after t (d_first_committed d) /\
  d_service (apply_tx run_op d t) = svc_after t (d_service d) /\
  forall v bl, d_versions (apply_tx run_op d t) !! v = Some bl <-> d_versions d !! v = Some bl /\ ~ erases t v.
Proof.
  unfold apply_tx. revert d. induction t as [|o t IH]; intros d; cbn [foldl].
  - split_and!; [done..|]. intros v bl. split; [|by intros [? _]]. intros H. split; [done|]. by intros []%not_elem_of_nil.
  - destruct (IH (apply_vop run_op d o)) as ([] & Hf & Hs & Hv). split_and!.
    + destruct o; split; cbn in *; congruence.
    + rewrite Hf. by destruct o.
    + rewrite Hs. by destruct o.
    + intros v bl. rewrite Hv. unfold erases. rewrite not_elem_of_cons.
      destruct o as [w|w|o]; cbn; [naive_solver| |naive_solver].
      destruct (decide (w = v)) as [->|Hne]; [rewrite lookup_delete_eq|rewrite lookup_delete_ne by done]; naive_solver.
Qed.

Lemma apply_tx_set_lc d t L :
  apply_tx run_op (set_d_last_committed L d) t = set_d_last_committed L (apply_tx run_op d t).
Proof. unfold apply_tx. revert d. induction t as [|o t IH]; intros d; cbn [foldl]; [done|]. rewrite <- IH. by destruct o. Qed.

(** ** Votes, read off the messages sent *)

Context (N : Z).

(** Monitor [a] has opened session [p] or was asked to join it. *)
Definition sessP (σ : list packet) (p a : Z) : Prop :=
  exists pk, pk ∈ σ /\ op (msg pk) = OP_COLLECT /\ pn (msg pk) = p /\ (src pk = a \/ dst pk = a).

Definition voteP (σ : list packet) (a p n : Z) : Prop :=
  exists pk, pk ∈ σ /\ (op (msg pk) = OP_ACCEPT \/ op (msg pk) = OP_BEGIN) /\ src pk = a /\
    pn (msg pk) = p /\ msg_last_committed (msg pk) + 1 = n.

Definition propP (σ : list packet) (p n : Z) (x : tx) : Prop :=
  exists pk, pk ∈ σ /\ op (msg pk) = OP_BEGIN /\ pn (msg pk) = p /\ msg_last_committed (msg pk) + 1 = n /\
    values (msg pk) = [(n, Some x)].

Definition chosenP (σ : list packet) (n : Z) (x : tx) : Prop :=
  exists p q, majority N q /\ propP σ p n x /\ forall a, a ∈ q -> voteP σ a p n.

(** A field of the node of rank [a]. *)
Definition field (f : node -> Z) (m : gmap Z node) (a : Z) : Z :=
  match m !! a with Some n => f n | None => 0 end.

Definition prom_of (n : node) : Z := accepted_pn (n_px n).
Definition lc_of (n : node) : Z := last_committed (n_px n).
Definition pn_of (n : node) : Z := last_pn (n_px n).
Definition ep_of (n : node) : Z := m_epoch (n_mon n).

Definition abs (m : gmap Z node) (σ : list packet) : votes :=
  Votes (field prom_of m) (voteP σ) (propP σ).

Lemma sessP_app σ σ' p a : sessP σ p a -> sessP (σ ++ σ') p a.
Proof. intros (pk & Hin & H). exists pk. split; [|done]. apply elem_of_app. by left. Qed.
Lemma voteP_app σ σ' a p n : voteP σ a p n -> voteP (σ ++ σ') a p n.
Proof. intros (pk & Hin & H). exists pk. split; [|done]. apply elem_of_app. by left. Qed.
Lemma propP_app σ σ' p n x : propP σ p n x -> propP (σ ++ σ') p n x.
Proof. intros (pk & Hin & H). exists pk. split; [|done]. apply elem_of_app. by left. Qed.
Lemma chosenP_app σ σ' n x : chosenP σ n x -> chosenP (σ ++ σ') n x.
Proof.
  intros (p & q & Hq & Hp & Hv). exists p, q. split_and!; [done|by apply propP_app|].
  intros. by apply voteP_app, Hv.
Qed.

(** ** The states the committed values lead to *)

Context (s0 : Svc).

Inductive hist (σ : list packet) : Z -> Z -> Svc -> Prop :=
  | hist_0 : hist σ 0 0 s0
  | hist_S n f s x : hist σ n f s -> chosenP σ (n + 1) x -> hist σ (n + 1) (fc_after x f) (svc_after x s).

Lemma hist_app σ σ' n f s : hist σ n f s -> hist (σ ++ σ') n f s.
Proof. induction 1; constructor; [done|by apply chosenP_app]. Qed.

Lemma hist_nonneg σ n f s : hist σ n f s -> 0 <= n.
Proof. induction 1; lia. Qed.

(** [x] may follow a prefix with [first_committed] [f] as version [n]: it
    erases what it takes out of the range of versions, and the first version
    is wrapped by [begin]. *)
Definition trim_ok (f n : Z) (x : tx) : Prop :=
  f <= fc_after x f <= n /\ (forall v, erases x v -> v < fc_after x f) /\
  (forall v, 1 <= v -> f <= v < fc_after x f -> erases x v) /\ (n = 1 -> exists t, x = PutFirstCommitted 1 :: t).

(** ** Stores *)

Record disk_ok (σ : list packet) (a acc : Z) (d : MonitorDBStore) : Prop := DiskOk {
  dk_range : 0 <= d_first_committed d <= d_last_committed d;
  dk_hist : hist σ (d_last_committed d) (d_first_committed d) (d_service d);
  dk_range_ver v bl : d_versions d !! v = Some bl -> 1 <= v /\ d_first_committed d <= v <= d_last_committed d + 1;
  dk_chosen v bl : d_versions d !! v = Some bl -> v <= d_last_committed d -> exists x, bl = Some x /\ chosenP σ v x;
  dk_pending bl : d_versions d !! (d_last_committed d + 1) = Some bl ->
    d_pending_v d = d_last_committed d + 1 /\ 0 < d_pending_pn d <= acc /\
    exists x, bl = Some x /\ propP σ (d_pending_pn d) (d_last_committed d + 1) x;
  dk_cont v : 1 <= v -> d_first_committed d <= v <= d_last_committed d -> is_Some (d_versions d !! v);
  dk_vote k n : voteP σ a k n -> n <= d_last_committed d \/
    (n = d_last_committed d + 1 /\ is_Some (d_versions d !! n) /\ k <= d_pending_pn d);
}.

Record store_ok (σ : list packet) (a : Z) (n : node) : Prop := StoreOk {
  st_disk : disk_ok σ a (prom_of n) (n_store n);
  st_lc : n_io n <> Some Written -> d_last_committed (n_store n) = lc_of n /\ d_first_committed (n_store n) = first_committed (n_px n);
  st_lc_written : n_io n = Some Written -> d_last_committed (n_store n) = lc_of n + 1;
  st_pn : d_last_pn (n_store n) = pn_of n;
  st_pend t : pending_proposal (n_px n) = Some t -> forall o, o ∈ t -> exists o', o = ServiceOp o';
}.

(** ** Messages *)

Definition vals_ok (σ : list packet) (m : MMonPaxos) : Prop :=
  StronglySorted Z.lt (fst <$> values m) /\
  (forall k bl, (k, bl) ∈ values m -> k <= msg_last_committed m -> exists x, bl = Some x /\ chosenP σ k x) /\
  (forall k bl v, (k, bl) ∈ values m -> k <= v <= msg_last_committed m -> exists bl', (v, bl') ∈ values m).

(** What a [OP_LAST] reports: the committed values from [L] on, and the latest
    vote of the sender. *)
Record last_ok (m : gmap Z node) (σ : list packet) (pk : packet) (L : Z) : Prop := LastOk {
  la_prom : pn (msg pk) <= field prom_of m (src pk);
  la_sess : pn (msg pk) = 0 \/ sessP σ (pn (msg pk)) (src pk);
  la_vals : vals_ok σ (msg pk);
  la_known : L <= field lc_of m (dst pk);
  la_all v : L < v <= msg_last_committed (msg pk) -> msg_first_committed (msg pk) <= v -> exists bl, (v, bl) ∈ values (msg pk);
  la_votes k n : k < pn (msg pk) -> voteP σ (src pk) k n -> n <= msg_last_committed (msg pk) \/
    (n = msg_last_committed (msg pk) + 1 /\
     (msg_last_committed (msg pk) < L \/ (msg_uncommitted_pn (msg pk) <> 0 /\ k <= msg_uncommitted_pn (msg pk))));
  la_unc : msg_uncommitted_pn (msg pk) <> 0 -> 0 < msg_uncommitted_pn (msg pk) <= pn (msg pk) /\
    exists x, mget (msg_last_committed (msg pk) + 1) (values (msg pk)) = Some (Some x) /\
              propP σ (msg_uncommitted_pn (msg pk)) (msg_last_committed (msg pk) + 1) x;
}.

Definition pkt_ok (m : gmap Z node) (σ : list packet) (pk : packet) : Prop :=
  match op (msg pk) with
  | OP_COLLECT => dst pk <> src pk /\ 0 < pn (msg pk) /\ pn (msg pk) mod 100 = src pk /\ pn (msg pk) <= field pn_of m (src pk) /\
                  0 <= msg_last_committed (msg pk) <= field lc_of m (src pk)
  | OP_BEGIN => dst pk <> src pk /\ pn (msg pk) mod 100 = src pk /\ 0 < pn (msg pk) <= field pn_of m (src pk) /\
                exists x, values (msg pk) = [(msg_last_committed (msg pk) + 1, Some x)]
  | OP_ACCEPT => pn (msg pk) mod 100 = dst pk /\ exists x, propP σ (pn (msg pk)) (msg_last_committed (msg pk) + 1) x
  | OP_LAST => src pk <> dst pk /\ exists L, last_ok m σ pk L
  | OP_COMMIT => vals_ok σ (msg pk)
  | OP_LEASE | OP_LEASE_ACK => True
  end.

(** The epoch of a session is not one its leader has yet to enter. *)
Definition epoch_ok (m : gmap Z node) (pk : packet) : Prop :=
  (op (msg pk) = OP_COLLECT -> epoch (msg pk) <= field ep_of m (src pk)) /\
  (op (msg pk) = OP_LAST -> epoch (msg pk) <= field ep_of m (dst pk)).

(** ** Leaders *)

Definition last_to (r a : Z) (pk : packet) : Prop := op (msg pk) = OP_LAST /\ src pk = a /\ dst pk = r.

Definition coll_to (r a : Z) (pk : packet) : Prop := op (msg pk) = OP_COLLECT /\ src pk = r /\ dst pk = a.

(** The proposal of session [p] to [a], or its answer. *)
Definition tok (r p a : Z) (pk : packet) : Prop :=
  pn (msg pk) = p /\ ((op (msg pk) = OP_BEGIN /\ src pk = r /\ dst pk = a) \/ (op (msg pk) = OP_ACCEPT /\ src pk = a /\ dst pk = r)).

(** Nothing of phase 1 is on its way between the leader and [a]. *)
Definition quiet (ν : list packet) (r a : Z) : Prop :=
  forall pk, pk ∈ ν -> ~ last_to r a pk /\ ~ coll_to r a pk.

(** The votes of [a] before the session are known to the leader. *)
Definition reported (σ : list packet) (n : node) (a : Z) : Prop :=
  forall k v, k < prom_of n -> voteP σ a k v ->
    v <= lc_of n \/ (v = lc_of n + 1 /\ uncommitted_v (n_px n) = v /\ k <= uncommitted_pn (n_px n)).

Definition unc_ok (σ : list packet) (n : node) : Prop :=
  let p := n_px n in
  (uncommitted_v p = 0 /\ uncommitted_pn p = 0) \/
  (uncommitted_v p = last_committed p + 1 /\ 0 < uncommitted_pn p < accepted_pn p /\
   exists x, uncommitted_value p = Some x /\ propP σ (uncommitted_pn p) (last_committed p + 1) x).

Record recovering (m : gmap Z node) (ν σ : list packet) (r : Z) (n : node) (X : gset Z) : Prop := Recovering {
  rc_new : new_value (n_px n) = None;
  rc_io : n_io n = None;
  rc_noprop v x : ~ propP σ (prom_of n) v x;
  rc_X : X ⊆ m_quorum (n_mon n) ∖ {[r]};
  rc_num : num_last (n_px n) = 1 + Z.of_nat (size X);
  rc_self : reported σ n r;
  rc_peers a : a ∈ X -> reported σ n a /\ prom_of n <= field prom_of m a /\ quiet ν r a;
  rc_unc : unc_ok σ n;
}.

(** All of the quorum has answered and its earlier votes are for versions up
    to [bound]. *)
Record recovered (m : gmap Z node) (ν σ : list packet) (r : Z) (n : node) (bound : Z) : Prop := Recovered {
  rd_prom a : a ∈ m_quorum (n_mon n) -> prom_of n <= field prom_of m a;
  rd_quiet a : a ∈ m_quorum (n_mon n) -> a <> r -> quiet ν r a;
  rd_votes a k v : a ∈ m_quorum (n_mon n) -> k < prom_of n -> voteP σ a k v -> v <= bound;
  rd_props v x : propP σ (prom_of n) v x -> v <= bound;
}.

Definition idle (ν : list packet) (r : Z) (n : node) : Prop :=
  new_value (n_px n) = None /\ n_io n = None /\ forall a pk, pk ∈ ν -> ~ tok r (prom_of n) a pk.

Record updating (ν σ : list packet) (r : Z) (n : node) : Prop := Updating {
  up_io : n_io n = None;
  up_value : exists x, new_value (n_px n) = Some x /\ propP σ (prom_of n) (lc_of n + 1) x;
  up_store : d_versions (n_store n) !! (lc_of n + 1) = Some (new_value (n_px n));
  up_accepted a : a ∈ accepted (n_px n) -> a ∈ m_quorum (n_mon n) /\ voteP σ a (prom_of n) (lc_of n + 1);
  up_once a : StronglySorted (fun x y => tok r (prom_of n) a x -> ~ tok r (prom_of n) a y) ν;
  up_tok a pk : pk ∈ ν -> tok r (prom_of n) a pk ->
    msg_last_committed (msg pk) = lc_of n /\ a ∉ accepted (n_px n) /\ a ∈ m_quorum (n_mon n);
}.

Record writing (ν σ : list packet) (r : Z) (n : node) : Prop := Writing {
  wr_value : exists x, new_value (n_px n) = Some x /\ chosenP σ (lc_of n + 1) x /\
    (n_io n = Some Written \/ (n_io n = Some (Queued (lc_of n + 1) x) /\ d_versions (n_store n) !! (lc_of n + 1) = Some (Some x)));
  wr_tok a pk : pk ∈ ν -> ~ tok r (prom_of n) a pk;
}.

Definition phase (m : gmap Z node) (ν σ : list packet) (r : Z) (n : node) : Prop :=
  match p_state (n_px n) with
  | STATE_RECOVERING => exists X, recovering m ν σ r n X
  | STATE_ACTIVE | STATE_REFRESH => recovered m ν σ r n (lc_of n) /\ idle ν r n
  | STATE_UPDATING | STATE_UPDATING_PREVIOUS => recovered m ν σ r n (lc_of n + 1) /\ updating ν σ r n
  | STATE_WRITING | STATE_WRITING_PREVIOUS => recovered m ν σ r n (lc_of n + 1) /\ writing ν σ r n
  | STATE_SHUTDOWN => False
  end.

(** The session of a leader. *)
Record session (ν σ : list packet) (r : Z) (n : node) : Prop := Session {
  ss_quorum : r ∈ m_quorum (n_mon n) /\ majority N (m_quorum (n_mon n));
  ss_pn : prom_of n = pn_of n;
  ss_owner : prom_of n mod 100 = r;
  ss_sess : sessP σ (prom_of n) r;
  ss_members a : sessP σ (prom_of n) a -> a ∈ m_quorum (n_mon n);
  ss_last a : StronglySorted (fun x y => last_to r a x -> pn (msg x) = prom_of n -> ~ last_to r a y) ν;
  ss_from a pk : pk ∈ ν -> coll_to r a pk \/ last_to r a pk -> epoch (msg pk) = ep_of n -> a ∈ m_quorum (n_mon n);
  ss_coll a pk pk' : pk ∈ ν -> last_to r a pk -> pn (msg pk) = prom_of n -> pk' ∈ ν -> ~ coll_to r a pk';
}.

Definition not_writing (n : node) : Prop :=
  n_io n = None /\ p_state (n_px n) <> STATE_WRITING /\ p_state (n_px n) <> STATE_WRITING_PREVIOUS.

Definition node_ok (m : gmap Z node) (ν σ : list packet) (r : Z) (n : node) : Prop :=
  match m_role (n_mon n) with
  | Leader => session ν σ r n /\ phase m ν σ r n
  | Peon => not_writing n /\ r <> m_leader (n_mon n) /\
            (p_state (n_px n) = STATE_UPDATING \/ p_state (n_px n) = STATE_UPDATING_PREVIOUS -> prom_of n mod 100 <> r)
  | Probing | Electing => not_writing n
  end.

(** ** The invariant *)

(** [OP_COLLECT]s of a channel are in the order of their numbers. *)
Definition coll_order (x y : packet) : Prop :=
  op (msg x) = OP_COLLECT -> op (msg y) = OP_COLLECT -> src x = src y -> dst x = dst y -> pn (msg x) < pn (msg y).

Record inv (m : gmap Z node) (ν σ : list packet) : Prop := Inv {
  i_dom r n : m !! r = Some n -> 0 <= r < N /\ rank n = r /\ m_size (n_mon n) = N;
  i_all r : 0 <= r < N -> is_Some (m !! r);
  i_sub pk : pk ∈ ν -> pk ∈ σ;
  i_vote : vinv tx_eq (majority N) (abs m σ);
  i_prom a : field prom_of m a = 0 \/ sessP σ (field prom_of m a) a;
  i_pkt pk : pk ∈ σ -> pkt_ok m σ pk;
  i_prop p n x : propP σ p n x -> exists f s, hist σ (n - 1) f s /\ trim_ok f n x;
  i_epoch pk : pk ∈ ν -> epoch_ok m pk;
  i_order : StronglySorted coll_order ν;
  i_fresh pk : pk ∈ ν -> op (msg pk) = OP_COLLECT -> field prom_of m (dst pk) mod 100 = src pk ->
    field prom_of m (dst pk) < pn (msg pk);
  i_store r n : m !! r = Some n -> store_ok σ r n;
  i_node r n : m !! r = Some n -> node_ok m ν σ r n;
}.
End inv.
