(* ===== verification/PaxosFrame.v ===== *)
(** * What a step of one monitor leaves unchanged

    A monitor changes its own state and sends messages ([extends]).  The
    lemmas of this file carry the parts of the invariant that are about the
    other monitors and about earlier messages over such a step; [inv_extend]
    leaves what is about the monitor itself and its new messages, and
    [inv_local] is the case of a step without a promise or a vote. *)

From stdpp Require Import gmap sorting.
From S2P Require Import Prelude Paxos PaxosVote PaxosNet PaxosInv.
Open Scope Z_scope.

Section frame.
Context {Op Svc : Type} (run_op : Op -> Svc -> Svc) (N : Z) (s0 : Svc).
Notation node := (@node Op Svc).
Notation packet := (@packet Op).
Notation sessP := (@sessP Op).
Notation chosenP := (@chosenP Op N).
Notation hist := (@hist Op Svc run_op N s0).
Notation disk_ok := (@disk_ok Op Svc run_op N s0).
Notation store_ok := (@store_ok Op Svc run_op N s0).
Notation vals_ok := (@vals_ok Op N).
Notation pkt_ok := (@pkt_ok Op Svc N).
Notation session := (@session Op Svc N).
Notation phase := (@phase Op Svc N).
Notation node_ok := (@node_ok Op Svc N).
Notation inv := (@inv Op Svc run_op N s0).
Notation vinv := (vinv (tx_eq run_op) (majority N)).
Notation abs := (@abs Op Svc).

(** ** More messages *)

Lemma vals_ok_app σ out m : vals_ok σ m -> vals_ok (σ ++ out) m.
Proof.
  intros (H1 & H2 & H3). split_and!; [done| |done]. intros k bl Hin Hk.
  destruct (H2 k bl Hin Hk) as (x & -> & Hx). exists x. split; [done|]. by apply chosenP_app.
Qed.

Lemma disk_ok_mono σ out a acc acc' d :
  disk_ok σ a acc d -> acc <= acc' -> (forall k n, voteP (σ ++ out) a k n -> voteP σ a k n) -> disk_ok (σ ++ out) a acc' d.
Proof.
  intros [] Hacc Hv. split; [done|by apply hist_app|done| | |done|].
  - intros v bl Hl Hle. destruct (dk_chosen v bl Hl Hle) as (x & -> & Hx). exists x. split; [done|]. by apply chosenP_app.
  - intros bl Hl. destruct (dk_pending bl Hl) as (H1 & H2 & x & -> & Hx). split_and!; [done|lia|lia|].
    exists x. split; [done|]. by apply propP_app.
  - intros k n Hk. apply dk_vote. by apply Hv.
Qed.

(** ** Steps of monitor [r] *)

Record extends (r : Z) (m : gmap Z node) (ν σ : list packet) (m' : gmap Z node) (ν' σ' out : list packet) : Prop := Extends {
  ex_sent : σ' = σ ++ out;
  ex_net : exists ν1, ν1 `sublist_of` ν /\ ν' = ν1 ++ out;
  ex_other a : a <> r -> m' !! a = m !! a;
  ex_prom : field prom_of m r <= field prom_of m' r;
  ex_lc : field lc_of m r <= field lc_of m' r;
  ex_pn : field pn_of m r <= field pn_of m' r;
  ex_ep : field ep_of m r <= field ep_of m' r \/ forall pk, pk ∈ ν -> unconnected r pk;
  ex_src pk : pk ∈ out -> src pk = r;
  ex_vote pk : pk ∈ out -> op (msg pk) = OP_ACCEPT \/ op (msg pk) = OP_BEGIN -> field prom_of m r <= pn (msg pk);
  ex_own pk : pk ∈ out -> op (msg pk) = OP_BEGIN \/ op (msg pk) = OP_COLLECT -> pn (msg pk) mod 100 = r;
}.

Section step.
Context (r : Z) (m : gmap Z node) (ν σ : list packet) (m' : gmap Z node) (ν' σ' out : list packet).
Context (E : extends r m ν σ m' ν' σ' out).

Lemma field_mono f a : field f m r <= field f m' r -> field f m a <= field f m' a.
Proof using E. intros H. destruct (decide (a = r)) as [->|Hne]; [done|]. unfold field. by rewrite (ex_other _ _ _ _ _ _ _ _ E) by done. Qed.

Lemma prom_mono a : field prom_of m a <= field prom_of m' a.
Proof using E. apply field_mono, E. Qed.
Lemma lc_mono a : field lc_of m a <= field lc_of m' a.
Proof using E. apply field_mono, E. Qed.
Lemma pn_mono a : field pn_of m a <= field pn_of m' a.
Proof using E. apply field_mono, E. Qed.

Lemma vote_new a k v : voteP σ' a k v -> voteP σ a k v \/ (a = r /\ field prom_of m r <= k).
Proof using E.
  intros (pk & Hin & Ho & Hs & Hp & Hv). rewrite (ex_sent _ _ _ _ _ _ _ _ E) in Hin.
  apply elem_of_app in Hin as [Hin|Hin]; [left; by exists pk|right].
  split; [by rewrite <- Hs; apply E|]. rewrite <- Hp. by apply (ex_vote _ _ _ _ _ _ _ _ E).
Qed.

Lemma vote_old a k v p : p <= field prom_of m a -> k < p -> voteP σ' a k v -> voteP σ a k v.
Proof using E. intros Hp Hk H. destruct (vote_new _ _ _ H) as [?|[-> ?]]; [done|lia]. Qed.

Lemma net_new pk : pk ∈ ν' -> pk ∈ ν \/ pk ∈ out.
Proof using E.
  destruct (ex_net _ _ _ _ _ _ _ _ E) as (ν1 & Hsub & ->). intros [H|H]%elem_of_app; [left|by right].
  by eapply elem_of_sublist.
Qed.

(** A property of ordered pairs of messages stays if the new ones do not
    concern it. *)
Lemma ss_step (R : packet -> packet -> Prop) :
  StronglySorted R ν -> (forall x y, y ∈ out -> R x y) -> StronglySorted R ν'.
Proof using E.
  intros Hs Hn. destruct (ex_net _ _ _ _ _ _ _ _ E) as (ν1 & Hsub & ->). apply StronglySorted_app. split_and!.
  - intros. by apply Hn.
  - by eapply ss_sublist.
  - apply ss_none. intros. by apply Hn.
Qed.

Lemma last_ok_step pk L : last_ok N m σ pk L -> last_ok N m' σ' pk L.
Proof using E.
  intros []. pose proof (ex_sent _ _ _ _ _ _ _ _ E) as Hs. split.
  - pose proof (prom_mono (src pk)). lia.
  - destruct la_sess as [?|?]; [by left|right]. rewrite Hs. by apply sessP_app.
  - rewrite Hs. by apply vals_ok_app.
  - pose proof (lc_mono (dst pk)). lia.
  - done.
  - intros k n Hk Hv. apply la_votes; [done|]. by eapply vote_old.
  - intros Hu. destruct (la_unc Hu) as (? & x & ? & ?). split; [done|]. exists x. split; [done|].
    rewrite Hs. by apply propP_app.
Qed.

Lemma pkt_ok_step pk : pkt_ok m σ pk -> pkt_ok m' σ' pk.
Proof using E.
  intros Hb. pose proof (ex_sent _ _ _ _ _ _ _ _ E) as Hs.
  unfold PaxosInv.pkt_ok in *. destruct (op (msg pk)); [| | | | |done|done].
  - pose proof (pn_mono (src pk)). pose proof (lc_mono (src pk)). destruct Hb as (? & ? & ? & ? & ?). split_and!; [done|lia|done|lia|lia|lia].
  - destruct Hb as [? [L HL]]. split; [done|]. exists L. by apply last_ok_step.
  - pose proof (pn_mono (src pk)). destruct Hb as (? & ? & ? & ?). split_and!; [done|done|lia|lia|done].
  - destruct Hb as [? [x ?]]. split; [done|]. exists x. rewrite Hs. by apply propP_app.
  - rewrite Hs. by apply vals_ok_app.
Qed.

Lemma epoch_ok_step pk : pk ∈ ν -> epoch_ok m pk -> epoch_ok m' pk.
Proof using E.
  intros Hin. assert (forall a, a = src pk \/ a = dst pk -> field ep_of m a <= field ep_of m' a) as Hm.
  { intros a Ha. destruct (decide (a = r)) as [->|Hne].
    - destruct (ex_ep _ _ _ _ _ _ _ _ E) as [?|Hu]; [done|]. destruct (Hu pk Hin). destruct Ha; congruence.
    - unfold field. by rewrite (ex_other _ _ _ _ _ _ _ _ E) by done. }
  pose proof (Hm (src pk) (or_introl eq_refl)). pose proof (Hm (dst pk) (or_intror eq_refl)).
  intros [H1 H2]. split; intros Ho; [specialize (H1 Ho)|specialize (H2 Ho)]; lia.
Qed.

(** ** Other leaders *)

(** No new message answers leader [r2]. *)
Definition calm (r2 p : Z) : Prop :=
  forall pk, pk ∈ out -> dst pk = r2 -> op (msg pk) <> OP_LAST /\ ~ (op (msg pk) = OP_ACCEPT /\ pn (msg pk) = p).

(** Messages without a promise asked for, a proposal or a vote. *)
Definition is_inert (o : paxos_op) : Prop := o <> OP_COLLECT /\ o <> OP_BEGIN /\ o <> OP_ACCEPT /\ o <> OP_LAST.

Section other.
Context (r2 : Z) (n : node) (Hout : forall pk, pk ∈ out -> src pk = r2 -> is_inert (op (msg pk))).

Lemma out_not_coll pk a : pk ∈ out -> ~ coll_to r2 a pk.
Proof using E Hout. intros Hin (Ho & Hs & _). by destruct (Hout pk Hin Hs). Qed.

Lemma vote_other k v : voteP σ' r2 k v -> voteP σ r2 k v.
Proof using E Hout.
  intros (pk & Hin & Ho & Hs & Hp & Hv). rewrite (ex_sent _ _ _ _ _ _ _ _ E) in Hin.
  apply elem_of_app in Hin as [Hin|Hin]; [by exists pk|]. destruct (Hout pk Hin Hs) as (_ & ? & ? & _). by destruct Ho.
Qed.

Lemma quiet_step a : (forall pk, pk ∈ out -> ~ last_to r2 a pk) -> quiet ν r2 a -> quiet ν' r2 a.
Proof using E Hout.
  intros Hc Hq pk Hin. apply net_new in Hin as [Hin|Hin]; [by apply Hq|].
  split; [by apply Hc|by apply out_not_coll].
Qed.

Lemma calm_last p a pk : calm r2 p -> pk ∈ out -> ~ last_to r2 a pk.
Proof. intros Hc Hin (Ho & _ & Hd). by destruct (Hc pk Hin Hd) as [[] _]. Qed.

Lemma calm_tok p a pk : calm r2 p -> pk ∈ out -> ~ tok r2 p a pk.
Proof using E Hout.
  intros Hc Hin (Hp & [(Ho & Hs & Hd)|(Ho & Hs & Hd)]).
  - by destruct (Hout pk Hin Hs) as (_ & ? & _).
  - by destruct (Hc pk Hin Hd) as [_ []].
Qed.

Lemma sess_other p a : p mod 100 = r2 -> sessP σ' p a -> sessP σ p a.
Proof using E Hout.
  intros Ho (pk & Hin & Hb & Hp & Ha). rewrite (ex_sent _ _ _ _ _ _ _ _ E) in Hin.
  apply elem_of_app in Hin as [Hin|Hin]; [by exists pk|]. pose proof (ex_own _ _ _ _ _ _ _ _ E pk Hin (or_intror Hb)) as Hr.
  rewrite Hp, Ho, <- (ex_src _ _ _ _ _ _ _ _ E pk Hin) in Hr. by destruct (Hout pk Hin (eq_sym Hr)) as (? & _).
Qed.

Lemma session_step :
  (forall a pk, pk ∈ out -> ~ last_to r2 a pk) -> session ν σ r2 n -> session ν' σ' r2 n.
Proof using E Hout.
  intros Hc []. split; [done..| | | | |].
  - rewrite (ex_sent _ _ _ _ _ _ _ _ E). by apply sessP_app.
  - intros a Ha. apply ss_members. eapply sess_other; [exact ss_owner|done].
  - intros a. apply ss_step; [done|]. intros x y Hy _ _. by apply Hc.
  - intros a pk Hpk Hk. apply net_new in Hpk as [Hpk|Hpk]; [by apply (ss_from a)|].
    destruct Hk as [Hk|Hk]; [by apply out_not_coll in Hk|by apply Hc in Hk].
  - intros a pk pk' Hpk Hl Hp Hpk'. apply net_new in Hpk as [Hpk|Hpk]; [|by destruct (Hc a pk Hpk)].
    apply net_new in Hpk' as [Hpk'|Hpk']; [by apply (ss_coll a pk pk')|by apply out_not_coll].
Qed.

Lemma prop_other v x : prom_of n mod 100 = r2 -> propP σ' (prom_of n) v x -> propP σ (prom_of n) v x.
Proof using E Hout.
  intros Ho (pk & Hin & Hb & Hp & Hv). rewrite (ex_sent _ _ _ _ _ _ _ _ E) in Hin.
  apply elem_of_app in Hin as [Hin|Hin]; [by exists pk|]. pose proof (ex_own _ _ _ _ _ _ _ _ E pk Hin (or_introl Hb)) as Hr.
  rewrite Hp, Ho, <- (ex_src _ _ _ _ _ _ _ _ E pk Hin) in Hr. by destruct (Hout pk Hin (eq_sym Hr)) as (_ & ? & _).
Qed.

Lemma store_ok_step : store_ok σ r2 n -> store_ok σ' r2 n.
Proof using E Hout.
  intros []. split; [|done..]. rewrite (ex_sent _ _ _ _ _ _ _ _ E). eapply disk_ok_mono; [done..|].
  intros k v. rewrite <- (ex_sent _ _ _ _ _ _ _ _ E). by apply vote_other.
Qed.

Lemma recovering_step X :
  prom_of n mod 100 = r2 -> (forall a pk, a ∈ X -> pk ∈ out -> ~ last_to r2 a pk) ->
  recovering m ν σ r2 n X -> recovering m' ν' σ' r2 n X.
Proof using E Hout.
  intros Ho Hc []. pose proof (ex_sent _ _ _ _ _ _ _ _ E) as Hs. split; [done|done| |done|done| | |].
  - intros v x Hp. apply (rc_noprop v x). by apply prop_other.
  - intros k v Hk Hv. apply rc_self; [done|]. by apply vote_other.
  - intros a Ha. destruct (rc_peers a Ha) as (Hr & Hp & Hq). split_and!.
    + intros k v Hk Hv. apply Hr; [done|]. by eapply vote_old.
    + pose proof (prom_mono a). lia.
    + apply quiet_step; [|done]. intros pk. by apply Hc.
  - destruct rc_unc as [?|(? & ? & x & ? & ?)]; [by left|right]. split; [done|]. split; [done|]. exists x. split; [done|].
    rewrite Hs. by apply propP_app.
Qed.

Lemma recovered_step b :
  prom_of n mod 100 = r2 -> (forall a pk, a ∈ m_quorum (n_mon n) -> a <> r2 -> pk ∈ out -> ~ last_to r2 a pk) ->
  recovered m ν σ r2 n b -> recovered m' ν' σ' r2 n b.
Proof using E Hout.
  intros Ho Hc []. split.
  - intros a Ha. specialize (rd_prom a Ha). pose proof (prom_mono a). lia.
  - intros a Ha Har. apply quiet_step; [|by apply rd_quiet]. intros pk. by apply Hc.
  - intros a k v Ha Hk Hv. eapply rd_votes; [done..|]. eapply vote_old; [by apply rd_prom|done|done].
  - intros v x Hp. eapply rd_props. by apply prop_other.
Qed.

Lemma updating_step : (forall a pk, pk ∈ out -> ~ tok r2 (prom_of n) a pk) -> updating ν σ r2 n -> updating ν' σ' r2 n.
Proof using E Hout.
  intros Hc []. pose proof (ex_sent _ _ _ _ _ _ _ _ E) as Hs. split; [done| |done| | |].
  - destruct up_value as (x & ? & ?). exists x. split; [done|]. rewrite Hs. by apply propP_app.
  - intros a Ha. destruct (up_accepted a Ha). split; [done|]. rewrite Hs. by apply voteP_app.
  - intros a. apply ss_step; [done|]. intros x y Hy _. by apply Hc.
  - intros a pk Hpk Ht. apply net_new in Hpk as [Hpk|Hpk]; [by eapply up_tok|by edestruct Hc].
Qed.

Lemma writing_step : (forall a pk, pk ∈ out -> ~ tok r2 (prom_of n) a pk) -> writing N ν σ r2 n -> writing N ν' σ' r2 n.
Proof using E Hout.
  intros Hc []. split.
  - destruct wr_value as (x & ? & ? & ?). exists x. split_and!; [done| |done].
    rewrite (ex_sent _ _ _ _ _ _ _ _ E). by apply chosenP_app.
  - intros a pk Hpk Ht. apply net_new in Hpk as [Hpk|Hpk]; [by eapply wr_tok|by edestruct Hc].
Qed.

Lemma idle_step : (forall a pk, pk ∈ out -> ~ tok r2 (prom_of n) a pk) -> idle ν r2 n -> idle ν' r2 n.
Proof using E Hout.
  intros Hc (? & ? & Hi). split_and!; [done..|].
  intros a pk Hpk. apply net_new in Hpk as [Hpk|Hpk]; [by apply Hi|by apply Hc].
Qed.

(** A leader to which no proposal or vote is sent. *)
Lemma phase_step :
  (forall a pk, pk ∈ out -> ~ tok r2 (prom_of n) a pk) ->
  (forall a pk, quiet ν r2 a -> pk ∈ out -> ~ last_to r2 a pk) ->
  prom_of n mod 100 = r2 -> phase m ν σ r2 n -> phase m' ν' σ' r2 n.
Proof using E Hout.
  intros Hc Hl Ho. unfold PaxosInv.phase. destruct (p_state (n_px n)); try done.
  1: { intros [X HX]. exists X. apply recovering_step; [done| |done]. intros a pk Ha. apply Hl. by apply HX. }
  all: intros [Hr ?]; split; [apply recovered_step; [done| |done]; intros a pk Ha Hne; apply Hl; by apply Hr|].
  all: eauto using updating_step, writing_step, idle_step.
Qed.

Lemma node_ok_step : calm r2 (prom_of n) -> node_ok m ν σ r2 n -> node_ok m' ν' σ' r2 n.
Proof using E Hout.
  intros Hc. unfold PaxosInv.node_ok. destruct (m_role (n_mon n)); [|done..].
  intros [Hs Hp]. split; [apply session_step; [|done]; intros; by eapply calm_last|].
  apply phase_step; [intros; by eapply calm_tok|intros; by eapply calm_last|by apply Hs|done].
Qed.
End other.

(** ** The invariant *)

Context (n n' : node) (Hm : m !! r = Some n) (Hm' : m' = <[r := n']> m).

Lemma out_other r2 : r2 <> r -> forall pk, pk ∈ out -> src pk = r2 -> is_inert (op (msg pk)).
Proof using E. intros Hne pk Hin Hs. destruct Hne. rewrite <- Hs. by apply E. Qed.

Lemma inv_extend :
  inv m ν σ -> rank n' = r -> m_size (n_mon n') = N ->
  (forall pk, pk ∈ out -> pkt_ok m' σ' pk) -> (forall pk, pk ∈ out -> epoch_ok m' pk) -> vinv (abs m' σ') ->
  (prom_of n' = prom_of n \/ sessP σ' (prom_of n') r) ->
  (forall p v x, propP σ' p v x -> propP σ p v x \/ exists f s, hist σ' (v - 1) f s /\ trim_ok f v x) ->
  StronglySorted coll_order ν' ->
  (forall pk, pk ∈ ν' -> op (msg pk) = OP_COLLECT -> field prom_of m' (dst pk) mod 100 = src pk ->
    field prom_of m' (dst pk) < pn (msg pk)) ->
  store_ok σ' r n' -> node_ok m' ν' σ' r n' ->
  (forall r2 n2, r2 <> r -> m !! r2 = Some n2 -> node_ok m ν σ r2 n2 -> node_ok m' ν' σ' r2 n2) ->
  inv m' ν' σ'.
Proof using E Hm Hm'.
  intros Hi Hr Hsz Hpk Hek Hvi Hprom Hprop Hord Hfresh Hst Hnd Hoth.
  pose proof (ex_sent _ _ _ _ _ _ _ _ E) as Hs.
  assert (forall a na, m' !! a = Some na -> (a = r /\ na = n') \/ (a <> r /\ m !! a = Some na)) as Hl.
  { intros a na. rewrite Hm'. destruct (decide (a = r)) as [->|Hne]; [rewrite lookup_insert_eq|rewrite lookup_insert_ne by done]; naive_solver. }
  split.
  - intros a na [[-> ->]|[_ Ha]]%Hl; [|by eapply i_dom]. split; [|done]. by eapply i_dom.
  - intros a Ha. rewrite Hm'. apply lookup_insert_is_Some'. right. by eapply i_all.
  - intros pk Hin. rewrite Hs. apply elem_of_app. apply net_new in Hin as [Hin|?]; [left; by eapply i_sub|by right].
  - done.
  - intros a. destruct (decide (a = r)) as [->|Hne].
    + unfold field. rewrite Hm', lookup_insert_eq. destruct Hprom as [->|?]; [|by right].
      pose proof (i_prom _ _ _ _ _ _ Hi r) as Hp. unfold field in Hp. rewrite Hm in Hp.
      destruct Hp as [?|?]; [by left|right]. rewrite Hs. by apply sessP_app.
    + unfold field. rewrite (ex_other _ _ _ _ _ _ _ _ E) by done.
      destruct (i_prom _ _ _ _ _ _ Hi a) as [?|?]; [by left|right]. rewrite Hs. by apply sessP_app.
  - intros pk Hin. rewrite Hs in Hin. apply elem_of_app in Hin as [Hin|Hin]; [|by apply Hpk].
    apply pkt_ok_step. by eapply i_pkt.
  - intros p v x Hx. destruct (Hprop _ _ _ Hx) as [Hx'|?]; [|done].
    destruct (i_prop _ _ _ _ _ _ Hi _ _ _ Hx') as (f & s & ? & ?). exists f, s. split; [|done].
    rewrite Hs. by apply hist_app.
  - intros pk Hin. apply net_new in Hin as [Hin|Hin]; [|by apply Hek]. apply epoch_ok_step; [done|]. by eapply i_epoch.
  - done.
  - done.
  - intros a na [[-> ->]|[Hne Ha]]%Hl; [done|]. apply store_ok_step; [by apply out_other|]. by eapply i_store.
  - intros a na [[-> ->]|[Hne Ha]]%Hl; [done|]. apply Hoth; [done..|]. by eapply i_node.
Qed.

(** A step without a promise or a vote. *)
Lemma inv_local :
  inv m ν σ -> rank n' = r -> m_size (n_mon n') = N -> prom_of n' = prom_of n ->
  (forall pk, pk ∈ out -> is_inert (op (msg pk)) /\ pkt_ok m' σ' pk) ->
  (store_ok σ' r n -> store_ok σ' r n') ->
  (node_ok m' ν' σ' r n -> node_ok m' ν' σ' r n') ->
  inv m' ν' σ'.
Proof using E Hm Hm'.
  intros Hi Hr Hsz Hp Hpk Hst Hnd. pose proof (ex_sent _ _ _ _ _ _ _ _ E) as Hs.
  assert (forall r2 pk, pk ∈ out -> src pk = r2 -> is_inert (op (msg pk))) as Hin by (intros ? pk ? _; by apply Hpk).
  assert (forall r2 p, calm r2 p) as Hcalm.
  { intros r2 p pk Hpko _. destruct (Hpk pk Hpko) as [(? & ? & ? & ?) _]. tauto. }
  assert (forall a, field prom_of m' a = field prom_of m a) as Hf.
  { intros a. unfold field. rewrite Hm'. destruct (decide (a = r)) as [->|Hne];
      [rewrite lookup_insert_eq, Hm; done|by rewrite lookup_insert_ne]. }
  apply inv_extend; try done.
  - intros pk ?. by apply Hpk.
  - intros pk Hk. destruct (Hpk pk Hk) as [(? & _ & _ & ?) _]. by split.
  - eapply vinv_equiv_1; [|by eapply i_vote]. split_and!; cbn.
    + intros a. by rewrite Hf.
    + intros a p v. split; [rewrite Hs; apply voteP_app|]. by apply vote_other, Hin.
    + intros p v x. split; [rewrite Hs; apply propP_app|]. intros (pk & Hk & Ho & Hx). rewrite Hs in Hk.
      apply elem_of_app in Hk as [Hk|Hk]; [by exists pk|]. by destruct (Hpk pk Hk) as [(_ & ? & _) _].
  - by left.
  - intros p v x (pk & Hk & Ho & Hx). rewrite Hs in Hk. left.
    apply elem_of_app in Hk as [Hk|Hk]; [by exists pk|]. by destruct (Hpk pk Hk) as [(_ & ? & _) _].
  - apply ss_step; [by eapply i_order|]. intros x y Hy _ Ho. by destruct (Hpk y Hy) as [(? & _) _].
  - intros pk Hk Ho. rewrite Hf. apply net_new in Hk as [Hk|Hk]; [by eapply i_fresh|].
    by destruct (Hpk pk Hk) as [(? & _) _].
  - apply Hst, store_ok_step; [by apply Hin|by eapply i_store].
  - apply Hnd, node_ok_step; [by apply Hin|done|by eapply i_node].
  - intros r2 n2 _ Hl Hn. apply node_ok_step; [by apply Hin|done|done].
Qed.
End step.
End frame.
