(* ===== verification/PaxosStore.v ===== *)
(** * The store of a monitor

    Committing values in order keeps [disk_ok]; [share_state] sends what a
    store holds and [store_state] commits exactly the values it lacks.  Any
    two majorities meet, and the committed values determine the state of the
    services. *)

From stdpp Require Import gmap sorting.
From S2P Require Import Prelude Paxos PaxosVote PaxosNet PaxosInv.
Open Scope Z_scope.

Lemma majority_meet N q q' : majority N q -> majority N q' -> exists a, a ∈ q /\ a ∈ q'.
Proof.
  intros [Hq Hs] [Hq' Hs']. destruct (decide (q ## q')) as [Hd|Hd].
  - exfalso. assert (q ∪ q' ⊆ list_to_set (seqZ 0 N)) as Hsub%subseteq_size.
    { intros a [Ha|Ha]%elem_of_union; apply elem_of_list_to_set, elem_of_seqZ; [apply Hq in Ha|apply Hq' in Ha]; lia. }
    rewrite size_union, size_list_to_set, length_seqZ in Hsub by (done || apply NoDup_seqZ). lia.
  - destruct (set_choose_or_empty (q ∩ q')) as [[a Ha]|He]; [set_solver|]. destruct Hd. set_solver.
Qed.

Section store.
Context {Op Svc : Type} (run_op : Op -> Svc -> Svc) (N : Z) (s0 : Svc).
Notation node := (@node Op Svc).
Notation packet := (@packet Op).
Notation chosenP := (@chosenP Op N).
Notation hist := (@hist Op Svc run_op N s0).
Notation disk_ok := (@disk_ok Op Svc run_op N s0).
Notation store_ok := (@store_ok Op Svc run_op N s0).
Notation vals_ok := (@vals_ok Op N).
Notation inv := (@inv Op Svc run_op N s0).
Notation vinv := (vinv (tx_eq run_op) (majority N)).
Notation abs := (@abs Op Svc).

(** The committed values determine the state. *)
Lemma hist_det m σ n f s f' s' : vinv (abs m σ) -> hist σ n f s -> hist σ n f' s' -> f = f' /\ s = s'.
Proof.
  intros Hv H. revert f' s'. induction H as [|n f s x H IH Hx]; intros f' s' H'.
  - inversion H' as [|n' f2 s2 x2 Hh Hc Hn]; subst; [done|]. apply hist_nonneg in Hh. lia.
  - inversion H' as [Hn|n' f2 s2 x2 Hh Hc Hn]; subst; [apply hist_nonneg in H; lia|].
    assert (n' = n) as -> by lia. destruct (IH _ _ Hh) as [<- <-].
    assert (tx_eq run_op x x2) as (Hf & Hsv & _) by (by eapply (agreement (tx_eq run_op) (majority N) (majority_meet N) (abs m σ))).
    by rewrite Hf, Hsv.
Qed.

(** ** Committing *)

Definition commit1 (d : @MonitorDBStore Op Svc) (x : list vop) : MonitorDBStore :=
  apply_tx run_op (put_version (d_last_committed d + 1) (Some x) (set_d_last_committed (d_last_committed d + 1) d)) x.

Lemma disk_step m ν σ a acc d x :
  inv m ν σ -> disk_ok σ a acc d -> chosenP σ (d_last_committed d + 1) x ->
  disk_ok σ a acc (commit1 d x) /\ d_last_committed (commit1 d x) = d_last_committed d + 1 /\
  d_last_pn (commit1 d x) = d_last_pn d.
Proof.
  intros Hi [] Hx. set (lc := d_last_committed d) in *.
  pose proof (apply_tx_spec run_op (put_version (lc + 1) (Some x) (set_d_last_committed (lc + 1) d)) x) as Hspec.
  change (apply_tx run_op _ x) with (commit1 d x) in Hspec. destruct Hspec as ([] & Hf & Hs & Hv). cbn in * |-.
  destruct Hx as (p & q & Hq & Hp & Hvt). assert (chosenP σ (lc + 1) x) as Hx by (by exists p, q).
  destruct (i_prop _ _ _ _ _ _ Hi _ _ _ Hp) as (f & s & Hh & Htr). replace (lc + 1 - 1) with lc in Hh by lia.
  destruct (hist_det _ _ _ _ _ _ _ (i_vote _ _ _ _ _ _ Hi) Hh dk_hist) as [-> ->].
  destruct Htr as ((Hle1 & Hle2) & He1 & He2 & _). clear Hvt Hq Hp Hh p q.
  assert (forall v bl, d_versions (commit1 d x) !! v = Some bl <->
    ((v = lc + 1 /\ bl = Some x) \/ (v <> lc + 1 /\ d_versions d !! v = Some bl)) /\ ~ erases x v) as Hv'.
  { intros v bl. rewrite Hv. destruct (decide (v = lc + 1)) as [->|Hne];
      [rewrite lookup_insert_eq|rewrite lookup_insert_ne by done]; naive_solver. }
  clear Hv. split; [|split; [done|by rewrite sb_last_pn]].
  split; rewrite ?sb_last_committed, ?Hf, ?Hs, ?sb_pending_v, ?sb_pending_pn.
  - lia.
  - by constructor.
  - intros v bl [[[-> ->]|[Hne Hl]] Hn]%Hv'; [lia|]. specialize (dk_range_ver v bl Hl). split; [lia|].
    destruct (decide (v < fc_after x (d_first_committed d))); [|lia]. destruct Hn. apply He2; lia.
  - intros v bl [[[-> ->]|[Hne Hl]] Hn]%Hv' Hle; [eauto|]. apply (dk_chosen v bl Hl). lia.
  - intros bl [[[Heq ->]|[Hne Hl]] Hn]%Hv'; [lia|]. specialize (dk_range_ver _ bl Hl). lia.
  - intros v H1 Hr. destruct (decide (v = lc + 1)) as [->|Hne].
    + exists (Some x). apply Hv'. split; [naive_solver|]. intros He. apply He1 in He. lia.
    + destruct (dk_cont v) as [bl Hbl]; [lia..|]. exists bl. apply Hv'. split; [naive_solver|]. intros He. apply He1 in He. lia.
  - intros k n Hk. left. destruct (dk_vote k n Hk) as [|(? & _)]; lia.
Qed.

(** The store after the values of [l] from version [c + 1] on. *)
Lemma store_values_ok m ν σ a acc mlc l : inv m ν σ -> forall d L d',
  disk_ok σ a acc d -> StronglySorted Z.lt (fst <$> l) ->
  (forall k bl, (k, bl) ∈ l -> d_last_committed d < k /\ (k <= mlc -> exists x, bl = Some x /\ chosenP σ k x)) ->
  (forall k bl v, (k, bl) ∈ l -> d_last_committed d < v <= k -> v <= mlc -> exists bl', (v, bl') ∈ l) ->
  let t := take_while (fun p => p.1 <=? mlc) l in
  store_values run_op t (set_d_last_committed L d) = Ret d' ->
  let c' := foldl (fun _ p => p.1) (d_last_committed d) t in
  exists d2, d' = set_d_last_committed L d2 /\ disk_ok σ a acc d2 /\ d_last_committed d2 = c' /\ d_last_pn d2 = d_last_pn d /\
    d_last_committed d <= c' /\ forall k bl, (k, bl) ∈ l -> k <= mlc -> k <= c'.
Proof.
  intros Hi. induction l as [|[k bl] l IH]; intros d L d' Hd Hs Hk Hc t Ht c'.
  { cbn in *. injection Ht as <-. exists d. split_and!; try done; try lia. by intros ?? []%not_elem_of_nil. }
  subst t c'. cbn [take_while fst] in *. apply StronglySorted_inv in Hs as [Hs Hf].
  destruct (Hk k bl) as [Hdk Hch]; [by left|]. destruct (Z.leb_spec k mlc) as [Hle|Hgt].
  2: { cbn in *. injection Ht as <-. exists d. split_and!; try done; try lia. intros k' bl' [[= -> ->]|Hin]%elem_of_cons Hle'; [lia|].
       eapply (list_relations.list.Forall_forall) in Hf; [|apply list_elem_of_fmap; by exists (k', bl')]. cbn in Hf. lia. }
  assert (k = d_last_committed d + 1) as ->.
  { destruct (Hc k bl (d_last_committed d + 1)) as (bl' & Hin); [by left|lia|lia|].
    apply elem_of_cons in Hin as [[= <- ->]|Hin]; [done|].
    eapply (list_relations.list.Forall_forall) in Hf; [|apply list_elem_of_fmap; by exists (d_last_committed d + 1, bl')]. cbn in Hf. lia. }
  destruct (Hch Hle) as (x & -> & Hx). destruct (disk_step _ _ _ _ _ _ _ Hi Hd Hx) as (Hd2 & Hlc2 & Hpn2).
  cbn [store_values decode_tx deref rbind] in Ht.
  assert (apply_tx run_op (put_version (d_last_committed d + 1) (Some x) (set_d_last_committed L d)) x = set_d_last_committed L (commit1 d x)) as Heq.
  { unfold commit1. rewrite <- apply_tx_set_lc. done. }
  rewrite Heq in Ht. apply IH in Ht as (d2 & -> & Hd2' & Hl2 & Hp2 & Hle2 & Hall); [|done|done| |].
  - exists d2. cbn [foldl fst]. rewrite Hlc2 in *. split_and!; [done|done|done|congruence|lia|].
    intros k' bl' [[= -> ->]|Hin]%elem_of_cons Hle'; [lia|]. by eapply Hall.
  - intros k' bl' Hin. split; [|apply Hk; by right]. rewrite Hlc2.
    eapply (list_relations.list.Forall_forall) in Hf; [|apply list_elem_of_fmap; by exists (k', bl')]. cbn in Hf. lia.
  - intros k' bl' v Hin Hv Hm. rewrite Hlc2 in Hv. destruct (Hc k' bl' v) as (b2 & Hin2); [by right|lia|lia|].
    apply elem_of_cons in Hin2 as [[= -> ->]|Hin2]; [lia|eauto].
Qed.

(** ** Learning what others have committed *)

Lemma drop_while_sorted {A} c (l : list (Z * A)) :
  StronglySorted Z.lt (fst <$> l) ->
  StronglySorted Z.lt (fst <$> drop_while (fun p => p.1 <=? c) l) /\
  forall k a, (k, a) ∈ drop_while (fun p => p.1 <=? c) l <-> (k, a) ∈ l /\ c < k.
Proof.
  induction l as [|[k a] l IH]; intros Hs; cbn [drop_while fst].
  { split; [done|]. intros k a. split; [by intros []%not_elem_of_nil|by intros [[]%not_elem_of_nil _]]. }
  pose proof Hs as Hs'. rewrite fmap_cons in Hs'. apply StronglySorted_inv in Hs' as [Ht Hf].
  destruct (Z.leb_spec k c).
  - destruct (IH Ht) as [H1 H2]. split; [done|]. intros k' a'. rewrite H2, elem_of_cons.
    split; [naive_solver|]. intros [[[= -> ->]|?] ?]; [lia|done].
  - split; [done|]. intros k' a'. split; [|naive_solver]. intros Hin. split; [done|].
    apply elem_of_cons in Hin as [[= -> ->]|Hin]; [done|].
    eapply (list_relations.list.Forall_forall) in Hf; [|apply list_elem_of_fmap; by exists (k', a')]. cbn in Hf. lia.
Qed.

(** The fields that learning values does not touch. *)
Definition ctl (n : node) :=
  (n_mon n, n_io n, n_out n, p_state (n_px n), last_pn (n_px n), accepted_pn (n_px n), num_last (n_px n), new_value (n_px n),
   accepted (n_px n), pending_proposal (n_px n), peer_last_committed (n_px n)).

Definition unc (n : node) := (uncommitted_v (n_px n), uncommitted_pn (n_px n), uncommitted_value (n_px n)).

Record learned (n n' : node) : Prop := Learned {
  le_ctl : ctl n' = ctl n;
  le_lc : lc_of n <= lc_of n';
  le_unc : unc n' = unc n \/ unc n' = (0, 0, None);
  le_unc_v : lc_of n < lc_of n' -> uncommitted_v (n_px n') = 0 \/ lc_of n' < uncommitted_v (n_px n');
  le_unc_same : lc_of n' = lc_of n -> n' = n;
}.

Lemma store_state_ok m ν σ r n ms b n' :
  inv m ν σ -> store_ok σ r n -> n_io n = None -> vals_ok σ ms -> store_state run_op ms n = Ret (b, n') ->
  store_ok σ r n' /\ learned n n' /\
  ((forall v, lc_of n < v <= msg_last_committed ms -> exists bl, (v, bl) ∈ values ms) -> msg_last_committed ms <= lc_of n').
Proof.
  intros Hi Hst Hio (Hs & Hch & Hct). unfold store_state. fold (lc_of n).
  assert (store_ok σ r n /\ learned n n) as [_ Hsame].
  { split; [done|]. split; [done|lia|by left|lia|done]. }
  destruct (match values ms with [] => false | _ => _ end) eqn:Hhead.
  { intros [= <- <-]. split_and!; [done..|]. intros Hall. destruct (Z.le_gt_cases (msg_last_committed ms) (lc_of n)); [done|].
    destruct (Hall (lc_of n + 1)) as (bl & Hin); [lia|]. destruct (values ms) as [|[v b'] l]; [done|].
    apply Z.ltb_lt in Hhead. rewrite fmap_cons in Hs. apply StronglySorted_inv in Hs as [_ Hf].
    apply elem_of_cons in Hin as [[= <- ->]|Hin]; [lia|].
    eapply (list_relations.list.Forall_forall) in Hf; [|apply list_elem_of_fmap; by exists (lc_of n + 1, bl)]. cbn in Hf. lia. }
  destruct (drop_while_sorted (lc_of n) (values ms) Hs) as [Hs2 Hin2].
  set (l2 := drop_while _ (values ms)) in *.
  assert (forall k bl v, (k, bl) ∈ l2 -> lc_of n < v <= k -> v <= msg_last_committed ms -> exists bl', (v, bl') ∈ l2) as Hct2.
  { intros k bl v Hin Hv Hm. destruct (values ms) as [|[k0 b0] l] eqn:Ev; [by apply not_elem_of_nil in Hin|].
    apply Z.ltb_ge in Hhead. destruct (Hct k0 b0 v) as (bl' & Hbl'); [by left|lia|]. exists bl'. apply Hin2. split; [done|lia]. }
  destruct (take_while _ l2) as [|e t] eqn:Et.
  { intros [= <- <-]. split_and!; [done..|]. intros Hall. destruct (Z.le_gt_cases (msg_last_committed ms) (lc_of n)); [done|].
    destruct (Hall (msg_last_committed ms)) as (bl & Hin); [lia|]. assert ((msg_last_committed ms, bl) ∈ l2) as Hl2 by (apply Hin2; split; [done|lia]).
    destruct l2 as [|[k1 b1] l2]; [by apply not_elem_of_nil in Hl2|]. cbn [take_while fst] in Et.
    destruct (Z.leb_spec k1 (msg_last_committed ms)); [done|]. rewrite fmap_cons in Hs2. apply StronglySorted_inv in Hs2 as [_ Hf].
    apply elem_of_cons in Hl2 as [[= <- ->]|Hl2]; [lia|].
    eapply (list_relations.list.Forall_forall) in Hf; [|apply list_elem_of_fmap; by exists (msg_last_committed ms, bl)]. cbn in Hf. lia. }
  rewrite <- Et in *. set (L := foldl _ _ _). intros Hr. apply rbind_Ret in Hr as (d & Hd & Hr).
  destruct Hst as [Hdk Hlc _ Hpn Hpd]. destruct Hlc as [Hlc Hfc]; [by rewrite Hio|].
  cbn [n_store upd set_n_px] in Hd.
  pose proof (store_values_ok m ν σ r (prom_of n) (msg_last_committed ms) l2 Hi (n_store n) L d Hdk Hs2) as Hsv.
  rewrite Hlc in Hsv. cbn zeta in Hsv.
  destruct Hsv as (d2 & -> & Hd2 & Hl2 & Hp2 & Hle2 & Hall2); [|done|done|].
  { intros k bl Hin. apply Hin2 in Hin as [Hin Hk]. split; [done|]. intros Hm. by apply Hch. }
  fold L in Hl2, Hle2, Hall2.
  assert (set_d_last_committed L d2 = d2) as Hd2'. { rewrite <- Hl2. by destruct d2. }
  rewrite Hd2' in Hr. apply rbind_Ret in Hr as ([] & _ & [= <- <-]).
  assert (lc_of n < L) as Hlt.
  { destruct l2 as [|[k1 b1] l2]; [done|]. cbn [take_while fst] in Et. destruct (Z.leb_spec k1 (msg_last_committed ms)); [|done].
    assert ((k1, b1) ∈ (k1, b1) :: l2) as Hk1 by by left.
    specialize (Hall2 k1 b1 Hk1). apply Hin2 in Hk1 as [_ Hk1]. lia. }
  destruct (negb _ && _) eqn:Eu.
  all: split_and!.
  all: try (split; unfold prom_of, lc_of, pn_of in *; cbn; [done|by intros|by rewrite Hio|congruence|done]).
  all: try (intros Hall; destruct (Z.le_gt_cases (msg_last_committed ms) (lc_of n)); [cbn; lia|];
    destruct (Hall (msg_last_committed ms)) as (bl & Hbl); [lia|]; eapply Hall2; [apply Hin2; split; [done|lia]|lia]).
  - split; unfold lc_of in *; cbn; [done|lia|by right|by left|lia].
  - split; unfold lc_of in *; cbn; [done|lia|by left| |lia]. intros _. apply andb_false_iff in Eu as [Eu|Eu]; [left|right]; lia.
Qed.

(** ** Sharing *)

Lemma share_loop_spec d k : forall v vals vals',
  share_loop k v d vals = Ret vals' -> StronglySorted Z.lt (fst <$> vals) -> (forall u (bl : option (list (@vop Op))), (u, bl) ∈ vals -> u < v) ->
  StronglySorted Z.lt (fst <$> vals') /\
  forall u bl, (u, bl) ∈ vals' <-> (u, bl) ∈ vals \/ (v <= u < v + Z.of_nat k /\ @d_versions Op Svc d !! u = Some bl).
Proof.
  induction k as [|k IH]; intros v vals vals'; cbn [share_loop].
  { intros [= <-] Hs Hlt. split; [done|]. intros u bl. split; [by left|]. intros [?|[? _]]; [done|lia]. }
  unfold exists_version, get_version_bl. intros Hr Hs Hlt. destruct (d_versions d !! v) as [b|] eqn:Ev.
  - apply rbind_Ret in Hr as ([] & _ & Hr). rewrite mput_end in Hr by done.
    apply IH in Hr as [H1 H2]; [|by apply ss_snoc|intros u bl [Hin|[= -> ->]%list_elem_of_singleton]%elem_of_app; [apply Hlt in Hin|]; lia].
    split; [done|]. intros u bl. rewrite H2, elem_of_app, list_elem_of_singleton. split.
    + intros [[?|[= -> ->]]|[? ?]]; [by left|right; split; [lia|done]|right; split; [lia|done]].
    + intros [?|[? Hu]]; [by left; left|]. destruct (decide (u = v)) as [->|]; [left; right; congruence|right; split; [lia|done]].
  - apply IH in Hr as [H1 H2]; [|done|intros u bl Hin%Hlt; lia]. split; [done|]. intros u bl. rewrite H2. split.
    + intros [?|[? ?]]; [by left|right; split; [lia|done]].
    + intros [?|[? Hu]]; [by left|]. destruct (decide (u = v)) as [->|]; [congruence|right; split; [lia|done]].
Qed.

Lemma share_state_spec (n : node) ms plc ms' :
  share_state n ms plc = Ret ms' -> values ms = [] ->
  plc < lc_of n /\ exists vals, ms' = set_msg_last_committed (lc_of n) (set_values vals ms) /\
    StronglySorted Z.lt (fst <$> vals) /\
    forall u bl, (u, bl) ∈ vals <-> plc < u <= lc_of n /\ d_versions (n_store n) !! u = Some bl.
Proof.
  unfold share_state. fold (lc_of n). intros Hr Hv. apply rbind_Ret in Hr as ([] & Ha & Hr).
  unfold rassert in Ha. destruct (Z.ltb_spec plc (lc_of n)); [|done]. split; [done|].
  apply rbind_Ret in Hr as (vals & Hl & [= <-]). rewrite Hv in Hl. exists vals.
  apply share_loop_spec in Hl as [H1 H2]; [|by constructor|by intros ?? []%not_elem_of_nil].
  split_and!; [done..|]. intros u bl. rewrite H2. split; [intros [[]%not_elem_of_nil|[? ?]]; split; [lia|done]|].
  intros [? ?]. right. split; [lia|done].
Qed.

(** The versions of a store from [plc + 1] on are committed values without
    gaps. *)
Lemma shared_ok σ a acc d plc (vals : list (Z * option (list (@vop Op)))) :
  disk_ok σ a acc d ->
  (forall u bl, (u, bl) ∈ vals <-> plc < u <= d_last_committed d /\ d_versions d !! u = Some bl) ->
  (forall k bl, (k, bl) ∈ vals -> exists x, bl = Some x /\ chosenP σ k x) /\
  (forall k bl v, (k, bl) ∈ vals -> k <= v <= d_last_committed d -> exists bl', (v, bl') ∈ vals).
Proof.
  intros [] Hv. split.
  - intros k bl [Hk Hl]%Hv. apply (dk_chosen k bl Hl). lia.
  - intros k bl v [Hk Hl]%Hv Hr. apply dk_range_ver in Hl. destruct (dk_cont v) as [bl' Hb]; [lia..|].
    exists bl'. apply Hv. split; [lia|done].
Qed.
End store.
