(* ===== verification/PaxosSteps.v ===== *)
(** * Steps of a monitor that keep the invariant

    A monitor [r] runs an operation in a cluster whose other monitors, and
    the messages it has not sent itself, are fixed.  [W n] says that the
    invariant holds with the state [n] of the monitor in place, the messages
    of [n_out n] sent.  Here are the operations that involve no promise and no
    vote. *)

From stdpp Require Import gmap sorting.
From S2P Require Import Prelude Paxos PaxosVote PaxosNet PaxosInv PaxosFrame PaxosStore.
Open Scope Z_scope.

(** What the invariant depends on, apart from the messages and the pending
    proposal. *)
Definition core {Op Svc} (n : @node Op Svc) :=
  let p := n_px n in
  (n_mon n, n_store n, n_io n, p_state p, first_committed p, last_pn p, last_committed p, accepted_pn p, num_last p,
   (uncommitted_v p, uncommitted_pn p, uncommitted_value p, new_value p, accepted p)).

Lemma core_fields {Op Svc} (n n' : @node Op Svc) : core n = core n' ->
  n_mon n = n_mon n' /\ n_io n = n_io n' /\ p_state (n_px n) = p_state (n_px n') /\ n_store n = n_store n'.
Proof. unfold core. intros H. injection H. intros. done. Qed.

(** Destructs two nodes with the same [core]. *)
Ltac same_core H :=
  match type of H with
  | core ?n = core ?n' =>
      destruct n as [? [] ? ? ?], n' as [? [] ? ? ?]; unfold core in H; cbn in H; injection H as; subst
  end.

Section steps.
Context {Op Svc : Type} (run_op : Op -> Svc -> Svc) (cfg : config) (N : Z) (s0 : Svc).
Notation node := (@node Op Svc).
Notation packet := (@packet Op).
Notation sessP := (@sessP Op).
Notation chosenP := (@chosenP Op N).
Notation hist := (@hist Op Svc run_op N s0).
Notation disk_ok := (@disk_ok Op Svc run_op N s0).
Notation store_ok := (@store_ok Op Svc run_op N s0).
Notation vals_ok := (@vals_ok Op N).
Notation pkt_ok := (@pkt_ok Op Svc N).
Notation session := (@session Op Svc N).
Notation phase := (@phase Op Svc N).
Notation node_ok := (@node_ok Op Svc N).
Notation inv := (@inv Op Svc run_op N s0).
Notation vinv := (vinv (tx_eq run_op) (majority N)).
Notation abs := (@abs Op Svc).

Definition services (t : list (@vop Op)) : Prop := forall o, o ∈ t -> exists o', o = ServiceOp o'.

Lemma core_store σ r (n n' : node) :
  core n = core n' -> (forall t, pending_proposal (n_px n') = Some t -> services t) -> store_ok σ r n -> store_ok σ r n'.
Proof. intros H. same_core H. intros Hpd []. by split. Qed.

Lemma core_session ν σ r (n n' : node) : core n = core n' -> session ν σ r n -> session ν σ r n'.
Proof. intros H. same_core H. intros []. by split. Qed.

Lemma core_recovering m ν σ r (n n' : node) X : core n = core n' -> recovering m ν σ r n X -> recovering m ν σ r n' X.
Proof. intros H. same_core H. intros []. by split. Qed.

Lemma core_recovered m ν σ r (n n' : node) b : core n = core n' -> recovered m ν σ r n b -> recovered m ν σ r n' b.
Proof. intros H. same_core H. intros []. by split. Qed.

Lemma core_phase m ν σ r (n n' : node) : core n = core n' -> phase m ν σ r n -> phase m ν σ r n'.
Proof.
  intros H. pose proof (core_recovering m ν σ r n n') as Hrc. pose proof (core_recovered m ν σ r n n') as Hrd.
  unfold PaxosInv.phase, idle. assert (p_state (n_px n) = p_state (n_px n')) as Heq by (unfold core in H; congruence).
  rewrite <- Heq. destruct (p_state (n_px n)); try done; [intros [X HX]; exists X; by apply Hrc|..].
  all: assert (lc_of n = lc_of n') as <- by (unfold core, lc_of in *; congruence).
  all: intros [? Hp]; split; [by apply Hrd|]; clear Hrc Hrd.
  all: same_core H; first [exact Hp|destruct Hp; by split].
Qed.

Lemma core_node m ν σ r (n n' : node) : core n = core n' -> node_ok m ν σ r n -> node_ok m ν σ r n'.
Proof.
  intros H. pose proof (core_session ν σ r n n' H). pose proof (core_phase m ν σ r n n' H).
  unfold PaxosInv.node_ok, not_writing.
  assert (n_mon n = n_mon n' /\ n_io n = n_io n' /\ p_state (n_px n) = p_state (n_px n') /\ prom_of n = prom_of n') as (-> & -> & -> & ->)
    by (unfold core, prom_of in *; split_and!; congruence).
  destruct (m_role (n_mon n')); [|done..]. intros [? ?]. split; auto.
Qed.

Context (m0 : gmap Z node) (ν0 σ0 : list packet) (r : Z).

Definition M (n : node) : gmap Z node := <[r := n]> m0.
Definition net_ (n : node) : list packet := ν0 ++ n_out n.
Definition sent_ (n : node) : list packet := σ0 ++ n_out n.
Definition W (n : node) : Prop := inv (M n) (net_ n) (sent_ n).

Lemma field_self f n : field f (M n) r = f n.
Proof. unfold field, M. by rewrite lookup_insert_eq. Qed.

Lemma W_rank n : W n -> 0 <= r < N /\ rank n = r /\ m_size (n_mon n) = N.
Proof. intros Hw. eapply i_dom; [done|]. apply lookup_insert_eq. Qed.

Lemma W_store n : W n -> store_ok (sent_ n) r n.
Proof. intros Hw. eapply i_store; [done|]. apply lookup_insert_eq. Qed.

Lemma W_node n : W n -> node_ok (M n) (net_ n) (sent_ n) r n.
Proof. intros Hw. eapply i_node; [done|]. apply lookup_insert_eq. Qed.

(** ** Messages *)

Lemma elem_bcast m (n : node) pk :
  pk ∈ n_out (bcast m n) <-> pk ∈ n_out n \/ exists a, a ∈ m_quorum (n_mon n) /\ a <> rank n /\ pk = Packet (rank n) a m.
Proof.
  unfold bcast. cbn. rewrite elem_of_app, list_elem_of_fmap. apply or_iff_compat_l. split.
  - intros (a & -> & [Hne Hin]%list_elem_of_filter). exists a. split_and!; [|done..].
    by rewrite merge_sort_Permutation, elem_of_elements in Hin.
  - intros (a & Hin & Hne & ->). exists a. split; [done|]. apply list_elem_of_filter. split; [done|].
    by rewrite merge_sort_Permutation, elem_of_elements.
Qed.

Definition bcast_out m (n : node) : list packet :=
  (fun p => Packet (rank n) p m) <$> filter (fun p => p <> rank n) (merge_sort Z.le (elements (m_quorum (n_mon n)))).

Lemma elem_bcast_out m (n : node) pk :
  pk ∈ bcast_out m n <-> exists a, a ∈ m_quorum (n_mon n) /\ a <> rank n /\ pk = Packet (rank n) a m.
Proof.
  pose proof (elem_bcast m (set_n_out [] n) pk) as H. cbn in H. unfold bcast_out. rewrite H.
  split; [intros [[]%not_elem_of_nil|?]; done|by right].
Qed.

(** ** A step that sends nothing of importance *)

Lemma W_extends n n' out :
  W n -> n_out n' = n_out n ++ out -> prom_of n <= prom_of n' -> lc_of n <= lc_of n' -> pn_of n <= pn_of n' ->
  ep_of n <= ep_of n' -> (forall pk, pk ∈ out -> src pk = r) ->
  (forall pk, pk ∈ out -> op (msg pk) = OP_ACCEPT \/ op (msg pk) = OP_BEGIN -> prom_of n <= pn (msg pk)) ->
  (forall pk, pk ∈ out -> op (msg pk) = OP_BEGIN \/ op (msg pk) = OP_COLLECT -> pn (msg pk) mod 100 = r) ->
  extends r (M n) (net_ n) (sent_ n) (M n') (net_ n') (sent_ n') out.
Proof.
  intros Hw Ho H1 H2 H3 H4 H5 H6 H7. split; rewrite ?field_self; try done.
  - unfold sent_. by rewrite Ho, (assoc_L (++)).
  - exists (net_ n). split; [done|]. unfold net_. by rewrite Ho, (assoc_L (++)).
  - intros a Hne. unfold M. by rewrite !lookup_insert_ne.
  - by left.
Qed.

Lemma W_local n n' out :
  W n -> n_out n' = n_out n ++ out -> rank n' = rank n -> m_size (n_mon n') = m_size (n_mon n) -> prom_of n' = prom_of n ->
  lc_of n <= lc_of n' -> pn_of n <= pn_of n' -> ep_of n <= ep_of n' ->
  (forall pk, pk ∈ out -> src pk = r /\ is_inert (op (msg pk)) /\ pkt_ok (M n') (sent_ n') pk) ->
  (store_ok (sent_ n') r n -> store_ok (sent_ n') r n') ->
  (node_ok (M n') (net_ n') (sent_ n') r n -> node_ok (M n') (net_ n') (sent_ n') r n') ->
  W n'.
Proof.
  intros Hw Ho Hr Hsz Hp Hlc Hpn Hep Hpk Hst Hnd. destruct (W_rank n Hw) as (? & ? & ?).
  eapply (inv_local run_op N s0 r (M n) (net_ n) (sent_ n) (M n') (net_ n') (sent_ n') out).
  - apply W_extends; try done; [lia| | |].
    + intros pk Hin. by apply Hpk.
    + intros pk Hin [Hb|Hb]; destruct (Hpk pk Hin) as (_ & (? & ? & ? & ?) & _); done.
    + intros pk Hin [Hb|Hb]; destruct (Hpk pk Hin) as (_ & (? & ? & ? & ?) & _); done.
  - apply lookup_insert_eq.
  - unfold M. by rewrite insert_insert_eq.
  - done.
  - congruence.
  - congruence.
  - done.
  - intros pk Hin. split; by apply Hpk.
  - done.
  - done.
Qed.

(** The fields of the invariant are unchanged. *)
Lemma W_core n n' out :
  W n -> n_out n' = n_out n ++ out -> core n = core n' ->
  pending_proposal (n_px n') = pending_proposal (n_px n) \/ (forall t, pending_proposal (n_px n') = Some t -> services t) ->
  (forall pk, pk ∈ out -> src pk = r /\ is_inert (op (msg pk)) /\ pkt_ok (M n') (sent_ n') pk) -> W n'.
Proof.
  intros Hw Ho Hc Hpd Hpk.
  assert (n_mon n = n_mon n' /\ prom_of n' = prom_of n /\ lc_of n = lc_of n' /\ pn_of n = pn_of n') as (Hm & ? & ? & ?)
    by (unfold core in Hc; split_and!; unfold prom_of, lc_of, pn_of; congruence).
  apply (W_local n n' out); try done.
  - unfold rank. by rewrite Hm.
  - by rewrite Hm.
  - lia.
  - lia.
  - unfold ep_of. by rewrite Hm.
  - apply core_store; [done|]. destruct Hpd as [->|Hpd]; [|done]. by destruct (W_store n Hw).
  - by apply core_node.
Qed.

Lemma W_core_nil n n' :
  W n -> n_out n' = n_out n -> core n = core n' ->
  pending_proposal (n_px n') = pending_proposal (n_px n) \/ (forall t, pending_proposal (n_px n') = Some t -> services t) -> W n'.
Proof.
  intros Hw Ho Hc Hpd. apply (W_core n n' []); [done|by rewrite app_nil_r|done|done|]. by intros ? []%not_elem_of_nil.
Qed.

(** ** Leaders *)

Lemma W_leader n :
  W n -> is_leader n = true ->
  m_role (n_mon n) = Leader /\ session (net_ n) (sent_ n) r n /\ phase (M n) (net_ n) (sent_ n) r n.
Proof. intros Hw Hl%bool_decide_eq_true_1. pose proof (W_node n Hw) as Hn. unfold PaxosInv.node_ok in Hn. by rewrite Hl in Hn. Qed.

Lemma io_none n : W n -> is_writing n = false -> is_writing_previous n = false -> n_io n = None.
Proof.
  intros Hw H1%bool_decide_eq_false_1 H2%bool_decide_eq_false_1. pose proof (W_node n Hw) as Hn.
  unfold PaxosInv.node_ok in Hn. destruct (m_role (n_mon n)); [|by destruct Hn as [[? _] _]|by destruct Hn as [? _]..].
  destruct Hn as [_ Hp]. unfold PaxosInv.phase in Hp. destruct (p_state (n_px n)); try done.
  - destruct Hp as [X []]. done.
  - by destruct Hp as [_ (_ & ? & _)].
  - by destruct Hp as [_ []].
  - by destruct Hp as [_ []].
  - by destruct Hp as [_ (_ & ? & _)].
Qed.

(** Up to which version a leader past recovery knows the votes. *)
Definition phase_bound (st : state) (lc : Z) : Z :=
  match st with STATE_ACTIVE | STATE_REFRESH => lc | _ => lc + 1 end.

Lemma phase_recovered m ν σ n :
  phase m ν σ r n -> p_state (n_px n) <> STATE_RECOVERING -> recovered m ν σ r n (phase_bound (p_state (n_px n)) (lc_of n)).
Proof. unfold PaxosInv.phase. intros Hp Hne. destruct (p_state (n_px n)); try done; by destruct Hp. Qed.

(** A message of a leader to its quorum. *)
Lemma pkt_ok_bcast n m n' pk :
  rank n = r -> pk ∈ bcast_out m n ->
  (forall a, a ∈ m_quorum (n_mon n) -> a <> r -> pkt_ok (M n') (sent_ n') (Packet r a m)) -> pkt_ok (M n') (sent_ n') pk.
Proof. intros Hr (a & Ha & Hne & ->)%elem_bcast_out Hb. rewrite Hr in *. by apply Hb. Qed.

Lemma extend_lease_ok now n n' : W n -> extend_lease cfg now n = Ret n' -> W n' /\ core n' = core n /\ pending_proposal (n_px n') = pending_proposal (n_px n).
Proof.
  intros Hw H. unfold extend_lease in H. rinv H. injection H as <-. unfold rassert in E.
  destruct (is_leader n) eqn:Hl; [|done]. split; [|done]. destruct (W_rank n Hw) as (_ & Hr & _).
  eapply (W_core n); [done|reflexivity|done|by left|]. intros pk Hin. split_and!.
  - apply elem_bcast_out in Hin as (b & _ & _ & ->). done.
  - apply elem_bcast_out in Hin as (b & _ & _ & ->). done.
  - eapply pkt_ok_bcast; [|exact Hin|]; done.
Qed.

(** ** Leaving the quorum *)

Lemma finish_contexts_eq l p :
  finish_contexts (Op := Op) l p = set_trimming (if bool_decide (C_Trimmed ∈ l) then false else trimming p) p.
Proof. unfold finish_contexts. case_bool_decide; [done|]. by destruct p. Qed.

Lemma reset_ok st n : in_quorum st = false -> W n -> n_io n = None -> W (reset st n).
Proof.
  intros Hst Hw Hio. unfold reset, restart, upd, reset_pending_committing_finishers. rewrite finish_contexts_eq.
  eapply (W_local n _ []); [done|by rewrite app_nil_r|done..| | |].
  - by intros ? []%not_elem_of_nil.
  - intros []. split; try done.
  - intros _. unfold PaxosInv.node_ok. cbn. by destruct st.
Qed.

(** ** Writing *)

Lemma written_state n : W n -> n_io n <> None ->
  m_role (n_mon n) = Leader /\ (p_state (n_px n) = STATE_WRITING \/ p_state (n_px n) = STATE_WRITING_PREVIOUS) /\
  session (net_ n) (sent_ n) r n /\ recovered (M n) (net_ n) (sent_ n) r n (lc_of n + 1) /\ writing N (net_ n) (sent_ n) r n.
Proof.
  intros Hw Hio. pose proof (W_node n Hw) as Hn. pose proof (io_none n Hw) as Hnone.
  unfold is_writing, is_writing_previous, in_state in Hnone.
  assert (p_state (n_px n) = STATE_WRITING \/ p_state (n_px n) = STATE_WRITING_PREVIOUS) as Hst.
  { destruct (p_state (n_px n)); try (by left); try (by right); by destruct Hio; apply Hnone. }
  unfold PaxosInv.node_ok in Hn. destruct (m_role (n_mon n)); [|by destruct Hn as [[? _] _]|by destruct Hn as [? _]..].
  destruct Hn as [Hs Hp]. unfold PaxosInv.phase in Hp. destruct Hst as [Hst|Hst]; rewrite Hst in Hp; naive_solver.
Qed.

Lemma put_version_id v bl (d : @MonitorDBStore Op Svc) : d_versions d !! v = Some bl -> put_version v bl d = d.
Proof. intros H. unfold put_version. rewrite insert_id by done. by destruct d. Qed.

Lemma flush_ok n : W n -> W (flush run_op n).
Proof.
  intros Hw. unfold flush. destruct (n_io n) as [[v t|]|] eqn:Hio; [|done..].
  destruct (written_state n Hw) as (Hrole & Hst & Hs & Hrd & [(x & Hx & Hch & [Hio'|[Hio' Hver]]) Htok]); [by rewrite Hio|congruence|].
  rewrite Hio in Hio'. injection Hio' as -> ->. pose proof (W_store n Hw) as [Hdk Hlc _ Hpn Hpd].
  destruct Hlc as [Hlc Hfc]; [by rewrite Hio|].
  pose proof (disk_step run_op N s0 _ _ _ _ _ _ x Hw Hdk) as Hd. rewrite Hlc in Hd. destruct (Hd Hch) as (Hd' & Hlc' & Hpn'). clear Hd.
  assert (commit1 run_op (n_store n) x = apply_tx run_op (set_d_last_committed (lc_of n + 1) (n_store n)) x) as Hc.
  { unfold commit1. rewrite Hlc. by rewrite put_version_id. }
  rewrite Hc in *.
  apply (W_local n _ []); [done|by rewrite app_nil_r|try done..].
  - by intros ? []%not_elem_of_nil.
  - intros _. split; [done|by intros []|done| |done]. change (d_last_pn (apply_tx run_op (set_d_last_committed (lc_of n + 1) (n_store n)) x) = pn_of n). congruence.
  - unfold PaxosInv.node_ok. cbn. rewrite Hrole. intros [Hs' Hp]. split; [destruct Hs'; by split|].
    unfold PaxosInv.phase in *. cbn. destruct Hst as [Hst|Hst]; rewrite Hst in *; destruct Hp as [Hr [Hv Ht]]; (split; [destruct Hr; by split|]);
      (split; [|done]); exists x; (split_and!; [done|exact Hch|by left]).
Qed.

Lemma commit_start_ok n n' :
  W n -> is_leader n = true -> is_updating n || is_updating_previous n = true -> accepted (n_px n) = m_quorum (n_mon n) ->
  commit_start n = Ret n' -> W n'.
Proof.
  intros Hw Hl Hu Hacc H. destruct (W_leader n Hw Hl) as (Hrole & Hs & Hp). unfold commit_start in H. rinv H.
  assert (recovered (M n) (net_ n) (sent_ n) r n (lc_of n + 1) /\ updating (net_ n) (sent_ n) r n) as [Hrd Hup].
  { unfold PaxosInv.phase in Hp. apply orb_true_iff in Hu as [Hu%bool_decide_eq_true_1|Hu%bool_decide_eq_true_1]; by rewrite Hu in Hp. }
  assert (new_value (n_px n) = Some a) as Hnv by (unfold decode_tx, deref in E; destruct (new_value (n_px n)); congruence).
  destruct Hup as [Hio (x & Hx & Hpr) Hver Hac _ Htok]. rewrite Hnv in Hx. injection Hx as <-. rewrite Hnv in Hver.
  assert (chosenP (sent_ n) (lc_of n + 1) a) as Hch.
  { exists (prom_of n), (m_quorum (n_mon n)). split_and!; [by apply Hs|done|]. intros b Hb. apply Hac. by rewrite Hacc. }
  assert (forall b pk, pk ∈ net_ n -> ~ tok r (prom_of n) b pk) as Hnt.
  { intros b pk Hin Ht. destruct (Htok b pk Hin Ht) as (_ & Hna & Hq). by rewrite Hacc in Hna. }
  assert (exists st b, (st = STATE_WRITING \/ st = STATE_WRITING_PREVIOUS) /\
    n' = upd (set_accept_timeout_event b) (upd (fun p => set_commits_started (commits_started p + 1) p)
           (upd (set_p_state st) (set_n_io (Some (Queued (lc_of n + 1) a)) n)))) as (st & b & Hst & ->).
  { clear -H. change (is_updating_previous (set_n_io _ n)) with (is_updating_previous n) in H.
    change (is_updating (set_n_io _ n)) with (is_updating n) in H.
    destruct (is_updating_previous n); [|destruct (is_updating n); [|done]]; cbn [rbind] in H; injection H as <-;
      [exists STATE_WRITING_PREVIOUS|exists STATE_WRITING].
    all: exists (if 1 <? quorum_size n then false else accept_timeout_event (n_px n)); split; [eauto|].
    all: destruct n as [? [] ? ? ?]; unfold quorum_size; cbn; by destruct (1 <? _). }
  apply (W_local n _ []); [done|by rewrite app_nil_r|try done..].
  - by intros ? []%not_elem_of_nil.
  - intros [Hdk Hlc _ Hpn Hpd]. split; try done. intros _. apply Hlc. by rewrite Hio.
  - unfold PaxosInv.node_ok. cbn. rewrite Hrole. intros [Hs' Hp']. split; [destruct Hs'; by split|].
    assert (phase_bound (p_state (n_px n)) (lc_of n) = lc_of n + 1) as Hb.
    { clear -Hu. apply orb_true_iff in Hu as [Hu%bool_decide_eq_true_1|Hu%bool_decide_eq_true_1]; by rewrite Hu. }
    apply phase_recovered in Hp'; [|clear -Hu; apply orb_true_iff in Hu as [Hu%bool_decide_eq_true_1|Hu%bool_decide_eq_true_1]; by rewrite Hu].
    rewrite Hb in Hp'. unfold PaxosInv.phase. cbn. destruct Hst as [-> | ->]; (split; [destruct Hp'; by split|]);
      (split; [|done]); exists a; (split_and!; [done|done|right; done]).
Qed.

(** [ν1] is the network before the delivery of the answer. *)
Lemma handle_accept_ok n n' ms from :
  W n -> is_leader n = true -> voteP (sent_ n) from (pn ms) (msg_last_committed ms + 1) ->
  (updating (net_ n) (sent_ n) r n -> pn ms = prom_of n ->
    msg_last_committed ms = lc_of n /\ from ∈ m_quorum (n_mon n) /\ forall pk, pk ∈ net_ n -> ~ tok r (prom_of n) from pk) ->
  handle_accept ms from n = Ret n' -> W n'.
Proof.
  intros Hw Hl Hv Htk H. unfold handle_accept in H. fold (prom_of n) (lc_of n) in H.
  destruct (Z.eqb_spec (pn ms) (prom_of n)) as [Hpn|]; cbn [negb] in H; [|by injection H as <-].
  destruct ((0 <? lc_of n) && _); [by injection H as <-|]. rinv H. rinv H. rinv H.
  unfold rassert in E0, E1. destruct (is_updating n || is_updating_previous n) eqn:Hu; [|done].
  destruct (bool_decide (from ∉ accepted (n_px n))) eqn:Hf; [|done]. clear E E0 E1.
  destruct (W_leader n Hw Hl) as (Hrole & Hs & Hp).
  assert (recovered (M n) (net_ n) (sent_ n) r n (lc_of n + 1) /\ updating (net_ n) (sent_ n) r n) as [Hrd Hup].
  { unfold PaxosInv.phase in Hp. apply orb_true_iff in Hu as [Hu%bool_decide_eq_true_1|Hu%bool_decide_eq_true_1]; by rewrite Hu in Hp. }
  destruct (Htk Hup Hpn) as (Hmlc & Hq & Hnt). rewrite Hpn, Hmlc in Hv.
  set (n1 := upd _ n) in H. assert (W n1) as Hw1.
  { apply (W_local n _ []); [done|by rewrite app_nil_r|try done..].
    - by intros ? []%not_elem_of_nil.
    - intros []. by split.
    - unfold PaxosInv.node_ok. cbn. rewrite Hrole. intros [Hs' Hp']. split; [destruct Hs'; by split|].
      unfold PaxosInv.phase in *. cbn. clear Hrd Hp. apply orb_true_iff in Hu as [Hu%bool_decide_eq_true_1|Hu%bool_decide_eq_true_1]; rewrite Hu in *.
      all: destruct Hp' as [Hrd _]; split; [destruct Hrd; by split|]; destruct Hup as [? ? ? Hac Honce Htok]; split; [done..| |done|].
      1,3: intros b; cbn; intros [->%elem_of_singleton|Hb]%elem_of_union; [by split|by apply Hac].
      all: intros b pk Hin Ht; destruct (Htok b pk Hin Ht) as (? & ? & ?); split_and!; [done| |done];
        cbn; intros [->%elem_of_singleton|Hb]%elem_of_union; [by eapply Hnt|done]. }
  destruct (bool_decide (accepted (n_px n1) = _)) eqn:Hall; [|by injection H as <-].
  apply bool_decide_eq_true_1 in Hall. by eapply commit_start_ok.
Qed.

(** ** Learning and sharing *)

Lemma ctl_fields (n n' : node) : ctl n' = ctl n ->
  n_mon n' = n_mon n /\ n_io n' = n_io n /\ n_out n' = n_out n /\ p_state (n_px n') = p_state (n_px n) /\
  prom_of n' = prom_of n /\ pn_of n' = pn_of n /\ num_last (n_px n') = num_last (n_px n) /\ new_value (n_px n') = new_value (n_px n).
Proof. unfold ctl, prom_of, pn_of. intros H. split_and!; congruence. Qed.

Lemma recovering_learned m ν σ (n n' : node) X :
  learned n n' -> 0 <= lc_of n -> recovering m ν σ r n X -> recovering m ν σ r n' X.
Proof.
  intros [Hc Hlc Hu Huv Hsame] Hnn []. destruct (decide (lc_of n' = lc_of n)) as [Heq|Hne]; [by rewrite (Hsame Heq)|].
  apply ctl_fields in Hc as (Hm & Hio & Ho & Hst & Hp & Hpn & Hnum & Hnv).
  assert (forall a, reported σ n a -> reported σ n' a) as Hrep.
  { intros a Hr k v Hk Hv. rewrite Hp in Hk. left. destruct (Hr k v Hk Hv) as [?|(? & _)]; lia. }
  split; rewrite ?Hm, ?Hio, ?Hp, ?Hnum, ?Hnv; try done.
  - by apply Hrep.
  - intros a Ha. destruct (rc_peers a Ha) as (? & ? & ?). split_and!; [by apply Hrep|done|done].
  - unfold unc_ok. unfold lc_of, unc in *. destruct Hu as [[= H1 H2 H3]|[= H1 H2 H3]]; [|by left].
    rewrite H1 in *. rewrite H2 in *. destruct rc_unc as [?|(Hv & _)]; [by left|]. destruct Huv as [Huv|Huv]; lia.
Qed.

Lemma learn_ok n ms b n' :
  W n -> n_io n = None -> vals_ok (sent_ n) ms ->
  m_role (n_mon n) = Peon \/ (m_role (n_mon n) = Leader /\ p_state (n_px n) = STATE_RECOVERING) ->
  store_state run_op ms n = Ret (b, n') ->
  W n' /\ learned n n' /\
  ((forall v, lc_of n < v <= msg_last_committed ms -> exists bl, (v, bl) ∈ values ms) -> msg_last_committed ms <= lc_of n').
Proof.
  intros Hw Hio Hv Hrole H. pose proof (W_store n Hw) as Hst.
  destruct (store_state_ok _ _ _ _ _ _ _ _ _ _ _ Hw Hst Hio Hv H) as (Hst' & Hle & Hcov). split_and!; [|done..].
  pose proof Hle as [Hc Hlc _ _ _]. apply ctl_fields in Hc as (Hm & Hio' & Ho & Hs & Hp & Hpn & _ & _).
  assert (sent_ n' = sent_ n /\ net_ n' = net_ n) as [Hsn Hnn] by (unfold sent_, net_; by rewrite Ho).
  assert (0 <= lc_of n) as H0.
  { destruct Hst as [[? _ _ _ _ _ _] Hl _ _ _]. destruct Hl as [<- _]; [by rewrite Hio|lia]. }
  apply (W_local n n' []); rewrite ?Hsn, ?Hnn; try done.
  - by rewrite Ho, app_nil_r.
  - unfold rank. by rewrite Hm.
  - by rewrite Hm.
  - lia.
  - unfold ep_of. by rewrite Hm.
  - by intros ? []%not_elem_of_nil.
  - unfold PaxosInv.node_ok, not_writing. rewrite Hm, Hio', Hs, Hp. destruct Hrole as [->|[-> Hr]]; [done|]. intros [[] Hph].
    split; [split; unfold ep_of in *; rewrite ?Hm, ?Hp, ?Hpn; done|]. unfold PaxosInv.phase in *. rewrite Hs. rewrite Hr in *.
    destruct Hph as [X HX]. exists X. by eapply recovering_learned.
Qed.

Lemma catch_up_ok l : forall n b n',
  W n -> m_role (n_mon n) = Leader -> n_io n = None -> catch_up l n = Ret (b, n') ->
  W n' /\ core n' = core n /\ exists out, n_out n' = n_out n ++ out /\ forall pk, pk ∈ out -> src pk = r /\ op (msg pk) = OP_COMMIT.
Proof.
  induction l as [|[p lc] l IH]; intros n b n' Hw Hrole Hio; cbn [catch_up].
  { intros [= <- <-]. split_and!; [done..|]. exists []. split; [by rewrite app_nil_r|]. by intros ? []%not_elem_of_nil. }
  destruct (_ && _).
  { intros [= <- <-]. split_and!; [done..|]. exists []. split; [by rewrite app_nil_r|]. by intros ? []%not_elem_of_nil. }
  destruct (Z.ltb_spec lc (last_committed (n_px n))); cbn [rbind]; [|by apply IH].
  intros H'. rinv H'. rinv E. injection E as <-. rename a0 into ms, E0 into Hsh.
  apply share_state_spec in Hsh as (_ & vals & -> & Hsorted & Hvals); [|done].
  set (n1 := send p _ n) in *. assert (W n1) as Hw1.
  { destruct (W_rank n Hw) as (_ & Hr & _).
    pose proof (W_store n Hw) as [Hdk Hlc _ _ _]. destruct Hlc as [Hlc _]; [by rewrite Hio|].
    eapply (W_core n); [done|reflexivity|done|by left|]. intros pk ->%list_elem_of_singleton. split_and!; [done..|].
    unfold PaxosInv.pkt_ok. cbn. unfold sent_. cbn. rewrite (assoc_L (++)). apply vals_ok_app.
    rewrite <- Hlc in Hvals. destruct (shared_ok _ _ _ _ _ _ _ _ _ Hdk Hvals) as [Hch Hct].
    split_and!; cbn; [done| |].
    - intros k bl Hin _. by eapply Hch.
    - intros k bl v Hin Hk. eapply Hct; [done|]. by rewrite Hlc. }
  apply IH in H' as (Hw' & Hc & out & Ho & Hout); [|done..]. split_and!; [done|done|].
  eexists (_ :: out). rewrite Ho. cbn. rewrite <- (assoc_L (++)). cbn. split; [reflexivity|].
  intros pk [->|Hin]%elem_of_cons; [|by apply Hout]. split; [|done]. by apply (W_rank n Hw).
Qed.

(** ** Messages to a peon *)

Lemma handle_commit_ok nb n n' ms : W n -> vals_ok (sent_ n) ms -> handle_commit run_op nb ms n = Ret n' -> W n'.
Proof.
  intros Hw Hv H. unfold handle_commit in H. rinv H. rinv H. destruct a0 as [b n1]. injection H as <-.
  unfold rassert in E. destruct (is_peon n) eqn:Hp; [|done]. apply bool_decide_eq_true_1 in Hp.
  assert (n_io n = None) as Hio.
  { pose proof (W_node n Hw) as Hn. unfold PaxosInv.node_ok in Hn. rewrite Hp in Hn. by destruct Hn as [[? _] _]. }
  destruct (learn_ok _ _ _ _ Hw Hio Hv (or_introl Hp) E0) as (Hw1 & [Hc _ _ _ _] & _).
  unfold do_refresh. destruct nb; [|done]. apply reset_ok; [done..|]. apply ctl_fields in Hc as (_ & -> & _). done.
Qed.

Lemma handle_lease_ok n n' (ms : @MMonPaxos Op) from :
  W n -> handle_lease ms from n = Ret n' -> W n'.
Proof.
  intros Hw H. unfold handle_lease in H. destruct (is_peon n) eqn:Hp; cbn [negb orb] in H; [|by injection H as <-].
  destruct (negb _); [by injection H as <-|]. injection H as <-. apply bool_decide_eq_true_1 in Hp.
  pose proof (W_node n Hw) as Hn. unfold PaxosInv.node_ok in Hn. rewrite Hp in Hn. destruct Hn as ([Hio _] & Hne & _).
  destruct (W_rank n Hw) as (_ & Hr & _).
  assert (forall (b : bool) x (p : @paxos Op), (if b then set_lease_expire x p else p) = set_lease_expire (if b then x else lease_expire p) p) as Hle
    by (intros [] ? []; done).
  unfold upd. cbv beta. rewrite Hle.
  eapply (W_local n); [done|reflexivity|try done..| | |].
  - intros pk ->%list_elem_of_singleton. done.
  - intros []. by split.
  - unfold PaxosInv.node_ok. cbn. rewrite Hp. intros _. split_and!; [done|done|]. by intros [[=]|[=]].
Qed.

Lemma handle_lease_ack_ok n n' (ms : @MMonPaxos Op) from : W n -> handle_lease_ack ms from n = Ret n' -> W n'.
Proof.
  intros Hw H. unfold handle_lease_ack in H. destruct (negb _); [by injection H as <-|].
  destruct (bool_decide (from ∉ _)); [|by injection H as <-]. injection H as <-.
  destruct (bool_decide _); apply (W_core_nil n); (done || by left).
Qed.
End steps.
