(* ===== verification/PaxosPropose.v ===== *)
(** * Leaders: sessions and proposals

    [collect] opens a session ([collect_ok]) and [begin] proposes a value
    ([begin_value_ok]); each is a step of PaxosVote.v. *)

From stdpp Require Import gmap sorting.
From S2P Require Import Prelude Paxos PaxosVote PaxosNet PaxosInv PaxosFrame PaxosStore PaxosSteps.
Open Scope Z_scope.

(** Messages to distinct monitors. *)
Lemma ss_nodup {Op} (R : @packet Op -> @packet Op -> Prop) l :
  NoDup (dst <$> l) -> (forall x y, x ∈ l -> y ∈ l -> dst x <> dst y -> R x y) -> StronglySorted R l.
Proof.
  induction l as [|x l IH]; intros Hd HR; constructor.
  - rewrite fmap_cons in Hd. apply list_relations.list.NoDup_cons in Hd as [_ Hd]. apply IH; [done|]. intros. apply HR; [by right|by right|done].
  - rewrite fmap_cons in Hd. apply list_relations.list.NoDup_cons in Hd as [Hx _]. apply list_relations.list.Forall_forall.
    intros y Hy. apply HR; [by left|by right|]. intros Heq. apply Hx, list_elem_of_fmap. by exists y.
Qed.

Section propose.
Context {Op Svc : Type} (run_op : Op -> Svc -> Svc) (cfg : config) (N : Z) (s0 : Svc).
Context (HN : 2 <= N <= 100).
Notation node := (@node Op Svc).
Notation packet := (@packet Op).
Notation sessP := (@sessP Op).
Notation chosenP := (@chosenP Op N).
Notation hist := (@hist Op Svc run_op N s0).
Notation disk_ok := (@disk_ok Op Svc run_op N s0).
Notation store_ok := (@store_ok Op Svc run_op N s0).
Notation pkt_ok := (@pkt_ok Op Svc N).
Notation session := (@session Op Svc N).
Notation phase := (@phase Op Svc N).
Notation node_ok := (@node_ok Op Svc N).
Notation inv := (@inv Op Svc run_op N s0).
Notation vinv := (vinv (tx_eq run_op) (majority N)).
Notation abs := (@abs Op Svc).

(** ** Sessions *)

Lemma sess_coll m ν σ p a : inv m ν σ -> sessP σ p a -> 0 < p <= field pn_of m (p mod 100).
Proof.
  intros Hi (pk & Hin & Ho & <- & _). pose proof (i_pkt _ _ _ _ _ _ Hi pk Hin) as Hb.
  unfold PaxosInv.pkt_ok in Hb. rewrite Ho in Hb. destruct Hb as (_ & ? & -> & ? & _). lia.
Qed.

Lemma prop_coll m ν σ p v x : inv m ν σ -> propP σ p v x -> p <= field pn_of m (p mod 100).
Proof.
  intros Hi (pk & Hin & Ho & <- & _). pose proof (i_pkt _ _ _ _ _ _ Hi pk Hin) as Hb.
  unfold PaxosInv.pkt_ok in Hb. rewrite Ho in Hb. by destruct Hb as (_ & -> & [_ ?] & _).
Qed.

(** A number of [r] that [r] has not used. *)
Lemma sess_fresh m ν σ r p a : inv m ν σ -> p mod 100 = r -> field pn_of m r < p -> ~ sessP σ p a.
Proof. intros Hi <- Hp Hs%(sess_coll _ _ _ _ _ Hi). lia. Qed.

Lemma prop_fresh m ν σ r p v x : inv m ν σ -> p mod 100 = r -> field pn_of m r < p -> ~ propP σ p v x.
Proof. intros Hi <- Hp Hs%(prop_coll _ _ _ _ _ _ Hi). lia. Qed.

Lemma prom_nonneg m ν σ a : inv m ν σ -> 0 <= field prom_of m a.
Proof.
  intros Hi. destruct (i_prom _ _ _ _ _ _ Hi a) as [->|Hq]; [done|]. apply (sess_coll _ _ _ _ _ Hi) in Hq. lia.
Qed.

Lemma vote_le m ν σ a k v : inv m ν σ -> voteP σ a k v -> k <= field prom_of m a.
Proof. intros Hi Hp. by eapply (vi_vote _ _ _ (i_vote _ _ _ _ _ _ Hi)) in Hp as [? _]. Qed.

Lemma quorum_other q r : majority N q -> exists a, a ∈ q /\ a <> r.
Proof using HN.
  clear -HN. intros [_ Hs]. destruct (set_choose_or_empty (q ∖ {[r]})) as [[a Ha]|He]; [exists a; set_solver|].
  assert (q ⊆ {[r]}) as Hsub%subseteq_size.
  { intros a Ha. apply elem_of_singleton. destruct (decide (a = r)); [done|]. exfalso. set_solver. } rewrite size_singleton in Hsub. lia.
Qed.

Lemma bcast_dst m (n : node) : NoDup (dst <$> bcast_out m n).
Proof.
  unfold bcast_out. rewrite <- list_fmap_compose. cbn.
  replace (dst ∘ _) with (@id Z) by done. rewrite list_fmap_id.
  apply list_relations.list.NoDup_filter. rewrite merge_sort_Permutation. apply NoDup_elements.
Qed.

Context (m0 : gmap Z node) (ν0 σ0 : list packet) (r : Z).
Notation M := (M m0 r).
Notation net_ := (net_ (Svc := Svc) ν0).
Notation sent_ := (sent_ (Svc := Svc) σ0).
Notation W := (W run_op N s0 m0 ν0 σ0 r).

Lemma new_pn_spec gt (n n' : node) p :
  get_new_proposal_number gt n = Ret (p, n') -> 0 <= rank n < 100 ->
  gt < p /\ pn_of n < p /\ p mod 100 = rank n /\ n' = updd (set_d_last_pn p) (upd (set_last_pn p) n).
Proof.
  intros H Hr. unfold get_new_proposal_number in H. rinv H. injection H as <- <-. fold (pn_of n) in *. clear E.
  set (x := if pn_of n <? gt then gt else pn_of n).
  assert (gt <= x /\ pn_of n <= x) as [H1 H2] by (subst x; destruct (Z.ltb_spec (pn_of n) gt); lia).
  assert (x < (x / 100 + 1) * 100) by (pose proof (Z.div_mod x 100); pose proof (Z.mod_pos_bound x 100); lia).
  split_and!; [lia|lia| |done]. rewrite Z.add_comm, Z.mod_add, Z.mod_small; lia.
Qed.

(** The fields a step of the leader starts from. *)
Definition like (n0 n : node) : Prop :=
  n_store n = n_store n0 /\ n_io n = n_io n0 /\ n_out n = n_out n0 /\ rank n = rank n0 /\ m_size (n_mon n) = m_size (n_mon n0) /\
  first_committed (n_px n) = first_committed (n_px n0) /\ lc_of n = lc_of n0 /\ pn_of n = pn_of n0 /\ prom_of n = prom_of n0 /\
  (pending_proposal (n_px n) = pending_proposal (n_px n0) \/ pending_proposal (n_px n) = None).

(** The state in which [collect] leaves the leader. *)
Record opened (p : Z) (n0 n' : node) : Prop := Opened {
  op_pn : prom_of n' = p /\ pn_of n' = p;
  op_store : n_store n' = set_d_last_pn p (n_store n0);
  op_io : n_io n' = None;
  op_state : p_state (n_px n') = STATE_RECOVERING;
  op_num : num_last (n_px n') = 1;
  op_lc : lc_of n' = lc_of n0 /\ first_committed (n_px n') = first_committed (n_px n0);
  op_unc : (d_versions (n_store n0) !! (lc_of n0 + 1) = None /\ uncommitted_v (n_px n') = 0 /\ uncommitted_pn (n_px n') = 0) \/
    (exists x, d_versions (n_store n0) !! (lc_of n0 + 1) = Some (Some x) /\ uncommitted_v (n_px n') = lc_of n0 + 1 /\
       uncommitted_value (n_px n') = Some x /\
       uncommitted_pn (n_px n') = uncommitted_pn_of n0 (prom_of n0));
}.

Lemma collect_spec old n0 n n' :
  like n0 n -> n_io n = None -> 0 <= rank n < 100 -> collect old n = Ret n' ->
  exists p m, prom_of n < p /\ pn_of n < p /\ p mod 100 = rank n /\ opened p n0 n' /\ n_mon n' = n_mon n /\
    new_value (n_px n') = new_value (n_px n) /\ pending_proposal (n_px n') = pending_proposal (n_px n) /\
    n_out n' = n_out n ++ bcast_out m n /\ op m = OP_COLLECT /\ epoch m = ep_of n /\ pn m = p /\ msg_last_committed m = lc_of n /\
    is_leader n = true.
Proof.
  intros (H1 & H2 & H3 & H4 & H5 & H6 & H7 & H8 & H9 & H10) Hio Hr H. unfold collect in H. rinv H. rinv H.
  destruct (get_new_proposal_number _ a0) as [[p n1]| |] eqn:E1; [|done..]. cbn [rbind] in H. injection H as <-.
  unfold rassert in E. destruct (is_leader (upd _ n)) eqn:Hl; [|done].
  assert (rank a0 = rank n /\ prom_of a0 = prom_of n /\ pn_of a0 = pn_of n) as (Hra & Hpa & Hna).
  { destruct (exists_version _ _); [rinv E0|]; by injection E0 as <-. }
  apply new_pn_spec in E1 as (Hp1 & Hp2 & Hp3 & ->); [|by rewrite Hra]. fold (prom_of a0) in Hp1.
  rewrite Hra in Hp3. rewrite Hpa in Hp1. rewrite Hna in Hp2.
  eexists p, _. assert (prom_of n < p) as Hpp by lia. split_and!; [done..| | | | | | | | | |exact Hl].
  1: { unfold exists_version, get_version_bl in E0. cbn in E0. fold (lc_of n) in E0. rewrite H1, H7 in E0.
    destruct (d_versions (n_store n0) !! (lc_of n0 + 1)) as [[x|]|] eqn:Ev; cbn [nonempty rassert rbind] in E0; [|done|].
    - injection E0 as <-. split; cbn; [done|by rewrite H1|done|done|done|done|].
      right. exists x. split_and!; [done|done|done|]. unfold uncommitted_pn_of. cbn. fold (lc_of n) (prom_of n) (lc_of n0) (prom_of n0).
      by rewrite H1, H7, H9.
    - injection E0 as <-. split; cbn; [done|by rewrite H1|done|done|done|done|]. by left. }
  all: destruct (exists_version _ _); [rinv E0|]; injection E0 as <-; reflexivity.
Qed.

(** New messages of one kind. *)
Lemma sess_new σ out p q :
  (forall pk, pk ∈ out -> op (msg pk) <> OP_COLLECT) -> sessP (σ ++ out) p q -> sessP σ p q.
Proof. intros Ho (pk & [Hin|Hin]%elem_of_app & Hk & H); [by exists pk|]. by destruct (Ho pk Hin). Qed.

Lemma prop_new σ (out : list packet) p v x :
  (forall pk, pk ∈ out -> op (msg pk) <> OP_BEGIN) -> propP (σ ++ out) p v x -> propP σ p v x.
Proof. intros Ho (pk & [Hin|Hin]%elem_of_app & Hk & H); [by exists pk|]. by destruct (Ho pk Hin). Qed.

Lemma vote_new' σ (out : list packet) a p v :
  (forall pk, pk ∈ out -> op (msg pk) <> OP_BEGIN /\ op (msg pk) <> OP_ACCEPT) -> voteP (σ ++ out) a p v -> voteP σ a p v.
Proof. intros Ho (pk & [Hin|Hin]%elem_of_app & Hk & H); [by exists pk|]. destruct (Ho pk Hin) as [? ?]. by destruct Hk. Qed.

(** [collect]: the leader asks for promises and makes its own. *)
Section collect.
Context (n0 n' : node) (p : Z) (ms : @MMonPaxos Op) (Hw : W n0) (Hio : n_io n0 = None).
Context (Hop : opened p n0 n') (Hp : prom_of n0 < p) (Hpn : pn_of n0 < p) (Hown : p mod 100 = r).
Context (Hmon : rank n' = r /\ m_size (n_mon n') = N) (Hrole : m_role (n_mon n') = Leader).
Context (Hq : r ∈ m_quorum (n_mon n') /\ majority N (m_quorum (n_mon n'))) (Hnv : new_value (n_px n') = None).
Context (Hpd : pending_proposal (n_px n') = pending_proposal (n_px n0) \/ pending_proposal (n_px n') = None).
Context (Hout : n_out n' = n_out n0 ++ bcast_out ms n').
Context (Hm1 : op ms = OP_COLLECT) (Hm2 : pn ms = p) (Hm3 : msg_last_committed ms = lc_of n0).
Context (Hm4 : epoch ms = ep_of n') (Hep : ep_of n0 <= ep_of n').
Context (Hmem : forall a pk, pk ∈ net_ n0 -> coll_to r a pk \/ last_to r a pk -> epoch (msg pk) = ep_of n' -> a ∈ m_quorum (n_mon n')).
Notation out := (bcast_out ms n').

Lemma coll_out pk : pk ∈ out -> exists a, a ∈ m_quorum (n_mon n') /\ a <> r /\ pk = Packet r a ms.
Proof using Hmon. intros (a & ? & ? & ->)%elem_bcast_out. destruct Hmon as [Hr _]. rewrite Hr in *. eauto. Qed.

Lemma coll_op pk : pk ∈ out -> op (msg pk) = OP_COLLECT.
Proof using Hmon Hm1. by intros (a & _ & _ & ->)%coll_out. Qed.

Lemma coll_not pk o : pk ∈ out -> OP_COLLECT <> o -> op (msg pk) <> o.
Proof using Hmon Hm1. intros ->%coll_op. done. Qed.

Lemma coll_sent : sent_ n' = sent_ n0 ++ out.
Proof using Hout. unfold PaxosSteps.sent_. by rewrite Hout, (assoc_L (++)). Qed.

Lemma coll_net pk : pk ∈ net_ n' -> pk ∈ net_ n0 \/ pk ∈ out.
Proof using Hout. unfold PaxosSteps.net_. rewrite Hout, (assoc_L (++)). by intros ?%elem_of_app. Qed.

Lemma coll_prop v x : ~ propP (sent_ n') p v x.
Proof using Hw Hpn Hown Hmon Hm1 Hout.
  rewrite coll_sent. intros Hx. apply prop_new in Hx; [|intros; by apply coll_not].
  eapply prop_fresh in Hx; [done|exact Hw|exact Hown|]. by rewrite field_self.
Qed.

Lemma coll_vote a k v : voteP (sent_ n') a k v -> voteP (sent_ n0) a k v.
Proof using Hmon Hm1 Hout. rewrite coll_sent. apply vote_new'. intros. split; by apply coll_not. Qed.

(** The session has the members of the quorum. *)
Lemma coll_sess a : sessP (sent_ n') p a <-> a ∈ m_quorum (n_mon n').
Proof using HN Hw Hpn Hown Hmon Hm1 Hm2 Hout Hq.
  destruct Hmon as [Hr _], Hq as [Hrq Hmaj]. rewrite coll_sent. split.
  - intros (pk & [Hin|(b & Hb & Hne & ->)%coll_out]%elem_of_app & Ho & Hk & Ha); [|cbn in Ha; destruct Ha as [<-|<-]; done].
    exfalso. eapply (sess_fresh _ _ _ r p a); [exact Hw|done|by rewrite field_self|]. by exists pk.
  - assert (forall b, b ∈ m_quorum (n_mon n') -> b <> r -> Packet r b ms ∈ sent_ n0 ++ out) as Hin.
    { intros b Hb Hne. apply elem_of_app. right. apply elem_bcast_out. rewrite Hr. eauto. }
    intros Ha. destruct (decide (a = r)) as [->|Hne]; [|exists (Packet r a ms); split_and!; auto].
    destruct (quorum_other _ r Hmaj) as (b & Hb & Hne). exists (Packet r b ms). split_and!; auto.
Qed.

Lemma coll_last pk : pk ∈ net_ n' -> op (msg pk) = OP_LAST -> pn (msg pk) <> p.
Proof using Hw Hp Hpn Hown Hmon Hm1 Hout.
  intros [Hpk|Hpk]%coll_net Hl Heq; [|apply coll_op in Hpk; congruence].
  pose proof (i_pkt _ _ _ _ _ _ Hw pk (i_sub _ _ _ _ _ _ Hw pk Hpk)) as Hb.
  unfold PaxosInv.pkt_ok in Hb. rewrite Hl in Hb. destruct Hb as (_ & L & [_ Hs _ _ _ _ _]). rewrite Heq in Hs.
  pose proof (prom_nonneg _ _ _ r Hw) as Hnn. rewrite field_self in Hnn. destruct Hs as [Hs|Hs]; [lia|].
  eapply sess_fresh in Hs; [done|exact Hw|exact Hown|]. by rewrite field_self.
Qed.

Lemma coll_extends : extends r (M n0) (net_ n0) (sent_ n0) (M n') (net_ n') (sent_ n') out.
Proof using Hw Hop Hp Hpn Hown Hmon Hm1 Hm2 Hout Hep.
  destruct Hop as [[Hp1 Hp2] _ _ _ _ [Hlc _] _]. eapply W_extends; [exact Hw|exact Hout|lia|lia|lia|exact Hep|..].
  - by intros pk (a & _ & _ & ->)%coll_out.
  - intros pk Hpk%coll_op [Hb|Hb]; congruence.
  - intros pk (a & _ & _ & ->)%coll_out _. cbn. congruence.
Qed.

Lemma coll_pkt pk : pk ∈ out -> pkt_ok (M n') (sent_ n') pk.
Proof using Hw Hio Hop Hp Hown Hmon Hm1 Hm2 Hm3.
  intros Hpk. destruct Hop as [[Hp1 Hp2] _ _ _ _ [Hlc _] _]. eapply pkt_ok_bcast; [apply Hmon|exact Hpk|].
  intros a Ha Hne. unfold PaxosInv.pkt_ok. cbn. rewrite Hm1, !field_self, Hm2, Hm3.
  pose proof (prom_nonneg _ _ _ r Hw) as Hnn. rewrite field_self in Hnn. assert (0 <= lc_of n0).
  { pose proof (W_store _ _ _ _ _ _ _ _ Hw) as [Hdk Hl _ _ _]. destruct Hl as [<- _]; [by rewrite Hio|]. pose proof (dk_range _ _ _ _ _ _ _ Hdk). lia. }
  split_and!; [done|lia|done|lia|lia|lia].
Qed.

Lemma coll_vinv : vinv (abs (M n') (sent_ n')).
Proof using Hw Hop Hp Hmon Hm1 Hout.
  destruct Hop as [[Hp1 Hp2] _ _ _ _ _ _]. eapply vinv_equiv_1; [|eapply vstep_vinv; [apply _|by eapply i_vote|]].
  2: { apply (VPromise _ _ _ r p). cbn. by rewrite field_self. }
  split_and!; cbn.
  - intros a. unfold field, PaxosSteps.M. destruct (decide (a = r)) as [->|]; [by rewrite lookup_insert_eq|by rewrite !lookup_insert_ne].
  - intros a k v. split; [rewrite coll_sent; apply voteP_app|apply coll_vote].
  - intros k v x. rewrite coll_sent. split; [apply propP_app|]. apply prop_new. intros. by apply coll_not.
Qed.

Lemma coll_sorted : StronglySorted coll_order (net_ n').
Proof using Hw Hpn Hmon Hm2 Hout.
  unfold PaxosSteps.net_. rewrite Hout, (assoc_L (++)). apply StronglySorted_app. split_and!; [|by eapply i_order|].
  - intros x y Hx (a & _ & _ & ->)%coll_out Hox _ Hs _. cbn in *. rewrite Hm2.
    pose proof (i_pkt _ _ _ _ _ _ Hw x (i_sub _ _ _ _ _ _ Hw x Hx)) as Hb.
    unfold PaxosInv.pkt_ok in Hb. rewrite Hox, Hs, field_self in Hb. lia.
  - apply ss_nodup; [apply bcast_dst|]. intros x y _ _ Hd _ _ _ Heq. done.
Qed.

Lemma coll_fresh pk :
  pk ∈ net_ n' -> op (msg pk) = OP_COLLECT -> field prom_of (M n') (dst pk) mod 100 = src pk ->
  field prom_of (M n') (dst pk) < pn (msg pk).
Proof using Hw Hop Hp Hpn Hown Hmon Hm2 Hout.
  destruct Hop as [[Hp1 Hp2] _ _ _ _ _ _].
  assert (forall a, a <> r -> field prom_of (M n') a = field prom_of (M n0) a) as Heq.
  { intros a Ha. unfold field, PaxosSteps.M. by rewrite !lookup_insert_ne. }
  intros [Hpk|Hpk]%coll_net Ho Hmod.
  - pose proof (i_pkt _ _ _ _ _ _ Hw pk (i_sub _ _ _ _ _ _ Hw pk Hpk)) as Hb.
    unfold PaxosInv.pkt_ok in Hb. rewrite Ho in Hb. destruct Hb as (Hds & _). destruct (decide (dst pk = r)) as [Hd|Hd].
    + rewrite Hd, field_self, Hp1 in Hmod. congruence.
    + rewrite (Heq _ Hd) in *. by eapply i_fresh.
  - apply coll_out in Hpk as (a & _ & Hne & ->). cbn in *. rewrite Hm2. rewrite (Heq _ Hne) in *.
    destruct (i_prom _ _ _ _ _ _ Hw a) as [Hz|Hs].
    + pose proof (prom_nonneg _ _ _ r Hw) as Hnn. rewrite field_self in Hnn. lia.
    + apply (sess_coll _ _ _ _ _ Hw) in Hs. rewrite Hmod, field_self in Hs. lia.
Qed.

Lemma coll_store : store_ok (sent_ n') r n'.
Proof using Hw Hio Hop Hp Hmon Hm1 Hout Hpd.
  destruct Hop as [[Hp1 Hp2] Hst Hio' _ _ [Hlc Hfc] _]. pose proof (W_store _ _ _ _ _ _ _ _ Hw) as [Hdk Hl _ _ Hpe].
  destruct Hl as [Hl1 Hl2]; [by rewrite Hio|].
  split; rewrite ?Hst; [|by intros; split; [rewrite Hlc|rewrite Hfc]|by rewrite Hio'|by rewrite Hp2|].
  - rewrite coll_sent, Hp1. apply (disk_ok_mono _ _ _ _ out _ _ p) in Hdk; [destruct Hdk; by split|lia|].
    intros k v. rewrite <- coll_sent. apply coll_vote.
  - destruct Hpd as [->| ->]; [done|]. by intros ?.
Qed.

Lemma coll_pending x :
  d_versions (n_store n0) !! (lc_of n0 + 1) = Some x ->
  uncommitted_pn_of n0 (prom_of n0) = d_pending_pn (n_store n0) /\ 0 < d_pending_pn (n_store n0) < p /\
  exists y, x = Some y /\ propP (sent_ n0) (d_pending_pn (n_store n0)) (lc_of n0 + 1) y.
Proof using Hw Hio Hp.
  pose proof (W_store _ _ _ _ _ _ _ _ Hw) as [Hdk Hl _ _ _]. destruct Hl as [Hl _]; [by rewrite Hio|].
  intros Hx. rewrite <- Hl in Hx |- *. destruct (dk_pending _ _ _ _ _ _ _ Hdk x Hx) as (Hv & Hpos & Hy). split_and!; [|lia|lia|done].
  unfold uncommitted_pn_of. fold (lc_of n0). rewrite <- Hl, Hv. pose proof (dk_range _ _ _ _ _ _ _ Hdk) as Hr0.
  rewrite Z.eqb_refl. destruct (Z.eqb_spec (d_last_committed (n_store n0) + 1) 0); [lia|].
  destruct (Z.eqb_spec (d_pending_pn (n_store n0)) 0); [lia|done].
Qed.

Lemma coll_recovering : recovering (M n') (net_ n') (sent_ n') r n' ∅.
Proof using Hw Hio Hop Hp Hpn Hown Hmon Hm1 Hout Hnv.
  destruct Hop as [[Hp1 Hp2] _ Hio' _ Hnum [Hlc _] Hunc].
  pose proof (W_store _ _ _ _ _ _ _ _ Hw) as [Hdk Hl _ _ _]. destruct Hl as [Hl _]; [by rewrite Hio|].
  split; rewrite ?Hp1, ?Hnum; try done.
  - apply coll_prop.
  - intros k v Hk Hv%coll_vote. rewrite Hlc.
    destruct (dk_vote _ _ _ _ _ _ _ Hdk k v Hv) as [?|(-> & [x Hx] & Hkp)]; [left; lia|right]. rewrite Hl in Hx |- *.
    destruct (coll_pending x Hx) as (Heq & _). destruct Hunc as [[Hnone _]|(y & _ & Huv & _ & Hup)]; [congruence|].
    rewrite Huv, Hup, Heq. done.
  - unfold unc_ok. fold (lc_of n') (prom_of n'). rewrite Hlc, Hp1.
    destruct Hunc as [(_ & ? & ?)|(y & Hy & Huv & Hval & Hup)]; [by left|right].
    destruct (coll_pending _ Hy) as (Heq & Hpos & z & [= <-] & Hz). rewrite Hup, Heq. split_and!; [done|lia|lia|].
    exists y. split; [done|]. rewrite coll_sent. by apply propP_app.
Qed.

Lemma coll_node : node_ok (M n') (net_ n') (sent_ n') r n'.
Proof using HN Hw Hio Hop Hp Hpn Hown Hmon Hrole Hq Hm1 Hm2 Hout Hnv Hmem.
  pose proof coll_recovering as Hrc. destruct Hop as [[Hp1 Hp2] _ _ Hstate _ _ _].
  unfold PaxosInv.node_ok. rewrite Hrole. split; [|unfold PaxosInv.phase; rewrite Hstate; eauto].
  split; rewrite ?Hp1; try done.
  - apply coll_sess, Hq.
  - intros a. apply coll_sess.
  - intros a. apply ss_none. intros x y Hx _ [Hl _] Hpx. by apply coll_last in Hx.
  - intros a pk [Hpk|Hpk]%coll_net Hk He; [by eapply Hmem|]. apply coll_out in Hpk as (b & Hb & _ & ->).
    destruct Hk as [(_ & _ & <-)|[? _]]; [done|cbn in *; congruence].
  - intros a pk pk' Hpk [Hl _] Hpx. by apply coll_last in Hpk.
Qed.

Lemma coll_W : W n'.
Proof using HN Hw Hio Hop Hp Hpn Hown Hmon Hrole Hq Hnv Hpd Hm1 Hm2 Hm3 Hm4 Hep Hmem Hout.
  eapply (inv_extend run_op N s0 r (M n0) (net_ n0) (sent_ n0) (M n') (net_ n') (sent_ n') out coll_extends n0 n');
    [apply lookup_insert_eq|unfold PaxosSteps.M; by rewrite insert_insert_eq|exact Hw|apply Hmon|apply Hmon|..].
  - apply coll_pkt.
  - intros pk (a & _ & _ & ->)%coll_out. split; cbn; [|congruence]. rewrite field_self. lia.
  - apply coll_vinv.
  - right. destruct Hop as [[-> _] _ _ _ _ _ _]. by apply coll_sess, Hq.
  - intros k v x Hx. left. rewrite coll_sent in Hx. eapply prop_new; [|done]. intros. by apply coll_not.
  - apply coll_sorted.
  - apply coll_fresh.
  - apply coll_store.
  - apply coll_node.
  - intros r2 n2 Hne Hl2. eapply node_ok_step; [exact coll_extends|eapply out_other; [exact coll_extends|done]|].
    intros pk Hpk%coll_op _. rewrite Hpk. split; [done|by intros [? _]].
Qed.
End collect.

Lemma collect_ok old n0 n n' :
  W n0 -> like n0 n -> n_io n0 = None -> r ∈ m_quorum (n_mon n) -> majority N (m_quorum (n_mon n)) -> ep_of n0 <= ep_of n ->
  (forall a pk, pk ∈ net_ n0 -> coll_to r a pk \/ last_to r a pk -> epoch (msg pk) = ep_of n -> a ∈ m_quorum (n_mon n)) ->
  new_value (n_px n) = None -> collect old n = Ret n' -> W n'.
Proof using HN.
  intros Hw Hlike Hio Hrq Hmaj Hep Hmem Hnv H. destruct (W_rank _ _ _ _ _ _ _ _ Hw) as (HrN & Hr & Hsz).
  pose proof Hlike as (H1 & H2 & H3 & H4 & H5 & H6 & H7 & H8 & H9 & H10).
  destruct (collect_spec old n0 n n' Hlike) as (p & m & Hp & Hpn & Hown & Hop & Hmon & Hnv' & Hpp & Hout & Hm1 & Hm2 & Hm3 & Hm4 & Hlead%bool_decide_eq_true_1);
    [congruence|lia|done|].
  apply (coll_W n0 n' p m); try congruence; unfold rank, ep_of in *; rewrite ?Hmon; try congruence; try lia.
  - split; congruence.
  - rewrite Hout, H3. unfold bcast_out, rank. by rewrite Hmon.
  - exact Hmem.
Qed.

(** ** Proposals *)

(** Accepting a proposal of the current session. *)
Lemma disk_accept σ out a acc d x :
  disk_ok σ a acc d -> 0 < acc -> propP (σ ++ out) acc (d_last_committed d + 1) x ->
  (forall k v, voteP σ a k v -> k <= acc) ->
  (forall k v, voteP (σ ++ out) a k v -> voteP σ a k v \/ (k = acc /\ v = d_last_committed d + 1)) ->
  disk_ok (σ ++ out) a acc
    (set_d_pending_pn acc (set_d_pending_v (d_last_committed d + 1) (put_version (d_last_committed d + 1) (Some x) d))).
Proof using Type.
  clear HN. intros [] Hacc Hx Hle Hv. set (lc := d_last_committed d) in *.
  assert (forall v bl, <[lc + 1 := Some x]> (d_versions d) !! v = Some bl <->
    ((v = lc + 1 /\ bl = Some x) \/ (v <> lc + 1 /\ d_versions d !! v = Some bl))) as Hl.
  { intros v bl. destruct (decide (v = lc + 1)) as [->|Hne]; [rewrite lookup_insert_eq|rewrite lookup_insert_ne by done]; naive_solver. }
  split; cbn; fold lc.
  - done.
  - by apply hist_app.
  - intros v bl [[-> ->]|[_ Hb]]%Hl; [lia|]. by eapply dk_range_ver.
  - intros v bl [[-> ->]|[_ Hb]]%Hl Hr; [lia|]. destruct (dk_chosen v bl Hb Hr) as (y & -> & Hy). exists y. split; [done|]. by apply chosenP_app.
  - intros bl [[_ ->]|[? _]]%Hl; [|done]. split_and!; [done|done|done|]. eauto.
  - intros v H1 Hr. destruct (dk_cont v H1 Hr) as [bl Hb]. exists bl. apply Hl. right. split; [lia|done].
  - intros k v Hk. assert (is_Some (<[lc + 1:=Some x]> (d_versions d) !! (lc + 1))) as Hs by (rewrite lookup_insert_eq; eauto).
    destruct (Hv k v Hk) as [Hk'|[-> ->]]; [|by right]. destruct (dk_vote k v Hk') as [?|(-> & _ & _)]; [by left|].
    right. split_and!; [done|done|]. by eapply Hle.
Qed.

(** What a leader needs to propose [x]. *)
Record ready (n : node) (x : list (@vop Op)) : Prop := Ready {
  rdy_session : session (net_ n) (sent_ n) r n;
  rdy_recovered : recovered (M n) (net_ n) (sent_ n) r n (lc_of n + 1);
  rdy_io : n_io n = None;
  rdy_new u : ~ propP (sent_ n) (prom_of n) (lc_of n + 1) u;
  rdy_tok a pk : pk ∈ net_ n -> ~ tok r (prom_of n) a pk;
  rdy_justified : justified (tx_eq run_op) (abs (M n) (sent_ n)) (prom_of n) (m_quorum (n_mon n)) (lc_of n + 1) x;
  rdy_trim : trim_ok (first_committed (n_px n)) (lc_of n + 1) x;
}.

(** [begin] wraps the first value. *)
Definition wrap (lc : Z) (t : list (@vop Op)) : list vop := if lc =? 0 then PutFirstCommitted 1 :: t else t.

Lemma begin_spec v n0 n n' :
  like n0 n -> n_mon n = n_mon n0 -> majority N (m_quorum (n_mon n)) -> begin_ v n = Ret n' ->
  exists t m, v = Some t /\ like n0 (set_n_store (n_store n) (set_n_out (n_out n) n')) /\ n_mon n' = n_mon n0 /\
    (p_state (n_px n') = STATE_UPDATING \/ p_state (n_px n') = STATE_UPDATING_PREVIOUS) /\
    let x := wrap (lc_of n0) t in
    new_value (n_px n') = Some x /\ accepted (n_px n') = {[rank n0]} /\
    n_store n' = set_d_pending_pn (prom_of n0) (set_d_pending_v (lc_of n0 + 1) (put_version (lc_of n0 + 1) (Some x) (n_store n0))) /\
    n_out n' = n_out n0 ++ bcast_out m n0 /\ op m = OP_BEGIN /\ pn m = prom_of n0 /\
    msg_last_committed m = lc_of n0 /\ values m = [(lc_of n0 + 1, Some x)].
Proof using HN.
  intros (H1 & H2 & H3 & H4 & H5 & H6 & H7 & H8 & H9 & H10) Hmon [_ Hq] H. unfold begin_ in H.
  do 5 rinv H. unfold rassert in *. destruct (is_updating n || is_updating_previous n) eqn:Hu; [|done].
  unfold decode_tx, deref in E3. destruct v as [t|]; [|done]. injection E3 as <-.
  fold (lc_of n) (prom_of n) in H. fold (wrap (lc_of n) t) in H.
  destruct (quorum_size _ =? 1) eqn:Hs1 in H; [apply Z.eqb_eq in Hs1; unfold quorum_size in Hs1; cbn in Hs1; lia|].
  injection H as <-. eexists t, _.
  assert (forall m, bcast_out m n = bcast_out m n0) as Hbo by (intros m; unfold bcast_out, rank; by rewrite Hmon).
  split_and!; [done| | | | | | | | | | |]; cbn; try done.
  - apply orb_true_iff in Hu as [Hu%bool_decide_eq_true_1|Hu%bool_decide_eq_true_1]; rewrite Hu; eauto.
  - by rewrite H7.
  - by rewrite H4.
  - fold (prom_of n). by rewrite H1, H7, H9.
  - rewrite H3. f_equal. rewrite <- Hbo. reflexivity.
  - done.
  - done.
  - cbn. by rewrite H7.
  - cbn. by rewrite H7.
Qed.

(** [begin]: the leader proposes a value and accepts it. *)
Section begin.
Context (n0 n' : node) (x : list (@vop Op)) (ms : @MMonPaxos Op) (Hw : W n0) (Hrole : m_role (n_mon n0) = Leader).
Context (Hrdy : ready n0 x) (Hmon : n_mon n' = n_mon n0) (Hio' : n_io n' = n_io n0) (Hlc : lc_of n' = lc_of n0).
Context (Hfc : first_committed (n_px n') = first_committed (n_px n0)) (Hpn : pn_of n' = pn_of n0) (Hp : prom_of n' = prom_of n0).
Context (Hpd : pending_proposal (n_px n') = pending_proposal (n_px n0) \/ pending_proposal (n_px n') = None).
Context (Hst : p_state (n_px n') = STATE_UPDATING \/ p_state (n_px n') = STATE_UPDATING_PREVIOUS).
Context (Hnv : new_value (n_px n') = Some x) (Hacc : accepted (n_px n') = {[r]}).
Context (Hsto : n_store n' = set_d_pending_pn (prom_of n0) (set_d_pending_v (lc_of n0 + 1) (put_version (lc_of n0 + 1) (Some x) (n_store n0)))).
Context (Hout : n_out n' = n_out n0 ++ bcast_out ms n0).
Context (Hm1 : op ms = OP_BEGIN) (Hm2 : pn ms = prom_of n0) (Hm3 : msg_last_committed ms = lc_of n0).
Context (Hm4 : values ms = [(lc_of n0 + 1, Some x)]).
Notation out := (bcast_out ms n0).

Lemma begin_quorum : r ∈ m_quorum (n_mon n0) /\ majority N (m_quorum (n_mon n0)).
Proof using Hrdy. by destruct Hrdy as [[? _ _ _ _ _ _ _] _ _ _ _ _ _]. Qed.

Lemma begin_out pk : pk ∈ out <-> exists a, a ∈ m_quorum (n_mon n0) /\ a <> r /\ pk = Packet r a ms.
Proof using Hw. destruct (W_rank _ _ _ _ _ _ _ _ Hw) as (_ & Hr & _). rewrite elem_bcast_out, Hr. done. Qed.

Lemma begin_op pk : pk ∈ out -> op (msg pk) = OP_BEGIN.
Proof using Hw Hm1. by intros (a & _ & _ & ->)%begin_out. Qed.

Lemma begin_sent : sent_ n' = sent_ n0 ++ out.
Proof using Hout. unfold PaxosSteps.sent_. by rewrite Hout, (assoc_L (++)). Qed.

Lemma begin_net : net_ n' = net_ n0 ++ out.
Proof using Hout. unfold PaxosSteps.net_. by rewrite Hout, (assoc_L (++)). Qed.

Lemma begin_extends : extends r (M n0) (net_ n0) (sent_ n0) (M n') (net_ n') (sent_ n') out.
Proof using Hw Hrdy Hmon Hlc Hpn Hp Hout Hm2.
  eapply W_extends; [exact Hw|exact Hout|lia|lia|lia|unfold ep_of; by rewrite Hmon|..].
  - by intros pk (a & _ & _ & ->)%begin_out.
  - intros pk (a & _ & _ & ->)%begin_out _. cbn. lia.
  - intros pk (a & _ & _ & ->)%begin_out _. cbn. rewrite Hm2. by destruct Hrdy as [[_ _ ? _ _ _ _ _] _ _ _ _ _ _].
Qed.

(** The proposal and the vote of the leader, and no other. *)
Lemma begin_prop k v y :
  propP (sent_ n') k v y <-> propP (sent_ n0) k v y \/ (k = prom_of n0 /\ v = lc_of n0 + 1 /\ y = x).
Proof using HN Hw Hrdy Hout Hm1 Hm2 Hm3 Hm4.
  destruct begin_quorum as [_ Hmaj]. rewrite begin_sent. split.
  - intros (pk & [Hpk|(a & _ & _ & ->)%begin_out]%elem_of_app & Ho & Hk & Hv & Hvals); [left; by exists pk|right].
    cbn in *. rewrite Hm4 in Hvals. injection Hvals as ? ?. split_and!; congruence.
  - intros [Hx|(-> & -> & ->)]; [by apply propP_app|]. destruct (quorum_other _ r Hmaj) as (a & Ha & Hne).
    exists (Packet r a ms). cbn. rewrite Hm3. split_and!; try done. apply elem_of_app. right. apply begin_out. eauto.
Qed.

Lemma begin_vote a k v :
  voteP (sent_ n') a k v <-> voteP (sent_ n0) a k v \/ (a = r /\ k = prom_of n0 /\ v = lc_of n0 + 1).
Proof using HN Hw Hrdy Hout Hm1 Hm2 Hm3.
  destruct begin_quorum as [_ Hmaj]. rewrite begin_sent. split.
  - intros (pk & [Hpk|(b & _ & _ & ->)%begin_out]%elem_of_app & Ho & Ha & Hk & Hv); [left; by exists pk|right].
    cbn in *. split_and!; congruence.
  - intros [Hx|(-> & -> & ->)]; [by apply voteP_app|]. destruct (quorum_other _ r Hmaj) as (b & Hb & Hne).
    exists (Packet r b ms). cbn. rewrite Hm3. split_and!; try done; [|by right]. apply elem_of_app. right. apply begin_out. eauto.
Qed.

Lemma begin_sess k a : sessP (sent_ n') k a -> sessP (sent_ n0) k a.
Proof using Hw Hout Hm1. rewrite begin_sent. apply sess_new. intros pk Hpk%begin_op. congruence. Qed.

Lemma begin_session : session (net_ n') (sent_ n') r n'.
Proof using Hw Hrdy Hmon Hlc Hpn Hp Hout Hm1 Hm2.
  destruct Hrdy as [[] _ _ _ _ _ _]. split; unfold ep_of in *; rewrite ?Hmon, ?Hp, ?Hpn; try done.
  - rewrite begin_sent. by apply sessP_app.
  - intros a Ha%begin_sess. by apply ss_members.
  - intros a. eapply ss_step; [exact begin_extends|done|]. intros y z Hz%begin_op _ _ [Hl _]. congruence.
  - intros a pk Hpk Hk. rewrite begin_net in Hpk. apply elem_of_app in Hpk as [Hpk|Hpk%begin_op]; [by apply (ss_from a)|].
    destruct Hk as [[? _]|[? _]]; congruence.
  - intros a pk pk' Hpk Hl Hpp Hpk'. rewrite begin_net in Hpk, Hpk'.
    apply elem_of_app in Hpk as [Hpk|Hpk%begin_op]; [|destruct Hl; congruence].
    apply elem_of_app in Hpk' as [Hpk'|Hpk'%begin_op]; [by apply (ss_coll a pk)|]. intros [? _]. congruence.
Qed.

Lemma begin_recovered : recovered (M n') (net_ n') (sent_ n') r n' (lc_of n' + 1).
Proof using HN Hw Hrdy Hmon Hlc Hpn Hp Hout Hm1 Hm2 Hm3 Hm4.
  destruct Hrdy as [_ [] _ _ _ _ _]. split; rewrite ?Hmon, ?Hp, ?Hlc.
  - intros a Ha. specialize (rd_prom a Ha). pose proof (prom_mono _ _ _ _ _ _ _ _ begin_extends a). lia.
  - intros a Ha Hne pk Hpk. rewrite begin_net in Hpk. apply elem_of_app in Hpk as [Hpk|Hpk%begin_op]; [by apply (rd_quiet a Ha Hne)|].
    split; intros [? _]; congruence.
  - intros a k v Ha Hk Hv. apply (rd_votes a k v Ha Hk). by eapply (vote_old _ _ _ _ _ _ _ _ begin_extends); [apply rd_prom|..].
  - intros v y [Hy|(_ & -> & _)]%begin_prop; [by eapply rd_props|lia].
Qed.

Lemma begin_updating : updating (net_ n') (sent_ n') r n'.
Proof using HN Hw Hrdy Hmon Hio' Hlc Hp Hnv Hacc Hsto Hout Hm1 Hm2 Hm3 Hm4.
  pose proof begin_quorum as [Hrq _]. destruct Hrdy as [_ _ Hio _ Htk _ _].
  split; rewrite ?Hmon, ?Hp, ?Hlc, ?Hnv, ?Hacc.
  - congruence.
  - exists x. split; [done|]. apply begin_prop. by right.
  - rewrite Hsto. cbn. apply lookup_insert_eq.
  - intros a ->%elem_of_singleton. split; [done|]. apply begin_vote. by right.
  - intros a. rewrite begin_net. apply StronglySorted_app. split_and!.
    + intros y z Hy _ Ht. by apply Htk in Ht.
    + apply ss_none. intros y z Hy _ Ht. by apply Htk in Ht.
    + apply ss_nodup; [apply bcast_dst|]. intros y z Hy%begin_op Hz%begin_op Hne [_ Ht] [_ Ht'].
      destruct Ht as [(_ & _ & ?)|[? _]], Ht' as [(_ & _ & ?)|[? _]]; congruence.
  - intros a pk Hpk Ht. rewrite begin_net in Hpk. apply elem_of_app in Hpk as [Hpk|Hpk]; [by apply Htk in Ht|].
    apply begin_out in Hpk as (b & Hb & Hne & ->). destruct Ht as [_ [(_ & _ & Hd)|[? _]]]; cbn in *; [|congruence].
    subst b. split_and!; [done| |done]. by intros ?%elem_of_singleton.
Qed.

Lemma begin_store : store_ok (sent_ n') r n'.
Proof using HN Hw Hrdy Hio' Hlc Hfc Hpn Hp Hpd Hsto Hout Hm1 Hm2 Hm3 Hm4.
  pose proof (W_store _ _ _ _ _ _ _ _ Hw) as [Hdk Hl _ Hspn Hpe]. pose proof (rdy_io _ _ Hrdy) as Hio.
  destruct Hl as [Hl1 Hl2]; [by rewrite Hio|].
  pose proof (sess_coll _ _ _ _ _ Hw (ss_sess _ _ _ _ _ (rdy_session _ _ Hrdy))) as Hpos.
  split; rewrite ?Hsto, ?Hlc, ?Hpn, ?Hp; cbn.
  - rewrite begin_sent, <- Hl1. apply disk_accept; [done|lia| | |]; rewrite <- ?begin_sent.
    + rewrite Hl1. apply begin_prop. by right.
    + intros k v Hv. pose proof (vote_le _ _ _ _ _ _ Hw Hv) as Hle. by rewrite field_self in Hle.
    + rewrite Hl1. intros k v [?|(_ & ? & ?)]%begin_vote; [by left|by right].
  - intros _. by rewrite Hl2, Hfc.
  - rewrite Hio', Hio. done.
  - done.
  - destruct Hpd as [->| ->]; [done|]. by intros ?.
Qed.

Lemma begin_vinv : vinv (abs (M n') (sent_ n')).
Proof using HN Hw Hrdy Hp Hout Hm1 Hm2 Hm3 Hm4.
  destruct begin_quorum as [Hrq Hmaj]. destruct Hrdy as [_ [Hrp _ _ _] _ Hnp _ Hj _].
  eapply vinv_equiv_1; [|eapply vstep_vinv; [apply _|by eapply i_vote|]].
  2: { by eapply (VPropose _ _ _ r (prom_of n0) (m_quorum (n_mon n0)) (lc_of n0 + 1) x); cbn; rewrite ?field_self. }
  split_and!; cbn.
  - intros a. unfold field, PaxosSteps.M. destruct (decide (a = r)) as [->|Hne]; [by rewrite !lookup_insert_eq|by rewrite !lookup_insert_ne].
  - intros a k v. by rewrite begin_vote.
  - intros k v y. by rewrite begin_prop.
Qed.

Lemma begin_W : W n'.
Proof using HN Hw Hrole Hrdy Hmon Hio' Hlc Hfc Hpn Hp Hpd Hst Hnv Hacc Hsto Hout Hm1 Hm2 Hm3 Hm4.
  destruct (W_rank _ _ _ _ _ _ _ _ Hw) as (HrN & Hr & Hsz).
  eapply (inv_extend run_op N s0 r (M n0) (net_ n0) (sent_ n0) (M n') (net_ n') (sent_ n') out begin_extends n0 n');
    [apply lookup_insert_eq|unfold PaxosSteps.M; by rewrite insert_insert_eq|exact Hw|unfold rank in *; by rewrite Hmon|by rewrite Hmon|..].
  - intros pk Hpk. eapply pkt_ok_bcast; [exact Hr|exact Hpk|].
    intros a Ha Hne. unfold PaxosInv.pkt_ok. cbn. rewrite Hm1, Hm2, Hm3, Hm4, field_self, Hpn.
    destruct Hrdy as [[_ Hsp Hso Hss _ _ _ _] _ _ _ _ _ _]. apply (sess_coll _ _ _ _ _ Hw) in Hss. split_and!; [done|done|lia|lia|eauto].
  - intros pk Hpk%begin_op. split; congruence.
  - apply begin_vinv.
  - by left.
  - pose proof (W_store _ _ _ _ _ _ _ _ Hw) as [Hdk Hl _ _ _]. destruct Hl as [Hl1 Hl2]; [by rewrite (rdy_io _ _ Hrdy)|].
    intros k v y [?|(-> & -> & ->)]%begin_prop; [by left|right]. exists (d_first_committed (n_store n0)), (d_service (n_store n0)).
    replace (lc_of n0 + 1 - 1) with (d_last_committed (n_store n0)) by lia.
    split; [|rewrite Hl2; apply Hrdy]. rewrite begin_sent. apply hist_app, Hdk.
  - eapply ss_step; [exact begin_extends|by eapply i_order|]. intros y z Hz%begin_op _ Ho. congruence.
  - intros pk Hpk Ho. rewrite begin_net in Hpk. apply elem_of_app in Hpk as [Hpk|Hpk%begin_op]; [|congruence].
    assert (field prom_of (M n') (dst pk) = field prom_of (M n0) (dst pk)) as ->; [|by eapply i_fresh].
    unfold field, PaxosSteps.M. destruct (decide (dst pk = r)) as [->|Hne]; [by rewrite !lookup_insert_eq|by rewrite !lookup_insert_ne].
  - apply begin_store.
  - unfold PaxosInv.node_ok. rewrite Hmon, Hrole. split; [apply begin_session|].
    pose proof begin_recovered. pose proof begin_updating. unfold PaxosInv.phase. destruct Hst as [-> | ->]; done.
  - intros r2 n2 Hne Hl. eapply node_ok_step; [exact begin_extends|eapply out_other; [exact begin_extends|done]|].
    intros pk Hpk%begin_op _. rewrite Hpk. split; [done|by intros [? _]].
Qed.
End begin.

Lemma begin_value_ok v t n0 n n' :
  W n0 -> like n0 n -> n_mon n = n_mon n0 -> m_role (n_mon n0) = Leader -> v = Some t -> ready n0 (wrap (lc_of n0) t) ->
  begin_ v n = Ret n' -> W n' /\ n_io n' = None.
Proof using HN.
  intros Hw Hlike Hmon Hrole -> Hrdy H. destruct (W_rank _ _ _ _ _ _ _ _ Hw) as (_ & Hr & _).
  pose proof (begin_quorum n0 _ Hrdy) as [_ Hmaj]. rewrite <- Hmon in Hmaj.
  destruct (begin_spec _ _ _ _ Hlike Hmon Hmaj H) as (t' & m & [= <-] & (_ & H2 & _ & _ & _ & H6 & H7 & H8 & H9 & H10) & Hmon' & Hst & Hx).
  destruct Hx as (Hnv & Hacc & Hsto & Hout & Hm1 & Hm3 & Hm4 & Hm5). rewrite Hr in Hacc.
  pose proof (rdy_io _ _ Hrdy) as Hio. split; [|by rewrite <- Hio]. by eapply (begin_W n0 n' _ m).
Qed.
End propose.
