(* ===== verification/PaxosLeader.v ===== *)
(** * Leaders: rounds and recovery

    [finish_round], [commit_finish] and [bootstrap] keep the invariant, with
    the proposals they start; so do the answers of phase 1, up to the point
    where all of the quorum has answered ([handle_last_ok]). *)

From stdpp Require Import gmap sorting.
From S2P Require Import Prelude Paxos PaxosVote PaxosNet PaxosInv PaxosFrame PaxosStore PaxosSteps PaxosPropose.
Open Scope Z_scope.

Section leader.
Context {Op Svc : Type} (run_op : Op -> Svc -> Svc) (cfg : config) (N : Z) (s0 : Svc).
Context (HN : 2 <= N <= 100) (Hcfg : 0 <= paxos_min cfg).
Notation node := (@node Op Svc).
Notation packet := (@packet Op).
Notation tx := (list (@vop Op)).
Notation sessP := (@sessP Op).
Notation chosenP := (@chosenP Op N).
Notation disk_ok := (@disk_ok Op Svc run_op N s0).
Notation store_ok := (@store_ok Op Svc run_op N s0).
Notation vals_ok := (@vals_ok Op N).
Notation session := (@session Op Svc N).
Notation phase := (@phase Op Svc N).
Notation node_ok := (@node_ok Op Svc N).
Notation abs := (@abs Op Svc).

(** ** Transactions of the services and of [trim] *)

Lemma fc_after_app (t t' : tx) f : fc_after (t ++ t') f = fc_after t' (fc_after t f).
Proof. apply foldl_app. Qed.

Lemma services_fc (t : tx) f : services t -> fc_after t f = f.
Proof.
  revert f. induction t as [|o t IH]; intros f Hs; [done|]. cbn. destruct (Hs o) as [o' ->]; [by left|].
  apply IH. intros o2 Ho. apply Hs. by right.
Qed.

Lemma services_erases (t : tx) v : services t -> ~ erases t v.
Proof. intros Hs He. by destruct (Hs _ He). Qed.

Lemma erase_from_spec k f : (forall v, erases (Op := Op) (erase_from k f) v <-> f <= v < f + Z.of_nat k) /\ forall g, fc_after (Op := Op) (erase_from k f) g = g.
Proof.
  revert f. induction k as [|k IH]; intros f; cbn [erase_from].
  - split; [|done]. intros v. split; [by intros []%not_elem_of_nil|lia].
  - destruct (IH (f + 1)) as [H1 H2]. split; [|intros g; apply H2]. intros v. unfold erases in *. rewrite elem_of_cons, H1.
    split; [intros [[= ->]|?]; lia|]. intros ?. destruct (decide (v = f)) as [->|]; [by left|right; lia].
Qed.

Lemma wrap_services lc f (t : tx) : services t -> 0 <= f <= lc -> trim_ok f (lc + 1) (wrap lc t).
Proof.
  intros Hs Hf. unfold wrap. destruct (Z.eqb_spec lc 0) as [->|].
  - assert (fc_after (PutFirstCommitted 1 :: t) f = 1) as Hfa by by apply (services_fc t 1).
    unfold trim_ok. rewrite Hfa. split_and!; [lia|lia| |intros; lia|eauto].
    intros v [?|He]%elem_of_cons; [done|]. by apply services_erases in He.
  - unfold trim_ok. rewrite services_fc by done. split_and!; [lia|lia| |intros; lia|lia]. intros v He. by apply services_erases in He.
Qed.

Lemma wrap_trim lc f e (t : tx) :
  services t -> 0 <= f < e -> e <= lc ->
  trim_ok f (lc + 1) (wrap lc (t ++ erase_from (Z.to_nat (e - f)) f ++ [PutFirstCommitted e])).
Proof.
  intros Hs Hf He. unfold wrap. destruct (Z.eqb_spec lc 0) as [->|_]; [lia|]. set (t' := t ++ _).
  destruct (erase_from_spec (Z.to_nat (e - f)) f) as [Her Hfc].
  assert (fc_after t' f = e) as Hfa by (unfold t'; by rewrite !fc_after_app).
  unfold trim_ok. rewrite Hfa. unfold erases in *. split_and!; [lia|lia| | |lia].
  - intros v [Hv|[Hv|Hv%list_elem_of_singleton]%elem_of_app]%elem_of_app; [by apply services_erases in Hv|apply Her in Hv; lia|done].
  - intros v _ Hv. apply elem_of_app. right. apply elem_of_app. left. apply Her. lia.
Qed.

Context (m0 : gmap Z node) (ν0 σ0 : list packet) (r : Z).
Notation M := (M m0 r).
Notation net_ := (net_ (Svc := Svc) ν0).
Notation sent_ := (sent_ (Svc := Svc) σ0).
Notation W := (W run_op N s0 m0 ν0 σ0 r).
Notation ready := (ready run_op N m0 ν0 σ0 r).

Lemma W_range n : W n -> n_io n = None -> 0 <= first_committed (n_px n) <= lc_of n.
Proof.
  intros Hw Hio. pose proof (W_store _ _ _ _ _ _ _ _ Hw) as [Hdk Hl _ _ _]. destruct Hl as [<- <-]; [by rewrite Hio|]. apply Hdk.
Qed.

Lemma add_pending_some l (n : node) t :
  pending_proposal (n_px n) = Some t -> pending_proposal (n_px (add_pending l n)) = Some (t ++ l).
Proof. intros H. unfold add_pending. cbn. by rewrite H. Qed.

(** ** Rounds *)

Lemma idle_ready n t :
  W n -> m_role (n_mon n) = Leader -> p_state (n_px n) = STATE_ACTIVE ->
  trim_ok (first_committed (n_px n)) (lc_of n + 1) t -> ready n t.
Proof.
  intros Hw Hrole Hst Htr. pose proof (W_node _ _ _ _ _ _ _ _ Hw) as Hn. unfold PaxosInv.node_ok in Hn. rewrite Hrole in Hn.
  destruct Hn as [Hs Hp]. unfold PaxosInv.phase in Hp. rewrite Hst in Hp. destruct Hp as [[] (Hnv & Hio & Htk)].
  split; try done.
  - split; try done.
    + intros a k v Ha Hk Hv. pose proof (rd_votes a k v Ha Hk Hv). lia.
    + intros v x Hx. pose proof (rd_props v x Hx). lia.
  - intros u Hu. pose proof (rd_props _ _ Hu). lia.
  - left. intros a k Ha Hk Hv. pose proof (rd_votes _ _ _ Ha Hk Hv). lia.
Qed.

Lemma propose_pending_ok n0 n n' t :
  W n0 -> m_role (n_mon n0) = Leader -> p_state (n_px n0) = STATE_ACTIVE -> n_mon n = n_mon n0 ->
  like n0 (upd (set_pending_proposal None) n) -> pending_proposal (n_px n) = Some t ->
  trim_ok (first_committed (n_px n0)) (lc_of n0 + 1) (wrap (lc_of n0) t) -> propose_pending n = Ret n' -> W n' /\ n_io n' = None.
Proof using HN.
  intros Hw Hrole Hst Hmon Hlike Hpd Htr H. unfold propose_pending in H. rinv H. rewrite Hpd in H. cbn [deref rbind] in H.
  eapply (begin_value_ok run_op N s0 HN m0 ν0 σ0 r (Some t) t n0); [done| | |done|done| |exact H]; [|done|by apply idle_ready].
  exact Hlike.
Qed.

Lemma W_io_active n : W n -> p_state (n_px n) = STATE_ACTIVE -> n_io n = None.
Proof. intros Hw Hst. eapply io_none; [done|..]; apply bool_decide_eq_false_2; congruence. Qed.

Lemma finish_round_ok n n' :
  W (upd (set_p_state STATE_ACTIVE) n) -> finish_round cfg n = Ret n' -> W n' /\ n_io n' = None.
Proof using HN Hcfg.
  intros Hw H. unfold finish_round in H. rinv H. unfold rassert in E. destruct (is_leader n) eqn:Hl; [|done].
  apply bool_decide_eq_true_1 in Hl. set (n1 := upd _ n) in *. assert (n_io n1 = None) as Hio by (by eapply W_io_active).
  pose proof (W_range n1 Hw Hio) as Hfc. pose proof (W_store _ _ _ _ _ _ _ _ Hw) as [_ _ _ _ Hpd].
  rinv H. rename a0 into n2.
  assert (n_mon n2 = n_mon n1 /\ like n1 (upd (set_pending_proposal None) n2) /\ is_active n2 = true /\
    ((n2 = n1) \/ exists t e, services t /\ first_committed (n_px n1) < e <= lc_of n1 /\
      pending_proposal (n_px n2) = Some (t ++ erase_from (Z.to_nat (e - first_committed (n_px n1))) (first_committed (n_px n1)) ++ [PutFirstCommitted e])))
    as (Hmon & Hlike & Hact & Hcase).
  { clear H. destruct (should_trim cfg (n_px n1)); [|injection E0 as <-; split_and!; try done; [|by left]; do 9 (split; [done|]); by right].
    unfold trim in E0. rinv E0. destruct (Z.leb_spec (Z.min (last_committed (n_px n1) - paxos_min cfg) (first_committed (n_px n1) + paxos_trim_max cfg)) (first_committed (n_px n1))) as [|Hlt].
    { injection E0 as <-. split_and!; try done; [|by left]. do 9 (split; [done|]). by right. }
    rinv E0. injection E0 as <-. unfold get_pending_transaction in E2. rinv E2. fold (lc_of n1) in *.
    destruct (pending_proposal (n_px n1)) as [t|] eqn:Ep.
    - injection E2 as <-. split_and!; try done; [do 9 (split; [done|]); by right|]. right.
      exists t, (Z.min (lc_of n1 - paxos_min cfg) (first_committed (n_px n1) + paxos_trim_max cfg)).
      split_and!; [exact (Hpd t eq_refl)|lia|lia|]. exact (add_pending_some _ _ _ Ep).
    - rinv E2. injection E2 as <-. split_and!; try done; [do 9 (split; [done|]); by right|]. right.
      exists [], (Z.min (lc_of n1 - paxos_min cfg) (first_committed (n_px n1) + paxos_trim_max cfg)).
      split_and!; [by intros ? []%not_elem_of_nil|lia|lia|]. done. }
  destruct (pending_proposal (n_px n2)) as [t|] eqn:Ep.
  2: { injection H as <-. destruct Hcase as [->|(t & e & _ & _ & Hx)]; [done|congruence]. }
  rewrite Hact in H. eapply propose_pending_ok; [exact Hw|done|done|done|done|exact Ep| |exact H].
  destruct Hcase as [->|(t0 & e & Ht0 & He & [= ->])]; [apply wrap_services; [exact (Hpd t Ep)|done]|]. apply wrap_trim; [done|split; [apply Hfc|apply He]|apply He].
Qed.

Lemma refresh_active n :
  W n -> m_role (n_mon n) = Leader -> p_state (n_px n) = STATE_REFRESH -> W (upd (set_p_state STATE_ACTIVE) n).
Proof.
  intros Hw Hrole Hst. eapply (W_local _ _ _ _ _ _ _ n _ []); [done|by rewrite app_nil_r|done..| | |].
  - by intros ? []%not_elem_of_nil.
  - intros []. by split.
  - unfold PaxosInv.node_ok. cbn. rewrite Hrole. intros [Hs Hp]. split; [destruct Hs; by split|].
    unfold PaxosInv.phase in *. cbn. rewrite Hst in Hp. destruct Hp as [[] ?]. split; [by split|done].
Qed.

(** The state in which [commit_finish] refreshes the services. *)
Record committed_as (n n' : node) (m : MMonPaxos) : Prop := CommittedAs {
  ca_mon : n_mon n' = n_mon n;
  ca_store : n_store n' = n_store n;
  ca_io : n_io n' = None;
  ca_out : n_out n' = n_out n ++ bcast_out m n;
  ca_lc : lc_of n' = lc_of n + 1;
  ca_fc : first_committed (n_px n') = d_first_committed (n_store n);
  ca_pn : pn_of n' = pn_of n;
  ca_prom : prom_of n' = prom_of n;
  ca_state : p_state (n_px n') = STATE_REFRESH;
  ca_new : new_value (n_px n') = None;
  ca_pending : pending_proposal (n_px n') = pending_proposal (n_px n);
}.

Lemma committed_ok n n' :
  W n -> n_io n = Some Written ->
  committed_as n n' (MkMMonPaxos OP_COMMIT (m_epoch (n_mon n)) 0 (lc_of n + 1) 0 (prom_of n) 0 0 [(lc_of n + 1, new_value (n_px n))]) -> W n'.
Proof.
  intros Hw Hio. set (m := MkMMonPaxos _ _ _ _ _ _ _ _ _). intros [].
  destruct (written_state _ _ _ _ _ _ _ n Hw) as (Hrole & Hst & Hs & Hrd & [(x & Hx & Hch & _) Htk]); [by rewrite Hio|].
  destruct (W_rank _ _ _ _ _ _ _ _ Hw) as (_ & Hr & _).
  assert (vals_ok (sent_ n) m) as Hv.
  { split_and!; cbn.
    - repeat constructor.
    - intros k bl [= -> ->]%list_elem_of_singleton _. eauto.
    - intros k bl v [= -> ->]%list_elem_of_singleton Hk. exists (new_value (n_px n)). apply list_elem_of_singleton. f_equal. lia. }
  assert (net_ n' = net_ n ++ bcast_out m n) as Hnet by (unfold PaxosSteps.net_; by rewrite ca_out0, (assoc_L (++))).
  assert (sent_ n' = sent_ n ++ bcast_out m n) as Hsent by (unfold PaxosSteps.sent_; by rewrite ca_out0, (assoc_L (++))).
  assert (forall pk, pk ∈ bcast_out m n -> src pk = r /\ op (msg pk) = OP_COMMIT) as Hop.
  { intros pk (a & _ & _ & ->)%elem_bcast_out. by rewrite Hr. }
  eapply (W_local _ _ _ _ _ _ _ n _ (bcast_out m n)); [done|done|unfold rank; by rewrite ca_mon0|by rewrite ca_mon0|done|lia|lia|unfold ep_of; by rewrite ca_mon0| | |].
  - intros pk Hpk. destruct (Hop pk Hpk) as [? Ho]. split_and!; [done|by rewrite Ho|].
    eapply pkt_ok_bcast; [done|exact Hpk|]. intros a _ _. unfold PaxosInv.pkt_ok. cbn. rewrite Hsent. by apply vals_ok_app.
  - intros [Hdk _ Hl Hpn Hpd]. split; rewrite ?ca_store0, ?ca_prom0, ?ca_lc0, ?ca_fc0, ?ca_pn0, ?ca_pending0, ?ca_io0; try done.
    intros _. split; [exact (Hl Hio)|done].
  - unfold PaxosInv.node_ok. rewrite ca_mon0, Hrole. intros [Hs' Hp]. split.
    { destruct Hs'. split; unfold ep_of in *; rewrite ?ca_mon0, ?ca_prom0, ?ca_pn0; done. }
    apply phase_recovered in Hp; [|destruct Hst as [-> | ->]; done].
    assert (phase_bound (p_state (n_px n)) (lc_of n) = lc_of n + 1) as Hb by (destruct Hst as [-> | ->]; done). rewrite Hb in Hp.
    unfold PaxosInv.phase. rewrite ca_state0. split; [destruct Hp; split; rewrite ?Hep, ?ca_mon0, ?ca_prom0, ?ca_lc0; done|].
    split_and!; [done..|]. rewrite ca_prom0. intros a pk Hpk Ht. rewrite Hnet in Hpk.
    apply elem_of_app in Hpk as [Hpk|Hpk]; [by apply (Htk a pk)|]. apply Hop in Hpk as [_ Ho].
    destruct Ht as [_ [[? _]|[? _]]]; congruence.
Qed.

Lemma finish_refreshed n n' now :
  W n -> p_state (n_px n) = STATE_REFRESH -> is_leader n = true ->
  (n1 <~ (if 1 <? quorum_size n then extend_lease cfg now n else Ret n);; finish_round cfg n1) = Ret n' -> W n' /\ n_io n' = None.
Proof using HN Hcfg.
  intros Hw Hst Hl%bool_decide_eq_true_1 H. rinv H. rename a into n1.
  assert (W n1 /\ core n1 = core n) as [Hw1 Hc1].
  { destruct (1 <? quorum_size n); [|by injection E as <-]. apply (extend_lease_ok run_op cfg N s0 m0 ν0 σ0 r) in E as (? & ? & _); done. }
  apply core_fields in Hc1 as (Hm & _ & Hs & _).
  eapply finish_round_ok; [|exact H]. apply refresh_active; [done|by rewrite Hm|by rewrite Hs].
Qed.

Lemma commit_finish_ok now nb n n' :
  W n -> n_io n = Some Written -> commit_finish cfg now nb n = Ret n' -> W n' /\ n_io n' = None.
Proof using HN Hcfg.
  intros Hw Hio H. unfold commit_finish in H. do 3 rinv H. clear E E0 E1.
  set (nR := upd (fun p => set_commits_started _ p) _) in H.
  assert (W nR) as Hw1 by (eapply committed_ok; [exact Hw|exact Hio|by split]).
  assert (n_io nR = None /\ p_state (n_px nR) = STATE_REFRESH) as [HioR HstR] by done. clearbody nR.
  unfold do_refresh in H. destruct nb.
  { injection H as <-. split; [|done]. by apply reset_ok. }
  unfold commit_proposal in H. rinv H. do 2 rinv E. injection E as <-. clear E1.
  unfold rassert in E0. destruct (is_leader nR) eqn:Hl; [|done].
  assert (W (upd (fun p => finish_contexts (committing_finishers p) (set_committing_finishers [] p)) nR)) as Hw2.
  { unfold upd. rewrite finish_contexts_eq. eapply (W_core_nil _ _ _ _ _ _ _ nR); [done|done|done|by left]. }
  eapply finish_refreshed; [exact Hw2| |exact Hl|exact H]. unfold upd. rewrite finish_contexts_eq. exact HstR.
Qed.

Lemma store_flush_ok now answers n n' : W n -> store_flush run_op cfg now answers n = Ret n' -> W n' /\ n_io n' = None.
Proof using HN Hcfg.
  revert n. induction answers as [|nb answers IH]; intros n Hw H; cbn in H; destruct (n_io n) as [i|] eqn:Hi; try done; [by injection H as <-| |by injection H as <-].
  rinv H. apply commit_finish_ok in E as [Hw' _]; [by eapply IH|by apply flush_ok|].
  unfold flush. rewrite Hi. by destruct i.
Qed.

Lemma leave_quorum_ok st now answers n n' : in_quorum st = false -> W n -> leave_quorum run_op st cfg now answers n = Ret n' -> W n'.
Proof using HN Hcfg.
  intros Hst Hw H. unfold leave_quorum, wait_for_paxos_write in H. rinv H. injection H as <-. destruct (is_writing n || is_writing_previous n) eqn:Hwr.
  - apply store_flush_ok in E as [? ?]; [by apply reset_ok|done].
  - injection E as <-. apply reset_ok; [done..|]. apply orb_false_iff in Hwr as [? ?]. by eapply io_none.
Qed.

Lemma bootstrap_ok now answers n n' : W n -> bootstrap run_op cfg now answers n = Ret n' -> W n'.
Proof using HN Hcfg. by apply leave_quorum_ok. Qed.

Lemma collect_state old (n n' : node) : collect old n = Ret n' -> p_state (n_px n') = STATE_RECOVERING.
Proof.
  intros H. unfold collect in H. do 2 rinv H. destruct (get_new_proposal_number _ a0) as [[p n1]| |] eqn:E1; [|done..]. cbn [rbind] in H.
  injection H as <-. unfold get_new_proposal_number in E1. rinv E1. injection E1 as _ <-.
  destruct (exists_version _ _); [rinv E0|]; injection E0 as <-; done.
Qed.

(** ** The end of recovery *)

Lemma trim_ok_eq f n (x y : tx) :
  tx_eq run_op x y -> (n = 1 -> exists t, y = PutFirstCommitted 1 :: t) -> trim_ok f n x -> trim_ok f n y.
Proof.
  intros (Hf & _ & He) Hy (H1 & H2 & H3 & _). unfold trim_ok. rewrite <- Hf. split_and!; [lia|lia| | |done].
  - intros v Hv. by apply H2, He.
  - intros v Hv Hr. by apply He, H3.
Qed.

(** A value that is proposed again is wrapped again, to the same effect. *)
Lemma wrap_again lc f x : trim_ok f (lc + 1) x -> tx_eq run_op x (wrap lc x).
Proof.
  intros (_ & _ & _ & Hw). unfold wrap. destruct (Z.eqb_spec lc 0) as [->|]; [|done]. destruct (Hw eq_refl) as [t ->].
  split_and!; [done..|]. intros v. unfold erases. rewrite !elem_of_cons. split; [by right|]. by intros [?|?].
Qed.

Lemma no_tok n a pk :
  W n -> (forall v x, ~ propP (sent_ n) (prom_of n) v x) -> pk ∈ net_ n -> ~ tok r (prom_of n) a pk.
Proof.
  intros Hw Hno Hin [Hp Ht]. apply (i_sub _ _ _ _ _ _ Hw) in Hin. pose proof (i_pkt _ _ _ _ _ _ Hw pk Hin) as Hb.
  unfold PaxosInv.pkt_ok in Hb. destruct Ht as [(Ho & _)|(Ho & _)]; rewrite Ho in Hb.
  - destruct Hb as (_ & _ & _ & x & Hx). eapply (Hno _ x). exists pk. split_and!; try done.
  - destruct Hb as (_ & x & Hx). rewrite Hp in Hx. by eapply Hno.
Qed.

(** All of the quorum has answered. *)
Record complete (n : node) : Prop := Complete {
  co_recovering : exists X, recovering (M n) (net_ n) (sent_ n) r n X;
  co_all a : a ∈ m_quorum (n_mon n) -> reported (sent_ n) n a /\ prom_of n <= field prom_of (M n) a /\
    (a <> r -> quiet (net_ n) r a);
}.

Lemma complete_ok n :
  W n -> m_role (n_mon n) = Leader -> p_state (n_px n) = STATE_RECOVERING -> num_last (n_px n) = quorum_size n -> complete n.
Proof using.
  intros Hw Hrole Hst Hnum. pose proof (W_node _ _ _ _ _ _ _ _ Hw) as Hn. unfold PaxosInv.node_ok in Hn. rewrite Hrole in Hn.
  destruct Hn as [Hs Hp]. unfold PaxosInv.phase in Hp. rewrite Hst in Hp. destruct Hp as [X HX]. split; [by exists X|].
  destruct HX as [_ _ _ HX Hsz Hself Hpeers _]. unfold quorum_size in Hnum. rewrite Hnum in Hsz.
  destruct (ss_quorum _ _ _ _ _ Hs) as [Hr _].
  assert (X = m_quorum (n_mon n) ∖ {[r]}) as ->.
  { assert (size (m_quorum (n_mon n) ∖ {[r]}) = size (m_quorum (n_mon n)) - 1)%nat as Hs1.
    { rewrite size_difference; [by rewrite size_singleton|]. by apply singleton_subseteq_l. }
    apply set_subseteq_size_eq; [done|lia]. }
  intros a Ha. destruct (decide (a = r)) as [->|Hne]; [split_and!; [done|by rewrite field_self|done]|].
  destruct (Hpeers a) as (? & ? & ?); [|by split_and!]. apply elem_of_difference. split; [done|]. by apply not_elem_of_singleton.
Qed.

(** What is known of the votes when recovery ends. *)
Lemma complete_recovered n b :
  W n -> complete n -> lc_of n <= b -> (lc_of n < b \/ uncommitted_v (n_px n) <> lc_of n + 1) ->
  recovered (M n) (net_ n) (sent_ n) r n b.
Proof.
  intros Hw [[X []] Hall] Hb Hu. split.
  - intros a Ha. by apply Hall.
  - intros a Ha Hne. by apply Hall.
  - intros a k v Ha Hk Hv. destruct (Hall a Ha) as [Hr _]. destruct (Hr k v Hk Hv) as [?|(-> & Huv & _)]; [lia|]. destruct Hu; [lia|done].
  - intros v x Hx. by apply rc_noprop in Hx.
Qed.

Lemma activate n :
  W n -> m_role (n_mon n) = Leader -> p_state (n_px n) = STATE_RECOVERING -> complete n -> uncommitted_v (n_px n) <> lc_of n + 1 ->
  W (upd (set_p_state STATE_ACTIVE) n).
Proof using.
  intros Hw Hrole Hst Hco Hu. pose proof (complete_recovered n (lc_of n) Hw Hco ltac:(lia) ltac:(by right)) as Hrd.
  destruct Hco as [[X []] _].
  assert (forall a pk, pk ∈ net_ n -> ~ tok r (prom_of n) a pk) as Htk by (intros a pk Hin; by apply no_tok).
  pose proof (W_node _ _ _ _ _ _ _ _ Hw) as Hn. unfold PaxosInv.node_ok in Hn. rewrite Hrole in Hn. destruct Hn as [Hs _].
  destruct (W_rank _ _ _ _ _ _ _ _ Hw) as (_ & Hr & _).
  eapply (W_local _ _ _ _ _ _ _ n _ []); [done|by rewrite app_nil_r|done..| | |].
  - by intros ? []%not_elem_of_nil.
  - intros []. by split.
  - unfold PaxosInv.node_ok. cbn. rewrite Hrole. intros [Hs' _]. split; [destruct Hs'; by split|].
    unfold PaxosInv.phase. cbn. split; [|done]. destruct Hrd. split; try done.
    intros a Ha. specialize (rd_prom a Ha). destruct (decide (a = r)) as [->|Hne]; [by rewrite field_self|].
    unfold field, PaxosSteps.M in *. by rewrite lookup_insert_ne in *.
Qed.

Lemma complete_ready n x :
  W n -> m_role (n_mon n) = Leader -> complete n -> uncommitted_v (n_px n) = lc_of n + 1 -> uncommitted_value (n_px n) = Some x ->
  ready n (wrap (lc_of n) x).
Proof using.
  intros Hw Hrole Hco Hu Hval. pose proof (complete_recovered n (lc_of n + 1) Hw Hco ltac:(lia) ltac:(left; lia)) as Hrd.
  pose proof Hco as [[X []] Hall]. pose proof (W_range n Hw rc_io) as Hrg.
  destruct rc_unc as [[Hu0 _]|(_ & Hpos & y & Hy & Hpr)]; [lia|]. fold (lc_of n) in Hpr. assert (y = x) as -> by congruence.
  pose proof (W_node _ _ _ _ _ _ _ _ Hw) as Hn. unfold PaxosInv.node_ok in Hn. rewrite Hrole in Hn. destruct Hn as [Hs _].
  assert (trim_ok (first_committed (n_px n)) (lc_of n + 1) x) as Htr.
  { destruct (i_prop _ _ _ _ _ _ Hw _ _ _ Hpr) as (f & sv & Hh & Htr). replace (lc_of n + 1 - 1) with (lc_of n) in Hh by lia.
    pose proof (W_store _ _ _ _ _ _ _ _ Hw) as [Hdk Hl _ _ _]. destruct Hl as [Hl1 Hl2]; [by rewrite rc_io|].
    rewrite <- Hl1 in Hh. destruct (hist_det _ _ _ _ _ _ _ _ _ _ (i_vote _ _ _ _ _ _ Hw) Hh (dk_hist _ _ _ _ _ _ _ Hdk)) as [-> _]. by rewrite <- Hl2. }
  pose proof (wrap_again _ _ _ Htr) as Heq. split; try done.
  - intros a pk Hin. by apply no_tok.
  - right. exists (uncommitted_pn (n_px n)), x. fold (prom_of n) in Hpos. split_and!; [lia|done|done|].
    intros a k Ha Hk Hv. destruct (Hall a Ha) as [Hr _]. destruct (Hr k _ Hk Hv) as [?|(_ & _ & ?)]; [lia|done].
  - eapply trim_ok_eq; [exact Heq| |exact Htr]. intros Hone. unfold wrap. destruct (Z.eqb_spec (lc_of n) 0); [eauto|lia].
Qed.

Lemma collected_ok now nb n b n' :
  W n -> is_leader n = true -> p_state (n_px n) = STATE_RECOVERING -> num_last (n_px n) = quorum_size n ->
  collected cfg now nb n = Ret (b, n') -> W n' /\ n_io n' = None.
Proof using HN Hcfg.
  intros Hw Hl%bool_decide_eq_true_1 Hst Hnum H. unfold collected in H. set (n1 := upd _ n) in H.
  assert (W n1) as Hw1 by (eapply (W_core_nil _ _ _ _ _ _ _ n); [done|done|done|by left]).
  assert (complete n1) as Hco by by apply complete_ok.
  assert (p_state (n_px n1) = STATE_RECOVERING /\ m_role (n_mon n1) = Leader /\ num_last (n_px n1) = quorum_size n1) as (Hst1 & Hl1 & Hnum1) by done.
  clearbody n1. fold (lc_of n1) in H.
  destruct ((uncommitted_v (n_px n1) =? lc_of n1 + 1) && nonempty (uncommitted_value (n_px n1))) eqn:Hu.
  - rinv H. injection H as _ <-. apply andb_true_iff in Hu as [Hu%Z.eqb_eq Hval].
    destruct (uncommitted_value (n_px n1)) as [x|] eqn:Hx; [|done].
    eapply (begin_value_ok run_op N s0 HN m0 ν0 σ0 r (Some x) x n1); [| | | | | |exact E]; [done| |done..|by apply complete_ready].
    do 9 (split; [done|]). by left.
  - assert (uncommitted_v (n_px n1) <> lc_of n1 + 1) as Hne.
    { intros Heq. rewrite Heq, Z.eqb_refl in Hu. destruct Hco as [[X []] _]. pose proof (W_range n1 Hw1 rc_io).
      destruct rc_unc as [[? _]|(_ & _ & y & Hy & _)]; [lia|]. by rewrite Hy in Hu. }
    rinv H. rename a into n2. apply (extend_lease_ok run_op cfg N s0 m0 ν0 σ0 r) in E as (Hw2 & Hc2 & _); [|done].
    pose proof (core_fields _ _ Hc2) as (Hm2 & Hi2 & Hs2 & _).
    assert (num_last (n_px n2) = quorum_size n2 /\ uncommitted_v (n_px n2) <> lc_of n2 + 1) as [Hnum2 Hne2].
    { unfold quorum_size, lc_of in *. rewrite Hm2. unfold core in Hc2. injection Hc2. intros. split; congruence. }
    assert (complete n2) as Hco2 by (apply complete_ok; [done|by rewrite Hm2|by rewrite Hs2|done]).
    unfold do_refresh in H. destruct nb.
    + cbn [rbind] in H. injection H as _ <-. split; [|destruct Hco2 as [[X []] _]; done]. apply reset_ok; [done..|]. by destruct Hco2 as [[X []] _].
    + rinv H. injection H as _ <-. eapply finish_round_ok; [|exact E].
      apply activate; [done|by rewrite Hm2|by rewrite Hs2|done|done].
Qed.

(** ** Answers of phase 1 *)

(** An answer of this session that is not counted yet. *)
Record uncounted (n : node) (from : Z) (X : gset Z) : Prop := Uncounted {
  un_X : from ∉ X;
  un_quorum : from ∈ m_quorum (n_mon n) /\ from <> r;
  un_quiet : quiet (net_ n) r from;
}.

Lemma recovering_node n n' X :
  m_role (n_mon n) = Leader -> p_state (n_px n') = STATE_RECOVERING -> n_mon n' = n_mon n -> prom_of n' = prom_of n ->
  pn_of n' = pn_of n -> net_ n' = net_ n -> sent_ n' = sent_ n ->
  node_ok (M n') (net_ n') (sent_ n') r n -> recovering (M n) (net_ n) (sent_ n) r n' X -> node_ok (M n') (net_ n') (sent_ n') r n'.
Proof.
  intros Hrole Hst Hm Hp Hpn Hnet Hsent Hn [? ? ? HX ? ? Hpeers ?]. rewrite Hnet, Hsent in *. unfold PaxosInv.node_ok in *. rewrite Hm, Hrole in *.
  destruct Hn as [[] _]. split; [split; unfold ep_of in *; rewrite ?Hm, ?Hp, ?Hpn; done|].
  unfold PaxosInv.phase. rewrite Hst. exists X. split; try done; [by rewrite Hm|]. intros a Ha. destruct (Hpeers a Ha) as (? & Hpa & ?). split_and!; [done| |done].
  assert (a <> r) as Hne. { intros ->. apply HX, elem_of_difference in Ha as [_ []]. by apply elem_of_singleton. }
  unfold field, PaxosSteps.M in *. by rewrite lookup_insert_ne in *.
Qed.

Lemma count_recovering n pk L X n' :
  W n -> recovering (M n) (net_ n) (sent_ n) r n X -> last_ok N (M n) (sent_ n) pk L -> dst pk = r ->
  pn (msg pk) = prom_of n -> uncounted n (src pk) X -> msg_last_committed (msg pk) <= lc_of n ->
  n' = upd (fun p => learn_uncommitted (msg pk) (set_num_last (num_last p + 1) p)) n ->
  recovering (M n) (net_ n) (sent_ n) r n' ({[src pk]} ∪ X).
Proof.
  intros Hw [] [] Hdst Hpn [HnX [Hq Hne] Hqt] Hmlc ->. rewrite Hdst, field_self in la_known.
  pose proof (W_range n Hw rc_io) as Hrg. set (p1 := set_num_last (num_last (n_px n) + 1) (n_px n)).
  assert (exists uv up ux, learn_uncommitted (msg pk) p1 = set_uncommitted_v uv (set_uncommitted_pn up (set_uncommitted_value ux p1)) /\
    uncommitted_pn (n_px n) <= up /\ (uncommitted_v (n_px n) = lc_of n + 1 -> uv = lc_of n + 1) /\
    (msg_last_committed (msg pk) = lc_of n -> msg_uncommitted_pn (msg pk) <> 0 -> uv = lc_of n + 1 /\ msg_uncommitted_pn (msg pk) <= up) /\
    unc_ok (sent_ n) (upd (fun _ => set_uncommitted_v uv (set_uncommitted_pn up (set_uncommitted_value ux p1))) n)) as (uv & up & ux & Heq & H1 & H2 & H3 & H4).
  { unfold learn_uncommitted. change (uncommitted_pn p1) with (uncommitted_pn (n_px n)). change (last_committed p1) with (lc_of n).
    change (uncommitted_v p1) with (uncommitted_v (n_px n)). destruct (negb _ && _ && _ && _) eqn:Hc.
    - zbool. destruct la_unc as (Hpos & x & Hx & Hpr); [done|]. assert (msg_last_committed (msg pk) = lc_of n) as Hm by lia.
      eexists _, _, _. split; [reflexivity|]. rewrite Hm in *. split_and!; [done|done|done|].
      right. cbn. split_and!; [done|lia| |].
      + fold (prom_of n). destruct (decide (msg_uncommitted_pn (msg pk) = prom_of n)) as [He|]; [|lia].
        rewrite He in Hpr. by apply rc_noprop in Hpr.
      + exists x. unfold msg_value. by rewrite Hx.
    - exists (uncommitted_v (n_px n)), (uncommitted_pn (n_px n)), (uncommitted_value (n_px n)).
      split_and!; [by destruct (n_px n)|done|done| |exact rc_unc]. intros Hm Hnz. destruct (la_unc Hnz) as (Hpos & _).
      destruct rc_unc as [[Hv0 Hp0]|(Hv & Hp & _)]; fold (lc_of n) in *; [exfalso|split; [done|]].
      + rewrite Hv0, Hp0 in Hc. apply not_true_iff_false in Hc. apply Hc. rewrite !andb_true_iff, negb_true_iff, Z.eqb_neq, !Z.leb_le. lia.
      + destruct (Z.le_gt_cases (msg_uncommitted_pn (msg pk)) (uncommitted_pn (n_px n))); [done|].
        apply not_true_iff_false in Hc. destruct Hc. rewrite !andb_true_iff, negb_true_iff, Z.eqb_neq, !Z.leb_le. lia. }
  unfold upd. change (set_num_last (num_last (n_px n) + 1) (n_px n)) with p1. rewrite Heq.
  set (n' := set_n_px _ n) in *. assert (lc_of n' = lc_of n /\ prom_of n' = prom_of n /\ uncommitted_v (n_px n') = uv /\ uncommitted_pn (n_px n') = up) as (Hlc & Hp & Huv & Hup) by done.
  assert (forall a, reported (sent_ n) n a -> reported (sent_ n) n' a) as Hrep.
  { intros a Hr k v Hk Hv. rewrite Hp in Hk. rewrite Hlc, Huv, Hup. destruct (Hr k v Hk Hv) as [?|(-> & Hu & Hk')]; [by left|right].
    split_and!; [done|by apply H2|lia]. }
  split; rewrite ?Hp; try done.
  - apply union_subseteq. split; [|done]. apply singleton_subseteq_l, elem_of_difference. split; [done|]. by apply not_elem_of_singleton.
  - change (num_last (n_px n')) with (num_last (n_px n) + 1). rewrite rc_num, size_union, size_singleton; [lia|]. by apply disjoint_singleton_l.
  - by apply Hrep.
  - intros a [->%elem_of_singleton|Ha]%elem_of_union.
    + split_and!; [|lia|done]. intros k v Hk Hv. rewrite Hp in Hk. rewrite Hlc, Huv, Hup.
      destruct (la_votes k v ltac:(lia) Hv) as [?|(-> & [?|[Hnz Hk']])]; [left; lia|left; lia|].
      destruct (decide (msg_last_committed (msg pk) = lc_of n)) as [Hm|]; [right|left; lia].
      destruct (H3 Hm Hnz) as [? ?]. split_and!; [lia|lia|lia].
    + destruct (rc_peers a Ha) as (? & ? & ?). split_and!; [by apply Hrep|done|done].
Qed.

(** The leader handles the answer [pk]; [X] are those that have answered. *)
Record answering (n : node) (pk : packet) (L : Z) (X : gset Z) : Prop := Answering {
  an_recovering : recovering (M n) (net_ n) (sent_ n) r n X;
  an_last : last_ok N (M n) (sent_ n) pk L;
  an_uncounted : pn (msg pk) = prom_of n -> uncounted n (src pk) X;
}.

Lemma answering_step n n' out pk L X :
  W n -> m_role (n_mon n) = Leader -> n_out n' = n_out n ++ out ->
  (forall k, k ∈ out -> src k = r /\ op (msg k) = OP_COMMIT) ->
  n_mon n' = n_mon n -> prom_of n' = prom_of n -> pn_of n' = pn_of n -> lc_of n <= lc_of n' ->
  (forall m ν σ, recovering m ν σ r n X -> recovering m ν σ r n' X) ->
  answering n pk L X -> answering n' pk L X.
Proof.
  intros Hw Hrole Ho Hop Hm Hp Hpn Hlc Hrec [Hr Hl Hu].
  assert (extends r (M n) (net_ n) (sent_ n) (M n') (net_ n') (sent_ n') out) as Hext.
  { eapply W_extends; try done; try lia; [unfold ep_of; by rewrite Hm|intros k Hk; by apply Hop|..].
    - intros k Hk [Hb|Hb]; apply Hop in Hk as [_ ?]; congruence.
    - intros k Hk [Hb|Hb]; apply Hop in Hk as [_ ?]; congruence. }
  assert (forall k, k ∈ out -> src k = r -> is_inert (op (msg k))) as Hin by (intros k Hk _; apply Hop in Hk as [_ Hk]; by rewrite Hk).
  assert (forall a k, k ∈ out -> ~ last_to r a k) as Hnl by (intros a k Hk [? _]; apply Hop in Hk as [_ ?]; congruence).
  pose proof (W_node _ _ _ _ _ _ _ _ Hw) as Hn. unfold PaxosInv.node_ok in Hn. rewrite Hrole in Hn. destruct Hn as [Hs _].
  split.
  - apply Hrec. eapply recovering_step; [exact Hext|exact Hin|apply Hs| |exact Hr]. intros. by eapply Hnl.
  - by eapply last_ok_step.
  - intros Heq. rewrite Hp in Heq. destruct (Hu Heq) as [? ? ?]. split; [done|by rewrite Hm|].
    eapply quiet_step; [exact Hext|exact Hin| |done]. intros k Hk. by apply Hnl.
Qed.

Lemma count_ok now nb n pk L X b n' :
  W n -> is_leader n = true -> p_state (n_px n) = STATE_RECOVERING -> dst pk = r -> msg_last_committed (msg pk) <= lc_of n ->
  answering n pk L X -> pn (msg pk) = prom_of n ->
  (let n := upd (fun p => learn_uncommitted (msg pk) (set_num_last (num_last p + 1) p)) n in
   if num_last (n_px n) =? quorum_size n then collected cfg now nb n else Ret (false, n)) = Ret (b, n') ->
  W n' /\ n_io n' = None.
Proof using HN Hcfg.
  intros Hw Hl Hst Hdst Hlc [Hr Hla Hu] Hpn. cbn zeta. set (n1 := upd _ n). intros H.
  pose proof (count_recovering n pk L X n1 Hw Hr Hla Hdst Hpn (Hu Hpn) Hlc eq_refl) as Hr1.
  assert (n_mon n1 = n_mon n /\ n_store n1 = n_store n /\ n_io n1 = n_io n /\ n_out n1 = n_out n /\ p_state (n_px n1) = STATE_RECOVERING /\
    first_committed (n_px n1) = first_committed (n_px n) /\ lc_of n1 = lc_of n /\ prom_of n1 = prom_of n /\ pn_of n1 = pn_of n /\
    pending_proposal (n_px n1) = pending_proposal (n_px n)) as (Hm & Hsto & Hio & Ho & Hst1 & Hfc & Hlc1 & Hp & Hpn1 & Hpd).
  { clear -Hst. unfold n1, upd, learn_uncommitted, lc_of, prom_of, pn_of. destruct (negb _ && _ && _ && _); split_and!; done. }
  assert (sent_ n1 = sent_ n /\ net_ n1 = net_ n) as [Hsn Hnn] by (unfold PaxosSteps.sent_, PaxosSteps.net_; by rewrite Ho).
  clearbody n1. pose proof Hl as Hl'%bool_decide_eq_true_1. assert (W n1) as Hw1.
  { eapply (W_local _ _ _ _ _ _ _ n n1 []); [done|by rewrite Ho, app_nil_r|unfold rank; by rewrite Hm|by rewrite Hm|done|lia|lia|unfold ep_of; by rewrite Hm| | |].
    - by intros ? []%not_elem_of_nil.
    - intros []. split; rewrite ?Hsto, ?Hio, ?Hlc1, ?Hp, ?Hpn1, ?Hfc, ?Hpd; done.
    - intros Hn. by eapply (recovering_node n n1). }
  destruct (num_last (n_px n1) =? quorum_size n1) eqn:Hall.
  - apply Z.eqb_eq in Hall. eapply collected_ok; [exact Hw1| |done|done|exact H]. unfold is_leader. by rewrite Hm.
  - injection H as _ <-. split; [done|]. by destruct Hr1.
Qed.

Lemma handle_last_ok now nb n n' pk L X :
  W n -> is_leader n = true -> p_state (n_px n) = STATE_RECOVERING -> dst pk = r ->
  answering n pk L X -> handle_last run_op cfg now nb (msg pk) (src pk) n = Ret n' -> W n'.
Proof using HN Hcfg.
  intros Hw Hl Hst Hdst Han H. unfold handle_last in H. pose proof Hl as Hrole%bool_decide_eq_true_1. rewrite Hl in H. cbn [negb] in H. set (n1 := upd _ n) in H.
  assert (W n1) as Hw1 by (eapply (W_core_nil _ _ _ _ _ _ _ n); [done|done|done|by left]).
  assert (answering n1 pk L X) as Han1.
  { eapply (answering_step n n1 []); [done|done|by rewrite app_nil_r|by intros ? []%not_elem_of_nil|done|done|done|done| |done].
    intros m ν σ. by apply core_recovering. }
  assert (p_state (n_px n1) = STATE_RECOVERING /\ m_role (n_mon n1) = Leader) as [Hst1 Hl1] by done.
  clearbody n1. clear Hw Hl Hst Han Hrole n.
  destruct (last_committed (n_px n1) + 1 <? msg_first_committed (msg pk)) eqn:Hfc; [by eapply bootstrap_ok|]. apply Z.ltb_ge in Hfc. fold (lc_of n1) in Hfc.
  rinv H. destruct a as [need n2]. assert (n_io n1 = None) as Hio1 by by destruct Han1 as [[] _ _].
  destruct (learn_ok run_op N s0 m0 ν0 σ0 r n1 (msg pk) need n2 Hw1 Hio1 ltac:(by destruct Han1 as [_ [] _]) ltac:(by right) E) as (Hw2 & Hle & Hcov). clear E.
  pose proof Hle as [Hc2 Hlc2 _ _ _]. apply ctl_fields in Hc2 as (Hm2 & Hio2 & Ho2 & Hst2 & Hp2 & Hpn2 & _ & _).
  assert (answering n2 pk L X) as Han2.
  { eapply (answering_step n1 n2 []); [done|done|by rewrite app_nil_r|by intros ? []%not_elem_of_nil|done|done|done|done| |done].
    intros m ν σ. apply recovering_learned; [done|]. pose proof (W_range n1 Hw1 Hio1). lia. }
  assert (msg_last_committed (msg pk) <= lc_of n2) as Hmlc.
  { apply Hcov. destruct Han1 as [_ [] _]. rewrite Hdst, field_self in la_known. intros v Hv. apply la_all; lia. }
  clear Hcov Han1 Hw1 Hle. rinv H. destruct a as [ok n3].
  apply (catch_up_ok run_op N s0 m0 ν0 σ0 r) in E as (Hw3 & Hc3 & out & Ho3 & Hout); [|done|by rewrite Hm2|by rewrite Hio2].
  pose proof (core_fields _ _ Hc3) as (Hm3 & Hio3 & Hst3 & _).
  assert (prom_of n3 = prom_of n2 /\ pn_of n3 = pn_of n2 /\ lc_of n3 = lc_of n2 /\ new_value (n_px n3) = new_value (n_px n2)) as (Hp3 & Hpn3 & Hlc3 & Hnv3)
    by (unfold core in Hc3; injection Hc3; intros; done).
  assert (answering n3 pk L X) as Han3.
  { eapply (answering_step n2 n3 out); [done|by rewrite Hm2|done|done|done|done|done|lia| |done]. intros m ν σ. by apply core_recovering. }
  assert (p_state (n_px n3) = STATE_RECOVERING /\ m_role (n_mon n3) = Leader) as [Hst3' Hl3] by (split; [congruence|by rewrite Hm3, Hm2]).
  assert (n_io n3 = None) as Hio3' by congruence. rewrite <- Hlc3 in Hmlc. clear Hw2 Han2 Hc3 Hout Ho3.
  destruct ok; cbn [negb] in H; [|by eapply bootstrap_ok]. rinv H. destruct a as [rf n4]. injection H as <-.
  assert (W n4 /\ n_io n4 = None) as [Hw4 Hio4].
  2: { destruct (need && negb rf); [|done]. unfold do_refresh. destruct (answer nb); [|done]. by apply reset_ok. }
  assert (new_value (n_px n3) = None) as Hnv by by destruct Han3 as [[] _ _].
  assert (is_leader n3 = true) as Hl3' by by apply bool_decide_eq_true_2. fold (prom_of n3) in E.
  destruct (Z.ltb_spec (prom_of n3) (pn (msg pk))).
  - rinv E. injection E as _ <-. assert (W a) as Hwa.
    { eapply (collect_ok run_op N s0 HN m0 ν0 σ0 r _ n3); [| | | | | | | |exact E0]; [done| |done| | |done| |done].
      - do 9 (split; [done|]). by left.
      - by apply (W_leader _ _ _ _ _ _ _ n3 Hw3 Hl3').
      - by apply (W_leader _ _ _ _ _ _ _ n3 Hw3 Hl3').
      - by apply (W_leader _ _ _ _ _ _ _ n3 Hw3 Hl3'). }
    split; [done|]. apply collect_state in E0. eapply io_none; [done|..]; apply bool_decide_eq_false_2; by rewrite E0.
  - destruct (Z.eqb_spec (pn (msg pk)) (prom_of n3)) as [Heq|]; [|by injection E as _ <-]. by eapply count_ok.
Qed.
End leader.
