(* ===== verification/PaxosPeon.v ===== *)
(** * Peons: promises and votes

    A peon answers [OP_COLLECT] with a promise and [OP_BEGIN] with a vote.
    The leader that asked is still at the point where the answer counts once,
    because the question was on its way until now. *)

From stdpp Require Import gmap sorting.
From S2P Require Import Prelude Paxos PaxosVote PaxosNet PaxosInv PaxosFrame PaxosStore PaxosSteps PaxosPropose.
Open Scope Z_scope.

Section peon.
Context {Op Svc : Type} (run_op : Op -> Svc -> Svc) (N : Z) (s0 : Svc).
Context (HN : 2 <= N <= 100).
Notation node := (@node Op Svc).
Notation packet := (@packet Op).
Notation sessP := (@sessP Op).
Notation disk_ok := (@disk_ok Op Svc run_op N s0).
Notation store_ok := (@store_ok Op Svc run_op N s0).
Notation pkt_ok := (@pkt_ok Op Svc N).
Notation session := (@session Op Svc N).
Notation phase := (@phase Op Svc N).
Notation node_ok := (@node_ok Op Svc N).
Notation inv := (@inv Op Svc run_op N s0).
Notation vinv := (vinv (tx_eq run_op) (majority N)).
Notation abs := (@abs Op Svc).

(** Losing messages keeps the invariant. *)
Lemma sub_extends r (m : gmap Z node) (ν ν' σ : list packet) : ν' `sublist_of` ν -> extends r m ν σ m ν' σ [].
Proof.
  intros Hsub. split; try done; try by intros ? []%not_elem_of_nil.
  - by rewrite app_nil_r.
  - exists ν'. by rewrite app_nil_r.
  - by left.
Qed.

Lemma inv_sub m ν ν' σ : ν' `sublist_of` ν -> inv m ν σ -> inv m ν' σ.
Proof using HN.
  intros Hsub Hi. destruct (i_all _ _ _ _ _ _ Hi 0) as [n Hn]; [lia|].
  assert (m = <[0 := n]> m) as Hm by by rewrite insert_id.
  eapply (inv_local run_op N s0 0 m ν σ m ν' σ []); [by apply sub_extends|done|done|done|..]; try done.
  - by eapply i_dom.
  - by eapply i_dom.
  - by intros ? []%not_elem_of_nil.
Qed.

(** ** The delivery of a message *)

Context (m : gmap Z node) (l1 l2 σ : list packet) (pk : packet) (n : node).
Notation νp := (l1 ++ pk :: l2).
Notation ν1 := (l1 ++ l2).
Context (Hi : inv m νp σ) (Hn : m !! dst pk = Some n).
Context (Hfirst : forall x, x ∈ l1 -> ~ on_channel (src pk) (dst pk) x).

Lemma delivered_sub : ν1 `sublist_of` νp.
Proof. apply sublist_app; [done|]. by constructor. Qed.

Lemma pk_in : pk ∈ νp.
Proof. apply elem_of_app. right. by left. Qed.

Lemma pk_ok : pkt_ok m σ pk.
Proof using Hi. eapply i_pkt; [exact Hi|]. eapply i_sub; [exact Hi|]. apply pk_in. Qed.

Lemma net_in x : x ∈ ν1 -> x ∈ νp.
Proof. clear. rewrite !elem_of_app, elem_of_cons. naive_solver. Qed.

(** A later [OP_COLLECT] of the channel has a higher number. *)
Lemma later_collect x :
  op (msg pk) = OP_COLLECT -> x ∈ ν1 -> op (msg x) = OP_COLLECT -> src x = src pk -> dst x = dst pk -> pn (msg pk) < pn (msg x).
Proof using Hi Hfirst.
  intros Ho [Hx|Hx]%elem_of_app Hox Hs Hd; [by destruct (Hfirst x Hx)|].
  pose proof (i_order _ _ _ _ _ _ Hi) as Hord. apply StronglySorted_app in Hord as (_ & _ & Hord).
  apply StronglySorted_inv in Hord as [_ Hf]. eapply (list_relations.list.Forall_forall) in Hf; [|exact Hx]. by apply Hf.
Qed.

(** ** The answer *)

Notation r := (dst pk).
Context (n' : node) (lp : packet).
Notation m' := (<[r := n']> m).
Notation ν' := (ν1 ++ [lp]).
Notation σ' := (σ ++ [lp]).
Context (Hsrc : src lp = r) (Hdst : dst lp = src pk).
Context (Hmon : n_mon n' = n_mon n) (Hlc : lc_of n' = lc_of n) (Hpn : pn_of n' = pn_of n) (Hprom : prom_of n <= prom_of n').
Context (Hepk : epoch (msg pk) = ep_of n) (Hepl : epoch (msg lp) = ep_of n).

Lemma field_r f : field f m r = f n.
Proof using Hn. unfold field. by rewrite Hn. Qed.

Lemma field_r' f : field f m' r = f n'.
Proof. unfold field. by rewrite lookup_insert_eq. Qed.

Lemma field_ne f a : a <> r -> field f m' a = field f m a.
Proof. intros. unfold field. by rewrite lookup_insert_ne. Qed.

Lemma answer_extends :
  op (msg lp) = OP_ACCEPT \/ op (msg lp) = OP_LAST -> (op (msg lp) = OP_ACCEPT -> prom_of n <= pn (msg lp)) -> extends r m νp σ m' ν' σ' [lp].
Proof using Hn Hsrc Hmon Hlc Hpn Hprom.
  intros Ho Hv. split; rewrite ?field_r, ?field_r'; try done; try lia.
  - exists ν1. split; [apply delivered_sub|done].
  - intros a Hne. by rewrite lookup_insert_ne.
  - left. unfold ep_of. by rewrite Hmon.
  - by intros x ->%list_elem_of_singleton.
  - intros x ->%list_elem_of_singleton [?|?]; [by apply Hv|destruct Ho; congruence].
  - intros x ->%list_elem_of_singleton [?|?]; destruct Ho; congruence.
Qed.

(** ** Promises *)

(** The leader that asked for a promise. *)
Lemma asked_leader n2 :
  op (msg pk) = OP_COLLECT -> op (msg lp) = OP_LAST -> m !! src pk = Some n2 -> m_role (n_mon n2) = Leader ->
  (prom_of n' = pn (msg pk) \/ (prom_of n' = prom_of n /\ pn (msg pk) <= prom_of n)) -> pn (msg lp) = prom_of n' ->
  r <> src pk -> node_ok m νp σ (src pk) n2 -> node_ok m' ν' σ' (src pk) n2.
Proof using Hi Hn Hfirst Hsrc Hdst Hmon Hlc Hpn Hprom Hepk Hepl.
  intros Ho Hol Hm2 Hrole Hacc Hlp Hne Hnode.
  assert (extends r m νp σ m' ν' σ' [lp]) as Hext by (apply answer_extends; [by right|intros; congruence]).
  assert (forall x, x ∈ [lp] -> src x = src pk -> is_inert (op (msg x))) as Hin by (intros x ->%list_elem_of_singleton; congruence).
  assert (coll_to (src pk) r pk) as Hcoll by done.
  assert (forall a, last_to (src pk) a lp -> a = r) as Hnl by (intros a (_ & ? & _); congruence).
  unfold PaxosInv.node_ok in *. rewrite Hrole in *. destruct Hnode as [Hs Hp]. split.
  - destruct Hs. split; try done.
    + by apply sessP_app.
    + intros a Ha. apply ss_members. eapply sess_new; [|exact Ha]. intros x ->%list_elem_of_singleton. congruence.
    + intros a. apply StronglySorted_app. split_and!; [|by eapply ss_sublist; [apply delivered_sub|]|repeat constructor].
      intros x y Hx ->%list_elem_of_singleton Hl Hpx Hl'. rewrite (Hnl a Hl') in *.
      by eapply (ss_coll r x pk); [apply net_in|..]; eauto using pk_in.
    + intros a x [Hx| ->%list_elem_of_singleton]%elem_of_app Hk He; [apply (ss_from a x); eauto using net_in|].
      destruct Hk as [[? _]|Hk]; [congruence|]. rewrite (Hnl a Hk). apply (ss_from r pk pk_in); [by left|congruence].
    + intros a x y [Hx| ->%list_elem_of_singleton]%elem_of_app Hl Hpx [Hy| ->%list_elem_of_singleton]%elem_of_app;
        [apply (ss_coll a x y); eauto using net_in|intros [? _]; congruence| |intros [? _]; congruence].
      rewrite (Hnl a Hl). intros (Hoy & Hsy & Hdy). pose proof (later_collect y Ho Hy Hoy Hsy Hdy) as Hlt.
      assert (pn (msg y) <= pn_of n2) as Hle.
      { pose proof (i_pkt _ _ _ _ _ _ Hi y (i_sub _ _ _ _ _ _ Hi y (net_in y Hy))) as Hb.
        unfold PaxosInv.pkt_ok in Hb. rewrite Hoy in Hb. destruct Hb as (_ & _ & _ & Hb & _). unfold field in Hb. by rewrite Hsy, Hm2 in Hb. }
      rewrite Hlp in Hpx. destruct Hacc as [Hacc|[Hacc Hge]]; [lia|].
      pose proof (i_fresh _ _ _ _ _ _ Hi pk pk_in Ho) as Hf. rewrite field_r in Hf. assert (prom_of n < pn (msg pk)); [|lia]. apply Hf. by rewrite <- Hacc, Hpx.
  - eapply phase_step; [exact Hext|exact Hin| | |apply Hs|exact Hp].
    + intros a x ->%list_elem_of_singleton [_ [[? _]|[? _]]]; congruence.
    + intros a x Hq ->%list_elem_of_singleton ->%Hnl. by destruct (Hq pk pk_in) as [_ []].
Qed.

(** What stays the same when a peon answers. *)
Context (Hpeon : m_role (n_mon n) = Peon) (Hfrom : src pk = m_leader (n_mon n)).
Context (Hio : n_io n' = n_io n) (Hfc : first_committed (n_px n') = first_committed (n_px n)).
Context (Hpend : pending_proposal (n_px n') = pending_proposal (n_px n)).
Context (Hnw : p_state (n_px n') <> STATE_WRITING /\ p_state (n_px n') <> STATE_WRITING_PREVIOUS).
Context (Hupd : p_state (n_px n') = STATE_UPDATING \/ p_state (n_px n') = STATE_UPDATING_PREVIOUS -> prom_of n' mod 100 <> r).

Lemma peon_facts : n_io n = None /\ r <> src pk.
Proof using Hi Hn Hpeon Hfrom.
  pose proof (i_node _ _ _ _ _ _ Hi _ _ Hn) as Hnd. unfold PaxosInv.node_ok in Hnd. rewrite Hpeon in Hnd.
  destruct Hnd as ([? _] & ? & _). by rewrite Hfrom.
Qed.

Lemma answer_node : node_ok m' ν' σ' r n'.
Proof using Hi Hn Hpeon Hmon Hio Hnw Hupd.
  pose proof (i_node _ _ _ _ _ _ Hi _ _ Hn) as Hnd. unfold PaxosInv.node_ok, not_writing in *.
  rewrite Hmon, Hpeon in *. destruct Hnd as ([? _] & ? & _). by rewrite Hio.
Qed.

(** [handle_collect] *)
Lemma promise_ok L :
  op (msg pk) = OP_COLLECT -> op (msg lp) = OP_LAST -> pn (msg lp) = prom_of n' ->
  (prom_of n' = pn (msg pk) \/ (prom_of n' = prom_of n /\ pn (msg pk) <= prom_of n)) ->
  (exists v, n_store n' = set_d_accepted_pn v (n_store n)) -> last_ok N m' σ' lp L ->
  inv m' ν' σ'.
Proof using All.
  intros Ho Hol Hlp Hacc [dv Hsto] Hlast. destruct peon_facts as (Hion & Hne).
  destruct (i_dom _ _ _ _ _ _ Hi _ _ Hn) as (HrN & Hrk & Hsz).
  assert (extends r m νp σ m' ν' σ' [lp]) as Hext by (apply answer_extends; [by right|intros; congruence]).
  assert (forall x, x ∈ [lp] -> op (msg x) = OP_LAST) as Hx by by intros x ->%list_elem_of_singleton.
  assert (forall a k v, voteP σ' a k v -> voteP σ a k v) as Hvote.
  { intros a k v. apply vote_new'. intros x ->%Hx. done. }
  assert (forall k v x, propP σ' k v x -> propP σ k v x) as Hprop.
  { intros k v x. apply prop_new. intros y ->%Hx. done. }
  eapply (inv_extend run_op N s0 r m νp σ m' ν' σ' [lp] Hext n n'); try done.
  - unfold rank in *. by rewrite Hmon.
  - by rewrite Hmon.
  - intros x ->%list_elem_of_singleton. unfold PaxosInv.pkt_ok. rewrite Hol. split; [congruence|]. by exists L.
  - intros x ->%list_elem_of_singleton. split; [congruence|]. intros _. rewrite Hdst, Hepl, <- Hepk, field_ne by done.
    by apply (i_epoch _ _ _ _ _ _ Hi pk pk_in).
  - assert (forall s', (forall a, prom s' a = field prom_of m' a) -> vote s' = voteP σ -> prop s' = propP σ -> s' ≡ abs m' σ') as Heq.
    { intros s' H1 H3 H4. split_and!; cbn; rewrite ?H3, ?H4; [done| |]; intros; (split; [by apply voteP_app||by apply propP_app|eauto]). }
    destruct (decide (prom_of n' = prom_of n)) as [Hpe|Hpe].
    + eapply vinv_equiv_1; [apply (Heq (abs m σ)); try done|by eapply i_vote]. intros a. cbn.
      destruct (decide (a = r)) as [->|Ha]; [by rewrite field_r, field_r'|by rewrite field_ne].
    + eapply vinv_equiv_1; [|eapply vstep_vinv; [apply _|by eapply i_vote|apply (VPromise _ _ _ r (prom_of n'))]].
      * apply Heq; try done. intros a. cbn. case_decide as Ha; [subst; by rewrite field_r'|by rewrite field_ne].
      * cbn. rewrite field_r. lia.
  - destruct Hacc as [->|[-> _]]; [right|by left]. apply sessP_app. exists pk. split_and!; [|done|done|by right].
    eapply i_sub; [exact Hi|apply pk_in].
  - intros k v x Hk. left. by apply Hprop.
  - eapply ss_step; [exact Hext|by eapply i_order|]. intros x y Hy%Hx _ Hoy. congruence.
  - intros x [Hxi|Hxi]%elem_of_app Hxo; [|apply Hx in Hxi; congruence]. destruct (decide (dst x = r)) as [Hd|Hd].
    2: { rewrite field_ne by done. eapply i_fresh; [exact Hi|by apply net_in|done]. }
    rewrite Hd, field_r'. intros Hmod. destruct Hacc as [Hacc|[Hacc _]]; rewrite Hacc in *.
    + apply later_collect; try done. pose proof pk_ok as Hb. unfold PaxosInv.pkt_ok in Hb. rewrite Ho in Hb. destruct Hb as (_ & _ & Hb & _). congruence.
    + pose proof (i_fresh _ _ _ _ _ _ Hi x (net_in x Hxi) Hxo) as Hf. rewrite Hd, field_r in Hf. by apply Hf.
  - pose proof (i_store _ _ _ _ _ _ Hi _ _ Hn) as [Hdk Hl _ Hs8 Hpd]. split; rewrite ?Hsto, ?Hlc, ?Hpn, ?Hfc, ?Hpend, ?Hio; try done; [|by rewrite Hion].
    eapply disk_ok_mono in Hdk; [destruct Hdk; split; done|done|]. intros k v. apply Hvote.
  - apply answer_node.
  - intros r2 n2 Hr2 Hm2 Hnd. destruct (decide (m_role (n_mon n2) = Leader)) as [Hro|Hro];
      [|unfold PaxosInv.node_ok in *; by destruct (m_role (n_mon n2))].
    destruct (decide (r2 = src pk)) as [->|Hno]; [by apply asked_leader|].
    eapply node_ok_step; [exact Hext|by eapply out_other| |done]. intros x ->%list_elem_of_singleton Hd. destruct Hno. congruence.
Qed.

(** ** Votes *)

(** The message that is delivered is the only one of its kind. *)
Lemma once_only (P : packet -> Prop) x :
  StronglySorted (fun x y => P x -> ~ P y) νp -> P pk -> x ∈ ν1 -> ~ P x.
Proof.
  intros Hs Hpk. apply StronglySorted_app in Hs as (H1 & _ & H2). apply StronglySorted_inv in H2 as [_ Hf].
  intros [Hx|Hx]%elem_of_app Hp; [by apply (H1 x pk); [|left|..]|].
  eapply (list_relations.list.Forall_forall) in Hf; [|exact Hx]. by apply Hf.
Qed.

Lemma proposed_leader n2 :
  op (msg pk) = OP_BEGIN -> op (msg lp) = OP_ACCEPT -> r <> src pk -> m_role (n_mon n2) = Leader -> pn (msg pk) = prom_of n2 -> pn (msg lp) = prom_of n2 -> prom_of n = prom_of n2 ->
  msg_last_committed (msg lp) = msg_last_committed (msg pk) ->
  node_ok m νp σ (src pk) n2 -> node_ok m' ν' σ' (src pk) n2.
Proof using Hi Hn Hsrc Hdst Hmon Hlc Hpn Hprom.
  intros Ho Hol Hne Hrole Hp1 Hp2 Hp3 Hmlc Hnode.
  assert (extends r m νp σ m' ν' σ' [lp]) as Hext by (apply answer_extends; [by left|intros; lia]).
  assert (forall x, x ∈ [lp] -> src x = src pk -> is_inert (op (msg x))) as Hin by (intros x ->%list_elem_of_singleton; congruence).
  assert (forall a x, x ∈ [lp] -> ~ last_to (src pk) a x) as Hnl by (intros a x ->%list_elem_of_singleton [? _]; congruence).
  assert (tok (src pk) (prom_of n2) r pk) as Htok by (split; [done|]; by left).
  unfold PaxosInv.node_ok in *. rewrite Hrole in *. destruct Hnode as [Hs Hp]. split.
  { eapply session_step; [exact Hext|exact Hin| |done]. intros. by apply Hnl. }
  assert (forall b, recovered m νp σ (src pk) n2 b -> recovered m' ν' σ' (src pk) n2 b) as Hrd.
  { intros b. eapply recovered_step; [exact Hext|exact Hin|apply Hs|]. intros. by apply Hnl. }
  assert (updating νp σ (src pk) n2 -> updating ν' σ' (src pk) n2) as Hup.
  { intros []. destruct (up_tok r pk pk_in Htok) as (Hl & Hna & Hrq).
    assert (forall a, tok (src pk) (prom_of n2) a lp -> a = r) as Hlp by (intros a [_ [[? _]|(_ & ? & _)]]; congruence).
    split; try done.
    - destruct up_value as (x & ? & ?). exists x. split; [done|]. by apply propP_app.
    - intros a Ha. destruct (up_accepted a Ha). split; [done|]. by apply voteP_app.
    - intros a. apply StronglySorted_app. split_and!; [|by eapply ss_sublist; [apply delivered_sub|]|repeat constructor].
      intros x y Hx ->%list_elem_of_singleton Ht Ht'. rewrite (Hlp a Ht') in *. by eapply (once_only (tok (src pk) (prom_of n2) r)).
    - intros a x [Hx| ->%list_elem_of_singleton]%elem_of_app Ht; [eapply up_tok; [by apply net_in|done]|].
      rewrite (Hlp a Ht). split_and!; [congruence|done|done]. }
  unfold PaxosInv.phase in *. destruct (p_state (n_px n2)); try done.
  - destruct Hp as [X HX]. exists X. eapply recovering_step; [exact Hext|exact Hin|apply Hs| |exact HX]. intros. by apply Hnl.
  - destruct Hp as [_ (_ & _ & Hp)]. by destruct (Hp r pk pk_in).
  - destruct Hp as [? ?]. split; [by apply Hrd|by apply Hup].
  - destruct Hp as [? ?]. split; [by apply Hrd|by apply Hup].
  - destruct Hp as [_ []]. by destruct (wr_tok r pk pk_in).
  - destruct Hp as [_ []]. by destruct (wr_tok r pk pk_in).
  - destruct Hp as [_ (_ & _ & Hp)]. by destruct (Hp r pk pk_in).
Qed.

(** [handle_begin] *)
Lemma vote_ok :
  op (msg pk) = OP_BEGIN -> op (msg lp) = OP_ACCEPT -> pn (msg pk) = prom_of n -> prom_of n' = prom_of n -> pn (msg lp) = prom_of n ->
  msg_last_committed (msg pk) = lc_of n -> msg_last_committed (msg lp) = lc_of n ->
  (forall x, values (msg pk) = [(lc_of n + 1, Some x)] ->
    n_store n' = set_d_pending_pn (prom_of n) (set_d_pending_v (lc_of n + 1) (put_version (lc_of n + 1) (Some x) (n_store n)))) ->
  inv m' ν' σ'.
Proof using All.
  intros Ho Hol Hpp Hpe Hlp Hmlc Hllc Hsto. destruct peon_facts as (Hion & Hne).
  destruct (i_dom _ _ _ _ _ _ Hi _ _ Hn) as (HrN & Hrk & Hsz).
  assert (extends r m νp σ m' ν' σ' [lp]) as Hext by (apply answer_extends; [by left|intros; lia]).
  assert (forall x, x ∈ [lp] -> op (msg x) = OP_ACCEPT) as Hx by by intros x ->%list_elem_of_singleton.
  pose proof pk_ok as Hb. unfold PaxosInv.pkt_ok in Hb. rewrite Ho, Hpp, Hmlc in Hb. destruct Hb as (_ & Hown & [Hpos _] & x & Hval).
  specialize (Hsto x Hval).
  assert (propP σ (prom_of n) (lc_of n + 1) x) as Hpr.
  { exists pk. split_and!; try done; [eapply i_sub; [exact Hi|apply pk_in]|lia]. }
  assert (forall a k v, voteP σ' a k v <-> voteP σ a k v \/ (a = r /\ k = prom_of n /\ v = lc_of n + 1)) as Hvote.
  { intros a k v. split.
    - intros (y & [Hy| ->%list_elem_of_singleton]%elem_of_app & Hoy & Ha & Hk & Hv); [left; by exists y|right]. split_and!; [congruence|congruence|lia].
    - intros [Hv|(-> & -> & ->)]; [by apply voteP_app|]. exists lp. split_and!; [apply elem_of_app; right; by apply list_elem_of_singleton|by left|done|done|lia]. }
  assert (forall a, field prom_of m' a = field prom_of m a) as Hf.
  { intros a. destruct (decide (a = r)) as [->|Ha]; [by rewrite field_r, field_r'|by rewrite field_ne]. }
  pose proof (i_store _ _ _ _ _ _ Hi _ _ Hn) as [Hdk Hl _ Hs8 Hpd]. destruct Hl as [Hl1 Hl2]; [by rewrite Hion|].
  eapply (inv_extend run_op N s0 r m νp σ m' ν' σ' [lp] Hext n n'); try done.
  - unfold rank in *. by rewrite Hmon.
  - by rewrite Hmon.
  - intros y ->%list_elem_of_singleton. unfold PaxosInv.pkt_ok. rewrite Hol, Hlp, Hllc. split; [congruence|]. exists x. by apply propP_app.
  - intros y ->%list_elem_of_singleton. split; congruence.
  - eapply vinv_equiv_1; [|eapply vstep_vinv; [apply _|by eapply i_vote|apply (VVote _ _ _ r (prom_of n) (lc_of n + 1) x)]]; cbn;
      [|by rewrite field_r|done].
    split_and!; cbn.
    + intros a. by rewrite Hf.
    + intros a k v. by rewrite Hvote.
    + intros k v y. split; [apply propP_app|]. apply prop_new. intros z ->%Hx. done.
  - by left.
  - intros k v y Hy. left. eapply prop_new; [|exact Hy]. intros z ->%Hx. done.
  - eapply ss_step; [exact Hext|by eapply i_order|]. intros y z Hz%Hx _ Hoy. congruence.
  - intros y [Hy|Hy%Hx]%elem_of_app Hoy; [|congruence]. rewrite Hf. eapply i_fresh; [exact Hi|by apply net_in|done].
  - split; rewrite ?Hsto, ?Hlc, ?Hpn, ?Hfc, ?Hpend, ?Hio, ?Hpe; try done; [|by rewrite Hion].
    rewrite <- Hl1. apply disk_accept; [done|done|rewrite Hl1; by apply propP_app| |].
    + intros k v Hv. pose proof (vote_le _ _ _ _ _ _ _ _ _ Hi Hv) as Hle. by rewrite field_r in Hle.
    + intros k v Hv. apply Hvote in Hv as [?|(_ & -> & ->)]; [by left|right; by rewrite Hl1].
  - apply answer_node.
  - intros r2 n2 Hr2 Hm2 Hnd. destruct (decide (m_role (n_mon n2) = Leader)) as [Hro|Hro];
      [|unfold PaxosInv.node_ok in *; by destruct (m_role (n_mon n2))].
    destruct (decide (r2 = src pk /\ prom_of n2 = prom_of n)) as [(-> & Hp2)|Hno]; [apply proposed_leader; try done; congruence|].
    eapply node_ok_step; [exact Hext|by eapply out_other| |done]. intros y ->%list_elem_of_singleton Hd. split; [congruence|]. intros [? ?].
    apply Hno. split; congruence.
Qed.
End peon.
