(* ===== verification/PaxosEpoch.v ===== *)
(** * Leaving a quorum

    What a monitor sends while it leaves its quorum: a write in progress is
    finished first, which sends a commit, a lease and possibly a proposal
    ([plain]), never a message of phase 1.  The rank and the epoch stay as they
    are, as they do in every event of Paxos ([exec_keeps]). *)

From stdpp Require Import gmap sorting.
From S2P Require Import Prelude Paxos PaxosNet.
Open Scope Z_scope.

Section epoch.
Context {Op Svc : Type} (run_op : Op -> Svc -> Svc) (cfg : config).
Notation node := (@node Op Svc).

(** Messages that are not of phase 1. *)
Definition plain (o : paxos_op) : Prop := o <> OP_COLLECT /\ o <> OP_LAST.

Definition sends (n n' : node) : Prop :=
  exists out, n_out n' = n_out n ++ out /\ forall pk, pk ∈ out -> plain (op (msg pk)).

Lemma sends_refl (n n' : node) : n_out n' = n_out n -> sends n n'.
Proof. intros Ho. exists []. rewrite app_nil_r. split; [done|]. by intros ? []%not_elem_of_nil. Qed.

Lemma sends_trans n1 n2 n3 : sends n1 n2 -> sends n2 n3 -> sends n1 n3.
Proof.
  intros (o1 & H1 & P1) (o2 & H2 & P2). exists (o1 ++ o2). rewrite H2, H1, (assoc_L (++)). split; [done|].
  intros pk [?|?]%elem_of_app; eauto.
Qed.

Lemma sends_bcast m (n n' : node) : n_out n' = n_out (bcast m n) -> plain (op m) -> sends n n'.
Proof. intros Ho Hm. eexists. split; [exact Ho|]. by intros pk (a & -> & _)%list_elem_of_fmap. Qed.

(** The monitor is as before and has sent no message of phase 1. *)
Definition stays (n n' : node) : Prop := n_mon n' = n_mon n /\ sends n n'.

Lemma stays_refl (n n' : node) : n_mon n' = n_mon n -> n_out n' = n_out n -> stays n n'.
Proof. split; [done|]. by apply sends_refl. Qed.

Lemma stays_trans n1 n2 n3 : stays n1 n2 -> stays n2 n3 -> stays n1 n3.
Proof. intros [H1 S1] [H2 S2]. split; [congruence|by eapply sends_trans]. Qed.

Lemma commit_start_stays (n n' : node) : commit_start n = Ret n' -> stays n n'.
Proof.
  intros H. unfold commit_start in H. rinv H. rinv H. injection H as <-. apply stays_refl;
  destruct (is_updating_previous _); [|destruct (is_updating _); [|done]| |destruct (is_updating _); [|done]]; injection E0 as <-; by destruct (1 <? _).
Qed.

Lemma begin_stays v (n n' : node) : begin_ v n = Ret n' -> stays n n'.
Proof.
  intros H. unfold begin_ in H. do 5 rinv H. destruct (quorum_size _ =? 1) in H; [apply commit_start_stays in H; done|].
  injection H as <-. split; [done|]. by eapply sends_bcast.
Qed.

Lemma extend_lease_stays now (n n' : node) : extend_lease cfg now n = Ret n' -> stays n n'.
Proof. intros H. unfold extend_lease in H. rinv H. injection H as <-. split; [done|]. by eapply sends_bcast. Qed.

Lemma propose_pending_stays (n n' : node) : propose_pending n = Ret n' -> stays n n'.
Proof. intros H. unfold propose_pending in H. do 2 rinv H. by apply begin_stays in H. Qed.

Lemma get_pending_stays (n n' : node) : get_pending_transaction n = Ret n' -> stays n n'.
Proof.
  intros H. unfold get_pending_transaction in H. rinv H. destruct (pending_proposal _); [injection H as <-|rinv H; injection H as <-]; by apply stays_refl.
Qed.

Lemma trim_stays (n n' : node) : trim cfg n = Ret n' -> stays n n'.
Proof.
  intros H. unfold trim in H. rinv H. destruct (_ <=? _); [injection H as <-; by apply stays_refl|].
  rinv H. injection H as <-. apply get_pending_stays in E0. eapply stays_trans; [done|]. by apply stays_refl.
Qed.

Lemma finish_round_stays (n n' : node) : finish_round cfg n = Ret n' -> stays n n'.
Proof.
  intros H. unfold finish_round in H. rinv H. rinv H. assert (stays n a0) as Hm.
  { destruct (should_trim _ _); [by apply trim_stays in E0|]. injection E0 as <-. by apply stays_refl. }
  destruct (pending_proposal _); [|by injection H as <-]. destruct (is_active a0); [|by injection H as <-].
  apply propose_pending_stays in H. by eapply stays_trans.
Qed.

Lemma flush_stays (n : node) : stays n (flush run_op n).
Proof. unfold flush. destruct (n_io n) as [[]|]; by apply stays_refl. Qed.

(** The monitor is as before, or has left the quorum. *)
Definition outside (st : role) (m : monitor) : monitor := set_m_role st (set_m_quorum ∅ m).
Definition keeps (n n' : node) : Prop := n_mon n' = n_mon n \/ n_mon n' = outside Probing (n_mon n).

Lemma keeps_refl (n n' : node) : n_mon n' = n_mon n -> keeps n n'.
Proof. by left. Qed.

Lemma keeps_trans n1 n2 n3 : keeps n1 n2 -> keeps n2 n3 -> keeps n1 n3.
Proof. intros [H1|H1] [H2|H2]; unfold keeps; rewrite H2, H1; [by left|by right..]. Qed.

Lemma keeps_epoch n n' : keeps n n' -> m_epoch (n_mon n') = m_epoch (n_mon n).
Proof. by intros [->| ->]. Qed.

Lemma keeps_role n n' : keeps n n' -> m_role (n_mon n') = m_role (n_mon n) \/ m_role (n_mon n') = Probing.
Proof. intros [->| ->]; [by left|by right]. Qed.

Lemma commit_finish_left now nb (n n' : node) : commit_finish cfg now nb n = Ret n' -> keeps n n' /\ sends n n'.
Proof.
  intros H. unfold commit_finish in H. do 3 rinv H. unfold do_refresh in H.
  destruct nb; [injection H as <-; split; [by right|by eapply sends_bcast]|].
  rinv H. rinv H. unfold commit_proposal in E2. do 2 rinv E2. injection E2 as <-. apply finish_round_stays in H.
  assert (stays n a3) as [Hm Hs].
  { destruct (1 <? _).
    - apply extend_lease_stays in E3. eapply stays_trans; [|exact E3]. split; [done|]. by eapply sends_bcast.
    - injection E3 as <-. split; [done|]. by eapply sends_bcast. }
  destruct H as [Hm' Hs']. split; [left; congruence|by eapply sends_trans].
Qed.

Lemma store_flush_left now answers (n n' : node) : store_flush run_op cfg now answers n = Ret n' -> keeps n n' /\ sends n n'.
Proof.
  revert n. induction answers as [|nb answers IH]; intros n H; cbn in H; destruct (n_io n) as [i|]; try done;
    try (injection H as <-; split; [by left|by apply sends_refl]).
  rinv H. apply commit_finish_left in E as [Hm Hs]. destruct (flush_stays n) as [Hf Hfs]. apply IH in H as [Hm' Hs'].
  split; [|eapply sends_trans; [exact Hfs|]; by eapply sends_trans]. eapply keeps_trans; [|exact Hm']. eapply keeps_trans; [by apply keeps_refl|done].
Qed.

Lemma leave_quorum_left st now answers (n n' : node) :
  leave_quorum run_op st cfg now answers n = Ret n' -> n_mon n' = outside st (n_mon n) /\ sends n n'.
Proof.
  intros H. unfold leave_quorum, wait_for_paxos_write in H. rinv H. injection H as <-.
  assert (keeps n a /\ sends n a) as [Hs Ho].
  { destruct (is_writing n || is_writing_previous n); [by apply store_flush_left in E|]. injection E as <-. split; [by left|by apply sends_refl]. }
  split; [|eapply sends_trans; [done|by apply sends_refl]].
  change (n_mon (reset st a)) with (outside st (n_mon a)). by destruct Hs as [->| ->].
Qed.

Lemma bootstrap_left now answers (n n' : node) :
  bootstrap run_op cfg now answers n = Ret n' -> n_mon n' = outside Probing (n_mon n) /\ sends n n'.
Proof. apply leave_quorum_left. Qed.

(** ** Paxos does not change the epoch *)

Lemma collect_mon pn (n n' : node) : collect pn n = Ret n' -> n_mon n' = n_mon n.
Proof.
  intros H. unfold collect in H. do 2 rinv H. rinv H. destruct a1 as [p n2]. injection H as <-.
  unfold get_new_proposal_number in E1. rinv E1. injection E1 as <- <-. cbn. clear - E0.
  destruct (exists_version _ _); [rinv E0|]; by injection E0 as <-.
Qed.

Lemma store_state_mon m (n n' : node) b : store_state run_op m n = Ret (b, n') -> n_mon n' = n_mon n.
Proof.
  intros H. unfold store_state in H. destruct (match values m with [] => false | _ => _ end); [by injection H as <- <-|].
  destruct (take_while _ _); [by injection H as <- <-|]. do 2 rinv H. injection H as <- <-. cbn. by destruct (_ && _).
Qed.

Lemma catch_up_mon l (n n' : node) b : catch_up l n = Ret (b, n') -> n_mon n' = n_mon n.
Proof.
  revert n. induction l as [|[p lc] l IH]; intros n; cbn [catch_up]; [by intros [= <- <-]|].
  destruct (_ && _); [by intros [= <- <-]|]. intros H. rinv H. apply IH in H. rewrite H.
  destruct (lc <? _); [rinv E|]; by injection E as <-.
Qed.

Lemma do_refresh_keeps nb (n : node) : keeps n (do_refresh nb n).2.
Proof. destruct nb; [by right|by left]. Qed.

Lemma commit_finish_keeps now nb (n n' : node) : commit_finish cfg now nb n = Ret n' -> keeps n n'.
Proof. by intros [? _]%commit_finish_left. Qed.

Lemma bootstrap_keeps now nb (n n' : node) : bootstrap run_op cfg now nb n = Ret n' -> keeps n n'.
Proof. intros [? _]%bootstrap_left. by right. Qed.

Lemma collected_keeps now nb (n n' : node) b : collected cfg now nb n = Ret (b, n') -> keeps n n'.
Proof.
  intros H. unfold collected in H. destruct (_ && _).
  - rinv H. injection H as <- <-. apply begin_stays in E as [E _]. by left.
  - rinv H. apply extend_lease_stays in E as [Hm _]. destruct nb; cbn [do_refresh] in H; rinv H; injection H as <- <-.
    + injection E as <-. right. change (n_mon (reset Probing a)) with (outside Probing (n_mon a)). by rewrite Hm.
    + apply finish_round_stays in E as [E _]. left. by rewrite E, Hm.
Qed.

Lemma handle_last_keeps now nb m from (n n' : node) : handle_last run_op cfg now nb m from n = Ret n' -> keeps n n'.
Proof.
  intros H. unfold handle_last in H. destruct (negb _); [injection H as <-; by left|].
  destruct (_ + 1 <? _); [by apply bootstrap_keeps in H|].
  rinv H. destruct a as [nr n1]. apply store_state_mon in E. rinv H. destruct a as [ok n2]. apply catch_up_mon in E0.
  assert (keeps n n2) as Hk by (left; rewrite E0, E; done). clear E E0. eapply keeps_trans; [exact Hk|]. clear Hk.
  destruct (negb ok); [by apply bootstrap_keeps in H|].
  rinv H. destruct a as [rf n3]. assert (keeps n2 n3) as Hk.
  { destruct (_ <? pn m); [rinv E; injection E as <- <-; apply collect_mon in E0; left; by rewrite E0|].
    destruct (pn m =? _); [|injection E as <- <-; by left]. destruct (_ =? quorum_size _); [|injection E as <- <-; by left].
    apply collected_keeps in E. done. }
  injection H as <-. eapply keeps_trans; [exact Hk|]. destruct (_ && _); [apply do_refresh_keeps|by left].
Qed.

Lemma handle_collect_keeps now nb m from (n n' : node) : handle_collect run_op cfg now nb m from n = Ret n' -> keeps n n'.
Proof.
  intros H. unfold handle_collect in H. rinv H. destruct (_ + 1 <? _); [by apply bootstrap_keeps in H|].
  do 2 rinv H. injection H as <-. left. cbn. by destruct (_ <? pn m).
Qed.

Lemma dispatch_keeps now nb m from (n n' : node) : dispatch run_op cfg now nb m from n = Ret n' -> keeps n n'.
Proof.
  intros H. unfold dispatch in H. destruct (negb (is_leader n) && _); [injection H as <-; by left|]. rinv H. clear E. destruct (op m).
  - by eapply handle_collect_keeps.
  - by eapply handle_last_keeps.
  - left. unfold handle_begin in H. destruct (_ <? _); [by injection H as <-|]. do 2 rinv H. by injection H as <-.
  - left. unfold handle_accept in H. destruct (negb _); [by injection H as <-|]. destruct (_ && _); [by injection H as <-|].
    do 3 rinv H. destruct (bool_decide (_ = m_quorum _)); [apply commit_start_stays in H as [-> _]|injection H as <-]; done.
  - unfold handle_commit in H. rinv H. rinv H. destruct a1 as [b n1]. injection H as <-. apply store_state_mon in E0.
    eapply keeps_trans; [left; exact E0|apply do_refresh_keeps].
  - left. unfold handle_lease in H. destruct (_ || _); by injection H as <-.
  - left. unfold handle_lease_ack in H. destruct (negb _); [by injection H as <-|]. destruct (bool_decide (from ∉ _)); [|by injection H as <-].
    injection H as <-. by destruct (bool_decide _).
Qed.

Lemma receive_keeps now nb m from (n n' : node) : receive run_op cfg now nb m from n = Ret n' -> keeps n n'.
Proof.
  unfold receive. destruct (_ <? _); [apply bootstrap_keeps|]. destruct (negb _); [intros [= <-]; by left|apply dispatch_keeps].
Qed.

Lemma propose_keeps l trigger (n n' : node) : propose l trigger n = Ret n' -> keeps n n'.
Proof.
  intros H. left. unfold propose in H. rinv H. apply get_pending_stays in E as [E _]. destruct trigger; [|by injection H as <-].
  rinv H. destruct a0 as [b n1]. injection H as <-. unfold trigger_propose in E0.
  destruct (plugged _); [by injection E0 as <- <-|]. destruct (is_active _); [|by injection E0 as <- <-].
  rinv E0. injection E0 as <- <-. by apply propose_pending_stays in E1 as [-> _].
Qed.

(** The monitors are the same, except for those that have left the quorum. *)
Definition all_keep (m m' : gmap Z node) : Prop :=
  forall r, match m !! r, m' !! r with Some n, Some n' => keeps n n' | None, None => True | _, _ => False end.

Lemma at_node_keeps r f c c' :
  at_node r f c = Some c' -> (forall n n', f n = Ret n' -> keeps n n') -> all_keep (nodes c) (nodes c').
Proof.
  intros H Hf. unfold at_node in H. destruct (nodes c !! r) as [n|] eqn:Hn; [|done]. destruct (f n) as [n'| |] eqn:Hfn; [|done..].
  injection H as <-. intros a. cbn. destruct (decide (a = r)) as [->|Hne].
  - rewrite Hn, lookup_insert_eq. exact (Hf _ _ Hfn).
  - rewrite lookup_insert_ne by congruence. destruct (nodes c !! a); [by left|done].
Qed.

Lemma exec_keeps ev c c' : exec run_op cfg ev c = Some c' -> all_keep (nodes c) (nodes c').
Proof.
  destruct ev; cbn; intros H.
  1: { destruct (list_find _ _) as [[i p]|]; [|done]. apply at_node_keeps in H; [done|]. intros ??. apply receive_keeps. }
  1: { injection H as <-. intros a. cbn. destruct (nodes c !! a); [by left|done]. }
  all: eapply at_node_keeps; [exact H|]; clear H; intros n n'; unfold guard; intros H.
  - injection H as <-. left. by destruct (flush_stays n) as [-> _].
  - destruct (written n); [by eapply commit_finish_keeps|done].
  - by eapply propose_keeps.
  - destruct (collect_timeout_event _); [|done]. unfold collect_timeout in H. rinv H. by apply bootstrap_keeps in H.
  - destruct (accept_timeout_event _); [|done]. unfold accept_timeout in H. do 2 rinv H. by apply bootstrap_keeps in H.
  - destruct (lease_ack_timeout_event _); [|done]. unfold lease_ack_timeout in H. do 2 rinv H. by apply bootstrap_keeps in H.
  - destruct (lease_timeout_event _); [|done]. unfold lease_timeout in H. rinv H. by apply bootstrap_keeps in H.
  - destruct (lease_renew_event _); [|done]. unfold lease_renew_timeout in H. left. by apply extend_lease_stays in H as [-> _].
Qed.

(** What was sent stays sent. *)
Lemma exec_sent ev c c' : exec run_op cfg ev c = Some c' -> exists l, sent c' = sent c ++ l.
Proof.
  assert (forall r f d, at_node r f d = Some c' -> exists l, sent c' = sent d ++ l) as Hat.
  { intros r f d. unfold at_node. destruct (nodes d !! r); [|done]. destruct (f _); [|done..]. intros [= <-]. by eexists. }
  destruct ev; cbn; intros H; try (by eapply Hat); [destruct (list_find _ _) as [[i p]|]; [by eapply Hat in H|done]|].
  injection H as <-. exists []. by rewrite app_nil_r.
Qed.
End epoch.
