(* ===== verification/PaxosSafety.v ===== *)
(** * Every event keeps the invariant

    The handlers of a peon, the dispatch of messages and the timers, put
    together: an event of Paxos keeps the invariant ([exec_inv]), and so do the
    steps elections and restarts are made of ([join_ok], [win_ok], [defer_ok],
    [restart_ok]). *)

From stdpp Require Import gmap sorting.
From S2P Require Import Prelude Paxos PaxosVote PaxosNet PaxosInv PaxosFrame PaxosStore PaxosSteps PaxosPropose PaxosLeader PaxosPeon PaxosEpoch.
Open Scope Z_scope.

Section safety.
Context {Op Svc : Type} (run_op : Op -> Svc -> Svc) (cfg : config) (N : Z) (s0 : Svc).
Context (HN : 2 <= N <= 100) (Hcfg : 0 <= paxos_min cfg).
Notation node := (@node Op Svc).
Notation packet := (@packet Op).
Notation cluster := (@cluster Op Svc).
Notation node_ok := (@node_ok Op Svc N).
Notation pkt_ok := (@pkt_ok Op Svc N).
Notation inv := (@inv Op Svc run_op N s0).
Notation exec := (exec run_op cfg).

(** ** The answer of a peon to [OP_COLLECT] *)

Record reply_as (n : node) (L acc prev : Z) (ms : @MMonPaxos Op) : Prop := ReplyAs {
  ra_op : op ms = OP_LAST;
  ra_epoch : epoch ms = ep_of n;
  ra_lc : msg_last_committed ms = lc_of n;
  ra_fc : msg_first_committed ms = first_committed (n_px n);
  ra_pn : pn ms = acc;
  ra_sorted : StronglySorted Z.lt (fst <$> values ms);
  ra_values u bl : (u, bl) ∈ values ms <->
    d_versions (n_store n) !! u = Some bl /\ ((L < u <= lc_of n) \/ (u = lc_of n + 1 /\ L <= lc_of n));
  ra_unc : msg_uncommitted_pn ms =
    if (L <=? lc_of n) && exists_version (n_store n) (lc_of n + 1) then uncommitted_pn_of n prev else 0;
}.

Lemma handle_collect_spec now nb (ms : @MMonPaxos Op) from (n n' : node) :
  handle_collect run_op cfg now nb ms from n = Ret n' ->
  is_peon n = true /\
  let n1 := upd (fun p => reset_lease_timeout (set_p_state STATE_RECOVERING p)) n in
  bootstrap run_op cfg now nb n1 = Ret n' \/
  exists last, let acc := Z.max (prom_of n) (pn ms) in
    reply_as n (msg_last_committed ms) acc (prom_of n) last /\ prom_of n' = acc /\
    n_out n' = n_out n ++ [Packet (rank n) from last] /\ n_mon n' = n_mon n /\ n_io n' = n_io n /\
    (exists v, n_store n' = set_d_accepted_pn v (n_store n)) /\ lc_of n' = lc_of n /\ pn_of n' = pn_of n /\
    first_committed (n_px n') = first_committed (n_px n) /\ pending_proposal (n_px n') = pending_proposal (n_px n) /\
    p_state (n_px n') = STATE_RECOVERING.
Proof.
  intros H. unfold handle_collect in H. rinv H. unfold rassert in E. destruct (is_peon n) eqn:Hp; [|done]. split; [done|].
  cbn zeta. set (n1 := upd _ n) in *. change (last_committed (n_px n1)) with (lc_of n) in H. change (accepted_pn (n_px n1)) with (prom_of n) in H.
  destruct (lc_of n + 1 <? msg_first_committed ms); [by left|right].
  assert (exists n2, (if prom_of n <? pn ms then updd (set_d_accepted_pn (pn ms)) (upd (fun p => set_accepted_pn (pn ms) (set_accepted_pn_from (pn_from ms) p)) n1) else n1) = n2 /\
    prom_of n2 = Z.max (prom_of n) (pn ms) /\ n_out n2 = n_out n /\ n_mon n2 = n_mon n /\ n_io n2 = n_io n /\
    (exists v, n_store n2 = set_d_accepted_pn v (n_store n)) /\ lc_of n2 = lc_of n /\ pn_of n2 = pn_of n /\
    first_committed (n_px n2) = first_committed (n_px n) /\ pending_proposal (n_px n2) = pending_proposal (n_px n) /\
    p_state (n_px n2) = STATE_RECOVERING) as (n2 & Heq & Hp2 & Ho2 & Hm2 & Hi2 & [dv Hs2] & Hl2 & Hpn2 & Hf2 & Hpd2 & Hst2).
  { eexists. split; [reflexivity|]. destruct (Z.ltb_spec (prom_of n) (pn ms)).
    - split_and!; try done; [|by eexists]. change (pn ms = Z.max (prom_of n) (pn ms)). lia.
    - split_and!; try done; [change (prom_of n = Z.max (prom_of n) (pn ms)); lia|]. exists (d_accepted_pn (n_store n)). by destruct (n_store n) eqn:?. }
  rewrite Heq in H. change (accepted_pn (n_px n2)) with (prom_of n2) in H. rewrite Hp2 in H.
  assert (d_versions (n_store n2) = d_versions (n_store n)) as Hv2 by by rewrite Hs2.
  rinv H. rename a0 into last2. rinv H. rename a0 into last3. injection H as <-.
  assert (values last2 = values last2 /\ op last2 = OP_LAST /\ epoch last2 = ep_of n /\ msg_last_committed last2 = lc_of n /\
    msg_first_committed last2 = first_committed (n_px n) /\ pn last2 = Z.max (prom_of n) (pn ms) /\ msg_uncommitted_pn last2 = 0 /\
    StronglySorted Z.lt (fst <$> values last2) /\
    forall u bl, (u, bl) ∈ values last2 <-> d_versions (n_store n) !! u = Some bl /\ msg_last_committed ms < u <= lc_of n)
    as (_ & H1 & H2 & H3 & H4 & H5 & H6 & H7 & H8).
  { destruct (Z.ltb_spec (msg_last_committed ms) (lc_of n)).
    - apply share_state_spec in E0 as (_ & vals & -> & Hso & Hvals); [|done]. split_and!; try done. intros u bl. cbn. rewrite Hvals, Hv2, Hl2. tauto.
    - injection E0 as <-. split_and!; try done; [constructor|]. intros u bl. split; [by intros []%not_elem_of_nil|intros [_ ?]; lia]. }
  clear E0. exists last3. split_and!; try done; [|cbn; by rewrite Ho2, (f_equal m_rank Hm2 : rank n2 = rank n)|by exists dv].
  assert (exists_version (n_store n2) (lc_of n + 1) = exists_version (n_store n) (lc_of n + 1)) as Hev by (unfold exists_version; by rewrite Hv2).
  rewrite Hev in E1. destruct ((msg_last_committed ms <=? lc_of n) && exists_version (n_store n) (lc_of n + 1)) eqn:Hc.
  - rinv E1. injection E1 as <-. apply andb_true_iff in Hc as [Hc%Z.leb_le Hex].
    unfold exists_version in Hex. unfold get_version_bl. rewrite Hv2. destruct (d_versions (n_store n) !! (lc_of n + 1)) as [b|] eqn:Hb; [|done].
    assert (mput (lc_of n + 1) b (values last2) = values last2 ++ [(lc_of n + 1, b)]) as Hput.
    { apply mput_end. intros k' a' [_ ?]%H8. lia. }
    split; cbn; try done; rewrite ?Hput.
    + apply ss_snoc; [done|]. intros k' a' [_ ?]%H8. lia.
    + intros u bl. rewrite elem_of_app, H8, list_elem_of_singleton. split.
      * intros [[? ?]|[= -> ->]]; split; try done; [by left|right; lia].
      * intros [Hu [?|[-> ?]]]; [by left|right; congruence].
    + destruct (Z.leb_spec (msg_last_committed ms) (lc_of n)); [|lia]. unfold exists_version. rewrite Hb. cbn.
      unfold uncommitted_pn_of. change (last_committed (n_px n2)) with (lc_of n2). rewrite Hl2, Hs2. done.
  - injection E1 as <-. split; try done; [|by rewrite H6, Hc]. intros u bl. rewrite H8. split; [intros [? ?]; split; [done|by left]|].
    intros [Hu [?|[-> Hle]]]; [done|]. apply andb_false_iff in Hc as [Hc%Z.leb_gt|Hc]; [lia|]. unfold exists_version in Hc. by rewrite Hu in Hc.
Qed.

(** ** Delivery *)

Section deliver.
Context (m : gmap Z node) (l1 l2 σ : list packet) (pk : packet) (n : node).
Notation νp := (l1 ++ pk :: l2).
Notation ν1 := (l1 ++ l2).
Context (Hi : inv m νp σ) (Hn : m !! dst pk = Some n) (Hempty : n_out n = []).
Context (Hfirst : forall x, x ∈ l1 -> ~ on_channel (src pk) (dst pk) x).
Context (Hep : epoch (msg pk) = ep_of n).
Notation r := (dst pk).
Notation W := (W run_op N s0 m ν1 σ r).

Lemma deliver_W : W n.
Proof using Hi Hn Hempty HN.
  unfold PaxosSteps.W, M, net_, sent_. rewrite Hempty, !app_nil_r, insert_id by done.
  eapply inv_sub; [exact HN|apply delivered_sub|done].
Qed.

Lemma W_inv n' : inv (<[r := n']> m) (ν1 ++ n_out n') (σ ++ n_out n') -> W n'.
Proof. done. Qed.

Lemma reply_ok L acc (n' : node) ms :
  m_role (n_mon n) = Peon -> src pk = m_leader (n_mon n) -> op (msg pk) = OP_COLLECT -> L = msg_last_committed (msg pk) -> reply_as n L acc (prom_of n) ms -> prom_of n' = acc ->
  acc = Z.max (prom_of n) (pn (msg pk)) -> r <> src pk ->
  let lp := Packet r (src pk) ms in
  last_ok N (<[r := n']> m) (σ ++ [lp]) lp L.
Proof using Hi Hn.
  intros Hpeon Hfrom Ho HL [] Hpn' Hacc Hne lp.
  destruct (peon_facts run_op N s0 m l1 l2 σ pk n Hi Hn Hpeon Hfrom) as (Hio & _).
  pose proof (i_store _ _ _ _ _ _ Hi _ _ Hn) as [Hdk Hl _ _ _]. destruct Hl as [Hl1 Hl2]; [by rewrite Hio|].
  pose proof (pk_ok _ _ _ _ _ _ _ _ Hi) as Hb. unfold PaxosInv.pkt_ok in Hb. rewrite Ho in Hb. destruct Hb as (_ & Hpos & _ & _ & HLr).
  rewrite <- HL in HLr.
  assert (forall a k v, voteP (σ ++ [lp]) a k v -> voteP σ a k v) as Hvote.
  { intros a k v. apply vote_new'. intros x ->%list_elem_of_singleton. cbn. by rewrite ra_op0. }
  assert (forall x, d_versions (n_store n) !! (lc_of n + 1) = Some x -> uncommitted_pn_of n (prom_of n) = d_pending_pn (n_store n) /\
    0 < d_pending_pn (n_store n) <= prom_of n /\ exists y, x = Some y /\ propP σ (d_pending_pn (n_store n)) (lc_of n + 1) y) as Hpend.
  { intros x Hx. rewrite <- Hl1 in *. destruct (dk_pending _ _ _ _ _ _ _ Hdk x Hx) as (Hv & Hp & Hy). split_and!; [|lia|lia|done].
    unfold uncommitted_pn_of. fold (lc_of n). rewrite <- Hl1, Hv. pose proof (dk_range _ _ _ _ _ _ _ Hdk) as Hr0. rewrite Z.eqb_refl.
    destruct (Z.eqb_spec (d_last_committed (n_store n) + 1) 0); [lia|]. destruct (Z.eqb_spec (d_pending_pn (n_store n)) 0); [lia|done]. }
  split; cbn.
  - rewrite ra_pn0. unfold field. rewrite lookup_insert_eq. lia.
  - rewrite ra_pn0, Hacc. destruct (Z.max_spec (prom_of n) (pn (msg pk))) as [[_ ->]|[_ ->]].
    + right. apply sessP_app. exists pk. split_and!; [eapply i_sub; [exact Hi|apply pk_in]|done|done|by right].
    + pose proof (i_prom _ _ _ _ _ _ Hi r) as Hp. unfold field in Hp. rewrite Hn in Hp. destruct Hp as [?|?]; [by left|right; by apply sessP_app].
  - apply vals_ok_app. split_and!; [done| |]; rewrite ra_lc0.
    + intros k bl [Hk _]%ra_values0 Hle. rewrite <- Hl1 in Hle. by apply (dk_chosen _ _ _ _ _ _ _ Hdk k bl Hk).
    + intros k bl v [Hk Hkr]%ra_values0 Hv. destruct (dk_range_ver _ _ _ _ _ _ _ Hdk k bl Hk) as [? ?].
      destruct (dk_cont _ _ _ _ _ _ _ Hdk v) as [bl' Hbl]; [lia|lia|]. exists bl'. apply ra_values0. split; [done|]. left. lia.
  - unfold field. rewrite lookup_insert_ne by done. unfold field in HLr. lia.
  - intros v Hv Hfc. rewrite ra_lc0 in Hv. rewrite ra_fc0 in Hfc. destruct (dk_cont _ _ _ _ _ _ _ Hdk v) as [bl Hbl]; [lia|lia|].
    exists bl. apply ra_values0. split; [done|by left].
  - intros k v Hk Hv. apply Hvote in Hv. rewrite ra_lc0, ra_unc0. destruct (dk_vote _ _ _ _ _ _ _ Hdk k v Hv) as [?|(-> & [x Hx] & Hkp)]; [left; lia|right].
    rewrite Hl1 in *. split; [done|]. destruct (Z.leb_spec L (lc_of n)); [right|by left]. unfold exists_version. rewrite Hx. cbn.
    destruct (Hpend x Hx) as (-> & ? & _). lia.
  - rewrite ra_unc0, ra_lc0, ra_pn0. destruct (Z.leb_spec L (lc_of n)); [|done]. cbn. unfold exists_version.
    destruct (d_versions (n_store n) !! (lc_of n + 1)) as [x|] eqn:Hx; [|done]. intros _. destruct (Hpend x eq_refl) as (-> & ? & y & -> & Hy).
    split; [lia|]. exists y. split; [|by apply propP_app]. apply mget_elem; [done|]. apply ra_values0. split; [done|]. right. done.
Qed.

Lemma handle_collect_ok now nb n' :
  op (msg pk) = OP_COLLECT -> src pk = m_leader (n_mon n) -> handle_collect run_op cfg now nb (msg pk) (src pk) n = Ret n' -> W n'.
Proof using Hi Hn Hempty Hfirst Hep HN Hcfg.
  intros Ho Hfrom H. apply handle_collect_spec in H as (Hp%bool_decide_eq_true_1 & [Hb|(last & Hr & Hprom & Hout & Hmon & Hio & Hsto & Hlc & Hpn & Hfc & Hpd & Hst)]).
  { eapply bootstrap_ok; [exact HN|exact Hcfg| |exact Hb]. pose proof deliver_W as Hw. apply (W_local _ _ _ _ _ _ _ n _ []); [done|by rewrite app_nil_r|try done..].
    - by intros ? []%not_elem_of_nil.
    - intros []. by split.
    - unfold PaxosInv.node_ok, not_writing. cbn. rewrite Hp. intros ((? & _) & ? & _). split_and!; try done. by intros [[=]|[=]]. }
  destruct (peon_facts run_op N s0 m l1 l2 σ pk n Hi Hn Hp Hfrom) as (Hion & Hne).
  destruct (i_dom _ _ _ _ _ _ Hi _ _ Hn) as (_ & Hrk & _). rewrite Hempty, Hrk in Hout. cbn in Hout.
  unfold PaxosSteps.W, M, net_, sent_. rewrite Hout. pose proof Hr as [Hop Hre _ _ Hrp _ _ _].
  eapply (promise_ok run_op N s0 HN m l1 l2 σ pk n Hi Hn Hfirst n' (Packet r (src pk) last)); try done.
  - lia.
  - by rewrite Hst.
  - rewrite Hst. by intros [[=]|[=]].
  - cbn. congruence.
  - rewrite Hprom. lia.
  - by eapply (reply_ok (msg_last_committed (msg pk)) (Z.max (prom_of n) (pn (msg pk)))).
Qed.

Lemma handle_begin_ok n' :
  op (msg pk) = OP_BEGIN -> m_role (n_mon n) = Peon -> src pk = m_leader (n_mon n) -> handle_begin (msg pk) (src pk) n = Ret n' -> W n'.
Proof using Hi Hn Hempty Hfirst Hep HN.
  intros Ho Hp Hfrom H. unfold handle_begin in H. fold (prom_of n) (lc_of n) in H.
  destruct (pn (msg pk) <? prom_of n); [injection H as <-; apply deliver_W|]. do 2 rinv H. injection H as <-.
  unfold rassert in *. destruct (Z.eqb_spec (pn (msg pk)) (prom_of n)) as [Hpe|]; [|done].
  destruct (Z.eqb_spec (msg_last_committed (msg pk)) (lc_of n)) as [Hle|]; [|done]. clear E E0.
  destruct (i_dom _ _ _ _ _ _ Hi _ _ Hn) as (_ & Hrk & _).
  unfold PaxosSteps.W, M, net_, sent_. set (n' := send _ _ _).
  assert (n_out n' = [Packet r (src pk) (MkMMonPaxos OP_ACCEPT (ep_of n) 0 (lc_of n) 0 (prom_of n) 0 0 [])]) as Hout.
  { unfold n'. cbn. rewrite Hempty. cbn. unfold rank. cbn. unfold rank in Hrk. rewrite Hrk. done. }
  pose proof (pk_ok _ _ _ _ _ _ _ _ Hi) as Hb. unfold PaxosInv.pkt_ok in Hb. rewrite Ho in Hb. destruct Hb as (Hne & Hown & _).
  rewrite Hout. eapply (vote_ok run_op N s0 HN m l1 l2 σ pk n Hi Hn Hfirst n'); try done.
  { intros _. change (prom_of n mod 100 <> r). congruence. }
  intros x Hx. unfold n'. cbn. unfold msg_value. rewrite Hx. cbn. by rewrite Z.eqb_refl.
Qed.

(** The messages a leader counts. *)
Lemma counted_last :
  op (msg pk) = OP_LAST -> m_role (n_mon n) = Leader ->
  p_state (n_px n) = STATE_RECOVERING /\ exists L X, answering N m ν1 σ r n pk L X.
Proof using Hi Hn Hempty Hfirst Hep.
  intros Ho Hrole. pose proof (pk_ok _ _ _ _ _ _ _ _ Hi) as Hb. unfold PaxosInv.pkt_ok in Hb. rewrite Ho in Hb.
  destruct Hb as [Hne [L HL]]. pose proof (i_node _ _ _ _ _ _ Hi _ _ Hn) as Hnd. unfold PaxosInv.node_ok in Hnd. rewrite Hrole in Hnd.
  destruct Hnd as [Hs Hp]. pose proof Hs as [].
  assert (last_to r (src pk) pk) as Hlt by done. assert (pk ∈ νp) as Hin by apply pk_in.
  assert (src pk ∈ m_quorum (n_mon n)) as Hq by (eapply ss_from; [exact Hin|by right|done]).
  assert (forall b, ~ recovered m νp σ r n b) as Hnr. { intros b []. destruct (rd_quiet (src pk) Hq Hne pk Hin) as [Hc _]. by apply Hc. }
  unfold PaxosInv.phase in Hp. destruct (p_state (n_px n)); try (by destruct Hp as [Hp _]; apply Hnr in Hp); [|done].
  destruct Hp as [X HX]. split; [done|]. exists L, X. pose proof (sub_extends r m νp ν1 σ (delivered_sub l1 l2 pk)) as Hext.
  assert (PaxosSteps.M m r n = m /\ net_ ν1 n = ν1 /\ sent_ σ n = σ) as (HM & Hnet & Hsent).
  { unfold M, net_, sent_. by rewrite Hempty, !app_nil_r, insert_id. }
  split; rewrite ?HM, ?Hnet, ?Hsent.
  - eapply recovering_step; [exact Hext|by intros ? []%not_elem_of_nil|done|by intros ?? _ []%not_elem_of_nil|done].
  - done.
  - intros Heq. split; rewrite ?Hnet; [|done|].
    + intros Hx. destruct HX. destruct (rc_peers _ Hx) as (_ & _ & Hqt). destruct (Hqt pk Hin) as [Hc _]. by apply Hc.
    + intros x Hx. split; [|apply (ss_coll (src pk) pk x); eauto using net_in].
      intros Hl. specialize (ss_last (src pk)). apply StronglySorted_app in ss_last as (_ & _ & Hsl). apply StronglySorted_inv in Hsl as [_ Hf].
      apply elem_of_app in Hx as [Hx|Hx]; [apply (Hfirst x Hx); by destruct Hl as (_ & ? & ?)|].
      eapply (list_relations.list.Forall_forall) in Hf; [|exact Hx]. by apply Hf.
Qed.

Lemma counted_accept ms' n' :
  op (msg pk) = OP_ACCEPT -> is_leader n = true -> ms' = msg pk -> handle_accept ms' (src pk) n = Ret n' -> W n'.
Proof using Hi Hn Hempty HN.
  intros Ho Hl -> H. pose proof deliver_W as Hw. assert (net_ ν1 n = ν1 /\ sent_ σ n = σ) as (Hnet & Hsent).
  { unfold net_, sent_. by rewrite Hempty, !app_nil_r. }
  eapply handle_accept_ok; [exact Hw|done| | |exact H]; rewrite ?Hnet, ?Hsent.
  - exists pk. split_and!; try done; [eapply i_sub; [exact Hi|apply pk_in]|by left].
  - intros Hup Hpn. pose proof (i_node _ _ _ _ _ _ Hi _ _ Hn) as Hnd. apply bool_decide_eq_true_1 in Hl. unfold PaxosInv.node_ok in Hnd. rewrite Hl in Hnd.
    destruct Hnd as [Hs Hp]. assert (tok r (prom_of n) (src pk) pk) as Ht by (split; [done|]; by right). assert (pk ∈ νp) as Hin by apply pk_in.
    assert (updating νp σ r n) as [].
    { assert (updating ν1 σ r n -> new_value (n_px n) <> None) as Hnn by (intros [? (x & Hx & _) _ _ _ _]; congruence).
      unfold PaxosInv.phase in Hp. destruct (p_state (n_px n)); try done; try (by destruct Hp).
      - destruct Hp as [X []]. by apply Hnn in Hup.
      - destruct Hp as [_ (_ & _ & Hp)]. by destruct (Hp _ _ Hin Ht).
      - destruct Hp as [_ []]. by destruct (wr_tok _ _ Hin Ht).
      - destruct Hp as [_ []]. by destruct (wr_tok _ _ Hin Ht).
      - destruct Hp as [_ (_ & _ & Hp)]. by destruct (Hp _ _ Hin Ht). }
    destruct (up_tok _ _ Hin Ht) as (? & ? & ?). split_and!; [done|done|]. intros x Hx. by eapply (once_only l1 l2 pk (tok r (prom_of n) (src pk))).
Qed.

Lemma dispatch_ok now nb n' : dispatch run_op cfg now nb (msg pk) (src pk) n = Ret n' -> W n'.
Proof using Hi Hn Hempty Hfirst Hep HN Hcfg.
  intros H. pose proof deliver_W as Hw. unfold dispatch in H. pose proof (i_node _ _ _ _ _ _ Hi _ _ Hn) as Hnd. unfold PaxosInv.node_ok in Hnd.
  pose proof (pk_ok _ _ _ _ _ _ _ _ Hi) as Hb. unfold PaxosInv.pkt_ok in Hb.
  assert (sent_ σ n = σ) as Hsent by (unfold sent_; by rewrite Hempty, app_nil_r).
  destruct (is_leader n) eqn:Hl, (is_peon n) eqn:Hp; cbn [negb andb orb rassert rbind] in H.
  4: by injection H as <-.
  1: { apply bool_decide_eq_true_1 in Hl, Hp. congruence. }
  - pose proof Hl as Hrole%bool_decide_eq_true_1. rewrite Hrole in Hnd. destruct Hnd as [[_ _ Hown' _ _ _ _ _] _].
    destruct (op (msg pk)) eqn:Ho.
    + unfold handle_collect in H. by rewrite Hp in H.
    + destruct (counted_last Ho Hrole) as (Hst & L & X & Ha). eapply handle_last_ok; [exact HN|exact Hcfg|exact Hw|done|done|done|exact Ha|exact H].
    + destruct Hb as (Hne & Hown & _). unfold handle_begin in H. fold (prom_of n) in H.
      destruct (pn (msg pk) <? prom_of n); [by injection H as <-|]. do 2 rinv H. unfold rassert in E.
      destruct (Z.eqb_spec (pn (msg pk)) (prom_of n)); [|done]. congruence.
    + by eapply counted_accept.
    + unfold handle_commit in H. by rewrite Hp in H.
    + unfold handle_lease in H. rewrite Hp in H. by injection H as <-.
    + by eapply handle_lease_ack_ok.
  - pose proof Hp as Hrole%bool_decide_eq_true_1. rewrite Hrole in Hnd. destruct Hnd as (_ & Hrl & Hupd).
    destruct (Z.eqb_spec (src pk) (m_leader (n_mon n))) as [Hsl|]; [|done]. cbn [rassert rbind] in H.
    destruct (op (msg pk)) eqn:Ho.
    + by eapply handle_collect_ok.
    + unfold handle_last in H. rewrite Hl in H. by injection H as <-.
    + by eapply handle_begin_ok.
    + destruct Hb as [Hown _]. unfold handle_accept in H. fold (prom_of n) in H.
      destruct (Z.eqb_spec (pn (msg pk)) (prom_of n)) as [Heq|]; cbn [negb] in H; [|by injection H as <-].
      destruct ((0 <? _) && _) in H; [by injection H as <-|]. do 2 rinv H. unfold rassert in E0.
      destruct (is_updating n || is_updating_previous n) eqn:Hu; [|done]. destruct Hupd; [|congruence].
      apply orb_true_iff in Hu as [Hu%bool_decide_eq_true_1|Hu%bool_decide_eq_true_1]; [by left|by right].
    + eapply handle_commit_ok; [exact Hw| |exact H]. by rewrite Hsent.
    + by eapply handle_lease_ok.
    + by eapply handle_lease_ack_ok.
Qed.
End deliver.

(** ** Events *)

Definition Inv (c : cluster) : Prop := inv (nodes c) (net c) (sent c) /\ forall r n, nodes c !! r = Some n -> n_out n = [].

(** A monitor takes a step and its messages go to the network. *)
Lemma step_inv r c n n' :
  Inv c -> nodes c !! r = Some n ->
  (W run_op N s0 (nodes c) (net c) (sent c) r n -> W run_op N s0 (nodes c) (net c) (sent c) r n') ->
  Inv (Cluster (<[r := set_n_out [] n']> (nodes c)) (net c ++ n_out n') (sent c ++ n_out n')).
Proof.
  intros [Hi He] Hn Hf. assert (W run_op N s0 (nodes c) (net c) (sent c) r n') as Hw.
  { apply Hf. unfold W, M, net_, sent_. rewrite (He r n Hn), !app_nil_r, insert_id by done. exact Hi. }
  set (n2 := set_n_out [] n'). assert (core n' = core n2) as Hc by done. split; cbn.
  - assert (extends r (<[r := n']> (nodes c)) (net c ++ n_out n') (sent c ++ n_out n') (<[r := n2]> (nodes c))
      (net c ++ n_out n') (sent c ++ n_out n') []) as Hext.
    { split; rewrite ?app_nil_r; try done; try (by intros ? []%not_elem_of_nil); unfold field.
      - eexists. by rewrite app_nil_r.
      - intros a Hne. by rewrite !lookup_insert_ne.
      - by rewrite !lookup_insert_eq.
      - by rewrite !lookup_insert_eq.
      - by rewrite !lookup_insert_eq.
      - left. by rewrite !lookup_insert_eq. }
    eapply (inv_local run_op N s0 _ _ _ _ _ _ _ _ Hext n' n2).
    + apply lookup_insert_eq.
    + by rewrite insert_insert_eq.
    + exact Hw.
    + by apply (W_rank _ _ _ _ _ _ _ _ Hw).
    + by apply (W_rank _ _ _ _ _ _ _ _ Hw).
    + done.
    + by intros ? []%not_elem_of_nil.
    + apply core_store; [done|]. by destruct (W_store _ _ _ _ _ _ _ _ Hw).
    + by apply core_node.
  - intros a na. destruct (decide (a = r)) as [->|Hne]; [rewrite lookup_insert_eq; by intros [= <-]|rewrite lookup_insert_ne by done; apply He].
Qed.

Lemma at_node_ok r f c c' :
  Inv c -> at_node r f c = Some c' ->
  (forall n n', nodes c !! r = Some n -> W run_op N s0 (nodes c) (net c) (sent c) r n -> f n = Ret n' ->
    W run_op N s0 (nodes c) (net c) (sent c) r n') -> Inv c'.
Proof.
  intros HI H Hf. unfold at_node in H. destruct (nodes c !! r) as [n|] eqn:Hn; [|done].
  destruct (f n) as [n'| |] eqn:Hfn; [|done..]. injection H as <-. eapply step_inv; [done..|]. intros Hw. by eapply Hf.
Qed.

Lemma deliver_ok s d now nb c c' : Inv c -> exec (Deliver s d now nb) c = Some c' -> Inv c'.
Proof using HN Hcfg.
  intros [Hi He] H. cbn in H. destruct (list_find (on_channel s d) (net c)) as [[i pk]|] eqn:Hf; [|done].
  apply list_find_Some in Hf as (Hpk & [<- <-] & Hfst).
  pose proof (take_drop_middle _ _ _ Hpk) as Hnet. set (l1 := take i (net c)) in *. set (l2 := drop (S i) (net c)) in *.
  assert (delete i (net c) = l1 ++ l2) as Hdel by apply delete_take_drop. rewrite Hdel in H.
  assert (forall x, x ∈ l1 -> ~ on_channel (src pk) (dst pk) x) as Hfirst.
  { intros x (j & Hj)%list_elem_of_lookup. unfold l1 in Hj. apply lookup_take_Some in Hj as [Hj Hlt]. by eapply Hfst. }
  rewrite <- Hnet in Hi. eapply at_node_ok; [|exact H|].
  { split; [|done]. cbn. eapply inv_sub; [exact HN|apply delivered_sub|exact Hi]. }
  cbn. intros n n' Hn Hw Hr. unfold receive in Hr.
  destruct (m_epoch (n_mon n) <? epoch (msg pk)); [by eapply bootstrap_ok|].
  destruct (Z.eqb_spec (epoch (msg pk)) (m_epoch (n_mon n))) as [Hep|]; cbn [negb] in Hr; [|by injection Hr as <-].
  eapply dispatch_ok; [exact Hi|done|by eapply He|done|done|exact Hr].
Qed.

Section event.
Context (m0 : gmap Z node) (ν0 σ0 : list packet) (r : Z).
Notation W := (W run_op N s0 m0 ν0 σ0 r).

Lemma propose_ok l trigger n n' : W n -> propose l trigger n = Ret n' -> W n'.
Proof using HN.
  intros Hw H. unfold propose in H. rinv H. rename a into n1. unfold get_pending_transaction in E. rinv E.
  unfold rassert in E0. destruct (is_leader n) eqn:Hl; [|done]. apply bool_decide_eq_true_1 in Hl.
  assert (exists t, services t /\ core n1 = core n /\ n_out n1 = n_out n /\ pending_proposal (n_px n1) = Some t) as (t & Ht & Hc & Ho & Hpd).
  { destruct (pending_proposal (n_px n)) as [t|] eqn:Hp; [injection E as <-; exists t|rinv E; injection E as <-; exists []].
    - split_and!; try done. destruct (W_store _ _ _ _ _ _ _ _ Hw) as [_ _ _ _ Hs]. exact (Hs t Hp).
    - split_and!; try done. by intros ? []%not_elem_of_nil. }
  set (n2 := upd _ (add_pending _ n1)) in H.
  assert (pending_proposal (n_px n2) = Some (t ++ (ServiceOp <$> l))) as Hpd2 by exact (add_pending_some _ _ _ Hpd).
  assert (services (t ++ (ServiceOp <$> l))) as Hsv.
  { intros o [?|(o' & -> & _)%list_elem_of_fmap]%elem_of_app; [by apply Ht|eauto]. }
  assert (core n2 = core n /\ n_out n2 = n_out n) as [Hc2 Ho2] by (rewrite <- Hc, <- Ho; done).
  assert (W n2) as Hw2. { eapply (W_core_nil _ _ _ _ _ _ _ n); [done|done|done|right]. rewrite Hpd2. by intros ? [= <-]. }
  destruct trigger; [|by injection H as <-]. rinv H. destruct a0 as [b n3]. injection H as <-. unfold trigger_propose in E1.
  destruct (plugged (n_px n2)); [by injection E1 as _ <-|]. destruct (is_active n2) eqn:Ha; [|by injection E1 as _ <-].
  rinv E1. injection E1 as _ <-. apply bool_decide_eq_true_1 in Ha. apply core_fields in Hc2 as (Hm2 & _).
  eapply (propose_pending_ok run_op N s0 HN m0 ν0 σ0 r n2 n2); [done|by rewrite Hm2|done|done|do 9 (split; [done|]); by right|exact Hpd2| |exact E2].
  apply wrap_services; [done|]. eapply W_range; [done|]. by eapply W_io_active.
Qed.

(** What [leader_init] and [peon_init] do not change. *)
Lemma init_px (p : @paxos Op) :
  let p' := reset_pending_committing_finishers p in
  first_committed p' = first_committed p /\ last_committed p' = last_committed p /\ last_pn p' = last_pn p /\
  accepted_pn p' = accepted_pn p /\ new_value p' = new_value p /\ pending_proposal p' = pending_proposal p /\ p_state p' = p_state p.
Proof. cbn zeta. unfold reset_pending_committing_finishers. rewrite finish_contexts_eq. done. Qed.

Lemma upd_mon f mo (n : node) : upd f (set_n_mon mo n) = set_n_px (f (n_px n)) (set_n_mon mo n).
Proof. done. Qed.

Lemma like_mon (n : node) px mo :
  first_committed px = first_committed (n_px n) -> last_committed px = last_committed (n_px n) -> last_pn px = last_pn (n_px n) ->
  accepted_pn px = accepted_pn (n_px n) -> pending_proposal px = None -> m_rank mo = rank n -> m_size mo = m_size (n_mon n) ->
  let nx := upd (fun p => set_lease_expire 0 (set_p_state STATE_RECOVERING p)) (set_n_px px (set_n_mon mo n)) in
  like n nx /\ new_value (n_px nx) = new_value px.
Proof. intros. split; [|done]. do 9 (split; [done|]). by right. Qed.

(** [leader_init] with more than one monitor in the quorum. *)
Lemma leader_init_spec mo (n n' : node) :
  Z.of_nat (size (m_quorum mo)) <> 1 -> leader_init (set_n_mon mo n) = Ret n' ->
  let px := reset_pending_committing_finishers (set_pending_proposal None (set_new_value None (cancel_events (n_px n)))) in
  collect 0 (upd (fun p => set_lease_expire 0 (set_p_state STATE_RECOVERING p)) (set_n_px px (set_n_mon mo n))) = Ret n'.
Proof.
  intros Hs H. unfold leader_init in H. rewrite upd_mon in H. destruct (quorum_size _ =? 1) eqn:Hs1 in H; [|exact H].
  apply Z.eqb_eq in Hs1. contradiction.
Qed.

Lemma win_spec e q (n n' : node) :
  1 < Z.of_nat (size q) -> win_election e q n = Ret n' ->
  exists nx, collect 0 nx = Ret n' /\ like n nx /\ new_value (n_px nx) = None /\ ep_of nx = e /\ m_quorum (n_mon nx) = q.
Proof.
  intros Hq H. unfold win_election in H. rinv H. apply leader_init_spec in H; [|cbn; lia]. eexists. split; [exact H|]. clear H.
  destruct (init_px (set_pending_proposal None (set_new_value None (cancel_events (n_px n))))) as (H1 & H2 & H3 & H4 & H5 & H6 & _).
  set (px := reset_pending_committing_finishers _) in *. clearbody px.
  destruct (like_mon n px (set_m_role Leader (set_m_epoch e (set_m_quorum q (set_m_leader (rank n) (n_mon n))))) H1 H2 H3 H4 H6) as [Hlike Hnv]; [done|done|].
  split; [done|]. split; [by rewrite Hnv|done].
Qed.

Lemma win_ok e q n n' :
  W n -> r ∈ q -> majority N q -> m_role (n_mon n) = Electing -> ep_of n <= e ->
  (forall a pk, pk ∈ net_ (Svc := Svc) ν0 n -> coll_to r a pk \/ last_to r a pk -> epoch (msg pk) < e) ->
  win_election e q n = Ret n' -> W n'.
Proof using HN.
  intros Hw Hrq Hmaj Hro Hep Hlt H. pose proof Hmaj as [_ Hq].
  apply win_spec in H as (nx & H & Hlike & Hnv & Hee & Hqq); [|lia].
  pose proof (W_node _ _ _ _ _ _ _ _ Hw) as Hn. unfold PaxosInv.node_ok in Hn. rewrite Hro in Hn. destruct Hn as [Hio _].
  eapply (collect_ok run_op N s0 HN m0 ν0 σ0 r 0 n nx); [done|done|done|by rewrite Hqq|by rewrite Hqq|lia| |done|exact H].
  rewrite Hee. intros a pk Hpk Hk He. specialize (Hlt a pk Hpk Hk). lia.
Qed.

Lemma defer_ok e q l n :
  W n -> l <> r -> m_role (n_mon n) = Electing -> ep_of n <= e -> W (lose_election e q l n).
Proof.
  intros Hw Hlr Hro Hep. unfold lose_election, peon_init, upd. cbn [n_px set_n_px set_n_mon].
  destruct (init_px (set_pending_proposal None (reset_lease_timeout (set_lease_expire 0 (set_p_state STATE_RECOVERING (set_new_value None (cancel_events (n_px n)))))))) as (H1 & H2 & H3 & H4 & _ & H6 & H7).
  set (px := reset_pending_committing_finishers _) in *. clearbody px. cbn in H1, H2, H3, H4, H6, H7.
  eapply (W_local _ _ _ _ _ _ _ n _ []); [done|by rewrite app_nil_r|done|done|exact H4| | | | | |].
  - unfold lc_of. cbn. lia.
  - unfold pn_of. cbn. lia.
  - unfold ep_of in *. cbn. lia.
  - by intros ? []%not_elem_of_nil.
  - intros []. split; unfold prom_of, lc_of, pn_of in *; cbn; rewrite ?H1, ?H2, ?H3, ?H4, ?H6; done.
  - unfold PaxosInv.node_ok, not_writing. cbn. rewrite Hro, H7. intros [Hio _]. split_and!; try done. by intros [[=]|[=]].
Qed.

(** Sessions are of epochs the monitor has entered. *)
Lemma session_epochs n a pk :
  W n -> pk ∈ net_ (Svc := Svc) ν0 n -> coll_to r a pk \/ last_to r a pk -> epoch (msg pk) <= ep_of n.
Proof.
  intros Hw Hpk Hk. destruct (i_epoch _ _ _ _ _ _ Hw pk Hpk) as [H1 H2].
  destruct Hk as [(Ho & Hs & _)|(Ho & _ & Hd)]; [specialize (H1 Ho); rewrite Hs, field_self in H1|specialize (H2 Ho); rewrite Hd, field_self in H2]; done.
Qed.

Lemma set_epoch_ok e n : W n -> ep_of n <= e -> W (set_n_mon (set_m_epoch e (n_mon n)) n).
Proof.
  intros Hw Hep. set (n1 := set_n_mon _ n). eapply (W_local _ _ _ _ _ _ _ n n1 []); [done|by rewrite app_nil_r|done..|by intros ? []%not_elem_of_nil| |].
  - intros []. by split.
  - unfold PaxosInv.node_ok. change (m_role (n_mon n1)) with (m_role (n_mon n)). destruct (m_role (n_mon n)); [|done..].
    intros [[] Hp]. split; [split; try done|].
    + intros a pk Hpk Hk Hee. change (epoch (msg pk) = e) in Hee. apply (ss_from a pk); [done|done|].
      pose proof (session_epochs n a pk Hw Hpk Hk). lia.
    + unfold PaxosInv.phase in *. change (p_state (n_px n1)) with (p_state (n_px n)).
      destruct (p_state (n_px n)); try done; [destruct Hp as [X []]; exists X; by split|..]; destruct Hp as [[] Hp]; (split; [by split|]);
        first [exact Hp|destruct Hp; by split].
Qed.

(** A monitor enters an epoch, then leaves its quorum. *)
Lemma join_ok e now nb n n' :
  W n -> ep_of n <= e -> leave_quorum run_op Electing cfg now nb (set_n_mon (set_m_epoch e (n_mon n)) n) = Ret n' ->
  W n' /\ m_role (n_mon n') = Electing /\ ep_of n' = e /\
  forall a pk, pk ∈ net_ (Svc := Svc) ν0 n' -> coll_to r a pk \/ last_to r a pk -> epoch (msg pk) <= ep_of n.
Proof using HN Hcfg.
  intros Hw Hep H. pose proof (set_epoch_ok _ _ Hw Hep) as Hw1. set (n1 := set_n_mon _ n) in *.
  pose proof (fun a pk => session_epochs n a pk Hw) as Hold.
  pose proof (leave_quorum_left _ _ _ _ _ _ _ H) as [Hm (out & Ho & Hpl)]. split; [by eapply leave_quorum_ok; [..|exact H]|]. split; [by rewrite Hm|].
  split; [unfold ep_of; by rewrite Hm|]. intros a pk Hpk Hk. unfold net_ in Hpk. rewrite Ho, (assoc_L (++)) in Hpk.
  apply elem_of_app in Hpk as [Hpk|[H1 H2]%Hpl]; [by eapply Hold|]. destruct Hk as [[? _]|[? _]]; done.
Qed.
End event.

(** A restart: the monitor is on its own and forgets its epoch. *)
Lemma restart_ok r c n n' :
  Inv c -> nodes c !! r = Some n -> accepted_pn (n_px n) = d_accepted_pn (n_store n) -> init n = Ret n' ->
  (forall pk, pk ∈ net c -> unconnected r pk) -> Inv (Cluster (<[r := set_n_out [] n']> (nodes c)) (net c) (sent c)).
Proof.
  intros [Hi He] Hn Hk Hf Hnet. unfold init in Hf. rinv Hf. injection Hf as <-.
  pose proof (i_store _ _ _ _ _ _ Hi _ _ Hn) as [Hdk Hl1 Hl2 Hpn _].
  destruct (i_dom _ _ _ _ _ _ Hi _ _ Hn) as (_ & Hr & Hsz). assert (d_accepted_pn (n_store n) = prom_of n) as Hk' by done.
  assert (lc_of n <= d_last_committed (n_store n)) as Hle.
  { destruct (n_io n) as [[v t|]|] eqn:Hio; [destruct Hl1; [done|lia]|rewrite Hl2 by done; lia|destruct Hl1; [done|lia]]. }
  set (n' := set_n_out _ _). split; cbn [nodes net sent].
  - assert (extends r (nodes c) (net c) (sent c) (<[r := n']> (nodes c)) (net c) (sent c) []) as Hext.
    { split; rewrite ?app_nil_r; try done; try (by intros ? []%not_elem_of_nil); unfold field.
      - exists (net c). by rewrite app_nil_r.
      - intros b Hne. by rewrite lookup_insert_ne.
      - rewrite Hn, lookup_insert_eq. change (prom_of n <= d_accepted_pn (n_store n)). by rewrite Hk'.
      - by rewrite Hn, lookup_insert_eq.
      - rewrite Hn, lookup_insert_eq. change (pn_of n <= d_last_pn (n_store n)). lia.
      - by right. }
    eapply (inv_local run_op N s0 _ _ _ _ _ _ _ _ Hext n n'); try done.
    + by intros ? []%not_elem_of_nil.
    + intros _. split; try done. change (disk_ok run_op N s0 (sent c) r (d_accepted_pn (n_store n)) (n_store n)). by rewrite Hk'.
  - intros b nb. destruct (decide (b = r)) as [->|Hne]; [rewrite lookup_insert_eq; by intros [= <-]|rewrite lookup_insert_ne by done; apply He].
Qed.

Lemma timeout_ok r n now nb n1 n' :
  W run_op N s0 (nodes n) (net n) (sent n) r n1 -> bootstrap run_op cfg now nb n1 = Ret n' ->
  W run_op N s0 (nodes n) (net n) (sent n) r n'.
Proof using HN Hcfg. intros Hw H. by eapply bootstrap_ok. Qed.

Lemma exec_inv ev c c' : Inv c -> exec ev c = Some c' -> Inv c'.
Proof using HN Hcfg.
  intros HI H. destruct ev as [s d now nb|i|r|r now nb|r l trig|r now nb|r now nb|r now nb|r now nb|r now]; [by eapply deliver_ok|..]; cbn in H.
  { injection H as <-. destruct HI as [Hi He]. split; [|done]. eapply inv_sub; [exact HN|apply sublist_delete|exact Hi]. }
  all: eapply at_node_ok; [exact HI|exact H|]; cbn beta; intros n n' Hn Hw Hf; clear H; unfold guard in Hf.
  - injection Hf as <-. by apply flush_ok.
  - unfold written in Hf. destruct (n_io n) as [[|]|] eqn:Hio; [done| |done]. by eapply commit_finish_ok.
  - by eapply propose_ok.
  - destruct (collect_timeout_event _); [|done]. unfold collect_timeout in Hf. rinv Hf. eapply timeout_ok; [|exact Hf].
    by apply (W_core_nil _ _ _ _ _ _ _ n); [..|left].
  - destruct (accept_timeout_event _); [|done]. unfold accept_timeout in Hf. do 2 rinv Hf. eapply timeout_ok; [|exact Hf].
    by apply (W_core_nil _ _ _ _ _ _ _ n); [..|left].
  - destruct (lease_ack_timeout_event _); [|done]. unfold lease_ack_timeout in Hf. do 2 rinv Hf. eapply timeout_ok; [|exact Hf].
    by apply (W_core_nil _ _ _ _ _ _ _ n); [..|left].
  - destruct (lease_timeout_event _); [|done]. unfold lease_timeout in Hf. rinv Hf. eapply timeout_ok; [|exact Hf].
    by apply (W_core_nil _ _ _ _ _ _ _ n); [..|left].
  - destruct (lease_renew_event _); [|done]. unfold lease_renew_timeout in Hf. apply (extend_lease_ok run_op cfg N s0 (nodes c) (net c) (sent c) r) in Hf as (? & _); [done|].
    by apply (W_core_nil _ _ _ _ _ _ _ n); [..|left].
Qed.

(** ** Runs *)

Lemma start_nodes r (n : node) : nodes (start N s0) !! r = Some n <-> 0 <= r < N /\ n = fresh_node r N s0.
Proof using HN.
  unfold start. cbn. rewrite <- elem_of_list_to_map.
  - rewrite list_elem_of_fmap. setoid_rewrite elem_of_seqZ. split; [intros (a & [= -> ->] & ?); split; [lia|done]|].
    intros [? ->]. exists r. split; [done|lia].
  - rewrite <- list_fmap_compose. replace (fst ∘ _) with (@id Z) by done. rewrite list_fmap_id. apply NoDup_seqZ.
Qed.

Lemma start_field (f : node -> Z) a : f (fresh_node a N s0) = 0 -> field f (nodes (start N s0)) a = 0.
Proof using HN.
  intros Hf. unfold field. destruct (nodes (start N s0) !! a) as [n|] eqn:Hn; [|done]. by apply start_nodes in Hn as [_ ->].
Qed.

Lemma start_inv : Inv (start N s0).
Proof using HN.
  split; [|by intros r n [_ ->]%start_nodes]. split; try (by intros ? []%not_elem_of_nil).
  - by intros r n [? ->]%start_nodes.
  - intros r Hr. exists (fresh_node r N s0). by apply start_nodes.
  - eapply vinv_equiv_1; [|apply vinv_empty]. split_and!; cbn.
    + intros a. by rewrite start_field.
    + intros a p n. split; [done|]. by intros (pk & []%not_elem_of_nil & _).
    + intros p n v. split; [done|]. by intros (pk & []%not_elem_of_nil & _).
  - intros a. left. by apply start_field.
  - by intros p n x (pk & []%not_elem_of_nil & _).
  - constructor.
  - intros r n [_ ->]%start_nodes. split; try done. split; cbn; try done; [constructor|lia|].
    intros k v (pk & []%not_elem_of_nil & _).
  - by intros r n [_ ->]%start_nodes.
Qed.

End safety.
