(* ===== verification/Elector.v ===== *)
(** * Elections (src/src/mon/Elector.cc, Elector.h,
    src/src/messages/MMonElection.h, and the part of Monitor.cc they call)

    The elector of a monitor and every handler of [Elector], on the monitor of
    Paxos.v: [Elector::epoch] is [m_epoch], which Paxos reads too.  A failed
    assertion and [exit] are [Fault]; the process ends in both.

    The monitors share one monmap, so that the messages of other clusters and
    newer maps, which [dispatch] looks for, do not occur.  What depends on the
    binary and the features of its peers is an argument of the handlers
    ([env]), any value of it; metadata and the commands of the leader are left
    out. *)

From stdpp Require Import gmap sorting.
From S2P Require Import Prelude Paxos PaxosNet.
Open Scope Z_scope.

Inductive election_op := OP_PROPOSE | OP_ACK | OP_NAK | OP_VICTORY.

Record MMonElection := MkMMonElection {
  el_op : election_op;
  el_epoch : Z;
  el_quorum : gset Z;
  quorum_features : Z;
  msg_mon_features : Z;
  msg_mon_release : Z;
}.

Record epacket := EPacket {
  e_src : Z;
  e_dst : Z;
  e_msg : MMonElection;
}.

Record elector_info_t := ElectorInfo {
  cluster_features : Z;
  mon_features : Z;
  mon_release : Z;
}.

(** [epoch] is with the monitor; [election_epoch] is the key of the store that
    keeps it. *)
Record elector := MkElector {
  participating : bool;
  electing_me : bool;
  acked_me : gmap Z elector_info_t;
  leader_acked : Z;
  expire_event : bool;
  election_epoch : Z;
}.

Definition set_participating (v : bool) (r : elector) : elector :=
  MkElector v (electing_me r) (acked_me r) (leader_acked r) (expire_event r) (election_epoch r).
Definition set_electing_me (v : bool) (r : elector) : elector :=
  MkElector (participating r) v (acked_me r) (leader_acked r) (expire_event r) (election_epoch r).
Definition set_acked_me (v : gmap Z elector_info_t) (r : elector) : elector :=
  MkElector (participating r) (electing_me r) v (leader_acked r) (expire_event r) (election_epoch r).
Definition set_leader_acked (v : Z) (r : elector) : elector :=
  MkElector (participating r) (electing_me r) (acked_me r) v (expire_event r) (election_epoch r).
Definition set_expire_event (v : bool) (r : elector) : elector :=
  MkElector (participating r) (electing_me r) (acked_me r) (leader_acked r) v (election_epoch r).
Definition set_election_epoch (v : Z) (r : elector) : elector :=
  MkElector (participating r) (electing_me r) (acked_me r) (leader_acked r) (expire_event r) v.

(** What the binary supports, what the cluster requires of it, and the
    features of the connection a message came by. *)
Record env := MkEnv {
  features_all : Z;
  supported_mon_features : Z;
  ceph_release : Z;
  required_features : Z;
  required_mon_features : Z;
  min_mon_release : Z;
  con_features : Z;
}.

(** [mon_feature_t::contains_all] *)
Definition contains_all (f o : Z) : bool := Z.land f o =? o.

(** The elector the process starts with. *)
Definition new_elector (stored : Z) : elector := MkElector true false ∅ (-1) false stored.

Section elector.
Context {Op Svc : Type} (run_op : Op -> Svc -> Svc) (cfg : config).
Notation node := (@node Op Svc).

(** A monitor: Paxos, the elector, and the election messages it sends. *)
Record mon := Mon {
  nd : node;
  el : elector;
  e_out : list epacket;
}.

Definition on_nd (f : node -> node) (m : mon) : mon := Mon (f (nd m)) (el m) (e_out m).
Definition on_el (f : elector -> elector) (m : mon) : mon := Mon (nd m) (f (el m)) (e_out m).

(** [Elector::epoch], the rank and the size of the monmap. *)
Definition epoch_ (m : mon) : Z := m_epoch (n_mon (nd m)).
Definition rank_ (m : mon) : Z := rank (nd m).
Definition size_ (m : mon) : Z := m_size (n_mon (nd m)).

Definition set_epoch_ (e : Z) (m : mon) : mon := on_nd (fun n => set_n_mon (set_m_epoch e (n_mon n)) n) m.

Definition send_election (to : Z) (ms : MMonElection) (m : mon) : mon :=
  Mon (nd m) (el m) (e_out m ++ [EPacket (rank_ m) to ms]).

(** Time, the answers of [refresh_from_paxos] to the writes that are flushed,
    and what else a handler depends on. *)
Context (now : Z) (answers : list bool) (v : env).

(** [Monitor::bootstrap] *)
Definition bootstrap_ (m : mon) : res mon :=
  n <~ bootstrap run_op cfg now answers (nd m);;
  Ret (Mon n (el m) (e_out m)).

(** [Monitor::join_election] *)
Definition join_election (m : mon) : res mon :=
  n <~ leave_quorum run_op Electing cfg now answers (nd m);;
  Ret (Mon n (el m) (e_out m)).

(** [init]; the model stops where an epoch would wrap. *)
Definition init_epoch (m : mon) : res mon :=
  let stored := election_epoch (el m) in
  if stored =? 0 then Ret (set_epoch_ 1 m)
  else if Z.odd stored then
    _ <~ rassert (stored + 1 <? 2 ^ 32);;
    Ret (on_el (set_election_epoch (stored + 1)) (set_epoch_ (stored + 1) m))
  else Ret (set_epoch_ stored m).

Definition bump_epoch (e : Z) (m : mon) : res mon :=
  _ <~ rassert (e <? 2 ^ 32);;
  _ <~ rassert (epoch_ m <=? e);;
  m <~ join_election (on_el (set_election_epoch e) (set_epoch_ e m));;
  Ret (on_el (fun x => set_acked_me ∅ (set_electing_me false x)) m).

Definition reset_timer : mon -> mon := on_el (set_expire_event true).
Definition cancel_timer : mon -> mon := on_el (set_expire_event false).

Definition start_ (m : mon) : res mon :=
  if negb (participating (el m)) then Ret m else
  m <~ init_epoch (on_el (set_acked_me ∅) m);;
  m <~ (if Z.even (epoch_ m) then bump_epoch (epoch_ m + 1) m else Ret m);;
  let info := ElectorInfo (features_all v) (supported_mon_features v) (ceph_release v) in
  let m := on_el (fun x => set_leader_acked (-1) (set_acked_me (<[rank_ m := info]> (acked_me x)) (set_electing_me true x))) m in
  let ms := MkMMonElection OP_PROPOSE (epoch_ m) ∅ 0 (supported_mon_features v) (ceph_release v) in
  let m := foldl (fun m i => if i =? rank_ m then m else send_election i ms m) m (seqZ 0 (size_ m)) in
  Ret (reset_timer m).

(** [Monitor::start_election] *)
Definition start_election (m : mon) : res mon :=
  m <~ join_election m;;
  start_ m.

Definition defer (who : Z) (m : mon) : mon :=
  let m := if electing_me (el m) then on_el (fun x => set_electing_me false (set_acked_me ∅ x)) m else m in
  let m := on_el (set_leader_acked who) m in
  let ms := MkMMonElection OP_ACK (epoch_ m) ∅ 0 (supported_mon_features v) (ceph_release v) in
  reset_timer (send_election who ms m).

(** The least release, [-1] if there is none. *)
Definition least_release (l : list (Z * elector_info_t)) : Z :=
  foldl (fun r p => if (r <? 0) || (mon_release p.2 <? r) then mon_release p.2 else r) (-1) l.

Definition victory (m : mon) : res mon :=
  let m := on_el (fun x => set_electing_me false (set_leader_acked (-1) x)) m in
  let acked := map_to_list (acked_me (el m)) in
  let quorum := dom (acked_me (el m)) in
  let features := foldl (fun f p => Z.land f (cluster_features p.2)) (features_all v) acked in
  let mon_feat := foldl (fun f p => Z.land f (mon_features p.2)) (supported_mon_features v) acked in
  let m := cancel_timer m in
  _ <~ rassert (Z.odd (epoch_ m));;
  m <~ bump_epoch (epoch_ m + 1) m;;
  let ms := MkMMonElection OP_VICTORY (epoch_ m) quorum features mon_feat (least_release acked) in
  let m := foldl (fun m p => if p =? rank_ m then m else send_election p ms m) m (merge_sort Z.le (elements quorum)) in
  n <~ win_election (epoch_ m) quorum (nd m);;
  Ret (Mon n (el m) (e_out m)).

(** [joined] is [has_ever_joined]. *)
Definition expire (joined : bool) (m : mon) : res mon :=
  if electing_me (el m) && (size_ m / 2 <? Z.of_nat (size (acked_me (el m)))) then victory m
  else if joined then start_ m else bootstrap_ m.

Definition nak_old_peer (ms : MMonElection) (from : Z) (m : mon) : mon :=
  send_election from (MkMMonElection OP_NAK (el_epoch ms) ∅ (required_features v) (required_mon_features v) (min_mon_release v)) m.

(** The end of [handle_propose]. *)
Definition consider (from : Z) (m : mon) : res mon :=
  if rank_ m <? from then
    if 0 <=? leader_acked (el m) then
      _ <~ rassert (leader_acked (el m) <? from);;
      Ret m
    else if electing_me (el m) then Ret m else start_election m
  else if (leader_acked (el m) <? 0) || (from <? leader_acked (el m)) || (leader_acked (el m) =? from) then Ret (defer from m)
  else Ret m.

Definition lacks_features (v : env) : bool :=
  negb (Z.land (Z.lxor (required_features v) (con_features v)) (required_features v) =? 0).

Definition handle_propose (ms : MMonElection) (from : Z) (m : mon) : res mon :=
  _ <~ rassert (Z.odd (el_epoch ms));;
  if lacks_features v then Ret (nak_old_peer ms from m)
  else if msg_mon_release ms <? min_mon_release v then Ret (nak_old_peer ms from m)
  else if negb (contains_all (msg_mon_features ms) (required_mon_features v)) then consider from (nak_old_peer ms from m)
  else if epoch_ m <? el_epoch ms then m <~ bump_epoch (el_epoch ms) m;; consider from m
  else if el_epoch ms <? epoch_ m then
    if Z.even (epoch_ m) && bool_decide (from ∉ m_quorum (n_mon (nd m))) then start_election m else Ret m
  else consider from m.

Definition handle_ack (ms : MMonElection) (from : Z) (m : mon) : res mon :=
  _ <~ rassert (Z.odd (el_epoch ms));;
  if epoch_ m <? el_epoch ms then m <~ bump_epoch (el_epoch ms) m;; start_ m else
  _ <~ rassert (el_epoch ms =? epoch_ m);;
  if lacks_features v then Ret m
  else if negb (contains_all (msg_mon_features ms) (required_mon_features v)) then Ret m
  else if electing_me (el m) then
    let info := ElectorInfo (con_features v) (msg_mon_features ms) (msg_mon_release ms) in
    let m := on_el (fun x => set_acked_me (<[from := info]> (acked_me x)) x) m in
    if Z.of_nat (size (acked_me (el m))) =? size_ m then victory m else Ret m
  else
    _ <~ rassert (0 <=? leader_acked (el m));;
    Ret m.

Definition handle_victory (ms : MMonElection) (from : Z) (m : mon) : res mon :=
  _ <~ rassert (from <? rank_ m);;
  _ <~ rassert (Z.even (el_epoch ms));;
  let m := on_el (set_leader_acked (-1)) m in
  if negb (el_epoch ms =? epoch_ m + 1) then m <~ bump_epoch (el_epoch ms) m;; start_ m else
  m <~ bump_epoch (el_epoch ms) m;;
  let m := on_nd (lose_election (epoch_ m) (el_quorum ms) from) m in
  Ret (cancel_timer m).

(** [handle_nak] logs and calls [exit]. *)
Definition handle_nak (ms : MMonElection) (from : Z) (m : mon) : res mon := Fault.

Definition elector_dispatch (ms : MMonElection) (from : Z) (m : mon) : res mon :=
  if negb (participating (el m)) then Ret m
  else if size_ m <=? from then Ret m
  else match el_op ms with
  | OP_PROPOSE => handle_propose ms from m
  | _ =>
      if el_epoch ms <? epoch_ m then Ret m
      else match el_op ms with
      | OP_ACK => handle_ack ms from m
      | OP_VICTORY => handle_victory ms from m
      | OP_NAK => handle_nak ms from m
      | OP_PROPOSE => Fault
      end
  end.

(** The filter of [Monitor::dispatch_op]: a monitor that probes drops election
    messages. *)
Definition receive_election (ms : MMonElection) (from : Z) (m : mon) : res mon :=
  if bool_decide (m_role (n_mon (nd m)) = Probing) then Ret m else elector_dispatch ms from m.

(** The command "quorum enter" and "quorum exit". *)
Definition quorum_enter (m : mon) : res mon := start_election (on_el (set_participating true) m).
Definition quorum_exit (m : mon) : res mon := m <~ start_election m;; Ret (on_el (set_participating false) m).
End elector.
