(* ===== verification/Monitors.v ===== *)
(** * The monitors of a cluster, with elections

    Each monitor runs Paxos (PaxosNet.v) and an elector (Elector.v).  Election
    messages may be lost and reordered.  Messages do not outlive the process at
    either end: a monitor that restarts, with what its store holds, finds none
    of those to it, and none of its own arrives later.  [may_restart] says
    which monitors may do so. *)

From stdpp Require Import gmap.
From S2P Require Import Prelude Paxos PaxosNet Elector.
Open Scope Z_scope.

Section monitors.
Context {Op Svc : Type} (run_op : Op -> Svc -> Svc) (cfg : config).
Notation node := (@node Op Svc).
Notation cluster := (@cluster Op Svc).
Context (may_restart : node -> bool).

Record system := System {
  px : cluster;
  els : gmap Z elector;
  enet : list epacket;
}.

Inductive mevent :=
  | Paxos (ev : @event Op)
  | Receive (i : nat) (v : env) (now : Z) (answers : list bool)
  | Drop (i : nat)
  | Expire (r : Z) (joined : bool) (v : env) (now : Z) (answers : list bool)
  | StartElection (r : Z) (v : env) (now : Z) (answers : list bool)
  | QuorumEnter (r : Z) (v : env) (now : Z) (answers : list bool)
  | QuorumExit (r : Z) (v : env) (now : Z) (answers : list bool)
  | Boot (r : Z).

(** A monitor runs [f]; what it sends goes to the networks. *)
Definition at_mon (r : Z) (f : mon -> res (@mon Op Svc)) (s : system) : option system :=
  match nodes (px s) !! r, els s !! r with
  | Some n, Some x =>
      match f (Mon n x []) with
      | Ret m =>
          Some (System (Cluster (<[r := set_n_out [] (nd m)]> (nodes (px s))) (net (px s) ++ n_out (nd m))
                         (sent (px s) ++ n_out (nd m)))
                  (<[r := el m]> (els s)) (enet s ++ e_out m))
      | _ => None
      end
  | _, _ => None
  end.

(** The connections of [r] are gone. *)
Definition disconnect (r : Z) (s : system) : system :=
  System (Cluster (nodes (px s)) (filter (fun p => src p <> r /\ dst p <> r) (net (px s))) (sent (px s)))
    (els s) (filter (fun p => e_src p <> r /\ e_dst p <> r) (enet s)).

Definition boot (m : @mon Op Svc) : res mon :=
  if may_restart (nd m) then
    n <~ init (nd m);;
    Ret (Mon n (new_elector (election_epoch (el m))) [])
  else Fault.

Definition mexec (ev : mevent) (s : system) : option system :=
  match ev with
  | Paxos ev => match exec run_op cfg ev (px s) with Some c => Some (System c (els s) (enet s)) | None => None end
  | Receive i v now nb =>
      match enet s !! i with
      | Some p =>
          at_mon (e_dst p) (receive_election run_op cfg now nb v (e_msg p) (e_src p)) (System (px s) (els s) (delete i (enet s)))
      | None => None
      end
  | Drop i => Some (System (px s) (els s) (delete i (enet s)))
  | Expire r joined v now nb =>
      at_mon r (fun m => if expire_event (el m) then expire run_op cfg now nb v joined (cancel_timer m) else Fault) s
  | StartElection r v now nb => at_mon r (start_election run_op cfg now nb v) s
  | QuorumEnter r v now nb => at_mon r (quorum_enter run_op cfg now nb v) s
  | QuorumExit r v now nb => at_mon r (quorum_exit run_op cfg now nb v) s
  | Boot r => at_mon r boot (disconnect r s)
  end.

Fixpoint mrun (l : list mevent) (s : system) : option system :=
  match l with
  | [] => Some s
  | ev :: l => match mexec ev s with Some s => mrun l s | None => None end
  end.

(** [size] monitors with empty stores. *)
Definition mstart (size : Z) (s : Svc) : system :=
  System (start size s) (list_to_map ((fun r => (r, new_elector 0)) <$> seqZ 0 size)) [].

(** The states that can follow [s]. *)
Inductive msteps (s : system) : system -> Prop :=
  | msteps_refl : msteps s s
  | msteps_step ev s1 s2 : msteps s s1 -> mexec ev s1 = Some s2 -> msteps s s2.

Lemma mrun_msteps l s0 s s' : msteps s0 s -> mrun l s = Some s' -> msteps s0 s'.
Proof.
  revert s. induction l as [|ev l IH]; intros s Hs; cbn [mrun]; [by intros [= <-]|].
  destruct (mexec ev s) eqn:E; [|done]. apply IH. by eapply msteps_step.
Qed.

(** Two runs, one after the other. *)
Lemma mrun_app l l' s s' : mrun l s = Some s' -> mrun (l ++ l') s = mrun l' s'.
Proof. revert s. induction l as [|ev l IH]; intros s; cbn; [by intros [= <-]|]. destruct (mexec ev s); [|done]. apply IH. Qed.
End monitors.

(** A monitor that has no promise which its store does not hold. *)
Definition promise_kept {Op Svc} (n : @node Op Svc) : bool := accepted_pn (n_px n) =? d_accepted_pn (n_store n).
