(* ===== verification/MonitorsSafety.v ===== *)
(** * Elections keep the invariant

    A quorum that an elector declares is a majority, includes the winner, and
    its epoch is one the winner has not been in since it started, which is all
    Paxos relies on: with elections and restarts the invariant of PaxosInv.v
    holds in every reachable state ([msteps_inv]). *)

From stdpp Require Import gmap sorting.
From S2P Require Import Prelude Paxos PaxosVote PaxosNet PaxosInv PaxosFrame PaxosStore PaxosSteps PaxosPropose PaxosLeader PaxosPeon PaxosEpoch PaxosSafety Elector Monitors.
Open Scope Z_scope.

Section safety.
Context {Op Svc : Type} (run_op : Op -> Svc -> Svc) (cfg : config) (N : Z) (s0 : Svc).
Context (HN : 2 <= N <= 100) (Hcfg : 0 <= paxos_min cfg).
Notation node := (@node Op Svc).
Notation packet := (@packet Op).
Notation mon := (@mon Op Svc).
Notation system := (@system Op Svc).
Notation Inv := (@Inv Op Svc run_op N s0).

(** The epoch of a monitor is the one in its store, unless it has just
    started. *)
Record elector_ok (n : node) (x : elector) : Prop := ElectorOk {
  ek_range a : a ∈ dom (acked_me x) -> 0 <= a < N;
  ek_nonneg : 0 <= ep_of n /\ 0 <= election_epoch x;
  ek_epoch : ep_of n = election_epoch x \/ ep_of n = 0 \/ (election_epoch x = 0 /\ ep_of n = 1);
}.

(** A candidate has its own vote. *)
Definition candidate_ok (r : Z) (x : elector) : Prop := electing_me x = true -> r ∈ dom (acked_me x).

Section step.
Context (m0 : gmap Z node) (ν0 σ0 : list packet) (r : Z) (now : Z) (nb : list bool) (v : env).
Notation W := (W run_op N s0 m0 ν0 σ0 r).
Notation net_ := (net_ (Svc := Svc) ν0).

Record MW (m : mon) : Prop := MkMW {
  mw_W : W (nd m);
  mw_elector : elector_ok (nd m) (el m);
  mw_out p : p ∈ e_out m -> e_src p = r;
}.

Lemma mw_rank m : MW m -> rank_ m = r /\ size_ m = N /\ 0 <= r < N.
Proof. intros [Hw _ _]. destruct (W_rank _ _ _ _ _ _ _ _ Hw) as (? & ? & ?). done. Qed.

(** Changes of the elector. *)
Lemma mw_el f m : MW m -> elector_ok (nd m) (f (el m)) -> MW (on_el f m).
Proof. intros [? ? ?] ?. by split. Qed.

Lemma mw_send to ms m : MW m -> MW (send_election to ms m).
Proof.
  intros Hm. destruct (mw_rank m Hm) as (Hr & _). destruct Hm as [? ? Ho]. split; [done|done|].
  cbn. intros p [Hp| ->%list_elem_of_singleton]%elem_of_app; [by apply Ho|done].
Qed.

Lemma send_nd to ms (m : mon) : nd (send_election to ms m) = nd m /\ el (send_election to ms m) = el m.
Proof. done. Qed.

Lemma mw_sends ms l m :
  MW m -> let m' := foldl (fun m i => if i =? rank_ m then m else send_election i ms m) m l in
  MW m' /\ nd m' = nd m /\ el m' = el m.
Proof.
  revert m. induction l as [|i l IH]; intros m Hm; cbn; [done|].
  destruct (i =? rank_ m); [by apply IH|]. destruct (IH _ (mw_send i ms m Hm)) as (H1 & H2 & H3). done.
Qed.

Lemma leave_MW st m n' :
  in_quorum st = false -> MW m -> leave_quorum run_op st cfg now nb (nd m) = Ret n' -> MW (Mon n' (el m) (e_out m)).
Proof using HN Hcfg.
  intros Hst [Hw [] Ho] H. pose proof (leave_quorum_left _ _ _ _ _ _ _ H) as [Hm _].
  assert (ep_of n' = ep_of (nd m)) as Hep by (unfold ep_of; by rewrite Hm).
  split; cbn; [by eapply leave_quorum_ok; [..|exact H]| |done]. split; rewrite ?Hep; done.
Qed.

Lemma bootstrap_MC m m' : MW m /\ candidate_ok r (el m) -> bootstrap_ run_op cfg now nb m = Ret m' -> MW m' /\ candidate_ok r (el m').
Proof using HN Hcfg. intros [Hm Hc] H. unfold bootstrap_ in H. rinv H. injection H as <-. split; [by eapply (leave_MW Probing)|done]. Qed.

Lemma join_MC m m' : MW m /\ candidate_ok r (el m) -> join_election run_op cfg now nb m = Ret m' -> MW m' /\ candidate_ok r (el m').
Proof using HN Hcfg. intros [Hm Hc] H. unfold join_election in H. rinv H. injection H as <-. split; [by eapply (leave_MW Electing)|done]. Qed.

Lemma init_epoch_MW m m' : MW m -> init_epoch m = Ret m' -> MW m' /\ acked_me (el m') = acked_me (el m).
Proof using HN Hcfg.
  intros [Hw [Hra [H0 H1] Hep] Ho] H. unfold init_epoch in H. unfold ep_of in *.
  assert (exists e s, m' = on_el (set_election_epoch s) (set_epoch_ e m) /\ m_epoch (n_mon (nd m)) <= e /\ 0 <= s /\
    (e = s \/ (s = 0 /\ e = 1))) as (e & s & -> & Hle & Hs & Hes).
  { destruct (Z.eqb_spec (election_epoch (el m)) 0) as [Hz|Hz].
    - injection H as <-. exists 1, 0. split_and!; [|lia|lia|by right]. destruct m as [? [] ?]. cbn in *. by subst.
    - destruct (Z.odd (election_epoch (el m))).
      + rinv H. injection H as <-. eexists _, _. split_and!; [done|lia|lia|by left].
      + injection H as <-. exists (election_epoch (el m)), (election_epoch (el m)). split_and!; [by destruct m as [? [] ?]|lia|lia|by left]. }
  split; [|done]. split; cbn; [by apply set_epoch_ok| |done]. split; unfold ep_of; cbn; [done|lia|lia].
Qed.

Lemma bump_MW e m m' :
  MW m -> bump_epoch run_op cfg now nb e m = Ret m' ->
  MW m' /\ candidate_ok r (el m') /\ m_role (n_mon (nd m')) = Electing /\ epoch_ m' = e /\
  (forall a pk, pk ∈ net_ (nd m') -> coll_to r a pk \/ last_to r a pk -> epoch (msg pk) <= epoch_ m).
Proof using HN Hcfg.
  intros [Hw [Hra [H0 H1] Hep] Ho] H. unfold bump_epoch in H. do 2 rinv H. unfold rassert in E0.
  destruct (Z.leb_spec (epoch_ m) e) as [Hle|]; [|done]. rinv H. injection H as <-. unfold join_election in E1. rinv E1. injection E1 as <-.
  unfold epoch_ in *. destruct (join_ok run_op cfg N s0 HN Hcfg m0 ν0 σ0 r e now nb (nd m) a2 Hw Hle E2) as (Hw' & Hro & Hep' & Hold).
  split_and!; try done. split; cbn; [done| |done]. unfold ep_of in *. split; unfold ep_of; cbn; [|lia|by left].
  intros b Hb. rewrite dom_empty_L in Hb. by apply not_elem_of_empty in Hb.
Qed.

(** What a handler keeps. *)
Definition MC (m : mon) : Prop := MW m /\ candidate_ok r (el m).

Lemma clear_MW m : MW m -> MW (on_el (set_acked_me ∅) m).
Proof.
  intros Hm. apply mw_el; [done|]. destruct Hm as [_ [Hra ? ?] _]. split; cbn; [|done|done].
  intros b Hb. rewrite dom_empty_L in Hb. by apply not_elem_of_empty in Hb.
Qed.

Lemma ack_MW a info m : MW m -> 0 <= a < N -> MW (on_el (fun x => set_acked_me (<[a := info]> (acked_me x)) x) m).
Proof.
  intros Hm Ha. apply mw_el; [done|]. destruct Hm as [_ [Hra ? ?] _]. split; cbn; [|done|done].
  intros b. rewrite dom_insert_L. intros [->%elem_of_singleton|?]%elem_of_union; [done|by apply Hra].
Qed.

Lemma start_MC m m' : MC m -> start_ run_op cfg now nb v m = Ret m' -> MC m'.
Proof using HN Hcfg.
  intros [Hm Hc] H. unfold start_ in H. destruct (participating (el m)); cbn [negb] in H; [|by injection H as <-].
  rinv H. apply init_epoch_MW in E as [Hm1 _]; [|by apply clear_MW]. rinv H. injection H as <-. rename a0 into m2.
  assert (MW m2) as Hm2 by (destruct (Z.even (epoch_ a)); [by destruct (bump_MW _ _ _ Hm1 E) as [? _]|by injection E as <-]). clear E Hm1 a.
  destruct (mw_rank m2 Hm2) as (Hr & _ & HrN).
  set (m3 := on_el _ m2). assert (MC m3) as [Hm3 Hc3].
  { split; [|intros _; cbn; rewrite dom_insert_L, Hr; apply elem_of_union_l, elem_of_singleton; done].
    pose proof (ack_MW r (ElectorInfo (features_all v) (supported_mon_features v) (ceph_release v)) m2 Hm2 HrN) as [? [] ?].
    unfold m3. rewrite Hr. by split. }
  destruct (mw_sends (MkMMonElection OP_PROPOSE (epoch_ m3) ∅ 0 (supported_mon_features v) (ceph_release v)) (seqZ 0 (size_ m3)) m3 Hm3) as ([Hw' He' Ho'] & Hn & Hx).
  split; [split; [done|destruct He'; by split|done]|]. unfold candidate_ok. cbn. rewrite Hx. exact Hc3.
Qed.

Lemma start_election_MC m m' : MC m -> start_election run_op cfg now nb v m = Ret m' -> MC m'.
Proof using HN Hcfg.
  intros Hm H. unfold start_election in H. rinv H. eapply start_MC; [|exact H]. by eapply join_MC.
Qed.

Lemma defer_MC who m : MC m -> MC (defer v who m).
Proof.
  intros [Hm Hc]. unfold defer. set (m1 := if electing_me (el m) then _ else m). assert (MC m1) as [[Hw1 [] Ho1] Hc1].
  { unfold m1. destruct (electing_me (el m)) eqn:He; [|by split]. split; [|done]. by destruct (clear_MW m Hm) as [? [] ?]. }
  clearbody m1. set (m2 := on_el (set_leader_acked who) m1). assert (MW m2) as Hm2 by (split; [done|by split|done]).
  destruct (mw_send who (MkMMonElection OP_ACK (epoch_ m2) ∅ 0 (supported_mon_features v) (ceph_release v)) m2 Hm2) as [? [] ?].
  split; [split; [done|by split|done]|done].
Qed.

(** A quorum that is declared is a majority. *)
Lemma victory_MC m m' :
  MC m -> electing_me (el m) = true -> N < 2 * Z.of_nat (size (acked_me (el m))) -> victory run_op cfg now nb v m = Ret m' -> MC m'.
Proof using HN Hcfg.
  intros [Hm Hc] He Hsz H. unfold victory in H. set (m1 := cancel_timer _) in H.
  assert (MW m1) as Hm1 by (destruct Hm as [? [] ?]; split; [done|by split|done]).
  assert (epoch_ m1 = epoch_ m) as Hep1 by done. change (acked_me (el (on_el _ m))) with (acked_me (el m)) in H. clearbody m1.
  set (q := dom (acked_me (el m))) in *. rinv H. rinv H. destruct (bump_MW _ _ _ Hm1 E0) as (Hm2 & Hc2 & Hro & Hep2 & Hold). clear E0.
  set (ms := MkMMonElection OP_VICTORY _ _ _ _ _) in H. destruct (mw_sends ms (merge_sort Z.le (elements q)) a0 Hm2) as ([Hw3 He3 Ho3] & Hn3 & Hx3).
  set (m3 := foldl _ a0 _) in *. clearbody m3. rinv H. injection H as <-. rewrite Hn3 in *.
  assert (majority N q) as Hmaj.
  { destruct Hm as [_ [Hra _ _] _]. split; [by apply Hra|]. unfold q. rewrite size_dom. lia. }
  assert (W a1) as Hw.
  { eapply (win_ok run_op N s0 HN m0 ν0 σ0 r _ q (nd a0)); [exact (mw_W _ Hm2)|by apply Hc|done|done| | |exact E0].
    - unfold ep_of, epoch_. by rewrite Hn3.
    - intros b pk Hpk Hk. specialize (Hold b pk Hpk Hk). unfold epoch_ in *. rewrite Hn3. lia. }
  split; [|by unfold candidate_ok; cbn; rewrite Hx3]. split; cbn; [done| |done].
  assert (ep_of a1 = ep_of (nd a0)) as Hee.
  { assert (1 < Z.of_nat (size q)) as Hq by (destruct Hmaj; lia).
    destruct (win_spec _ _ _ _ Hq E0) as (nx & E1 & _ & _ & Hee & _). clear E0. rename E1 into E0. apply collect_mon in E0. unfold ep_of in *.
    rewrite E0, Hee. unfold epoch_. by rewrite Hn3. }
  destruct He3. rewrite Hx3 in *. by split; rewrite ?Hee.
Qed.

Lemma expire_MC joined m m' : MC m -> expire run_op cfg now nb v joined m = Ret m' -> MC m'.
Proof using HN Hcfg.
  intros Hm H. unfold expire in H. destruct (electing_me (el m)) eqn:He; cbn [andb] in H.
  - destruct (Z.ltb_spec (size_ m / 2) (Z.of_nat (size (acked_me (el m))))).
    + eapply victory_MC; [done|done| |done]. destruct (mw_rank m (proj1 Hm)) as (_ & Hs & _). rewrite <- Hs. pose proof (Z.mul_succ_div_gt (size_ m) 2). lia.
    + destruct joined; [by eapply start_MC|by eapply bootstrap_MC].
  - destruct joined; [by eapply start_MC|by eapply bootstrap_MC].
Qed.

Lemma consider_MC from m m' : MC m -> consider run_op cfg now nb v from m = Ret m' -> MC m'.
Proof using HN Hcfg.
  intros Hm H. unfold consider in H. destruct (rank_ m <? from).
  - destruct (0 <=? _); [rinv H; by injection H as <-|]. destruct (electing_me _); [by injection H as <-|by eapply start_election_MC].
  - destruct (_ || _ || _); injection H as <-; [by apply defer_MC|done].
Qed.

Lemma nak_MC ms from m : MC m -> MC (nak_old_peer v ms from m).
Proof. intros [Hm Hc]. split; [by apply mw_send|done]. Qed.

Lemma bump_MC e m m' : MC m -> bump_epoch run_op cfg now nb e m = Ret m' -> MC m'.
Proof using HN Hcfg. intros [Hm _] H. by destruct (bump_MW _ _ _ Hm H) as (? & ? & _). Qed.

Lemma handle_propose_MC ms from m m' : MC m -> handle_propose run_op cfg now nb v ms from m = Ret m' -> MC m'.
Proof using HN Hcfg.
  intros Hm H. unfold handle_propose in H. rinv H.
  destruct (lacks_features v); [injection H as <-; by apply nak_MC|]. destruct (_ <? min_mon_release v); [injection H as <-; by apply nak_MC|].
  destruct (negb (contains_all _ _)); [eapply consider_MC; [|exact H]; by apply nak_MC|].
  destruct (epoch_ m <? _); [rinv H; apply bump_MC in E0; [by eapply consider_MC|done]|].
  destruct (_ <? epoch_ m); [|by eapply consider_MC]. destruct (_ && _); [by eapply start_election_MC|by injection H as <-].
Qed.

Lemma handle_ack_MC ms from m m' : MC m -> 0 <= from < N -> handle_ack run_op cfg now nb v ms from m = Ret m' -> MC m'.
Proof using HN Hcfg.
  intros Hm Hf H. unfold handle_ack in H. rinv H.
  destruct (epoch_ m <? _); [rinv H; apply bump_MC in E0; [by eapply start_MC|done]|]. rinv H.
  destruct (lacks_features v); [by injection H as <-|]. destruct (negb (contains_all _ _)); [by injection H as <-|].
  destruct (electing_me (el m)) eqn:He; [|rinv H; by injection H as <-].
  set (m1 := on_el _ m) in H. assert (MC m1) as Hm1.
  { destruct Hm as [Hm Hc]. split; [by apply ack_MW|]. intros _. cbn. rewrite dom_insert_L. apply elem_of_union_r. by apply Hc. }
  destruct (Z.eqb_spec (Z.of_nat (size (acked_me (el m1)))) (size_ m1)) as [Hs|]; [|by injection H as <-].
  eapply victory_MC; [done|done| |done]. rewrite Hs. destruct (mw_rank m1 (proj1 Hm1)) as (_ & -> & _). lia.
Qed.

Lemma handle_victory_MC ms from m m' : MC m -> handle_victory run_op cfg now nb v ms from m = Ret m' -> MC m'.
Proof using HN Hcfg.
  intros Hm H. unfold handle_victory in H. rinv H. rinv H. set (m1 := on_el _ m) in H.
  assert (MC m1) as Hm1. { destruct Hm as [Hm Hc]. split; [|done]. apply mw_el; [done|]. by destruct Hm as [_ [] _]. }
  destruct (negb _); [rinv H; apply bump_MC in E1; [eapply start_MC; [exact E1|exact H]|done]|]. rinv H. injection H as <-.
  destruct (bump_MW _ _ _ (proj1 Hm1) E1) as (Hm2 & Hc2 & Hro & _ & _). unfold rassert in E. destruct (Z.ltb_spec from (rank_ m)) as [Hlt|]; [|done].
  destruct (mw_rank m (proj1 Hm)) as (Hr & _). split; [|done]. destruct Hm2 as [Hw2 [] Ho2]. split; cbn; [|by split|done].
  apply defer_ok; [done|lia|done|]. unfold ep_of, epoch_. done.
Qed.

Lemma elector_dispatch_MC ms from m m' : MC m -> 0 <= from < N -> elector_dispatch run_op cfg now nb v ms from m = Ret m' -> MC m'.
Proof using HN Hcfg.
  intros Hm Hf H. unfold elector_dispatch in H. destruct (negb _); [by injection H as <-|]. destruct (_ <=? from); [by injection H as <-|].
  destruct (el_op ms); [by eapply handle_propose_MC|..]; (destruct (_ <? epoch_ m); [by injection H as <-|]).
  - by eapply handle_ack_MC.
  - done.
  - by eapply handle_victory_MC.
Qed.

Lemma receive_election_MC ms from m m' : MC m -> 0 <= from < N -> receive_election run_op cfg now nb v ms from m = Ret m' -> MC m'.
Proof using HN Hcfg. intros Hm Hf H. unfold receive_election in H. case_bool_decide; [by injection H as <-|by eapply elector_dispatch_MC]. Qed.

Lemma participating_MC b m : MC m -> MC (on_el (set_participating b) m).
Proof. intros [Hm Hc]. split; [|done]. apply mw_el; [done|]. by destruct Hm as [_ [] _]. Qed.
End step.

(** ** The system *)

Record SInv (s : system) : Prop := MkSInv {
  si_px : Inv (px s);
  si_els r n : nodes (px s) !! r = Some n -> exists x, els s !! r = Some x /\ elector_ok n x /\ candidate_ok r x;
  si_net p : p ∈ enet s -> 0 <= e_src p < N;
}.

Lemma SInv_sub (s : system) ν : (forall p, p ∈ ν -> p ∈ enet s) -> SInv s -> SInv (System (px s) (els s) ν).
Proof. intros Hs [? ? Hn]. split; [done|done|]. intros p Hp. by apply Hn, Hs. Qed.

Lemma at_mon_inv r f s s' :
  SInv s -> at_mon r f s = Some s' ->
  (forall m m', MC (nodes (px s)) (net (px s)) (sent (px s)) r m -> f m = Ret m' -> MC (nodes (px s)) (net (px s)) (sent (px s)) r m') ->
  SInv s'.
Proof using HN Hcfg.
  intros [Hi He Hn] H Hf. unfold at_mon in H. destruct (nodes (px s) !! r) as [n|] eqn:Hr; [|done].
  destruct (He r n Hr) as (x & Hx & Hxo & Hxc). rewrite Hx in H. destruct (f _) as [m| |] eqn:Hfm; [|done..]. injection H as <-.
  assert (W run_op N s0 (nodes (px s)) (net (px s)) (sent (px s)) r n) as Hw.
  { destruct Hi as [Hi Ho]. unfold W, M, net_, sent_. rewrite (Ho r n Hr), !app_nil_r, insert_id by done. exact Hi. }
  assert (MC (nodes (px s)) (net (px s)) (sent (px s)) r m) as [[Hw' Hxo' Ho'] Hxc'].
  { eapply Hf; [|exact Hfm]. split; [|done]. split; [done|done|]. by intros ? []%not_elem_of_nil. }
  split; cbn.
  - by eapply step_inv.
  - intros a na. destruct (decide (a = r)) as [->|Hne].
    + rewrite !lookup_insert_eq. intros [= <-]. exists (el m). split_and!; [done| |done]. by destruct Hxo'.
    + rewrite !lookup_insert_ne by done. apply He.
  - intros p [Hp|Hp]%elem_of_app; [by apply Hn|]. rewrite (Ho' _ Hp). destruct (W_rank _ _ _ _ _ _ _ _ Hw') as (? & ? & ?). lia.
Qed.

(** ** Runs *)

Context (may_restart : node -> bool) (Hkept : forall n, may_restart n = true -> promise_kept n = true).
Notation mexec := (mexec run_op cfg may_restart).

Lemma boot_inv r s s' : SInv s -> mexec (Boot r) s = Some s' -> SInv s'.
Proof using HN Hcfg Hkept.
  intros [[Hi Ho] He Hn] H. cbn in H. unfold at_mon in H. cbn in H.
  destruct (nodes (px s) !! r) as [n|] eqn:Hr; [|done]. destruct (He r n Hr) as (x & Hx & Hxo & _). rewrite Hx in H.
  unfold boot in H. cbn [nd el] in H. destruct (may_restart n) eqn:Hm; [|done]. destruct (init n) as [n'| |] eqn:Hf; [|done..].
  cbn [rbind nd el e_out] in H. injection H as <-.
  assert (n_out n' = [] /\ ep_of n' = 0) as [Ho' Hep].
  { unfold init in Hf. rinv Hf. injection Hf as <-. cbn. split; [by apply (Ho r)|done]. }
  rewrite Ho', !app_nil_r. set (ν := filter _ (net (px s))). split; cbn.
  - eapply (restart_ok run_op N s0 r (Cluster (nodes (px s)) ν (sent (px s))) n n'); [|done| |done|].
    + split; [|done]. eapply inv_sub; [exact HN|apply sublist_filter|exact Hi].
    + apply Hkept in Hm. unfold promise_kept in Hm. lia.
    + intros pk [? _]%list_elem_of_filter. done.
  - intros a na. destruct (decide (a = r)) as [->|Hne].
    + rewrite !lookup_insert_eq. intros [= <-]. eexists. split_and!; [done| |done]. destruct Hxo as [_ [_ ?] _]. split; cbn; [|split|].
      * intros b Hb. rewrite dom_empty_L in Hb. by apply not_elem_of_empty in Hb.
      * change (0 <= ep_of n'). lia.
      * done.
      * by right; left.
    + rewrite !lookup_insert_ne by done. apply He.
  - intros p [_ Hp]%list_elem_of_filter. by apply Hn.
Qed.

Lemma paxos_inv ev s c : SInv s -> exec run_op cfg ev (px s) = Some c -> SInv (System c (els s) (enet s)).
Proof using HN Hcfg.
  intros [Hi He Hn] H. split; cbn; [by eapply exec_inv| |done].
  intros r n Hr. specialize (exec_keeps _ _ _ _ _ H r) as Hs. rewrite Hr in Hs. destruct (nodes (px s) !! r) as [n0|] eqn:Hr0; [|done].
  apply keeps_epoch in Hs.
  destruct (He r n0 Hr0) as (x & Hx & [Hra Hnn Hep] & Hxc). exists x. split_and!; [done| |done]. unfold ep_of in *. by split; unfold ep_of; rewrite ?Hs.
Qed.

Lemma mexec_inv ev s s' : SInv s -> mexec ev s = Some s' -> SInv s'.
Proof using HN Hcfg Hkept.
  intros HI H. destruct ev as [ev|i v now nb|i|r joined v now nb|r v now nb|r v now nb|r v now nb|r]; [..|by eapply boot_inv]; cbn in H.
  - destruct (exec run_op cfg ev (px s)) as [c|] eqn:He; [|done]. injection H as <-. by eapply paxos_inv.
  - destruct (enet s !! i) as [p|] eqn:Hp; [|done]. eapply at_mon_inv; [|exact H|].
    + apply SInv_sub; [|done]. intros q Hq. by eapply elem_of_sublist; [|apply sublist_delete].
    + intros m m' Hm Hf. eapply receive_election_MC; [exact Hm| |exact Hf]. apply (si_net s HI). by eapply list_elem_of_lookup_2.
  - injection H as <-. apply SInv_sub; [|done]. intros q Hq. by eapply elem_of_sublist; [|apply sublist_delete].
  - eapply at_mon_inv; [done|exact H|]. intros m m' Hm Hf. cbn beta in Hf. destruct (expire_event (el m)); [|done].
    eapply expire_MC; [|exact Hf]. destruct Hm as [[? [] ?] ?]. split; [|done]. by split.
  - eapply at_mon_inv; [done|exact H|]. intros m m' Hm Hf. by eapply start_election_MC.
  - eapply at_mon_inv; [done|exact H|]. intros m m' Hm Hf. eapply start_election_MC; [|exact Hf]. by apply participating_MC.
  - eapply at_mon_inv; [done|exact H|]. intros m m' Hm Hf. unfold quorum_exit in Hf. rinv Hf. injection Hf as <-.
    apply participating_MC. by eapply start_election_MC.
Qed.

Lemma mstart_inv : SInv (mstart N s0).
Proof using HN.
  split; [by apply start_inv| |by intros ? []%not_elem_of_nil]. intros r n [Hr ->]%start_nodes; [|done].
  exists (new_elector 0). split_and!.
  - cbn. apply elem_of_list_to_map_1.
    + rewrite <- list_fmap_compose. replace (fst ∘ _) with (@id Z) by done. rewrite list_fmap_id. apply NoDup_seqZ.
    + apply list_elem_of_fmap. exists r. split; [done|]. apply elem_of_seqZ. lia.
  - split; cbn; [|done|by left]. intros b Hb. rewrite dom_empty_L in Hb. by apply not_elem_of_empty in Hb.
  - done.
Qed.

Lemma msteps_inv s s' : SInv s -> msteps run_op cfg may_restart s s' -> SInv s'.
Proof using HN Hcfg Hkept. intros HI. induction 1; [done|]. by eapply mexec_inv. Qed.

(** What was sent stays sent. *)
Lemma mexec_sent ev s s' : mexec ev s = Some s' -> exists l, sent (px s') = sent (px s) ++ l.
Proof.
  assert (forall r f t, at_mon r f t = Some s' -> exists l, sent (px s') = sent (px t) ++ l) as Hat.
  { intros r f t. unfold at_mon. destruct (nodes (px t) !! r); [|done]. destruct (els t !! r); [|done]. destruct (f _); [|done..]. intros [= <-]. by eexists. }
  destruct ev; cbn; intros H; try (by eapply Hat in H).
  - destruct (exec run_op cfg ev (px s)) as [c|] eqn:He; [|done]. injection H as <-. by eapply exec_sent.
  - destruct (enet s !! i); [|done]. by eapply Hat in H.
  - injection H as <-. exists []. by rewrite app_nil_r.
Qed.

Lemma msteps_sent s s' : msteps run_op cfg may_restart s s' -> exists l, sent (px s') = sent (px s) ++ l.
Proof.
  induction 1 as [|ev s1 s2 _ [l IH] H]; [exists []; by rewrite app_nil_r|]. apply mexec_sent in H as [l' H].
  exists (l ++ l'). by rewrite H, IH, (assoc_L (++)).
Qed.
End safety.
