(* ===== verification/Elections.v ===== *)
(** * Elections, whatever Paxos does

    In every run, with restarts at any time: a candidate is in an odd epoch and
    has its own vote; a monitor in a quorum is in an even epoch, which is the
    one in its store; a leader has a majority that includes it; a peon follows
    a monitor of lower rank ([msteps_elect]). *)

From stdpp Require Import gmap sorting.
From S2P Require Import Prelude Paxos PaxosNet PaxosInv PaxosEpoch Elector Monitors.
Open Scope Z_scope.

(** The monitor and the elector of rank [r] among [N]. *)
Record elect_ok (N r : Z) (mo : monitor) (x : elector) : Prop := ElectOk {
  eo_rank : 0 <= r < N /\ m_rank mo = r /\ m_size mo = N;
  eo_nonneg : 0 <= m_epoch mo /\ 0 <= election_epoch x;
  eo_acked a : a ∈ dom (acked_me x) -> 0 <= a < N;
  eo_candidate : electing_me x = true -> Z.odd (m_epoch mo) = true /\ r ∈ dom (acked_me x);
  eo_stable : in_quorum (m_role mo) = true -> Z.even (m_epoch mo) = true /\ m_epoch mo = election_epoch x /\ 0 < m_epoch mo;
  eo_leader : m_role mo = Leader -> m_leader mo = r /\ r ∈ m_quorum mo /\ majority N (m_quorum mo);
  eo_peon : m_role mo = Peon -> m_leader mo < r;
}.

Section elections.
Context {Op Svc : Type} (run_op : Op -> Svc -> Svc) (cfg : config) (N : Z) (s0 : Svc).
Notation node := (@node Op Svc).
Notation mon := (@mon Op Svc).
Notation system := (@system Op Svc).

(** Leaving the quorum keeps the rest. *)
Lemma elect_ok_outside st r mo x : in_quorum st = false -> elect_ok N r mo x -> elect_ok N r (outside st mo) x.
Proof. intros Hst []. split; cbn; try done; [congruence|by intros ->..]. Qed.

Lemma elect_ok_keeps r (n n' : node) x : keeps n n' -> elect_ok N r (n_mon n) x -> elect_ok N r (n_mon n') x.
Proof. intros [->| ->]; [done|by apply elect_ok_outside]. Qed.

Section step.
Context (r now : Z) (nb : list bool) (v : env).

Definition EW (m : mon) : Prop := elect_ok N r (n_mon (nd m)) (el m) /\ forall p, p ∈ e_out m -> e_src p = r.

Lemma send_EW to ms m : EW m -> EW (send_election to ms m).
Proof.
  intros [Ho Hp]. split; [done|]. cbn. intros p [?| ->%list_elem_of_singleton]%elem_of_app; [by apply Hp|]. apply (eo_rank _ _ _ _ Ho).
Qed.

Lemma sends_EW ms l m :
  EW m -> let m' := foldl (fun m i => if i =? rank_ m then m else send_election i ms m) m l in EW m' /\ nd m' = nd m /\ el m' = el m.
Proof.
  revert m. induction l as [|i l IH]; intros m Hm; cbn; [done|].
  destruct (i =? rank_ m); [by apply IH|]. destruct (IH _ (send_EW i ms m Hm)) as (? & ? & ?). done.
Qed.

Lemma bootstrap_spec m m' :
  bootstrap_ run_op cfg now nb m = Ret m' -> n_mon (nd m') = outside Probing (n_mon (nd m)) /\ el m' = el m /\ e_out m' = e_out m.
Proof. intros H. unfold bootstrap_ in H. rinv H. injection H as <-. by apply bootstrap_left in E as [? _]. Qed.

Lemma join_spec m m' :
  join_election run_op cfg now nb m = Ret m' -> n_mon (nd m') = outside Electing (n_mon (nd m)) /\ el m' = el m /\ e_out m' = e_out m.
Proof. intros H. unfold join_election in H. rinv H. injection H as <-. by apply leave_quorum_left in E as [? _]. Qed.

Lemma bootstrap_EW m m' : EW m -> bootstrap_ run_op cfg now nb m = Ret m' -> EW m'.
Proof. intros [Ho Hp] (Hn & Hx & Hout)%bootstrap_spec. split; [|by rewrite Hout]. rewrite Hn, Hx. by apply elect_ok_outside. Qed.

Lemma join_EW m m' : EW m -> join_election run_op cfg now nb m = Ret m' -> EW m'.
Proof. intros [Ho Hp] (Hn & Hx & Hout)%join_spec. split; [|by rewrite Hout]. rewrite Hn, Hx. by apply elect_ok_outside. Qed.

(** The state after [bump_epoch]. *)
Definition bumped (e : Z) (m m' : mon) : Prop :=
  epoch_ m <= e /\ n_mon (nd m') = outside Electing (set_m_epoch e (n_mon (nd m))) /\
  el m' = set_acked_me ∅ (set_electing_me false (set_election_epoch e (el m))) /\ e_out m' = e_out m.

Lemma bump_spec e m m' : bump_epoch run_op cfg now nb e m = Ret m' -> bumped e m m'.
Proof.
  intros H. unfold bump_epoch in H. do 3 rinv H. injection H as <-. unfold rassert in E0. destruct (Z.leb_spec (epoch_ m) e); [|done].
  apply join_spec in E1 as (Hn & Hx & Hout). split_and!; [done|done|by cbn; rewrite Hx|done].
Qed.

(** A monitor that is in no quorum and no candidate. *)
Lemma fresh_ok mo x :
  0 <= r < N /\ m_rank mo = r /\ m_size mo = N -> 0 <= m_epoch mo -> 0 <= election_epoch x -> in_quorum (m_role mo) = false -> electing_me x = false ->
  (forall a, a ∈ dom (acked_me x) -> 0 <= a < N) -> elect_ok N r mo x.
Proof. intros ? ? ? Hq ? ?. split; try done; [congruence|congruence|by intros Hl; rewrite Hl in Hq..]. Qed.

Lemma bump_EW e m m' : EW m -> bump_epoch run_op cfg now nb e m = Ret m' -> EW m'.
Proof.
  intros [[Hr Hnn _ _ _ _ _] Hp] (Hle & Hn & Hx & Hout)%bump_spec. split; [|by rewrite Hout]. unfold epoch_ in Hle.
  rewrite Hn, Hx. apply fresh_ok; [done|cbn; lia|cbn; lia|done|done|]. cbn. by rewrite dom_empty_L.
Qed.

(** What [init] and the bump after it leave: an odd epoch, outside. *)
Lemma init_spec m m1 m2 :
  EW m -> init_epoch (on_el (set_acked_me ∅) m) = Ret m1 ->
  (if Z.even (epoch_ m1) then bump_epoch run_op cfg now nb (epoch_ m1 + 1) m1 else Ret m1) = Ret m2 ->
  Z.odd (epoch_ m2) = true /\ in_quorum (m_role (n_mon (nd m2))) = false /\ 0 <= epoch_ m2 /\ 0 <= election_epoch (el m2) /\
  (m_rank (n_mon (nd m2)) = r /\ m_size (n_mon (nd m2)) = N) /\ acked_me (el m2) = ∅ /\ e_out m2 = e_out m.
Proof.
  intros [[Hr Hnn _ _ Hst _ _] Hp] H1 H2. unfold init_epoch in H1. cbn [el on_el set_acked_me election_epoch] in H1.
  destruct (Z.eqb_spec (election_epoch (el m)) 0) as [Hz|Hz].
  - injection H1 as <-. cbn in H2. injection H2 as <-. cbn. split_and!; try done; try lia.
    destruct (in_quorum (m_role (n_mon (nd m)))); [|done]. specialize (Hst eq_refl). lia.
  - assert (exists e s, e_out m1 = e_out m /\ Z.even e = true /\ 0 <= e /\ n_mon (nd m1) = set_m_epoch e (n_mon (nd m)) /\
      el m1 = set_election_epoch s (set_acked_me ∅ (el m))) as (e & s & Ho1 & He & Hge & Hn1 & Hx1).
    { destruct (Z.odd (election_epoch (el m))) eqn:Hodd.
      - rinv H1. injection H1 as <-. eexists _, _. split_and!; [done| | |done|done]; [by rewrite Z.even_add, <- Z.negb_odd, Hodd|lia].
      - injection H1 as <-. exists (election_epoch (el m)), (election_epoch (el m)). rewrite <- Z.negb_odd, Hodd.
        split_and!; [done|done|lia|done|]. by destruct m as [? [] ?]. }
    assert (epoch_ m1 = e) as Hep by (unfold epoch_; by rewrite Hn1). rewrite Hep, He in H2.
    apply bump_spec in H2 as (_ & Hn & Hx & Hout). unfold epoch_. rewrite Hn, Hx, Hn1, Hout. cbn.
    split_and!; try done; try lia. by rewrite Z.odd_add, <- Z.negb_even, He.
Qed.

Lemma start_EW m m' : EW m -> start_ run_op cfg now nb v m = Ret m' -> EW m'.
Proof.
  intros Hm H. unfold start_ in H. destruct (participating (el m)); cbn [negb] in H; [|by injection H as <-].
  rinv H. rinv H. injection H as <-. destruct (init_spec _ _ _ Hm E E0) as (Hodd & Hro & He & Hs & (Hrk & Hsz) & Hac & Hout). clear E E0 a.
  rename a0 into m2. set (m3 := on_el _ m2). destruct Hm as [[(Hr & _) _ _ _ _ _ _] Hp].
  assert (EW m3) as Hm3.
  { split; [|by cbn; rewrite Hout]. unfold m3, rank_, rank. rewrite Hrk. split; cbn; rewrite ?Hac, ?dom_insert_L, ?dom_empty_L; try done; try congruence.
    - intros a [->%elem_of_singleton|[]%not_elem_of_empty]%elem_of_union. done.
    - intros _. split; [exact Hodd|set_solver].
    - by intros Hl; rewrite Hl in Hro.
    - by intros Hl; rewrite Hl in Hro. }
  destruct (sends_EW (MkMMonElection OP_PROPOSE (epoch_ m3) ∅ 0 (supported_mon_features v) (ceph_release v)) (seqZ 0 (size_ m3)) m3 Hm3) as ([[] Ho'] & _).
  split; [by split|done].
Qed.

Lemma start_election_EW m m' : EW m -> start_election run_op cfg now nb v m = Ret m' -> EW m'.
Proof. intros Hm H. unfold start_election in H. rinv H. eapply start_EW; [|exact H]. by eapply join_EW. Qed.

Lemma defer_EW who m : EW m -> EW (defer v who m).
Proof.
  intros Hm. unfold defer. set (m1 := if electing_me (el m) then _ else m). assert (EW m1) as [[] Hp].
  { unfold m1. destruct (electing_me (el m)); [|done]. destruct Hm as [[] Hp]. split; [|done]. split; cbn; try done. }
  clearbody m1. set (m2 := on_el (set_leader_acked who) m1). assert (EW m2) as Hm2 by (by split; [split|]).
  destruct (send_EW who (MkMMonElection OP_ACK (epoch_ m2) ∅ 0 (supported_mon_features v) (ceph_release v)) m2 Hm2) as [[] ?].
  by split; [split|].
Qed.

Lemma win_mon e q (n n' : node) :
  win_election e q n = Ret n' -> n_mon n' = set_m_role Leader (set_m_epoch e (set_m_quorum q (set_m_leader (rank n) (n_mon n)))).
Proof.
  intros H. unfold win_election, leader_init in H. rinv H. destruct (quorum_size _ =? 1) in H; [by injection H as <-|]. by apply collect_mon in H.
Qed.

Lemma victory_EW m m' :
  EW m -> electing_me (el m) = true -> N < 2 * Z.of_nat (size (acked_me (el m))) -> victory run_op cfg now nb v m = Ret m' -> EW m'.
Proof.
  intros [[Hr Hnn Hac Hca _ _ _] Hp] He Hsz H. destruct (Hca He) as [_ Hin]. unfold victory in H. rinv H. rinv H.
  unfold rassert in E. change (epoch_ (cancel_timer _)) with (epoch_ m) in E, E0. destruct (Z.odd (epoch_ m)) eqn:Hodd; [|done]. clear E.
  apply bump_spec in E0 as (_ & Hn & Hx & Hout). cbn [nd el e_out cancel_timer on_el] in Hn, Hx, Hout. unfold epoch_ in *.
  set (q := dom (acked_me (el (on_el _ m)))) in H. assert (q = dom (acked_me (el m))) as Hq by done. clearbody q.
  rename a0 into m2. assert (EW m2) as Hm2.
  { split; [|by rewrite Hout]. rewrite Hn, Hx. apply fresh_ok; [done|cbn; lia|cbn; lia|done|done|]. cbn. by rewrite dom_empty_L. }
  destruct (sends_EW (MkMMonElection OP_VICTORY (m_epoch (n_mon (nd m2))) q
    (foldl (fun f p => Z.land f (cluster_features p.2)) (features_all v) (map_to_list (acked_me (el m))))
    (foldl (fun f p => Z.land f (mon_features p.2)) (supported_mon_features v) (map_to_list (acked_me (el m))))
    (least_release (map_to_list (acked_me (el m))))) (merge_sort Z.le (elements q)) m2 Hm2) as ([_ Ho3] & Hn3 & Hx3).
  cbn [el on_el set_electing_me set_leader_acked acked_me] in H. set (m3 := foldl _ m2 _) in *. clearbody m3. rinv H. injection H as <-.
  apply win_mon in E. split; [|done]. cbn. rewrite E, Hx3, Hx, Hn3, Hn. destruct Hr as (Hr0 & Hrk & Hsz').
  split; cbn; rewrite ?dom_empty_L; try done; try lia.
  - intros _. rewrite Z.even_add, <- Z.negb_odd, Hodd. split_and!; [done|lia|lia].
  - intros _. unfold rank. rewrite Hn. cbn. split_and!; [done|by rewrite Hq|]. split; [rewrite Hq; by apply Hac|]. rewrite Hq, size_dom. lia.
Qed.

Lemma expire_EW joined m m' : EW m -> expire run_op cfg now nb v joined m = Ret m' -> EW m'.
Proof.
  intros Hm H. unfold expire in H. destruct (electing_me (el m)) eqn:He; cbn [andb] in H.
  - destruct (Z.ltb_spec (size_ m / 2) (Z.of_nat (size (acked_me (el m))))).
    + eapply victory_EW; [done|done| |done]. destruct (eo_rank _ _ _ _ (proj1 Hm)) as (_ & _ & Hs).
      unfold size_ in *. rewrite Hs in *. pose proof (Z.mul_succ_div_gt N 2). lia.
    + destruct joined; [by eapply start_EW|by eapply bootstrap_EW].
  - destruct joined; [by eapply start_EW|by eapply bootstrap_EW].
Qed.

Lemma consider_EW from m m' : EW m -> consider run_op cfg now nb v from m = Ret m' -> EW m'.
Proof.
  intros Hm H. unfold consider in H. destruct (rank_ m <? from).
  - destruct (0 <=? _); [rinv H; by injection H as <-|]. destruct (electing_me _); [by injection H as <-|by eapply start_election_EW].
  - destruct (_ || _ || _); injection H as <-; [by apply defer_EW|done].
Qed.

Lemma handle_propose_EW ms from m m' : EW m -> handle_propose run_op cfg now nb v ms from m = Ret m' -> EW m'.
Proof.
  intros Hm H. unfold handle_propose in H. rinv H.
  destruct (lacks_features v); [injection H as <-; by apply send_EW|]. destruct (_ <? min_mon_release v); [injection H as <-; by apply send_EW|].
  destruct (negb (contains_all _ _)); [eapply consider_EW; [|exact H]; by apply send_EW|].
  destruct (epoch_ m <? _); [rinv H; eapply consider_EW; [|exact H]; by eapply bump_EW|].
  destruct (_ <? epoch_ m); [|by eapply consider_EW]. destruct (_ && _); [by eapply start_election_EW|by injection H as <-].
Qed.

Lemma handle_ack_EW ms from m m' : EW m -> 0 <= from < N -> handle_ack run_op cfg now nb v ms from m = Ret m' -> EW m'.
Proof.
  intros Hm Hf H. unfold handle_ack in H. rinv H.
  destruct (epoch_ m <? _); [rinv H; eapply start_EW; [|exact H]; by eapply bump_EW|]. rinv H.
  destruct (lacks_features v); [by injection H as <-|]. destruct (negb (contains_all _ _)); [by injection H as <-|].
  destruct (electing_me (el m)) eqn:He; [|rinv H; by injection H as <-].
  set (m1 := on_el _ m) in H. assert (EW m1) as Hm1.
  { destruct Hm as [[? ? Hac Hca ? ? ?] ?]. split; [|done]. split; cbn; rewrite ?dom_insert_L; try done.
    - intros b [->%elem_of_singleton|?]%elem_of_union; [done|by apply Hac].
    - intros _. destruct (Hca He). split; [done|]. by apply elem_of_union_r. }
  destruct (Z.eqb_spec (Z.of_nat (size (acked_me (el m1)))) (size_ m1)) as [Hs|]; [|by injection H as <-].
  eapply victory_EW; [done|done| |done]. rewrite Hs. destruct (eo_rank _ _ _ _ (proj1 Hm1)) as (? & _ & Hs'). unfold size_. lia.
Qed.

Lemma handle_victory_EW ms from m m' : EW m -> handle_victory run_op cfg now nb v ms from m = Ret m' -> EW m'.
Proof.
  intros Hm H. unfold handle_victory in H. rinv H. rinv H. set (m1 := on_el _ m) in H.
  assert (EW m1) as Hm1 by (destruct Hm as [[] ?]; by split; [split|]).
  destruct (negb (el_epoch ms =? _)) eqn:Hep; [rinv H; eapply start_EW; [|exact H]; by eapply bump_EW|]. rinv H. injection H as <-.
  unfold rassert in E, E0. destruct (Z.ltb_spec from (rank_ m)) as [Hlt|]; [|done]. destruct (Z.even (el_epoch ms)) eqn:Hev; [|done].
  apply bump_spec in E1 as (Hle & Hn & Hx & Hout). change (epoch_ m1) with (epoch_ m) in *. destruct Hm1 as [[Hr Hnn _ _ _ _ _] Hp].
  apply negb_false_iff, Z.eqb_eq in Hep. unfold epoch_ in *. split; [|by cbn; rewrite Hout]. cbn. rewrite Hn, Hx. cbn in Hnn.
  split; cbn; rewrite ?dom_empty_L; try done; try lia.
  - intros _. split_and!; [done|done|lia].
  - intros _. destruct Hr as (_ & <- & _). done.
Qed.

Lemma elector_dispatch_EW ms from m m' : EW m -> 0 <= from < N -> elector_dispatch run_op cfg now nb v ms from m = Ret m' -> EW m'.
Proof.
  intros Hm Hf H. unfold elector_dispatch in H. destruct (negb _); [by injection H as <-|]. destruct (_ <=? from); [by injection H as <-|].
  destruct (el_op ms); [by eapply handle_propose_EW|..]; (destruct (_ <? epoch_ m); [by injection H as <-|]).
  - by eapply handle_ack_EW.
  - done.
  - by eapply handle_victory_EW.
Qed.

Lemma receive_election_EW ms from m m' : EW m -> 0 <= from < N -> receive_election run_op cfg now nb v ms from m = Ret m' -> EW m'.
Proof. intros Hm Hf H. unfold receive_election in H. case_bool_decide; [by injection H as <-|by eapply elector_dispatch_EW]. Qed.

Lemma participating_EW b m : EW m -> EW (on_el (set_participating b) m).
Proof. intros [[] ?]. by split; [split|]. Qed.
End step.

(** ** The system *)

Record EInv (s : system) : Prop := MkEInv {
  ei_mon r n : nodes (px s) !! r = Some n -> exists x, els s !! r = Some x /\ elect_ok N r (n_mon n) x;
  ei_net p : p ∈ enet s -> 0 <= e_src p < N;
}.

Lemma EInv_sub (s : system) ν c : c = nodes (px s) -> (forall p, p ∈ ν -> p ∈ enet s) -> EInv s ->
  forall c', nodes c' = c -> EInv (System c' (els s) ν).
Proof. intros -> Hs [He Hn] c' Hc. split; cbn; [by rewrite Hc|]. intros p Hp. by apply Hn, Hs. Qed.

Lemma at_mon_elect r f s s' : EInv s -> at_mon r f s = Some s' -> (forall m m', EW r m -> f m = Ret m' -> EW r m') -> EInv s'.
Proof.
  intros [He Hn] H Hf. unfold at_mon in H. destruct (nodes (px s) !! r) as [n|] eqn:Hr; [|done].
  destruct (He r n Hr) as (x & Hx & Hxo). rewrite Hx in H. destruct (f _) as [m| |] eqn:Hfm; [|done..]. injection H as <-.
  assert (EW r m) as [Hxo' Ho']. { eapply Hf; [|exact Hfm]. split; [done|]. by intros ? []%not_elem_of_nil. }
  split; cbn.
  - intros a na. destruct (decide (a = r)) as [->|Hne].
    + rewrite !lookup_insert_eq. intros [= <-]. exists (el m). split; [done|]. by destruct Hxo'.
    + rewrite !lookup_insert_ne by done. apply He.
  - intros p [Hp|Hp]%elem_of_app; [by apply Hn|]. rewrite (Ho' _ Hp). by destruct (eo_rank _ _ _ _ Hxo').
Qed.

Context (may_restart : node -> bool).
Notation mexec := (mexec run_op cfg may_restart).

Lemma boot_EW r m m' : EW r m -> boot may_restart m = Ret m' -> EW r m'.
Proof.
  intros [[Hr Hnn _ _ _ _ _] Hp] H. unfold boot in H. destruct (may_restart (nd m)); [|done]. rinv H. injection H as <-.
  unfold init in E. rinv E. injection E as <-. split; [|by intros ? []%not_elem_of_nil]. cbn.
  apply fresh_ok; cbn; rewrite ?dom_empty_L; try done. by destruct Hnn.
Qed.

Lemma mexec_elect ev s s' : EInv s -> mexec ev s = Some s' -> EInv s'.
Proof.
  intros HI H. destruct ev as [ev|i v now nb|i|r joined v now nb|r v now nb|r v now nb|r v now nb|r]; cbn in H.
  - destruct (exec run_op cfg ev (px s)) as [c|] eqn:He; [|done]. injection H as <-. destruct HI as [Hm Hn]. split; cbn; [|done].
    intros r n Hr. specialize (exec_keeps _ _ _ _ _ He r) as Hk. rewrite Hr in Hk. destruct (nodes (px s) !! r) as [n0|] eqn:Hr0; [|done].
    destruct (Hm r n0 Hr0) as (x & Hx & Hxo). exists x. split; [done|]. by eapply elect_ok_keeps.
  - destruct (enet s !! i) as [p|] eqn:Hp; [|done]. eapply at_mon_elect; [|exact H|].
    + eapply EInv_sub; [done| |done|done]. intros q Hq. by eapply elem_of_sublist; [|apply sublist_delete].
    + intros m m' Hm Hf. eapply receive_election_EW; [exact Hm| |exact Hf]. apply (ei_net s HI). by eapply list_elem_of_lookup_2.
  - injection H as <-. eapply EInv_sub; [done| |done|done]. intros q Hq. by eapply elem_of_sublist; [|apply sublist_delete].
  - eapply at_mon_elect; [done|exact H|]. intros m m' Hm Hf. cbn beta in Hf. destruct (expire_event (el m)); [|done].
    eapply expire_EW; [|exact Hf]. destruct Hm as [[] ?]. by split; [split|].
  - eapply at_mon_elect; [done|exact H|]. intros m m' Hm Hf. by eapply start_election_EW.
  - eapply at_mon_elect; [done|exact H|]. intros m m' Hm Hf. eapply start_election_EW; [|exact Hf]. by apply participating_EW.
  - eapply at_mon_elect; [done|exact H|]. intros m m' Hm Hf. unfold quorum_exit in Hf. rinv Hf. injection Hf as <-.
    apply participating_EW. by eapply start_election_EW.
  - eapply at_mon_elect; [|exact H|apply boot_EW]. eapply EInv_sub; [done| |done|done]. by intros p [_ ?]%list_elem_of_filter.
Qed.

Lemma mstart_elect : EInv (mstart N s0).
Proof.
  split; [|by intros ? []%not_elem_of_nil]. intros r n Hn. cbn in Hn.
  apply elem_of_list_to_map_2, list_elem_of_fmap in Hn as (a & [= <- ->] & Ha%elem_of_seqZ). exists (new_elector 0). split.
  - cbn. apply elem_of_list_to_map_1.
    + rewrite <- list_fmap_compose. replace (fst ∘ _) with (@id Z) by done. rewrite list_fmap_id. apply NoDup_seqZ.
    + apply list_elem_of_fmap. exists r. split; [done|]. apply elem_of_seqZ. lia.
  - apply fresh_ok; cbn; rewrite ?dom_empty_L; try done; lia.
Qed.

Lemma msteps_elect s : msteps run_op cfg may_restart (mstart N s0) s -> EInv s.
Proof. induction 1; [apply mstart_elect|]. by eapply mexec_elect. Qed.
End elections.
