(* ===== verification/PaxosLive.v ===== *)
(** * Every request is committed

    In a quorum that is up and connected ([ready]) the leader is given requests
    at any time, and the messages between it and the other members are
    delivered in any order in which those of one channel stay in order, with
    the writes of the leader at any point.  No assertion fails, the number of
    deliveries and writes is bounded, and where none is left every member has
    applied all requests in order ([served_spec]).

    The proof follows the cluster with an abstract state ([round]): where the
    leader is in its round, how far each member is, and what is on the way. *)

From stdpp Require Import gmap sorting.
From S2P Require Import Prelude Paxos PaxosNet PaxosInv.
Open Scope Z_scope.

(** Updates of fields are evaluated; let updates compute. *)
#[local] Arguments set_d_last_pn {Op Svc} v r /.
#[local] Arguments set_d_accepted_pn {Op Svc} v r /.
#[local] Arguments set_d_last_committed {Op Svc} v r /.
#[local] Arguments set_d_first_committed {Op Svc} v r /.
#[local] Arguments set_d_pending_v {Op Svc} v r /.
#[local] Arguments set_d_pending_pn {Op Svc} v r /.
#[local] Arguments set_d_versions {Op Svc} v r /.
#[local] Arguments set_d_service {Op Svc} v r /.
#[local] Arguments set_p_state {Op} v r /.
#[local] Arguments set_commits_started {Op} v r /.
#[local] Arguments set_first_committed {Op} v r /.
#[local] Arguments set_last_pn {Op} v r /.
#[local] Arguments set_last_committed {Op} v r /.
#[local] Arguments set_accepted_pn {Op} v r /.
#[local] Arguments set_accepted_pn_from {Op} v r /.
#[local] Arguments set_peer_first_committed {Op} v r /.
#[local] Arguments set_peer_last_committed {Op} v r /.
#[local] Arguments set_lease_expire {Op} v r /.
#[local] Arguments set_num_last {Op} v r /.
#[local] Arguments set_uncommitted_v {Op} v r /.
#[local] Arguments set_uncommitted_pn {Op} v r /.
#[local] Arguments set_uncommitted_value {Op} v r /.
#[local] Arguments set_new_value {Op} v r /.
#[local] Arguments set_accepted {Op} v r /.
#[local] Arguments set_acked_lease {Op} v r /.
#[local] Arguments set_collect_timeout_event {Op} v r /.
#[local] Arguments set_lease_renew_event {Op} v r /.
#[local] Arguments set_lease_ack_timeout_event {Op} v r /.
#[local] Arguments set_lease_timeout_event {Op} v r /.
#[local] Arguments set_accept_timeout_event {Op} v r /.
#[local] Arguments set_pending_proposal {Op} v r /.
#[local] Arguments set_pending_finishers {Op} v r /.
#[local] Arguments set_committing_finishers {Op} v r /.
#[local] Arguments set_plugged {Op} v r /.
#[local] Arguments set_trimming {Op} v r /.
#[local] Arguments set_n_mon {Op Svc} v r /.
#[local] Arguments set_n_px {Op Svc} v r /.
#[local] Arguments set_n_store {Op Svc} v r /.
#[local] Arguments set_n_io {Op Svc} v r /.
#[local] Arguments set_n_out {Op Svc} v r /.
#[local] Arguments upd {Op Svc} f n /.
#[local] Arguments updd {Op Svc} f n /.
#[local] Arguments add_pending {Op Svc} l n /.
#[local] Arguments cancel_events {Op} p /.
#[local] Arguments send {Op Svc} to m n /.
#[local] Arguments put_version {Op Svc} v bl d /.
#[local] Arguments reset_lease_timeout {Op} p /.

Section live.
Context {Op Svc : Type} (run_op : Op -> Svc -> Svc) (cfg : config).
Notation node := (@node Op Svc).
Notation packet := (@packet Op).
Notation cluster := (@cluster Op Svc).
Notation MMonPaxos := (@MMonPaxos Op).
Notation tx := (list (@vop Op)).
Notation exec := (exec run_op cfg).

(** ** Channels *)

Definition chan (s d : Z) (ν : list packet) : list packet := filter (on_channel s d) ν.
Arguments chan : simpl never.

Lemma chan_app s d ν ν' : chan s d (ν ++ ν') = chan s d ν ++ chan s d ν'.
Proof. apply list_basics.list.filter_app. Qed.

(** The effect of a step of [d]: its new state and the messages it sends. *)
Record stepped (c c' : cluster) (d : Z) (n' : node) (s0 d0 : Z) (rest : list packet) : Prop := Stepped {
  sp_nodes : nodes c' = <[d := set_n_out [] n']> (nodes c);
  sp_chan s x : chan s x (net c') =
    (if bool_decide (s = s0 /\ x = d0) then rest else chan s x (net c)) ++ chan s x (n_out n');
}.

Lemma chan_delete s d ν i pk :
  ν !! i = Some pk -> on_channel s d pk -> (forall j y, ν !! j = Some y -> (j < i)%nat -> ~ on_channel s d y) ->
  chan s d ν = pk :: chan s d (delete i ν) /\ forall x y, ~ (x = s /\ y = d) -> chan x y (delete i ν) = chan x y ν.
Proof.
  intros Hi Hpk Hfst. rewrite delete_take_drop. pose proof (take_drop_middle _ _ _ Hi) as Hν. split.
  - trans (chan s d (take i ν ++ pk :: drop (S i) ν)); [by rewrite Hν|]. rewrite !chan_app. unfold chan. rewrite filter_cons_True by done.
    assert (filter (on_channel s d) (take i ν) = []) as ->; [|done].
    destruct (filter (on_channel s d) (take i ν)) as [|y l] eqn:E; [done|].
    assert (y ∈ filter (on_channel s d) (take i ν)) as [Hy (j & Hj)%list_elem_of_lookup]%list_elem_of_filter by (rewrite E; by left).
    apply lookup_take_Some in Hj as [Hj Hlt]. by destruct (Hfst j y Hj Hlt).
  - intros x y Hxy. trans (chan x y (take i ν ++ pk :: drop (S i) ν)); [|by rewrite Hν]. rewrite !chan_app. f_equal. unfold chan. rewrite filter_cons_False; [done|].
    intros [? ?]. destruct Hpk. apply Hxy. split; congruence.
Qed.

Lemma deliver_step s d now nb c n pk rest n' :
  chan s d (net c) = pk :: rest -> nodes c !! d = Some n -> receive run_op cfg now nb (msg pk) s n = Ret n' ->
  exists c', exec (Deliver s d now nb) c = Some c' /\ stepped c c' d n' s d rest.
Proof.
  intros Hch Hn Hf. cbn. destruct (list_find (on_channel s d) (net c)) as [[i p]|] eqn:E.
  - apply list_find_Some in E as (Hi & Hp & Hfst). destruct (chan_delete _ _ _ _ _ Hi Hp Hfst) as [Hd Hoth].
    rewrite Hch in Hd. injection Hd as <- Hrest. unfold at_node. cbn. rewrite Hn, Hf. eexists. split; [done|]. split; [done|].
    intros x y. cbn [net]. rewrite chan_app. case_bool_decide as Hxy; [destruct Hxy as [-> ->]; by rewrite <- Hrest|by rewrite Hoth].
  - apply list_find_None in E. assert (pk ∈ chan s d (net c)) as [Hp Hin]%list_elem_of_filter by (rewrite Hch; by left).
    eapply list_relations.list.Forall_forall in E; [|exact Hin]. done.
Qed.

Lemma local_step r f (c : cluster) (n n' : node) :
  nodes c !! r = Some n -> f n = Ret n' ->
  exists c', at_node r f c = Some c' /\ nodes c' = <[r := set_n_out [] n']> (nodes c) /\
    forall s x, chan s x (net c') = chan s x (net c) ++ chan s x (n_out n').
Proof. intros Hn Hf. unfold at_node. rewrite Hn, Hf. eexists. split_and!; [done|done|]. intros. apply chan_app. Qed.

(** What a broadcast puts on a channel. *)
Lemma chan_cons s x p (l : list packet) : chan s x (p :: l) = if bool_decide (on_channel s x p) then p :: chan s x l else chan s x l.
Proof. unfold chan. case_bool_decide; [by rewrite filter_cons_True|by rewrite filter_cons_False]. Qed.

Lemma chan_to (k s x : Z) m (l : list Z) :
  NoDup l -> chan s x ((fun p => Packet k p m) <$> l) = if bool_decide (s = k /\ x ∈ l) then [Packet s x m] else [].
Proof.
  induction 1 as [|y l Hy Hnd IH]; [rewrite bool_decide_false; [done|by intros [_ ?%not_elem_of_nil]]|].
  rewrite fmap_cons, chan_cons, IH. unfold on_channel. cbn [src dst]. clear IH Hnd. repeat case_bool_decide; try done; set_solver.
Qed.

Lemma chan_quorum k s x m (q : gset Z) :
  chan s x ((fun p => Packet k p m) <$> filter (fun p => p <> k) (merge_sort Z.le (elements q))) =
  if bool_decide (s = k /\ x ∈ q /\ x <> k) then [Packet s x m] else [].
Proof.
  rewrite chan_to; [|apply list_relations.list.NoDup_filter; rewrite merge_sort_Permutation; apply NoDup_elements].
  erewrite bool_decide_ext; [done|]. rewrite list_elem_of_filter, merge_sort_Permutation, elem_of_elements. tauto.
Qed.

(** ** The members of a quorum *)

(** The leader [r], its quorum, the epoch and the proposal number. *)
Context (r : Z) (q : gset Z) (e P : Z).
Context (Hr : r ∈ q) (Hq : 1 < Z.of_nat (size q)).

Record leads (pend : option (list Op)) (n : node) : Prop := Leads {
  ld_role : m_role (n_mon n) = Leader;
  ld_rank : m_rank (n_mon n) = r;
  ld_epoch : m_epoch (n_mon n) = e;
  ld_quorum : m_quorum (n_mon n) = q;
  ld_last : m_size (n_mon n) / 2 < num_last (n_px n);
  ld_pn : accepted_pn (n_px n) = P;
  ld_pending : pending_proposal (n_px n) = option_map (fun l => ServiceOp <$> l) pend;
  ld_finishers : pend = None -> pending_finishers (n_px n) = [];
  ld_plugged : plugged (n_px n) = false;
  ld_started : 0 <= commits_started (n_px n);
}.

Definition knows (L F : Z) (n : node) : Prop := last_committed (n_px n) = L /\ first_committed (n_px n) = F.

Definition holds (L F : Z) (S : Svc) (n : node) : Prop :=
  d_last_committed (n_store n) = L /\ d_first_committed (n_store n) = F /\ d_service (n_store n) = S.

Record follows (L : Z) (S : Svc) (a : Z) (n : node) : Prop := Follows {
  fo_role : m_role (n_mon n) = Peon;
  fo_rank : m_rank (n_mon n) = a;
  fo_epoch : m_epoch (n_mon n) = e;
  fo_leader : m_leader (n_mon n) = r;
  fo_pn : accepted_pn (n_px n) = P;
  fo_lc : last_committed (n_px n) = L;
  fo_disk : d_last_committed (n_store n) = L /\ d_service (n_store n) = S;
  fo_out : n_out n = [];
}.

(** What the leader waits for. *)
Definition active (n : node) : Prop :=
  p_state (n_px n) = STATE_ACTIVE /\ new_value (n_px n) = None /\ committing_finishers (n_px n) = [].

Definition proposing (t : tx) (X : gset Z) (n : node) : Prop :=
  p_state (n_px n) = STATE_UPDATING /\ new_value (n_px n) = Some t /\ accepted (n_px n) = X.

Definition storing (L : Z) (t : tx) (n : node) : Prop :=
  p_state (n_px n) = STATE_WRITING /\ new_value (n_px n) = Some t /\ n_io n = Some (Queued (L + 1) t) /\ 0 < commits_started (n_px n).

(** The value [begin] makes of a transaction. *)
Definition wrap (L : Z) (t : tx) : tx := if L =? 0 then PutFirstCommitted 1 :: t else t.

Definition begin_msg (L : Z) (t : tx) : MMonPaxos := MkMMonPaxos OP_BEGIN e 0 L 0 P 0 0 [(L + 1, Some t)].
Definition accept_msg (L : Z) : MMonPaxos := MkMMonPaxos OP_ACCEPT e 0 L 0 P 0 0 [].
Definition commit_msg (L : Z) (t : tx) : MMonPaxos := MkMMonPaxos OP_COMMIT e 0 (L + 1) 0 P 0 0 [(L + 1, Some t)].

(** The messages [k] from the leader to every other member, and no others. *)
Definition to_all (k : list MMonPaxos) (n : node) : Prop :=
  forall s x, chan s x (n_out n) = if bool_decide (s = r /\ x ∈ q /\ x <> r) then Packet s x <$> k else [].

Lemma size_big : (Z.of_nat (size q) =? 1) = false /\ (1 <? Z.of_nat (size q)) = true.
Proof using Hq. lia. Qed.

(** Evaluate a handler on a monitor whose fields are known. *)
Ltac run :=
  unfold is_leader, is_peon, is_active, is_updating, is_updating_previous, is_writing, is_writing_previous, is_refresh, in_state, quorum_size, rank;
  repeat (cbn; rewrite ?Z.eqb_refl, ?Z.ltb_irrefl; rewrite ?bool_decide_true by done; rewrite ?bool_decide_false by done;
          try match goal with H : ?b = _ :> bool |- context [?b] => rewrite H end).

Lemma propose_live L F S l n :
  leads None n -> active n -> knows L F n -> holds L F S n -> n_out n = [] ->
  exists n', propose l true n = Ret n' /\ leads None n' /\ proposing (wrap L (ServiceOp <$> l)) {[r]} n' /\ knows L F n' /\ holds L F S n' /\
    n_io n' = n_io n /\ to_all [begin_msg L (wrap L (ServiceOp <$> l))] n'.
Proof using Hq.
  destruct n as [[] [] [] io out]. intros [] (Hst & Hnv & Hcf) [Hlc Hfc] (Hd1 & Hd2 & Hd3) Ho. cbn in *. specialize (ld_finishers0 eq_refl). subst.
  destruct size_big as [Hs _]. assert ((m_size / 2 <? num_last) = true) as Hn by lia. eexists. split.
  - unfold propose, get_pending_transaction, trigger_propose, propose_pending, begin_. run. reflexivity.
  - split_and!; try done. intros s x. cbn. by rewrite chan_quorum.
Qed.

(** A request while the leader is busy waits. *)
Lemma propose_waits pend l n :
  leads pend n -> p_state (n_px n) <> STATE_ACTIVE ->
  exists fs, let n' := upd (fun p => set_pending_finishers fs (set_pending_proposal (Some (ServiceOp <$> default [] pend ++ l)) p)) n in
    propose l true n = Ret n' /\ leads (Some (default [] pend ++ l)) n'.
Proof.
  destruct n as [[] [] [] io out]. intros [] Hst. cbn in *. subst. exists (pending_finishers ++ [C_Service]).
  unfold propose, get_pending_transaction, trigger_propose, add_pending, upd. destruct pend as [l0|]; cbn.
  - run. rewrite fmap_app. split; [done|]. split; cbn; try done. by rewrite fmap_app.
  - rewrite ld_finishers0 by done. run. split; [done|]. by split.
Qed.

(** A peon that is sent a proposal accepts it. *)
Lemma begin_live L S a t now nb n :
  follows L S a n ->
  exists n', receive run_op cfg now nb (begin_msg L t) r n = Ret n' /\ follows L S a (set_n_out [] n') /\ n_out n' = [Packet a r (accept_msg L)].
Proof.
  destruct n as [[] [] [] io out]. intros [? ? ? ? ? ? [? ?] ?]. cbn in *. subst.
  unfold receive, dispatch, handle_begin. run.
  eexists. split; [reflexivity|]. split; [|done]. by split.
Qed.

(** The leader counts it, and starts to write with the last one. *)
Lemma accept_live pend L F S a t X now nb n :
  leads pend n -> proposing t X n -> knows L F n -> holds L F S n -> n_io n = None -> n_out n = [] -> a ∉ X ->
  exists n', receive run_op cfg now nb (accept_msg L) a n = Ret n' /\ leads pend n' /\ knows L F n' /\ holds L F S n' /\ n_out n' = [] /\
    (if bool_decide ({[a]} ∪ X = q) then storing L t n' else proposing t ({[a]} ∪ X) n' /\ n_io n' = None).
Proof using Hq.
  destruct n as [[] [] [] io out]. intros [] (Hst & Hnv & Hac) [Hlc Hfc] (Hd1 & Hd2 & Hd3) Hio Ho HX. cbn in *. subst. destruct size_big as [_ Hs].
  unfold receive, dispatch, handle_accept. run.
  assert ((0 <? L) && (L <? L - 1) = false) as -> by lia. run.
  case_bool_decide as HX'.
  - eexists. split; [unfold commit_start; run; reflexivity|]. split_and!; try done.
    + split; cbn; try done; lia.
    + unfold storing. cbn. split_and!; try done; lia.
  - eexists. split; [reflexivity|]. split_and!; done.
Qed.

Definition fc_next (L F : Z) : Z := if L =? 0 then 1 else F.

(** What the write does. *)
Lemma wrap_effect L l :
  (forall f, fc_after (wrap L (ServiceOp <$> l)) f = fc_next L f) /\
  forall s, svc_after run_op (wrap L (ServiceOp <$> l)) s = foldl (fun s o => run_op o s) s l.
Proof.
  assert (forall f, fc_after (ServiceOp <$> l) f = f) as Hf by (intros f; unfold fc_after; induction l; cbn; done).
  assert (forall s, svc_after run_op (ServiceOp <$> l) s = foldl (fun s o => run_op o s) s l) as Hs.
  { unfold svc_after. clear Hf. induction l as [|o l IH]; intros s; cbn; [done|]. by rewrite IH. }
  unfold wrap, fc_next. destruct (L =? 0); split; intros; [exact (Hf 1)|apply Hs|apply Hf|apply Hs].
Qed.

Lemma flush_live pend L F S l n :
  let t := wrap L (ServiceOp <$> l) in let S' := foldl (fun s o => run_op o s) S l in
  leads pend n -> storing L t n -> knows L F n -> holds L F S n -> n_out n = [] ->
  let n' := flush run_op n in
  leads pend n' /\ knows L F n' /\ holds (L + 1) (fc_next L F) S' n' /\ n_io n' = Some Written /\ p_state (n_px n') = STATE_WRITING /\
  new_value (n_px n') = Some t /\ 0 < commits_started (n_px n') /\ n_out n' = [].
Proof.
  intros t S' Hl (Hst & Hnv & Hio & Hcs) Hk (Hd1 & Hd2 & Hd3) Ho.
  destruct (wrap_effect L l) as [Hf Hs]. destruct (apply_tx_spec run_op (set_d_last_committed (L + 1) (n_store n)) t) as ([] & Hfc & Hsv & _).
  intros n'. assert (n' = set_n_io (Some Written) (set_n_store (apply_tx run_op (set_d_last_committed (L + 1) (n_store n)) t) n)) as ->
    by (unfold n', flush; by rewrite Hio).
  set (d := apply_tx _ _ _) in *. clearbody d. cbn in sb_last_committed, Hfc, Hsv. cbn. destruct Hl. split_and!; try done.
  unfold holds. cbn. by rewrite sb_last_committed, Hfc, Hsv, Hf, Hs, Hd2, Hd3.
Qed.

(** The lease that goes with a commit. *)
Definition lease_msg (L F time : Z) : MMonPaxos := MkMMonPaxos OP_LEASE e F L 0 0 0 time [].

(** The leader after the write: idle, or at the next proposal. *)
Definition resumed (L : Z) (pend : option (list Op)) (n : node) : Prop :=
  match pend with
  | None => active n
  | Some l => proposing (wrap L (ServiceOp <$> l)) {[r]} n
  end.

Definition next_msgs (L : Z) (pend : option (list Op)) : list MMonPaxos :=
  match pend with None => [] | Some l => [begin_msg L (wrap L (ServiceOp <$> l))] end.

Lemma finish_live pend L F S t now n :
  leads pend n -> knows L F n -> holds (L + 1) (fc_next L F) S n -> n_io n = Some Written -> p_state (n_px n) = STATE_WRITING ->
  new_value (n_px n) = Some t -> 0 < commits_started (n_px n) -> n_out n = [] ->
  0 <= L + 1 - fc_next L F <= paxos_min cfg + paxos_trim_min cfg -> paxos_min cfg + paxos_trim_min cfg < 2 ^ 31 ->
  exists n', guard (written n) (commit_finish cfg now false) n = Ret n' /\ leads None n' /\ resumed (L + 1) pend n' /\
    knows (L + 1) (fc_next L F) n' /\ holds (L + 1) (fc_next L F) S n' /\ n_io n' = None /\
    to_all (commit_msg L t :: lease_msg (L + 1) (fc_next L F) (now + mon_lease cfg) :: next_msgs (L + 1) pend) n'.
Proof using Hq.
  destruct n as [[] [] [] io out]. intros [] [Hlc Hfc] (Hd1 & Hd2 & Hd3) Hio Hst Hnv Hcs Ho Hb1 Hb2. cbn in *. subst. destruct size_big as [Hs1 Hs].
  assert ((0 <? commits_started) = true) as Hc by lia. assert ((m_size / 2 <? num_last) = true) as Hn by lia.
  assert ((s32 (L + 1 - fc_next L F) <=? paxos_min cfg + paxos_trim_min cfg) = true) as Htr.
  { rewrite sw_small by (unfold is_s; lia). lia. }
  unfold guard, written, commit_finish, do_refresh, commit_proposal, extend_lease, finish_round, should_trim, finish_contexts.
  destruct (bool_decide (C_Trimmed ∈ committing_finishers)) eqn:Hct, trimming, pend as [l|]; cbn [option_fmap option_map fmap] in *;
    unfold propose_pending, begin_; run; (eexists; split; [reflexivity|]).
  all: split_and!; try done; [split; cbn; try done; try lia; auto|].
  all: clear Hct; intros s x; cbn; rewrite !chan_app, !chan_quorum; by repeat case_bool_decide.
Qed.

(** A peon commits what the leader has committed. *)
Lemma commit_live L S a l now nb n :
  let t := wrap L (ServiceOp <$> l) in let S' := foldl (fun s o => run_op o s) S l in
  answer nb = false -> follows L S a n ->
  exists n', receive run_op cfg now nb (commit_msg L t) r n = Ret n' /\ follows (L + 1) S' a (set_n_out [] n') /\ n_out n' = [].
Proof.
  intros t S' Hnb [Hro Hrk He Hld Hpn Hlc [Hd1 Hd2] Ho]. destruct (wrap_effect L l) as [_ Hs].
  destruct (apply_tx_spec run_op (put_version (L + 1) (Some t) (set_d_last_committed (L + 1) (n_store n))) t) as ([] & _ & Hsv & _).
  assert (exists n', store_state run_op (commit_msg L t) n = Ret (true, n') /\ n_mon n' = n_mon n /\ n_out n' = n_out n /\
    accepted_pn (n_px n') = P /\ last_committed (n_px n') = L + 1 /\ d_last_committed (n_store n') = L + 1 /\ d_service (n_store n') = S')
    as (n' & Hst & Hm & Hout & Hpn' & Hlc' & Hd1' & Hd2').
  { unfold store_state. cbn [values commit_msg msg_last_committed drop_while take_while fst foldl]. rewrite Hlc.
    rewrite Z.ltb_irrefl, (proj2 (Z.leb_gt (L + 1) L)) by lia. cbn [take_while fst]. rewrite Z.leb_refl. cbn [foldl fst].
    cbn [store_values decode_tx deref rbind n_store upd set_n_px].
    set (d := apply_tx run_op _ t) in *. cbn in sb_last_committed, Hsv. rewrite Hs, Hd2 in Hsv. clearbody d.
    rewrite sb_last_committed, Z.eqb_refl. cbn [rassert rbind]. eexists. split; [reflexivity|].
    destruct (_ && _); by split_and!. }
  unfold receive, dispatch. cbn [epoch commit_msg op]. rewrite He, Z.ltb_irrefl, Z.eqb_refl. cbn [negb].
  unfold is_leader, is_peon. rewrite Hro, Hld, Z.eqb_refl. cbn [negb andb orb]. unfold handle_commit, is_peon. rewrite Hro. cbn.
  change (MkMMonPaxos OP_COMMIT e 0 (L + 1) 0 P 0 0 [(L + 1, Some t)]) with (commit_msg L t). rewrite Hst. cbn. rewrite Hnb. cbn.
  eexists. split; [reflexivity|]. split; [|by rewrite Hout]. split; cbn; rewrite ?Hm; done.
Qed.

Definition is_ack (m : MMonPaxos) : Prop := op m = OP_LEASE_ACK /\ epoch m = e.

Lemma lease_live L F S a time now nb n :
  follows L S a n ->
  exists n' m, receive run_op cfg now nb (lease_msg L F time) r n = Ret n' /\ follows L S a (set_n_out [] n') /\
    n_out n' = [Packet a r m] /\ is_ack m.
Proof.
  destruct n as [[] [] [] io out]. intros [? ? ? ? ? ? [? ?] ?]. cbn in *. subst.
  unfold receive, dispatch, handle_lease. run. eexists _, _. split; [reflexivity|]. destruct (_ <? time); by split_and!.
Qed.

(** The leader notes it, and does nothing else. *)
Definition noted (n n' : node) : Prop :=
  exists x b, n' = upd (fun p => set_lease_ack_timeout_event b (set_acked_lease x p)) n.

Lemma ack_live pend a m now nb n :
  leads pend n -> is_ack m -> exists n', receive run_op cfg now nb m a n = Ret n' /\ noted n n'.
Proof.
  destruct n as [[] [] [] io out]. intros [] Hack. cbn in *. subst. destruct Hack as [Hop He].
  unfold receive, dispatch, handle_lease_ack. cbn. rewrite He, Hop. run. destruct lease_ack_timeout_event; cbn.
  - case_bool_decide; [|by eexists; split; [reflexivity|]; eexists _, _]. eexists. split; [reflexivity|]. case_bool_decide; by eexists _, _.
  - eexists. split; [reflexivity|]. by eexists _, _.
Qed.

(** ** The quorum as a whole *)

(** The leader, the other members, and the channels to and from each. *)
Record quorum_at (lead : node -> Prop) (peer : Z -> node -> Prop) (down up : Z -> list packet) (c : cluster) : Prop := QuorumAt {
  qa_lead : exists n, nodes c !! r = Some n /\ lead n /\ n_out n = [];
  qa_peer a : a ∈ q -> a <> r -> exists n, nodes c !! a = Some n /\ peer a n /\ n_out n = [];
  qa_chan a : a ∈ q -> a <> r -> chan r a (net c) = down a /\ chan a r (net c) = up a;
}.

(** [f] changed at [a]. *)
Definition at_ {A} (a : Z) (x : A) (f : Z -> A) (b : Z) : A := if decide (b = a) then x else f b.

Lemma at_eq {A} a (x : A) f : at_ a x f a = x.
Proof. unfold at_. by rewrite decide_True. Qed.
Lemma at_ne {A} a (x : A) f b : b <> a -> at_ a x f b = f b.
Proof. intros. unfold at_. by rewrite decide_False. Qed.

Lemma quorum_at_ext (lead lead' : node -> Prop) peer peer' down down' up up' c :
  quorum_at lead peer down up c -> (forall n, lead n -> lead' n) ->
  (forall a, a ∈ q -> a <> r -> (forall n, peer a n -> peer' a n) /\ down' a = down a /\ up' a = up a) -> quorum_at lead' peer' down' up' c.
Proof.
  intros [(n & Hn & Hl & Ho) Hp Hc] Hl' H. split.
  - exists n. split_and!; [done|by apply Hl'|done].
  - intros a Ha Hne. destruct (Hp a Ha Hne) as (m & Hm & Hpm & Hom). exists m. split_and!; [done|by apply H|done].
  - intros a Ha Hne. destruct (H a Ha Hne) as (_ & -> & ->). by apply Hc.
Qed.

(** A message to [a]. *)
Lemma to_peer lead peer down up c a pk rest now nb n n' out (Q : node -> Prop) :
  quorum_at lead peer down up c -> a ∈ q -> a <> r -> down a = pk :: rest ->
  nodes c !! a = Some n -> receive run_op cfg now nb (msg pk) r n = Ret n' -> Q (set_n_out [] n') -> n_out n' = (Packet a r <$> out) ->
  exists c', exec (Deliver r a now nb) c = Some c' /\
    quorum_at lead (at_ a Q peer) (at_ a rest down) (at_ a (up a ++ (Packet a r <$> out)) up) c'.
Proof.
  intros [Hlead Hp Hc] Ha Hne Hd Hn Hrc HQ Hout. destruct (Hc a Ha Hne) as [Hda Hua]. rewrite Hd in Hda.
  destruct (deliver_step r a now nb c n pk rest n' Hda Hn Hrc) as (c' & Hex & [Hnodes Hchan]). exists c'. split; [done|].
  assert (forall s x, ~ (s = a /\ x = r) -> chan s x (n_out n') = []) as Hnone.
  { intros s x Hsx. rewrite Hout. clear - Hsx. induction out as [|m out IH]; [done|]. rewrite fmap_cons, chan_cons, IH.
    rewrite bool_decide_false; [done|]. intros [<- <-]. by apply Hsx. }
  assert (chan a r (n_out n') = (Packet a r <$> out)) as Hall.
  { rewrite Hout. clear. induction out as [|m out IH]; [done|]. rewrite fmap_cons, chan_cons, IH. by rewrite bool_decide_true. }
  split; rewrite ?Hnodes.
  - rewrite lookup_insert_ne by done. done.
  - intros b Hb Hbr. destruct (decide (b = a)) as [->|Hba].
    + rewrite lookup_insert_eq, at_eq. by eexists.
    + rewrite lookup_insert_ne by done. rewrite at_ne by done. by apply Hp.
  - intros b Hb Hbr. rewrite !Hchan. destruct (Hc b Hb Hbr) as [Hdb Hub]. destruct (decide (b = a)) as [->|Hba].
    + rewrite !at_eq, bool_decide_true, Hnone, app_nil_r by naive_solver. split; [done|].
      rewrite bool_decide_false by naive_solver. by rewrite Hub, Hall.
    + rewrite !at_ne by done. rewrite !bool_decide_false by naive_solver. rewrite !Hnone, !app_nil_r by naive_solver. done.
Qed.

(** A message from [a], which the leader does not answer. *)
Lemma to_leader (lead lead' : node -> Prop) peer down up c a m rest now nb :
  quorum_at lead peer down up c -> a ∈ q -> a <> r -> up a = Packet a r m :: rest ->
  (forall n, lead n -> n_out n = [] -> exists n', receive run_op cfg now nb m a n = Ret n' /\ lead' n' /\ n_out n' = []) ->
  exists c', exec (Deliver a r now nb) c = Some c' /\ quorum_at lead' peer down (at_ a rest up) c'.
Proof.
  intros [(n & Hn & Hl & Hon) Hp Hc] Ha Hne Hu Hf. destruct (Hf n Hl Hon) as (n' & Hrc & Hl' & Hout).
  destruct (Hc a Ha Hne) as [Hda Hua]. rewrite Hu in Hua.
  destruct (deliver_step a r now nb c n (Packet a r m) rest n' Hua Hn Hrc) as (c' & Hex & [Hnodes Hchan]). exists c'. split; [done|].
  split; rewrite ?Hnodes.
  - rewrite lookup_insert_eq. eexists. split_and!; [done| |done]. by replace (set_n_out [] n') with n' by (destruct n'; cbn in *; by subst).
  - intros b Hb Hbr. rewrite lookup_insert_ne by done. by apply Hp.
  - intros b Hb Hbr. rewrite !Hchan, Hout. cbn. rewrite !app_nil_r. destruct (Hc b Hb Hbr) as [Hdb Hub]. destruct (decide (b = a)) as [->|Hba].
    + rewrite at_eq, bool_decide_false, bool_decide_true by naive_solver. done.
    + rewrite at_ne by done. rewrite !bool_decide_false by naive_solver. done.
Qed.

(** The leader acts on its own. *)
Lemma leader_acts (lead lead' : node -> Prop) peer down up c f k :
  quorum_at lead peer down up c ->
  (forall n, lead n -> n_out n = [] -> exists n', f n = Ret n' /\ lead' (set_n_out [] n') /\ to_all k n') ->
  exists c', at_node r f c = Some c' /\ quorum_at lead' peer (fun a => down a ++ (Packet r a <$> k)) up c'.
Proof.
  intros [(n & Hn & Hl & Hon) Hp Hc] Hf. destruct (Hf n Hl Hon) as (n' & Hfn & Hl' & Hout).
  destruct (local_step r f c n n' Hn Hfn) as (c' & Hex & Hnodes & Hchan). exists c'. split; [done|]. split; rewrite ?Hnodes.
  - rewrite lookup_insert_eq. by eexists.
  - intros b Hb Hbr. rewrite lookup_insert_ne by done. by apply Hp.
  - intros b Hb Hbr. rewrite !Hchan, !Hout. destruct (Hc b Hb Hbr) as [-> ->].
    rewrite bool_decide_true by done. rewrite bool_decide_false by (intros (? & ?); done). by rewrite app_nil_r.
Qed.

(** ** The state of a round *)

(** How far a member is: the last commit is on its way to it, or only the lease
    that goes with it; it has the lease; it has accepted the next proposal; the
    leader has counted that. *)
Inductive position := Told | Learned | Leased | Accepted | Counted.

(** What the leader does with the value [l]. *)
Inductive stage := Idle | Asking (l : list Op) | Storing (l : list Op) | Stored (l : list Op).

(** The leader has committed [L] versions, from [F] on, the last one by
    applying [told] to [prev]; [pend] waits.  [acc] has accepted.  The leader
    has not seen the answers [ack] to the last lease. *)
Record round := Round {
  v_L : Z;
  v_F : Z;
  v_S : Svc;
  v_prev : Svc;
  v_told : list Op;
  v_time : Z;
  v_stage : stage;
  v_pend : option (list Op);
  v_acc : gset Z;
  v_pos : Z -> position;
  v_ack : Z -> option MMonPaxos;
}.

Definition value (L : Z) (l : list Op) : tx := wrap L (ServiceOp <$> l).
Definition apply_ops (S : Svc) (l : list Op) : Svc := foldl (fun s o => run_op o s) S l.

Definition lead_at (v : round) (n : node) : Prop :=
  leads (v_pend v) n /\ knows (v_L v) (v_F v) n /\
  match v_stage v with
  | Idle => active n /\ holds (v_L v) (v_F v) (v_S v) n /\ n_io n = None
  | Asking l => proposing (value (v_L v) l) (v_acc v) n /\ holds (v_L v) (v_F v) (v_S v) n /\ n_io n = None
  | Storing l => storing (v_L v) (value (v_L v) l) n /\ holds (v_L v) (v_F v) (v_S v) n
  | Stored l =>
      holds (v_L v + 1) (fc_next (v_L v) (v_F v)) (apply_ops (v_S v) l) n /\ n_io n = Some Written /\
      p_state (n_px n) = STATE_WRITING /\ new_value (n_px n) = Some (value (v_L v) l) /\ 0 < commits_started (n_px n)
  end.

Definition peer_at (v : round) (x : Z) : node -> Prop :=
  match v_pos v x with Told => follows (v_L v - 1) (v_prev v) x | _ => follows (v_L v) (v_S v) x end.

Definition news (v : round) (x : Z) : list MMonPaxos :=
  let lease := lease_msg (v_L v) (v_F v) (v_time v) in
  match v_pos v x with
  | Told => [commit_msg (v_L v - 1) (value (v_L v - 1) (v_told v)); lease]
  | Learned => [lease]
  | _ => []
  end.

Definition proposal (v : round) (x : Z) : list MMonPaxos :=
  match v_stage v, v_pos v x with
  | Asking l, (Told | Learned | Leased) => [begin_msg (v_L v) (value (v_L v) l)]
  | _, _ => []
  end.

Definition replies (v : round) (x : Z) : list MMonPaxos :=
  option_list (v_ack v x) ++ match v_pos v x with Accepted => [accept_msg (v_L v)] | _ => [] end.

Definition down (v : round) (x : Z) : list packet := Packet r x <$> news v x ++ proposal v x.
Definition up (v : round) (x : Z) : list packet := Packet x r <$> replies v x.

(** The cluster is in the state [v]. *)
Definition shows (v : round) : cluster -> Prop := quorum_at (lead_at v) (peer_at v) (down v) (up v).

Definition before (p : position) : Prop := match p with Told | Learned | Leased => True | _ => False end.

Record round_ok (v : round) : Prop := RoundOk {
  ro_ack x m : v_ack v x = Some m -> is_ack m /\ (v_pos v x = Leased \/ v_pos v x = Accepted);
  ro_acc x : x ∈ q -> x <> r -> (x ∈ v_acc v <-> v_pos v x = Counted);
  ro_self : r ∈ v_acc v /\ v_acc v ⊆ q;
  ro_prev : v_S v = apply_ops (v_prev v) (v_told v);
  ro_stage : match v_stage v with
             | Idle => v_pend v = None /\ forall x, x ∈ q -> x <> r -> before (v_pos v x)
             | Asking _ => v_acc v <> q
             | _ => v_acc v = q
             end;
}.

(** ** The work that is left *)

Definition others : list Z := elements (q ∖ {[r]}).

Lemma others_spec a : a ∈ others <-> a ∈ q /\ a <> r.
Proof. unfold others. rewrite elem_of_elements. set_solver. Qed.

(** The deliveries and writes of a round. *)
Definition round_cost : nat := 5 * length others + 2.

Definition weight (v : round) (x : Z) : nat :=
  match v_pos v x with Told => 3 | Learned => 2 | Leased => 0 | Accepted => 4 | Counted => 3 end
  + length (proposal v x) * 5 + length (option_list (v_ack v x)).

Definition todo (v : round) : nat :=
  sum_list_with (weight v) others +
  match v_stage v with Idle => 0 | Asking _ | Storing _ => 2 | Stored _ => 1 end +
  match v_pend v with Some _ => round_cost | None => 0 end.

Lemma sum_list_with_ext {A} (f g : A -> nat) l : (forall y, y ∈ l -> f y = g y) -> sum_list_with f l = sum_list_with g l.
Proof. induction l as [|y l IH]; intros H; cbn; [done|]. rewrite (H y) by (by left). f_equal. apply IH. intros z Hz. apply H. by right. Qed.

Lemma sum_at (f g : Z -> nat) x l :
  NoDup l -> x ∈ l -> (forall y, y ∈ l -> y <> x -> f y = g y) -> (sum_list_with f l + g x = sum_list_with g l + f x)%nat.
Proof.
  induction 1 as [|y l Hy Hnd IH]; intros Hx H; [by apply not_elem_of_nil in Hx|]. cbn. apply elem_of_cons in Hx as [->|Hx].
  - rewrite (sum_list_with_ext f g l); [lia|]. intros z Hz. apply H; [by right|]. by intros ->.
  - rewrite (H y); [|by left|by intros ->]. specialize (IH Hx). rewrite <- Nat.add_assoc, IH; [lia|]. intros z Hz. apply H. by right.
Qed.

Lemma sum_const (c : nat) (l : list Z) : sum_list_with (fun _ => c) l = (c * length l)%nat.
Proof. induction l; cbn; lia. Qed.

(** ** Steps of a member *)

(** The member [x] goes on. *)
Definition move (x : Z) (p : position) (m : option MMonPaxos) (v : round) : round :=
  Round (v_L v) (v_F v) (v_S v) (v_prev v) (v_told v) (v_time v) (v_stage v) (v_pend v) (v_acc v)
    (at_ x p (v_pos v)) (at_ x m (v_ack v)).

Lemma move_ne x p m v b :
  b <> x -> peer_at (move x p m v) b = peer_at v b /\ down (move x p m v) b = down v b /\ up (move x p m v) b = up v b /\
  weight (move x p m v) b = weight v b.
Proof. intros Hb. unfold peer_at, down, up, news, proposal, replies, weight, proposal, move. cbn. by rewrite !at_ne. Qed.

(** A step that moves [x] only. *)
Lemma move_shows x p m v (Q : node -> Prop) d u c :
  quorum_at (lead_at v) (at_ x Q (peer_at v)) (at_ x d (down v)) (at_ x u (up v)) c ->
  (forall n, Q n -> peer_at (move x p m v) x n) -> d = down (move x p m v) x -> u = up (move x p m v) x -> shows (move x p m v) c.
Proof.
  intros Hqa HQ Hd Hu. eapply quorum_at_ext; [exact Hqa|done|]. intros b Hb Hbr. destruct (decide (b = x)) as [->|Hne].
  - by rewrite !at_eq.
  - rewrite !at_ne by done. destruct (move_ne x p m v b Hne) as (-> & -> & -> & _). done.
Qed.

Lemma move_ok x p m v :
  round_ok v -> x ∈ q -> x <> r -> (v_pos v x = Counted <-> p = Counted) -> (before (v_pos v x) -> v_stage v = Idle -> before p) ->
  (forall y, m = Some y -> is_ack y /\ (p = Leased \/ p = Accepted)) -> round_ok (move x p m v).
Proof.
  intros [Hack Hacc Hself Hprev Hst] Hx Hxr Hp Hb Hm. split; cbn; [| |done|done|].
  - intros b y. destruct (decide (b = x)) as [->|Hne]; [rewrite !at_eq; apply Hm|rewrite !at_ne by done; apply Hack].
  - intros b Hbq Hbr. destruct (decide (b = x)) as [->|Hne]; [rewrite at_eq, <- Hp; by apply Hacc|rewrite at_ne by done; by apply Hacc].
  - destruct (v_stage v); try done. destruct Hst as [Hpe Hall]. split; [done|]. intros b Hbq Hbr.
    destruct (decide (b = x)) as [->|Hne]; [rewrite at_eq; apply Hb; [by apply Hall|done]|rewrite at_ne by done; by apply Hall].
Qed.

Lemma move_todo x p m v :
  x ∈ q -> x <> r -> (todo (move x p m v) + weight v x = todo v + weight (move x p m v) x)%nat.
Proof.
  intros Hx Hxr. unfold todo. change (v_stage (move x p m v)) with (v_stage v). change (v_pend (move x p m v)) with (v_pend v).
  pose proof (sum_at (weight (move x p m v)) (weight v) x others (NoDup_elements _) (proj2 (others_spec x) (conj Hx Hxr))
    (fun y _ Hy => proj2 (proj2 (proj2 (move_ne x p m v y Hy))))). lia.
Qed.

(** ** What is owed *)

Definition ops_of (s : stage) : list Op := match s with Idle => [] | Asking l | Storing l | Stored l => l end.
Definition busy (s : stage) : Z := match s with Idle => 0 | _ => 1 end.

(** All requests together lead to [T], with at most [M] versions. *)
Definition owes (v : round) (T : Svc) (M F0 : Z) : Prop :=
  apply_ops (v_S v) (ops_of (v_stage v) ++ default [] (v_pend v)) = T /\ 0 <= F0 <= v_F v /\ v_F v <= v_L v /\
  v_L v + busy (v_stage v) + (if v_pend v then 1 else 0) <= M.

(** The event is executed; it leaves less to do, and what is owed as it was. *)
Definition advances (v : round) (c : cluster) (ev : event) : Prop :=
  exists c' v', exec ev c = Some c' /\ shows v' c' /\ round_ok v' /\ todo v = S (todo v') /\
    forall T M F0, owes v T M F0 -> owes v' T M F0.

(** The leader's first message to [x], which takes it to [p]. *)
Lemma member_step v c x now nb p m k n n' out :
  shows v c -> round_ok v -> x ∈ q -> x <> r -> nodes c !! x = Some n -> receive run_op cfg now nb k r n = Ret n' ->
  peer_at (move x p m v) x (set_n_out [] n') -> n_out n' = (Packet x r <$> out) ->
  down v x = Packet r x k :: down (move x p m v) x -> up v x ++ (Packet x r <$> out) = up (move x p m v) x ->
  p <> Counted -> v_pos v x <> Counted -> (v_stage v = Idle -> before p) -> (forall y, m = Some y -> is_ack y /\ (p = Leased \/ p = Accepted)) ->
  weight v x = S (weight (move x p m v) x) -> advances v c (Deliver r x now nb).
Proof.
  intros Hsh Hok Hx Hxr Hn Hrc Hp Ho Hd Hup Hpc Hvc Hb Hm Hw.
  destruct (to_peer _ _ _ _ _ x (Packet r x k) _ now nb n n' out (peer_at (move x p m v) x) Hsh Hx Hxr Hd Hn Hrc Hp Ho) as (c' & He & Hqa).
  exists c', (move x p m v). split_and!; [done|by eapply move_shows|by apply move_ok; [..|intros _| ]| |done].
  pose proof (move_todo x p m v Hx Hxr). lia.
Qed.

Lemma told_step v c x now nb :
  shows v c -> round_ok v -> x ∈ q -> x <> r -> answer nb = false -> v_pos v x = Told -> advances v c (Deliver r x now nb).
Proof.
  intros Hsh Hok Hx Hxr Hnb Hpos. destruct (qa_peer _ _ _ _ _ Hsh x Hx Hxr) as (n & Hn & Hpn & _). unfold peer_at in Hpn. rewrite Hpos in Hpn.
  destruct (commit_live _ _ _ (v_told v) now nb n Hnb Hpn) as (n' & Hrc & Hf & Ho).
  eapply (member_step v c x now nb Learned (v_ack v x) _ n n' [] Hsh Hok Hx Hxr Hn Hrc); try done.
  - unfold peer_at. cbn. rewrite at_eq, (ro_prev v Hok). by rewrite Z.sub_add in Hf.
  - unfold down, news, proposal. cbn. by rewrite !at_eq, Hpos.
  - unfold up, replies. cbn. by rewrite !at_eq, Hpos, app_nil_r.
  - by rewrite Hpos.
  - intros y Hy. destruct (ro_ack v Hok x y Hy) as [_ [?|?]]; congruence.
  - unfold weight, proposal. cbn. rewrite !at_eq, Hpos. done.
Qed.

Lemma learned_step v c x now nb :
  shows v c -> round_ok v -> x ∈ q -> x <> r -> v_pos v x = Learned -> advances v c (Deliver r x now nb).
Proof.
  intros Hsh Hok Hx Hxr Hpos. destruct (qa_peer _ _ _ _ _ Hsh x Hx Hxr) as (n & Hn & Hpn & _). unfold peer_at in Hpn. rewrite Hpos in Hpn.
  destruct (lease_live _ (v_F v) _ _ (v_time v) now nb n Hpn) as (n' & m & Hrc & Hf & Ho & Hm).
  assert (v_ack v x = None) as Hno.
  { destruct (v_ack v x) as [y|] eqn:Hy; [|done]. destruct (ro_ack v Hok x y Hy) as [_ [?|?]]; congruence. }
  eapply (member_step v c x now nb Leased (Some m) _ n n' [m] Hsh Hok Hx Hxr Hn Hrc); try done.
  - unfold peer_at. cbn. by rewrite at_eq.
  - unfold down, news, proposal. cbn. by rewrite !at_eq, Hpos.
  - unfold up, replies. cbn. by rewrite !at_eq, Hpos, Hno.
  - by rewrite Hpos.
  - intros y [= <-]. split; [done|by left].
  - unfold weight, proposal. cbn. rewrite !at_eq, Hpos, Hno. cbn. lia.
Qed.

Lemma leased_step v c x now nb l :
  shows v c -> round_ok v -> x ∈ q -> x <> r -> v_pos v x = Leased -> v_stage v = Asking l -> advances v c (Deliver r x now nb).
Proof.
  intros Hsh Hok Hx Hxr Hpos Hst. destruct (qa_peer _ _ _ _ _ Hsh x Hx Hxr) as (n & Hn & Hpn & _). unfold peer_at in Hpn. rewrite Hpos in Hpn.
  destruct (begin_live _ _ _ (value (v_L v) l) now nb n Hpn) as (n' & Hrc & Hf & Ho).
  eapply (member_step v c x now nb Accepted (v_ack v x) _ n n' [accept_msg (v_L v)] Hsh Hok Hx Hxr Hn Hrc); try done.
  - unfold peer_at. cbn. by rewrite at_eq.
  - unfold down, news, proposal. cbn. by rewrite !at_eq, Hpos, Hst.
  - unfold up, replies. cbn. by rewrite !at_eq, Hpos, app_nil_r, fmap_app.
  - by rewrite Hpos.
  - by rewrite Hst.
  - intros y Hy. split; [by apply (ro_ack v Hok x y)|by right].
  - unfold weight, proposal. cbn. rewrite !at_eq, Hpos, Hst. cbn. lia.
Qed.

Lemma deliver_down v c x now nb :
  shows v c -> round_ok v -> x ∈ q -> x <> r -> answer nb = false -> down v x <> [] -> advances v c (Deliver r x now nb).
Proof.
  intros Hsh Hok Hx Hxr Hnb Hd. destruct (v_pos v x) eqn:Hpos; [by apply told_step|by apply learned_step|..].
  1: destruct (v_stage v) as [|l|l|l] eqn:Hst; [|by eapply leased_step|..].
  all: destruct Hd; unfold down, news, proposal; rewrite Hpos; rewrite ?Hst; try done; by destruct (v_stage v).
Qed.

(** ** Steps of the leader *)

(** The answer to a lease. *)
Lemma noted_lead v n n' : noted n n' -> lead_at v n -> lead_at v n' /\ n_out n' = n_out n.
Proof.
  intros (x & b & ->) (Hl & Hk & Hs). split; [|done]. split; [destruct Hl; by split|]. split; [done|]. by destruct (v_stage v).
Qed.

Lemma ack_step v c x now nb m :
  shows v c -> round_ok v -> x ∈ q -> x <> r -> v_ack v x = Some m -> advances v c (Deliver x r now nb).
Proof.
  intros Hsh Hok Hx Hxr Hm. destruct (ro_ack v Hok x m Hm) as [Hack Hpos].
  edestruct (to_leader (lead_at v) (lead_at v) (peer_at v) (down v) (up v) c x m) as (c' & He & Hqa); [exact Hsh|done|done| | |].
  - unfold up, replies. rewrite Hm. reflexivity.
  - intros n Hn Ho. destruct (ack_live (v_pend v) x m now nb n) as (n' & Hrc & Hno); [apply Hn|done|].
    destruct (noted_lead v n n' Hno Hn) as [Hn' Ho']. exists n'. split_and!; [exact Hrc|done|congruence].
  - exists c', (move x (v_pos v x) None v). split_and!; [exact He| | | |done].
    + eapply (move_shows x _ _ v (peer_at v x) (down v x)); [|intros n| |].
      * eapply quorum_at_ext; [exact Hqa|done|]. intros b Hb Hbr. unfold at_ at 1 2. by destruct (decide (b = x)) as [->|].
      * unfold peer_at. cbn. by rewrite at_eq.
      * unfold down, news, proposal. cbn. by rewrite !at_eq.
      * unfold up, replies. cbn. by rewrite !at_eq.
    + by apply move_ok.
    + pose proof (move_todo x (v_pos v x) None v Hx Hxr) as Ht. unfold weight, proposal in Ht. cbn in Ht. rewrite !at_eq, Hm in Ht. cbn in Ht. lia.
Qed.

Lemma counted_all v x : round_ok v -> v_acc v = q -> x ∈ q -> x <> r -> v_pos v x = Counted /\ v_ack v x = None.
Proof.
  intros Hok Hall Hx Hxr. assert (v_pos v x = Counted) as Hpos by (apply (ro_acc v Hok); [done..|by rewrite Hall]). split; [done|].
  destruct (v_ack v x) as [m|] eqn:Hm; [|done]. destruct (ro_ack v Hok x m Hm) as [_ [?|?]]; congruence.
Qed.

(** The acceptance of [x]. *)
Definition count (x : Z) (l : list Op) (v : round) : round :=
  let X := {[x]} ∪ v_acc v in
  Round (v_L v) (v_F v) (v_S v) (v_prev v) (v_told v) (v_time v) (if bool_decide (X = q) then Storing l else Asking l) (v_pend v) X
    (at_ x Counted (v_pos v)) (v_ack v).

Lemma counted_ok x l v : round_ok v -> x ∈ q -> x <> r -> v_ack v x = None -> round_ok (count x l v).
Proof.
  intros [Hack Hacc Hself Hprev Hst] Hx Hxr Hno. split; cbn; [| |set_solver|done|by case_bool_decide].
  - intros b m Hb. destruct (decide (b = x)) as [->|Hne]; [congruence|]. rewrite at_ne by done. by apply Hack.
  - intros b Hb Hbr. destruct (decide (b = x)) as [->|Hne]; [rewrite at_eq; set_solver|]. rewrite at_ne by done. rewrite <- Hacc by done. set_solver.
Qed.

(** The others' messages are as before. *)
Lemma count_ne x l v b :
  round_ok v -> v_stage v = Asking l -> b ∈ q -> b <> r -> b <> x ->
  peer_at (count x l v) b = peer_at v b /\ down (count x l v) b = down v b /\ up (count x l v) b = up v b /\ weight (count x l v) b = weight v b.
Proof.
  intros Hok Hst Hb Hbr Hne. assert (proposal (count x l v) b = proposal v b) as Hp.
  { unfold proposal. cbn. rewrite at_ne, Hst by done. case_bool_decide as Hall; [|done].
    assert (v_pos v b = Counted) as ->; [|done]. apply (ro_acc v Hok); [done..|]. rewrite <- Hall in Hb. set_solver. }
  unfold peer_at, down, up, news, replies, weight. rewrite Hp. cbn. by rewrite !at_ne.
Qed.

Lemma count_todo x l v :
  round_ok v -> v_stage v = Asking l -> x ∈ q -> x <> r -> v_pos v x = Accepted -> v_ack v x = None -> todo v = S (todo (count x l v)).
Proof.
  intros Hok Hst Hx Hxr Hpos Hno. assert (weight v x = 4%nat /\ weight (count x l v) x = 3%nat) as [Hw Hw'].
  { unfold weight, proposal. cbn. rewrite at_eq, Hpos, Hno, Hst. by case_bool_decide. }
  pose proof (sum_at (weight (count x l v)) (weight v) x others (NoDup_elements _) (proj2 (others_spec x) (conj Hx Hxr))) as Hsum.
  rewrite Hw, Hw' in Hsum. specialize (Hsum ltac:(intros y [Hy Hyr]%others_spec Hyx; by destruct (count_ne x l v y Hok Hst Hy Hyr Hyx) as (_ & _ & _ & ->))).
  unfold todo. rewrite Hst. cbn [v_pend v_stage count]. case_bool_decide; lia.
Qed.

Lemma accept_step v c x now nb :
  shows v c -> round_ok v -> x ∈ q -> x <> r -> v_pos v x = Accepted -> v_ack v x = None -> advances v c (Deliver x r now nb).
Proof using Hr Hq.
  intros Hsh Hok Hx Hxr Hpos Hno. assert (x ∉ v_acc v) as Hnx by (rewrite (ro_acc v Hok) by done; congruence).
  assert (exists l, v_stage v = Asking l) as [l Hst].
  { pose proof (ro_stage v Hok) as Hs. destruct (v_stage v); [|by eexists|by rewrite Hs in Hnx..]. destruct Hs as [_ Hs]. specialize (Hs x Hx Hxr). by rewrite Hpos in Hs. }
  edestruct (to_leader (lead_at v) (lead_at (count x l v)) (peer_at v) (down v) (up v) c x (accept_msg (v_L v))) as (c' & He & Hqa); [exact Hsh|done|done| | |].
  - unfold up, replies. rewrite Hno, Hpos. reflexivity.
  - intros n (Hl & Hk & Hs) Ho. rewrite Hst in Hs. destruct Hs as (Hp & Hh & Hio).
    destruct (accept_live _ _ _ _ x _ _ now nb n Hl Hp Hk Hh Hio Ho Hnx) as (n' & Hrc & Hl' & Hk' & Hh' & Ho' & Hs'). exists n'. split_and!; [exact Hrc| |done].
    split; [done|]. split; [done|]. cbn. case_bool_decide; [by split|]. by destruct Hs'.
  - exists c', (count x l v). split_and!; [exact He| |by apply counted_ok| |].
    + eapply quorum_at_ext; [exact Hqa|done|]. intros b Hb Hbr. destruct (decide (b = x)) as [->|Hne].
      * rewrite at_eq. unfold peer_at, down, up, news, proposal, replies. cbn. rewrite at_eq, Hpos, Hno, Hst. by case_bool_decide.
      * rewrite at_ne by done. destruct (count_ne x l v b Hok Hst Hb Hbr Hne) as (-> & -> & -> & _). done.
    + by apply count_todo.
    + intros T M F0. unfold owes. cbn. rewrite Hst. by case_bool_decide.
Qed.

Lemma deliver_up v c x now nb :
  shows v c -> round_ok v -> x ∈ q -> x <> r -> up v x <> [] -> advances v c (Deliver x r now nb).
Proof using Hr Hq.
  intros Hsh Hok Hx Hxr Hu. destruct (v_ack v x) as [m|] eqn:Hm; [by eapply ack_step|].
  destruct (v_pos v x) eqn:Hpos; [..|by apply accept_step|]; destruct Hu; unfold up, replies; by rewrite Hm, Hpos.
Qed.

(** The write. *)
Definition at_stage (s : stage) (v : round) : round :=
  Round (v_L v) (v_F v) (v_S v) (v_prev v) (v_told v) (v_time v) s (v_pend v) (v_acc v) (v_pos v) (v_ack v).

Lemma flush_step v c l : shows v c -> round_ok v -> v_stage v = Storing l -> advances v c (Flush r).
Proof.
  intros Hsh Hok Hst. pose proof (ro_stage v Hok) as Hall. rewrite Hst in Hall.
  assert (forall b, proposal (at_stage (Stored l) v) b = proposal v b) as Hp by (intros b; unfold proposal; by rewrite Hst).
  destruct (leader_acts (lead_at v) (lead_at (at_stage (Stored l) v)) (peer_at v) (down v) (up v) c (fun n => Ret (flush run_op n)) [] Hsh) as (c' & He & Hqa).
  { intros n (Hl & Hk & Hs) Ho. rewrite Hst in Hs. destruct Hs as [Hs Hh].
    destruct (flush_live _ _ _ _ l n Hl Hs Hk Hh Ho) as (Hl' & Hk' & Hh' & Hio & Hps & Hnv & Hcs & Hout). eexists. split; [done|]. split.
    - destruct Hl'. split; [by split|]. by split.
    - intros s x. rewrite Hout. by case_bool_decide. }
  exists c', (at_stage (Stored l) v). split_and!; [exact He| | | |].
  - eapply quorum_at_ext; [exact Hqa|done|]. intros b Hb Hbr. cbn beta. rewrite fmap_nil, app_nil_r. unfold down. by rewrite Hp.
  - destruct Hok. split; try done.
  - unfold todo. rewrite Hst. cbn [v_stage v_pend at_stage]. rewrite (sum_list_with_ext (weight (at_stage (Stored l) v)) (weight v)); [lia|].
    intros b _. unfold weight. by rewrite Hp.
  - intros T M F0. unfold owes. cbn. by rewrite Hst.
Qed.

(** The end of the round, and the start of the next one if a request waits. *)
Definition next_round (l : list Op) (time : Z) (v : round) : round :=
  Round (v_L v + 1) (fc_next (v_L v) (v_F v)) (apply_ops (v_S v) l) (v_S v) l time
    (match v_pend v with None => Idle | Some l' => Asking l' end) None {[r]} (fun _ => Told) (fun _ => None).

Lemma alone : {[r]} <> q.
Proof using Hq. intros Hs. rewrite <- Hs, size_singleton in Hq. lia. Qed.

Lemma next_round_ok l time v : round_ok (next_round l time v).
Proof using Hr Hq.
  split; cbn; [done| |set_solver|done|].
  - intros x Hx Hxr. rewrite elem_of_singleton. split; [done|intros [=]].
  - destruct (v_pend v); [apply alone|done].
Qed.

Lemma next_round_todo l time v : round_ok v -> v_stage v = Stored l -> todo v = S (todo (next_round l time v)).
Proof.
  intros Hok Hst. pose proof (ro_stage v Hok) as Hall. rewrite Hst in Hall. unfold todo. rewrite Hst.
  rewrite (sum_list_with_ext (weight v) (fun _ => 3%nat)), sum_const.
  2: { intros b [Hb Hbr]%others_spec. destruct (counted_all v b Hok Hall Hb Hbr) as [Hpos Hno]. unfold weight, proposal. by rewrite Hpos, Hno, Hst. }
  rewrite (sum_list_with_ext (weight (next_round l time v)) (fun _ => 3 + (match v_pend v with None => 0 | Some _ => 5 end))%nat), sum_const.
  2: { intros b _. unfold weight, proposal. cbn. by destruct (v_pend v). }
  cbn [next_round v_stage v_pend]. unfold round_cost. destruct (v_pend v); lia.
Qed.

Lemma next_round_owes l time v T M F0 : v_stage v = Stored l -> owes v T M F0 -> owes (next_round l time v) T M F0.
Proof.
  intros Hst (HT & HF & HL & HM). rewrite Hst in *. cbn in HT, HM. unfold owes, next_round, fc_next. cbn.
  assert (F0 <= (if v_L v =? 0 then 1 else v_F v) <= v_L v + 1) as Hn by (destruct (Z.eqb_spec (v_L v) 0); lia).
  split_and!; try lia; [|destruct (v_pend v); cbn; lia]. rewrite <- HT. unfold apply_ops. destruct (v_pend v); cbn; by rewrite ?app_nil_r, ?foldl_app.
Qed.

Lemma finish_step v c l now T M F0 :
  shows v c -> round_ok v -> v_stage v = Stored l -> owes v T M F0 -> M - F0 <= paxos_min cfg + paxos_trim_min cfg < 2 ^ 31 ->
  advances v c (Committed r now false).
Proof using Hr Hq.
  intros Hsh Hok Hst How Hb. pose proof (ro_stage v Hok) as Hall. rewrite Hst in Hall. set (v' := next_round l (now + mon_lease cfg) v).
  assert (0 <= v_L v + 1 - fc_next (v_L v) (v_F v) <= paxos_min cfg + paxos_trim_min cfg) as Hb1.
  { destruct (next_round_owes l 0 v T M F0 Hst How) as (_ & HF & HL & HM). cbn in HF, HL, HM. destruct (v_pend v); cbn in HM; lia. }
  destruct (leader_acts (lead_at v) (lead_at v') (peer_at v) (down v) (up v) c (fun n => guard (written n) (commit_finish cfg now false) n)
    (commit_msg (v_L v) (value (v_L v) l) :: lease_msg (v_L v + 1) (fc_next (v_L v) (v_F v)) (now + mon_lease cfg) :: next_msgs (v_L v + 1) (v_pend v)) Hsh)
    as (c' & He & Hqa).
  { intros n (Hl & Hk & Hs) Ho. rewrite Hst in Hs. destruct Hs as (Hh & Hio & Hps & Hnv & Hcs).
    destruct (finish_live _ _ _ _ _ now n Hl Hk Hh Hio Hps Hnv Hcs Ho Hb1 (proj2 Hb)) as (n' & Hrc & Hl' & Hres & Hk' & Hh' & Hio' & Hout).
    exists n'. split_and!; [exact Hrc| |exact Hout]. destruct Hl'. split; [by split|]. split; [done|]. cbn. unfold resumed in Hres. destruct (v_pend v); by split_and!. }
  exists c', v'. split_and!; [exact He| |apply next_round_ok|by apply next_round_todo|intros; by apply next_round_owes].
  eapply quorum_at_ext; [exact Hqa|done|]. intros b Hb' Hbr. destruct (counted_all v b Hok Hall Hb' Hbr) as [Hpos Hno].
  unfold peer_at, down, up, news, proposal, replies, next_msgs. cbn. rewrite Hpos, Hno, Hst, Z.add_simpl_r. cbn. split_and!; [done| |done].
  by destruct (v_pend v).
Qed.

(** ** Requests *)

Definition ask (l : list Op) (v : round) : round :=
  match v_stage v with
  | Idle =>
      Round (v_L v) (v_F v) (v_S v) (v_prev v) (v_told v) (v_time v) (Asking l) None {[r]} (v_pos v) (v_ack v)
  | s =>
      Round (v_L v) (v_F v) (v_S v) (v_prev v) (v_told v) (v_time v) s (Some (default [] (v_pend v) ++ l)) (v_acc v) (v_pos v) (v_ack v)
  end.

Lemma ask_ok l v : round_ok v -> round_ok (ask l v).
Proof using Hr Hq.
  intros [Hack Hacc Hself Hprev Hst]. unfold ask. destruct (v_stage v) eqn:Hs; [|split; cbn; by rewrite ?Hs..].
  destruct Hst as [_ Hall]. split; cbn; [done| |set_solver|done|apply alone].
  intros x Hx Hxr. rewrite elem_of_singleton. specialize (Hall x Hx Hxr). destruct (v_pos v x); try done; naive_solver.
Qed.

Lemma ask_todo l v : round_ok v -> (todo (ask l v) <= todo v + round_cost)%nat.
Proof.
  intros Hok. pose proof (ro_stage v Hok) as Hs. unfold todo, ask. destruct (v_stage v) eqn:Hst.
  2-4: cbn [v_stage v_pend]; rewrite (sum_list_with_ext _ (weight v)); [destruct (v_pend v); lia|];
       intros b _; unfold weight, proposal; cbn; by rewrite Hst.
  destruct Hs as [Hp Hall]. cbn [v_stage v_pend]. set (v' := Round _ _ _ _ _ _ _ _ _ _ _).
  assert (forall k, (forall b, b ∈ k -> b ∈ others) -> (sum_list_with (weight v') k = sum_list_with (weight v) k + 5 * length k)%nat) as Hsum.
  { induction k as [|b k IH]; intros Hk; [done|]. cbn [sum_list_with length]. rewrite IH by (intros; apply Hk; by right).
    destruct (proj1 (others_spec b) (Hk b ltac:(by left))) as [Hb Hbr]. specialize (Hall b Hb Hbr).
    assert (weight v' b = weight v b + 5)%nat as ->; [|lia]. unfold weight, proposal, v'. cbn. rewrite Hst. destruct (v_pos v b); cbn in *; try done; lia. }
  rewrite Hsum by done. unfold round_cost. lia.
Qed.

Lemma ask_owes l v T M F0 : round_ok v -> owes v T M F0 -> owes (ask l v) (apply_ops T l) (M + 1) F0.
Proof.
  intros Hok (HT & HF & HL & HM). pose proof (ro_stage v Hok) as Hs. unfold owes, ask. rewrite <- HT. unfold apply_ops. destruct (v_stage v) eqn:Hst; cbn in *.
  { destruct Hs as [Hp _]. rewrite Hp in *. cbn in *. rewrite app_nil_r. split_and!; (done || lia). }
  all: rewrite <- foldl_app, <- (assoc_L (++)). all: split_and!; try done; destruct (v_pend v); lia.
Qed.

(** The leader takes a request at any time. *)
Lemma ask_step v c l :
  shows v c -> round_ok v -> exists c', exec (Propose r l true) c = Some c' /\ shows (ask l v) c'.
Proof using Hr Hq.
  intros Hsh Hok. pose proof (ro_stage v Hok) as Hs. cbn [PaxosNet.exec]. destruct (v_stage v) eqn:Hst.
  { destruct Hs as [Hp Hall]. assert (ask l v = Round (v_L v) (v_F v) (v_S v) (v_prev v) (v_told v) (v_time v) (Asking l) None {[r]} (v_pos v) (v_ack v)) as ->
      by (unfold ask; by rewrite Hst). set (v' := Round _ _ _ _ _ _ _ _ _ _ _).
    destruct (leader_acts (lead_at v) (lead_at v') (peer_at v) (down v) (up v) c (propose l true) [begin_msg (v_L v) (value (v_L v) l)] Hsh) as (c' & He & Hqa).
    - intros n (Hl & Hk & Hs') Ho. rewrite Hst in Hs'. rewrite Hp in Hl. destruct Hs' as (Ha & Hh & Hio).
      destruct (propose_live _ _ _ l n Hl Ha Hk Hh Ho) as (n' & Hrc & Hl' & Hpr & Hk' & Hh' & Hio' & Hout). exists n'. split_and!; [done| |done].
      destruct Hl'. split; [by split|]. split; [done|]. cbn. split_and!; [done|done|congruence].
    - exists c'. split; [done|]. eapply quorum_at_ext; [exact Hqa|done|]. intros b Hb Hbr. split_and!; [done| |done].
      unfold down, proposal, v'. cbn. rewrite Hst. specialize (Hall b Hb Hbr). unfold news. cbn. destruct (v_pos v b); done. }
  all: assert (exists c', at_node r (propose l true) c = Some c' /\ quorum_at (lead_at (ask l v)) (peer_at v) (fun a => down v a ++ (Packet r a <$> [])) (up v) c') as (c' & He & Hqa).
  all: try (exists c'; split; [done|]; eapply quorum_at_ext; [exact Hqa|done|]; intros b Hb Hbr; cbn beta; rewrite fmap_nil, app_nil_r; unfold ask; rewrite Hst;
    unfold down, proposal; cbn; by rewrite Hst).
  all: eapply leader_acts; [exact Hsh|]; intros n (Hl & Hk & Hs') Ho; rewrite Hst in Hs';
    destruct (propose_waits _ l n Hl) as (fs & Hrc & Hl'); [unfold proposing, storing in Hs'; destruct_and!; congruence|];
    eexists; (split; [exact Hrc|]); (split; [|intros s x; cbn; rewrite Ho; by case_bool_decide]);
    unfold ask; rewrite Hst; destruct Hl'; (split; [by split|]); by split.
Qed.

(** ** Every run *)

(** What there is to do: messages between the leader and another member, and
    the write of the leader; no refresh asks for a bootstrap. *)
Inductive work (c : cluster) : @event Op -> Prop :=
  | work_down x now nb : x ∈ q -> x <> r -> chan r x (net c) <> [] -> answer nb = false -> work c (Deliver r x now nb)
  | work_up x now nb : x ∈ q -> x <> r -> chan x r (net c) <> [] -> answer nb = false -> work c (Deliver x r now nb)
  | work_flush n v t : nodes c !! r = Some n -> n_io n = Some (Queued v t) -> work c (Flush r)
  | work_commit n now : nodes c !! r = Some n -> n_io n = Some Written -> work c (Committed r now false).

(** The runs in which the leader is given [reqs] and [k] events of work are
    done, in any order. *)
Inductive served (c : cluster) : list (list Op) -> nat -> cluster -> Prop :=
  | served_start : served c [] 0 c
  | served_request reqs k c1 l c2 : served c reqs k c1 -> exec (Propose r l true) c1 = Some c2 -> served c (reqs ++ [l]) k c2
  | served_work reqs k c1 ev c2 : served c reqs k c1 -> work c1 ev -> exec ev c1 = Some c2 -> served c reqs (S k) c2.

(** The quorum has committed [L] versions, from [F] on, and nothing is on its
    way. *)
Definition ready (L F : Z) (S : Svc) : cluster -> Prop :=
  quorum_at (fun n => leads None n /\ knows L F n /\ active n /\ holds L F S n /\ n_io n = None) (follows L S) (fun _ => []) (fun _ => []).

Definition rest (L F : Z) (S : Svc) : round :=
  Round L F S S [] 0 Idle None {[r]} (fun _ => Leased) (fun _ => None).

Lemma rest_ok L F S : round_ok (rest L F S) /\ todo (rest L F S) = 0%nat.
Proof using Hr Hq.
  split; [split; cbn; [done| |set_solver|done|done]|].
  - intros x Hx Hxr. rewrite elem_of_singleton. split; [done|intros [=]].
  - unfold todo. cbn. rewrite (sum_list_with_ext _ (fun _ => 0%nat)), sum_const; [lia|done].
Qed.

Lemma work_step v c ev T M F0 :
  shows v c -> round_ok v -> owes v T M F0 -> M - F0 <= paxos_min cfg + paxos_trim_min cfg < 2 ^ 31 -> work c ev -> advances v c ev.
Proof using Hr Hq.
  intros Hsh Hok How Hb [x now nb Hx Hxr Hc Hnb|x now nb Hx Hxr Hc Hnb|n w t Hn Hio|n now Hn Hio].
  - destruct (qa_chan _ _ _ _ _ Hsh x Hx Hxr) as [Hd _]. apply deliver_down; try done. by rewrite <- Hd.
  - destruct (qa_chan _ _ _ _ _ Hsh x Hx Hxr) as [_ Hu]. apply deliver_up; try done. by rewrite <- Hu.
  - destruct (qa_lead _ _ _ _ _ Hsh) as (n1 & Hn1 & (_ & _ & Hs) & _). rewrite Hn in Hn1. injection Hn1 as <-.
    destruct (v_stage v) eqn:Hst; [..|by eapply flush_step|]; destruct_and!; congruence.
  - destruct (qa_lead _ _ _ _ _ Hsh) as (n1 & Hn1 & (_ & _ & Hs) & _). rewrite Hn in Hn1. injection Hn1 as <-.
    destruct (v_stage v) eqn:Hst; [| | |by eapply finish_step]; unfold storing in Hs; destruct_and!; congruence.
Qed.

(** There is something to do, or nothing is owed. *)
Lemma work_left v c :
  shows v c -> round_ok v ->
  (exists ev, work c ev) \/
  (v_stage v = Idle /\ v_pend v = None /\ forall x, x ∈ q -> x <> r -> v_pos v x = Leased /\ v_ack v x = None).
Proof using Hr Hq.
  intros Hsh Hok. pose proof (ro_stage v Hok) as Hs. destruct (qa_lead _ _ _ _ _ Hsh) as (n & Hn & (_ & _ & Hl) & _).
  assert (forall x, x ∈ q -> x <> r -> (0 < length (down v x) + length (up v x))%nat -> exists ev, work c ev) as Hmsg.
  { intros x Hx Hxr Hlen. destruct (qa_chan _ _ _ _ _ Hsh x Hx Hxr) as [Hd Hu].
    destruct (down v x) as [|p d] eqn:Ed; [destruct (up v x) as [|p u] eqn:Eu; [cbn in Hlen; lia|]|];
      [exists (Deliver x r 0 [])|exists (Deliver r x 0 [])]; constructor; congruence || done. }
  destruct (v_stage v) as [|l|l|l] eqn:Hst.
  - destruct Hs as [Hp Hall].
    destruct (decide (Exists (fun x => 0 < length (down v x) + length (up v x))%nat others)) as [(x & [Hx Hxr]%others_spec & Hlen)%list_relations.list.Exists_exists|Hno].
    { left. by eapply Hmsg. }
    right. split_and!; [done|done|]. intros x Hx Hxr. specialize (Hall x Hx Hxr).
    assert (~ (0 < length (down v x) + length (up v x))%nat) as Hz.
    { intros Hlen. destruct Hno. apply list_relations.list.Exists_exists. exists x. split; [|done]. by apply others_spec. }
    unfold down, up, news, proposal, replies in Hz. rewrite Hst in Hz. destruct (v_pos v x), (v_ack v x); cbn in Hz; try done; lia.
  - left. destruct (set_choose_or_empty (q ∖ v_acc v)) as [[x Hx]|Hx].
    + apply elem_of_difference in Hx as [Hx Hxa]. assert (x <> r) as Hxr by (intros ->; by apply Hxa, (ro_self v Hok)).
      apply (Hmsg x Hx Hxr). rewrite (ro_acc v Hok x Hx Hxr) in Hxa.
      unfold down, up, news, proposal, replies. rewrite Hst. destruct (v_pos v x), (v_ack v x); cbn; try done; lia.
    + destruct Hs. apply (anti_symm (⊆)); [apply (ro_self v Hok)|]. by apply empty_difference_subseteq.
  - left. exists (Flush r). destruct Hl as [(_ & _ & Hio & _) _]. by econstructor.
  - left. exists (Committed r 0 false). destruct Hl as (_ & Hio & _). by econstructor.
Qed.

Lemma ready_shows L F S c : ready L F S c -> shows (rest L F S) c.
Proof. intros Hrd. eapply quorum_at_ext; [exact Hrd| |done]. intros n (Hl & Hk & Ha & Hh & Hio). by split_and!. Qed.

Lemma shows_ready v c :
  shows v c -> v_stage v = Idle -> v_pend v = None -> (forall x, x ∈ q -> x <> r -> v_pos v x = Leased /\ v_ack v x = None) ->
  ready (v_L v) (v_F v) (v_S v) c.
Proof.
  intros Hsh Hst Hp Hall. eapply quorum_at_ext; [exact Hsh| |].
  - intros n (Hl & Hk & Hs). rewrite Hst in Hs. rewrite Hp in Hl. by destruct Hs as (? & ? & ?).
  - intros x Hx Hxr. destruct (Hall x Hx Hxr) as [Hpos Hno]. unfold peer_at, down, up, news, proposal, replies. by rewrite Hpos, Hno, Hst.
Qed.

(** The abstract state of every run. *)
Lemma served_round L F S c reqs k c' :
  ready L F S c -> 0 <= F <= L -> served c reqs k c' -> L + zlen reqs - F <= paxos_min cfg + paxos_trim_min cfg < 2 ^ 31 ->
  exists v, shows v c' /\ round_ok v /\ owes v (foldl apply_ops S reqs) (L + zlen reqs) F /\ (k + todo v <= length reqs * round_cost)%nat.
Proof using Hr Hq.
  intros Hrd HF Hsv. induction Hsv as [|reqs k c1 l c2 Hsv IH He|reqs k c1 ev c2 Hsv IH Hw He]; intros Hb.
  - exists (rest L F S). destruct (rest_ok L F S) as [Hok Ht]. split_and!; [by apply ready_shows|done| |rewrite Ht; cbn; lia].
    unfold owes. cbn. split_and!; (done || lia).
  - rewrite length_app in *. cbn [length] in *. destruct IH as (v & Hsh & Hok & How & Ht); [lia|].
    destruct (ask_step v c1 l Hsh Hok) as (c' & He' & Hsh'). rewrite He in He'. injection He' as <-. exists (ask l v).
    split_and!; [done|by apply ask_ok| |pose proof (ask_todo l v Hok); lia].
    rewrite foldl_app. cbn [foldl]. replace (L + Z.of_nat (length reqs + 1)) with (L + zlen reqs + 1) by lia. by apply ask_owes.
  - destruct IH as (v & Hsh & Hok & How & Ht); [done|].
    destruct (work_step v c1 ev _ _ _ Hsh Hok How Hb Hw) as (c' & v' & He' & Hsh' & Hok' & Ht' & How'). rewrite He in He'. injection He' as <-.
    exists v'. split_and!; [done|done|by apply How'|lia].
Qed.

Lemma served_spec L F S c reqs k c' :
  ready L F S c -> 0 <= F <= L -> served c reqs k c' -> L + zlen reqs - F <= paxos_min cfg + paxos_trim_min cfg < 2 ^ 31 ->
  (k <= length reqs * round_cost)%nat /\ (forall ev, work c' ev -> is_Some (exec ev c')) /\ (forall l, is_Some (exec (Propose r l true) c')) /\
  ((exists ev, work c' ev) \/ exists L' F', L' <= L + zlen reqs /\ ready L' F' (foldl apply_ops S reqs) c').
Proof using Hr Hq.
  intros Hrd HF Hsv Hb. destruct (served_round L F S c reqs k c' Hrd HF Hsv Hb) as (v & Hsh & Hok & How & Ht). split_and!.
  - lia.
  - intros ev Hw. destruct (work_step v c' ev _ _ _ Hsh Hok How Hb Hw) as (c2 & _ & He & _). by exists c2.
  - intros l. destruct (ask_step v c' l Hsh Hok) as (c2 & He & _). by exists c2.
  - destruct (work_left v c' Hsh Hok) as [?|(Hst & Hp & Hall)]; [by left|]. right. exists (v_L v), (v_F v).
    destruct How as (HT & _ & _ & HM). rewrite Hst, Hp in *. cbn in HT, HM. split; [lia|]. rewrite <- HT. by apply shows_ready.
Qed.

Lemma round_cost_eq : round_cost = (5 * size q - 3)%nat.
Proof using Hr Hq.
  unfold round_cost, others. replace (length (elements (q ∖ {[r]}))) with (size (q ∖ {[r]})) by done.
  rewrite size_difference, size_singleton by set_solver. lia.
Qed.

Lemma ready_stores L F S c a :
  ready L F S c -> a ∈ q -> exists n, nodes c !! a = Some n /\ d_last_committed (n_store n) = L /\ d_service (n_store n) = S.
Proof.
  intros [(n & Hn & (_ & _ & _ & (? & _ & ?) & _) & _) Hp _] Ha. destruct (decide (a = r)) as [->|Hne]; [by exists n|].
  destruct (Hp a Ha Hne) as (m & Hm & [_ _ _ _ _ _ [? ?] _] & _). exists m. by split_and!.
Qed.
End live.
