(* ===== verification/PaxosLog.v ===== *)
(** * The log of the monitors

    What the monitors promise their services: one log of transactions, to
    which versions are only appended, and of which every store is a prefix.
    [refines] relates a log to the monitors; [refines_step] says that a step of
    the monitors is some number of appends. *)

From stdpp Require Import gmap sorting.
From S2P Require Import Prelude Paxos PaxosVote PaxosNet PaxosInv PaxosFrame PaxosStore PaxosSteps PaxosSafety Elector Monitors MonitorsSafety.
Open Scope Z_scope.

Section log.
Context {Op Svc : Type} (run_op : Op -> Svc -> Svc) (cfg : config) (N : Z) (s0 : Svc).
Notation node := (@node Op Svc).
Notation packet := (@packet Op).
Notation system := (@system Op Svc).
Notation tx := (list (@vop Op)).
Notation chosenP := (@chosenP Op N).
Notation hist := (@hist Op Svc run_op N s0).
Notation SInv := (SInv run_op N s0).

(** The abstract machine. *)
Inductive append : list tx -> list tx -> Prop :=
  | append_tx l x : append l (l ++ [x]).

(** The store of the first [lc] transactions of a log. *)
Record prefix_store (l : list tx) (d : @MonitorDBStore Op Svc) : Prop := PrefixStore {
  ps_range : 0 <= d_last_committed d <= Z.of_nat (length l);
  ps_service : d_service d = svc_after run_op (concat (take (Z.to_nat (d_last_committed d)) l)) s0;
  ps_first : d_first_committed d = fc_after (concat (take (Z.to_nat (d_last_committed d)) l)) 0;
  ps_versions v : 1 <= v -> d_first_committed d <= v <= d_last_committed d ->
    exists t t', d_versions d !! v = Some (Some t) /\ l !! Z.to_nat (v - 1) = Some t' /\ tx_eq run_op t t';
}.

(** A majority has accepted each transaction, and each store is a prefix. *)
Record refines (l : list tx) (s : system) : Prop := Refines {
  rf_chosen i x : l !! i = Some x -> chosenP (sent (px s)) (Z.of_nat i + 1) x;
  rf_store r n : nodes (px s) !! r = Some n -> prefix_store l (n_store n);
}.

(** ** Logs of chosen values *)

Definition all_chosen (σ : list packet) (l : list tx) : Prop := forall i x, l !! i = Some x -> chosenP σ (Z.of_nat i + 1) x.

Lemma svc_concat l x s : svc_after run_op (concat (l ++ [x])) s = svc_after run_op x (svc_after run_op (concat l) s).
Proof. unfold svc_after. by rewrite concat_app, foldl_app; cbn; rewrite app_nil_r. Qed.

Lemma fc_concat (l : list tx) x f : fc_after (concat (l ++ [x])) f = fc_after x (fc_after (concat l) f).
Proof. unfold fc_after. by rewrite concat_app, foldl_app; cbn; rewrite app_nil_r. Qed.

Lemma all_chosen_hist σ l :
  all_chosen σ l -> hist σ (Z.of_nat (length l)) (fc_after (concat l) 0) (svc_after run_op (concat l) s0).
Proof.
  induction l as [|x l IH] using rev_ind; intros Hc; [constructor|].
  rewrite svc_concat, fc_concat, length_app, Nat2Z.inj_add. constructor.
  - apply IH. intros i y Hy. apply Hc. by apply lookup_app_l_Some.
  - apply Hc. by apply list_lookup_middle.
Qed.

Lemma all_chosen_take σ l n : all_chosen σ l -> all_chosen σ (take n l).
Proof. intros Hc i x [Hx _]%lookup_take_Some. by apply Hc. Qed.

Lemma hist_log σ n f s : hist σ n f s -> exists l, all_chosen σ l /\ Z.of_nat (length l) = n.
Proof.
  induction 1 as [|n f s x H (l & Hl & Hn) Hx]; [by exists []|].
  exists (l ++ [x]). rewrite length_app. split; [|cbn; lia]. intros i y [Hy|[Hi Hy]]%lookup_app_Some; [by apply Hl|].
  apply list_lookup_singleton_Some in Hy as [Hi' <-]. by replace (Z.of_nat i) with n by lia.
Qed.

(** A longer log keeps the beginning. *)
Lemma all_chosen_extend σ l l' : all_chosen σ l -> all_chosen σ l' -> all_chosen σ (l ++ drop (length l) l').
Proof.
  intros Hl Hl' i x [Hx|[Hi Hx]]%lookup_app_Some; [by apply Hl|]. rewrite lookup_drop in Hx. apply Hl'.
  by replace i with (length l + (i - length l))%nat by lia.
Qed.

Lemma append_drop (l k : list tx) : rtc append l (l ++ k).
Proof.
  revert l. induction k as [|x k IH]; intros l; [by rewrite app_nil_r|].
  eapply rtc_l; [apply append_tx|]. specialize (IH (l ++ [x])). by rewrite <- (assoc_L (++)) in IH.
Qed.

Lemma chosen_prefix_store m ν σ l a acc d :
  inv run_op N s0 m ν σ -> disk_ok run_op N s0 σ a acc d -> all_chosen σ l -> d_last_committed d <= Z.of_nat (length l) -> prefix_store l d.
Proof.
  intros Hi [] Hl Hle. assert (0 <= d_last_committed d) by lia. set (k := Z.to_nat (d_last_committed d)).
  pose proof (all_chosen_hist σ (take k l) (all_chosen_take _ _ _ Hl)) as Hh. rewrite length_take in Hh.
  replace (Z.of_nat (k `min` length l)) with (d_last_committed d) in Hh by lia.
  destruct (hist_det _ _ _ _ _ _ _ _ _ _ (i_vote _ _ _ _ _ _ Hi) Hh dk_hist) as [Hf Hs]. split; [lia|done|done|].
  intros v H1 Hv. destruct (dk_cont v H1 Hv) as [bl Hbl]. destruct (dk_chosen v bl Hbl) as (t & -> & Ht); [lia|].
  destruct (l !! Z.to_nat (v - 1)) as [t'|] eqn:Ht'; [|apply lookup_ge_None in Ht'; lia]. exists t, t'. split_and!; [done|done|].
  apply Hl in Ht'. replace (Z.of_nat (Z.to_nat (v - 1)) + 1) with v in Ht' by lia.
  pose proof (i_vote _ _ _ _ _ _ Hi). by eapply (agreement (tx_eq run_op) (majority N) (majority_meet N) (abs m σ)).
Qed.

(** A log that covers the monitors of [rs]. *)
Lemma log_covers (s : system) l (rs : list Z) :
  SInv s -> all_chosen (sent (px s)) l ->
  exists k, all_chosen (sent (px s)) (l ++ k) /\
    forall r n, r ∈ rs -> nodes (px s) !! r = Some n -> d_last_committed (n_store n) <= Z.of_nat (length (l ++ k)).
Proof.
  intros HI Hl. induction rs as [|r rs (k & Hk & IH)].
  { exists []. rewrite app_nil_r. split; [done|]. by intros ?? []%not_elem_of_nil. }
  destruct (nodes (px s) !! r) as [n|] eqn:Hn.
  2: { exists k. split; [done|]. intros r' n' [->|Hr]%elem_of_cons Hn'; [congruence|by eapply IH]. }
  destruct (si_px _ _ _ _ HI) as [Hi _]. destruct (hist_log _ _ _ _ (dk_hist _ _ _ _ _ _ _ (st_disk _ _ _ _ _ _ (i_store _ _ _ _ _ _ Hi r n Hn)))) as (l' & Hl' & Hlen).
  exists (k ++ drop (length (l ++ k)) l'). rewrite (assoc_L (++)). split; [by apply all_chosen_extend|].
  intros r' n' [->|Hr]%elem_of_cons Hn'.
  - rewrite Hn in Hn'. injection Hn' as <-. rewrite length_app, length_drop. lia.
  - specialize (IH r' n' Hr Hn'). rewrite (length_app (l ++ k)). lia.
Qed.

Lemma refines_start : 0 <= N -> refines [] (mstart N s0).
Proof.
  intros HN. split; [done|]. intros r n Hn. assert (n = fresh_node r N s0) as ->; [|split; cbn; [lia|done|done|lia]].
  cbn in Hn. apply elem_of_list_to_map_2, list_elem_of_fmap in Hn as (a & [= -> ->] & _). done.
Qed.

(** Every later state continues the log. *)
Lemma refines_step l s s' :
  SInv s' -> (exists k, sent (px s') = sent (px s) ++ k) -> refines l s -> exists l', rtc append l l' /\ refines l' s'.
Proof.
  intros HI [k Hk] [Hc _]. assert (all_chosen (sent (px s')) l) as Hl.
  { intros i x Hx. rewrite Hk. by apply chosenP_app, Hc. }
  destruct (log_covers s' l (seqZ 0 N) HI Hl) as (k' & Hk' & Hcov). exists (l ++ k'). split; [apply append_drop|]. split; [done|].
  intros r n Hn. destruct (si_px _ _ _ _ HI) as [Hi _]. destruct (i_dom _ _ _ _ _ _ Hi r n Hn) as [Hr _].
  eapply chosen_prefix_store; [done|by eapply i_store|done|]. eapply Hcov; [|done]. apply elem_of_seqZ. lia.
Qed.

(** ** Two stores, possibly at different times *)

(** What a store says of the log. *)
Definition of_log (σ : list packet) (d : @MonitorDBStore Op Svc) : Prop :=
  hist σ (d_last_committed d) (d_first_committed d) (d_service d) /\
  forall v bl, d_versions d !! v = Some bl -> v <= d_last_committed d -> exists x, bl = Some x /\ chosenP σ v x.

Lemma of_log_app σ σ' d : of_log σ d -> of_log (σ ++ σ') d.
Proof.
  intros [Hh Hv]. split; [by apply hist_app|]. intros v bl Hb Hle. destruct (Hv v bl Hb Hle) as (x & -> & Hx). exists x. split; [done|by apply chosenP_app].
Qed.

Lemma SInv_of_log s r n : SInv s -> nodes (px s) !! r = Some n -> of_log (sent (px s)) (n_store n).
Proof. intros HI Hn. destruct (si_px _ _ _ _ HI) as [Hi _]. destruct (st_disk _ _ _ _ _ _ (i_store _ _ _ _ _ _ Hi r n Hn)). by split. Qed.

Lemma of_log_agree s d1 d2 :
  SInv s -> of_log (sent (px s)) d1 -> of_log (sent (px s)) d2 ->
  (d_last_committed d1 = d_last_committed d2 -> d_service d1 = d_service d2 /\ d_first_committed d1 = d_first_committed d2) /\
  forall v bl1 bl2, v <= d_last_committed d1 -> v <= d_last_committed d2 -> d_versions d1 !! v = Some bl1 -> d_versions d2 !! v = Some bl2 ->
    exists t1 t2, bl1 = Some t1 /\ bl2 = Some t2 /\ tx_eq run_op t1 t2.
Proof.
  intros HI [Hh1 H1] [Hh2 H2]. destruct (si_px _ _ _ _ HI) as [Hi _]. pose proof (i_vote _ _ _ _ _ _ Hi) as Hv. split.
  - intros He. rewrite He in Hh1. by destruct (hist_det _ _ _ _ _ _ _ _ _ _ Hv Hh1 Hh2).
  - intros v bl1 bl2 Hle1 Hle2 Hb1 Hb2. destruct (H1 v bl1 Hb1 Hle1) as (t1 & -> & Ht1).
    destruct (H2 v bl2 Hb2 Hle2) as (t2 & -> & Ht2). exists t1, t2. split_and!; [done|done|].
    by eapply (agreement (tx_eq run_op) (majority N) (majority_meet N) (abs (nodes (px s)) (sent (px s)))).
Qed.
End log.
