(* ===== verification/MonTheorems.v ===== *)
(** * The monitors: what they guarantee

    Agreement, the log and its limits, stated for every run of the monitors of
    Monitors.v. *)

From stdpp Require Import gmap sorting.
From S2P Require Import Prelude Paxos PaxosVote PaxosNet PaxosInv PaxosStore PaxosEpoch PaxosSafety Elector Monitors MonitorsSafety Elections PaxosLive PaxosLog.
Open Scope Z_scope.

Definition note (o : Z) (s : list Z) : list Z := s ++ [o].
Definition run_cfg : config := Config 500 250 500 5.
Definition plain_env : env := MkEnv 0 0 0 0 0 0 0.

Notation event_ := (@mevent Z).
Notation system_ := (@system Z (list Z)).

Definition deliver (s d : Z) : event_ := Paxos (Deliver s d 1 []).
Definition receive_ : event_ := Receive 0 plain_env 1 [].
Definition request (r o : Z) : event_ := Paxos (Propose r [o] true).
Definition committed (r : Z) : list event_ := [Paxos (Flush r); Paxos (Committed r 1 false)].

(** The proposals of [l] to the [n - 1] other monitors, of which those to [q]
    arrive, and the rest of the election. *)
Definition campaign (n l : Z) (q : list Z) : list event_ :=
  ((fun i => if bool_decide (i ∈ q) then receive_ else Drop 0) <$> filter (fun i => i <> l) (seqZ 0 n)) ++
  ((fun _ => receive_) <$> q) ++ [Expire l true plain_env 1 []] ++ ((fun _ => receive_) <$> q).

Definition elect (n l : Z) (q : list Z) : list event_ := StartElection l plain_env 1 [] :: campaign n l q.

(** Monitor [x], of [n], stops probing: it starts an election of which nobody
    hears. *)
Definition wake (n x : Z) : list event_ := StartElection x plain_env 1 [] :: replicate (Z.to_nat (n - 1)) (Drop 0).

(** Monitor [x] starts an election, and only [l] hears of it. *)
Definition elect_by (n x l : Z) (q : list Z) : list event_ :=
  StartElection x plain_env 1 [] ::
  (filter (fun i => i <> x) (seqZ 0 n) ≫= fun i => if bool_decide (i = l) then [] else [Drop (if i <? l then 0%nat else 1%nat)]) ++
  [receive_] ++ campaign n l q.

(** The leader sends to both and both answer. *)
Definition exchange (l a b : Z) : list event_ := [deliver l a; deliver l b; deliver a l; deliver b l].

(** Three monitors: 0 and 1 elect 0, recover and commit 7. *)
Definition first_round : list event_ :=
  wake 3 1 ++ elect 3 0 [1] ++ [deliver 0 1; deliver 1 0; deliver 0 1; deliver 1 0; request 0 7; deliver 0 1; deliver 1 0] ++ committed 0.

(** Monitor 1 learns 7; monitor 2 restarts, forms a quorum with 0 and learns 7
    too. *)
Definition second_round : list event_ :=
  [deliver 0 1; Boot 2] ++ wake 3 2 ++ elect_by 3 1 0 [2] ++ [deliver 0 2; deliver 2 0; deliver 0 2].

(** Five monitors: 2 proposes 77 and restarts; 1 proposes 55, which 3 accepts,
    and restarts; 0 learns 77 from 2 and asks 1 to accept it; 0 restarts and
    commits 77 with 1 and 2, since 1 has forgotten its promise; 1 learns 55
    from 3 and commits it with 3 and 4. *)
Definition forgetful : list event_ :=
  wake 5 3 ++ wake 5 4 ++ elect 5 2 [3; 4] ++ exchange 2 3 4 ++ exchange 2 3 4 ++ [request 2 77; Boot 2] ++ wake 5 1 ++
  elect_by 5 3 1 [3; 4] ++ [deliver 1 3; deliver 3 1; deliver 1 4; deliver 4 1] ++ exchange 1 3 4 ++ exchange 1 3 4 ++
  [request 1 55; deliver 1 3; Boot 1] ++ wake 5 2 ++ wake 5 0 ++
  elect_by 5 1 0 [1; 2] ++ exchange 0 1 2 ++ [deliver 0 1; Boot 0] ++
  elect 5 0 [1; 2] ++ exchange 0 1 2 ++ exchange 0 1 2 ++ committed 0 ++
  elect_by 5 3 1 [3; 4] ++ exchange 1 3 4 ++ exchange 1 3 4 ++ committed 1.

Definition state_after (n : Z) (l : list event_) : system_ := default (mstart n []) (mrun note run_cfg promise_kept l (mstart n [])).

(** A state that monitors with empty stores can reach. *)
Definition reached {Op Svc} (run_op : Op -> Svc -> Svc) (cfg : config) (N : Z) (s0 : Svc) : @system Op Svc -> Prop :=
  msteps run_op cfg promise_kept (mstart N s0).

Section runs.
Context {Op Svc : Type} (run_op : Op -> Svc -> Svc) (cfg : config) (N : Z) (s0 : Svc).
Context (HN : 2 <= N <= 100) (Hcfg : 0 <= paxos_min cfg).

Lemma reached_inv s : reached run_op cfg N s0 s -> SInv run_op N s0 s.
Proof using HN Hcfg. intros H. eapply msteps_inv; [done|done|by intros ? ?|by apply mstart_inv|exact H]. Qed.

Lemma later_inv s s' : reached run_op cfg N s0 s -> msteps run_op cfg promise_kept s s' -> SInv run_op N s0 s'.
Proof using HN Hcfg. intros H. eapply msteps_inv; [done|done|by intros ? ?|by apply reached_inv]. Qed.
End runs.

(** C1. Agreement: in every run of [N] monitors with elections, lost messages
    and restarts of monitors whose promise is in their store, two monitors
    that have committed the same number of versions, now or at different
    times, have the same state of the services and the same first version;
    and the transactions two stores keep for a committed version have the same
    effect. *)
Theorem paxos_agreement {Op Svc} (run_op : Op -> Svc -> Svc) cfg N s0 s1 s2 r1 r2 n1 n2 :
  2 <= N <= 100 -> 0 <= paxos_min cfg ->
  reached run_op cfg N s0 s1 -> msteps run_op cfg promise_kept s1 s2 ->
  nodes (px s1) !! r1 = Some n1 -> nodes (px s2) !! r2 = Some n2 ->
  let d1 := n_store n1 in let d2 := n_store n2 in
  (d_last_committed d1 = d_last_committed d2 -> d_service d1 = d_service d2 /\ d_first_committed d1 = d_first_committed d2) /\
  forall v bl1 bl2, v <= d_last_committed d1 -> v <= d_last_committed d2 -> d_versions d1 !! v = Some bl1 -> d_versions d2 !! v = Some bl2 ->
    exists t1 t2, bl1 = Some t1 /\ bl2 = Some t2 /\ tx_eq run_op t1 t2.
Proof.
  intros HN Hcfg H1 H2 Hn1 Hn2. pose proof (later_inv _ _ _ _ HN Hcfg _ _ H1 H2) as HI.
  eapply of_log_agree; [exact HI| |by eapply SInv_of_log]. apply msteps_sent in H2 as [l ->].
  apply of_log_app. eapply SInv_of_log; [|done]. by eapply reached_inv.
Qed.

Definition state_1 : system_ := Eval vm_compute in state_after 3 first_round.
Definition state_2 : system_ := Eval vm_compute in state_after 3 (first_round ++ second_round).
Definition node_of (s : system_) (r : Z) : @node Z (list Z) := default (fresh_node 0 0 []) (nodes (px s) !! r).

Lemma state_1_reached : reached note run_cfg 3 [] state_1.
Proof. eapply (mrun_msteps _ _ _ first_round); [apply msteps_refl|]. vm_compute. reflexivity. Qed.

Lemma state_2_later : msteps note run_cfg promise_kept state_1 state_2.
Proof. eapply (mrun_msteps _ _ _ second_round); [apply msteps_refl|]. vm_compute. reflexivity. Qed.

Lemma paxos_agreement_witness :
  d_last_committed (n_store (node_of state_1 0)) = 1 /\ d_last_committed (n_store (node_of state_2 2)) = 1 /\
  d_service (n_store (node_of state_1 0)) = d_service (n_store (node_of state_2 2)) /\ d_service (n_store (node_of state_2 2)) = [7].
Proof.
  split_and!; [vm_compute; reflexivity..| |vm_compute; reflexivity].
  destruct (paxos_agreement note run_cfg 3 [] state_1 state_2 0 2 (node_of state_1 0) (node_of state_2 2)) as [H _].
  - lia.
  - vm_compute. done.
  - exact state_1_reached.
  - exact state_2_later.
  - vm_compute. reflexivity.
  - vm_compute. reflexivity.
  - apply H. vm_compute. reflexivity.
Defined.

(** C4. The monitors implement one log: monitors with empty stores match the
    empty log, and whatever a reachable state does next, a log it matches is
    only appended to.  A state matches a log when a majority has accepted each
    of its transactions and every store is the result of a prefix of it. *)
Theorem paxos_refines_log {Op Svc} (run_op : Op -> Svc -> Svc) cfg N s0 :
  2 <= N <= 100 -> 0 <= paxos_min cfg ->
  refines run_op N s0 [] (mstart N s0) /\
  forall l s s', reached run_op cfg N s0 s -> refines run_op N s0 l s -> msteps run_op cfg promise_kept s s' ->
    exists l', rtc append l l' /\ refines run_op N s0 l' s'.
Proof.
  intros HN Hcfg. split; [apply refines_start; lia|]. intros l s s' Hs Hl Hs'.
  eapply refines_step; [by eapply later_inv|by eapply msteps_sent|exact Hl].
Qed.

Lemma paxos_refines_log_witness :
  exists l', rtc append [] l' /\ refines note 3 [] l' state_1.
Proof.
  destruct (paxos_refines_log note run_cfg 3 []) as [H0 H]; [lia|vm_compute; done|].
  exact (H [] _ _ (msteps_refl _ _ _ _) H0 state_1_reached).
Defined.

Definition state_forgetful : system_ :=
  Eval vm_compute in default (mstart 5 []) (mrun note run_cfg (fun _ => true) forgetful (mstart 5 [])).

(** C30. Restarts: [collect] does not write [accepted_pn], which [init] reads
    back.  Five monitors that may restart at any time can reach a state in
    which monitors 0 and 1 have committed different transactions as version
    1. *)
Theorem restart_loses_promise :
  exists s n0 n1, msteps note run_cfg (fun _ => true) (mstart 5 []) s /\
    nodes (px s) !! 0 = Some n0 /\ nodes (px s) !! 1 = Some n1 /\
    d_last_committed (n_store n0) = 1 /\ d_last_committed (n_store n1) = 1 /\
    d_service (n_store n0) = [77] /\ d_service (n_store n1) = [55].
Proof.
  exists state_forgetful, (node_of state_forgetful 0), (node_of state_forgetful 1).
  split; [|split_and!; vm_compute; reflexivity].
  eapply (mrun_msteps _ _ _ forgetful); [apply msteps_refl|]. vm_compute. reflexivity.
Qed.

(** C10. Elections, with restarts at any time: a candidate is in an odd epoch
    and counts its own vote; a leader or peon is in an even epoch, the one in
    its store; a leader is its own leader, and its quorum includes it and is a
    majority of the monitors; the leader of a peon has a lower rank. *)
Theorem elections_sound {Op Svc} (run_op : Op -> Svc -> Svc) cfg may_restart N s0 s r n x :
  msteps run_op cfg may_restart (mstart N s0) s -> nodes (px s) !! r = Some n -> els s !! r = Some x ->
  let mo := n_mon n in
  (electing_me x = true -> Z.odd (m_epoch mo) = true /\ r ∈ dom (acked_me x)) /\
  (in_quorum (m_role mo) = true -> Z.even (m_epoch mo) = true /\ m_epoch mo = election_epoch x) /\
  (m_role mo = Leader -> m_leader mo = r /\ r ∈ m_quorum mo /\ majority N (m_quorum mo)) /\
  (m_role mo = Peon -> m_leader mo < r).
Proof.
  intros [He _]%msteps_elect Hn Hx. destruct (He r n Hn) as (x' & Hx' & [_ _ _ Hc Hst Hl Hp]). rewrite Hx in Hx'. injection Hx' as <-.
  split_and!; [done| |done|done]. intros Ho. by destruct (Hst Ho) as (? & ? & _).
Qed.

Lemma elections_sound_witness :
  m_role (n_mon (node_of state_2 0)) = Leader /\ majority 3 (m_quorum (n_mon (node_of state_2 0))).
Proof.
  assert (m_role (n_mon (node_of state_2 0)) = Leader) as Hl by (vm_compute; reflexivity). split; [exact Hl|].
  destruct (elections_sound note run_cfg promise_kept 3 [] state_2 0 (node_of state_2 0) (default (new_elector 0) (els state_2 !! 0))) as (_ & _ & H & _).
  - eapply (mrun_msteps _ _ _ (first_round ++ second_round)); [apply msteps_refl|]. vm_compute. reflexivity.
  - vm_compute. reflexivity.
  - vm_compute. reflexivity.
  - by destruct (H Hl) as (_ & _ & ?).
Defined.

(** C11. Progress: a quorum of more than one member, which are up, agree on the
    epoch, the leader and the proposal number, and have nothing on its way
    between them.  The leader is given requests at any time; the messages
    between it and the other members are delivered in any order that keeps each
    channel in order, and the leader's writes happen at any point.  None of
    these events fails an assertion, and the leader can always be given another
    request; [reqs] requests take at most [5 * size q - 3] events each; and when
    nothing is left to do, every member's services have applied all requests in
    the order they were given, in at most one version each, and the quorum is
    in such a state again.  Messages are not lost, no timer fires, no service
    asks for a bootstrap, and no trim is due. *)
Theorem requests_commit {Op Svc} (run_op : Op -> Svc -> Svc) cfg r q e P L F S reqs k (c c' : @cluster Op Svc) :
  r ∈ q -> 1 < Z.of_nat (size q) -> ready r q e P L F S c ->
  0 <= F <= L -> L + zlen reqs - F <= paxos_min cfg + paxos_trim_min cfg < 2 ^ 31 ->
  served run_op cfg r q c reqs k c' ->
  (k <= length reqs * (5 * size q - 3))%nat /\
  (forall ev, work r q c' ev -> is_Some (exec run_op cfg ev c')) /\
  (forall l, is_Some (exec run_op cfg (Propose r l true) c')) /\
  ((exists ev, work r q c' ev) \/
   exists L' F', L' <= L + zlen reqs /\
     let S' := foldl (fun S l => foldl (fun S o => run_op o S) S l) S reqs in
     ready r q e P L' F' S' c' /\
     forall a, a ∈ q -> exists n, nodes c' !! a = Some n /\ d_last_committed (n_store n) = L' /\ d_service (n_store n) = S').
Proof.
  intros Hr Hq Hrd HF Hb Hsv. destruct (served_spec run_op cfg r q e P Hr Hq L F S c reqs k c' Hrd HF Hsv Hb) as (Hk & Hw & Hp & Hend).
  rewrite <- (round_cost_eq r q Hr Hq). split_and!; [exact Hk|exact Hw|exact Hp|]. destruct Hend as [?|(L' & F' & HL & Hrd')]; [by left|right].
  exists L', F'. split; [done|]. split; [exact Hrd'|]. intros a Ha. by eapply ready_stores.
Qed.

Definition state_ready : system_ := Eval vm_compute in state_after 3 (first_round ++ [deliver 0 1; deliver 0 1; deliver 1 0]).

(** Monitor 0 is given 8, and 9 while it waits for 1; 1 answers the lease of the
    first round after the proposal of the second has arrived. *)
Definition two_requests : list (@event Z) :=
  [Propose 0 [8] true; Deliver 0 1 1 []; Propose 0 [9] true; Deliver 1 0 1 []; Flush 0; Committed 0 1 false;
   Deliver 0 1 1 []; Deliver 0 1 1 []; Deliver 0 1 1 []].

Fixpoint exec_all (l : list (@event Z)) (c : @cluster Z (list Z)) : option (@cluster Z (list Z)) :=
  match l with [] => Some c | ev :: l => match exec note run_cfg ev c with Some c => exec_all l c | None => None end end.

Definition after_requests (k : nat) : @cluster Z (list Z) := default (px state_ready) (exec_all (take k two_requests) (px state_ready)).

(** The next event of the run. *)
Ltac by_work k ev :=
  apply (served_work _ _ _ _ _ _ _ (after_requests k) ev);
  [|first [constructor; [set_solver|done|vm_compute; done|done]|econstructor; vm_compute; reflexivity]|vm_compute; reflexivity].
Ltac by_request k l :=
  apply (served_request _ _ _ _ _ _ _ (after_requests k) l); [|vm_compute; reflexivity].

Lemma two_requests_served : served note run_cfg 0 {[0; 1]} (px state_ready) [[8]; [9]] 7 (after_requests 9).
Proof.
  by_work 8%nat (@Deliver Z 0 1 1 []). by_work 7%nat (@Deliver Z 0 1 1 []). by_work 6%nat (@Deliver Z 0 1 1 []).
  by_work 5%nat (@Committed Z 0 1 false). by_work 4%nat (@Flush Z 0). by_work 3%nat (@Deliver Z 1 0 1 []).
  change ([[8]; [9]]) with ([[8]] ++ [[9]]). by_request 2%nat [9]. by_work 1%nat (@Deliver Z 0 1 1 []).
  change ([[8]]) with ([] ++ [[8]]). by_request 0%nat [8]. apply served_start.
Qed.

Lemma requests_commit_witness :
  (exists ev, work 0 {[0; 1]} (after_requests 9) ev) \/
  exists L' F', L' <= 3 /\ ready 0 {[0; 1]} 2 100 L' F' [7; 8; 9] (after_requests 9) /\
    forall a, a ∈ ({[0; 1]} : gset Z) -> exists n, nodes (after_requests 9) !! a = Some n /\ d_last_committed (n_store n) = L' /\ d_service (n_store n) = [7; 8; 9].
Proof.
  destruct (requests_commit note run_cfg 0 {[0; 1]} 2 100 1 1 [7] [[8]; [9]] 7 (px state_ready) (after_requests 9)) as (_ & _ & _ & H).
  - set_solver.
  - vm_compute. done.
  - split.
    + exists (node_of state_ready 0). repeat split; vm_compute; done.
    + intros a [->%elem_of_singleton| ->%elem_of_singleton]%elem_of_union Hne; [done|]. exists (node_of state_ready 1).
      repeat split; vm_compute; done.
    + intros a [->%elem_of_singleton| ->%elem_of_singleton]%elem_of_union Hne; [done|]. split; vm_compute; reflexivity.
  - lia.
  - vm_compute. done.
  - exact two_requests_served.
  - exact H.
Defined.
